(* ===== verification/_CoqProject ===== *)
-Q . S2P
Prelude.v
ObjectFormat.v
CacheCore.v
ExpirationHeap.v
Capacity.v
CacheStore.v
CacheView.v
CacheExpiry.v
CacheCommit.v
CacheStoreOps.v
CacheWrites.v
CacheInvariant.v
CacheFlush.v
CacheTheorems.v
CacheRuns.v
WriteQueue.v
Access.v
Alerting.v
AlertingTheorems.v
JobQueue.v
JobQueueTheorems.v
DnsScheduler.v
OriginSelect.v
LogQueue.v
LogQueueTheorems.v
LogQueueSpec.v
AccessLog.v
AccessLogTheorems.v
WafPolicy.v
WafPolicyTheorems.v
RateLimit.v
RateLimitTheorems.v
Http.v
WafHandler.v
WafHandlerTheorems.v
Base64.v
WafChallenge.v
WafChallengeTheorems.v
HttpConditional.v
CacheRange.v
CacheRangeTheorems.v
CacheRules.v
CacheRulesTheorems.v
EncodeSession.v
CaptureResponse.v
CaptureTheorems.v
CacheHandler.v
CacheHandlerTheorems.v
