(* ===== verification/Prelude.v ===== *)
(** * Goveto Edge: a verification development

    Goveto Edge is a content delivery platform.  A control plane
    ([src/internal], [src/cmd/control-api]) keeps clusters, sites and
    certificates in PostgreSQL, runs background jobs against them, publishes
    nodes in DNS and raises alerts; edge nodes ([src/caddy],
    [src/cmd/edge-agent]) are Caddy servers with the platform's modules, among
    them an HTTP cache with its own store.  This development models the parts
    that carry the platform's own logic and proves what makes them correct.

    ** How the code is modelled

    Every operation is an executable function with its source's name: an
    operation on shared state takes the state and returns it, one that can fail
    returns a [result] (Go's value and error), a clock reading or the answer of
    a system call is an argument, and goroutines that interleave are the steps
    of a relation.  Maps are finite maps, sets finite sets; the arbitrary
    order of a Go [range] over a map is an interface ([CacheCore.GoRange]), so
    the theorems hold for every order.  Integers are kept at their width where
    they are read from input or can overflow (the object format, the capacity
    products, the retry delays, the weights of the origins); byte counters of
    the store are natural numbers with the saturating subtractions of the code,
    as their sums are bounded by the size of a disk.  Third-party code is a
    parameter: LZ4 in [ObjectFormat] (with its round trip as the hypothesis),
    the JSON text of a mapping in [CacheCore] (a class with its round-trip law,
    which holds for strings of valid UTF-8, and an instance that discharges it), the HTTP parser of a stored body in
    [CacheStoreOps].  Database tables are records of maps, a statement is a
    function of the tables and the time, and a transaction that fails changes
    nothing.

    ** The edge cache ([src/caddy/simplefs], [src/internal/cachecore])

    - [ObjectFormat] ([format.go]): the file of one cached response, its
      writer, its layout check and its seekable reader.  Reading what was
      written gives the same bytes; a reader of any file is total and, until a
      read fails, returns only verified chunks; a failed write leaves no file;
      and what a reader can return after a failed load.
    - [CacheCore] ([core.go]): the mapping records that list the variants of a
      key, their update and the validator test.
    - [ExpirationHeap] ([batch.go]): the heap of deadlines over
      [container/heap].
    - [Capacity] ([simplefs.go], [storage.go]): budgets from the disk's usage,
      and the reservation of bytes for captures in flight.
    - [CacheStore], [CacheStoreOps], [CacheWrites] ([batch.go],
      [simplefs.go]): the provider's state; staging, persisting and applying a
      batch; lookups, touches, deletions, expiry; flushing writes, refreshing
      and evicting.  [CacheView], [CacheExpiry], [CacheCommit],
      [CacheInvariant] and [CacheFlush] are their lemmas, [CacheTheorems] the
      theorems (the invariant over all runs, the outcome of a flush, atomic
      commits, deletion, expiry, eviction, what a lookup may and must serve),
      and [CacheRuns] concrete runs: witnesses, and the inputs on which the
      code does not do what it means to.
    - [WriteQueue] ([batch.go]): writers and flush loops interleaved around
      the bounded queue; nothing is lost, every writer is answered, draining
      waits for all writes.
    - [OriginSelect] ([src/caddy/origingovernance/policy.go]): the choice of
      an origin; the lowest tier, panic mode, and the fairness of weighted
      round robin over a cycle.

    ** The cache handler ([src/caddy/govetocache], [src/caddy/cachematch],
       [src/internal/httpconditional])

    - [Http]: what these modules and the firewall use of Go's [net/http],
      [strings] and [strconv]: requests, header maps, trimming, numbers.
    - [HttpConditional] ([conditions.go]): conditional requests, decided as
      RFC 9110 prescribes.
    - [CacheRange], [CacheRangeTheorems] ([matcher.go], [range.go], the bodies of
      [simplefs.go]): which requests a cache rule takes, and the bytes of a range
      from the parsed header down to the object file.
    - [CacheRules], [CacheRulesTheorems] ([handler.go]): keys and queries (exact,
      without collisions), admission, variants, merging of a 304.
    - [EncodeSession] ([encode.go]): streaming into the store as interleaved steps
      of the handler, the drainer and the store; whole objects or none, and the
      session ends.
    - [CaptureResponse], [CaptureTheorems] ([handler.go], [capture_limit.go]): the
      writer that captures the origin's response; the client gets the origin's
      status, fields and bytes once, or what its preconditions ask for, and
      reservations are exact.  The session is here what its writer
      sees of it; [EncodeSession] is its inside.
    - [CacheHandler], [CacheHandlerTheorems] ([handler.go]): [ServeHTTP], fetching,
      serving, revalidating, refreshing in the background, and the flights that
      let one request lead the fetch for the others.  What reaches the store is
      whole and carries no directive against sharing, a failing origin is covered
      by a stale entry, and nobody waits for a flight that is over.

    ** The edge firewall ([src/caddy/waf], [src/internal/policy])

    - [WafPolicy], [WafPolicyTheorems] ([security.go]): a site's policy and its
      normalisation; what is accepted is well formed, and normalising again
      changes nothing.
    - [RateLimit], [RateLimitTheorems] ([handler.go], [pow.go]): the local
      limiter against a reference counter, the circuit breaker in front of
      Redis with requests in flight, and the limits on generating challenges.
    - [WafHandler], [WafHandlerTheorems] ([handler.go], [body.go]):
      provisioning, matching, evaluation and [ServeHTTP]; what conditions mean,
      which rule decides, whose address a request has, what the rules see of it,
      and what reaches the next handler.
    - [Base64], [WafChallenge], [WafChallengeTheorems] ([pow.go],
      [environment.go], [distributed.go]): the signed claims, challenges and
      clearances behind a CAPTCHA rule.  Accepted tokens are exactly the sealed
      ones, a recorded challenge is used once, a solved one lets the client
      pass, and a CAPTCHA rule is passed only with a clearance.

    ** The edge agent ([src/internal/edgeagent])

    - [LogQueue], [LogQueueTheorems], [LogQueueSpec] ([logqueue.go]): the queue
      of log records in a bolt database, down to its bytes.  It refines an
      abstract queue ([LogQueueSpec.fifo]), and delivery always makes progress.
    - [AccessLog], [AccessLogTheorems] ([accesslog.go]): the ring buffer in
      front of it and its worker, interleaved with the enqueuers; records stay
      in order, and a shutdown can always be drained.

    ** The control plane ([src/internal])

    - [Access] ([rbac], [clusteraccess], [auth]): the permission matrix and
      the decisions for users and API keys; listing and deciding agree, keys
      are confined, platform permissions need an administrator.
    - [JobQueue], [JobQueueTheorems] ([jobqueue]): the lease protocol.  A
      system of workers around the tables; leases are exclusive, attempts
      bounded, sweeps and claims exact, outcomes recorded once, retry delays
      bounded.
    - [Alerting], [AlertingTheorems] ([alerting]): evaluating a rule, manual
      actions and the delivery queue; the open alerts are the observed
      conditions, notifications follow the rule's policy, deliveries are
      retried a bounded number of times.
    - [DnsScheduler] ([dnssync]): which nodes are published; placement, and
      the pacing of removals.

    ** Interfaces

    [MappingCodec], [MappingCodecRoundtrip] and [GoRange] are what the store
    promises to and expects from the mapping records and Go's maps; the store's
    theorems are proved against them and [CacheCore] discharges them.
    [ObjectFormat]'s section variables stand for LZ4 and the system calls.
    [WriteQueue] runs the store's [flushBatch] and uses only its signature and
    one result per write.  [WafHandler.captchaService] is what the firewall
    expects of its CAPTCHA; its theorems use only that a challenge answers the
    client itself, and [WafChallenge.challengeService] is the implementation.
    [StringLaws] and [NetLaws] ([WafPolicyTheorems]) and [ChallengeLaws]
    ([WafChallengeTheorems]) are the laws of Go's library that proofs use, each
    with an instance.  [AccessLog] uses the log queue through
    [LogQueueSpec.logStep].  [CacheRange.ObjectBytes] is what a stored body
    expects of the reader of its object, [CacheRangeTheorems.ObjectLaws] what it
    relies on, and the reader of [ObjectFormat] discharges it.

    ** Fuel and bounds

    [ObjectFormat.readLoop] takes one more than the number of bytes asked for
    as fuel: each round that does not fail copies at least one byte.  The
    heap's sifting takes the number of entries, and [stageExpiredN] the size of
    the heap, as each round pops an entry.  [placeTiers] takes one more than the
    number of candidates, as each round uses up a tier.  [buildFrom] takes the
    number of records, as each round takes one; [dropLoop] two more than the
    number of chunks, as a round removes a chunk or leaves one at which the next
    stops; [backoffLoop] the number of failures; [releaseIndex] the number of
    pools, as a pooled buffer has one of their sizes.  [matchTagLoop] takes one more than the length of
    the field, as each round uses up a character; [discard] one more than the bytes
    to skip and [copyBody] one more than the bytes to copy, as a read without an
    error returns a byte; [bodyReadAt] the depth of the body.  Each is shown to be
    enough where the functions are specified.

    ** Not modelled

    Of the cache store: opening, repairing and rewriting the database
    ([loadIndex], [repairMappings], [persistIndex]), listings, and the
    serialisation of the HTTP response inside a body file, which is Go's own.
    Of the cache handler: opening and closing the store, the detached context of
    a background refresh, and the log.
    Of alerting, the rules' queries and message rendering; of DNS, the records
    of a selection and the providers' APIs.  The generated database client,
    HTTP routes, the front end, remote installation, external services
    (certificates, DNS providers, notifications, analytics stores) and
    process start-up are input and output around libraries.  Locks are not
    modelled where one lock covers the whole operation; the one [TryLock] is
    an argument.  A lookup, which takes the read lock for the mapping and for
    each body, is one step at one time. *)
From Stdlib Require Import ZArith ZifyBool Lia.
From Stdlib.Strings Require Import Byte.
From stdpp Require Import base numbers list strings gmap sets.

#[global] Set Default Goal Selector "!".

Local Open Scope Z_scope.

(** ** Results: Go's [(value, error)] pairs *)

(** A Go function that returns [(A, error)]: either a value or an error. *)
Inductive result (E A : Type) : Type :=
| Ok (a : A)
| Err (e : E).
Arguments Ok {E A} a.
Arguments Err {E A} e.

#[export] Instance result_ret {E} : MRet (result E) := fun A a => Ok a.
#[export] Instance result_bind {E} : MBind (result E) :=
  fun A B f r => match r with Ok a => f a | Err e => Err e end.

(** [guard_err c e]: Go's [if c { return e }]. *)
Definition guard_err {E} (c : bool) (e : E) : result E unit :=
  if c then Err e else Ok tt.

Lemma bind_Ok {E A B} (r : result E A) (f : A → result E B) (b : B) :
  r ≫= f = Ok b ↔ ∃ a, r = Ok a ∧ f a = Ok b.
Proof.
  destruct r; simpl; split.
  - eauto.
  - intros (? & [= <-] & ?); done.
  - done.
  - intros (? & ? & _); done.
Qed.

Lemma guard_err_Ok {E} (c : bool) (e : E) u :
  guard_err c e = Ok u ↔ c = false.
Proof. destruct u, c; unfold guard_err; naive_solver. Qed.

Lemma Ok_inj {E A} (a b : A) : @Ok E A a = Ok b → a = b.
Proof. congruence. Qed.

(** A guard that does not fire. *)
Lemma guard_pass {E A} (c : bool) (e : E) (k : unit → result E A) :
  c = false → guard_err c e ≫= k = k tt.
Proof. by intros ->. Qed.

(** A run that succeeds passed its guard. *)
Lemma guard_then_Ok {E A} (c : bool) (e : E) (k : unit → result E A) (b : A) :
  guard_err c e ≫= k = Ok b ↔ c = false ∧ k tt = Ok b.
Proof. destruct c; simpl; [split; [done|intros [? _]; done]|tauto]. Qed.

(** ** Time *)

(** Go's zero [time.Time] in nanoseconds of Unix time. *)
Definition zeroTime : Z := (-62135596800 * 10 ^ 9)%Z.
Definition isZeroTime (t : Z) : bool := (t =? zeroTime)%Z.

(** ** Machine integers *)

Definition max_uint64 : Z := 2 ^ 64 - 1.
Definition max_int64 : Z := 2 ^ 63 - 1.
Definition max_uint32 : Z := 2 ^ 32 - 1.

(** Conversions and arithmetic of [uint64] and [uint32] wrap around. *)
Definition wrap64 (z : Z) : Z := z mod 2 ^ 64.
Definition wrap32 (z : Z) : Z := z mod 2 ^ 32.

Lemma wrap64_small z : 0 ≤ z < 2 ^ 64 → wrap64 z = z.
Proof. apply Z.mod_small. Qed.
Lemma wrap32_small z : 0 ≤ z < 2 ^ 32 → wrap32 z = z.
Proof. apply Z.mod_small. Qed.
Lemma wrap64_range z : 0 ≤ wrap64 z < 2 ^ 64.
Proof. apply Z.mod_pos_bound. lia. Qed.
Lemma wrap32_range z : 0 ≤ wrap32 z < 2 ^ 32.
Proof. apply Z.mod_pos_bound. lia. Qed.

(** [int64] conversions of a [uint64] reinterpret the top bit as a sign. *)
Definition to_int64 (z : Z) : Z :=
  let w := wrap64 z in if w <? 2 ^ 63 then w else w - 2 ^ 64.

Lemma to_int64_small z : 0 ≤ z < 2 ^ 63 → to_int64 z = z.
Proof.
  intros ?. unfold to_int64. rewrite wrap64_small by lia.
  case_match eqn:Hlt; [done|]. apply Z.ltb_ge in Hlt. lia.
Qed.

(** ** Bytes and big-endian integers ([encoding/binary]) *)

#[export] Instance byte_eq_decision : EqDecision byte := Byte.byte_eq_dec.

Definition byte_val (b : byte) : Z := Z.of_N (Byte.to_N b).
Definition byte_of (z : Z) : byte :=
  match Byte.of_N (Z.to_N (z mod 256)) with Some b => b | None => x00 end.

Lemma byte_val_range b : 0 ≤ byte_val b < 256.
Proof.
  unfold byte_val. pose proof (Byte.to_N_bounded b). lia.
Qed.

Lemma byte_val_of z : byte_val (byte_of z) = z mod 256.
Proof.
  unfold byte_val, byte_of. pose proof (Z.mod_pos_bound z 256 ltac:(lia)) as Hz.
  destruct (Byte.of_N (Z.to_N (z mod 256))) as [b|] eqn:Hb.
  - apply Byte.to_of_N in Hb. rewrite Hb. lia.
  - apply Byte.of_N_None_iff in Hb. lia.
Qed.

Lemma byte_of_val b : byte_of (byte_val b) = b.
Proof.
  unfold byte_of. pose proof (byte_val_range b).
  rewrite Z.mod_small by done. unfold byte_val.
  rewrite N2Z.id, Byte.of_to_N. done.
Qed.

(** [binary.BigEndian.PutUintN]: the [n] low bytes of [v], high byte first. *)
Fixpoint be_put (n : nat) (v : Z) : list byte :=
  match n with
  | O => []
  | S k => byte_of (Z.shiftr v (8 * Z.of_nat k)) :: be_put k v
  end.

(** [binary.BigEndian.UintN]. *)
Fixpoint be_get_from (acc : Z) (l : list byte) : Z :=
  match l with
  | [] => acc
  | b :: l' => be_get_from (acc * 256 + byte_val b) l'
  end.
Definition be_get (l : list byte) : Z := be_get_from 0 l.

Lemma length_be_put n v : length (be_put n v) = n.
Proof. induction n; simpl; auto. Qed.

Lemma be_get_put_from n v acc :
  be_get_from acc (be_put n v)
  = acc * 2 ^ (8 * Z.of_nat n) + v mod 2 ^ (8 * Z.of_nat n).
Proof.
  revert acc. induction n as [|n IH]; intros acc; simpl be_put; simpl be_get_from.
  - rewrite Z.mul_0_r, Z.pow_0_r, Z.mod_1_r. lia.
  - rewrite IH, byte_val_of, Z.shiftr_div_pow2 by lia.
    replace (8 * Z.of_nat (S n)) with (8 * Z.of_nat n + 8) by lia.
    rewrite Z.pow_add_r by lia. change (2 ^ 8) with 256.
    set (p := 2 ^ (8 * Z.of_nat n)). assert (0 < p) by (apply Z.pow_pos_nonneg; lia).
    rewrite (Z.rem_mul_r v p 256) by lia. ring.
Qed.

Lemma be_get_put n v :
  0 ≤ v < 2 ^ (8 * Z.of_nat n) → be_get (be_put n v) = v.
Proof.
  intros Hv. unfold be_get. rewrite be_get_put_from, Z.mod_small by done. lia.
Qed.

Lemma be_get_from_range l acc :
  0 ≤ acc → acc * 2 ^ (8 * Z.of_nat (length l)) ≤ be_get_from acc l
  < (acc + 1) * 2 ^ (8 * Z.of_nat (length l)).
Proof.
  revert acc. induction l as [|b l IH]; intros acc Hacc; simpl be_get_from.
  - simpl. lia.
  - pose proof (byte_val_range b). specialize (IH (acc * 256 + byte_val b) ltac:(lia)).
    replace (8 * Z.of_nat (length (b :: l))) with (8 + 8 * Z.of_nat (length l)) by (simpl length; lia).
    rewrite Z.pow_add_r by lia. change (2 ^ 8) with 256. nia.
Qed.

Lemma be_get_range l : 0 ≤ be_get l < 2 ^ (8 * Z.of_nat (length l)).
Proof. pose proof (be_get_from_range l 0). unfold be_get. lia. Qed.

(** ** Lists of bytes as buffers *)

(** Go's [buf[lo:hi]] on an in-range slice. *)
Definition slice {A} (lo hi : nat) (l : list A) : list A := take (hi - lo) (drop lo l).

(** Writing [w] at the start of a buffer ([copy(buf, w)] for [len w <= len buf]). *)
Definition overwrite {A} (w buf : list A) : list A := w ++ drop (length w) buf.

Lemma length_overwrite {A} (w buf : list A) :
  (length w ≤ length buf)%nat → length (overwrite w buf) = length buf.
Proof. intros. unfold overwrite. rewrite length_app, length_drop. lia. Qed.

Lemma take_overwrite {A} (w buf : list A) :
  take (length w) (overwrite w buf) = w.
Proof. unfold overwrite. apply take_app_length. Qed.

(** Number of elements as a [Z]: Go's [len]. *)
Abbreviation zlen l := (Z.of_nat (length l)).

(** ** Filters *)

(** A filter that keeps everything, or nothing. *)
Lemma filter_everything {A} (P : A → Prop) `{!∀ x, Decision (P x)} (l : list A) : (∀ x, x ∈ l → P x) → filter P l = l.
Proof.
  induction l as [|y l IH]; intros HP; [done|]. rewrite filter_cons, decide_True by (apply HP; set_solver).
  f_equal. apply IH. set_solver.
Qed.
Lemma filter_nothing {A} (P : A → Prop) `{!∀ x, Decision (P x)} (l : list A) : (∀ x, x ∈ l → ~ P x) → filter P l = [].
Proof.
  induction l as [|y l IH]; intros HP; [done|]. rewrite filter_cons, decide_False by (apply HP; set_solver).
  apply IH. set_solver.
Qed.

(** Counting after a map, and with an equivalent test. *)
Lemma length_filter_map {A B} (f : A → B) (P : B → Prop) (Q : A → Prop) `{!∀ x, Decision (P x), !∀ x, Decision (Q x)} (l : list A) :
  (∀ x, x ∈ l → P (f x) ↔ Q x) → length (filter P (map f l)) = length (filter Q l).
Proof.
  induction l as [|y l IH]; intros Hpq; [done|]. cbn [map]. rewrite !filter_cons.
  assert (length (filter P (map f l)) = length (filter Q l)) as E by (apply IH; set_solver).
  pose proof (Hpq y ltac:(set_solver)). destruct (decide (P (f y))), (decide (Q y)); cbn; try tauto; by rewrite E.
Qed.

(** ** Sums over finite maps *)

Section MapSum.
Context {K A : Type} `{Countable K}.

(** The sum of [f] over the values of a map. *)
Definition map_sum (f : A → N) (m : gmap K A) : N := map_fold (λ _ a acc, (f a + acc)%N) 0%N m.

Lemma map_sum_empty f : map_sum f ∅ = 0%N.
Proof. done. Qed.
Lemma map_sum_insert_new f m k a : m !! k = None → map_sum f (<[k := a]> m) = (f a + map_sum f m)%N.
Proof. intros Hk. unfold map_sum. rewrite map_fold_insert_L; [done|lia|done]. Qed.
Lemma map_sum_insert f m k a : map_sum f (<[k := a]> m) = (f a + map_sum f (delete k m))%N.
Proof. rewrite <- insert_delete_eq. apply map_sum_insert_new, lookup_delete_eq. Qed.
Lemma map_sum_delete f m k a : m !! k = Some a → map_sum f m = (f a + map_sum f (delete k m))%N.
Proof. intros Hk. rewrite <- map_sum_insert, insert_id; done. Qed.
Lemma map_sum_default f m k : map_sum f m = (from_option f 0 (m !! k) + map_sum f (delete k m))%N.
Proof. destruct (m !! k) eqn:Hk; simpl; [by apply map_sum_delete|by rewrite delete_id]. Qed.
Lemma map_sum_ext f g m : (∀ k a, m !! k = Some a → f a = g a) → map_sum f m = map_sum g m.
Proof.
  induction m as [|k a m Hk IH] using map_ind; intros Hfg; [done|].
  rewrite !map_sum_insert_new by done. rewrite (Hfg k a) by apply lookup_insert_eq.
  rewrite IH; [done|]. intros k' a' Hk'. apply (Hfg k'). rewrite lookup_insert_ne; [done|]. congruence.
Qed.

End MapSum.

(** ** Proof automation *)

(** Turn boolean tests of the code into propositions. *)
Ltac b2p :=
  repeat match goal with
  | H : _ && _ = true |- _ => apply andb_true_iff in H as [? ?]
  | H : _ || _ = false |- _ => apply orb_false_iff in H as [? ?]
  | H : negb _ = true |- _ => apply negb_true_iff in H
  | H : negb _ = false |- _ => apply negb_false_iff in H
  | H : (_ <? _) = true |- _ => apply Z.ltb_lt in H
  | H : (_ <? _) = false |- _ => apply Z.ltb_ge in H
  | H : (_ <=? _) = true |- _ => apply Z.leb_le in H
  | H : (_ <=? _) = false |- _ => apply Z.leb_gt in H
  | H : context [_ >? _] |- _ => rewrite Z.gtb_ltb in H
  | H : context [_ >=? _] |- _ => rewrite Z.geb_leb in H
  | H : (_ =? _) = true |- _ => apply Z.eqb_eq in H
  | H : (_ =? _) = false |- _ => apply Z.eqb_neq in H
  | H : bool_decide _ = true |- _ => apply bool_decide_eq_true in H
  | H : bool_decide _ = false |- _ => apply bool_decide_eq_false in H
  end.

(** Invert a successful run of a computation in the [result] monad. *)
Ltac inv_ok :=
  repeat match goal with
  | H : _ ≫= _ = Ok _ |- _ => apply bind_Ok in H as (? & ? & ?)
  | H : guard_err _ _ = Ok _ |- _ => apply guard_err_Ok in H
  | H : Ok _ = Ok _ |- _ => apply Ok_inj in H
  | H : mret _ = Ok _ |- _ => apply Ok_inj in H
  | H : Err _ = Ok _ |- _ => discriminate H
  end.

(** The hint database of the development's automation. *)
Create HintDb goveto discriminated.
Create Rewrite HintDb goveto.
#[export] Hint Resolve wrap64_range wrap32_range byte_val_range be_get_range : goveto.
#[export] Hint Rewrite length_be_put byte_val_of byte_of_val : goveto.
