(* ===== verification/ObjectFormat.v ===== *)
(** * The cache object file format ([caddy/simplefs/format.go])

    A cached response is stored as one file: a 28-byte header, a table of
    24-byte chunk entries, and the chunks, each raw or LZ4-compressed.  This
    file models the writer ([writeObjectReader]), the header and table check
    ([readObjectLayout]) and the seekable reader ([objectReader]), with every
    I/O failure as an explicit fault.  LZ4 is a third-party package and is a
    parameter; CRC-32C and the big-endian integers are defined.

    The theorems show that what the writer stores is read back exactly, that
    the layout check makes the reader total (no out-of-range slice, no endless
    loop), that a failed write leaves the directory as it was, and what a
    failed chunk load does to the reader. *)
From Stdlib Require Import ZArith ZifyBool Lia.
From Stdlib.Strings Require Import Byte.
From stdpp Require Import base numbers list strings gmap.
From S2P Require Import Prelude.

Local Open Scope Z_scope.

(** ** Constants *)

(** "GVCOBJ01" *)
Definition objectMagic : list byte := [x47; x56; x43; x4f; x42; x4a; x30; x31].
Definition objectVersion : Z := 1.
Definition objectChunkSize : Z := Z.shiftl 64 10.
Definition legacyChunkSize : Z := Z.shiftl 256 10.
Definition objectHeaderSize : Z := 28.
Definition objectEntrySize : Z := 24.
Definition codecRaw : byte := x00.
Definition codecLZ4 : byte := x01.

(** ** CRC-32C, [crc32.Checksum(data, crc32.MakeTable(crc32.Castagnoli))] *)

Definition castagnoli : Z := 0x82f63b78.

Fixpoint crc_bits (n : nat) (c : Z) : Z :=
  match n with
  | O => c
  | S k =>
      crc_bits k (if Z.testbit c 0 then Z.lxor (Z.shiftr c 1) castagnoli else Z.shiftr c 1)
  end.

Definition crc_step (c : Z) (b : byte) : Z := crc_bits 8 (Z.lxor c (byte_val b)).

Definition checksum (data : list byte) : Z :=
  wrap32 (Z.lxor (foldl crc_step max_uint32 data) max_uint32).

(** ** Data *)

Inductive error : Type :=
| ErrIO (code : nat)            (* an error of the operating system *)
| ErrEOF
| ErrUnexpectedEOF
| ErrMsg (message : string).

Record objectChunk := ObjectChunk {
  oc_codec : byte;
  oc_offset : Z;                (* uint64 *)
  oc_stored : Z;                (* uint32 *)
  oc_raw : Z;                   (* uint32 *)
  oc_crc : Z;                   (* uint32 *)
}.

Record objectLayout := ObjectLayout {
  ol_chunks : list objectChunk;
  ol_length : Z;                (* int64 *)
  ol_chunkSize : Z;             (* int64 *)
}.

(** An [io.Reader]: the bytes still to come and the error after them
    ([None] is a clean end of file). *)
Record byteReader := ByteReader { rd_data : list byte; rd_end : option error }.

(** [io.ReadFull(source, buf)] with [len(buf) = n]. *)
Definition readFull (src : byteReader) (n : nat) : result error (list byte * byteReader) :=
  if decide (n ≤ length (rd_data src))%nat then
    Ok (take n (rd_data src), ByteReader (drop n (rd_data src)) (rd_end src))
  else
    match rd_end src with
    | Some e => Err e
    | None => Err (if decide (rd_data src = []) then ErrEOF else ErrUnexpectedEOF)
    end.

(** An [io.ReaderAt]: an [*os.File] or a [*bytes.Reader].  They differ on an
    empty buffer at or past the end: the file returns no error, the byte
    reader returns [io.EOF]. *)
Inductive sourceKind := FileSource | BytesSource.

Record readerAt := ReaderAt { ra_kind : sourceKind; ra_data : list byte }.

(** [source.ReadAt(buf, off)] with [len(buf) = n]: the bytes copied into the
    buffer and the error. *)
Definition readAt (s : readerAt) (n : nat) (off : Z) : list byte * option error :=
  let got := take n (drop (Z.to_nat off) (ra_data s)) in
  match ra_kind s with
  | FileSource =>
      if decide (off < 0) then ([], Some (ErrMsg "negative offset"))
      else (got, if decide (length got < n)%nat then Some ErrEOF else None)
  | BytesSource =>
      if decide (off < 0) then ([], Some (ErrMsg "bytes.Reader.ReadAt: negative offset"))
      else if decide (zlen (ra_data s) ≤ off) then ([], Some ErrEOF)
      else (got, if decide (length got < n)%nat then Some ErrEOF else None)
  end.

Section Format.

(** ** The LZ4 package ([github.com/pierrec/lz4/v4])

    [compressBlock raw] is [lz4.CompressBlock] into a buffer of
    [CompressBlockBound(len raw)] bytes: the compressed bytes (none when the
    input is incompressible) or an error.  [uncompressBlock stored n] is
    [lz4.UncompressBlock] into a buffer of [n] bytes: what it wrote to the
    buffer, and the number of decoded bytes or an error. *)
Context (compressBlock : list byte → result error (list byte)).
Context (compressBlockBound : Z → Z).
Context (uncompressBlock : list byte → nat → list byte * option Z).

(** ** The writer *)

(** The system calls of [writeObjectReader] that can fail. *)
Inductive writeCall :=
| CallCreate | CallChmod | CallHeader | CallChunk (index : nat) | CallWriteAt | CallStat | CallClose.

Context (fault : writeCall → option error).

Definition sys (c : writeCall) : result error unit :=
  match fault c with Some e => Err e | None => Ok tt end.

Definition chunkCount (logicalSize : Z) : Z :=
  wrap64 (logicalSize + objectChunkSize - 1) / objectChunkSize.

(** One iteration's choice between the raw and the compressed form. *)
Definition encodeChunk (logicalSize : Z) (raw : list byte) : result error (byte * list byte) :=
  if logicalSize >? objectChunkSize then
    compressed ← compressBlock raw;
    if (zlen compressed >? 0) && (zlen compressed * 8 <=? zlen raw * 7)
    then Ok (codecLZ4, compressed) else Ok (codecRaw, raw)
  else Ok (codecRaw, raw).

(** The loop over the chunks: the table entries, the bytes appended to the
    file and the rest of the source. *)
Fixpoint writeChunks (todo : nat) (index : nat) (logicalSize offset remaining : Z)
    (source : byteReader) : result error (list objectChunk * list byte * byteReader) :=
  match todo with
  | O => Ok ([], [], source)
  | S todo' =>
      let rawSize := Z.min remaining objectChunkSize in
      '(raw, source') ← readFull source (Z.to_nat rawSize);
      '(codec, stored) ← encodeChunk logicalSize raw;
      let chunk := ObjectChunk codec offset (wrap32 (zlen stored)) (wrap32 (zlen raw)) (checksum raw) in
      _ ← sys (CallChunk index);
      '(chunks, body, rest) ←
        writeChunks todo' (S index) logicalSize (wrap64 (offset + zlen stored))
          (wrap64 (remaining - rawSize)) source';
      Ok (chunk :: chunks, stored ++ body, rest)
  end.

(** One 24-byte table entry, and the 28-byte header before the table. *)
Definition encodeEntry (c : objectChunk) : list byte :=
  oc_codec c :: replicate 3 x00 ++ be_put 8 (oc_offset c) ++ be_put 4 (oc_stored c)
  ++ be_put 4 (oc_raw c) ++ be_put 4 (oc_crc c).

Definition encodeHeader (logicalSize count : Z) (chunks : list objectChunk) : list byte :=
  objectMagic ++ be_put 2 objectVersion ++ replicate 2 x00 ++ be_put 4 objectChunkSize
  ++ be_put 8 logicalSize ++ be_put 4 (wrap32 count) ++ concat (encodeEntry <$> chunks).

(** The one-byte probe after the last chunk. *)
Definition sourceExhausted (src : byteReader) : bool :=
  bool_decide (rd_data src = []) &&
  match rd_end src with None => true | Some ErrEOF => true | Some _ => false end.

(** [writeObjectReader] up to the file's contents: the steps between the
    creation of the temporary file and its successful close. *)
Definition objectContents (source : byteReader) (logicalSize : Z) : result error (list byte) :=
  _ ← sys CallChmod;
  _ ← guard_err (logicalSize >? max_int64) (ErrMsg "cache object is too large for this platform");
  let count := chunkCount logicalSize in
  let headerSize := objectHeaderSize + count * objectEntrySize in
  _ ← sys CallHeader;
  '(chunks, body, rest) ←
    writeChunks (Z.to_nat count) 0 logicalSize headerSize logicalSize source;
  _ ← guard_err (negb (sourceExhausted rest)) (ErrMsg "cache object source exceeds declared length");
  _ ← sys CallWriteAt;
  _ ← sys CallStat;
  _ ← sys CallClose;
  Ok (encodeHeader logicalSize count chunks ++ body).

(** [writeObjectReader]: the directory after the call, and the path and size
    of the temporary file, or the error.  [path] is the name [os.CreateTemp]
    picks: a name no file of the directory has. *)
Definition writeObjectReader (fs : gmap string (list byte)) (path : string)
    (source : byteReader) (logicalSize : Z)
    : gmap string (list byte) * result error (string * Z) :=
  match sys CallCreate with
  | Err e => (fs, Err e)
  | Ok _ =>
      let created := <[path := []]> fs in
      match objectContents source logicalSize with
      | Err e => (delete path created, Err e)
      | Ok contents => (<[path := contents]> created, Ok (path, zlen contents))
      end
  end.

Definition writeObject (fs : gmap string (list byte)) (path : string) (value : list byte) :=
  writeObjectReader fs path (ByteReader value None) (zlen value).

(** ** The header and table check *)

Definition decodeEntry (entry : list byte) : objectChunk :=
  ObjectChunk (default x00 (head entry)) (be_get (slice 4 12 entry)) (be_get (slice 12 16 entry))
    (be_get (slice 16 20 entry)) (be_get (slice 20 24 entry)).

(** The loop over the table.  [index] is a [uint32], so the offset
    [index*objectEntrySize] of an entry wraps at [2^32]. *)
Fixpoint readTable (todo : nat) (index : Z) (table : list byte)
    (encodedSize chunkSize length expectedOffset rawTotal : Z)
    : result error (list objectChunk * Z * Z) :=
  match todo with
  | O => Ok ([], expectedOffset, rawTotal)
  | S todo' =>
      let entry := drop (Z.to_nat (wrap32 (index * objectEntrySize))) table in
      let chunk := decodeEntry entry in
      let expectedRaw := wrap32 (Z.min chunkSize (wrap64 (length - rawTotal))) in
      _ ← guard_err ((negb (bool_decide (oc_codec chunk = codecRaw))
                      && negb (bool_decide (oc_codec chunk = codecLZ4)))
                     || negb (oc_offset chunk =? expectedOffset)
                     || negb (oc_raw chunk =? expectedRaw)
                     || (oc_stored chunk >? wrap64 (encodedSize - expectedOffset)))
            (ErrMsg "invalid cache object chunk table");
      _ ← guard_err (bool_decide (oc_codec chunk = codecRaw) && negb (oc_stored chunk =? oc_raw chunk))
            (ErrMsg "invalid raw cache chunk");
      _ ← guard_err (bool_decide (oc_codec chunk = codecLZ4)
                     && ((oc_stored chunk =? 0) || (oc_stored chunk >? compressBlockBound chunkSize)))
            (ErrMsg "invalid compressed cache chunk");
      '(chunks, off, total) ←
        readTable todo' (index + 1) table encodedSize chunkSize length
          (wrap64 (expectedOffset + oc_stored chunk)) (wrap64 (rawTotal + oc_raw chunk));
      Ok (chunk :: chunks, off, total)
  end.

Definition lift_read (r : list byte * option error) : result error (list byte) :=
  match r with (got, None) => Ok got | (_, Some e) => Err e end.

Definition readObjectLayout (source : readerAt) (encodedSize : Z) : result error objectLayout :=
  header ← lift_read (readAt source (Z.to_nat objectHeaderSize) 0);
  let chunkSize := be_get (slice 12 16 header) in
  _ ← guard_err (negb (bool_decide (take 8 header = objectMagic))
                 || negb (be_get (slice 8 10 header) =? objectVersion)
                 || (negb (chunkSize =? objectChunkSize) && negb (chunkSize =? legacyChunkSize)))
        (ErrMsg "unsupported cache object format");
  let length := be_get (slice 16 24 header) in
  let count := be_get (slice 24 28 header) in
  let expectedCount := if length >? 0 then (length - 1) / chunkSize + 1 else 0 in
  _ ← guard_err ((expectedCount >? max_uint32) || negb (count =? expectedCount) || (length >? max_int64))
        (ErrMsg "invalid cache object chunk count");
  let tableBytes := wrap64 (count * objectEntrySize) in
  _ ← guard_err ((tableBytes >? encodedSize) || (wrap64 (objectHeaderSize + tableBytes) >? encodedSize))
        (ErrMsg "cache object table exceeds file");
  table ← lift_read (readAt source (Z.to_nat tableBytes) objectHeaderSize);
  '(chunks, expectedOffset, rawTotal) ←
    readTable (Z.to_nat count) 0 table encodedSize chunkSize length
      (wrap64 (objectHeaderSize + tableBytes)) 0;
  _ ← guard_err (negb (expectedOffset =? encodedSize) || negb (rawTotal =? length))
        (ErrMsg "cache object lengths do not match");
  Ok (ObjectLayout chunks (to_int64 length) chunkSize).

(** ** The reader *)

(** The contents [sync.Pool.Get] hands out: any earlier buffer's. *)
Context (pooledChunkBuffer : Z → list byte).

(** [objectReader]: [or_buf] is the backing array of [data] ([None] for a nil
    slice) and [or_dlen] the length of the slice.  [stored] is only a scratch
    buffer of [load]: its capacity is [compressBlockBound] of the pool's size. *)
Record objectReader := ObjectReader {
  or_source : readerAt;
  or_layout : objectLayout;
  or_pos : Z;
  or_index : Z;
  or_buf : option (list byte);
  or_dlen : nat;
}.

Definition or_data (r : objectReader) : list byte := take (or_dlen r) (default [] (or_buf r)).

Definition newObjectReaderFromLayout (source : readerAt) (layout : objectLayout) : objectReader :=
  ObjectReader source layout 0 (-1) None 0.

Definition newObjectReader (source : readerAt) (encodedSize : Z) : result error objectReader :=
  layout ← readObjectLayout source encodedSize;
  Ok (newObjectReaderFromLayout source layout).

Definition poolSize (size : Z) : Z :=
  if size =? legacyChunkSize then legacyChunkSize else objectChunkSize.

Definition acquireChunkBuffer (size : Z) : list byte := pooledChunkBuffer (poolSize size).

(** A Go run-time panic, kept apart from the errors a function returns. *)
Inductive failure := Failed (e : error) | Panicked.

Definition setBuffer (r : objectReader) (buf : list byte) (dlen : nat) : objectReader :=
  ObjectReader (or_source r) (or_layout r) (or_pos r) (or_index r) (Some buf) dlen.
Definition setIndex (r : objectReader) (index : Z) : objectReader :=
  ObjectReader (or_source r) (or_layout r) (or_pos r) index (or_buf r) (or_dlen r).
Definition setPos (r : objectReader) (pos : Z) : objectReader :=
  ObjectReader (or_source r) (or_layout r) pos (or_index r) (or_buf r) (or_dlen r).

(** The checksum test at the end of [load]. *)
Definition finishLoad (r : objectReader) (index : Z) (chunk : objectChunk) : objectReader * option failure :=
  if checksum (or_data r) =? oc_crc chunk then (setIndex r index, None)
  else (r, Some (Failed (ErrMsg "cache chunk checksum mismatch"))).

Definition load (r : objectReader) (index : Z) : objectReader * option failure :=
  match (if index <? 0 then None else ol_chunks (or_layout r) !! Z.to_nat index) with
  | None => (r, Some Panicked)
  | Some chunk =>
      let buf := default (acquireChunkBuffer (ol_chunkSize (or_layout r))) (or_buf r) in
      let raw := Z.to_nat (oc_raw chunk) in
      if decide (length buf < raw)%nat then (setBuffer r buf (or_dlen r), Some Panicked)
      else if bool_decide (oc_codec chunk = codecRaw) then
        let '(got, err) := readAt (or_source r) raw (to_int64 (oc_offset chunk)) in
        let r1 := setBuffer r (overwrite got buf) raw in
        match err with
        | Some e => (r1, Some (Failed e))
        | None => finishLoad r1 index chunk
        end
      else if oc_stored chunk >? compressBlockBound (poolSize (ol_chunkSize (or_layout r))) then
        (setBuffer r buf raw, Some Panicked)
      else
        let '(stored, err) :=
          readAt (or_source r) (Z.to_nat (oc_stored chunk)) (to_int64 (oc_offset chunk)) in
        match err with
        | Some e => (setBuffer r buf raw, Some (Failed e))
        | None =>
            let '(written, decoded) := uncompressBlock stored raw in
            let r1 := setBuffer r (overwrite (take raw written) buf) raw in
            if bool_decide (decoded = Some (oc_raw chunk)) then finishLoad r1 index chunk
            else (r1, Some (Failed (ErrMsg "corrupt compressed cache chunk")))
        end
  end.

(** The loop of [Read] on a target of [n] bytes; [None] is running out of
    fuel.  The bytes are those copied to the target, in order. *)
Fixpoint readLoop (fuel : nat) (r : objectReader) (n : nat) (written : list byte)
    : option (objectReader * list byte * option failure) :=
  match fuel with
  | O => None
  | S fuel' =>
      if decide (0 < n)%nat then
        if or_pos r <? ol_length (or_layout r) then
          let chunkIndex := or_pos r / ol_chunkSize (or_layout r) in
          let '(r1, err) :=
            if or_index r =? chunkIndex then (r, None) else load r chunkIndex in
          match err with
          | Some e => Some (r1, written, Some e)
          | None =>
              let inside := Z.to_nat (or_pos r1 mod ol_chunkSize (or_layout r1)) in
              if decide (or_dlen r1 < inside)%nat then Some (r1, written, Some Panicked)
              else
                let got := take n (drop inside (or_data r1)) in
                readLoop fuel' (setPos r1 (or_pos r1 + zlen got)) (n - length got) (written ++ got)
          end
        else Some (r, written, None)
      else Some (r, written, None)
  end.

(** [Read] on a target of [n] bytes; [S n] iterations are enough because
    every iteration copies at least one byte ([Read_total]). *)
Definition Read (r : objectReader) (n : nat) : option (objectReader * list byte * option failure) :=
  if or_pos r >=? ol_length (or_layout r) then Some (r, [], Some (Failed ErrEOF))
  else readLoop (S n) r n [].

Inductive whence := SeekStart | SeekCurrent | SeekEnd | SeekOther.

Definition Seek (r : objectReader) (offset : Z) (w : whence) : objectReader * result error Z :=
  let go target :=
    if (target <? 0) || (target >? ol_length (or_layout r))
    then (r, Err (ErrMsg "cache object seek out of bounds"))
    else (setPos r target, Ok target) in
  match w with
  | SeekStart => go offset
  | SeekCurrent => go (to_int64 (or_pos r + offset))
  | SeekEnd => go (to_int64 (ol_length (or_layout r) + offset))
  | SeekOther => (r, Err (ErrMsg "invalid seek origin"))
  end.

(** [release]: the buffers go back to their pools. *)
Definition release (r : objectReader) : objectReader :=
  ObjectReader (or_source r) (or_layout r) (or_pos r) (or_index r) None 0.

(** Never unfold a size to a unary number. *)
#[local] Arguments Z.to_nat : simpl never.
#[local] Arguments objectChunkSize : simpl never.
#[local] Arguments Nat.mul : simpl never.

(** The constants as numerals, for [lia]. *)
Ltac consts :=
  change objectChunkSize with 65536 in *; change legacyChunkSize with 262144 in *;
  change objectHeaderSize with 28 in *; change objectEntrySize with 24 in *.

(** ** What the writer stores *)

(** [storedForm codec stored raw]: [stored] is a form of [raw] the reader's
    [load] turns back into [raw]. *)
Definition storedForm (codec : byte) (stored raw : list byte) : Prop :=
  (codec = codecRaw ∧ stored = raw)
  ∨ (codec = codecLZ4 ∧ (0 < length stored ≤ length raw)%nat
     ∧ uncompressBlock stored (length raw) = (raw, Some (zlen raw))).

(** [chunked off content chunks body]: [body], placed at offset [off] of the
    file, holds [content] cut into the chunks the table [chunks] describes. *)
Inductive chunked : Z → list byte → list objectChunk → list byte → Prop :=
| chunked_nil off : chunked off [] [] []
| chunked_cons off raw content codec stored chunks body :
    0 < zlen raw ≤ objectChunkSize →
    content = [] ∨ zlen raw = objectChunkSize →
    storedForm codec stored raw →
    chunked (off + zlen stored) content chunks body →
    chunked off (raw ++ content)
      (ObjectChunk codec off (zlen stored) (zlen raw) (checksum raw) :: chunks) (stored ++ body).

Lemma storedForm_length codec stored raw :
  storedForm codec stored raw → (length stored ≤ length raw)%nat.
Proof. intros [[_ ->] | (_ & ? & _)]; lia. Qed.

Lemma chunked_body_length off content chunks body :
  chunked off content chunks body → zlen body ≤ zlen content.
Proof.
  induction 1 as [|????????? Hs%storedForm_length]; [done|].
  rewrite !length_app. lia.
Qed.

Lemma chunked_count off content chunks body :
  chunked off content chunks body →
  zlen chunks * objectChunkSize - objectChunkSize < zlen content ≤ zlen chunks * objectChunkSize
  ∨ content = [] ∧ chunks = [].
Proof.
  induction 1 as [|off raw content codec stored chunks body Hr Hlast _ _ IH]; [auto|left].
  rewrite length_app. simpl length.
  consts. destruct IH as [?|[-> ->]]; simpl in *; [|lia].
  destruct Hlast as [->|]; simpl in *; lia.
Qed.

(** The [i]-th chunk holds the [i]-th block of the content. *)
Lemma chunked_lookup off content chunks body i c :
  chunked off content chunks body → chunks !! i = Some c →
  let raw := take (Z.to_nat objectChunkSize) (drop (i * Z.to_nat objectChunkSize) content) in
  ∃ pre stored post,
    body = pre ++ stored ++ post ∧ oc_offset c = off + zlen pre ∧ oc_stored c = zlen stored
    ∧ oc_raw c = zlen raw ∧ oc_crc c = checksum raw ∧ storedForm (oc_codec c) stored raw
    ∧ (length raw ≤ Z.to_nat objectChunkSize)%nat.
Proof.
  intros Hc. revert i. induction Hc as [|off raw content codec stored chunks body Hr Hlast Hs Hc IH].
  - done.
  - intros [|i] Hi.
    + injection Hi as <-. exists [], stored, body. rewrite Nat.mul_0_l, drop_0. simpl.
      replace (take _ _) with raw; [split_and!; try done; lia|].
      destruct Hlast as [->|Hfull].
      * rewrite app_nil_r, take_ge; [done|lia].
      * rewrite take_app_le by lia. rewrite take_ge; [done|lia].
    + change ((_ :: chunks) !! S i) with (chunks !! i) in Hi.
      assert (content ≠ []) as Hne.
      { intros ->. destruct (chunked_count _ _ _ _ Hc) as [?|[_ ->]]; [|done].
        apply lookup_lt_Some in Hi. consts. simpl in *. lia. }
      destruct Hlast as [->|Hfull]; [done|].
      destruct (IH i Hi) as (pre & st & post & -> & Ho & Hst & Hraw & Hcrc & Hform & Hle).
      exists (stored ++ pre), st, post.
      rewrite Nat.mul_succ_l, Nat.add_comm.
      assert (drop (Z.to_nat objectChunkSize + i * Z.to_nat objectChunkSize) (raw ++ content)
              = drop (i * Z.to_nat objectChunkSize) content) as ->.
      { rewrite <- drop_drop. f_equal. rewrite drop_app_length'; [done|lia]. }
      rewrite length_app, <- app_assoc. split_and!; try done. lia.
Qed.

(** A successful run of the loop cuts exactly [remaining] bytes off the
    source. *)
Lemma readFull_Ok src n raw src' :
  readFull src n = Ok (raw, src') →
  rd_data src = raw ++ rd_data src' ∧ length raw = n ∧ rd_end src' = rd_end src.
Proof.
  unfold readFull. case_decide; [|repeat case_match; done].
  intros [= <- <-]. simpl. rewrite take_drop, length_take. split_and!; [done|lia|done].
Qed.

Hypothesis lz4_roundtrip : ∀ raw stored,
  compressBlock raw = Ok stored → stored ≠ [] →
  uncompressBlock stored (length raw) = (raw, Some (zlen raw)).

Lemma encodeChunk_form logicalSize raw codec stored :
  encodeChunk logicalSize raw = Ok (codec, stored) → storedForm codec stored raw.
Proof.
  unfold encodeChunk. case_match; [|intros [= <- <-]; left; done].
  intros H'. inv_ok. case_match eqn:Hc; inv_ok; simplify_eq; [right|left; done].
  b2p. split_and!; [done|lia|lia|].
  apply lz4_roundtrip; [done|]. intros ->. done.
Qed.

(** A successful run of the loop cuts exactly [remaining] bytes off the
    source and describes them in the table. *)
Lemma writeChunks_chunked todo index logicalSize offset remaining src chunks body rest :
  writeChunks todo index logicalSize offset remaining src = Ok (chunks, body, rest) →
  0 ≤ offset → 0 ≤ remaining → offset + remaining < 2 ^ 64 →
  (Z.of_nat todo - 1) * objectChunkSize < remaining ≤ Z.of_nat todo * objectChunkSize
  ∨ todo = O ∧ remaining = 0 →
  ∃ content, rd_data src = content ++ rd_data rest ∧ zlen content = remaining
    ∧ rd_end rest = rd_end src ∧ chunked offset content chunks body ∧ length chunks = todo.
Proof.
  revert index offset remaining src chunks body rest.
  induction todo as [|todo IH]; intros index offset remaining src chunks body rest Hw Hoff Hrem Hsum Hcount.
  - injection Hw as <- <- <-. exists []. consts. split_and!; try done; [simpl; lia|constructor].
  - cbn [writeChunks] in Hw. apply bind_Ok in Hw as ([raw src'] & Hread & Hw).
    apply bind_Ok in Hw as ([codec stored] & Henc & Hw).
    apply bind_Ok in Hw as (_ & _ & Hw).
    apply bind_Ok in Hw as ([[chunks' body'] rest'] & Hw & Heq). injection Heq as <- <- <-.
    apply readFull_Ok in Hread as (Hdata & Hlen & Hend).
    apply encodeChunk_form in Henc as Hform. pose proof (storedForm_length _ _ _ Hform).
    consts. rewrite !(wrap32_small (zlen _)) by lia.
    rewrite wrap64_small in Hw by lia. rewrite wrap64_small in Hw by lia.
    apply IH in Hw as (content & Hdata' & Hclen & Hend' & Hch & Hn); try lia.
    exists (raw ++ content). rewrite <- app_assoc, <- Hdata', length_app.
    split_and!; [done|lia|congruence| |simpl; lia].
    constructor; consts; [lia| |done|done].
    destruct content; [auto|right]. simpl in *. lia.
Qed.

(** ** The table and the header read back *)

Definition chunk_range (c : objectChunk) : Prop :=
  0 ≤ oc_offset c < 2 ^ 64 ∧ 0 ≤ oc_stored c < 2 ^ 32 ∧ 0 ≤ oc_raw c < 2 ^ 32
  ∧ 0 ≤ oc_crc c < 2 ^ 32.

Lemma decode_encodeEntry c rest :
  chunk_range c → decodeEntry (encodeEntry c ++ rest) = c.
Proof.
  intros (Ho & Hs & Hr & Hc). unfold decodeEntry.
  change (slice 4 12 (encodeEntry c ++ rest)) with (be_put 8 (oc_offset c)).
  change (slice 12 16 (encodeEntry c ++ rest)) with (be_put 4 (oc_stored c)).
  change (slice 16 20 (encodeEntry c ++ rest)) with (be_put 4 (oc_raw c)).
  change (slice 20 24 (encodeEntry c ++ rest)) with (be_put 4 (oc_crc c)).
  rewrite !be_get_put by done. by destruct c.
Qed.

#[local] Arguments encodeEntry : simpl never.

Lemma length_encodeEntry c : length (encodeEntry c) = 24%nat.
Proof. reflexivity. Qed.

Lemma length_encodeTable chunks :
  zlen (concat (encodeEntry <$> chunks)) = 24 * zlen chunks.
Proof.
  induction chunks as [|c chunks IH]; [done|].
  change (concat (encodeEntry <$> (c :: chunks)))
    with (encodeEntry c ++ concat (encodeEntry <$> chunks)).
  rewrite length_app, length_encodeEntry, length_cons. lia.
Qed.

Lemma chunked_range off content chunks body :
  chunked off content chunks body → 0 ≤ off → off + zlen content < 2 ^ 64 →
  Forall chunk_range chunks.
Proof.
  induction 1 as [|off raw content codec stored chunks body Hr _ Hs Hch IH]; intros Hoff Hsum.
  - constructor.
  - rewrite length_app in Hsum. pose proof (storedForm_length _ _ _ Hs). consts.
    constructor; [|apply IH; lia].
    unfold chunk_range, checksum; simpl. pose proof (wrap32_range (Z.lxor (foldl crc_step max_uint32 raw) max_uint32)).
    split_and!; lia.
Qed.

Hypothesis lz4_bound : ∀ n, 0 ≤ n → n ≤ compressBlockBound n.

(** The table check accepts the writer's table. *)
Lemma readTable_chunked pre chunks off content body rawTotal :
  chunked off content chunks body →
  0 ≤ off → 0 ≤ rawTotal → off + zlen content < 2 ^ 64 → rawTotal + zlen content < 2 ^ 64 →
  zlen (pre ++ chunks) * objectEntrySize < 2 ^ 32 →
  readTable (length chunks) (zlen pre) (concat (encodeEntry <$> (pre ++ chunks)))
    (off + zlen body) objectChunkSize (rawTotal + zlen content) off rawTotal
  = Ok (chunks, off + zlen body, rawTotal + zlen content).
Proof.
  intros Hc. revert pre rawTotal.
  induction Hc as [off|off raw content codec stored chunks body Hr Hlast Hs Hc IH];
    intros pre rawTotal Hoff Hraw Hsum Hrsum Hcount.
  - simpl. rewrite !Z.add_0_r. done.
  - pose proof (storedForm_length _ _ _ Hs) as Hsl.
    pose proof (chunked_body_length _ _ _ _ Hc) as Hbl.
    pose proof (chunked_range _ _ _ _ (chunked_cons _ _ _ _ _ _ _ Hr Hlast Hs Hc) Hoff Hsum) as Hrange.
    apply Forall_cons in Hrange as [Hrange _].
    set (c := ObjectChunk _ _ _ _ _) in *.
    assert (oc_codec c = codec ∧ oc_offset c = off ∧ oc_stored c = zlen stored
            ∧ oc_raw c = zlen raw) as (Hcc & Hco & Hcs & Hcr) by done. clearbody c.
    rewrite !length_app in *. simpl length in *. consts.
    cbn [readTable].
    assert (drop (Z.to_nat (wrap32 (zlen pre * objectEntrySize)))
              (concat (encodeEntry <$> (pre ++ c :: chunks)))
            = encodeEntry c ++ concat (encodeEntry <$> chunks)) as ->.
    { consts. rewrite wrap32_small by lia. rewrite fmap_app, concat_app.
      apply drop_app_length'. apply Nat2Z.inj. rewrite length_encodeTable. lia. }
    rewrite decode_encodeEntry by done.
    rewrite (wrap64_small (rawTotal + _ - rawTotal)) by lia.
    rewrite (wrap64_small (off + _ - off)) by lia.
    rewrite wrap32_small by lia.
    assert (Z.min 65536 (rawTotal + Z.of_nat (length raw + length content) - rawTotal) = zlen raw) as ->.
    { destruct Hlast as [->|]; simpl in *; lia. }
    pose proof (lz4_bound 65536 ltac:(lia)) as Hbound.
    rewrite Hcc, Hco, Hcs, Hcr.
    assert (codec = codecRaw ∧ stored = raw ∨ codec = codecLZ4 ∧ 0 < zlen stored) as Hcodec.
    { destruct Hs as [[-> ->]|(-> & ? & _)]; [left|right]; split; try done; lia. }
    rewrite guard_pass; last first.
    { destruct Hcodec as [[Hk Hk']|[Hk ?]]; rewrite ?Hk, ?Hk'; repeat case_bool_decide; first [lia | done]. }
    rewrite guard_pass; last first.
    { destruct Hcodec as [[Hk Hk']|[Hk ?]]; rewrite ?Hk, ?Hk'; repeat case_bool_decide; first [lia | done]. }
    rewrite guard_pass; last first.
    { destruct Hcodec as [[Hk Hk']|[Hk ?]]; rewrite ?Hk, ?Hk'; repeat case_bool_decide; first [lia | done]. }
    rewrite !wrap64_small by lia.
    specialize (IH (pre ++ [c]) (rawTotal + zlen raw)).
    rewrite <- app_assoc, length_app in IH. simpl app in IH. simpl length in IH.
    rewrite length_app in IH. simpl length in IH. consts.
    replace (off + Z.of_nat (length stored + length body)) with (off + zlen stored + zlen body) by lia.
    replace (rawTotal + Z.of_nat (length raw + length content)) with (rawTotal + zlen raw + zlen content) by lia.
    replace (zlen pre + 1) with (Z.of_nat (length pre + 1)) by lia.
    rewrite IH by lia. done.
Qed.

(** The 28 fixed bytes of [encodeHeader]. *)
Definition fixedHeader (logicalSize count : Z) : list byte :=
  objectMagic ++ be_put 2 objectVersion ++ replicate 2 x00 ++ be_put 4 objectChunkSize
  ++ be_put 8 logicalSize ++ be_put 4 (wrap32 count).

#[local] Arguments fixedHeader : simpl never.

Lemma encodeHeader_fixed logicalSize count chunks :
  encodeHeader logicalSize count chunks
  = fixedHeader logicalSize count ++ concat (encodeEntry <$> chunks).
Proof. unfold encodeHeader, fixedHeader. rewrite <- !app_assoc. done. Qed.

Lemma chunkCount_bounds logicalSize :
  0 ≤ logicalSize ≤ max_int64 →
  let count := chunkCount logicalSize in
  0 ≤ count ∧
  ((count - 1) * objectChunkSize < logicalSize ≤ count * objectChunkSize ∧ 0 < logicalSize
   ∨ count = 0 ∧ logicalSize = 0).
Proof.
  unfold chunkCount, max_int64. intros Hl. consts. rewrite wrap64_small by lia.
  pose proof (Z.div_mod (logicalSize + 65536 - 1) 65536 ltac:(lia)).
  pose proof (Z.mod_pos_bound (logicalSize + 65536 - 1) 65536 ltac:(lia)). lia.
Qed.

(** A successful write: the file is the header, the table and the chunks of
    exactly the source's bytes. *)
Lemma objectContents_Ok source logicalSize contents :
  objectContents source logicalSize = Ok contents →
  0 ≤ logicalSize → chunkCount logicalSize * objectEntrySize < 2 ^ 32 →
  ∃ chunks body,
    contents = fixedHeader logicalSize (zlen chunks) ++ concat (encodeEntry <$> chunks) ++ body
    ∧ chunked (objectHeaderSize + zlen chunks * objectEntrySize) (rd_data source) chunks body
    ∧ zlen (rd_data source) = logicalSize ∧ zlen chunks = chunkCount logicalSize
    ∧ logicalSize ≤ max_int64.
Proof.
  unfold objectContents. intros Hw Hl Hcount.
  apply bind_Ok in Hw as (_ & _ & Hw). apply guard_then_Ok in Hw as [Hmax Hw].
  rewrite Z.gtb_ltb in Hmax. apply Z.ltb_ge in Hmax.
  apply bind_Ok in Hw as (_ & _ & Hw). apply bind_Ok in Hw as ([[chunks body] rest] & Hch & Hw).
  apply guard_then_Ok in Hw as [Hex Hw].
  inv_ok. subst contents.
  pose proof (chunkCount_bounds logicalSize ltac:(lia)) as [Hc0 Hcb]. simpl in Hcb.
  apply writeChunks_chunked in Hch as (content & Hdata & Hlen & _ & Hchunked & Hn);
    unfold max_int64 in *; consts; try lia.
  assert (rd_data rest = []) as Hnil.
  { unfold sourceExhausted in Hex. case_bool_decide; [done|]. done. }
  rewrite Hnil, app_nil_r in Hdata. subst content.
  assert (zlen chunks = chunkCount logicalSize) as Hzl by lia.
  exists chunks, body. rewrite encodeHeader_fixed, <- app_assoc, Hzl. done.
Qed.

Lemma readAt_prefix k pre mid post off :
  off = zlen pre → (mid ≠ [] ∨ k = FileSource ∨ post ≠ []) →
  readAt (ReaderAt k (pre ++ mid ++ post)) (length mid) off = (mid, None).
Proof.
  intros -> Hne. unfold readAt. cbn [ra_kind ra_data]. rewrite Nat2Z.id, drop_app_length, take_app_length.
  destruct k.
  - rewrite decide_False by lia. rewrite decide_False by lia. done.
  - rewrite decide_False by lia. rewrite !length_app, decide_False.
    + rewrite decide_False by lia. done.
    + destruct Hne as [Hne|[?|Hne]]; [|done|].
      * destruct mid; [done|]. simpl. lia.
      * destruct post; [done|]. simpl. lia.
Qed.

(** The layout check accepts a written file and returns its table. *)
Lemma readObjectLayout_contents k logicalSize chunks content body :
  chunked (objectHeaderSize + zlen chunks * objectEntrySize) content chunks body →
  zlen content = logicalSize → zlen chunks = chunkCount logicalSize →
  chunkCount logicalSize * objectEntrySize < 2 ^ 32 → logicalSize ≤ max_int64 →
  k = FileSource ∨ 0 < logicalSize →
  let contents := fixedHeader logicalSize (zlen chunks) ++ concat (encodeEntry <$> chunks) ++ body in
  readObjectLayout (ReaderAt k contents) (zlen contents)
  = Ok (ObjectLayout chunks logicalSize objectChunkSize).
Proof.
  intros Hch Hlen Hzl Hcount Hmax Hk contents.
  pose proof (chunkCount_bounds logicalSize ltac:(lia)) as [Hc0 Hcb]. simpl in Hcb.
  unfold max_int64 in *. consts.
  assert (zlen contents = 28 + 24 * zlen chunks + zlen body) as Hclen.
  { unfold contents. rewrite !length_app. pose proof (length_encodeTable chunks).
    change (length (fixedHeader logicalSize (zlen chunks))) with 28%nat. lia. }
  unfold readObjectLayout.
  change (Z.to_nat objectHeaderSize) with (length (fixedHeader logicalSize (zlen chunks))).
  assert (readAt (ReaderAt k contents) (length (fixedHeader logicalSize (zlen chunks))) 0
          = (fixedHeader logicalSize (zlen chunks), None)) as ->.
  { apply (readAt_prefix k [] (fixedHeader logicalSize (zlen chunks))); [done|left; done]. }
  cbn [lift_read mbind result_bind].
  set (h := fixedHeader logicalSize (zlen chunks)).
  change (slice 12 16 h) with (be_put 4 objectChunkSize).
  change (take 8 h) with objectMagic.
  change (slice 8 10 h) with (be_put 2 objectVersion).
  change (slice 16 24 h) with (be_put 8 logicalSize).
  change (slice 24 28 h) with (be_put 4 (wrap32 (zlen chunks))).
  rewrite (wrap32_small (zlen chunks)) by lia.
  rewrite (be_get_put 4 objectChunkSize), (be_get_put 2 objectVersion) by done.
  rewrite (be_get_put 8 logicalSize), (be_get_put 4 (zlen chunks)) by lia. consts.
  rewrite guard_pass by done.
  assert ((if logicalSize >? 0 then (logicalSize - 1) / 65536 + 1 else 0) = zlen chunks) as Hexp.
  { rewrite Z.gtb_ltb. destruct (Z.ltb_spec 0 logicalSize); [|lia].
    assert ((logicalSize - 1) / 65536 = zlen chunks - 1) as ->; [|lia].
    symmetry. apply (Z.div_unique_pos _ _ _ (logicalSize - 1 - 65536 * (zlen chunks - 1))); lia. }
  rewrite Hexp. rewrite guard_pass by (unfold max_uint32, max_int64; lia).
  rewrite (wrap64_small (zlen chunks * 24)), wrap64_small by lia. rewrite guard_pass by lia.
  assert (lift_read (readAt (ReaderAt k contents) (Z.to_nat (zlen chunks * 24)) 28)
          = Ok (concat (encodeEntry <$> chunks))) as ->.
  { replace (Z.to_nat (zlen chunks * 24)) with (length (concat (encodeEntry <$> chunks)))
      by (pose proof (length_encodeTable chunks); lia).
    unfold contents. rewrite (readAt_prefix k h); [done|done|].
    destruct Hk as [->|Hpos]; [auto|left]. intros Hnil.
    pose proof (length_encodeTable chunks) as Hle. rewrite Hnil in Hle. simpl in Hle. lia. }
  cbn [mbind result_bind]. rewrite Nat2Z.id, Hclen.
  pose proof (readTable_chunked [] chunks _ content body 0 Hch) as Hrt.
  rewrite !app_nil_l in Hrt. change (zlen []) with 0 in Hrt. consts.
  replace (28 + 24 * zlen chunks + zlen body) with (28 + zlen chunks * 24 + zlen body) by lia.
  rewrite Hlen in Hrt. rewrite Z.add_0_l in Hrt. rewrite Hrt by lia.
  cbn [mbind result_bind]. rewrite guard_pass by lia. rewrite to_int64_small by lia. done.
Qed.

(** ** The reader *)

Hypothesis pool_size : ∀ size, 0 ≤ size → zlen (pooledChunkBuffer size) = size.

(** What [readObjectLayout] guarantees: the table covers the object with one
    entry per block, and a compressed chunk fits the scratch buffer. *)
Record layoutOk (l : objectLayout) : Prop := {
  lo_size : ol_chunkSize l = objectChunkSize ∨ ol_chunkSize l = legacyChunkSize;
  lo_length : 0 ≤ ol_length l;
  lo_chunk : ∀ i, 0 ≤ i → i * ol_chunkSize l < ol_length l →
    ∃ c, ol_chunks l !! Z.to_nat i = Some c
      ∧ oc_raw c = Z.min (ol_chunkSize l) (ol_length l - i * ol_chunkSize l)
      ∧ (oc_codec c ≠ codecRaw → oc_stored c ≤ compressBlockBound (ol_chunkSize l));
}.

(** The reader's invariant, relative to a relation [D] between a chunk index
    and the decoded chunk: the buffer has its pool's size, the position is in
    range, and a loaded chunk is complete and satisfies [D]. *)
Record readerOk (D : Z → list byte → Prop) (r : objectReader) : Prop := {
  ro_layout : layoutOk (or_layout r);
  ro_pos : 0 ≤ or_pos r ≤ ol_length (or_layout r);
  ro_buf : ∀ b, or_buf r = Some b → zlen b = ol_chunkSize (or_layout r);
  ro_index : or_index r = -1
    ∨ (0 ≤ or_index r ∧ or_index r * ol_chunkSize (or_layout r) < ol_length (or_layout r)
       ∧ zlen (or_data r) = Z.of_nat (or_dlen r)
       ∧ Z.of_nat (or_dlen r) = Z.min (ol_chunkSize (or_layout r))
                                  (ol_length (or_layout r) - or_index r * ol_chunkSize (or_layout r))
       ∧ D (or_index r) (or_data r));
}.

(** [reads D cs pos out]: [out] is what the chunks [D] describes hold from
    [pos] on. *)
Inductive reads (D : Z → list byte → Prop) (cs : Z) : Z → list byte → Prop :=
| reads_nil pos : reads D cs pos []
| reads_cons pos m data out :
    D (pos / cs) data →
    reads D cs (pos + zlen (take m (drop (Z.to_nat (pos mod cs)) data))) out →
    reads D cs pos (take m (drop (Z.to_nat (pos mod cs)) data) ++ out).

(** [D] holds of every chunk a reader of [layout] over [source] loads. *)
Definition loads (D : Z → list byte → Prop) (source : readerAt) (layout : objectLayout) : Prop :=
  ∀ r i, or_source r = source → or_layout r = layout →
  (∀ b, or_buf r = Some b → zlen b = ol_chunkSize layout) →
  0 ≤ i → i * ol_chunkSize layout < ol_length layout →
  (load r i).2 = None → D i (or_data (load r i).1).

(** No chunk of the object fails to load. *)
Definition loadsAlways (source : readerAt) (layout : objectLayout) : Prop :=
  ∀ r i, or_source r = source → or_layout r = layout →
  (∀ b, or_buf r = Some b → zlen b = ol_chunkSize layout) →
  0 ≤ i → i * ol_chunkSize layout < ol_length layout → (load r i).2 = None.

Lemma finishLoad_frame r i c :
  (finishLoad r i c).2 ≠ Some Panicked ∧
  ((finishLoad r i c).2 = None →
     (finishLoad r i c).1 = setIndex r i ∧ checksum (or_data r) = oc_crc c).
Proof. unfold finishLoad. case_match; b2p; simpl; naive_solver. Qed.

Lemma readAt_length s n off : (length (readAt s n off).1 ≤ n)%nat.
Proof. unfold readAt. repeat case_match; simpl; rewrite ?length_take; lia. Qed.

(** A successful [load] in range keeps the invariant's frame: position,
    source and layout are unchanged, and the buffer holds one whole chunk
    whose checksum is the table's. *)
Lemma load_in_range r i :
  layoutOk (or_layout r) → (∀ b, or_buf r = Some b → zlen b = ol_chunkSize (or_layout r)) →
  0 ≤ i → i * ol_chunkSize (or_layout r) < ol_length (or_layout r) →
  let r' := (load r i).1 in
  (load r i).2 ≠ Some Panicked ∧
  ((load r i).2 = None →
   or_source r' = or_source r ∧ or_layout r' = or_layout r ∧ or_pos r' = or_pos r ∧ or_index r' = i
   ∧ (∀ b, or_buf r' = Some b → zlen b = ol_chunkSize (or_layout r))
   ∧ zlen (or_data r') = Z.of_nat (or_dlen r')
   ∧ Z.of_nat (or_dlen r')
     = Z.min (ol_chunkSize (or_layout r)) (ol_length (or_layout r) - i * ol_chunkSize (or_layout r))
   ∧ ∃ c, ol_chunks (or_layout r) !! Z.to_nat i = Some c ∧ checksum (or_data r') = oc_crc c).
Proof.
  intros Hl Hbuf Hi Hr. destruct (lo_chunk _ Hl i Hi Hr) as (c & Hc & Hraw & Hst).
  unfold load. destruct (Z.ltb_spec i 0); [lia|]. rewrite Hc.
  set (buf := default _ (or_buf r)).
  assert (zlen buf = ol_chunkSize (or_layout r)) as Hblen.
  { unfold buf. destruct (or_buf r) as [b|]; simpl; [by apply Hbuf|].
    unfold acquireChunkBuffer, poolSize.
    destruct (lo_size _ Hl) as [->| ->]; consts; simpl; rewrite pool_size; done. }
  clearbody buf.
  assert (poolSize (ol_chunkSize (or_layout r)) = ol_chunkSize (or_layout r)) as Hpool.
  { unfold poolSize. destruct (lo_size _ Hl) as [->| ->]; done. }
  rewrite decide_False by lia.
  assert (∀ w, (length w ≤ Z.to_nat (oc_raw c))%nat →
    let r1 := setBuffer r (overwrite w buf) (Z.to_nat (oc_raw c)) in
    zlen (overwrite w buf) = ol_chunkSize (or_layout r) ∧ zlen (or_data r1) = Z.of_nat (or_dlen r1)) as Hset.
  { intros w Hw. simpl. rewrite length_overwrite by lia. split; [done|].
    unfold or_data; simpl. rewrite length_take, length_overwrite; lia. }
  case_bool_decide as Hcodec.
  - pose proof (readAt_length (or_source r) (Z.to_nat (oc_raw c)) (to_int64 (oc_offset c))) as Hgl.
    destruct (readAt _ _ _) as [got [e|]]; simpl in Hgl; [simpl; naive_solver|].
    destruct (Hset got Hgl) as [Hs1 Hs2].
    destruct (finishLoad_frame (setBuffer r (overwrite got buf) (Z.to_nat (oc_raw c))) i c) as [Hp Hf].
    split; [done|]. intros Hn. destruct (Hf Hn) as [-> Hcrc]. simpl.
    split_and!; try done; [by intros ? [= <-]|lia|eauto].
  - rewrite Hpool. destruct (Z.gtb_spec (oc_stored c) (compressBlockBound (ol_chunkSize (or_layout r))));
      [specialize (Hst Hcodec); lia|].
    destruct (readAt _ _ _) as [stored [e|]]; [simpl; naive_solver|].
    destruct (uncompressBlock _ _) as [written decoded].
    case_bool_decide; [|simpl; naive_solver].
    destruct (Hset (take (Z.to_nat (oc_raw c)) written) ltac:(rewrite length_take; lia)) as [Hs1 Hs2].
    destruct (finishLoad_frame (setBuffer r (overwrite (take (Z.to_nat (oc_raw c)) written) buf)
                (Z.to_nat (oc_raw c))) i c) as [Hp Hf].
    split; [done|]. intros Hn. destruct (Hf Hn) as [-> Hcrc]. simpl.
    split_and!; try done; [by intros ? [= <-]|lia|eauto].
Qed.

Lemma readerOk_load D source layout r i :
  loads D source layout → or_source r = source → or_layout r = layout → readerOk D r →
  0 ≤ i → i * ol_chunkSize layout < ol_length layout →
  (load r i).2 ≠ Some Panicked ∧
  ((load r i).2 = None →
   readerOk D (load r i).1 ∧ or_index (load r i).1 = i ∧ or_pos (load r i).1 = or_pos r
   ∧ or_source (load r i).1 = source ∧ or_layout (load r i).1 = layout).
Proof.
  intros HD Hs Hl [Hlo Hpos Hbuf _] Hi Hr. subst layout.
  destruct (load_in_range r i Hlo Hbuf Hi Hr) as [Hp Hok]. split; [done|]. intros Hn.
  destruct (Hok Hn) as (Hs' & Hl' & Hpos' & Hidx & Hbuf' & Hdl & Hdlen & _).
  pose proof (HD r i Hs eq_refl Hbuf Hi Hr Hn) as HDi.
  split_and!; try congruence. split; rewrite ?Hl', ?Hpos'; try done.
  right. rewrite Hidx. done.
Qed.

(** Every iteration copies at least one byte, so [S n] iterations are enough
    for a target of [n] bytes; the loop never panics and delivers what the
    chunks hold. *)
Lemma readLoop_spec D source layout fuel r n w :
  loads D source layout → or_source r = source → or_layout r = layout → readerOk D r →
  (n < fuel)%nat →
  ∃ r' out res, readLoop fuel r n w = Some (r', w ++ out, res) ∧ res ≠ Some Panicked
    ∧ reads D (ol_chunkSize layout) (or_pos r) out
    ∧ (loadsAlways source layout → res = None)
    ∧ (res = None →
       readerOk D r' ∧ or_source r' = source ∧ or_layout r' = layout
       ∧ or_pos r' = or_pos r + zlen out
       ∧ zlen out = Z.min (Z.of_nat n) (ol_length layout - or_pos r)).
Proof.
  intros HD. revert r n w. induction fuel as [|fuel IH]; intros r n w Hs Hl Hok Hn; [lia|].
  pose proof (ro_pos _ _ Hok) as Hpos. pose proof (ro_layout _ _ Hok) as Hlo.
  rewrite Hl in Hpos, Hlo.
  assert (0 < ol_chunkSize layout) as Hcs by (destruct (lo_size _ Hlo) as [->| ->]; done).
  cbn [readLoop]. rewrite Hl. case_decide as Hn0.
  2: { exists r, [], None. rewrite app_nil_r. split_and!; try done; [constructor|].
       intros _. split_and!; try done; simpl; lia. }
  destruct (Z.ltb_spec (or_pos r) (ol_length layout)) as [Hlt|].
  2: { exists r, [], None. rewrite app_nil_r. split_and!; try done; [constructor|].
       intros _. split_and!; try done; simpl; lia. }
  set (i := or_pos r / ol_chunkSize layout).
  assert (0 ≤ i) as Hi by (apply Z.div_pos; lia).
  pose proof (Z.div_mod (or_pos r) (ol_chunkSize layout) ltac:(lia)) as Hdm.
  pose proof (Z.mod_pos_bound (or_pos r) (ol_chunkSize layout) Hcs) as Hmod.
  assert (i * ol_chunkSize layout < ol_length layout) as Hir by (unfold i; lia).
  assert (∃ r1 err, (if or_index r =? i then (r, None) else load r i) = (r1, err)
          ∧ err ≠ Some Panicked ∧ (loadsAlways source layout → err = None)
          ∧ (err = None → readerOk D r1 ∧ or_index r1 = i ∧ or_pos r1 = or_pos r
             ∧ or_source r1 = source ∧ or_layout r1 = layout)) as (r1 & err & -> & Hnp & Hall & Hr1).
  { destruct (Z.eqb_spec (or_index r) i).
    - exists r, None. done.
    - destruct (readerOk_load D source layout r i HD Hs Hl Hok Hi Hir) as [Hp Hk].
      pose proof (ro_buf _ _ Hok) as Hbuf. rewrite Hl in Hbuf.
      assert (loadsAlways source layout → (load r i).2 = None) as Hall by (intros Ha; by apply Ha).
      destruct (load r i) as [r1 err]. exists r1, err. done. }
  destruct err as [e|].
  { exists r1, [], (Some e). rewrite app_nil_r. split_and!; try done. constructor. }
  destruct (Hr1 eq_refl) as (Hok1 & Hidx & Hpos1 & Hs1 & Hl1).
  destruct (ro_index _ _ Hok1) as [?|(_ & _ & Hdl & Hdlen & HDi)]; [lia|].
  rewrite Hl1, Hidx in Hdlen. rewrite Hidx in HDi.
  rewrite Hl1, Hpos1, decide_False by (unfold i in *; lia).
  set (got := take n (drop (Z.to_nat (or_pos r mod ol_chunkSize layout)) (or_data r1))).
  assert (zlen got = Z.min (Z.of_nat n) (Z.of_nat (or_dlen r1) - or_pos r mod ol_chunkSize layout)) as Hgot.
  { unfold got. rewrite length_take, length_drop. unfold i in *. lia. }
  destruct (IH (setPos r1 (or_pos r + zlen got)) (n - length got)%nat (w ++ got))
    as (r' & out & res & -> & Hnp' & Hreads & Hall' & Hres); [done|done| |unfold i in *; lia|].
  { destruct Hok1 as [Hlo1 Hp1 Hb1 Hi1]. split; simpl; try done. rewrite Hl1. unfold i in *; lia. }
  exists r', (got ++ out), res. rewrite app_assoc. split_and!; try done.
  - unfold got. constructor; [done|]. done.
  - intros Hn'. destruct (Hres Hn') as (? & ? & ? & Hpos' & Hlen'). simpl in *.
    rewrite length_app. split_and!; try done; unfold i in *; lia.
Qed.

(** ** Every accepted layout is sound *)

Lemma readTable_ok todo index table encodedSize cs len off rt chunks off' rt' :
  readTable todo index table encodedSize cs len off rt = Ok (chunks, off', rt') →
  0 < cs < 2 ^ 32 → 0 ≤ rt ≤ len → len ≤ max_int64 →
  ∀ i, (i < todo)%nat → Z.of_nat i * cs < len - rt →
  ∃ c, chunks !! i = Some c ∧ oc_raw c = Z.min cs (len - rt - Z.of_nat i * cs)
    ∧ (oc_codec c ≠ codecRaw → oc_stored c ≤ compressBlockBound cs).
Proof.
  revert index off rt chunks. induction todo as [|todo IH]; intros index off rt chunks Hr Hcs Hrt Hlen i Hi Hin; [lia|].
  cbn [readTable] in Hr. set (chunk := decodeEntry _) in Hr. clearbody chunk.
  apply guard_then_Ok in Hr as [Hg1 Hr]. apply guard_then_Ok in Hr as [Hg2 Hr].
  apply guard_then_Ok in Hr as [Hg3 Hr].
  apply bind_Ok in Hr as ([[chunks' off''] rt''] & Hr & Heq). injection Heq as <- <- <-.
  unfold max_int64 in *. rewrite (wrap64_small (len - rt)), wrap32_small in Hg1 by lia.
  assert (oc_raw chunk = Z.min cs (len - rt)) as Hraw by (repeat case_bool_decide; lia).
  destruct i as [|i].
  - exists chunk. split_and!; [done|lia|]. intros Hc. repeat case_bool_decide; first [done|lia].
  - destruct (Z.le_gt_cases (len - rt) cs); [nia|].
    rewrite (wrap64_small (rt + _)) in Hr by lia.
    destruct (IH _ _ _ _ Hr Hcs ltac:(lia) ltac:(lia) i ltac:(lia) ltac:(nia)) as (c & Hc & Hcr & Hst).
    exists c. split_and!; [done| |done]. rewrite Hcr, Hraw. f_equal; nia.
Qed.

(** The header check rejects every table [layoutOk] does not hold of. *)
Lemma readObjectLayout_ok source encodedSize l :
  readObjectLayout source encodedSize = Ok l → layoutOk l.
Proof.
  unfold readObjectLayout. intros Hr.
  apply bind_Ok in Hr as (header & Hh & Hr). apply guard_then_Ok in Hr as [Hg1 Hr].
  apply guard_then_Ok in Hr as [Hg2 Hr]. apply guard_then_Ok in Hr as [_ Hr].
  apply bind_Ok in Hr as (table & _ & Hr).
  apply bind_Ok in Hr as ([[chunks off] rt] & Ht & Hr). apply guard_then_Ok in Hr as [_ Hr].
  apply Ok_inj in Hr. subst l.
  set (cs := be_get (slice 12 16 header)) in *. set (len := be_get (slice 16 24 header)) in *.
  set (count := be_get (slice 24 28 header)) in *.
  assert (0 ≤ len) by apply be_get_range.
  assert (cs = objectChunkSize ∨ cs = legacyChunkSize) as Hcs.
  { destruct (bool_decide (take 8 header = objectMagic)); lia. }
  assert (0 < cs < 2 ^ 32) as Hcs' by (destruct Hcs as [->| ->]; consts; lia).
  assert (len ≤ max_int64) as Hmax by lia. clearbody cs len count.
  unfold max_int64 in *. rewrite to_int64_small by lia. split; simpl; [done|done|].
  intros i Hi Hin.
  assert (count = (len - 1) / cs + 1) as Hcount.
  { assert (0 < len) by nia. destruct (Z.gtb_spec len 0); [|lia].
    unfold max_uint32 in *. lia. }
  destruct (readTable_ok _ _ _ _ _ _ _ _ _ _ _ Ht Hcs' ltac:(lia) ltac:(done) (Z.to_nat i))
    as (c & Hc & Hcr & Hst); [|lia|].
  - assert (i ≤ (len - 1) / cs) by (apply Z.div_le_lower_bound; lia). lia.
  - exists c. rewrite Z2Nat.id in Hcr by lia. split_and!; [done|lia|done].
Qed.

(** ** What was written is read back *)

(** The [i]-th block of an object's bytes. *)
Definition block (content : list byte) (i : Z) : list byte :=
  take (Z.to_nat objectChunkSize) (drop (Z.to_nat (i * objectChunkSize)) content).

Lemma finishLoad_hit r i c :
  checksum (or_data r) = oc_crc c → finishLoad r i c = (setIndex r i, None).
Proof. intros Hc. unfold finishLoad. rewrite Hc, Z.eqb_refl. done. Qed.

(** Loading a chunk of a written file gives the block it was written from. *)
Lemma load_written k chunks content body logicalSize r i :
  let contents := fixedHeader logicalSize (zlen chunks) ++ concat (encodeEntry <$> chunks) ++ body in
  chunked (objectHeaderSize + zlen chunks * objectEntrySize) content chunks body →
  zlen content = logicalSize → zlen chunks * objectEntrySize < 2 ^ 32 → logicalSize ≤ max_int64 →
  or_source r = ReaderAt k contents → or_layout r = ObjectLayout chunks logicalSize objectChunkSize →
  (∀ b, or_buf r = Some b → zlen b = objectChunkSize) →
  0 ≤ i → i * objectChunkSize < logicalSize →
  (load r i).2 = None ∧ or_data (load r i).1 = block content i.
Proof.
  intros contents Hch Hlen Hsmall Hmax Hs Hl Hbuf Hi Hin. unfold max_int64 in *.
  assert (∃ c, chunks !! Z.to_nat i = Some c) as [c Hc].
  { apply lookup_lt_is_Some. destruct (chunked_count _ _ _ _ Hch) as [?|[-> ->]]; consts; simpl in *; lia. }
  destruct (chunked_lookup _ _ _ _ _ _ Hch Hc)
    as (pre & stored & post & Hbody & Hoff & Hstored & Hraw & Hcrc & Hform & Hrawle).
  replace (Z.to_nat i * Z.to_nat objectChunkSize)%nat with (Z.to_nat (i * objectChunkSize)) in * by (consts; lia).
  unfold block. set (raw := take (Z.to_nat objectChunkSize) _) in *.
  assert (raw ≠ []) as Hne.
  { intros Hnil. apply (f_equal length) in Hnil. unfold raw in Hnil.
    rewrite length_take, length_drop in Hnil. change (length []) with 0%nat in Hnil. consts. lia. }
  pose proof (storedForm_length _ _ _ Hform) as Hsl.
  assert (stored ≠ []) as Hsne.
  { destruct Hform as [[_ ->]|(_ & ? & _)]; [done|]. by intros ->; simpl in *; lia. }
  assert (readAt (or_source r) (length stored) (to_int64 (oc_offset c)) = (stored, None)) as Hread.
  { rewrite Hs. unfold contents. rewrite Hbody.
    replace (fixedHeader logicalSize (zlen chunks) ++ concat (encodeEntry <$> chunks) ++ pre ++ stored ++ post)
      with ((fixedHeader logicalSize (zlen chunks) ++ concat (encodeEntry <$> chunks) ++ pre) ++ stored ++ post)
      by (rewrite <- !app_assoc; done).
    pose proof (length_encodeTable chunks). pose proof (chunked_body_length _ _ _ _ Hch) as Hbl.
    rewrite Hbody, !length_app in Hbl.
    apply readAt_prefix; [|auto]. rewrite !length_app.
    change (length (fixedHeader logicalSize (zlen chunks))) with 28%nat.
    pose proof (chunked_count _ _ _ _ Hch) as [?|[Hnil _]];
      [|rewrite Hnil in Hlen; change (zlen []) with 0 in Hlen; consts; lia].
    rewrite to_int64_small; consts; lia. }
  unfold load. destruct (Z.ltb_spec i 0); [lia|]. rewrite Hl. cbn [ol_chunks ol_chunkSize]. rewrite Hc.
  set (buf := default _ (or_buf r)).
  assert (zlen buf = objectChunkSize) as Hblen.
  { unfold buf. destruct (or_buf r) as [b|]; simpl; [by apply Hbuf|].
    unfold acquireChunkBuffer, poolSize. consts. simpl. rewrite pool_size; done. }
  clearbody buf. rewrite Hraw, Nat2Z.id, decide_False by lia.
  destruct Hform as [[Hcodec ->]|(Hcodec & Hslen & Hun)]; rewrite Hcodec.
  - rewrite bool_decide_eq_true_2 by done. rewrite Hread.
    rewrite finishLoad_hit; unfold or_data; simpl; rewrite take_overwrite; [done|done].
  - rewrite bool_decide_eq_false_2 by done.
    change (poolSize objectChunkSize) with objectChunkSize.
    pose proof (lz4_bound objectChunkSize ltac:(done)) as Hbd. rewrite Hstored, Nat2Z.id.
    destruct (Z.gtb_spec (zlen stored) (compressBlockBound objectChunkSize)); [lia|].
    rewrite Hread, Hun, bool_decide_eq_true_2 by congruence.
    rewrite (take_ge raw) by done.
    rewrite finishLoad_hit; unfold or_data; simpl; rewrite take_overwrite; [done|done].
Qed.

Lemma take_own_length {A} (l : list A) n : take n l = take (length (take n l)) l.
Proof.
  rewrite length_take. destruct (Nat.le_ge_cases n (length l)).
  - rewrite Nat.min_l; done.
  - rewrite Nat.min_r, !take_ge; done.
Qed.

(** Reading the blocks of [content] gives its bytes. *)
Lemma reads_block content pos out :
  reads (λ i data, data = block content i) objectChunkSize pos out → 0 ≤ pos →
  out = take (length out) (drop (Z.to_nat pos) content).
Proof.
  induction 1 as [pos|pos m data out -> Hr IH]; intros Hpos; [done|].
  set (got := take m _) in *. specialize (IH ltac:(lia)).
  pose proof (Z.div_mod pos objectChunkSize ltac:(done)) as Hdm.
  pose proof (Z.mod_pos_bound pos objectChunkSize ltac:(done)) as Hmb.
  assert (got = take (length got) (drop (Z.to_nat pos) content)) as Hgot.
  { assert (got = take (m `min` (Z.to_nat objectChunkSize - Z.to_nat (pos mod objectChunkSize)))
                    (drop (Z.to_nat pos) content)) as ->; [|apply take_own_length].
    unfold got, block. rewrite skipn_firstn_comm, take_take, drop_drop. f_equal. f_equal.
    pose proof (Z.div_pos pos objectChunkSize Hpos ltac:(done)). consts. lia. }
  rewrite length_app, <- take_take_drop, <- Hgot. f_equal.
  rewrite drop_drop, IH at 1. do 2 f_equal. lia.
Qed.

(** ** The properties *)

(** [D] of the round trip: a loaded chunk is the block it was written from. *)
Lemma written_loads k chunks content body logicalSize :
  let contents := fixedHeader logicalSize (zlen chunks) ++ concat (encodeEntry <$> chunks) ++ body in
  let layout := ObjectLayout chunks logicalSize objectChunkSize in
  chunked (objectHeaderSize + zlen chunks * objectEntrySize) content chunks body →
  zlen content = logicalSize → zlen chunks * objectEntrySize < 2 ^ 32 → logicalSize ≤ max_int64 →
  loads (λ i data, data = block content i) (ReaderAt k contents) layout
  ∧ loadsAlways (ReaderAt k contents) layout.
Proof.
  intros contents layout Hch Hlen Hsmall Hmax.
  split; intros r i Hs Hl Hbuf Hi Hin; simpl in *;
    destruct (load_written k chunks content body logicalSize r i Hch Hlen Hsmall Hmax Hs Hl Hbuf Hi Hin); done.
Qed.

(** A reader just opened, or moved by [Seek], satisfies the invariant. *)
Lemma readerOk_fresh D source layout pos :
  layoutOk layout → 0 ≤ pos ≤ ol_length layout →
  readerOk D (setPos (newObjectReaderFromLayout source layout) pos).
Proof. intros Hl Hp. split; simpl; try done. by left. Qed.

Lemma Seek_start r pos :
  0 ≤ pos ≤ ol_length (or_layout r) → Seek r pos SeekStart = (setPos r pos, Ok pos).
Proof.
  intros Hp. unfold Seek. rewrite Z.gtb_ltb.
  destruct (Z.ltb_spec pos 0), (Z.ltb_spec (ol_length (or_layout r)) pos); simpl; done || lia.
Qed.

(** C4. Round trip of the object format.  When [writeObjectReader] stores a
    source, the file it leaves opens with [newObjectReader], and seeking to
    any position and reading [n] bytes returns exactly those bytes of the
    source, without an error.  The hypotheses on LZ4 are that
    [UncompressBlock] inverts [CompressBlock] and that [CompressBlockBound]
    is at least the block size; the object has fewer than [2^32/24] chunks,
    the range of the table index. *)
Theorem write_read_roundtrip fs path source logicalSize fs' p size k pos n :
  writeObjectReader fs path source logicalSize = (fs', Ok (p, size)) →
  0 ≤ logicalSize → chunkCount logicalSize * objectEntrySize < 2 ^ 32 →
  0 ≤ pos < logicalSize →
  p = path ∧ ∃ contents, fs' = <[path := contents]> fs ∧ size = zlen contents ∧
  ∃ r r1 r2, newObjectReader (ReaderAt k contents) size = Ok r
    ∧ Seek r pos SeekStart = (r1, Ok pos)
    ∧ Read r1 n = Some (r2, take n (drop (Z.to_nat pos) (rd_data source)), None).
Proof.
  intros Hw Hl0 Hcount Hpos. unfold writeObjectReader in Hw.
  destruct (sys CallCreate); [|done].
  destruct (objectContents source logicalSize) as [contents|] eqn:Hoc; [|done].
  injection Hw as <- <- <-. split; [done|]. exists contents. rewrite insert_insert_eq. split; [done|split; [done|]].
  destruct (objectContents_Ok _ _ _ Hoc Hl0 Hcount) as (chunks & body & -> & Hch & Hlen & Hzl & Hmax).
  pose proof (readObjectLayout_contents k _ _ _ _ Hch Hlen Hzl Hcount Hmax ltac:(right; lia)) as Hrl.
  set (contents := fixedHeader _ _ ++ _) in *.
  set (layout := ObjectLayout chunks logicalSize objectChunkSize) in *.
  destruct (written_loads k chunks (rd_data source) body logicalSize Hch Hlen ltac:(lia) Hmax) as [HD Hall].
  pose proof (readerOk_fresh (λ i data, data = block (rd_data source) i) (ReaderAt k contents) layout pos
    (readObjectLayout_ok _ _ _ Hrl) ltac:(simpl; lia)) as Hok.
  set (r1 := setPos (newObjectReaderFromLayout (ReaderAt k contents) layout) pos) in *.
  destruct (readLoop_spec _ (ReaderAt k contents) layout (S n) r1 n [] HD eq_refl eq_refl Hok ltac:(lia))
    as (r2 & out & res & Hrun & _ & Hreads & Hnone & Hres).
  specialize (Hnone Hall). subst res. destruct (Hres eq_refl) as (_ & _ & _ & _ & Hout).
  exists (newObjectReaderFromLayout (ReaderAt k contents) layout), r1, r2.
  split; [unfold newObjectReader; rewrite Hrl; done|].
  split; [apply Seek_start; simpl; lia|].
  apply reads_block in Hreads; [|simpl; lia]. simpl in Hreads, Hout.
  unfold Read. change (or_pos r1) with pos. change (ol_length (or_layout r1)) with logicalSize.
  destruct (Z.geb_spec pos logicalSize); [lia|].
  rewrite Hrun, app_nil_l, Hreads. do 3 f_equal.
  rewrite (take_own_length _ n). f_equal. rewrite length_take, length_drop. lia.
Qed.

(** What a checksum-verified chunk of a layout is. *)
Definition verified (layout : objectLayout) (i : Z) (data : list byte) : Prop :=
  ∃ c, ol_chunks layout !! Z.to_nat i = Some c ∧ checksum data = oc_crc c.

(** The life of a reader: it is opened, moved and read, and given up once a read
    fails (at the end of the object it may go on). *)
Inductive used (source : readerAt) (encodedSize : Z) : objectReader → Prop :=
| used_open r : newObjectReader source encodedSize = Ok r → used source encodedSize r
| used_seek r offset w : used source encodedSize r → used source encodedSize (Seek r offset w).1
| used_read r n r' out : used source encodedSize r → Read r n = Some (r', out, None) → used source encodedSize r'
| used_end r n r' : used source encodedSize r → Read r n = Some (r', [], Some (Failed ErrEOF)) → or_pos r >= ol_length (or_layout r) → used source encodedSize r'.

Lemma verified_loads source encodedSize layout : readObjectLayout source encodedSize = Ok layout → loads (verified layout) source layout.
Proof.
  intros Hrl r0 i Hs0 Hl0 Hbuf Hi Hin Hn. pose proof (readObjectLayout_ok _ _ _ Hrl) as Hlo. rewrite <- Hl0 in Hlo, Hbuf, Hin.
  destruct (load_in_range r0 i Hlo Hbuf Hi Hin) as [_ Hk]. destruct (Hk Hn) as (_ & _ & _ & _ & _ & _ & _ & Hc). by rewrite Hl0 in Hc.
Qed.
Lemma seek_ok D r offset w : readerOk D r → readerOk D (Seek r offset w).1 ∧ or_source (Seek r offset w).1 = or_source r ∧ or_layout (Seek r offset w).1 = or_layout r.
Proof.
  intros Hok. assert (∀ target, let r' := (if (target <? 0) || (target >? ol_length (or_layout r)) then (r, Err (ErrMsg "cache object seek out of bounds")) else (setPos r target, Ok target)).1 in
    readerOk D r' ∧ or_source r' = or_source r ∧ or_layout r' = or_layout r) as Hgo.
  { intros target. rewrite Z.gtb_ltb. destruct (Z.ltb_spec target 0), (Z.ltb_spec (ol_length (or_layout r)) target); cbn; try done.
    split; [|done]. destruct Hok as [H1 H2 H3 H4]. split; cbn; try done. }
  unfold Seek. destruct w; [apply Hgo..|done].
Qed.
Lemma used_ok source encodedSize r : used source encodedSize r →
  ∃ layout, readObjectLayout source encodedSize = Ok layout ∧ or_source r = source ∧ or_layout r = layout ∧ readerOk (verified layout) r.
Proof.
  induction 1 as [r Ho|r offset w _ (layout & Hrl & Hs & Hl & Hok)|r n r' out _ (layout & Hrl & Hs & Hl & Hok) Hr|r n r' _ IH Hr Hend].
  - unfold newObjectReader in Ho. destruct (readObjectLayout source encodedSize) as [layout|] eqn:Hrl; [|done]. injection Ho as <-. exists layout. split_and!; try done.
    pose proof (readObjectLayout_ok _ _ _ Hrl) as Hlo. apply (readerOk_fresh _ _ _ 0 Hlo). split; [done|apply (lo_length _ Hlo)].
  - exists layout. destruct (seek_ok (verified layout) r offset w Hok) as (H1 & -> & ->). by split_and!.
  - exists layout. pose proof (verified_loads _ _ _ Hrl) as HD. unfold Read in Hr. destruct (_ >=? _); [done|].
    destruct (readLoop_spec _ _ _ (S n) r n [] HD Hs Hl Hok ltac:(lia)) as (r1 & out1 & res & E & _ & _ & _ & Hres).
    rewrite E in Hr. injection Hr as <- _ ->. destruct (Hres eq_refl) as (? & ? & ? & _). by split_and!.
  - unfold Read in Hr. rewrite (proj2 (Z.geb_ge _ _)) in Hr by lia. by injection Hr as <-.
Qed.

(** C40. Safety and totality of [Read] on untrusted files.  Whatever bytes a
    file holds, if a reader can be opened on it and was used with [Seek] and
    [Read] so far without a failed read, the next [Read] returns (the loop ends
    within its fuel), never slices out of range, only delivers bytes of chunks
    whose checksum is the table's, and, unless it reports an error, fills the
    target or reaches the end and moves by what it delivered.  (After a failed
    read the buffer may hold another chunk's bytes: see
    [failed_load_serves_wrong_chunk].) *)
Theorem Read_safe source encodedSize r n :
  used source encodedSize r →
  ∃ layout r' out res, readObjectLayout source encodedSize = Ok layout ∧ Read r n = Some (r', out, res) ∧ res ≠ Some Panicked
    ∧ reads (verified layout) (ol_chunkSize layout) (or_pos r) out
    ∧ (res = None → or_pos r' = or_pos r + zlen out ∧ zlen out = Z.min (Z.of_nat n) (ol_length layout - or_pos r)).
Proof.
  intros (layout & Hrl & Hs & Hl & Hok)%used_ok. exists layout. pose proof (verified_loads _ _ _ Hrl) as HD.
  unfold Read. rewrite Hl. destruct (Z.geb_spec (or_pos r) (ol_length layout)).
  - exists r, [], (Some (Failed ErrEOF)). split_and!; try done. constructor.
  - destruct (readLoop_spec _ _ _ (S n) r n [] HD Hs Hl Hok ltac:(lia))
      as (r' & out & res & -> & Hnp & Hreads & _ & Hres).
    exists r', out, res. split_and!; try done. intros Hn. destruct (Hres Hn) as (? & _ & _ & ? & ?). done.
Qed.

(** A failed write leaves no trace: whichever call fails (creating,
    writing, compressing, reading the source, a source of the wrong length),
    the directory is as before. *)
Theorem write_failure_clean fs path source logicalSize fs' e :
  writeObjectReader fs path source logicalSize = (fs', Err e) →
  fs !! path = None → fs' = fs.
Proof.
  unfold writeObjectReader. intros Hw Hfresh. repeat case_match; simplify_eq; try done.
  by rewrite delete_insert_id.
Qed.

(** Without a fault the loop over the chunks succeeds on a source of the
    declared length. *)
Lemma writeChunks_succeeds todo index logicalSize offset remaining data :
  (∀ c, fault c = None) → (∀ raw, ∃ stored, compressBlock raw = Ok stored) →
  zlen data = remaining → remaining ≤ Z.of_nat todo * objectChunkSize → remaining < 2 ^ 64 →
  ∃ chunks body, writeChunks todo index logicalSize offset remaining (ByteReader data None)
    = Ok (chunks, body, ByteReader [] None).
Proof.
  intros Hf Hcomp. revert index offset remaining data.
  induction todo as [|todo IH]; intros index offset remaining data Hlen Hrem H64; consts.
  - destruct data; [|simpl in *; lia]. by exists [], [].
  - cbn [writeChunks]. unfold readFull at 1. simpl rd_data. rewrite decide_True by lia.
    cbn [mbind result_bind].
    set (raw := take _ data).
    assert (∃ codec stored, encodeChunk logicalSize raw = Ok (codec, stored)) as (codec & stored & ->).
    { unfold encodeChunk. destruct (Hcomp raw) as [stored ->]. cbn [mbind result_bind]. repeat case_match; eauto. }
    cbn [mbind result_bind]. unfold sys. rewrite Hf. cbn [mbind result_bind].
    cbn [rd_end]. set (rest := drop _ data). consts. rewrite (wrap64_small (remaining - _)) by lia.
    destruct (IH (S index) (wrap64 (offset + zlen stored)) (remaining - Z.min remaining 65536) rest)
      as (chunks & body & ->); [unfold rest; rewrite length_drop; lia|lia|lia|].
    eexists _, _. done.
Qed.

(** [writeObject] succeeds: when no system call fails and the compressor
    reports no error, every value that fits an [int64] is stored. *)
Theorem writeObject_succeeds fs path value :
  (∀ c, fault c = None) → (∀ raw, ∃ stored, compressBlock raw = Ok stored) →
  zlen value ≤ max_int64 →
  ∃ contents, writeObject fs path value = (<[path := contents]> fs, Ok (path, zlen contents)).
Proof.
  intros Hf Hcomp Hmax. unfold writeObject, writeObjectReader, objectContents, sys. rewrite !Hf.
  cbn [mbind result_bind].
  pose proof (chunkCount_bounds (zlen value) ltac:(lia)) as [Hc0 Hcb]. simpl in Hcb.
  rewrite guard_pass by lia. unfold max_int64 in *.
  destruct (writeChunks_succeeds (Z.to_nat (chunkCount (zlen value))) 0 (zlen value)
    (objectHeaderSize + chunkCount (zlen value) * objectEntrySize) (zlen value) value)
    as (chunks & body & ->); try done; consts; [lia|lia|].
  cbn [mbind result_bind]. rewrite guard_pass by done.
  eexists. rewrite insert_insert_eq. done.
Qed.

(** A failed [load] leaves [r.index] at the chunk loaded before, while
    [r.data] already holds the bytes of the chunk that failed its checksum.
    A later [Read] at a position of the earlier chunk then returns the damaged
    chunk's bytes without an error, and slices out of range when the position
    lies beyond the damaged chunk's length. *)
Theorem failed_load_serves_wrong_chunk r i c got buf :
  0 ≤ i → ol_chunks (or_layout r) !! Z.to_nat i = Some c → or_buf r = Some buf →
  (length got ≤ length buf)%nat →
  oc_codec c = codecRaw ∧ oc_raw c = zlen got →
  readAt (or_source r) (length got) (to_int64 (oc_offset c)) = (got, None) →
  checksum got ≠ oc_crc c →
  let r1 := fst (load r i) in
  snd (load r i) = Some (Failed (ErrMsg "cache chunk checksum mismatch"))
  ∧ or_index r1 = or_index r ∧ or_data r1 = got
  ∧ (∀ pos n, 0 ≤ pos < ol_length (or_layout r) → pos / ol_chunkSize (or_layout r) = or_index r →
       (0 < n)%nat → pos mod ol_chunkSize (or_layout r) + Z.of_nat n ≤ zlen got →
       0 < ol_chunkSize (or_layout r) →
       Read (setPos r1 pos) n
       = Some (setPos r1 (pos + Z.of_nat n),
               take n (drop (Z.to_nat (pos mod ol_chunkSize (or_layout r))) got), None))
  ∧ (∀ pos n, 0 ≤ pos < ol_length (or_layout r) → pos / ol_chunkSize (or_layout r) = or_index r →
       (0 < n)%nat → zlen got < pos mod ol_chunkSize (or_layout r) →
       Read (setPos r1 pos) n = Some (setPos r1 pos, [], Some Panicked)).
Proof.
  intros Hi Hc Hbuf Hlen [Hcodec Hraw] Hread Hcrc.
  assert (load r i = (setBuffer r (overwrite got buf) (length got),
            Some (Failed (ErrMsg "cache chunk checksum mismatch")))) as ->.
  { unfold load. destruct (Z.ltb_spec i 0); [lia|]. rewrite Hc, Hbuf. cbn [default]. unfold id.
    rewrite Hraw, Nat2Z.id, decide_False by lia. rewrite Hcodec, bool_decide_eq_true_2 by done.
    rewrite Hread. unfold finishLoad, or_data. cbn [setBuffer or_dlen or_buf default].
    unfold id. rewrite take_overwrite. destruct (Z.eqb_spec (checksum got) (oc_crc c)); done. }
  cbn [fst snd]. set (r1 := setBuffer r (overwrite got buf) (length got)).
  assert (or_data r1 = got) as Hd by (unfold or_data, r1; simpl; apply take_overwrite).
  assert (or_layout r1 = or_layout r ∧ or_index r1 = or_index r ∧ or_dlen r1 = length got)
    as (Hl1 & Hi1 & Hn1) by done. clearbody r1.
  split_and!; [done|done|done| |]; intros pos n Hpos Hdiv Hn Hin.
  all: assert (or_pos (setPos r1 pos) = pos ∧ or_layout (setPos r1 pos) = or_layout r
         ∧ or_index (setPos r1 pos) = or_index r ∧ or_dlen (setPos r1 pos) = length got
         ∧ or_data (setPos r1 pos) = got) as (E1 & E2 & E3 & E4 & E5) by (split_and!; done).
  all: unfold Read; cbn [readLoop]; rewrite ?E1, ?E2, ?E3, Hdiv, Z.eqb_refl, ?E1, ?E2, ?E4, ?E5.
  all: destruct (Z.geb_spec pos (ol_length (or_layout r))); [lia|].
  all: destruct (Z.ltb_spec pos (ol_length (or_layout r))); [|lia].
  all: rewrite decide_True by lia.
  - intros Hcs. pose proof (Z.mod_pos_bound pos _ Hcs). rewrite decide_False by lia.
    set (out := take n _). assert (length out = n) as Hout.
    { unfold out. rewrite length_take, length_drop. lia. }
    destruct n as [|n]; [lia|]. rewrite Hout, Nat.sub_diag, app_nil_l. done.
  - rewrite decide_True by lia. done.
Qed.

End Format.

(** ** Concrete instances *)

Module Demo.

(** A run-length stand-in for LZ4: a block of equal bytes is stored as one
    byte, everything else is incompressible. *)
Definition compress (raw : list byte) : result error (list byte) :=
  match raw with
  | b :: _ => if forallb (λ x, bool_decide (x = b)) raw then Ok [b] else Ok []
  | [] => Ok []
  end.
Definition uncompress (stored : list byte) (n : nat) : list byte * option Z :=
  match stored with [b] => (replicate n b, Some (Z.of_nat n)) | _ => ([], None) end.
Definition bound (n : Z) : Z := n.
Definition pool (size : Z) : list byte := replicate (Z.to_nat size) x00.
Definition noFault (c : writeCall) : option error := None.

Lemma compress_roundtrip raw stored :
  compress raw = Ok stored → stored ≠ [] → uncompress stored (length raw) = (raw, Some (zlen raw)).
Proof.
  unfold compress. destruct raw as [|b raw]; [intros [= <-]; done|].
  destruct (forallb _ _) eqn:Hall; intros [= <-] ?; [|done].
  unfold uncompress. f_equal. apply replicate_as_elem_of. split; [done|].
  intros x Hx. rewrite forallb_forall in Hall. apply list_elem_of_In in Hx. apply Hall in Hx. by b2p.
Qed.

Lemma bound_ok n : 0 ≤ n → n ≤ bound n.
Proof. done. Qed.

Lemma pool_ok size : 0 ≤ size → zlen (pool size) = size.
Proof. intros. unfold pool. rewrite length_replicate. lia. Qed.

(** A two-byte object. *)
Definition value : list byte := [x68; x69].
Definition written : gmap string (list byte) * result error (string * Z) :=
  Eval vm_compute in writeObject compress noFault ∅ "body-1.tmp-7" value.

End Demo.

Lemma write_read_roundtrip_witness :
  ∃ contents r r1 r2,
    newObjectReader Demo.bound (ReaderAt FileSource contents) 54 = Ok r
    ∧ Seek r 1 SeekStart = (r1, Ok 1)
    ∧ Read Demo.bound Demo.uncompress Demo.pool r1 5 = Some (r2, [x69], None).
Proof.
  destruct (write_read_roundtrip Demo.compress Demo.bound Demo.uncompress Demo.noFault Demo.pool
    Demo.compress_roundtrip Demo.bound_ok Demo.pool_ok
    ∅ "body-1.tmp-7" (ByteReader Demo.value None) 2 (fst Demo.written) "body-1.tmp-7" 54 FileSource 1 5)
    as (_ & contents & _ & _ & r & r1 & r2 & H); [vm_compute; reflexivity|lia|vm_compute; reflexivity|lia|].
  exists contents, r, r1, r2. exact H.
Defined.

(** The file of [Demo.written]. *)
Definition demoFile : list byte := default [] (fst Demo.written !! "body-1.tmp-7").
Definition demoLayout : objectLayout :=
  Eval vm_compute in
    match readObjectLayout Demo.bound (ReaderAt BytesSource demoFile) 54 with
    | Ok l => l | Err _ => ObjectLayout [] 0 0 end.

Lemma Read_safe_witness :
  ∃ r' out res,
    Read Demo.bound Demo.uncompress Demo.pool
      (newObjectReaderFromLayout (ReaderAt BytesSource demoFile) demoLayout) 1 = Some (r', out, res)
    ∧ res ≠ Some Panicked.
Proof.
  destruct (Read_safe Demo.bound Demo.uncompress Demo.pool Demo.pool_ok
    (ReaderAt BytesSource demoFile) 54
    (newObjectReaderFromLayout (ReaderAt BytesSource demoFile) demoLayout) 1)
    as (layout & r' & out & res & _ & H1 & H2 & _); [apply used_open; vm_compute; reflexivity|].
  exists r', out, res. exact (conj H1 H2).
Defined.

Lemma write_failure_clean_witness :
  fst (writeObject Demo.compress (λ c, match c with CallStat => Some (ErrIO 5) | _ => None end)
         ∅ "body-1.tmp-7" Demo.value) = (∅ : gmap string (list byte)).
Proof.
  apply (write_failure_clean Demo.compress (λ c, match c with CallStat => Some (ErrIO 5) | _ => None end)
    ∅ "body-1.tmp-7" (ByteReader Demo.value None) 2 _ (ErrIO 5)); vm_compute; reflexivity.
Defined.

Lemma writeObject_succeeds_witness :
  ∃ contents, writeObject Demo.compress Demo.noFault ∅ "t" Demo.value
              = (<["t" := contents]> ∅, Ok ("t", zlen contents)).
Proof.
  apply (writeObject_succeeds Demo.compress Demo.noFault).
  - reflexivity.
  - intros raw. unfold Demo.compress. repeat case_match; eauto.
  - vm_compute. discriminate.
Defined.

(** A reader of two four-byte chunks, 'AAAA' and 'BB', the second damaged to
    'BC'; the first is loaded. *)
Definition damagedSource : readerAt := ReaderAt FileSource [x41; x41; x41; x41; x42; x43].
Definition damagedLayout : objectLayout :=
  ObjectLayout [ObjectChunk codecRaw 0 4 4 (checksum [x41; x41; x41; x41]);
                ObjectChunk codecRaw 4 2 2 (checksum [x42; x42])] 6 4.
Definition damagedReader : objectReader :=
  ObjectReader damagedSource damagedLayout 4 0 (Some [x41; x41; x41; x41]) 4.

Lemma failed_load_serves_wrong_chunk_witness :
  let r1 := fst (load Demo.bound Demo.uncompress Demo.pool damagedReader 1) in
  Read Demo.bound Demo.uncompress Demo.pool (setPos r1 0) 2 = Some (setPos r1 2, [x42; x43], None)
  ∧ Read Demo.bound Demo.uncompress Demo.pool (setPos r1 3) 1 = Some (setPos r1 3, [], Some Panicked).
Proof.
  destruct (failed_load_serves_wrong_chunk Demo.bound Demo.uncompress Demo.pool damagedReader 1
    (ObjectChunk codecRaw 4 2 2 (checksum [x42; x42])) [x42; x43] [x41; x41; x41; x41])
    as (_ & _ & _ & H & H'); [lia|reflexivity|reflexivity|simpl; lia|split; reflexivity|reflexivity|
    vm_compute; discriminate|].
  split; [apply H | apply H']; simpl; try lia; reflexivity.
Defined.
