(* ===== verification/CacheCore.v ===== *)
(** * The cache mapping records ([internal/cachecore/core.go])

    A cache entry is stored under two kinds of keys: a mapping key, whose
    value is an encoded [StorageMapper] that lists the variants of a base key
    with their validators and deadlines, and one key per variant, whose value
    is the path of the body file.  This file models the mapping records, the
    update of a mapping by a write, and the validator test of a lookup.  The
    JSON text of a mapping is an interface, [MappingCodec]: the operations of
    the store only use its two functions. *)
From Stdlib Require Import ZArith Lia Ascii String.
From stdpp Require Import base numbers list strings gmap option.
From S2P Require Import Prelude.

Local Open Scope Z_scope.

Definition MappingKeyPrefix : string := "IDX_".

(** ** Data *)

(** [http.Header]: a header name to its values. *)
Abbreviation Header := (gmap string (list string)).

Record KeyIndex := {
  ki_StoredAt : Z;
  ki_FreshTime : Z;
  ki_StaleTime : Z;
  ki_VariedHeaders : Header;
  ki_ETag : string;
  ki_RealKey : string;
  ki_Revalidated : Header;
}.

(** [StorageMapper]; [None] is the nil map. *)
Record StorageMapper := { sm_Mapping : option (gmap string KeyIndex) }.

Definition GetMapping (m : option StorageMapper) : option (gmap string KeyIndex) :=
  m ≫= sm_Mapping.

(** [DecodeMapping] and [EncodeMapping]: the JSON text of a mapping. *)
Class MappingCodec := {
  DecodeMapping : string → option StorageMapper;
  EncodeMapping : StorageMapper → option string;
}.

(** What [encoding/json] documents of a value it could encode, as long as its
    strings are valid UTF-8: other bytes are replaced by U+FFFD, so keys and header
    values that hold them are outside the development. *)
Class MappingCodecRoundtrip `{MappingCodec} : Prop := {
  decode_encode : ∀ m text, EncodeMapping m = Some text → DecodeMapping text = Some m;
  encode_nonempty : ∀ m text, EncodeMapping m = Some text → text ≠ "";
  decode_empty : DecodeMapping "" = None;
}.

(** [range] over a Go map: the entries in an unspecified order. *)
Class GoRange := {
  range : ∀ {A : Type}, gmap string A → list (string * A);
  range_perm : ∀ {A : Type} (m : gmap string A), range m ≡ₚ map_to_list m;
}.

(** The iteration order stdpp computes with, for concrete runs. *)
Definition computed_range : GoRange := {|
  range A m := map_to_list m;
  range_perm A m := Permutation_refl _;
|}.

(** ** [http.CanonicalHeaderKey] *)

(** The token characters of RFC 9110 ([validHeaderFieldByte]). *)
Definition validHeaderFieldByte (c : ascii) : bool :=
  let n := N.of_nat (nat_of_ascii c) in
  ((48 <=? n)%N && (n <=? 57)%N) || ((65 <=? n)%N && (n <=? 90)%N) || ((97 <=? n)%N && (n <=? 122)%N)
  || bool_decide (n ∈ [33; 35; 36; 37; 38; 39; 42; 43; 45; 46; 94; 95; 96; 124; 126]%N).

Definition upperAscii (c : ascii) : ascii :=
  let n := nat_of_ascii c in
  if (97 <=? n)%nat && (n <=? 122)%nat then ascii_of_nat (n - 32) else c.
Definition lowerAscii (c : ascii) : ascii :=
  let n := nat_of_ascii c in
  if (65 <=? n)%nat && (n <=? 90)%nat then ascii_of_nat (n + 32) else c.

Fixpoint canonicalFrom (upper : bool) (s : string) : string :=
  match s with
  | EmptyString => EmptyString
  | String c s' =>
      String (if upper then upperAscii c else lowerAscii c)
        (canonicalFrom (bool_decide (c = "-"%char)) s')
  end.

Fixpoint allBytes (p : ascii → bool) (s : string) : bool :=
  match s with EmptyString => true | String c s' => p c && allBytes p s' end.

Definition CanonicalHeaderKey (name : string) : string :=
  if allBytes validHeaderFieldByte name then canonicalFrom true name else name.

(** [Header.Get]: the first value under the canonical name. *)
Definition headerGet (h : Header) (name : string) : string :=
  default "" (head (default [] (h !! CanonicalHeaderKey name))).

(** ** Updating a mapping *)

Section Updater.
Context {C : MappingCodec} {G : GoRange}.

Definition canonicalHeaders (varied : Header) : Header :=
  foldl (λ acc '(name, values), <[CanonicalHeaderKey name := values]> acc) ∅ (range varied).

(** [MappingUpdater]: decode the previous mapping (if any), set the entry of
    [key], encode. *)
Definition MappingUpdater (key value : string) (now fresh stale : Z) (varied : Header)
    (etag realKey : string) : option string :=
  mapping ←
    (if bool_decide (value = "") then Some {| sm_Mapping := Some ∅ |}
     else
       decoded ← DecodeMapping value;
       Some (match sm_Mapping decoded with
             | None => {| sm_Mapping := Some ∅ |}
             | Some _ => decoded
             end));
  let entry := {|
    ki_StoredAt := now; ki_FreshTime := fresh; ki_StaleTime := stale;
    ki_VariedHeaders := canonicalHeaders varied; ki_ETag := etag; ki_RealKey := realKey;
    ki_Revalidated := ∅ |} in
  EncodeMapping {| sm_Mapping := Some (<[key := entry]> (default ∅ (sm_Mapping mapping))) |}.

End Updater.

(** ** Validators *)

Record Revalidator := {
  rv_Matched : bool;
  rv_RequestETags : list string;
  rv_ResponseETag : string;
  rv_IfNoneMatch : list string;
  rv_IfMatch : list string;
  rv_IfNoneMatchSet : bool;
  rv_IfMatchSet : bool;
  rv_NeedRevalidation : bool;
}.

Definition setMatched (v : Revalidator) (b : bool) : Revalidator := {|
  rv_Matched := b; rv_RequestETags := rv_RequestETags v; rv_ResponseETag := rv_ResponseETag v;
  rv_IfNoneMatch := rv_IfNoneMatch v; rv_IfMatch := rv_IfMatch v;
  rv_IfNoneMatchSet := rv_IfNoneMatchSet v; rv_IfMatchSet := rv_IfMatchSet v;
  rv_NeedRevalidation := rv_NeedRevalidation v |}.

Definition candidateHit (etag : string) (candidates : list string) : bool :=
  existsb (λ c, bool_decide (c = "*") || bool_decide (c = etag)) candidates.

Definition ValidateETagFromHeader (etag : string) (validator : Revalidator) : Revalidator :=
  let v0 := {|
    rv_Matched := bool_decide (etag = "") || bool_decide (rv_RequestETags validator = []);
    rv_RequestETags := rv_RequestETags validator; rv_ResponseETag := etag;
    rv_IfNoneMatch := rv_IfNoneMatch validator; rv_IfMatch := rv_IfMatch validator;
    rv_IfNoneMatchSet := rv_IfNoneMatchSet validator; rv_IfMatchSet := rv_IfMatchSet validator;
    rv_NeedRevalidation := rv_NeedRevalidation validator
      || (negb (bool_decide (etag = "")) && negb (bool_decide (rv_RequestETags validator = []))) |} in
  let none := rv_IfNoneMatchSet v0 in
  let v1 := if none then setMatched v0 (candidateHit etag (rv_IfNoneMatch v0)) else v0 in
  if none && candidateHit etag (rv_IfNoneMatch v0) then v1
  else if rv_IfMatchSet v1 then setMatched v1 (candidateHit etag (rv_IfMatch v1)) else v1.

(** The validator of a plain lookup, [&core.Revalidator{Matched: true}]. *)
Definition plainValidator : Revalidator := {|
  rv_Matched := true; rv_RequestETags := []; rv_ResponseETag := ""; rv_IfNoneMatch := [];
  rv_IfMatch := []; rv_IfNoneMatchSet := false; rv_IfMatchSet := false; rv_NeedRevalidation := false |}.

(** A plain lookup never rejects a variant for its entity tag. *)
Lemma plain_matched etag v :
  rv_RequestETags v = [] → rv_IfNoneMatchSet v = false → rv_IfMatchSet v = false →
  let v' := ValidateETagFromHeader etag v in
  rv_Matched v' = true ∧ rv_RequestETags v' = [] ∧ rv_IfNoneMatchSet v' = false ∧ rv_IfMatchSet v' = false.
Proof.
  intros Ht Hn Hm. unfold ValidateETagFromHeader. simpl. rewrite Hn, Hm. simpl.
  rewrite Ht, (bool_decide_eq_true_2 (([] : list string) = [])), orb_true_r by done. done.
Qed.

Section UpdaterSpec.
Context {C : MappingCodec} {CR : MappingCodecRoundtrip} {G : GoRange}.

(** [MappingUpdater] adds one variant and keeps the others.  From a text
    that decodes to the mapping [m] (or from no text), the encoded result
    decodes to [m] with the entry of [key] replaced by the given deadlines,
    validator and vary headers. *)
Theorem MappingUpdater_adds key value now fresh stale varied etag realKey m text :
  (value = "" ∧ m = ∅ ∨ value ≠ "" ∧ DecodeMapping value = Some {| sm_Mapping := Some m |}) →
  MappingUpdater key value now fresh stale varied etag realKey = Some text →
  ∃ m', DecodeMapping text = Some {| sm_Mapping := Some m' |}
    ∧ (∀ other, other ≠ key → m' !! other = m !! other)
    ∧ ∃ e, m' !! key = Some e ∧ ki_StoredAt e = now ∧ ki_FreshTime e = fresh
        ∧ ki_StaleTime e = stale ∧ ki_ETag e = etag ∧ ki_RealKey e = realKey
        ∧ ki_VariedHeaders e = canonicalHeaders varied.
Proof.
  intros Hv Hu. unfold MappingUpdater in Hu.
  assert (∃ e, EncodeMapping {| sm_Mapping := Some (<[key := e]> m) |} = Some text
    ∧ ki_StoredAt e = now ∧ ki_FreshTime e = fresh ∧ ki_StaleTime e = stale ∧ ki_ETag e = etag
    ∧ ki_RealKey e = realKey ∧ ki_VariedHeaders e = canonicalHeaders varied) as (e & He & Hf).
  { destruct Hv as [[-> ->]|[Hne Hd]].
    - rewrite bool_decide_eq_true_2 in Hu by done. simpl in Hu. eexists. split; [exact Hu|done].
    - rewrite bool_decide_eq_false_2 in Hu by done. rewrite Hd in Hu. simpl in Hu.
      eexists. split; [exact Hu|done]. }
  exists (<[key := e]> m). split; [by apply decode_encode|]. split.
  - intros other Ho. by rewrite lookup_insert_ne.
  - exists e. rewrite lookup_insert_eq. done.
Qed.

End UpdaterSpec.

(** ** A concrete codec *)

#[export] Instance KeyIndex_eq_dec : EqDecision KeyIndex.
Proof. solve_decision. Defined.
#[export] Instance StorageMapper_eq_dec : EqDecision StorageMapper.
Proof. solve_decision. Defined.

(** A codec that satisfies the interface, for concrete runs: a self-delimiting
    text.  A parser consumes the printed form in front of any rest. *)
Module TextCodec.

Definition parser (A : Type) : Type := string → option (A * string).

Definition inverts {A} (print : A → string) (parse : parser A) : Prop :=
  ∀ a rest, parse (print a +:+ rest) = Some (a, rest).

(** Sequences: one mark before every element, another at the end. *)
Definition printList {A} (print : A → string) (l : list A) : string :=
  foldr (λ a s, String "," (print a +:+ s)) "." l.

Fixpoint parseListN {A} (fuel : nat) (parse : parser A) : parser (list A) := λ s,
  match fuel with
  | O => None
  | S fuel' =>
      match s with
      | String "." rest => Some ([], rest)
      | String "," s' =>
          '(a, s1) ← parse s'; '(l, s2) ← parseListN fuel' parse s1; Some (a :: l, s2)
      | _ => None
      end
  end.
Definition parseList {A} (parse : parser A) : parser (list A) :=
  λ s, parseListN (String.length s) parse s.

Lemma length_app_string s t : String.length (s +:+ t) = (String.length s + String.length t)%nat.
Proof. induction s as [|c s IH]; [done|]. simpl. rewrite IH. done. Qed.

Lemma app_assoc_string s t u : (s +:+ t) +:+ u = s +:+ (t +:+ u).
Proof. induction s as [|c s IH]; [done|]. exact (f_equal (String c) IH). Qed.

Lemma app_nil_string s : s +:+ "" = s.
Proof. induction s as [|c s IH]; [done|]. exact (f_equal (String c) IH). Qed.

Lemma printList_length {A} (print : A → string) l :
  (length l < String.length (printList print l))%nat.
Proof.
  induction l as [|a l IH]; [simpl; lia|].
  change (printList print (a :: l)) with (String "," (print a +:+ printList print l)).
  simpl. rewrite length_app_string. lia.
Qed.

Lemma list_inverts {A} (print : A → string) (parse : parser A) :
  inverts print parse → inverts (printList print) (parseList parse).
Proof.
  intros Hp l rest. unfold parseList.
  assert (∀ fuel, (length l < fuel)%nat →
    parseListN fuel parse (printList print l +:+ rest) = Some (l, rest)) as H.
  { induction l as [|a l IH]; intros [|fuel] Hf; simpl in Hf; try lia; [done|].
    change (printList print (a :: l)) with (String "," (print a +:+ printList print l)).
    simpl. rewrite app_assoc_string, Hp. simpl. rewrite IH by lia. done. }
  apply H. rewrite length_app_string. pose proof (printList_length print l). lia.
Qed.

Definition printChar (c : ascii) : string := String c "".
Definition parseChar : parser ascii :=
  λ s, match s with String c r => Some (c, r) | EmptyString => None end.
Lemma char_inverts : inverts printChar parseChar.
Proof. done. Qed.

(** Total conversions on both sides of a printer. *)
Definition printVia {A B} (f : A → B) (print : B → string) (a : A) : string := print (f a).
Definition parseVia {A B} (g : B → A) (parse : parser B) : parser A :=
  λ s, '(b, r) ← parse s; Some (g b, r).
Lemma via_inverts {A B} (f : A → B) (g : B → A) print parse :
  (∀ a, g (f a) = a) → inverts print parse → inverts (printVia f print) (parseVia g parse).
Proof. intros Hg Hp a rest. unfold printVia, parseVia. rewrite Hp. simpl. by rewrite Hg. Qed.

Definition printPair {A B} (pa : A → string) (pb : B → string) (x : A * B) : string :=
  pa x.1 +:+ pb x.2.
Definition parsePair {A B} (qa : parser A) (qb : parser B) : parser (A * B) :=
  λ s, '(a, s1) ← qa s; '(b, s2) ← qb s1; Some ((a, b), s2).
Lemma pair_inverts {A B} (pa : A → string) (pb : B → string) qa qb :
  inverts pa qa → inverts pb qb → inverts (printPair pa pb) (parsePair qa qb).
Proof.
  intros Ha Hb [a b] rest. unfold printPair, parsePair. simpl.
  rewrite app_assoc_string, Ha. simpl. rewrite Hb. done.
Qed.

(** Strings, integers, headers, entries and mappings. *)
Definition printString := printVia list_ascii_of_string (printList printChar).
Definition parseString := parseVia string_of_list_ascii (parseList parseChar).
Lemma string_inverts : inverts printString parseString.
Proof. apply via_inverts; [apply string_of_list_ascii_of_string|apply list_inverts, char_inverts]. Qed.

Fixpoint positiveBits (p : positive) : list ascii :=
  match p with xH => [] | xO q => "0"%char :: positiveBits q | xI q => "1"%char :: positiveBits q end.
Definition bitsPositive (l : list ascii) : positive :=
  foldr (λ c p, if bool_decide (c = "0"%char) then xO p else xI p) xH l.
Lemma bits_positive p : bitsPositive (positiveBits p) = p.
Proof. induction p as [p IH|p IH|]; simpl; unfold bitsPositive in *; simpl; rewrite ?IH; done. Qed.

Definition integerBits (z : Z) : list ascii :=
  match z with Z0 => [] | Zpos p => "+"%char :: positiveBits p | Zneg p => "-"%char :: positiveBits p end.
Definition bitsInteger (l : list ascii) : Z :=
  match l with
  | [] => Z0
  | c :: l' => if bool_decide (c = "+"%char) then Zpos (bitsPositive l') else Zneg (bitsPositive l')
  end.
Lemma bits_integer z : bitsInteger (integerBits z) = z.
Proof. destruct z; simpl; rewrite ?bits_positive; done. Qed.

Definition printZ := printVia integerBits (printList printChar).
Definition parseZ := parseVia bitsInteger (parseList parseChar).
Lemma Z_inverts : inverts printZ parseZ.
Proof. apply via_inverts; [apply bits_integer|apply list_inverts, char_inverts]. Qed.

Section MapText.
Context {A : Type} (print : A → string) (parse : parser A).
Definition printMap : gmap string A → string :=
  printVia map_to_list (printList (printPair printString print)).
Definition parseMap : parser (gmap string A) :=
  parseVia list_to_map (parseList (parsePair parseString parse)).
Lemma map_inverts : inverts print parse → inverts printMap parseMap.
Proof.
  intros Hp. apply via_inverts; [apply list_to_map_to_list|].
  apply list_inverts, pair_inverts; [apply string_inverts|done].
Qed.
End MapText.

Definition printHeader := printMap (printList printString).
Definition parseHeader := parseMap (parseList parseString).
Lemma header_inverts : inverts printHeader parseHeader.
Proof. apply map_inverts, list_inverts, string_inverts. Qed.

Definition entryTuple (e : KeyIndex) :=
  ((ki_StoredAt e, ki_FreshTime e), (ki_StaleTime e, ki_ETag e), (ki_RealKey e, ki_VariedHeaders e),
   ki_Revalidated e).
Definition tupleEntry (t : (Z * Z) * (Z * string) * (string * Header) * Header) : KeyIndex :=
  let '((a, b), (c, d), (e, f), g) := t in
  {| ki_StoredAt := a; ki_FreshTime := b; ki_StaleTime := c; ki_ETag := d; ki_RealKey := e;
     ki_VariedHeaders := f; ki_Revalidated := g |}.
Definition printEntry := printVia entryTuple
  (printPair (printPair (printPair (printPair printZ printZ) (printPair printZ printString))
                (printPair printString printHeader)) printHeader).
Definition parseEntry := parseVia tupleEntry
  (parsePair (parsePair (parsePair (parsePair parseZ parseZ) (parsePair parseZ parseString))
                (parsePair parseString parseHeader)) parseHeader).
Lemma entry_inverts : inverts printEntry parseEntry.
Proof.
  apply via_inverts; [by intros []|].
  auto using pair_inverts, Z_inverts, string_inverts, header_inverts.
Qed.

Definition printMapper := printVia (λ m, option_list (sm_Mapping m)) (printList (printMap printEntry)).
Definition parseMapper := parseVia (λ l, {| sm_Mapping := head l |}) (parseList (parseMap parseEntry)).
Lemma mapper_inverts : inverts printMapper parseMapper.
Proof. apply via_inverts; [by intros [[]]|]. apply list_inverts, map_inverts, entry_inverts. Qed.

#[export] Instance codec : MappingCodec := {|
  EncodeMapping m := Some (printMapper m);
  DecodeMapping s := match parseMapper s with Some (m, EmptyString) => Some m | _ => None end;
|}.

#[export] Instance codec_roundtrip : MappingCodecRoundtrip.
Proof.
  split.
  - intros m text [= <-]. simpl. pose proof (mapper_inverts m "") as Hm.
    rewrite app_nil_string in Hm. rewrite Hm. done.
  - intros m text [= <-] Hnil.
    pose proof (printList_length (printMap printEntry) (option_list (sm_Mapping m))) as Hl.
    change (printList _ _) with (printMapper m) in Hl. rewrite Hnil in Hl. simpl in Hl. lia.
  - done.
Qed.

#[export] Instance ordered : GoRange := computed_range.

End TextCodec.

Import TextCodec.

Definition demoUpdate : option string :=
  MappingUpdater "GET-https-example.com-/" "" 10 70 130 {[ "accept-encoding" := ["gzip"] ]} "" "r".

Lemma MappingUpdater_adds_witness :
  ∃ m', DecodeMapping (default "" demoUpdate) = Some {| sm_Mapping := Some m' |}
    ∧ is_Some (m' !! "GET-https-example.com-/").
Proof.
  destruct (MappingUpdater_adds "GET-https-example.com-/" "" 10 70 130
    {[ "accept-encoding" := ["gzip"] ]} "" "r" ∅ (default "" demoUpdate)
    (or_introl (conj eq_refl eq_refl)))
    as (m' & Hd & _ & e & He & _); [vm_compute; reflexivity|].
  exists m'. split; [exact Hd|]. exists e. exact He.
Defined.
