(* ===== verification/ExpirationHeap.v ===== *)
(** * The expiration heap ([caddy/simplefs/batch.go], [expirationHeap])

    The store keeps one [expirationEntry] per item with a deadline in a binary
    heap driven by Go's [container/heap], and every item points at its entry,
    whose [index] field is its position, so that the entry can be removed in
    place.  This file models the heap's interface methods as the source writes
    them and [container/heap]'s [Push], [Pop] and [Remove] over them, and
    shows that they keep the heap order, the entries and the [index] fields,
    and that [Pop] returns an entry with the earliest deadline. *)
From Stdlib Require Import ZArith ZifyBool Lia.
From stdpp Require Import base numbers list strings.
From S2P Require Import Prelude.

Local Open Scope nat_scope.

(** [expirationEntry]; [ee_id] is the identity of the pointer. *)
Record expirationEntry := ExpirationEntry {
  ee_id : N;
  ee_at : Z;
  ee_key : string;
  ee_generation : N;
  ee_index : Z;
}.

Definition setEntryIndex (e : expirationEntry) (i : Z) : expirationEntry :=
  ExpirationEntry (ee_id e) (ee_at e) (ee_key e) (ee_generation e) i.

Abbreviation expirationHeap := (list expirationEntry).

Definition heapLess (h : expirationHeap) (i j : nat) : bool :=
  match h !! i, h !! j with
  | Some a, Some b => (ee_at a <? ee_at b)%Z
  | _, _ => false
  end.

Definition heapSwap (h : expirationHeap) (i j : nat) : expirationHeap :=
  match h !! i, h !! j with
  | Some a, Some b =>
      <[j := setEntryIndex a (Z.of_nat j)]> (<[i := setEntryIndex b (Z.of_nat i)]> h)
  | _, _ => h
  end.

(** The [Push] and [Pop] methods of [expirationHeap]. *)
Definition heapAppend (h : expirationHeap) (e : expirationEntry) : expirationHeap :=
  h ++ [setEntryIndex e (zlen h)].
Definition heapDropLast (h : expirationHeap) : expirationHeap * option expirationEntry :=
  (take (length h - 1) h, (λ e, setEntryIndex e (-1)) <$> last h).

(** ** [container/heap] *)

Definition parent (j : nat) : nat := (j - 1) / 2.

(** [up(h, j)]; the index at least halves, so [S j] rounds are enough. *)
Fixpoint heapUp (fuel : nat) (h : expirationHeap) (j : nat) : expirationHeap :=
  match fuel with
  | O => h
  | S fuel' =>
      let i := parent j in
      if decide (i = j) then h
      else if heapLess h j i then heapUp fuel' (heapSwap h i j) i else h
  end.

(** [down(h, i, n)], with the final index; it grows in every round. *)
Fixpoint heapDown (fuel : nat) (h : expirationHeap) (i n : nat) : expirationHeap * nat :=
  match fuel with
  | O => (h, i)
  | S fuel' =>
      let j1 := 2 * i + 1 in
      if decide (n ≤ j1) then (h, i)
      else
        let j := if decide (j1 + 1 < n) then (if heapLess h (j1 + 1) j1 then j1 + 1 else j1) else j1 in
        if heapLess h j i then heapDown fuel' (heapSwap h i j) j n else (h, i)
  end.

Definition heapPush (h : expirationHeap) (e : expirationEntry) : expirationHeap :=
  heapUp (S (length h)) (heapAppend h e) (length h).

Definition heapPop (h : expirationHeap) : expirationHeap * option expirationEntry :=
  let n := length h - 1 in
  heapDropLast (heapDown (length h) (heapSwap h 0 n) 0 n).1.

Definition heapRemove (h : expirationHeap) (i : nat) : expirationHeap * option expirationEntry :=
  let n := length h - 1 in
  heapDropLast
    (if decide (n = i) then h
     else
       let h1 := heapSwap h i n in
       let '(h2, i') := heapDown (length h) h1 i n in
       if decide (i < i') then h2 else heapUp (S i) h2 i).

(** ** Lookups through a swap *)

(** The deadline at a position. *)
Definition hat (h : expirationHeap) (i : nat) : Z := default 0%Z (ee_at <$> h !! i).

(** Two heaps hold the same entries up to their [index] fields. *)
Definition sameEntries (h h' : expirationHeap) : Prop :=
  (λ e, setEntryIndex e 0) <$> h ≡ₚ (λ e, setEntryIndex e 0) <$> h'.

Lemma length_heapSwap h i j : length (heapSwap h i j) = length h.
Proof. unfold heapSwap. repeat case_match; rewrite ?length_insert; done. Qed.

Lemma heapSwap_lookup h i j k :
  i < length h → j < length h →
  heapSwap h i j !! k =
    if decide (k = j) then (λ e, setEntryIndex e (Z.of_nat j)) <$> h !! i
    else if decide (k = i) then (λ e, setEntryIndex e (Z.of_nat i)) <$> h !! j
    else h !! k.
Proof.
  intros Hi Hj. unfold heapSwap.
  destruct (lookup_lt_is_Some_2 h i Hi) as [a Ha], (lookup_lt_is_Some_2 h j Hj) as [b Hb].
  rewrite Ha, Hb. simpl. destruct (decide (k = j)) as [->|Hkj].
  - rewrite list_lookup_insert_eq; [done|]. by rewrite length_insert.
  - rewrite list_lookup_insert_ne by done. destruct (decide (k = i)) as [->|Hki].
    + by rewrite list_lookup_insert_eq.
    + by rewrite list_lookup_insert_ne.
Qed.

Lemma heapSwap_hat h i j k :
  i < length h → j < length h →
  hat (heapSwap h i j) k =
    if decide (k = j) then hat h i else if decide (k = i) then hat h j else hat h k.
Proof.
  intros Hi Hj. unfold hat. rewrite heapSwap_lookup by done. repeat case_decide; try done.
  - by destruct (h !! i).
  - by destruct (h !! j).
Qed.

Lemma heapLess_hat h i j :
  i < length h → j < length h → heapLess h i j = (hat h i <? hat h j)%Z.
Proof.
  intros Hi Hj. unfold heapLess, hat.
  destruct (lookup_lt_is_Some_2 h i Hi) as [a ->], (lookup_lt_is_Some_2 h j Hj) as [b ->]. done.
Qed.

Lemma swap_perm {A} (l : list A) i j a b :
  l !! i = Some a → l !! j = Some b → <[j := a]> (<[i := b]> l) ≡ₚ l.
Proof.
  intros Ha Hb. destruct (decide (i = j)) as [->|Hne].
  { assert (a = b) as -> by congruence. rewrite list_insert_insert_eq, list_insert_id; done. }
  apply Permutation_inj. split.
  { by rewrite !length_insert. }
  exists (λ k, if decide (k = i) then j else if decide (k = j) then i else k). split.
  - intros x y. repeat case_decide; naive_solver.
  - intros k. repeat case_decide; subst.
    + rewrite list_lookup_insert_ne by done.
      rewrite list_lookup_insert_eq; [done|]. by eapply lookup_lt_Some.
    + rewrite list_lookup_insert_eq; [done|]. rewrite length_insert. by eapply lookup_lt_Some.
    + by rewrite !list_lookup_insert_ne by done.
Qed.

Lemma heapSwap_same h i j : sameEntries (heapSwap h i j) h.
Proof.
  unfold sameEntries, heapSwap.
  destruct (h !! i) as [a|] eqn:Ha; [|done]. destruct (h !! j) as [b|] eqn:Hb; [|done].
  rewrite !list_fmap_insert. apply swap_perm; rewrite list_lookup_fmap, ?Ha, ?Hb; done.
Qed.

(** ** The heap order *)

(** The first [n] positions are heap-ordered. *)
Definition heapOrder (h : expirationHeap) (n : nat) : Prop :=
  ∀ i, 0 < i < n → (hat h (parent i) ≤ hat h i)%Z.

(** Every entry's [index] is its position. *)
Definition indexOk (h : expirationHeap) : Prop :=
  ∀ i e, h !! i = Some e → ee_index e = Z.of_nat i.

Lemma parent_cases i : 0 < i → i = 2 * parent i + 1 ∨ i = 2 * parent i + 2.
Proof.
  unfold parent. intros. pose proof (Nat.div_mod_eq (i - 1) 2).
  pose proof (Nat.mod_upper_bound (i - 1) 2). lia.
Qed.

Lemma parent_lt j : 0 < j → parent j < j.
Proof. intros Hj. pose proof (parent_cases j Hj). lia. Qed.

Lemma parent_le j : parent j ≤ j.
Proof. destruct j; [done|]. pose proof (parent_lt (S j)). lia. Qed.

Lemma parent_of i k : k = 2 * i + 1 ∨ k = 2 * i + 2 → parent k = i.
Proof. intros Hk. pose proof (parent_cases k). lia. Qed.

Lemma indexOk_swap h i j : indexOk h → indexOk (heapSwap h i j).
Proof.
  intros Hok k e. unfold heapSwap.
  destruct (h !! i) as [a|] eqn:Ha; [|by apply Hok].
  destruct (h !! j) as [b|] eqn:Hb; [|by apply Hok].
  intros [(<- & <- & _)|[_ [(<- & <- & _)|[_ Hk]]%list_lookup_insert_Some]]%list_lookup_insert_Some; try done.
  by apply Hok.
Qed.

(** The frame of [up] and [down]: same length and entries, positions from
    [n] on untouched, [index] fields kept. *)
Record heapFrame (n : nat) (h h' : expirationHeap) : Prop := {
  hf_length : length h' = length h;
  hf_same : sameEntries h' h;
  hf_tail : ∀ k, n ≤ k → h' !! k = h !! k;
  hf_index : indexOk h → indexOk h';
}.

Lemma heapFrame_refl n h : heapFrame n h h.
Proof. split; try done. unfold sameEntries. done. Qed.

Lemma heapFrame_swap n h i j : i < n → j < n → n ≤ length h → heapFrame n h (heapSwap h i j).
Proof.
  intros Hi Hj Hn. split.
  - apply length_heapSwap.
  - apply heapSwap_same.
  - intros k Hk. rewrite heapSwap_lookup by lia. rewrite !decide_False by lia. done.
  - apply indexOk_swap.
Qed.

Lemma heapFrame_trans n h1 h2 h3 : heapFrame n h1 h2 → heapFrame n h2 h3 → heapFrame n h1 h3.
Proof.
  intros [L1 S1 T1 I1] [L2 S2 T2 I2]. split.
  - congruence.
  - unfold sameEntries in *. by rewrite S2.
  - intros k Hk. rewrite T2 by done. by apply T1.
  - auto.
Qed.

Lemma heapUp_frame fuel h j n : j < n → n ≤ length h → heapFrame n h (heapUp fuel h j).
Proof.
  revert h j. induction fuel as [|fuel IH]; intros h j Hj Hn; simpl; [apply heapFrame_refl|].
  pose proof (parent_le j).
  case_decide; [apply heapFrame_refl|]. case_match; [|apply heapFrame_refl].
  apply (heapFrame_trans n h (heapSwap h (parent j) j)); [apply heapFrame_swap; lia|].
  apply IH; [lia|]. by rewrite length_heapSwap.
Qed.

(** [up] repairs an order that is broken at most between [j] and its parent. *)
Lemma heapUp_order fuel h j n :
  j < n → n ≤ length h → j < fuel →
  (∀ i, 0 < i < n → i ≠ j → (hat h (parent i) ≤ hat h i)%Z) →
  (∀ i, 0 < j → 0 < i < n → parent i = j → (hat h (parent j) ≤ hat h i)%Z) →
  heapOrder (heapUp fuel h j) n.
Proof.
  revert h j. induction fuel as [|fuel IH]; intros h j Hj Hn Hf Hord Hch; [lia|]. simpl.
  case_decide as Hp.
  { intros i Hi. apply Hord; [done|]. intros ->. pose proof (parent_lt j). lia. }
  assert (0 < j) as Hj0 by (destruct j; [done|lia]). pose proof (parent_lt j Hj0).
  rewrite heapLess_hat by lia. destruct (Z.ltb_spec (hat h j) (hat h (parent j))).
  2: { intros i Hi. destruct (decide (i = j)) as [->|]; [lia|]. by apply Hord. }
  apply IH; rewrite ?length_heapSwap; try lia.
  - intros i Hi Hne. rewrite !heapSwap_hat by lia.
    destruct (decide (i = j)) as [->|Hij].
    + rewrite (decide_False (P := parent j = j)), (decide_True (P := parent j = parent j)) by (done || lia). lia.
    + rewrite (decide_False (P := i = parent j)) by done.
      pose proof (parent_lt i ltac:(lia)).
      destruct (decide (parent i = j)) as [Hpj|Hpj].
      * by apply Hch.
      * destruct (decide (parent i = parent j)) as [Hpp|Hpp].
        { pose proof (Hord i Hi Hij). rewrite Hpp in *. lia. }
        by apply Hord.
  - intros i Hp0 Hi Hpi. rewrite !heapSwap_hat by lia.
    pose proof (parent_lt (parent j) Hp0).
    rewrite (decide_False (P := parent (parent j) = j)), (decide_False (P := parent (parent j) = parent j)) by lia.
    pose proof (Hord (parent j) ltac:(lia) ltac:(lia)).
    destruct (decide (i = j)) as [->|]; [lia|].
    destruct (decide (i = parent j)) as [->|]; [lia|].
    pose proof (Hord i Hi ltac:(done)) as Ho. rewrite Hpi in Ho. lia.
Qed.

Lemma heapDown_frame fuel h i n :
  i < n → n ≤ length h → heapFrame n h (heapDown fuel h i n).1 ∧ i ≤ (heapDown fuel h i n).2 < n.
Proof.
  revert h i. induction fuel as [|fuel IH]; intros h i Hi Hn; simpl.
  { split; [apply heapFrame_refl|lia]. }
  case_decide; [split; [apply heapFrame_refl|simpl; lia]|].
  set (j := if decide _ then _ else _).
  assert (i < j < n) as Hj by (unfold j; repeat case_decide; repeat case_match; lia). clearbody j.
  case_match; [|split; [apply heapFrame_refl|simpl; lia]].
  destruct (IH (heapSwap h i j) j ltac:(lia)) as [IHf IHi]; [by rewrite length_heapSwap|].
  split; [|lia]. apply (heapFrame_trans n h (heapSwap h i j)); [apply heapFrame_swap; lia|done].
Qed.

(** When [down] reports no move it changed nothing. *)
Lemma heapDown_stay fuel h i n :
  i < n → n ≤ length h → (heapDown fuel h i n).2 = i → (heapDown fuel h i n).1 = h.
Proof.
  destruct fuel as [|fuel]; [done|]. cbn [heapDown]. intros Hi Hn.
  destruct (decide (n ≤ 2 * i + 1)) as [|Hleaf]; [done|].
  set (j := if decide _ then _ else _).
  assert (i < j < n) as Hj by (unfold j; repeat case_decide; repeat case_match; lia). clearbody j.
  destruct (heapLess h j i); [|done]. intros Heq.
  pose proof (heapDown_frame fuel (heapSwap h i j) j n ltac:(lia) ltac:(by rewrite length_heapSwap)). lia.
Qed.

(** [down] repairs an order that is broken at most between [i] and its
    children; the link from [i] to its own parent is only known again when
    the entry moved. *)
Lemma heapDown_order fuel h i n :
  i < n → n ≤ length h → n ≤ i + fuel →
  (∀ k, 0 < k < n → parent k ≠ i → (hat h (parent k) ≤ hat h k)%Z ∨ k = i) →
  (∀ k, 0 < i → 0 < k < n → parent k = i → (hat h (parent i) ≤ hat h k)%Z) →
  let '(h', i') := heapDown fuel h i n in
  (∀ k, 0 < k < n → k ≠ i → (hat h' (parent k) ≤ hat h' k)%Z) ∧
  (0 < i → i < i' → (hat h' (parent i) ≤ hat h' i)%Z) ∧
  (0 < i → i' = i → ∀ k, 0 < k < n → parent k = i → (hat h' (parent i) ≤ hat h' k)%Z).
Proof.
  revert h i. induction fuel as [|fuel IH]; intros h i Hi Hn Hf Hord Hch; [lia|].
  cbn [heapDown].
  destruct (decide (n ≤ 2 * i + 1)) as [Hleaf|Hleaf].
  { split_and!; [|lia|by eauto]. intros k Hk Hki.
    destruct (Hord k Hk); [|done|done]. intros Hp. pose proof (parent_cases k). lia. }
  set (j := if decide (2 * i + 1 + 1 < n) then _ else _).
  assert ((j = 2 * i + 1 ∨ j = 2 * i + 2) ∧ j < n
    ∧ (∀ k, 0 < k < n → parent k = i → (hat h j ≤ hat h k)%Z)) as (Hjc & Hjn & Hjmin).
  { unfold j. destruct (decide (2 * i + 1 + 1 < n)) as [H2|H2].
    - rewrite heapLess_hat by lia. destruct (Z.ltb_spec (hat h (2 * i + 1 + 1)) (hat h (2 * i + 1))).
      + split_and!; [lia|lia|]. intros k Hk Hp. destruct (parent_cases k) as [Hk'|Hk']; [lia| |];
          rewrite Hp in Hk'; subst k; replace (2 * i + 2) with (2 * i + 1 + 1) by lia; lia.
      + split_and!; [lia|lia|]. intros k Hk Hp. destruct (parent_cases k) as [Hk'|Hk']; [lia| |];
          rewrite Hp in Hk'; subst k; replace (2 * i + 2) with (2 * i + 1 + 1) by lia; lia.
    - split_and!; [lia|lia|]. intros k Hk Hp. destruct (parent_cases k) as [Hk'|Hk']; [lia| |];
        rewrite Hp in Hk'; [subst k; lia|lia]. }
  clearbody j. pose proof (parent_of i j Hjc) as Hpj.
  rewrite heapLess_hat by lia. destruct (Z.ltb_spec (hat h j) (hat h i)) as [Hlt|Hge].
  2: { split_and!; [|lia|by eauto]. intros k Hk Hki.
       destruct (decide (parent k = i)) as [Hp|Hp].
       - rewrite Hp. pose proof (Hjmin k Hk Hp). lia.
       - destruct (Hord k Hk Hp); done. }
  assert (∀ k, hat (heapSwap h i j) k
    = if decide (k = j) then hat h i else if decide (k = i) then hat h j else hat h k) as Hsw.
  { intros k. apply heapSwap_hat; lia. }
  assert (0 < i → parent i < i) as Hpi by apply parent_lt.
  pose proof (heapDown_frame fuel (heapSwap h i j) j n Hjn ltac:(by rewrite length_heapSwap)) as [_ Hgrow].
  pose proof (heapDown_stay fuel (heapSwap h i j) j n Hjn ltac:(by rewrite length_heapSwap)) as Hstay.
  specialize (IH (heapSwap h i j) j Hjn). rewrite length_heapSwap in IH. specialize (IH Hn ltac:(lia)).
  destruct (heapDown fuel (heapSwap h i j) j n) as [h' i']. simpl in Hgrow, Hstay.
  destruct IH as (Ha & Hb & _).
  - intros k Hk Hpk. destruct (decide (k = j)) as [->|Hkj]; [auto|left]. rewrite !Hsw.
    rewrite (decide_False (P := parent k = j)), (decide_False (P := k = j)) by done.
    destruct (decide (k = i)) as [->|Hki].
    + rewrite decide_False by lia. apply Hch; [lia|lia|done].
    + destruct (decide (parent k = i)) as [Hp|Hp]; [by apply Hjmin|]. destruct (Hord k Hk Hp); done.
  - intros k _ Hk Hpk. rewrite !Hsw, Hpj. pose proof (parent_lt k ltac:(lia)).
    rewrite (decide_False (P := i = j)), (decide_True (P := i = i)) by (done || lia).
    rewrite (decide_False (P := k = j)), (decide_False (P := k = i)) by lia.
    destruct (Hord k Hk ltac:(lia)) as [Ho|]; [by rewrite Hpk in Ho|lia].
  - assert ((hat h' (parent j) ≤ hat h' j)%Z) as Hj'.
    { destruct (decide (i' = j)) as [Heq|]; [|apply Hb; lia].
      rewrite (Hstay Heq), !Hsw, Hpj.
      rewrite (decide_False (P := i = j)), (decide_True (P := i = i)), (decide_True (P := j = j)) by (done || lia). lia. }
    split_and!; [|intros; apply Ha; lia|lia].
    intros k Hk Hki. destruct (decide (k = j)) as [->|]; [done|]. by apply Ha.
Qed.

(** ** [Push], [Pop] and [Remove] *)

(** The heap's invariant between operations. *)
Definition heapOk (h : expirationHeap) : Prop := heapOrder h (length h) ∧ indexOk h.

Lemma heapOrder_min h n i : heapOrder h n → i < n → (hat h 0 ≤ hat h i)%Z.
Proof.
  intros Ho. induction i as [i IH] using lt_wf_ind. intros Hi.
  destruct i as [|i]; [lia|]. pose proof (parent_lt (S i) ltac:(lia)).
  pose proof (IH (parent (S i)) ltac:(lia) ltac:(lia)). pose proof (Ho (S i) ltac:(lia)). lia.
Qed.

Lemma hat_take h n i : i < n → hat (take n h) i = hat h i.
Proof. intros Hi. unfold hat. by rewrite lookup_take_lt. Qed.

Lemma sameEntries_snoc h e i : sameEntries (setEntryIndex e i :: h) (h ++ [e]).
Proof. unfold sameEntries. rewrite fmap_cons, fmap_app. by rewrite Permutation_app_comm. Qed.

(** Dropping the last entry of a heap whose first [length h - 1] positions are
    ordered. *)
Lemma heapDropLast_ok h :
  h ≠ [] → heapOrder h (length h - 1) → indexOk h →
  ∃ e, (heapDropLast h).2 = Some e ∧ heapOk (heapDropLast h).1
    ∧ sameEntries (e :: (heapDropLast h).1) h ∧ ee_index e = (-1)%Z
    ∧ (λ x, setEntryIndex x 0) <$> h !! (length h - 1) = Some (setEntryIndex e 0).
Proof.
  intros Hne Ho Hi. destruct (lookup_lt_is_Some_2 h (length h - 1)) as [l Hl].
  { destruct h; [done|simpl; lia]. }
  exists (setEntryIndex l (-1)). unfold heapDropLast. simpl.
  assert (last h = Some l) as Hlast by (rewrite last_lookup, <- Hl; f_equal; lia).
  assert (0 < length h) as Hpos by (destruct h; [done|simpl; lia]).
  rewrite Hlast, Hl. split_and!; try done.
  - split.
    + rewrite length_take. intros k Hk. pose proof (parent_lt k ltac:(lia)).
      rewrite !hat_take by lia. apply Ho. lia.
    + intros k e Hk. apply lookup_take_Some in Hk as [Hk _]. by apply Hi.
  - assert (h = take (length h - 1) h ++ [l]) as Hh.
    { rewrite <- (take_drop (length h - 1) h) at 1. f_equal. apply list_eq. intros k. rewrite lookup_drop.
      destruct k as [|k]; [by rewrite Nat.add_0_r|]. simpl. rewrite lookup_nil. apply lookup_ge_None. lia. }
    rewrite Hh at 3. apply sameEntries_snoc.
Qed.

Lemma heapAppend_order h e : heapOrder h (length h) →
  ∀ i, 0 < i < S (length h) → i ≠ length h →
  (hat (heapAppend h e) (parent i) ≤ hat (heapAppend h e) i)%Z.
Proof.
  intros Ho i Hi Hne. pose proof (parent_lt i ltac:(lia)). unfold hat, heapAppend.
  rewrite !lookup_app_l by lia. apply Ho. lia.
Qed.

Lemma length_heapAppend h e : length (heapAppend h e) = S (length h).
Proof. unfold heapAppend. rewrite length_app. simpl. lia. Qed.

(** [heap.Push] keeps the invariant and adds exactly the entry. *)
Lemma heapPush_ok h e :
  heapOk h → heapOk (heapPush h e) ∧ sameEntries (heapPush h e) (e :: h).
Proof.
  intros [Ho Hi]. unfold heapPush.
  pose proof (heapUp_frame (S (length h)) (heapAppend h e) (length h) (S (length h)) ltac:(lia)
    ltac:(by rewrite length_heapAppend)) as [HL HS _ HI].
  split; [split|].
  - rewrite HL, length_heapAppend. apply heapUp_order; try lia; [by rewrite length_heapAppend| |].
    + by apply heapAppend_order.
    + intros i Hj Hin Hp. pose proof (parent_lt i ltac:(lia)). lia.
  - apply HI. intros i x. unfold heapAppend. intros [Hx|[Hge Hx]]%lookup_app_Some; [by apply Hi|].
    apply list_lookup_singleton_Some in Hx as [Hz <-]. simpl. lia.
  - unfold sameEntries in *. rewrite HS. unfold heapAppend. rewrite fmap_app. simpl.
    by rewrite Permutation_app_comm.
Qed.

Lemma sameEntries_elem h h' x :
  sameEntries h h' → x ∈ h → ∃ y, y ∈ h' ∧ setEntryIndex x 0 = setEntryIndex y 0.
Proof.
  unfold sameEntries. intros Hs Hx.
  assert (setEntryIndex x 0 ∈ (λ e, setEntryIndex e 0) <$> h') as Hin.
  { rewrite <- Hs. by apply (list_elem_of_fmap_2 (λ e, setEntryIndex e 0)). }
  apply list_elem_of_fmap_1 in Hin as (y & Heq & Hy). by exists y.
Qed.

(** [heap.Pop] on a non-empty heap returns an entry with the earliest
    deadline, with [index = -1], and leaves the other entries in a heap. *)
Lemma heapPop_ok h :
  h ≠ [] → heapOk h →
  ∃ e, (heapPop h).2 = Some e ∧ heapOk (heapPop h).1 ∧ sameEntries (e :: (heapPop h).1) h
    ∧ ee_index e = (-1)%Z ∧ ∀ x, x ∈ h → (ee_at e ≤ ee_at x)%Z.
Proof.
  intros Hne [Ho Hi]. unfold heapPop. set (n := length h - 1).
  assert (n < length h) as Hn by (unfold n; destruct h; [done|simpl; lia]).
  set (h2 := (heapDown (length h) (heapSwap h 0 n) 0 n).1).
  assert (length h2 = length h ∧ sameEntries h2 h ∧ indexOk h2 ∧ heapOrder h2 n
    ∧ hat h2 n = hat h 0) as (HL & HS & HI & HO & Hlast).
  { unfold h2. destruct (decide (n = 0)) as [Hz|Hz].
    - assert (heapDown (length h) (heapSwap h 0 n) 0 n = (heapSwap h 0 n, 0)) as ->.
      { destruct (length h) as [|m]; [lia|]. cbn [heapDown]. rewrite decide_True by lia. done. }
      simpl. rewrite length_heapSwap. split_and!; [done|apply heapSwap_same|by apply indexOk_swap|intros ?; lia|].
      rewrite heapSwap_hat, Hz by lia. done.
    - destruct (heapDown_frame (length h) (heapSwap h 0 n) 0 n ltac:(lia)) as [[HL HS HT HI] _];
        [rewrite length_heapSwap; lia|].
      pose proof (heapDown_order (length h) (heapSwap h 0 n) 0 n ltac:(lia)) as Hord.
      rewrite length_heapSwap in Hord, HL. specialize (Hord ltac:(lia) ltac:(lia)).
      split_and!; [done| | | |].
      + unfold sameEntries in *. rewrite HS. apply heapSwap_same.
      + apply HI, indexOk_swap, Hi.
      + destruct (heapDown _ _ _ _) as [h' i']. simpl. destruct Hord as (Ha & _ & _).
        * intros k Hk Hp. left. pose proof (parent_lt k ltac:(lia)). rewrite !heapSwap_hat by lia.
          rewrite !decide_False by lia. apply Ho. lia.
        * lia.
        * intros k Hk. apply Ha; lia.
      + unfold hat. rewrite HT by lia. fold (hat (heapSwap h 0 n) n). rewrite heapSwap_hat, decide_True by lia.
        done. }
  clearbody h2.
  destruct (heapDropLast_ok h2) as (e & He & Hok & Hsame & Hidx & Hl).
  - intros ->. simpl in HL. lia.
  - by rewrite HL.
  - done.
  - exists e. split_and!; [done|done| |done|].
    + unfold sameEntries in *. by rewrite Hsame.
    + intros x Hx. apply list_elem_of_lookup_1 in Hx as [k Hk].
      assert (ee_at e = hat h2 n) as ->.
      { unfold hat. rewrite HL in Hl. fold n in Hl. destruct (h2 !! n) as [y|]; [|done].
        simpl in Hl. injection Hl as _ Hat _ _. simpl. done. }
      rewrite Hlast. pose proof (heapOrder_min h (length h) k Ho (lookup_lt_Some _ _ _ Hk)) as Hm.
      unfold hat at 2 in Hm. rewrite Hk in Hm. done.
Qed.

(** [heap.Remove] at a position takes out exactly that entry and keeps the
    invariant. *)
Lemma heapRemove_ok h i x :
  heapOk h → h !! i = Some x →
  ∃ e, (heapRemove h i).2 = Some e ∧ heapOk (heapRemove h i).1
    ∧ sameEntries (e :: (heapRemove h i).1) h ∧ ee_index e = (-1)%Z
    ∧ setEntryIndex e 0 = setEntryIndex x 0.
Proof.
  intros [Ho Hi] Hx. pose proof (lookup_lt_Some _ _ _ Hx) as Hlt. unfold heapRemove.
  set (n := length h - 1). assert (h ≠ []) as Hne by (by intros ->).
  destruct (decide (n = i)) as [Heq|Hneq].
  { destruct (heapDropLast_ok h Hne) as (e & He & Hok & Hs & Hidx & Hl); [|done|].
    - intros k Hk. apply Ho. lia.
    - exists e. split_and!; try done. fold n in Hl. rewrite Heq, Hx in Hl. simpl in Hl. congruence. }
  assert (i < n) as Hin by (unfold n in *; lia).
  set (h1 := heapSwap h i n). pose proof (length_heapSwap h i n) as HL1. fold h1 in HL1.
  assert (∀ k, hat h1 k = if decide (k = n) then hat h i else if decide (k = i) then hat h n else hat h k) as Hsw.
  { intros k. apply heapSwap_hat; lia. }
  destruct (heapDown_frame (length h) h1 i n Hin ltac:(lia)) as [Hfr Hrange].
  pose proof (heapDown_order (length h) h1 i n Hin ltac:(lia) ltac:(lia)) as Hord.
  pose proof (heapDown_stay (length h) h1 i n Hin ltac:(lia)) as Hstay.
  destruct (heapDown (length h) h1 i n) as [h2 i'] eqn:Hdown. simpl in Hfr, Hrange, Hstay.
  destruct Hord as (Ha & Hb & Hc).
  { intros k Hk Hp. destruct (decide (k = i)) as [->|Hki]; [auto|left].
    pose proof (parent_lt k ltac:(lia)). rewrite !Hsw, !decide_False by lia. apply Ho. lia. }
  { intros k Hi0 Hk Hp. pose proof (parent_lt k ltac:(lia)). pose proof (parent_lt i Hi0).
    rewrite !Hsw, !decide_False by lia. pose proof (Ho i ltac:(lia)). pose proof (Ho k ltac:(lia)) as Hok.
    rewrite Hp in Hok. lia. }
  set (h3 := if decide (i < i') then h2 else heapUp (S i) h2 i).
  assert (heapFrame n h1 h3 ∧ heapOrder h3 n) as [Hfr3 Ho3].
  { unfold h3. destruct (decide (i < i')) as [Hmoved|Hstayed].
    - split; [done|]. intros k Hk. destruct (decide (k = i)) as [->|]; [apply Hb; lia|by apply Ha].
    - pose proof (hf_length _ _ _ Hfr) as HL2. split.
      + apply (heapFrame_trans n h1 h2); [done|]. apply heapUp_frame; lia.
      + apply heapUp_order; [lia|lia|lia|by intros; apply Ha|]. intros k Hi0 Hk Hp. by apply Hc; [|lia| |]. }
  destruct Hfr3 as [HL3 HS3 HT3 HI3].
  destruct (heapDropLast_ok h3) as (e & He & Hok & Hs & Hidx & Hl).
  - intros Hnil. rewrite Hnil in HL3. simpl in HL3. lia.
  - replace (length h3 - 1) with n by lia. done.
  - apply HI3, indexOk_swap, Hi.
  - exists e. fold h3. split_and!; try done.
    + unfold sameEntries in *. rewrite Hs, HS3. apply heapSwap_same.
    + replace (length h3 - 1) with n in Hl by lia. rewrite HT3 in Hl by done.
      unfold h1 in Hl. rewrite heapSwap_lookup, decide_True, Hx in Hl by lia. simpl in Hl. unfold setEntryIndex in *. simpl in Hl. congruence.
Qed.

(** ** Any sequence of operations *)

Inductive heapOp := OpPush (e : expirationEntry) | OpPop | OpRemove (i : nat).

(** One operation, guarded the way the store guards it ([Len() > 0] before a
    pop, a valid [index] before a removal). *)
Definition heapStep (h : expirationHeap) (op : heapOp) : expirationHeap :=
  match op with
  | OpPush e => heapPush h e
  | OpPop => if decide (h = []) then h else (heapPop h).1
  | OpRemove i => if decide (i < length h) then (heapRemove h i).1 else h
  end.

#[export] Instance expirationEntry_eq_dec : EqDecision expirationEntry.
Proof. solve_decision. Defined.

Lemma heapStep_ok h op : heapOk h → heapOk (heapStep h op).
Proof.
  intros Hok. destruct op as [e| |i]; simpl.
  - by apply heapPush_ok.
  - case_decide; [done|]. destruct (heapPop_ok h) as (e & _ & Hk & _); done.
  - case_decide as Hi; [|done]. destruct (lookup_lt_is_Some_2 h i Hi) as [x Hx].
    destruct (heapRemove_ok h i x Hok Hx) as (e & _ & Hk & _). done.
Qed.

(** Correctness of the expiration heap.  After any sequence of [Push],
    [Pop] and [Remove] from the empty heap, every entry's [index] field is its
    position, and the next [Pop] (when the heap is not empty) removes exactly
    one entry, whose deadline is the earliest of all and whose [index] becomes
    -1, and leaves a heap. *)
Theorem expiration_heap_correct ops :
  let h := foldl heapStep [] ops in
  indexOk h ∧
  (h ≠ [] → ∃ e, (heapPop h).2 = Some e ∧ sameEntries (e :: (heapPop h).1) h
     ∧ ee_index e = (-1)%Z ∧ (∀ x, x ∈ h → (ee_at e ≤ ee_at x)%Z) ∧ indexOk (heapPop h).1).
Proof.
  simpl. assert (heapOk (foldl heapStep [] ops)) as [Ho Hi].
  { assert (∀ l h, heapOk h → heapOk (foldl heapStep h l)) as Hall.
    { induction l as [|op l IH]; intros h Hh; [done|]. simpl. apply IH, heapStep_ok, Hh. }
    apply Hall. split; [intros ?; simpl; lia|by intros ??]. }
  split; [done|]. intros Hne. destruct (heapPop_ok _ Hne (conj Ho Hi)) as (e & He & [_ Hi'] & Hs & Hidx & Hmin).
  by exists e.
Qed.
