(* ===== verification/Capacity.v ===== *)
(** * Capacity budgets of the cache ([caddy/simplefs])

    The accounted and physical budgets a write or an eviction works against
    ([simplefs.go], [capacityAvailable]) and the admission gate of origin
    captures ([storage.go], [ReserveCapture] and [ReleaseCapture]).  Counters
    are [uint64]: the products and sums of the source wrap around. *)
From Stdlib Require Import ZArith NArith Lia.
From stdpp Require Import base numbers list gmap.
From S2P Require Import Prelude.

Local Open Scope N_scope.

(** [uint64] arithmetic. *)
Definition u64 (n : N) : N := n mod 2 ^ 64.

Lemma u64_small n : n < 2 ^ 64 → u64 n = n.
Proof. apply N.mod_small. Qed.

Definition max_u64 : N := 2 ^ 64 - 1.

(** ** Data *)

Record limits := Limits {
  lim_auto : bool;
  lim_maxBytes : N;
  lim_maxDiskUsagePercent : Z;
}.

(** The two fields of [disk.UsageStat] the code reads. *)
Record UsageStat := UsageStatOf { us_Total : N; us_Used : N }.

Record capacityBudget := CapacityBudget {
  cb_accountedUsed : N;
  cb_physicalUsed : N;
  cb_accountedAvailable : N;
  cb_physicalAvailable : N;
}.

(** ** Sizes *)

Definition normalizePercent (value : Z) : Z :=
  if (value <? 1)%Z then 80 else if (90 <? value)%Z then 90 else value.

(** [(value + 4095) &^ 4095]. *)
Definition roundUp4K (value : N) : N :=
  if value =? 0 then 0 else N.ldiff (u64 (value + 4095)) 4095.

(** [physicalSizeFromInfo]; [blocks] is [Stat_t.Blocks] when the platform
    reports it. *)
Definition physicalSizeFromInfo (blocks : option Z) (logical : N) : N :=
  match blocks with
  | Some b => if (0 <? b)%Z then u64 (Z.to_N b * 512) else roundUp4K logical
  | None => roundUp4K logical
  end.

(** [physicalFileSize]: [info] is what [os.Stat] returned, [None] an error. *)
Definition physicalFileSize (info : option (option Z)) (logical : N) : N :=
  match info with
  | None => roundUp4K logical
  | Some blocks => physicalSizeFromInfo blocks logical
  end.

(** ** Budgets *)

Definition targetBytes (total : N) (percent : Z) : N :=
  u64 (total * Z.to_N (normalizePercent percent)) / 100.

Definition capacityAvailableWithUsage (cacheUsed physicalUsed : N) (configured : limits)
    (transient : N) (usage : UsageStat) : capacityBudget :=
  let target := targetBytes (us_Total usage) (lim_maxDiskUsagePercent configured) in
  let trackedAndTransient := u64 (physicalUsed + transient) in
  let nonCacheUsed := if trackedAndTransient <? us_Used usage then us_Used usage - trackedAndTransient else 0 in
  let physicalAvailable := if nonCacheUsed <? target then target - nonCacheUsed else 0 in
  let accountedAvailable :=
    if negb (lim_auto configured) && (0 <? lim_maxBytes configured) then lim_maxBytes configured else max_u64 in
  CapacityBudget cacheUsed physicalUsed accountedAvailable physicalAvailable.

(** [capacityAvailable]: [usage] is what [disk.Usage] returned. *)
Definition capacityAvailable {E} (cacheUsed physicalUsed : N) (configured : limits)
    (transient : N) (usage : result E UsageStat) : result E capacityBudget :=
  usage ≫= λ u, Ok (capacityAvailableWithUsage cacheUsed physicalUsed configured transient u).

Definition withinAutoLimit (total used incoming : N) (percent : Z) : bool :=
  let target := targetBytes total percent in
  (used <=? target) && (incoming <=? target - used).

(** ** Capture admission *)

(** The fields [capacityMu] guards, with the counters the budget reads. *)
Record captureState := CaptureState {
  cs_limits : limits;
  cs_cacheUsed : N;
  cs_physicalUsed : N;
  cs_captureBytes : N;
  cs_captureUsage : option UsageStat;
  cs_captureUsageAt : Z;
  cs_captureRejections : N;
}.

Definition csUsage (c : captureState) (u : option UsageStat) (at' : Z) : captureState :=
  CaptureState (cs_limits c) (cs_cacheUsed c) (cs_physicalUsed c) (cs_captureBytes c) u at'
    (cs_captureRejections c).
Definition csBytes (c : captureState) (n : N) : captureState :=
  CaptureState (cs_limits c) (cs_cacheUsed c) (cs_physicalUsed c) n (cs_captureUsage c)
    (cs_captureUsageAt c) (cs_captureRejections c).
Definition csReject (c : captureState) : captureState :=
  CaptureState (cs_limits c) (cs_cacheUsed c) (cs_physicalUsed c) (cs_captureBytes c) (cs_captureUsage c)
    (cs_captureUsageAt c) (cs_captureRejections c + 1).

(** 100 ms in nanoseconds. *)
Definition captureUsageTTL : Z := 100 * 10 ^ 6.

(** [now] is the clock reading and [probe] what [disk.Usage] would return. *)
Definition captureDiskUsageLocked (c : captureState) (now : Z) (probe : option UsageStat)
    : captureState * option UsageStat :=
  let fresh :=
    match cs_captureUsage c with
    | Some u => if (now - cs_captureUsageAt c <? captureUsageTTL)%Z then Some u else None
    | None => None
    end in
  match fresh with
  | Some u => (c, Some u)
  | None =>
      match probe with
      | None => (c, None)
      | Some u => (csUsage c (Some u) now, Some u)
      end
  end.

Definition ReserveCapture (c : captureState) (now : Z) (probe : option UsageStat) (bytes : N)
    : captureState * bool :=
  match captureDiskUsageLocked c now probe with
  | (c1, None) => (csReject c1, false)
  | (c1, Some usage) =>
      let budget := capacityAvailableWithUsage (cs_cacheUsed c1) (cs_physicalUsed c1) (cs_limits c1) 0 usage in
      let accountedFree := cb_accountedAvailable budget - N.min (cb_accountedAvailable budget) (cb_accountedUsed budget) in
      let physicalFree := cb_physicalAvailable budget - N.min (cb_physicalAvailable budget) (cb_physicalUsed budget) in
      let accountedFree := accountedFree - N.min accountedFree (cs_captureBytes c1) in
      let physicalFree := physicalFree - N.min physicalFree (cs_captureBytes c1) in
      if (accountedFree <? bytes) || (physicalFree <? bytes) then (csReject c1, false)
      else (csBytes c1 (u64 (cs_captureBytes c1 + bytes)), true)
  end.

Definition ReleaseCapture (c : captureState) (bytes : N) : captureState :=
  csBytes c (cs_captureBytes c - N.min (cs_captureBytes c) bytes).

(** ** Lemmas *)

Lemma normalizePercent_range v : (1 ≤ normalizePercent v ≤ 90)%Z.
Proof. unfold normalizePercent. repeat case_match; b2p; lia. Qed.

(** Below the width of a product, the target is the exact share of the disk,
    at most nine tenths of it. *)
Lemma targetBytes_bound total percent :
  total * 90 < 2 ^ 64 → 100 * targetBytes total percent ≤ 90 * total.
Proof.
  intros Ht. unfold targetBytes. pose proof (normalizePercent_range percent).
  rewrite u64_small by nia.
  pose proof (N.Div0.mul_div_le (total * Z.to_N (normalizePercent percent)) 100). nia.
Qed.

(** Rounding to file-system blocks never under-counts and costs less than a
    block. *)
Lemma roundUp4K_spec n :
  n < 2 ^ 64 - 4096 → n ≤ roundUp4K n < n + 4096 ∧ roundUp4K n mod 4096 = 0.
Proof.
  intros Hn. unfold roundUp4K. case_match eqn:Hz; [apply N.eqb_eq in Hz; subst; split; [lia|done]|].
  rewrite u64_small by lia. change 4095 with (N.ones 12).
  rewrite N.ldiff_ones_r, N.shiftr_div_pow2, N.shiftl_mul_pow2. change (2 ^ 12) with 4096. change (N.ones 12) with 4095.
  pose proof (N.div_mod (n + 4095) 4096 ltac:(done)) as Hd.
  pose proof (N.mod_lt (n + 4095) 4096 ltac:(done)). split; [|apply N.Div0.mod_mul].
  apply N.eqb_neq in Hz. clear Hz Hn. revert Hd H. generalize ((n + 4095) / 4096), ((n + 4095) mod 4096). intros. lia.
Qed.

(** What the budget leaves beside the tracked bytes: other data plus the
    budget fill exactly the target, or there is no room. *)
Lemma budget_physical cacheUsed physicalUsed configured usage :
  physicalUsed < 2 ^ 64 →
  let b := capacityAvailableWithUsage cacheUsed physicalUsed configured 0 usage in
  let target := targetBytes (us_Total usage) (lim_maxDiskUsagePercent configured) in
  cb_physicalAvailable b = 0
  ∨ us_Used usage - physicalUsed + cb_physicalAvailable b = target.
Proof.
  intros Hp b target. unfold b, capacityAvailableWithUsage. simpl. rewrite N.add_0_r, u64_small by done.
  fold target. destruct (physicalUsed <? us_Used usage) eqn:H1.
  - apply N.ltb_lt in H1. case_match eqn:H2; [right; apply N.ltb_lt in H2; lia|by left].
  - apply N.ltb_ge in H1. case_match eqn:H2; [right; apply N.ltb_lt in H2; lia|by left].
Qed.

Lemma capture_usage_frame c now probe c1 u :
  captureDiskUsageLocked c now probe = (c1, u) →
  cs_limits c1 = cs_limits c ∧ cs_cacheUsed c1 = cs_cacheUsed c ∧ cs_physicalUsed c1 = cs_physicalUsed c
  ∧ cs_captureBytes c1 = cs_captureBytes c ∧ cs_captureRejections c1 = cs_captureRejections c.
Proof. unfold captureDiskUsageLocked. intros H. repeat case_match; simplify_eq; done. Qed.

(** An admitted capture fits beside what is used and already reserved. *)
Lemma reserve_fits c now probe bytes c' :
  ReserveCapture c now probe bytes = (c', true) → 0 < bytes →
  cs_physicalUsed c < 2 ^ 64 → lim_maxBytes (cs_limits c) < 2 ^ 64 →
  ∃ usage,
    (probe = Some usage ∨ cs_captureUsage c = Some usage)
    ∧ cs_captureBytes c' = cs_captureBytes c + bytes
    ∧ cs_captureBytes c' < 2 ^ 64
    ∧ (lim_auto (cs_limits c) = false → 0 < lim_maxBytes (cs_limits c) →
        cs_cacheUsed c + cs_captureBytes c' ≤ lim_maxBytes (cs_limits c))
    ∧ N.max (us_Used usage) (cs_physicalUsed c) + cs_captureBytes c'
        ≤ targetBytes (us_Total usage) (lim_maxDiskUsagePercent (cs_limits c)).
Proof.
  unfold ReserveCapture. intros Hr Hb Hp Hm.
  destruct (captureDiskUsageLocked c now probe) as [c1 [usage|]] eqn:Hu; [|simplify_eq].
  pose proof (capture_usage_frame _ _ _ _ _ Hu) as (Hl & Hc & Hph & Hcb & _).
  rewrite Hl, Hc, Hph, Hcb in Hr.
  pose proof (budget_physical (cs_cacheUsed c) (cs_physicalUsed c) (cs_limits c) usage Hp) as Hbud.
  assert (cb_accountedAvailable (capacityAvailableWithUsage (cs_cacheUsed c) (cs_physicalUsed c) (cs_limits c) 0 usage)
          = if negb (lim_auto (cs_limits c)) && (0 <? lim_maxBytes (cs_limits c))
            then lim_maxBytes (cs_limits c) else max_u64) as Hacc by done.
  assert (cb_accountedAvailable (capacityAvailableWithUsage (cs_cacheUsed c) (cs_physicalUsed c) (cs_limits c) 0 usage)
          < 2 ^ 64) as Ha64.
  { rewrite Hacc. case_match; [done|]. unfold max_u64. lia. }
  set (b := capacityAvailableWithUsage _ _ _ _ _) in *. cbv zeta in Hbud, Hr.
  change (cb_accountedUsed b) with (cs_cacheUsed c) in Hr.
  change (cb_physicalUsed b) with (cs_physicalUsed c) in Hr. clearbody b.
  destruct (_ || _) eqn:Hg in Hr; [simplify_eq|]. injection Hr as <-.
  apply orb_false_iff in Hg as [Hg1 Hg2]. apply N.ltb_ge in Hg1, Hg2. simpl.
  assert (cs_captureBytes c + bytes < 2 ^ 64) as H64 by lia.
  rewrite u64_small by done. exists usage. split.
  { revert Hu. unfold captureDiskUsageLocked. intros ?. repeat case_match; simplify_eq; eauto. }
  split; [done|]. split; [done|]. split.
  - intros Hauto Hpos. rewrite Hauto in Hacc. apply N.ltb_lt in Hpos. rewrite Hpos in Hacc. simpl in Hacc. lia.
  - destruct Hbud as [Hz|Ht]; lia.
Qed.

(** ** Concurrent captures *)

(** The captures in progress and the bytes each holds; under [capacityMu]
    their admissions and releases interleave. *)
Record captureWorld := CaptureWorld { cw_state : captureState; cw_held : gmap nat N }.

Definition heldBytes (m : gmap nat N) : N := map_sum (λ n, n) m.

Inductive captureStep : captureWorld → captureWorld → Prop :=
| step_reserve w id now probe bytes c' :
    ReserveCapture (cw_state w) now probe bytes = (c', true) →
    captureStep w (CaptureWorld c' (<[id := default 0 (cw_held w !! id) + bytes]> (cw_held w)))
| step_reject w now probe bytes c' :
    ReserveCapture (cw_state w) now probe bytes = (c', false) →
    captureStep w (CaptureWorld c' (cw_held w))
| step_release w id n :
    cw_held w !! id = Some n →
    captureStep w (CaptureWorld (ReleaseCapture (cw_state w) n) (delete id (cw_held w))).

Lemma heldBytes_insert id n m : heldBytes (<[id := n]> m) = n + heldBytes (delete id m).
Proof. apply (map_sum_insert (λ n, n)). Qed.
Lemma heldBytes_split id n m : m !! id = Some n → heldBytes m = n + heldBytes (delete id m).
Proof. apply (map_sum_delete (λ n, n)). Qed.
Lemma heldBytes_default id m : heldBytes m = default 0 (m !! id) + heldBytes (delete id m).
Proof. apply (map_sum_default (λ n, n)). Qed.

Definition captureInv (w : captureWorld) : Prop :=
  cs_captureBytes (cw_state w) = heldBytes (cw_held w) ∧ heldBytes (cw_held w) < 2 ^ 64
  ∧ cs_physicalUsed (cw_state w) < 2 ^ 64 ∧ lim_maxBytes (cs_limits (cw_state w)) < 2 ^ 64.

Lemma reserve_frame c now probe bytes c' ok :
  ReserveCapture c now probe bytes = (c', ok) →
  cs_limits c' = cs_limits c ∧ cs_physicalUsed c' = cs_physicalUsed c ∧ cs_cacheUsed c' = cs_cacheUsed c
  ∧ (ok = false → cs_captureBytes c' = cs_captureBytes c
      ∧ cs_captureRejections c' = cs_captureRejections c + 1)
  ∧ (ok = true → cs_captureBytes c' = u64 (cs_captureBytes c + bytes)
      ∧ cs_captureRejections c' = cs_captureRejections c).
Proof.
  unfold ReserveCapture. intros Hr.
  destruct (captureDiskUsageLocked c now probe) as [c1 u] eqn:Hu.
  apply capture_usage_frame in Hu as (Hl & Hc & Hph & Hcb & Hrj).
  destruct u; repeat case_match; simplify_eq; simpl; rewrite ?Hl, ?Hc, ?Hph, ?Hcb, ?Hrj; done.
Qed.

Lemma captureInv_step w w' : captureStep w w' → captureInv w → captureInv w'.
Proof.
  intros Hs (Hb & H64 & Hp & Hm). destruct Hs as [w id now probe bytes c' Hr|w now probe bytes c' Hr|w id n Hn].
  - pose proof (reserve_frame _ _ _ _ _ _ Hr) as (Hl & Hph & _ & _ & Hok).
    destruct (Hok eq_refl) as [Hcb _]. unfold captureInv. simpl. rewrite Hl, Hph, Hcb, heldBytes_insert.
    pose proof (heldBytes_default id (cw_held w)) as Hd.
    destruct (N.eq_dec bytes 0) as [->|Hne].
    + rewrite N.add_0_r, u64_small by lia. split; [lia|]. split; [lia|done].
    + destruct (reserve_fits _ _ _ _ _ Hr ltac:(lia) Hp Hm) as (u & _ & Hadd & Hlt & _ & _).
      rewrite Hcb in Hadd. rewrite Hadd in *. split; [lia|]. split; [lia|done].
  - apply reserve_frame in Hr as (Hl & Hph & _ & Hrej & _). destruct (Hrej eq_refl) as [Hcb _].
    unfold captureInv. simpl. rewrite Hl, Hph, Hcb. done.
  - unfold captureInv. simpl. pose proof (heldBytes_split id n (cw_held w) Hn). split; [lia|]. split; [lia|done].
Qed.

Lemma captureInv_steps w w' : rtc captureStep w w' → captureInv w → captureInv w'.
Proof. induction 1; eauto using captureInv_step. Qed.

(** Concurrent captures never oversubscribe the cache.  From a state with
    no reservations, after any interleaving of admissions, rejections and
    releases, the provider's [captureBytes] is exactly what the captures in
    progress hold; and an admission that succeeds leaves the bytes used, or
    measured on the disk, plus everything reserved, within the configured
    byte limit and within the target share of the disk. *)
Theorem captures_within_budget w w1 id now probe bytes c' :
  cw_held w = ∅ → captureInv w → rtc captureStep w w1 →
  ReserveCapture (cw_state w1) now probe bytes = (c', true) → 0 < bytes →
  let held := <[id := default 0 (cw_held w1 !! id) + bytes]> (cw_held w1) in
  cs_captureBytes c' = heldBytes held
  ∧ (lim_auto (cs_limits c') = false → 0 < lim_maxBytes (cs_limits c') →
      cs_cacheUsed c' + heldBytes held ≤ lim_maxBytes (cs_limits c'))
  ∧ ∃ usage, (probe = Some usage ∨ cs_captureUsage (cw_state w1) = Some usage)
      ∧ N.max (us_Used usage) (cs_physicalUsed c') + heldBytes held
          ≤ targetBytes (us_Total usage) (lim_maxDiskUsagePercent (cs_limits c')).
Proof.
  intros _ Hi Hs Hr Hb held. apply (captureInv_steps _ _ Hs) in Hi.
  pose proof (captureInv_step _ _ (step_reserve w1 id now probe bytes c' Hr) Hi) as (Heq & _).
  simpl in Heq. fold held in Heq. destruct Hi as (_ & _ & Hp & Hm).
  destruct (reserve_fits _ _ _ _ _ Hr Hb Hp Hm) as (u & Hu & _ & _ & Hacc & Hphy).
  apply reserve_frame in Hr as (Hl & Hph & Hcu & _).
  rewrite Hl, Hph, Hcu, <- Heq. split; [done|]. split; [done|]. exists u. done.
Qed.

(** The run of two captures on a disk of 1000 bytes, of which 300 are used. *)
Lemma captures_within_budget_witness :
  let c0 := CaptureState (Limits false 400 50) 100 100 0 None 0 0 in
  let usage := Some (UsageStatOf 1000 300) in
  let c1 := (ReserveCapture c0 1 usage 120).1 in
  cs_captureBytes (ReserveCapture c1 2 None 60).1
  = heldBytes (<[1%nat := default 0 ((<[0%nat := 120]> (∅ : gmap nat N)) !! 1%nat) + 60]>
      (<[0%nat := 120]> (∅ : gmap nat N))).
Proof.
  intros c0 usage c1.
  refine (proj1 (captures_within_budget (CaptureWorld c0 ∅) (CaptureWorld c1 (<[0%nat := 120]> ∅)) 1 2 None 60
    (ReserveCapture c1 2 None 60).1 eq_refl _ _ _ eq_refl)).
  - split; [reflexivity|]. split; [reflexivity|]. split; reflexivity.
  - apply rtc_once.
    exact (step_reserve (CaptureWorld c0 ∅) 0 1 usage 120 c1 eq_refl).
  - reflexivity.
Defined.
