(* ===== verification/CacheStore.v ===== *)
(** * The cache store: state and staged changes ([caddy/simplefs])

    The provider keeps every cache item in memory (mapping records and body
    files), with group and reverse-mapping indexes, an LRU list, an expiration
    heap and byte counters, and mirrors the items in a bolt database.  A
    change is staged in a [batchState], persisted in one transaction, and then
    applied to memory.  This file models that state and the staging,
    persisting and applying functions of [batch.go]; [CacheStoreOps] models
    the operations built on them.

    Locks are not modelled: every function here runs under the provider's
    mutex in the source.  Pointers to LRU elements and expiration entries are
    identifiers drawn from [p_nextId].  [MappingCodec] is the JSON text of a
    mapping and [GoRange] the iteration order of a Go map. *)
From Stdlib Require Import ZArith Lia Ascii String.
From stdpp Require Import base numbers list strings gmap sets option.
From S2P Require Import Prelude CacheCore ExpirationHeap.

Local Open Scope N_scope.

(** ** Data *)

Record cacheItem := CacheItem {
  ci_value : string;
  ci_mapping : option StorageMapper;
  ci_expiresAt : Z;
  ci_lastAccess : Z;
  ci_file : bool;
  ci_generation : N;
  ci_compressedSize : N;
  ci_physicalSize : N;
  ci_accountedSize : N;
  ci_originalSize : N;
  ci_checksum : string;
  ci_modifiedAt : Z;
  ci_lru : option N;
  ci_expiration : option N;
}.

Definition setLru (it : cacheItem) (e : option N) : cacheItem :=
  CacheItem (ci_value it) (ci_mapping it) (ci_expiresAt it) (ci_lastAccess it) (ci_file it)
    (ci_generation it) (ci_compressedSize it) (ci_physicalSize it) (ci_accountedSize it)
    (ci_originalSize it) (ci_checksum it) (ci_modifiedAt it) e (ci_expiration it).
Definition setExpiration (it : cacheItem) (e : option N) : cacheItem :=
  CacheItem (ci_value it) (ci_mapping it) (ci_expiresAt it) (ci_lastAccess it) (ci_file it)
    (ci_generation it) (ci_compressedSize it) (ci_physicalSize it) (ci_accountedSize it)
    (ci_originalSize it) (ci_checksum it) (ci_modifiedAt it) (ci_lru it) e.
Definition setMapping (it : cacheItem) (m : option StorageMapper) : cacheItem :=
  CacheItem (ci_value it) m (ci_expiresAt it) (ci_lastAccess it) (ci_file it)
    (ci_generation it) (ci_compressedSize it) (ci_physicalSize it) (ci_accountedSize it)
    (ci_originalSize it) (ci_checksum it) (ci_modifiedAt it) (ci_lru it) (ci_expiration it).
Definition setAccounted (it : cacheItem) (n : N) : cacheItem :=
  CacheItem (ci_value it) (ci_mapping it) (ci_expiresAt it) (ci_lastAccess it) (ci_file it)
    (ci_generation it) (ci_compressedSize it) (ci_physicalSize it) n
    (ci_originalSize it) (ci_checksum it) (ci_modifiedAt it) (ci_lru it) (ci_expiration it).
Definition setModifiedAt (it : cacheItem) (t : Z) : cacheItem :=
  CacheItem (ci_value it) (ci_mapping it) (ci_expiresAt it) (ci_lastAccess it) (ci_file it)
    (ci_generation it) (ci_compressedSize it) (ci_physicalSize it) (ci_accountedSize it)
    (ci_originalSize it) (ci_checksum it) t (ci_lru it) (ci_expiration it).
Definition setLastAccess (it : cacheItem) (t : Z) : cacheItem :=
  CacheItem (ci_value it) (ci_mapping it) (ci_expiresAt it) t (ci_file it)
    (ci_generation it) (ci_compressedSize it) (ci_physicalSize it) (ci_accountedSize it)
    (ci_originalSize it) (ci_checksum it) (ci_modifiedAt it) (ci_lru it) (ci_expiration it).
(** The fields [removeVariantFromMapping] and [Refresh] replace. *)
Definition setEncoded (it : cacheItem) (value : string) (m : StorageMapper) (generation : N) : cacheItem :=
  CacheItem value (Some m) (ci_expiresAt it) (ci_lastAccess it) (ci_file it)
    generation (ci_compressedSize it) (ci_physicalSize it) (ci_accountedSize it)
    (ci_originalSize it) (ci_checksum it) (ci_modifiedAt it) (ci_lru it) (ci_expiration it).
Definition setDeadline (it : cacheItem) (expiresAt lastAccess : Z) (generation : N) : cacheItem :=
  CacheItem (ci_value it) (ci_mapping it) expiresAt lastAccess (ci_file it)
    generation (ci_compressedSize it) (ci_physicalSize it) (ci_accountedSize it)
    (ci_originalSize it) (ci_checksum it) (ci_modifiedAt it) (ci_lru it) (ci_expiration it).

(** [diskItem]: what the bolt database keeps of an item. *)
Record diskItem := DiskItem {
  di_Value : string;
  di_File : string;
  di_ExpiresAt : Z;
  di_LastAccess : Z;
  di_CompressedSize : N;
  di_OriginalSize : N;
  di_Checksum : string;
  di_ModifiedAt : Z;
}.

(** The bolt database: the item and group buckets and the used-bytes key. *)
Record indexDB := IndexDB {
  ix_items : gmap string diskItem;
  ix_groups : gmap string (list string);
  ix_used : N;
}.

Record provider := Provider {
  p_items : gmap string cacheItem;
  p_groups : gmap string (gset string);
  p_variantMappings : gmap string (gset string);
  p_itemGroups : gmap string (gset string);
  p_expirations : expirationHeap;
  p_lru : list (N * string);          (* front first *)
  p_index : option indexDB;
  p_dirtyItems : gset string;
  p_dirtyGroups : gset string;
  p_cacheUsed : N;
  p_physicalUsed : N;
  p_bodyEntries : N;
  p_mappingEntries : N;
  p_expirationEntries : N;
  p_nextVersion : N;
  p_nextId : N;                       (* source of element and entry identities *)
}.

Definition setItems (p : provider) (m : gmap string cacheItem) : provider :=
  Provider m (p_groups p) (p_variantMappings p) (p_itemGroups p) (p_expirations p) (p_lru p)
    (p_index p) (p_dirtyItems p) (p_dirtyGroups p) (p_cacheUsed p) (p_physicalUsed p)
    (p_bodyEntries p) (p_mappingEntries p) (p_expirationEntries p) (p_nextVersion p) (p_nextId p).
Definition setGroups (p : provider) (g ig : gmap string (gset string)) : provider :=
  Provider (p_items p) g (p_variantMappings p) ig (p_expirations p) (p_lru p)
    (p_index p) (p_dirtyItems p) (p_dirtyGroups p) (p_cacheUsed p) (p_physicalUsed p)
    (p_bodyEntries p) (p_mappingEntries p) (p_expirationEntries p) (p_nextVersion p) (p_nextId p).
Definition setVariants (p : provider) (v : gmap string (gset string)) : provider :=
  Provider (p_items p) (p_groups p) v (p_itemGroups p) (p_expirations p) (p_lru p)
    (p_index p) (p_dirtyItems p) (p_dirtyGroups p) (p_cacheUsed p) (p_physicalUsed p)
    (p_bodyEntries p) (p_mappingEntries p) (p_expirationEntries p) (p_nextVersion p) (p_nextId p).
Definition setExpirations (p : provider) (h : expirationHeap) : provider :=
  Provider (p_items p) (p_groups p) (p_variantMappings p) (p_itemGroups p) h (p_lru p)
    (p_index p) (p_dirtyItems p) (p_dirtyGroups p) (p_cacheUsed p) (p_physicalUsed p)
    (p_bodyEntries p) (p_mappingEntries p) (p_expirationEntries p) (p_nextVersion p) (p_nextId p).
Definition setLruList (p : provider) (l : list (N * string)) : provider :=
  Provider (p_items p) (p_groups p) (p_variantMappings p) (p_itemGroups p) (p_expirations p) l
    (p_index p) (p_dirtyItems p) (p_dirtyGroups p) (p_cacheUsed p) (p_physicalUsed p)
    (p_bodyEntries p) (p_mappingEntries p) (p_expirationEntries p) (p_nextVersion p) (p_nextId p).
Definition setIndexDB (p : provider) (x : option indexDB) : provider :=
  Provider (p_items p) (p_groups p) (p_variantMappings p) (p_itemGroups p) (p_expirations p) (p_lru p)
    x (p_dirtyItems p) (p_dirtyGroups p) (p_cacheUsed p) (p_physicalUsed p)
    (p_bodyEntries p) (p_mappingEntries p) (p_expirationEntries p) (p_nextVersion p) (p_nextId p).
Definition setDirty (p : provider) (di dg : gset string) : provider :=
  Provider (p_items p) (p_groups p) (p_variantMappings p) (p_itemGroups p) (p_expirations p) (p_lru p)
    (p_index p) di dg (p_cacheUsed p) (p_physicalUsed p)
    (p_bodyEntries p) (p_mappingEntries p) (p_expirationEntries p) (p_nextVersion p) (p_nextId p).
Definition setBytes (p : provider) (used physical : N) : provider :=
  Provider (p_items p) (p_groups p) (p_variantMappings p) (p_itemGroups p) (p_expirations p) (p_lru p)
    (p_index p) (p_dirtyItems p) (p_dirtyGroups p) used physical
    (p_bodyEntries p) (p_mappingEntries p) (p_expirationEntries p) (p_nextVersion p) (p_nextId p).
Definition setEntries (p : provider) (body mapping : N) : provider :=
  Provider (p_items p) (p_groups p) (p_variantMappings p) (p_itemGroups p) (p_expirations p) (p_lru p)
    (p_index p) (p_dirtyItems p) (p_dirtyGroups p) (p_cacheUsed p) (p_physicalUsed p)
    body mapping (p_expirationEntries p) (p_nextVersion p) (p_nextId p).
Definition setExpirationEntries (p : provider) (n : N) : provider :=
  Provider (p_items p) (p_groups p) (p_variantMappings p) (p_itemGroups p) (p_expirations p) (p_lru p)
    (p_index p) (p_dirtyItems p) (p_dirtyGroups p) (p_cacheUsed p) (p_physicalUsed p)
    (p_bodyEntries p) (p_mappingEntries p) n (p_nextVersion p) (p_nextId p).
Definition setVersion (p : provider) (n : N) : provider :=
  Provider (p_items p) (p_groups p) (p_variantMappings p) (p_itemGroups p) (p_expirations p) (p_lru p)
    (p_index p) (p_dirtyItems p) (p_dirtyGroups p) (p_cacheUsed p) (p_physicalUsed p)
    (p_bodyEntries p) (p_mappingEntries p) (p_expirationEntries p) n (p_nextId p).
Definition setNextId (p : provider) (n : N) : provider :=
  Provider (p_items p) (p_groups p) (p_variantMappings p) (p_itemGroups p) (p_expirations p) (p_lru p)
    (p_index p) (p_dirtyItems p) (p_dirtyGroups p) (p_cacheUsed p) (p_physicalUsed p)
    (p_bodyEntries p) (p_mappingEntries p) (p_expirationEntries p) (p_nextVersion p) n.

(** [p.nextVersion++; p.nextVersion]. *)
Definition bumpVersion (p : provider) : provider := setVersion p (p_nextVersion p + 1).

(** A staged item is [Some item] when present and [None] when deleted. *)
Record batchState := BatchState {
  bs_items : gmap string (option cacheItem);
  bs_groups : gmap string (gset string);
  bs_variantMappings : gmap string (gset string);
  bs_itemGroups : gmap string (gset string);
  bs_used : N;
  bs_physical : N;
  bs_obsoleteFiles : gset string;
  bs_evicted : N;
  bs_poppedExpiry : list expirationEntry;
}.

Definition sItems (s : batchState) (m : gmap string (option cacheItem)) : batchState :=
  BatchState m (bs_groups s) (bs_variantMappings s) (bs_itemGroups s) (bs_used s) (bs_physical s)
    (bs_obsoleteFiles s) (bs_evicted s) (bs_poppedExpiry s).
Definition sGroups (s : batchState) (g : gmap string (gset string)) : batchState :=
  BatchState (bs_items s) g (bs_variantMappings s) (bs_itemGroups s) (bs_used s) (bs_physical s)
    (bs_obsoleteFiles s) (bs_evicted s) (bs_poppedExpiry s).
Definition sVariants (s : batchState) (v : gmap string (gset string)) : batchState :=
  BatchState (bs_items s) (bs_groups s) v (bs_itemGroups s) (bs_used s) (bs_physical s)
    (bs_obsoleteFiles s) (bs_evicted s) (bs_poppedExpiry s).
Definition sItemGroups (s : batchState) (g : gmap string (gset string)) : batchState :=
  BatchState (bs_items s) (bs_groups s) (bs_variantMappings s) g (bs_used s) (bs_physical s)
    (bs_obsoleteFiles s) (bs_evicted s) (bs_poppedExpiry s).
Definition sBytes (s : batchState) (used physical : N) : batchState :=
  BatchState (bs_items s) (bs_groups s) (bs_variantMappings s) (bs_itemGroups s) used physical
    (bs_obsoleteFiles s) (bs_evicted s) (bs_poppedExpiry s).
Definition sObsolete (s : batchState) (f : gset string) : batchState :=
  BatchState (bs_items s) (bs_groups s) (bs_variantMappings s) (bs_itemGroups s) (bs_used s) (bs_physical s)
    f (bs_evicted s) (bs_poppedExpiry s).
Definition sEvicted (s : batchState) (n : N) : batchState :=
  BatchState (bs_items s) (bs_groups s) (bs_variantMappings s) (bs_itemGroups s) (bs_used s) (bs_physical s)
    (bs_obsoleteFiles s) n (bs_poppedExpiry s).
Definition sPopped (s : batchState) (l : list expirationEntry) : batchState :=
  BatchState (bs_items s) (bs_groups s) (bs_variantMappings s) (bs_itemGroups s) (bs_used s) (bs_physical s)
    (bs_obsoleteFiles s) (bs_evicted s) l.

Definition newBatchState (p : provider) : batchState :=
  BatchState ∅ ∅ ∅ ∅ (p_cacheUsed p) (p_physicalUsed p) ∅ 0 [].

(** ** Sizes and names *)

Definition itemIndexOverhead : N := 512.

Definition accountedItemSize (key : string) (it : cacheItem) : N :=
  let size := itemIndexOverhead + N.of_nat (String.length key) + N.of_nat (String.length (ci_value it)) in
  if ci_file it then size + ci_physicalSize it else size.

(** [filepath.Base]: the last element of a path. *)
Fixpoint stripSlashes (l : list ascii) : list ascii :=
  match l with c :: l' => if bool_decide (c = "/"%char) then stripSlashes l' else l | [] => [] end.
Fixpoint untilSlash (l : list ascii) : list ascii :=
  match l with c :: l' => if bool_decide (c = "/"%char) then [] else c :: untilSlash l' | [] => [] end.
Definition filepathBaseName (path : string) : string :=
  if bool_decide (path = "") then "."
  else
    match stripSlashes (rev (list_ascii_of_string path)) with
    | [] => "/"
    | l => string_of_list_ascii (rev (untilSlash l))
    end.

Definition encodeDiskItem (it : cacheItem) : diskItem :=
  if ci_file it then
    DiskItem "" (filepathBaseName (ci_value it)) (ci_expiresAt it) (ci_lastAccess it)
      (ci_compressedSize it) (ci_originalSize it) (ci_checksum it) (ci_modifiedAt it)
  else
    DiskItem (ci_value it) "" (ci_expiresAt it) (ci_lastAccess it) 0 0 "" (ci_modifiedAt it).

Section Store.
Context {C : MappingCodec} {G : GoRange}.

(** [range] over a Go set. *)
Definition rangeSet (s : gset string) : list string := (range (gset_to_gmap tt s)).*1.

(** ** Reading through the staged changes *)

Definition getItem (p : provider) (s : batchState) (key : string) : option cacheItem :=
  match bs_items s !! key with
  | Some staged => staged
  | None => p_items p !! key
  end.

Definition groupsForItem (p : provider) (s : batchState) (key : string) : gset string * batchState :=
  match bs_itemGroups s !! key with
  | Some groups => (groups, s)
  | None =>
      let groups := default ∅ (p_itemGroups p !! key) in
      (groups, sItemGroups s (<[key := groups]> (bs_itemGroups s)))
  end.

Definition keysForGroup (p : provider) (s : batchState) (group : string) : gset string * batchState :=
  match bs_groups s !! group with
  | Some keys => (keys, s)
  | None =>
      let keys := default ∅ (p_groups p !! group) in
      (keys, sGroups s (<[group := keys]> (bs_groups s)))
  end.

Definition mappingsForVariant (p : provider) (s : batchState) (key : string) : gset string * batchState :=
  match bs_variantMappings s !! key with
  | Some mappings => (mappings, s)
  | None =>
      let mappings := default ∅ (p_variantMappings p !! key) in
      (mappings, sVariants s (<[key := mappings]> (bs_variantMappings s)))
  end.

(** ** Staging *)

Definition removeItemGroups (p : provider) (s : batchState) (key : string) : batchState :=
  let '(groups, s1) := groupsForItem p s key in
  let s2 := foldl (λ s group,
    let '(keys, s') := keysForGroup p s group in
    sGroups s' (<[group := keys ∖ {[key]}]> (bs_groups s'))) s1 (rangeSet groups) in
  sItemGroups s2 (<[key := ∅]> (bs_itemGroups s2)).

Definition addItemGroup (p : provider) (s : batchState) (key group : string) : batchState :=
  let '(keys, s1) := keysForGroup p s group in
  let s2 := sGroups s1 (<[group := {[key]} ∪ keys]> (bs_groups s1)) in
  let '(groups, s3) := groupsForItem p s2 key in
  sItemGroups s3 (<[key := {[group]} ∪ groups]> (bs_itemGroups s3)).

Definition mappingVariants (it : cacheItem) : gset string :=
  if ci_file it then ∅
  else
    let mapping := match ci_mapping it with Some m => Some m | None => DecodeMapping (ci_value it) end in
    match GetMapping mapping with
    | None => ∅
    | Some m => dom m
    end.

(** The two loops of [stageMapping] over the variants of a mapping. *)
Definition unlinkVariants (p : provider) (s : batchState) (key : string) (variants : list string) : batchState :=
  foldl (λ s variant,
    let '(mappings, s') := mappingsForVariant p s variant in
    sVariants s' (<[variant := mappings ∖ {[key]}]> (bs_variantMappings s'))) s variants.
Definition linkVariants (p : provider) (s : batchState) (key : string) (variants : list string) : batchState :=
  foldl (λ s variant,
    let '(mappings, s') := mappingsForVariant p s variant in
    sVariants s' (<[variant := {[key]} ∪ mappings]> (bs_variantMappings s'))) s variants.

Definition stageMapping (p : provider) (s : batchState) (key : string) (item : option cacheItem) : batchState :=
  let s1 :=
    match getItem p s key with
    | Some old =>
        let s' := sBytes s (bs_used s - N.min (bs_used s) (ci_accountedSize old)) (bs_physical s) in
        unlinkVariants p s' key (rangeSet (mappingVariants old))
    | None => s
    end in
  match item with
  | None => sItems s1 (<[key := None]> (bs_items s1))
  | Some it =>
      let it1 := match ci_mapping it with
                 | Some _ => it
                 | None => setMapping it (DecodeMapping (ci_value it))
                 end in
      let s2 := linkVariants p s1 key (rangeSet (mappingVariants it1)) in
      let it2 := setAccounted it1 (accountedItemSize key it1) in
      let s3 := sBytes s2 (bs_used s2 + ci_accountedSize it2) (bs_physical s2) in
      sItems s3 (<[key := Some it2]> (bs_items s3))
  end.

Definition removeVariantFromMapping (p : provider) (s : batchState) (mappingKey variedKey : string)
    : provider * batchState :=
  match getItem p s mappingKey with
  | None => (p, s)
  | Some item =>
      match DecodeMapping (ci_value item) with
      | None => (p, stageMapping p s mappingKey None)
      | Some decoded =>
          match sm_Mapping decoded with
          | None => (p, stageMapping p s mappingKey None)
          | Some m =>
              if bool_decide (is_Some (m !! variedKey)) then
                let m' := delete variedKey m in
                if bool_decide (m' = ∅) then
                  (p, stageMapping p (removeItemGroups p s mappingKey) mappingKey None)
                else
                  match EncodeMapping {| sm_Mapping := Some m' |} with
                  | None => (p, stageMapping p s mappingKey None)
                  | Some encoded =>
                      let p' := bumpVersion p in
                      (p', stageMapping p' s mappingKey
                             (Some (setEncoded item encoded {| sm_Mapping := Some m' |} (p_nextVersion p'))))
                  end
              else (p, s)
          end
      end
  end.

Definition deleteItem (p : provider) (s : batchState) (key : string) : provider * batchState :=
  match getItem p s key with
  | None => (p, s)
  | Some item =>
      let s1 := removeItemGroups p s key in
      let s2 := sBytes s1 (bs_used s1 - N.min (bs_used s1) (ci_accountedSize item))
                  (bs_physical s1 - N.min (bs_physical s1) (ci_physicalSize item)) in
      if ci_file item then
        let s3 := sObsolete s2 ({[ci_value item]} ∪ bs_obsoleteFiles s2) in
        let '(mappings, s4) := mappingsForVariant p s3 key in
        let '(p', s5) :=
          foldl (λ '(p, s) mappingKey, removeVariantFromMapping p s mappingKey key) (p, s4)
            (rangeSet mappings) in
        (p', sItems s5 (<[key := None]> (bs_items s5)))
      else (p, stageMapping p s2 key None)
  end.

(** [stageExpired]; each round pops one heap entry, so the heap's length is
    enough fuel. *)
Fixpoint stageExpiredN (fuel : nat) (p : provider) (s : batchState) (now : Z) : provider * batchState :=
  match fuel with
  | O => (p, s)
  | S fuel' =>
      match p_expirations p with
      | [] => (p, s)
      | top :: _ =>
          if (ee_at top <=? now)%Z then
            match heapPop (p_expirations p) with
            | (h, Some entry) =>
                let p1 := setExpirations p h in
                let s1 := sPopped s (bs_poppedExpiry s ++ [entry]) in
                let '(p2, s2) :=
                  match p_items p1 !! ee_key entry with
                  | Some item =>
                      if negb (ci_generation item =? ee_generation entry) || (now <? ci_expiresAt item)%Z
                      then (p1, s1) else deleteItem p1 s1 (ee_key entry)
                  | None => (p1, s1)
                  end in
                stageExpiredN fuel' p2 s2 now
            | (_, None) => (p, s)
            end
          else (p, s)
      end
  end.
Definition stageExpired (p : provider) (s : batchState) (now : Z) : provider * batchState :=
  stageExpiredN (length (p_expirations p)) p s now.

Definition restoreExpiry (p : provider) (s : batchState) : provider :=
  foldl (λ p entry,
    match p_items p !! ee_key entry with
    | Some item =>
        if ci_generation item =? ee_generation entry
        then setExpirations p (heapPush (p_expirations p) entry) else p
    | None => p
    end) p (bs_poppedExpiry s).

(** ** Persisting *)

Inductive storeError :=
| ErrIndexClosed                 (* "cache metadata database is not open" *)
| ErrIndexIO (code : nat)        (* an error of the bolt transaction *)
| ErrCapacity
| ErrUncacheable
| ErrWriteQueueFull
| ErrMapping                     (* a mapping that does not decode or encode *)
| ErrFile (code : nat).          (* an error of the file system *)

(** The transaction of [persistBatchLocked] on the buckets. *)
Definition persistItems (p : provider) (s : batchState) (items : gmap string diskItem) : gmap string diskItem :=
  foldl (λ m key,
    match getItem p s key with
    | None => delete key m
    | Some it => <[key := encodeDiskItem it]> m
    end) items (rangeSet (p_dirtyItems p ∪ dom (bs_items s))).

(** [sort.Strings] on the members of a group. *)
Fixpoint insertString (x : string) (l : list string) : list string :=
  match l with
  | [] => [x]
  | y :: l' => if String.leb x y then x :: l else y :: insertString x l'
  end.
Definition sortStrings (l : list string) : list string := foldr insertString [] l.

Definition persistGroups (p : provider) (s : batchState) (groups : gmap string (list string))
    : gmap string (list string) :=
  foldl (λ m group,
    let keys := match bs_groups s !! group with
                | Some keys => keys
                | None => default ∅ (p_groups p !! group)
                end in
    if bool_decide (keys = ∅) then delete group m
    else <[group := sortStrings (rangeSet keys)]> m) groups (rangeSet (p_dirtyGroups p ∪ dom (bs_groups s))).

(** [persistBatchLocked]: one bolt transaction, which either fails and leaves
    the database as it was ([fault]) or commits. *)
Definition persistBatchLocked (fault : option nat) (p : provider) (s : batchState)
    : result storeError provider :=
  match p_index p with
  | None => Err ErrIndexClosed
  | Some ix =>
      match fault with
      | Some code => Err (ErrIndexIO code)
      | None =>
          Ok (setIndexDB p (Some (IndexDB (persistItems p s (ix_items ix))
                                    (persistGroups p s (ix_groups ix)) (bs_used s))))
      end
  end.

(** ** Applying *)

Definition removeReverseMappingLocked (p : provider) (mappingKey : string) (item : cacheItem) : provider :=
  if ci_file item || bool_decide (ci_value item = "") then p
  else foldl (λ p variant,
    let keys := default ∅ (p_variantMappings p !! variant) ∖ {[mappingKey]} in
    setVariants p (if bool_decide (keys = ∅) then delete variant (p_variantMappings p)
                   else <[variant := keys]> (p_variantMappings p))) p (rangeSet (mappingVariants item)).

Definition addReverseMappingLocked (p : provider) (mappingKey : string) (item : cacheItem) : provider :=
  if ci_file item || bool_decide (ci_value item = "") then p
  else foldl (λ p variant,
    setVariants p (<[variant := {[mappingKey]} ∪ default ∅ (p_variantMappings p !! variant)]>
                     (p_variantMappings p))) p (rangeSet (mappingVariants item)).

(** The position an item's expiration entry has in the heap: its [index],
    which is -1 once the entry was popped. *)
Definition entryIndex (h : expirationHeap) (id : N) : option nat :=
  match list_find (λ e, ee_id e = id) h with
  | Some (_, e) => if (0 <=? ee_index e)%Z then Some (Z.to_nat (ee_index e)) else None
  | None => None
  end.

Definition removeItemAccountingLocked (p : provider) (item : cacheItem) : provider :=
  let p1 := match ci_lru item with
            | Some id => setLruList p (filter (λ x, x.1 ≠ id) (p_lru p))
            | None => p
            end in
  let p2 := match ci_expiration item ≫= entryIndex (p_expirations p1) with
            | Some i => setExpirations p1 (heapRemove (p_expirations p1) i).1
            | None => p1
            end in
  let p3 := if ci_file item then setEntries p2 (N.pred (p_bodyEntries p2)) (p_mappingEntries p2)
            else setEntries p2 (p_bodyEntries p2) (N.pred (p_mappingEntries p2)) in
  setExpirationEntries p3 (N.of_nat (length (p_expirations p3))).

Definition addItemAccountingLocked (p : provider) (item : cacheItem) : provider :=
  if ci_file item then setEntries p (p_bodyEntries p + 1) (p_mappingEntries p)
  else setEntries p (p_bodyEntries p) (p_mappingEntries p + 1).

(** One staged item of [applyBatchLocked]. *)
Definition applyItem (p : provider) (key : string) (staged : option cacheItem) : provider :=
  let p1 := match p_items p !! key with
            | Some old => removeItemAccountingLocked (removeReverseMappingLocked p key old) old
            | None => p
            end in
  match staged with
  | None => setItems p1 (delete key (p_items p1))
  | Some item =>
      let '(p2, item2) :=
        if ci_file item then
          (setNextId (setLruList p1 (p_lru p1 ++ [(p_nextId p1, key)])) (p_nextId p1 + 1),
           setLru item (Some (p_nextId p1)))
        else (p1, item) in
      let '(p3, item3) :=
        if isZeroTime (ci_expiresAt item2) then (p2, item2)
        else
          (setNextId (setExpirations p2
             (heapPush (p_expirations p2)
                (ExpirationEntry (p_nextId p2) (ci_expiresAt item2) key (ci_generation item2) (-1))))
             (p_nextId p2 + 1),
           setExpiration item2 (Some (p_nextId p2))) in
      let p4 := setItems p3 (<[key := item3]> (p_items p3)) in
      addItemAccountingLocked (addReverseMappingLocked p4 key item3) item3
  end.

(** One staged group of [applyBatchLocked]. *)
Definition applyGroup (p : provider) (group : string) (keys : gset string) : provider :=
  let ig1 := foldl (λ ig key,
    let gs := default ∅ (ig !! key) ∖ {[group]} in
    if bool_decide (gs = ∅) then delete key ig else <[key := gs]> ig)
    (p_itemGroups p) (rangeSet (default ∅ (p_groups p !! group))) in
  if bool_decide (keys = ∅) then setGroups p (delete group (p_groups p)) ig1
  else
    setGroups p (<[group := keys]> (p_groups p))
      (foldl (λ ig key, <[key := {[group]} ∪ default ∅ (ig !! key)]> ig) ig1 (rangeSet keys)).

Definition applyBatchLocked (p : provider) (s : batchState) : provider :=
  let p1 := foldl (λ p '(key, staged), applyItem p key staged) p (range (bs_items s)) in
  let p2 := foldl (λ p '(group, keys), applyGroup p group keys) p1 (range (bs_groups s)) in
  let p3 := setBytes p2 (bs_used s) (bs_physical s) in
  setDirty (setExpirationEntries p3 (N.of_nat (length (p_expirations p3)))) ∅ ∅.

End Store.
