(* ===== verification/CacheView.v ===== *)
(** * The staged view of the cache store

    What the store would hold once a [batchState] is committed: the staged
    items over the provider's, and the same for its indexes.  [StagedOk]
    states the invariant of that view (one kind of item per kind of key, an
    exact reverse index and group index, exact physical bytes, never
    over-counted accounted bytes), and the lemmas show that every staging
    function of [CacheStore] keeps it and say what it does to the view. *)
From Stdlib Require Import ZArith Lia Ascii String.
From stdpp Require Import base numbers list strings gmap sets option.
From S2P Require Import Prelude CacheCore ExpirationHeap CacheStore.

Local Open Scope N_scope.

(** ** The view *)

Definition viewMap (p : provider) (s : batchState) : gmap string cacheItem :=
  merge (λ staged item, match staged with Some x => x | None => item end) (bs_items s) (p_items p).

Definition variantsView (p : provider) (s : batchState) (v : string) : gset string :=
  default (default ∅ (p_variantMappings p !! v)) (bs_variantMappings s !! v).
Definition groupView (p : provider) (s : batchState) (g : string) : gset string :=
  default (default ∅ (p_groups p !! g)) (bs_groups s !! g).
Definition itemGroupView (p : provider) (s : batchState) (k : string) : gset string :=
  default (default ∅ (p_itemGroups p !! k)) (bs_itemGroups s !! k).

Lemma viewMap_lookup p s k : viewMap p s !! k = getItem p s k.
Proof.
  unfold viewMap, getItem. rewrite lookup_merge. unfold diag_None.
  destruct (bs_items s !! k) as [[]|], (p_items p !! k); done.
Qed.

(** Staging one item updates the view at its key. *)
Lemma viewMap_stage p s m k x :
  bs_items s = <[k := Some x]> m → viewMap p s = <[k := x]> (viewMap p (sItems s m)).
Proof.
  intros Hs. apply map_eq. intros j. rewrite viewMap_lookup.
  destruct (decide (j = k)) as [->|Hne].
  - rewrite lookup_insert_eq. unfold getItem. rewrite Hs, lookup_insert_eq. done.
  - rewrite lookup_insert_ne by done. rewrite viewMap_lookup. unfold getItem.
    rewrite Hs, lookup_insert_ne by done. done.
Qed.
Lemma viewMap_unstage p s m k :
  bs_items s = <[k := None]> m → viewMap p s = delete k (viewMap p (sItems s m)).
Proof.
  intros Hs. apply map_eq. intros j. rewrite viewMap_lookup.
  destruct (decide (j = k)) as [->|Hne].
  - rewrite lookup_delete_eq. unfold getItem. rewrite Hs, lookup_insert_eq. done.
  - rewrite lookup_delete_ne by done. rewrite viewMap_lookup. unfold getItem.
    rewrite Hs, lookup_insert_ne by done. done.
Qed.

Lemma viewMap_ext p p' s s' :
  p_items p' = p_items p → bs_items s' = bs_items s → viewMap p' s' = viewMap p s.
Proof. unfold viewMap. intros -> ->. done. Qed.

Lemma viewMap_new p : viewMap p (newBatchState p) = p_items p.
Proof. apply map_eq. intros k. rewrite viewMap_lookup. done. Qed.

(** A key that holds a mapping record. *)
Definition mappingKeyed (k : string) : bool := String.prefix MappingKeyPrefix k.

Section View.
Context {C : MappingCodec} {CR : MappingCodecRoundtrip} {G : GoRange}.

Lemma rangeSet_elem x s : x ∈ rangeSet s ↔ x ∈ s.
Proof.
  unfold rangeSet. rewrite (range_perm (gset_to_gmap tt s)).
  rewrite list_elem_of_fmap. split.
  - intros ([k []] & -> & Hk). apply elem_of_map_to_list in Hk.
    apply lookup_gset_to_gmap_Some in Hk as [Hk _]. done.
  - intros Hx. exists (x, tt). split; [done|]. apply elem_of_map_to_list.
    apply lookup_gset_to_gmap_Some. done.
Qed.

Lemma range_elem {A} (m : gmap string A) k a : (k, a) ∈ range m ↔ m !! k = Some a.
Proof. rewrite (range_perm m). apply elem_of_map_to_list. Qed.

Lemma range_NoDup {A} (m : gmap string A) : NoDup (range m).*1.
Proof. rewrite (range_perm m). apply NoDup_fst_map_to_list. Qed.

Lemma rangeSet_NoDup s : NoDup (rangeSet s).
Proof. unfold rangeSet. apply range_NoDup. Qed.

(** ** The view-preserving readers *)

Lemma mappingsForVariant_eq p s v :
  ∃ x, mappingsForVariant p s v = (variantsView p s v, sVariants s x)
    ∧ ∀ w, variantsView p (sVariants s x) w = variantsView p s w.
Proof.
  unfold mappingsForVariant, variantsView. destruct (bs_variantMappings s !! v) eqn:Hv; simpl.
  - exists (bs_variantMappings s). split; [by destruct s|done].
  - eexists. split; [done|]. intros w. simpl. destruct (decide (w = v)) as [->|?].
    + rewrite lookup_insert_eq, Hv. done.
    + rewrite lookup_insert_ne by done. done.
Qed.

Lemma keysForGroup_eq p s g :
  ∃ x, keysForGroup p s g = (groupView p s g, sGroups s x)
    ∧ ∀ w, groupView p (sGroups s x) w = groupView p s w.
Proof.
  unfold keysForGroup, groupView. destruct (bs_groups s !! g) eqn:Hv; simpl.
  - exists (bs_groups s). split; [by destruct s|done].
  - eexists. split; [done|]. intros w. simpl. destruct (decide (w = g)) as [->|?].
    + rewrite lookup_insert_eq, Hv. done.
    + rewrite lookup_insert_ne by done. done.
Qed.

Lemma groupsForItem_eq p s k :
  ∃ x, groupsForItem p s k = (itemGroupView p s k, sItemGroups s x)
    ∧ ∀ w, itemGroupView p (sItemGroups s x) w = itemGroupView p s w.
Proof.
  unfold groupsForItem, itemGroupView. destruct (bs_itemGroups s !! k) eqn:Hv; simpl.
  - exists (bs_itemGroups s). split; [by destruct s|done].
  - eexists. split; [done|]. intros w. simpl. destruct (decide (w = k)) as [->|?].
    + rewrite lookup_insert_eq, Hv. done.
    + rewrite lookup_insert_ne by done. done.
Qed.

Lemma variantsView_insert p s v x w :
  variantsView p (sVariants s (<[v := x]> (bs_variantMappings s))) w
  = if decide (w = v) then x else variantsView p s w.
Proof.
  unfold variantsView. simpl. case_decide; [subst; by rewrite lookup_insert_eq|].
  by rewrite lookup_insert_ne.
Qed.
Lemma groupView_insert p s v x w :
  groupView p (sGroups s (<[v := x]> (bs_groups s))) w = if decide (w = v) then x else groupView p s w.
Proof.
  unfold groupView. simpl. case_decide; [subst; by rewrite lookup_insert_eq|].
  by rewrite lookup_insert_ne.
Qed.
Lemma itemGroupView_insert p s v x w :
  itemGroupView p (sItemGroups s (<[v := x]> (bs_itemGroups s))) w
  = if decide (w = v) then x else itemGroupView p s w.
Proof.
  unfold itemGroupView. simpl. case_decide; [subst; by rewrite lookup_insert_eq|].
  by rewrite lookup_insert_ne.
Qed.

(** ** The reverse index under link and unlink *)

Lemma unlinkVariants_eq p s key vs :
  ∃ x, unlinkVariants p s key vs = sVariants s x
    ∧ ∀ w, variantsView p (sVariants s x) w
           = if decide (w ∈ vs) then variantsView p s w ∖ {[key]} else variantsView p s w.
Proof.
  unfold unlinkVariants. revert s. induction vs as [|v vs IH]; intros s; cbn [foldl].
  - exists (bs_variantMappings s). split; [by destruct s|]. intros w.
    rewrite decide_False by set_solver. by destruct s.
  - destruct (mappingsForVariant_eq p s v) as (y & -> & Hy).
    destruct (IH (sVariants (sVariants s y) (<[v := variantsView p s v ∖ {[key]}]> (bs_variantMappings (sVariants s y)))))
      as (x & Hx & Hw).
    exists x. split; [rewrite Hx; done|]. intros w.
    etransitivity; [exact (Hw w)|]. rewrite variantsView_insert, Hy.
    repeat case_decide; subst; set_solver.
Qed.

Lemma linkVariants_eq p s key vs :
  ∃ x, linkVariants p s key vs = sVariants s x
    ∧ ∀ w, variantsView p (sVariants s x) w
           = if decide (w ∈ vs) then {[key]} ∪ variantsView p s w else variantsView p s w.
Proof.
  unfold linkVariants. revert s. induction vs as [|v vs IH]; intros s; cbn [foldl].
  - exists (bs_variantMappings s). split; [by destruct s|]. intros w.
    rewrite decide_False by set_solver. by destruct s.
  - destruct (mappingsForVariant_eq p s v) as (y & -> & Hy).
    destruct (IH (sVariants (sVariants s y) (<[v := {[key]} ∪ variantsView p s v]> (bs_variantMappings (sVariants s y)))))
      as (x & Hx & Hw).
    exists x. split; [rewrite Hx; done|]. intros w.
    etransitivity; [exact (Hw w)|]. rewrite variantsView_insert, Hy.
    repeat case_decide; subst; set_solver.
Qed.

(** ** The group index *)

Lemma removeItemGroups_eq p s key :
  ∃ x y, removeItemGroups p s key = sItemGroups (sGroups s x) y
    ∧ (∀ g, groupView p (removeItemGroups p s key) g
            = if decide (g ∈ itemGroupView p s key) then groupView p s g ∖ {[key]} else groupView p s g)
    ∧ (∀ k, itemGroupView p (removeItemGroups p s key) k = if decide (k = key) then ∅ else itemGroupView p s k).
Proof.
  unfold removeItemGroups. destruct (groupsForItem_eq p s key) as (y & -> & Hy).
  set (body := λ (s : batchState) (group : string),
    let '(keys, s') := keysForGroup p s group in
    sGroups s' (<[group := keys ∖ {[key]}]> (bs_groups s'))).
  assert (∀ gs s0, ∃ x, foldl body s0 gs = sGroups s0 x
    ∧ ∀ g, groupView p (sGroups s0 x) g
           = if decide (g ∈ gs) then groupView p s0 g ∖ {[key]} else groupView p s0 g) as Hfold.
  { induction gs as [|g gs IH]; intros s0; cbn [foldl].
    - exists (bs_groups s0). split; [by destruct s0|]. intros w. by destruct s0.
    - unfold body at 2. destruct (keysForGroup_eq p s0 g) as (z & -> & Hz).
      destruct (IH (sGroups (sGroups s0 z) (<[g := groupView p s0 g ∖ {[key]}]> (bs_groups (sGroups s0 z)))))
        as (x & Hx & Hw).
      exists x. split; [rewrite Hx; done|]. intros w.
      etransitivity; [exact (Hw w)|]. rewrite groupView_insert, Hz.
      repeat case_decide; subst; set_solver. }
  destruct (Hfold (rangeSet (itemGroupView p s key)) (sItemGroups s y)) as (x & -> & Hg).
  eexists x, _. split; [done|]. split.
  - intros g. change (groupView p (sGroups (sItemGroups s y) x) g
      = if decide (g ∈ itemGroupView p s key) then groupView p s g ∖ {[key]} else groupView p s g).
    rewrite Hg. change (groupView p (sItemGroups s y) g) with (groupView p s g).
    destruct (decide (g ∈ itemGroupView p s key)) as [Hin|Hin];
      [rewrite decide_True|rewrite decide_False]; rewrite ?rangeSet_elem; done.
  - intros k. rewrite itemGroupView_insert. case_decide; [done|]. exact (Hy k).
Qed.

Lemma addItemGroup_eq p s key group :
  ∃ x y, addItemGroup p s key group = sItemGroups (sGroups s x) y
    ∧ (∀ g, groupView p (addItemGroup p s key group) g
            = if decide (g = group) then {[key]} ∪ groupView p s g else groupView p s g)
    ∧ (∀ k, itemGroupView p (addItemGroup p s key group) k
            = if decide (k = key) then {[group]} ∪ itemGroupView p s k else itemGroupView p s k).
Proof.
  unfold addItemGroup. destruct (keysForGroup_eq p s group) as (x & -> & Hx).
  set (s2 := sGroups _ _). destruct (groupsForItem_eq p s2 key) as (y & -> & Hy).
  eexists _, _. split; [done|]. split.
  - intros g. change (groupView p s2 g
      = if decide (g = group) then {[key]} ∪ groupView p s g else groupView p s g).
    unfold s2. rewrite groupView_insert, Hx. case_decide; [by subst|done].
  - intros k. rewrite itemGroupView_insert, Hy. case_decide; [by subst|done].
Qed.

(** ** The invariant *)

(** The key that owns a body file's path. *)
Context (owner : string → string).

(** What an item of the view satisfies: mapping records sit at mapping keys
    and bodies elsewhere, a mapping occupies no blocks and no LRU element and
    its decoded copy agrees with its text, the accounted size is that of the
    item, a body's path belongs to its key, and an item without a deadline has
    no expiration entry. *)
Record ItemOk (key : string) (it : cacheItem) : Prop := {
  io_kind : ci_file it = negb (mappingKeyed key);
  io_phys0 : ci_file it = false → ci_physicalSize it = 0;
  io_acct : ci_accountedSize it = accountedItemSize key it;
  io_cached : ci_file it = false → ci_mapping it = DecodeMapping (ci_value it);
  io_owner : ci_file it = true → owner (ci_value it) = key;
  io_lru : ci_file it = false → ci_lru it = None;
  io_noexp : isZeroTime (ci_expiresAt it) = true → ci_expiration it = None;
}.

(** While [deleteItem] drops a body, the body is already uncounted but still in
    the view; [hidden] is its key, and [None] between operations. *)
Section Hidden.
Context (hidden : option string).
Context (Hhidden : ∀ k, hidden = Some k → mappingKeyed k = false).

Definition counted (m : gmap string cacheItem) : gmap string cacheItem :=
  match hidden with Some k => delete k m | None => m end.

Lemma counted_lookup m k : hidden ≠ Some k → counted m !! k = m !! k.
Proof. intros Hk. unfold counted. destruct hidden; [|done]. rewrite lookup_delete_ne; [done|congruence]. Qed.
Lemma counted_delete m k : counted (delete k m) = delete k (counted m).
Proof. unfold counted. destruct hidden; [apply delete_delete|done]. Qed.
Lemma counted_insert m k x : hidden ≠ Some k → counted (<[k := x]> m) = <[k := x]> (counted m).
Proof. intros Hk. unfold counted. destruct hidden; [|done]. rewrite delete_insert_ne; [done|congruence]. Qed.
Lemma hidden_keyed k : mappingKeyed k = true → hidden ≠ Some k.
Proof. intros Hk He. apply Hhidden in He. congruence. Qed.

Record StagedOkBut (p : provider) (s : batchState) : Prop := {
  so_item : ∀ k it, viewMap p s !! k = Some it → ItemOk k it;
  so_rev : ∀ v mk, mk ∈ variantsView p s v ↔
    ∃ it, viewMap p s !! mk = Some it ∧ v ∈ mappingVariants it;
  so_groups : ∀ g k, k ∈ groupView p s g ↔ g ∈ itemGroupView p s k;
  so_physical : bs_physical s = map_sum ci_physicalSize (counted (viewMap p s));
  so_used : bs_used s ≤ map_sum ci_accountedSize (counted (viewMap p s));
  so_obsolete : ∀ f, f ∈ bs_obsoleteFiles s → owner f ∈ dom (bs_items s) ∨ hidden = Some (owner f);
}.

Lemma so_kind p s : StagedOkBut p s → ∀ k it, viewMap p s !! k = Some it → ci_file it = negb (mappingKeyed k).
Proof. intros Hs k it Hk. apply (io_kind k it), (so_item p s Hs), Hk. Qed.
Lemma so_phys0 p s : StagedOkBut p s →
  ∀ k it, viewMap p s !! k = Some it → ci_file it = false → ci_physicalSize it = 0.
Proof. intros Hs k it Hk. apply (io_phys0 k it), (so_item p s Hs), Hk. Qed.
Lemma so_cached p s : StagedOkBut p s →
  ∀ k it, viewMap p s !! k = Some it → ci_file it = false → ci_mapping it = DecodeMapping (ci_value it).
Proof. intros Hs k it Hk. apply (io_cached k it), (so_item p s Hs), Hk. Qed.

Lemma mappingVariants_file it : ci_file it = true → mappingVariants it = ∅.
Proof. unfold mappingVariants. by intros ->. Qed.

(** The variants a cached mapping lists are those its text decodes to. *)
Lemma mappingVariants_decoded it :
  ci_file it = false → ci_mapping it = DecodeMapping (ci_value it) →
  mappingVariants it = from_option dom ∅ (GetMapping (DecodeMapping (ci_value it))).
Proof.
  intros Hf Hm. unfold mappingVariants. rewrite Hf, Hm.
  destruct (DecodeMapping (ci_value it)); simpl; [|done]. destruct (sm_Mapping s); done.
Qed.

(** Only the items, indexes and counters of the provider matter. *)
Lemma StagedOk_version p s n : StagedOkBut p s → StagedOkBut (setVersion p n) s.
Proof. intros []. split; assumption. Qed.
Lemma StagedOk_expirations p s h : StagedOkBut p s → StagedOkBut (setExpirations p h) s.
Proof. intros []. split; assumption. Qed.
Lemma StagedOk_popped p s l : StagedOkBut p s → StagedOkBut p (sPopped s l).
Proof. intros []. split; assumption. Qed.
Lemma StagedOk_evicted p s n : StagedOkBut p s → StagedOkBut p (sEvicted s n).
Proof. intros []. split; assumption. Qed.
Lemma StagedOk_used p s n : n ≤ bs_used s → StagedOkBut p s → StagedOkBut p (sBytes s n (bs_physical s)).
Proof. intros Hn []. split; try assumption. simpl. etransitivity; [exact Hn|assumption]. Qed.

Lemma removeItemGroups_ok p s key : StagedOkBut p s → StagedOkBut p (removeItemGroups p s key).
Proof.
  intros Hs. destruct (removeItemGroups_eq p s key) as (x & y & Heq & Hg & Hi).
  pose proof (so_groups p s Hs) as Hgr. destruct Hs.
  split; try (rewrite Heq; assumption).
  intros g k. rewrite Hg, Hi. repeat case_decide; subst; rewrite ?elem_of_difference, ?Hgr; set_solver.
Qed.

Lemma removeItemGroups_gone p s key g : StagedOkBut p s → key ∉ groupView p (removeItemGroups p s key) g.
Proof.
  intros Hs. destruct (removeItemGroups_eq p s key) as (x & y & Heq & Hg & Hi).
  rewrite Hg. pose proof (so_groups p s Hs g key). case_decide; set_solver.
Qed.

Lemma addItemGroup_ok p s key group : StagedOkBut p s → StagedOkBut p (addItemGroup p s key group).
Proof.
  intros Hs. destruct (addItemGroup_eq p s key group) as (x & y & Heq & Hg & Hi).
  pose proof (so_groups p s Hs) as Hgr. destruct Hs.
  split; try (rewrite Heq; assumption).
  intros g k. rewrite Hg, Hi. repeat case_decide; subst; rewrite ?elem_of_union, ?Hgr; set_solver.
Qed.

(** ** Deleting and replacing one item of the view *)

Lemma StagedOk_delete p s s' key :
  hidden ≠ Some key → StagedOkBut p s → viewMap p s' = delete key (viewMap p s) →
  (∀ v mk, mk ∈ variantsView p s' v ↔ mk ∈ variantsView p s v ∧ mk ≠ key) →
  (∀ g k, k ∈ groupView p s' g ↔ g ∈ itemGroupView p s' k) →
  bs_physical s' = bs_physical s - from_option ci_physicalSize 0 (viewMap p s !! key) →
  bs_used s' ≤ bs_used s - from_option ci_accountedSize 0 (viewMap p s !! key) →
  (∀ f, f ∈ bs_obsoleteFiles s' → owner f ∈ dom (bs_items s') ∨ hidden = Some (owner f)) →
  StagedOkBut p s'.
Proof.
  intros Hh Hs Hv Hr Hg Hph Hu Hobs.
  assert (∀ k it, viewMap p s' !! k = Some it → viewMap p s !! k = Some it) as Hsub.
  { intros k it. rewrite Hv, lookup_delete_Some. tauto. }
  split; [| |done| | |done].
  - intros k it Hk. apply (so_item p s Hs). auto.
  - intros v mk. rewrite Hr, (so_rev p s Hs). rewrite Hv. setoid_rewrite lookup_delete_Some. naive_solver.
  - rewrite Hph, Hv, (so_physical p s Hs), counted_delete, (map_sum_default ci_physicalSize _ key).
    rewrite counted_lookup by done. lia.
  - rewrite Hv, counted_delete. pose proof (so_used p s Hs) as Hle.
    rewrite (map_sum_default ci_accountedSize _ key), counted_lookup in Hle by done. lia.
Qed.

Lemma StagedOk_insert p s s' key it :
  hidden ≠ Some key → StagedOkBut p s → ItemOk key it → viewMap p s' = <[key := it]> (viewMap p s) →
  (∀ v mk, mk ∈ variantsView p s' v ↔
     mk = key ∧ v ∈ mappingVariants it ∨ mk ≠ key ∧ mk ∈ variantsView p s v) →
  (∀ g k, k ∈ groupView p s' g ↔ g ∈ itemGroupView p s' k) →
  bs_physical s' = bs_physical s - from_option ci_physicalSize 0 (viewMap p s !! key) + ci_physicalSize it →
  bs_used s' ≤ bs_used s - from_option ci_accountedSize 0 (viewMap p s !! key) + ci_accountedSize it →
  (∀ f, f ∈ bs_obsoleteFiles s' → owner f ∈ dom (bs_items s') ∨ hidden = Some (owner f)) →
  StagedOkBut p s'.
Proof.
  intros Hh Hs Hit Hv Hr Hg Hph Hu Hobs.
  split; [| |done| | |done].
  - intros k x. rewrite Hv, lookup_insert_Some.
    intros [[<- <-]|[_ Hk]]; [done|by apply (so_item p s)].
  - intros v mk. rewrite Hr, Hv, (so_rev p s Hs). setoid_rewrite lookup_insert_Some. naive_solver.
  - rewrite Hph, Hv, counted_insert, map_sum_insert, (so_physical p s Hs) by done.
    rewrite (map_sum_default ci_physicalSize _ key), counted_lookup by done. lia.
  - rewrite Hv, counted_insert, map_sum_insert by done. pose proof (so_used p s Hs) as Hle.
    rewrite (map_sum_default ci_accountedSize _ key), counted_lookup in Hle by done. lia.
Qed.

(** ** [stageMapping] *)

(** Its first half: forget the record's size and links. *)
Lemma stageMapping_unlink p s key :
  StagedOkBut p s →
  let s1 := match getItem p s key with
            | Some old =>
                unlinkVariants p (sBytes s (bs_used s - N.min (bs_used s) (ci_accountedSize old)) (bs_physical s))
                  key (rangeSet (mappingVariants old))
            | None => s
            end in
  ∃ u x, s1 = sVariants (sBytes s u (bs_physical s)) x
    ∧ u = bs_used s - from_option ci_accountedSize 0 (viewMap p s !! key)
    ∧ ∀ v mk, mk ∈ variantsView p s1 v ↔ mk ∈ variantsView p s v ∧ mk ≠ key.
Proof.
  intros Hs s1. unfold s1. rewrite viewMap_lookup.
  pose proof (so_rev p s Hs) as Hrev. destruct (getItem p s key) as [old|] eqn:Hold; simpl.
  - destruct (unlinkVariants_eq p (sBytes s (bs_used s - N.min (bs_used s) (ci_accountedSize old)) (bs_physical s))
      key (rangeSet (mappingVariants old))) as (x & -> & Hx).
    eexists _, x. split; [done|]. split; [lia|]. intros v mk. rewrite Hx.
    change (variantsView p (sBytes s _ _) v) with (variantsView p s v).
    destruct (decide (v ∈ rangeSet (mappingVariants old))) as [Hin|Hin]; rewrite rangeSet_elem in Hin; [set_solver|].
    split; [|tauto]. intros Hmk. split; [done|]. intros ->.
    apply Hrev in Hmk as (it & Hit & Hvar). rewrite viewMap_lookup in Hit. congruence.
  - exists (bs_used s), (bs_variantMappings s). split; [by destruct s|]. split; [lia|].
    intros v mk. split; [|tauto]. intros Hmk. split; [done|]. intros ->.
    apply Hrev in Hmk as (it & Hit & Hvar). rewrite viewMap_lookup in Hit. congruence.
Qed.

(** What staging keeps of a batch state: its groups and its file lists. *)
Definition stageFrame (s s' : batchState) : Prop :=
  bs_groups s' = bs_groups s ∧ bs_itemGroups s' = bs_itemGroups s
  ∧ bs_obsoleteFiles s' = bs_obsoleteFiles s ∧ bs_evicted s' = bs_evicted s
  ∧ bs_poppedExpiry s' = bs_poppedExpiry s.

Lemma stageFrame_groups p s s' : stageFrame s s' → StagedOkBut p s →
  ∀ g k, k ∈ groupView p s' g ↔ g ∈ itemGroupView p s' k.
Proof.
  intros (Hg & Hi & _) Hs g k. pose proof (so_groups p s Hs g k) as Hgr.
  unfold groupView, itemGroupView in *. rewrite Hg, Hi. done.
Qed.

Lemma stageMapping_none p s key :
  StagedOkBut p s → mappingKeyed key = true →
  let s' := stageMapping p s key None in
  StagedOkBut p s' ∧ viewMap p s' = delete key (viewMap p s) ∧ stageFrame s s'
  ∧ bs_items s' = <[key := None]> (bs_items s) ∧ bs_physical s' = bs_physical s.
Proof.
  intros Hs Hk. pose proof (stageMapping_unlink p s key Hs) as (u & x & Heq & Hu & Hr).
  unfold stageMapping. cbv zeta in *. rewrite Heq in Hr |- *. set (s' := sItems _ _).
  assert (viewMap p s' = delete key (viewMap p s)) as Hv.
  { rewrite (viewMap_unstage p s' (bs_items s) key) by done. f_equal. }
  split; [|done]. apply (StagedOk_delete p s s' key (hidden_keyed key Hk) Hs Hv Hr).
  - apply (stageFrame_groups p s); done.
  - simpl. destruct (viewMap p s !! key) as [it|] eqn:Hit; simpl; [|lia].
    rewrite (so_phys0 p s Hs key it Hit); [lia|]. rewrite (so_kind p s Hs key it Hit), Hk. done.
  - simpl. lia.
  - intros f Hf. apply (so_obsolete p s Hs) in Hf. simpl. set_solver.
Qed.

(** The item [stageMapping] stores. *)
Definition mappingItemOf (key : string) (it : cacheItem) : cacheItem :=
  let it1 := match ci_mapping it with
             | Some _ => it
             | None => setMapping it (DecodeMapping (ci_value it))
             end in
  setAccounted it1 (accountedItemSize key it1).

Lemma stageMapping_some p s key it :
  StagedOkBut p s → mappingKeyed key = true → ci_file it = false → ci_physicalSize it = 0 →
  (ci_mapping it = None ∨ ci_mapping it = DecodeMapping (ci_value it)) →
  ci_lru it = None → (isZeroTime (ci_expiresAt it) = true → ci_expiration it = None) →
  let s' := stageMapping p s key (Some it) in
  StagedOkBut p s' ∧ viewMap p s' = <[key := mappingItemOf key it]> (viewMap p s) ∧ stageFrame s s'
  ∧ bs_items s' = <[key := Some (mappingItemOf key it)]> (bs_items s) ∧ bs_physical s' = bs_physical s.
Proof.
  intros Hs Hk Hf Hp Hm Hlru Hexp. pose proof (stageMapping_unlink p s key Hs) as (u & x & Heq & Hu & Hr).
  unfold stageMapping. cbv zeta in *. rewrite Heq in Hr |- *.
  set (it1 := match ci_mapping it with
              | Some _ => it
              | None => setMapping it (DecodeMapping (ci_value it))
              end).
  destruct (linkVariants_eq p (sVariants (sBytes s u (bs_physical s)) x) key (rangeSet (mappingVariants it1)))
    as (y & Hy & Hl). rewrite Hy. set (s' := sItems _ _).
  assert (ItemOk key (mappingItemOf key it)) as Hok.
  { unfold mappingItemOf. split; destruct (ci_mapping it) eqn:Hmap; simpl; rewrite ?Hf, ?Hk; try done.
    all: intros _; destruct Hm as [?|<-]; done. }
  assert (mappingVariants (mappingItemOf key it) = mappingVariants it1) as Hvar by done.
  assert (viewMap p s' = <[key := mappingItemOf key it]> (viewMap p s)) as Hv.
  { rewrite (viewMap_stage p s' (bs_items s) key (mappingItemOf key it)) by done. f_equal. }
  split; [|done]. apply (StagedOk_insert p s s' key (mappingItemOf key it) (hidden_keyed key Hk) Hs Hok Hv).
  - intros v mk. rewrite Hvar. change (variantsView p s' v) with
      (variantsView p (sVariants (sVariants (sBytes s u (bs_physical s)) x) y) v).
    rewrite Hl. destruct (decide (v ∈ rangeSet (mappingVariants it1))) as [Hin|Hin];
      rewrite rangeSet_elem in Hin; rewrite ?elem_of_union, elem_of_singleton || idtac; rewrite Hr; [|naive_solver].
    destruct (decide (mk = key)); naive_solver.
  - apply (stageFrame_groups p s); done.
  - assert (ci_physicalSize (mappingItemOf key it) = 0) as ->.
    { unfold mappingItemOf. destruct (ci_mapping it); done. }
    simpl. destruct (viewMap p s !! key) as [old|] eqn:Hit; simpl; [|lia].
    rewrite (so_phys0 p s Hs key old Hit); [lia|]. rewrite (so_kind p s Hs key old Hit), Hk. done.
  - change (bs_used s') with (u + ci_accountedSize (mappingItemOf key it)). lia.
  - intros f Hfo. apply (so_obsolete p s Hs) in Hfo. simpl. set_solver.
Qed.

(** ** [removeVariantFromMapping] and [deleteItem] *)

(** A change of the view that only touches mapping records: it may drop or
    rewrite them, leaves bodies alone and counts their bytes. *)
Record mappingsOnly (p : provider) (s : batchState) (p' : provider) (s' : batchState) : Prop := {
  mo_provider : ∃ n, p' = setVersion p n;
  mo_ok : StagedOkBut p' s';
  mo_bodies : ∀ k, mappingKeyed k = false → viewMap p' s' !! k = viewMap p s !! k;
  mo_shrinks : ∀ k, viewMap p s !! k = None → viewMap p' s' !! k = None;
  mo_staged : dom (bs_items s) ⊆ dom (bs_items s');
  mo_physical : bs_physical s' = bs_physical s;
  mo_obsolete : bs_obsoleteFiles s' = bs_obsoleteFiles s;
  mo_evicted : bs_evicted s' = bs_evicted s;
  mo_popped : bs_poppedExpiry s' = bs_poppedExpiry s;
  mo_nostage : ∀ k, mappingKeyed k = false → bs_items s' !! k = bs_items s !! k;
}.

Lemma mappingsOnly_refl p s : StagedOkBut p s → mappingsOnly p s p s.
Proof. intros Hs. split; try done. exists (p_nextVersion p). by destruct p. Qed.

Lemma mappingsOnly_trans p s p1 s1 p2 s2 :
  mappingsOnly p s p1 s1 → mappingsOnly p1 s1 p2 s2 → mappingsOnly p s p2 s2.
Proof.
  intros [[n1 ->] ? ? ? ? ? ? ? ? ?] [[n2 ->] ? ? ? ? ? ? ? ? ?]. split.
  - by exists n2.
  - done.
  - intros k Hk. by rewrite mo_bodies1, mo_bodies0.
  - eauto.
  - set_solver.
  - congruence.
  - congruence.
  - congruence.
  - congruence.
  - intros k Hk. by rewrite mo_nostage1, mo_nostage0.
Qed.

(** Rewriting or dropping the record at [mk] is such a change. *)
Lemma mappingsOnly_stage p s mk o :
  StagedOkBut p s → mappingKeyed mk = true → is_Some (viewMap p s !! mk) →
  match o with
  | None => True
  | Some it => ci_file it = false ∧ ci_physicalSize it = 0
      ∧ (ci_mapping it = None ∨ ci_mapping it = DecodeMapping (ci_value it))
      ∧ ci_lru it = None ∧ (isZeroTime (ci_expiresAt it) = true → ci_expiration it = None)
  end →
  mappingsOnly p s p (stageMapping p s mk o)
  ∧ viewMap p (stageMapping p s mk o) = match o with
      | None => delete mk (viewMap p s)
      | Some it => <[mk := mappingItemOf mk it]> (viewMap p s)
      end.
Proof.
  intros Hs Hk Hp Ho. destruct o as [it|].
  - destruct Ho as (Hf & Hph & Hm & Hl & Hx).
    pose proof (stageMapping_some p s mk it Hs Hk Hf Hph Hm Hl Hx) as (Hok & Hv & Hfr & Hi & Hphy).
    split; [|done]. destruct Hfr as (_ & _ & ? & ? & ?). split; try done.
    + exists (p_nextVersion p). by destruct p.
    + intros k Hn. rewrite Hv, lookup_insert_ne; [done|]. congruence.
    + intros k Hn. rewrite Hv, lookup_insert_ne; [done|]. intros ->. rewrite Hn in Hp. by destruct Hp.
    + rewrite Hi. set_solver.
    + intros k Hn. rewrite Hi, lookup_insert_ne; [done|]. congruence.
  - pose proof (stageMapping_none p s mk Hs Hk) as (Hok & Hv & Hfr & Hi & Hphy).
    split; [|done]. destruct Hfr as (_ & _ & ? & ? & ?). split; try done.
    + exists (p_nextVersion p). by destruct p.
    + intros k Hn. rewrite Hv, lookup_delete_ne; [done|]. congruence.
    + intros k Hn. rewrite Hv, lookup_delete_None. by right.
    + rewrite Hi. set_solver.
    + intros k Hn. rewrite Hi, lookup_insert_ne; [done|]. congruence.
Qed.

Lemma mappingsOnly_groups p s key : StagedOkBut p s → mappingsOnly p s p (removeItemGroups p s key).
Proof.
  intros Hs. destruct (removeItemGroups_eq p s key) as (x & y & Heq & _ & _).
  pose proof (removeItemGroups_ok p s key Hs) as Hok. rewrite Heq in Hok |- *.
  split; try done. exists (p_nextVersion p). by destruct p.
Qed.

Lemma removeVariantFromMapping_ok p s mk v p' s' :
  StagedOkBut p s → mappingKeyed mk = true → removeVariantFromMapping p s mk v = (p', s') →
  mappingsOnly p s p' s'
  ∧ (∀ k, k ≠ mk → viewMap p' s' !! k = viewMap p s !! k)
  ∧ (∀ it, viewMap p' s' !! mk = Some it → v ∉ mappingVariants it).
Proof.
  intros Hs Hk Hr. unfold removeVariantFromMapping in Hr.
  destruct (getItem p s mk) as [item|] eqn:Hitem.
  2:{ simplify_eq. split; [by apply mappingsOnly_refl|]. split; [done|].
      intros it. rewrite viewMap_lookup, Hitem. done. }
  assert (viewMap p s !! mk = Some item) as Hview by by rewrite viewMap_lookup.
  assert (ci_file item = false) as Hf by (rewrite (so_kind p s Hs mk item Hview), Hk; done).
  pose proof (mappingVariants_decoded item Hf (so_cached p s Hs mk item Hview Hf)) as Hvar.
  assert (∀ s0, mappingsOnly p s p s0 → viewMap p s0 = viewMap p s →
    (p, stageMapping p s0 mk None) = (p', s') →
    mappingsOnly p s p' s' ∧ (∀ k, k ≠ mk → viewMap p' s' !! k = viewMap p s !! k)
    ∧ (∀ it, viewMap p' s' !! mk = Some it → v ∉ mappingVariants it)) as Hdrop.
  { intros s0 H0 Hv0 [<- <-]%pair_eq.
    destruct (mappingsOnly_stage p s0 mk None (mo_ok _ _ _ _ H0) Hk) as [Hmo Hv]; [by rewrite Hv0, Hview|done|].
    split; [by eapply mappingsOnly_trans|]. rewrite Hv, Hv0. split.
    - intros k Hne. by rewrite lookup_delete_ne.
    - intros it. rewrite lookup_delete_eq. done. }
  destruct (DecodeMapping (ci_value item)) as [decoded|] eqn:Hd;
    [|apply (Hdrop s); auto using mappingsOnly_refl].
  destruct (sm_Mapping decoded) as [m|] eqn:Hm; [|apply (Hdrop s); auto using mappingsOnly_refl].
  case_bool_decide as Hin.
  2:{ simplify_eq. split; [by apply mappingsOnly_refl|]. split; [done|].
      intros it Hit. rewrite Hview in Hit. simplify_eq. rewrite Hvar. simpl. rewrite Hm. simpl.
      rewrite elem_of_dom. done. }
  case_bool_decide as Hempty.
  { apply (Hdrop (removeItemGroups p s mk)); [by apply mappingsOnly_groups| |done].
    destruct (removeItemGroups_eq p s mk) as (x & y & Heq & _ & _). rewrite Heq. done. }
  destruct (EncodeMapping _) as [encoded|] eqn:He; [|apply (Hdrop s); auto using mappingsOnly_refl].
  apply decode_encode in He. set (m' := delete v m) in *.
  set (it' := setEncoded item encoded {| sm_Mapping := Some m' |} (p_nextVersion (bumpVersion p))) in *.
  destruct (mappingsOnly_stage (bumpVersion p) s mk (Some it')) as [Hmo Hv].
  { by apply StagedOk_version. }
  { done. }
  { exists item. done. }
  { split; [done|]. split; [exact (so_phys0 p s Hs mk item Hview Hf)|].
    split; [right; exact (eq_sym He)|]. pose proof (so_item p s Hs mk item Hview) as [].
    split; [exact (io_lru0 Hf)|exact io_noexp0]. }
  apply pair_eq in Hr as [<- <-]. split.
  { eapply mappingsOnly_trans; [|exact Hmo]. split; try done.
    - by exists (p_nextVersion p + 1).
    - by apply StagedOk_version. }
  rewrite Hv. split.
  - intros k Hne. rewrite lookup_insert_ne by done. done.
  - intros it. rewrite lookup_insert_eq. intros [= <-].
    change (mappingVariants (mappingItemOf mk it')) with (mappingVariants it').
    rewrite mappingVariants_decoded by (simpl; rewrite ?He; done).
    simpl. rewrite He. simpl. unfold m'. set_solver.
Qed.

(** Removing a variant from each record of a list. *)
Lemma removeVariants_ok key ms p s p' s' :
  StagedOkBut p s → Forall (λ mk, mappingKeyed mk = true) ms →
  foldl (λ '(p, s) mk, removeVariantFromMapping p s mk key) (p, s) ms = (p', s') →
  mappingsOnly p s p' s'
  ∧ (∀ k, k ∉ ms → viewMap p' s' !! k = viewMap p s !! k)
  ∧ (∀ mk it, mk ∈ ms → viewMap p' s' !! mk = Some it → key ∉ mappingVariants it).
Proof.
  revert p s. induction ms as [|mk ms IH]; intros p s Hs Hall Hfold; cbn [foldl] in Hfold.
  { simplify_eq. split; [by apply mappingsOnly_refl|]. split; [done|]. set_solver. }
  apply Forall_cons_1 in Hall as [Hmk Hall].
  destruct (removeVariantFromMapping p s mk key) as [p1 s1] eqn:H1.
  destruct (removeVariantFromMapping_ok p s mk key p1 s1 Hs Hmk H1) as (Hmo1 & Hother & Hgone).
  destruct (IH p1 s1 (mo_ok _ _ _ _ Hmo1) Hall Hfold) as (Hmo2 & Hrest & Hdone).
  split; [by eapply mappingsOnly_trans|]. split.
  - intros k Hk. apply not_elem_of_cons in Hk as [Hne Hk]. rewrite Hrest by done. by apply Hother.
  - intros mk' it Hin Hit. apply elem_of_cons in Hin as [->|Hin]; [|by eapply Hdone].
    destruct (decide (mk ∈ ms)) as [Hin|Hin]; [by eapply Hdone|].
    rewrite Hrest in Hit by done. by apply Hgone.
Qed.


End Hidden.

(** The invariant between operations. *)
Abbreviation StagedOk := (StagedOkBut None).

Lemma no_hidden : ∀ k : string, None = Some k → mappingKeyed k = false.
Proof. done. Qed.

(** What [deleteItem] did to the view. *)
Record itemDeleted (p : provider) (s : batchState) (key : string) (p' : provider) (s' : batchState) : Prop := {
  dl_provider : ∃ n, p' = setVersion p n;
  dl_ok : StagedOk p' s';
  dl_gone : viewMap p' s' !! key = None;
  dl_bodies : ∀ k, mappingKeyed k = false → k ≠ key → viewMap p' s' !! k = viewMap p s !! k;
  dl_shrinks : ∀ k, viewMap p s !! k = None → viewMap p' s' !! k = None;
  dl_unlisted : mappingKeyed key = false → is_Some (viewMap p s !! key) →
    ∀ mk it, viewMap p' s' !! mk = Some it → key ∉ mappingVariants it;
  dl_staged : dom (bs_items s) ⊆ dom (bs_items s')
    ∧ (is_Some (viewMap p s !! key) → key ∈ dom (bs_items s'));
  dl_nostage : ∀ k, mappingKeyed k = false → k ≠ key → bs_items s' !! k = bs_items s !! k;
  dl_physical : bs_physical s' = bs_physical s - from_option ci_physicalSize 0 (viewMap p s !! key);
  dl_obsolete : bs_obsoleteFiles s' = match viewMap p s !! key with
    | Some it => if ci_file it then {[ci_value it]} ∪ bs_obsoleteFiles s else bs_obsoleteFiles s
    | None => bs_obsoleteFiles s
    end;
  dl_evicted : bs_evicted s' = bs_evicted s;
  dl_popped : bs_poppedExpiry s' = bs_poppedExpiry s;
}.

(** A mapping that lists a variant sits at a mapping key. *)
Lemma variantsView_keyed p s v mk : StagedOk p s → mk ∈ variantsView p s v → mappingKeyed mk = true.
Proof.
  intros Hs Hin. apply (so_rev _ p s Hs) in Hin as (it & Hit & Hv).
  destruct (mappingKeyed mk) eqn:Hk; [done|]. exfalso.
  pose proof (so_kind _ p s Hs mk it Hit) as Hf. rewrite Hk in Hf.
  rewrite mappingVariants_file in Hv by done. set_solver.
Qed.

Lemma deleteItem_absent p s key :
  StagedOk p s → viewMap p s !! key = None → itemDeleted p s key p s.
Proof.
  intros Hs Hnone. split; try done; rewrite ?Hnone; simpl; try done.
  - exists (p_nextVersion p). by destruct p.
  - lia.
Qed.

Lemma deleteItem_mapping p s key it s1 :
  StagedOk p s → viewMap p s !! key = Some it → mappingKeyed key = true →
  mappingsOnly None p s p s1 → viewMap p s1 = viewMap p s →
  itemDeleted p s key p (stageMapping p s1 key None).
Proof.
  intros Hs Hit Hk H1 Hv1.
  destruct (mappingsOnly_stage None no_hidden p s1 key None (mo_ok _ _ _ _ _ H1) Hk) as [H2 Hv2];
    [by rewrite Hv1, Hit|done|].
  pose proof (mappingsOnly_trans _ no_hidden _ _ _ _ _ _ H1 H2) as [].
  assert (ci_file it = false) as Hf by (rewrite (so_kind _ p s Hs key it Hit), Hk; done).
  split; try done.
  - rewrite Hv2. apply lookup_delete_eq.
  - intros k Hn _. auto.
  - congruence.
  - split; [done|]. intros _.
    pose proof (stageMapping_none None no_hidden p s1 key (mo_ok _ _ _ _ _ H1) Hk) as (_ & _ & _ & -> & _).
    set_solver.
  - intros k Hn _. auto.
  - rewrite mo_physical0, Hit. simpl. rewrite (so_phys0 _ p s Hs key it Hit Hf). lia.
  - rewrite Hit, Hf. done.
Qed.

(** Uncounting a body that stays in the view for now. *)
Lemma deleteItem_uncount p s key it x :
  StagedOk p s → viewMap p s !! key = Some it → ci_file it = true →
  let s3 := sObsolete (sBytes s (bs_used s - N.min (bs_used s) (ci_accountedSize it))
                                (bs_physical s - N.min (bs_physical s) (ci_physicalSize it)))
              ({[ci_value it]} ∪ bs_obsoleteFiles s) in
  (∀ w, variantsView p (sVariants s3 x) w = variantsView p s3 w) →
  StagedOkBut (Some key) p (sVariants s3 x).
Proof.
  intros Hs Hit Hf s3 Hx. pose proof Hs as [].
  split; try assumption.
  - intros v mk. rewrite Hx. exact (so_rev0 v mk).
  - change (bs_physical s - N.min (bs_physical s) (ci_physicalSize it)
            = map_sum ci_physicalSize (delete key (viewMap p s))).
    rewrite so_physical0. simpl. rewrite (map_sum_delete _ _ _ _ Hit). lia.
  - change (bs_used s - N.min (bs_used s) (ci_accountedSize it)
            ≤ map_sum ci_accountedSize (delete key (viewMap p s))).
    simpl in so_used0. rewrite (map_sum_delete _ _ _ _ Hit) in so_used0. lia.
  - intros f [Hfv|Hfo]%elem_of_union.
    + apply elem_of_singleton in Hfv as ->. right. by rewrite (io_owner key it (so_item0 key it Hit) Hf).
    + destruct (so_obsolete0 f Hfo) as [?|?]; [by left|done].
Qed.

(** Dropping the uncounted body once no mapping lists it. *)
Lemma deleteItem_drop p s key it :
  StagedOkBut (Some key) p s → viewMap p s !! key = Some it → ci_file it = true →
  let s' := sItems s (<[key := None]> (bs_items s)) in
  StagedOk p s' ∧ viewMap p s' = delete key (viewMap p s).
Proof.
  intros [] Hit Hf s'.
  assert (viewMap p s' = delete key (viewMap p s)) as Hv.
  { rewrite (viewMap_unstage p s' (bs_items s) key) by done. f_equal. }
  split; [|done].
  assert (∀ k x, viewMap p s' !! k = Some x → viewMap p s !! k = Some x) as Hsub.
  { intros k x. rewrite Hv, lookup_delete_Some. tauto. }
  split; eauto.
  - intros v mk. change (variantsView p s' v) with (variantsView p s v). rewrite so_rev0, Hv.
    setoid_rewrite lookup_delete_Some. split; [|naive_solver].
    intros (y & Hy & Hvar). exists y. split; [|done]. split; [|done]. intros <-. simplify_eq.
    rewrite mappingVariants_file in Hvar by done. set_solver.
  - change (bs_physical s = map_sum ci_physicalSize (viewMap p s')). rewrite Hv. exact so_physical0.
  - change (bs_used s ≤ map_sum ci_accountedSize (viewMap p s')). rewrite Hv. exact so_used0.
  - intros f Hfo. left. simpl. destruct (so_obsolete0 f Hfo) as [?|[= <-]]; set_solver.
Qed.

Lemma deleteItem_body p s key it s1 x p5 s5 :
  StagedOk p s → viewMap p s !! key = Some it → ci_file it = true → mappingKeyed key = false →
  mappingsOnly None p s p s1 → viewMap p s1 = viewMap p s →
  let s3 := sObsolete (sBytes s1 (bs_used s1 - N.min (bs_used s1) (ci_accountedSize it))
                                 (bs_physical s1 - N.min (bs_physical s1) (ci_physicalSize it)))
              ({[ci_value it]} ∪ bs_obsoleteFiles s1) in
  (∀ w, variantsView p (sVariants s3 x) w = variantsView p s3 w) →
  foldl (λ '(p, s) mk, removeVariantFromMapping p s mk key) (p, sVariants s3 x)
    (rangeSet (variantsView p s3 key)) = (p5, s5) →
  itemDeleted p s key p5 (sItems s5 (<[key := None]> (bs_items s5))).
Proof.
  intros Hs Hview Hf Hk Hg Hgv s3 Hx Hfold. pose proof (mo_ok _ _ _ _ _ Hg) as Hs1.
  assert (StagedOkBut (Some key) p (sVariants s3 x)) as Hs4.
  { apply (deleteItem_uncount p s1 key it x); try done. by rewrite Hgv. }
  apply (removeVariants_ok (Some key)) in Hfold as (Hmo & Hother & Hgone); [|naive_solver|done|].
  2:{ apply list.Forall_forall. intros mk Hmk. apply rangeSet_elem in Hmk.
      exact (variantsView_keyed p s1 key mk Hs1 Hmk). }
  assert (∀ mk y, viewMap p5 s5 !! mk = Some y → key ∉ mappingVariants y) as Hunl.
  { intros mk y Hy. destruct (decide (mk ∈ rangeSet (variantsView p s3 key))) as [Hin|Hin]; [by eapply Hgone|].
    rewrite Hother in Hy by done. intros Hvar. apply Hin, rangeSet_elem.
    change (mk ∈ variantsView p s1 key). apply (so_rev _ p s1 Hs1). exists y. done. }
  assert (viewMap p (sVariants s3 x) = viewMap p s) as Hv3 by exact Hgv.
  destruct (deleteItem_drop p5 s5 key it (mo_ok _ _ _ _ _ Hmo)) as [Hok' Hv'].
  { rewrite (mo_bodies _ _ _ _ _ Hmo key Hk), Hv3. done. }
  { done. }
  destruct Hg, Hmo. split.
  - done.
  - done.
  - rewrite Hv'. apply lookup_delete_eq.
  - intros k Hkk Hne. rewrite Hv', lookup_delete_ne, mo_bodies1, Hv3 by done. done.
  - intros k Hn. rewrite Hv'. apply lookup_delete_None. right. apply mo_shrinks1. by rewrite Hv3.
  - intros _ _ mk y. rewrite Hv', lookup_delete_Some. intros [_ Hy]. by eapply Hunl.
  - simpl in *. set_solver.
  - intros k Hkk Hne. simpl. rewrite lookup_insert_ne, mo_nostage1 by done. by apply mo_nostage0.
  - simpl in *. rewrite mo_physical1, Hview, mo_physical0. simpl. lia.
  - simpl in *. rewrite mo_obsolete1, Hview, Hf, mo_obsolete0. done.
  - simpl in *. congruence.
  - simpl in *. congruence.
Qed.

Lemma deleteItem_ok p s key p' s' :
  StagedOk p s → deleteItem p s key = (p', s') → itemDeleted p s key p' s'.
Proof.
  intros Hs Hd. unfold deleteItem in Hd. destruct (getItem p s key) as [item|] eqn:Hitem.
  2:{ simplify_eq. apply deleteItem_absent; [done|]. by rewrite viewMap_lookup. }
  assert (viewMap p s !! key = Some item) as Hview by by rewrite viewMap_lookup.
  pose proof (so_kind _ p s Hs key item Hview) as Hkind.
  pose proof (mappingsOnly_groups None no_hidden p s key Hs) as Hg.
  assert (viewMap p (removeItemGroups p s key) = viewMap p s) as Hgv.
  { destruct (removeItemGroups_eq p s key) as (x & y & -> & _ & _). done. }
  set (s1 := removeItemGroups p s key) in *. destruct (ci_file item) eqn:Hf.
  - destruct (mappingsForVariant_eq p (sObsolete (sBytes s1 (bs_used s1 - N.min (bs_used s1) (ci_accountedSize item))
       (bs_physical s1 - N.min (bs_physical s1) (ci_physicalSize item))) ({[ci_value item]} ∪ bs_obsoleteFiles s1)) key)
      as (x & Hmv & Hx).
    cbv zeta in Hd. simpl bs_obsoleteFiles in Hd. rewrite Hmv in Hd.
    destruct (foldl _ _ _) as [p5 s5] eqn:Hfold in Hd. apply pair_eq in Hd as [<- <-].
    apply (deleteItem_body p s key item s1 x p5 s5); try done. by destruct (mappingKeyed key).
  - rewrite (so_phys0 _ p s Hs key item Hview Hf) in Hd.
    apply pair_eq in Hd as [<- <-].
    apply (deleteItem_mapping p s key item); try done; [by destruct (mappingKeyed key)|].
    rewrite N.min_0_r, N.sub_0_r. destruct Hg. split; try done. apply StagedOk_used; [lia|done].
Qed.

(** While a batch only deletes, the owners of its obsolete files are gone. *)
Definition obsoleteGone (p : provider) (s : batchState) : Prop :=
  ∀ f, f ∈ bs_obsoleteFiles s → viewMap p s !! owner f = None.

Lemma itemDeleted_obsolete p s key p' s' :
  StagedOk p s → itemDeleted p s key p' s' → obsoleteGone p s → obsoleteGone p' s'.
Proof.
  intros Hs Hd Hobs f Hf. rewrite (dl_obsolete _ _ _ _ _ Hd) in Hf.
  assert (f ∈ bs_obsoleteFiles s → viewMap p' s' !! owner f = None) as Hkeep.
  { intros Hin. by apply (dl_shrinks _ _ _ _ _ Hd), Hobs. }
  destruct (viewMap p s !! key) as [it|] eqn:Hit; [|auto]. destruct (ci_file it) eqn:Hfile; [|auto].
  apply elem_of_union in Hf as [->%elem_of_singleton|Hf]; [|auto].
  rewrite (io_owner key it (so_item _ p s Hs key it Hit) Hfile). exact (dl_gone _ _ _ _ _ Hd).
Qed.

End View.

Abbreviation StagedOk owner := (StagedOkBut owner None).
