(* ===== verification/CacheExpiry.v ===== *)
(** * Expiration of cache items ([caddy/simplefs/batch.go])

    The expiration heap against the items: every entry of the heap is the
    current deadline of its item and every item with a deadline has an entry,
    save those popped in this batch.  [stageExpired] pops exactly the entries
    that are due, deletes their items from the staged view, and leaves every
    other body alone; [restoreExpiry] puts the popped entries back. *)
From Stdlib Require Import ZArith Lia Ascii String.
From stdpp Require Import base numbers list strings gmap sets option.
From S2P Require Import Prelude CacheCore ExpirationHeap CacheStore CacheView.

Local Open Scope N_scope.

(** ** Entries up to their position *)

Lemma sameEntries_sym h h' : sameEntries h h' → sameEntries h' h.
Proof. unfold sameEntries. by intros ->. Qed.
Lemma sameEntries_trans h1 h2 h3 : sameEntries h1 h2 → sameEntries h2 h3 → sameEntries h1 h3.
Proof. unfold sameEntries. intros ->. done. Qed.
Lemma sameEntries_refl h : sameEntries h h.
Proof. unfold sameEntries. done. Qed.
Lemma sameEntries_cons e h h' : sameEntries h h' → sameEntries (e :: h) (e :: h').
Proof. unfold sameEntries. intros Hs. rewrite !fmap_cons, Hs. done. Qed.

Lemma sameEntries_ids h h' : sameEntries h h' → ee_id <$> h ≡ₚ ee_id <$> h'.
Proof.
  unfold sameEntries. intros Hs. apply (Permutation_map ee_id) in Hs.
  change (ee_id <$> ((λ e, setEntryIndex e 0) <$> h) ≡ₚ ee_id <$> ((λ e, setEntryIndex e 0) <$> h')) in Hs.
  rewrite <- !list_fmap_compose in Hs. exact Hs.
Qed.

(** Any property of entries that ignores positions carries over. *)
Lemma sameEntries_forall (P : expirationEntry → Prop) h h' :
  (∀ e i, P e ↔ P (setEntryIndex e i)) → sameEntries h h' → (∀ e, e ∈ h' → P e) → ∀ e, e ∈ h → P e.
Proof.
  intros HP Hs Hall e He. destruct (sameEntries_elem h h' e Hs He) as (y & Hy & Heq).
  apply (HP e 0%Z). rewrite Heq. apply HP, Hall, Hy.
Qed.
Lemma sameEntries_exists (P : expirationEntry → Prop) h h' :
  (∀ e i, P e ↔ P (setEntryIndex e i)) → sameEntries h h' → (∃ e, e ∈ h' ∧ P e) → ∃ e, e ∈ h ∧ P e.
Proof.
  intros HP Hs (e & He & Hp). destruct (sameEntries_elem h' h e (sameEntries_sym _ _ Hs) He) as (y & Hy & Heq).
  exists y. split; [done|]. apply (HP y 0%Z). rewrite <- Heq. by apply HP.
Qed.

(** ** The heap and the items *)

(** [e] is the current deadline of its item. *)
Definition entryFor (items : gmap string cacheItem) (e : expirationEntry) : Prop :=
  ∃ it, items !! ee_key e = Some it ∧ ci_expiration it = Some (ee_id e)
    ∧ ci_generation it = ee_generation e ∧ ci_expiresAt it = ee_at e.

(** [lost] are the keys whose entries a batch has popped. *)
Record expiryOk (items : gmap string cacheItem) (h : expirationHeap) (lost : gset string) : Prop := {
  ex_heap : heapOk h;
  ex_nodup : NoDup (ee_id <$> h);
  ex_entry : ∀ e, e ∈ h → entryFor items e;
  ex_item : ∀ k it, items !! k = Some it → isZeroTime (ci_expiresAt it) = false → k ∉ lost →
    ∃ e, e ∈ h ∧ ee_key e = k;
}.

Lemma entryFor_index items e i : entryFor items e ↔ entryFor items (setEntryIndex e i).
Proof. done. Qed.

(** Distinct entries of one heap belong to distinct keys. *)
Lemma entryFor_inj items e e' :
  entryFor items e → entryFor items e' → ee_key e = ee_key e' → ee_id e = ee_id e'.
Proof. intros (i & Hi & He & _) (i' & Hi' & He' & _) Hk. rewrite Hk in Hi. congruence. Qed.

Lemma expiry_pop items h lost :
  h ≠ [] → expiryOk items h lost →
  ∃ e, heapPop h = ((heapPop h).1, Some e) ∧ sameEntries (e :: (heapPop h).1) h ∧ entryFor items e
    ∧ (∀ x, x ∈ h → (ee_at e ≤ ee_at x)%Z) ∧ expiryOk items (heapPop h).1 ({[ee_key e]} ∪ lost).
Proof.
  intros Hne [Hheap Hnd Hent Hitem].
  destruct (heapPop_ok h Hne Hheap) as (e & He & Hok & Hs & Hidx & Hmin).
  exists e. split; [destruct (heapPop h); simpl in *; by subst|]. split; [done|].
  pose proof (sameEntries_forall (entryFor items) _ _ (entryFor_index items) Hs Hent) as Hall.
  split; [apply Hall; set_solver|]. split; [done|].
  rewrite <- (sameEntries_ids _ _ Hs) in Hnd. rewrite fmap_cons in Hnd. apply list.NoDup_cons in Hnd as [Hnew Hnd].
  split; [done|done|set_solver|].
  intros k it Hk Hz Hl. destruct (Hitem k it Hk Hz ltac:(set_solver)) as (x & Hx & Hxk).
  destruct (sameEntries_exists (λ e, ee_key e = k) _ _ (λ _ _, iff_refl _) Hs (ex_intro _ x (conj Hx Hxk)))
    as (y & [->|Hy]%elem_of_cons & Hyk); [set_solver|]. eauto.
Qed.

Lemma expiry_push items h lost e :
  expiryOk items h lost → entryFor items e → ee_id e ∉ ee_id <$> h →
  expiryOk items (heapPush h e) (lost ∖ {[ee_key e]}).
Proof.
  intros [Hheap Hnd Hent Hitem] He Hid. destruct (heapPush_ok h e Hheap) as [Hok Hs]. split; [done| | |].
  - rewrite (sameEntries_ids _ _ Hs), fmap_cons. by apply list.NoDup_cons.
  - apply (sameEntries_forall (entryFor items) _ _ (entryFor_index items) Hs).
    intros x [->|Hx]%elem_of_cons; auto.
  - intros k it Hk Hz Hl.
    apply (sameEntries_exists (λ e, ee_key e = k) _ _ (λ _ _, iff_refl _) Hs).
    destruct (decide (k = ee_key e)) as [->|Hne]; [exists e; set_solver|].
    destruct (Hitem k it Hk Hz ltac:(set_solver)) as (x & Hx & Hxk). exists x. set_solver.
Qed.

Lemma sameEntries_length h h' : sameEntries h h' → length h = length h'.
Proof. unfold sameEntries. intros Hs%Permutation_length. rewrite !length_fmap in Hs. done. Qed.

Section Expiry.
Context {C : MappingCodec} {CR : MappingCodecRoundtrip} {G : GoRange}.
Context (owner : string → string).

(** ** [stageExpired] *)

(** The result of staging the entries [es] that were due at [now]. *)
Record expiredStaged (now : Z) (p : provider) (s : batchState) (lost : gset string)
    (p' : provider) (s' : batchState) (es : list expirationEntry) : Prop := {
  xs_provider : ∃ n h, p' = setVersion (setExpirations p h) n;
  xs_ok : StagedOk owner p' s';
  xs_expiry : expiryOk (p_items p) (p_expirations p') (list_to_set (ee_key <$> es) ∪ lost);
  xs_popped : bs_poppedExpiry s' = bs_poppedExpiry s ++ es;
  xs_same : sameEntries (es ++ p_expirations p') (p_expirations p);
  xs_due : ∀ e, e ∈ es → (ee_at e ≤ now)%Z;
  xs_left : ∀ e, e ∈ p_expirations p' → (now < ee_at e)%Z;
  xs_gone : ∀ e, e ∈ es → viewMap p' s' !! ee_key e = None;
  xs_bodies : ∀ k, mappingKeyed k = false → k ∉ ee_key <$> es → viewMap p' s' !! k = viewMap p s !! k;
  xs_shrinks : ∀ k, viewMap p s !! k = None → viewMap p' s' !! k = None;
  xs_staged : dom (bs_items s) ⊆ dom (bs_items s');
  xs_nostage : ∀ k, mappingKeyed k = false → k ∉ ee_key <$> es → bs_items s' !! k = bs_items s !! k;
  xs_evicted : bs_evicted s' = bs_evicted s;
  xs_obsolete : obsoleteGone owner p s → obsoleteGone owner p' s';
}.

Lemma expiredStaged_nil now p s lost :
  StagedOk owner p s → expiryOk (p_items p) (p_expirations p) lost →
  (∀ e, e ∈ p_expirations p → (now < ee_at e)%Z) → expiredStaged now p s lost p s [].
Proof.
  intros Hs He Hleft. split; try done; try (by set_solver).
  - exists (p_nextVersion p), (p_expirations p). by destruct p.
  - simpl. by rewrite union_empty_l_L.
  - by rewrite app_nil_r.
  - apply sameEntries_refl.
Qed.

(** One round: pop the due entry [e] and delete its item. *)
Lemma expiredStaged_cons now p s lost e h p2 s2 p' s' es :
  StagedOk owner p s →
  entryFor (p_items p) e → (ee_at e ≤ now)%Z → sameEntries (e :: h) (p_expirations p) →
  itemDeleted owner (setExpirations p h) (sPopped s (bs_poppedExpiry s ++ [e])) (ee_key e) p2 s2 →
  expiredStaged now p2 s2 ({[ee_key e]} ∪ lost) p' s' es →
  expiredStaged now p s lost p' s' (e :: es).
Proof.
  intros Hs Hent Hdue Hsame Hd Hx.
  assert (obsoleteGone owner p s → obsoleteGone owner p2 s2) as Hobs.
  { intros Ho. apply (itemDeleted_obsolete owner _ _ _ _ _ (StagedOk_popped _ _ _ _ _ (StagedOk_expirations _ _ _ _ h Hs)) Hd).
    exact Ho. }
  destruct Hd as [[n ->] ? ? ? ? ? [? ?] ? ? ? ? ?]. simpl in *.
  destruct Hx as [(n' & h' & ->) ? ? ? ? ? ? ? ? ? ? ? ? ?]. simpl in *. split.
  - by exists n', h'.
  - done.
  - assert (list_to_set (ee_key <$> e :: es) ∪ lost
      = list_to_set (ee_key <$> es) ∪ ({[ee_key e]} ∪ lost)) as -> by set_solver. done.
  - rewrite xs_popped0, dl_popped, <- (assoc_L app). done.
  - eapply sameEntries_trans; [|exact Hsame]. by apply sameEntries_cons.
  - intros x [->|Hin]%elem_of_cons; auto.
  - done.
  - intros x [->|Hin]%elem_of_cons; auto.
  - intros k Hk [Hne Hnin]%not_elem_of_cons. rewrite xs_bodies0, dl_bodies by done. done.
  - intros k Hk. by apply xs_shrinks0, dl_shrinks.
  - set_solver.
  - intros k Hk [Hne Hnin]%not_elem_of_cons. rewrite xs_nostage0, dl_nostage by done. done.
  - congruence.
  - auto.
Qed.

Lemma stageExpiredN_ok now fuel p s lost p' s' :
  StagedOk owner p s → expiryOk (p_items p) (p_expirations p) lost →
  (length (p_expirations p) ≤ fuel)%nat → stageExpiredN fuel p s now = (p', s') →
  ∃ es, expiredStaged now p s lost p' s' es.
Proof.
  revert p s lost. induction fuel as [|fuel IH]; intros p s lost Hs He Hf Hr; cbn [stageExpiredN] in Hr.
  { simplify_eq. exists []. apply expiredStaged_nil; [done|done|].
    destruct (p_expirations p'); [set_solver|simpl in Hf; lia]. }
  destruct (p_expirations p) as [|top rest] eqn:Hh.
  { simplify_eq. exists []. apply expiredStaged_nil; rewrite ?Hh; [done|done|set_solver]. }
  assert (p_expirations p ≠ []) as Hne by (rewrite Hh; done).
  rewrite <- Hh in He, Hf, Hr. pose proof (ex_heap _ _ _ He) as [Hord _].
  assert (hat (p_expirations p) 0 = ee_at top) as Htop by (rewrite Hh; done).
  destruct (ee_at top <=? now)%Z eqn:Hdue.
  2:{ simplify_eq. exists []. apply expiredStaged_nil; [done|done|].
      intros e (i & Hi)%list_elem_of_lookup. apply Z.leb_gt in Hdue.
      pose proof (heapOrder_min _ _ i Hord (lookup_lt_Some _ _ _ Hi)) as Hmin.
      unfold hat in Hmin at 2. rewrite Htop, Hi in Hmin. simpl in Hmin. lia. }
  destruct (expiry_pop _ _ _ Hne He) as (e & Hpop & Hsame & Hent & Hmin & He').
  rewrite Hpop in Hr. set (h := (heapPop (p_expirations p)).1) in *. cbv zeta in Hr.
  assert (ee_at e ≤ now)%Z as Hed.
  { apply Z.leb_le in Hdue. transitivity (ee_at top); [|done]. apply Hmin. rewrite Hh. set_solver. }
  pose proof Hent as (it & Hit & _ & Hgen & Hat).
  change (p_items (setExpirations p h)) with (p_items p) in Hr.
  rewrite Hit, Hgen, N.eqb_refl, Hat in Hr. simpl negb in Hr.
  assert ((now <? ee_at e)%Z = false) as Hlt by (by apply Z.ltb_ge). rewrite Hlt in Hr. simpl orb in Hr. cbv iota in Hr.
  destruct (deleteItem _ _ _) as [p2 s2] eqn:Hdel.
  apply (deleteItem_ok owner) in Hdel; [|by apply StagedOk_popped, StagedOk_expirations].
  pose proof Hdel as [[n ->] Hok2 _ _ _ _ _ _ _ _ _ _].
  destruct (IH _ s2 ({[ee_key e]} ∪ lost) Hok2 He') as (es & Hes).
  - simpl. pose proof (sameEntries_length _ _ Hsame) as Hl. simpl in Hl. lia.
  - exact Hr.
  - exists (e :: es). by eapply expiredStaged_cons.
Qed.

Lemma stageExpired_ok now p s lost p' s' :
  StagedOk owner p s → expiryOk (p_items p) (p_expirations p) lost →
  stageExpired p s now = (p', s') → ∃ es, expiredStaged now p s lost p' s' es.
Proof. intros Hs He. by apply stageExpiredN_ok. Qed.

(** ** [restoreExpiry] *)

(** Pushing back entries that still belong to their items. *)
Lemma restoreExpiry_ok p l :
  (∀ e, e ∈ l → entryFor (p_items p) e) → heapOk (p_expirations p) →
  let p' := foldl (λ p entry,
    match p_items p !! ee_key entry with
    | Some item =>
        if ci_generation item =? ee_generation entry
        then setExpirations p (heapPush (p_expirations p) entry) else p
    | None => p
    end) p l in
  ∃ h, p' = setExpirations p h ∧ heapOk h ∧ sameEntries h (l ++ p_expirations p).
Proof.
  revert p. induction l as [|e l IH]; intros p Hall Hok p'; cbn [foldl] in p'.
  { exists (p_expirations p). split; [by destruct p|]. split; [done|apply sameEntries_refl]. }
  destruct (Hall e ltac:(set_solver)) as (it & Hit & _ & Hgen & _).
  unfold p'. rewrite Hit, Hgen, N.eqb_refl.
  destruct (heapPush_ok (p_expirations p) e Hok) as [Hok' Hs].
  destruct (IH (setExpirations p (heapPush (p_expirations p) e))) as (h & -> & Hh & Hsame).
  - intros x Hx. apply Hall. set_solver.
  - done.
  - exists h. split; [done|]. split; [done|]. eapply sameEntries_trans; [exact Hsame|]. simpl.
    unfold sameEntries in *. rewrite fmap_cons, !fmap_app, Hs. rewrite fmap_cons. by rewrite Permutation_middle.
Qed.
End Expiry.
