(* ===== verification/CacheCommit.v ===== *)
(** * Committing a batch ([caddy/simplefs/batch.go])

    [applyBatchLocked] moves the staged view into memory: the items become the
    view (up to the identities of their LRU elements and heap entries), the
    LRU list holds exactly the bodies, the heap exactly the deadlines, the
    reverse and group indexes and the entry counters are exact.
    [persistBatchLocked] brings the database to the same contents. *)
From Stdlib Require Import ZArith Lia Ascii String.
From stdpp Require Import base numbers list strings gmap sets option.
From S2P Require Import Prelude CacheCore ExpirationHeap CacheStore CacheView CacheExpiry.

Local Open Scope N_scope.

(** ** What memory satisfies *)

(** The LRU list holds one element per body, which the body points to. *)
Record lruOk (items : gmap string cacheItem) (l : list (N * string)) : Prop := {
  lr_nodup : NoDup l.*1;
  lr_elem : ∀ id k, (id, k) ∈ l ↔ ∃ it, items !! k = Some it ∧ ci_lru it = Some id;
  lr_file : ∀ k it, items !! k = Some it → ci_file it = true → is_Some (ci_lru it);
}.

Definition bodyWeight (it : cacheItem) : N := if ci_file it then 1 else 0.
Definition mappingWeight (it : cacheItem) : N := if ci_file it then 0 else 1.

(** Identities in use are below the next one, and heap entries belong to one
    item. *)
Record idsOk (items : gmap string cacheItem) (next : N) : Prop := {
  id_lru : ∀ k it id, items !! k = Some it → ci_lru it = Some id → id < next;
  id_exp : ∀ k it id, items !! k = Some it → ci_expiration it = Some id → id < next;
  id_inj : ∀ k k' it it' id, items !! k = Some it → items !! k' = Some it' →
    ci_expiration it = Some id → ci_expiration it' = Some id → k = k';
}.

Section Commit.
Context {C : MappingCodec} {CR : MappingCodecRoundtrip} {G : GoRange}.
Context (owner : string → string).

Record memOk (p : provider) (lost : gset string) : Prop := {
  mm_items : ∀ k it, p_items p !! k = Some it → ItemOk owner k it;
  mm_expiry : expiryOk (p_items p) (p_expirations p) lost;
  mm_lru : lruOk (p_items p) (p_lru p);
  mm_ids : idsOk (p_items p) (p_nextId p);
  mm_body : p_bodyEntries p = map_sum bodyWeight (p_items p);
  mm_mapping : p_mappingEntries p = map_sum mappingWeight (p_items p);
  mm_rev : ∀ v mk, mk ∈ default ∅ (p_variantMappings p !! v) ↔
    ∃ it, p_items p !! mk = Some it ∧ v ∈ mappingVariants it;
}.

(** ** Reverse index *)

(** An empty text has no variants, so the guards on it are immaterial. *)
Lemma mappingVariants_empty key it : ItemOk owner key it → ci_file it = true ∨ ci_value it = "" →
  mappingVariants it = ∅.
Proof.
  intros Hok [Hf|Hv]; [by apply mappingVariants_file|].
  destruct (ci_file it) eqn:Hf; [by apply mappingVariants_file|].
  rewrite mappingVariants_decoded; [|done|by apply (io_cached owner key it)].
  rewrite Hv, decode_empty. done.
Qed.

Lemma removeReverse_eq p mk it :
  ItemOk owner mk it →
  ∃ v, removeReverseMappingLocked p mk it = setVariants p v
    ∧ ∀ w, default ∅ (v !! w) = if decide (w ∈ mappingVariants it)
                                then default ∅ (p_variantMappings p !! w) ∖ {[mk]}
                                else default ∅ (p_variantMappings p !! w).
Proof.
  intros Hok. unfold removeReverseMappingLocked.
  destruct (ci_file it || bool_decide (ci_value it = "")) eqn:Hg.
  { exists (p_variantMappings p). split; [by destruct p|]. intros w.
    rewrite (mappingVariants_empty mk it Hok); [done|].
    apply orb_true_iff in Hg as [?|?%bool_decide_eq_true]; auto. }
  assert (∀ vs p0, ∃ v, foldl (λ p variant,
      let keys := default ∅ (p_variantMappings p !! variant) ∖ {[mk]} in
      setVariants p (if bool_decide (keys = ∅) then delete variant (p_variantMappings p)
                     else <[variant := keys]> (p_variantMappings p))) p0 vs = setVariants p0 v
    ∧ ∀ w, default ∅ (v !! w) = if decide (w ∈ vs) then default ∅ (p_variantMappings p0 !! w) ∖ {[mk]}
                                else default ∅ (p_variantMappings p0 !! w)) as Hfold.
  { induction vs as [|x vs IH]; intros p0; cbn [foldl].
    - exists (p_variantMappings p0). split; [by destruct p0|done].
    - destruct (IH (setVariants p0 (if bool_decide (default ∅ (p_variantMappings p0 !! x) ∖ {[mk]} = ∅)
        then delete x (p_variantMappings p0)
        else <[x := default ∅ (p_variantMappings p0 !! x) ∖ {[mk]}]> (p_variantMappings p0)))) as (v & Hv & Hw).
      exists v. split; [exact Hv|]. intros w. rewrite Hw. cbn [p_variantMappings setVariants].
      assert (default ∅ ((if bool_decide (default ∅ (p_variantMappings p0 !! x) ∖ {[mk]} = ∅)
        then delete x (p_variantMappings p0)
        else <[x := default ∅ (p_variantMappings p0 !! x) ∖ {[mk]}]> (p_variantMappings p0)) !! w)
        = if decide (w = x) then default ∅ (p_variantMappings p0 !! x) ∖ {[mk]}
          else default ∅ (p_variantMappings p0 !! w)) as ->.
      { case_bool_decide as He; destruct (decide (w = x)) as [->|Hx].
        - rewrite lookup_delete_eq. by rewrite He.
        - by rewrite lookup_delete_ne.
        - by rewrite lookup_insert_eq.
        - by rewrite lookup_insert_ne. }
      repeat case_decide; subst; set_solver. }
  destruct (Hfold (rangeSet (mappingVariants it)) p) as (v & Hv & Hw). exists v. split; [exact Hv|].
  intros w. rewrite Hw. repeat case_decide; try done; exfalso; rewrite rangeSet_elem in *; done.
Qed.

Lemma addReverse_eq p mk it :
  ItemOk owner mk it →
  ∃ v, addReverseMappingLocked p mk it = setVariants p v
    ∧ ∀ w, default ∅ (v !! w) = if decide (w ∈ mappingVariants it)
                                then {[mk]} ∪ default ∅ (p_variantMappings p !! w)
                                else default ∅ (p_variantMappings p !! w).
Proof.
  intros Hok. unfold addReverseMappingLocked.
  destruct (ci_file it || bool_decide (ci_value it = "")) eqn:Hg.
  { exists (p_variantMappings p). split; [by destruct p|]. intros w.
    rewrite (mappingVariants_empty mk it Hok); [done|].
    apply orb_true_iff in Hg as [?|?%bool_decide_eq_true]; auto. }
  assert (∀ vs p0, ∃ v, foldl (λ p variant,
      setVariants p (<[variant := {[mk]} ∪ default ∅ (p_variantMappings p !! variant)]>
                       (p_variantMappings p))) p0 vs = setVariants p0 v
    ∧ ∀ w, default ∅ (v !! w) = if decide (w ∈ vs) then {[mk]} ∪ default ∅ (p_variantMappings p0 !! w)
                                else default ∅ (p_variantMappings p0 !! w)) as Hfold.
  { induction vs as [|x vs IH]; intros p0; cbn [foldl].
    - exists (p_variantMappings p0). split; [by destruct p0|done].
    - destruct (IH (setVariants p0 (<[x := {[mk]} ∪ default ∅ (p_variantMappings p0 !! x)]>
        (p_variantMappings p0)))) as (v & Hv & Hw).
      exists v. split; [exact Hv|]. intros w. rewrite Hw. cbn [p_variantMappings setVariants].
      destruct (decide (w = x)) as [->|Hne]; [rewrite lookup_insert_eq|rewrite lookup_insert_ne by done];
        simpl default; repeat case_decide; set_solver. }
  destruct (Hfold (rangeSet (mappingVariants it)) p) as (v & Hv & Hw). exists v. split; [exact Hv|].
  intros w. rewrite Hw. repeat case_decide; try done; exfalso; rewrite rangeSet_elem in *; done.
Qed.

(** ** Removing an item's LRU element and heap entry *)

Lemma entryIndex_Some h id i :
  heapOk h → entryIndex h id = Some i → ∃ e, h !! i = Some e ∧ ee_id e = id.
Proof.
  intros [_ Hidx] Hi. unfold entryIndex in Hi.
  destruct (list_find _ h) as [[j e]|] eqn:Hf; [|done].
  apply list_find_Some in Hf as (Hj & Hid & _). pose proof (Hidx j e Hj) as Hje.
  case_match; [|done]. simplify_eq. exists e. split; [|done]. rewrite Hje. by rewrite Nat2Z.id.
Qed.
Lemma entryIndex_None h id : heapOk h → entryIndex h id = None → ∀ e, e ∈ h → ee_id e ≠ id.
Proof.
  intros [_ Hidx] Hi e He Hid. unfold entryIndex in Hi.
  destruct (list_find _ h) as [[j x]|] eqn:Hf.
  - apply list_find_Some in Hf as (Hj & Hx & _). pose proof (Hidx j x Hj) as Hjx.
    case_match eqn:Hle; [done|]. apply Z.leb_gt in Hle. lia.
  - apply list_find_None in Hf. rewrite list.Forall_forall in Hf. by apply (Hf e).
Qed.

Lemma expiry_remove items next h lost k old :
  expiryOk items h lost → idsOk items next → items !! k = Some old →
  expiryOk (delete k items)
    match ci_expiration old ≫= entryIndex h with Some i => (heapRemove h i).1 | None => h end (lost ∖ {[k]}).
Proof.
  intros [Hheap Hnd Hent Hitem] Hids Hold.
  destruct (ci_expiration old ≫= entryIndex h) as [i|] eqn:Hi.
  - apply bind_Some in Hi as (id & Hexp & Hi). apply entryIndex_Some in Hi as (x & Hx & Hid); [|done].
    destruct (heapRemove_ok h i x Hheap Hx) as (e & He & Hok & Hs & _ & Hex).
    assert (ee_id e = id ∧ ee_key e = ee_key x) as [Hide Hkeye].
    { destruct e, x. simpl in *. by simplify_eq. }
    assert (ee_key x = k) as Hkx.
    { destruct (Hent x (list_elem_of_lookup_2 _ _ _ Hx)) as (itx & Hitx & Hexpx & _).
      eapply (id_inj _ _ Hids); [exact Hitx|exact Hold| |exact Hexp]. by rewrite Hexpx, Hid. }
    pose proof (sameEntries_forall (entryFor items) _ _ (entryFor_index items) Hs Hent) as Hall.
    rewrite <- (sameEntries_ids _ _ Hs), fmap_cons in Hnd. apply list.NoDup_cons in Hnd as [Hnew Hnd].
    assert (∀ y, y ∈ (heapRemove h i).1 → ee_key y ≠ k) as Hother.
    { intros y Hy Hyk. apply Hnew. rewrite list_elem_of_fmap. exists y. split; [|done].
      apply (entryFor_inj items); [apply Hall; set_solver|apply Hall; set_solver|]. congruence. }
    split; [done|done| |].
    + intros y Hy. destruct (Hall y ltac:(set_solver)) as (ity & Hity & Hrest).
      exists ity. split; [|done]. rewrite lookup_delete_ne; [done|]. apply not_eq_sym. by apply Hother.
    + intros k' it Hk' Hz Hl. apply lookup_delete_Some in Hk' as [Hne Hk'].
      destruct (Hitem k' it Hk' Hz ltac:(set_solver)) as (y & Hy & Hyk).
      destruct (sameEntries_exists (λ e, ee_key e = k') _ _ (λ _ _, iff_refl _) Hs (ex_intro _ y (conj Hy Hyk)))
        as (z & [->|Hz']%elem_of_cons & Hzk); [congruence|]. eauto.
  - assert (∀ y, y ∈ h → ee_key y ≠ k) as Hother.
    { intros y Hy Hyk. destruct (Hent y Hy) as (ity & Hity & Hexpy & _). rewrite Hyk, Hold in Hity. simplify_eq.
      rewrite Hexpy in Hi. simpl in Hi. by apply (entryIndex_None h (ee_id y) Hheap Hi y Hy). }
    split; [done|done| |].
    + intros y Hy. destruct (Hent y Hy) as (ity & Hity & Hrest). exists ity. split; [|done].
      rewrite lookup_delete_ne; [done|]. apply not_eq_sym. by apply Hother.
    + intros k' it [Hne Hk']%lookup_delete_Some Hz Hl. apply (Hitem k' it); set_solver.
Qed.

Lemma lru_remove items l k old :
  lruOk items l → items !! k = Some old →
  lruOk (delete k items) match ci_lru old with Some id => filter (λ x, x.1 ≠ id) l | None => l end.
Proof.
  intros [Hnd Hel Hfile] Hold. destruct (ci_lru old) as [id|] eqn:Hl.
  - assert ((id, k) ∈ l) as Hin by (apply Hel; eauto). split.
    + assert ((filter (λ x : N * string, x.1 ≠ id) l).*1 = filter (λ i, i ≠ id) l.*1) as ->.
      { clear. induction l as [|[i k] l IH]; [done|].
        rewrite fmap_cons, !filter_cons. simpl. case_decide; simpl; [by f_equal|done]. }
      by apply list.NoDup_filter.
    + intros i k'. rewrite list_elem_of_filter. simpl. rewrite Hel. setoid_rewrite lookup_delete_Some. split.
      * intros (Hne & it & Hit & Hi). exists it. split; [|done]. split; [|done].
        intros <-. congruence.
      * intros (it & [Hne Hit] & Hi). split; [|eauto]. intros ->.
        assert ((id, k') ∈ l) as Hin' by (apply Hel; eauto).
        apply Hne. revert Hnd Hin Hin'. clear. intros Hnd Hin Hin'.
        apply list_elem_of_lookup in Hin as [a Ha], Hin' as [b Hb].
        assert (a = b) as ->; [|congruence].
        eapply NoDup_lookup; [exact Hnd| |]; rewrite list_lookup_fmap; [by rewrite Ha|by rewrite Hb].
    + intros k' it [_ Hit]%lookup_delete_Some. by apply (Hfile k').
  - split; [done| |].
    + intros i k'. rewrite Hel. setoid_rewrite lookup_delete_Some. split; [|naive_solver].
      intros (it & Hit & Hi). exists it. split; [|done]. split; [|done]. intros <-. congruence.
    + intros k' it [_ Hit]%lookup_delete_Some. by apply (Hfile k').
Qed.

Lemma ids_remove items next k : idsOk items next → idsOk (delete k items) next.
Proof.
  intros [Hl He Hi]. split.
  - intros k' it id [_ Hk]%lookup_delete_Some. by apply (Hl k').
  - intros k' it id [_ Hk]%lookup_delete_Some. by apply (He k').
  - intros k1 k2 it1 it2 id [_ H1]%lookup_delete_Some [_ H2]%lookup_delete_Some. by apply Hi.
Qed.

(** Forgetting the old item of a key. *)
Lemma forget_ok p lost k old :
  memOk p lost → p_items p !! k = Some old →
  let p1 := removeItemAccountingLocked (removeReverseMappingLocked p k old) old in
  memOk (setItems p1 (delete k (p_items p1))) (lost ∖ {[k]})
  ∧ p_items p1 = p_items p ∧ p_groups p1 = p_groups p ∧ p_itemGroups p1 = p_itemGroups p
  ∧ p_index p1 = p_index p.
Proof.
  intros Hm Hold. destruct (removeReverse_eq p k old (mm_items _ _ Hm k old Hold)) as (v & -> & Hv).
  intros p1. pose proof Hm as [Hit Hex Hlru Hids Hbody Hmap Hrev].
  pose proof (expiry_remove _ _ _ _ k old Hex Hids Hold) as Hex'.
  pose proof (lru_remove _ _ k old Hlru Hold) as Hlru'.
  assert (p_items p1 = p_items p ∧ p_groups p1 = p_groups p ∧ p_itemGroups p1 = p_itemGroups p
    ∧ p_index p1 = p_index p ∧ p_variantMappings p1 = v ∧ p_nextId p1 = p_nextId p
    ∧ p_bodyEntries p1 = (if ci_file old then N.pred (p_bodyEntries p) else p_bodyEntries p)
    ∧ p_mappingEntries p1 = (if ci_file old then p_mappingEntries p else N.pred (p_mappingEntries p))
    ∧ p_expirations p1 = match ci_expiration old ≫= entryIndex (p_expirations p) with
                         | Some i => (heapRemove (p_expirations p) i).1 | None => p_expirations p end
    ∧ p_lru p1 = match ci_lru old with Some id => filter (λ x, x.1 ≠ id) (p_lru p) | None => p_lru p end)
    as (Hi & Hg & Hig & Hix & Hvm & Hni & Hb & Hmp & He & Hl).
  { unfold p1, removeItemAccountingLocked. cbv zeta.
    destruct (ci_lru old), (ci_file old); simpl; destruct (ci_expiration old ≫= _); done. }
  clearbody p1. split; [|done]. split; simpl; rewrite ?Hi, ?He, ?Hl, ?Hni, ?Hvm, ?Hb, ?Hmp.
  - intros k' it [_ Hk]%lookup_delete_Some. by apply Hit.
  - done.
  - done.
  - by apply ids_remove.
  - pose proof (map_sum_delete bodyWeight _ _ _ Hold) as Hsum. rewrite Hbody.
    assert (bodyWeight old = if ci_file old then 1 else 0) as Hw by done.
    destruct (ci_file old); lia.
  - pose proof (map_sum_delete mappingWeight _ _ _ Hold) as Hsum. rewrite Hmap.
    assert (mappingWeight old = if ci_file old then 0 else 1) as Hw by done.
    destruct (ci_file old); lia.
  - intros w mk. rewrite Hv. setoid_rewrite lookup_delete_Some.
    destruct (decide (w ∈ mappingVariants old)) as [Hin|Hin];
      rewrite ?elem_of_difference, ?elem_of_singleton, Hrev; [naive_solver|].
    split; [|naive_solver]. intros (it & Hk & Hw). exists it. split; [|done]. split; [|done].
    intros <-. congruence.
Qed.

(** ** Adding an item *)

(** An item up to the identities of its LRU element and heap entry. *)
Definition eraseIds (it : cacheItem) : cacheItem := setLru (setExpiration it None) None.

(** The second half of [applyItem]. *)
Definition addItem (p1 : provider) (key : string) (item : cacheItem) : provider :=
  let '(p2, item2) :=
    if ci_file item then
      (setNextId (setLruList p1 (p_lru p1 ++ [(p_nextId p1, key)])) (p_nextId p1 + 1),
       setLru item (Some (p_nextId p1)))
    else (p1, item) in
  let '(p3, item3) :=
    if isZeroTime (ci_expiresAt item2) then (p2, item2)
    else
      (setNextId (setExpirations p2
         (heapPush (p_expirations p2)
            (ExpirationEntry (p_nextId p2) (ci_expiresAt item2) key (ci_generation item2) (-1))))
         (p_nextId p2 + 1),
       setExpiration item2 (Some (p_nextId p2))) in
  let p4 := setItems p3 (<[key := item3]> (p_items p3)) in
  addItemAccountingLocked (addReverseMappingLocked p4 key item3) item3.

Lemma addItem_delete p key item : addItem (setItems p (delete key (p_items p))) key item = addItem p key item.
Proof.
  unfold addItem. destruct (ci_file item); simpl; destruct (isZeroTime (ci_expiresAt item)); simpl;
    unfold setNextId, setLruList, setExpirations, setItems; simpl; rewrite insert_delete_eq; done.
Qed.

Lemma lru_add items next l k x :
  lruOk items l → idsOk items next → items !! k = None →
  (if ci_file x then ci_lru x = Some next else ci_lru x = None) →
  lruOk (<[k := x]> items) (if ci_file x then l ++ [(next, k)] else l).
Proof.
  intros [Hnd Hel Hfile] Hids Hk Hx.
  assert (next ∉ l.*1) as Hfresh.
  { intros ([i k'] & Heq & Hin)%list_elem_of_fmap. simpl in Heq. subst i.
    apply Hel in Hin as (it & Hit & Hl). pose proof (id_lru _ _ Hids k' it next Hit Hl). lia. }
  destruct (ci_file x) eqn:Hf.
  - split.
    + rewrite fmap_app. simpl. apply list.NoDup_app. split; [done|]. split; [set_solver|apply NoDup_singleton].
    + intros i k'. rewrite elem_of_app, list_elem_of_singleton, Hel.
      setoid_rewrite lookup_insert_Some. split.
      * intros [(it & Hit & Hl)|[= -> ->]]; [|eauto]. exists it. split; [|done]. right. split; [|done]. congruence.
      * intros (it & [[<- <-]|[Hne Hit]] & Hl); [right; congruence|eauto].
    + intros k' it [[<- <-]|[_ Hit]]%lookup_insert_Some; [rewrite Hx; eauto|by apply (Hfile k')].
  - split; [done| |].
    + intros i k'. rewrite Hel. setoid_rewrite lookup_insert_Some. split.
      * intros (it & Hit & Hl). exists it. split; [|done]. right. split; [|done]. congruence.
      * intros (it & [[<- <-]|[Hne Hit]] & Hl); [congruence|eauto].
    + intros k' it [[<- <-]|[_ Hit]]%lookup_insert_Some; [congruence|by apply (Hfile k')].
Qed.

Lemma expiry_insert items h lost k x :
  expiryOk items h lost → items !! k = None → expiryOk (<[k := x]> items) h ({[k]} ∪ lost).
Proof.
  intros [Hheap Hnd Hent Hitem] Hk. split; [done|done| |].
  - intros e He. destruct (Hent e He) as (it & Hit & Hrest). exists it. split; [|done].
    rewrite lookup_insert_ne; [done|]. congruence.
  - intros k' it [[<- <-]|[_ Hit]]%lookup_insert_Some Hz Hl; [set_solver|].
    apply (Hitem k' it); set_solver.
Qed.

Lemma expiry_add items next h lost k x :
  expiryOk items h lost → idsOk items next → items !! k = None → k ∉ lost →
  (if isZeroTime (ci_expiresAt x) then True else ci_expiration x = Some next) →
  expiryOk (<[k := x]> items)
    (if isZeroTime (ci_expiresAt x) then h
     else heapPush h (ExpirationEntry next (ci_expiresAt x) k (ci_generation x) (-1))) lost.
Proof.
  intros Hex Hids Hk Hl Hx. pose proof (expiry_insert items h lost k x Hex Hk) as Hins.
  destruct (isZeroTime (ci_expiresAt x)) eqn:Hz.
  - destruct Hins as [Hheap Hnd Hent Hitem]. split; [done|done|done|].
    intros k' it Hit Hz' Hl'. apply (Hitem k' it Hit Hz'). intros [->%elem_of_singleton|?]%elem_of_union; [|done].
    rewrite lookup_insert_eq in Hit. congruence.
  - assert (lost = ({[k]} ∪ lost) ∖ {[k]}) as -> by set_solver.
    apply (expiry_push _ _ _ (ExpirationEntry next (ci_expiresAt x) k (ci_generation x) (-1))); [done| |].
    + exists x. simpl. rewrite lookup_insert_eq. done.
    + intros (e & Heq & He)%list_elem_of_fmap. simpl in Heq.
      destruct (ex_entry _ _ _ Hex e He) as (it & Hit & Hid & _).
      pose proof (id_exp _ _ Hids _ _ _ Hit Hid). lia.
Qed.

Lemma ids_add items next next' k x :
  idsOk items next → items !! k = None → next ≤ next' →
  (∀ id, ci_lru x = Some id → id < next') →
  (∀ id, ci_expiration x = Some id → next ≤ id < next') →
  idsOk (<[k := x]> items) next'.
Proof.
  intros [Hl He Hi] Hk Hle Hxl Hxe. split.
  - intros k' it id [[<- <-]|[_ Hit]]%lookup_insert_Some Hid; [auto|]. pose proof (Hl k' it id Hit Hid). lia.
  - intros k' it id [[<- <-]|[_ Hit]]%lookup_insert_Some Hid; [by apply Hxe|]. pose proof (He k' it id Hit Hid). lia.
  - intros k1 k2 i1 i2 id [[<- <-]|[_ H1]]%lookup_insert_Some [[<- <-]|[_ H2]]%lookup_insert_Some E1 E2.
    + done.
    + apply Hxe in E1. pose proof (He _ _ _ H2 E2). lia.
    + apply Hxe in E2. pose proof (He _ _ _ H1 E1). lia.
    + by eapply Hi.
Qed.

Lemma addItem_ok p lost k it :
  memOk p lost → p_items p !! k = None → k ∉ lost → ItemOk owner k it →
  let p' := addItem p k it in
  memOk p' lost
  ∧ (∃ x, p_items p' = <[k := x]> (p_items p) ∧ eraseIds x = eraseIds it)
  ∧ p_groups p' = p_groups p ∧ p_itemGroups p' = p_itemGroups p ∧ p_index p' = p_index p.
Proof.
  intros Hm Hk Hlost Hit.
  set (n := p_nextId p). set (n2 := if ci_file it then n + 1 else n).
  set (it2 := if ci_file it then setLru it (Some n) else it).
  set (x := if isZeroTime (ci_expiresAt it) then it2 else setExpiration it2 (Some n2)).
  assert (ci_file x = ci_file it ∧ ci_expiresAt x = ci_expiresAt it ∧ ci_generation x = ci_generation it
    ∧ ci_lru x = (if ci_file it then Some n else ci_lru it)
    ∧ ci_expiration x = (if isZeroTime (ci_expiresAt it) then ci_expiration it else Some n2)
    ∧ mappingVariants x = mappingVariants it ∧ eraseIds x = eraseIds it ∧ ItemOk owner k x)
    as (Hxf & Hxe & Hxg & Hxl & Hxx & Hxv & Hxer & Hxok).
  { pose proof Hit as []. unfold x, it2.
    destruct (ci_file it) eqn:Hf, (isZeroTime (ci_expiresAt it)) eqn:Hz; (do 7 (split; [done|]));
      split; simpl; rewrite ?Hf, ?Hz; try done; auto. }
  destruct (addReverse_eq (setItems (setNextId (setExpirations (setLruList p
      (if ci_file it then p_lru p ++ [(n, k)] else p_lru p))
      (if isZeroTime (ci_expiresAt it) then p_expirations p
       else heapPush (p_expirations p) (ExpirationEntry n2 (ci_expiresAt it) k (ci_generation it) (-1))))
      (if isZeroTime (ci_expiresAt it) then n2 else n2 + 1)) (<[k := x]> (p_items p))) k x Hxok)
    as (v & Hadd & Hv). cbn [p_variantMappings setItems setNextId setExpirations setLruList] in Hv.
  assert (addItem p k it = addItemAccountingLocked (addReverseMappingLocked
      (setItems (setNextId (setExpirations (setLruList p
      (if ci_file it then p_lru p ++ [(n, k)] else p_lru p))
      (if isZeroTime (ci_expiresAt it) then p_expirations p
       else heapPush (p_expirations p) (ExpirationEntry n2 (ci_expiresAt it) k (ci_generation it) (-1))))
      (if isZeroTime (ci_expiresAt it) then n2 else n2 + 1)) (<[k := x]> (p_items p))) k x) x) as ->.
  { unfold addItem, x, n2, it2, n. destruct p.
    destruct (ci_file it) eqn:Hf; cbn [ci_expiresAt setLru]; destruct (isZeroTime (ci_expiresAt it)); done. }
  rewrite Hadd. pose proof Hm as [Hitems Hex Hlru Hids Hbody Hmap Hrev]. pose proof Hit as [].
  unfold addItemAccountingLocked. rewrite Hxf. cbv zeta.
  split; [|by destruct (ci_file it); (split; [by exists x|])].
  assert (idsOk (<[k := x]> (p_items p)) (if isZeroTime (ci_expiresAt it) then n2 else n2 + 1)) as Hids'.
  { apply (ids_add _ n); [done|done| | |].
    - unfold n2. destruct (ci_file it), (isZeroTime _); lia.
    - intros id. rewrite Hxl. unfold n2. destruct (ci_file it) eqn:Hf, (isZeroTime (ci_expiresAt it));
        rewrite ?io_lru by done; intros [= <-]; lia.
    - intros id. rewrite Hxx. unfold n2. destruct (isZeroTime (ci_expiresAt it)) eqn:Hz;
        rewrite ?io_noexp by done; intros [= <-]. destruct (ci_file it); lia. }
  assert (lruOk (<[k := x]> (p_items p)) (if ci_file it then p_lru p ++ [(n, k)] else p_lru p)) as Hlru'.
  { rewrite <- Hxf. apply (lru_add _ n); [done|done|done|]. rewrite Hxf, Hxl. destruct (ci_file it) eqn:Hf; auto. }
  assert (idsOk (p_items p) n2) as Hids2.
  { destruct Hids as [A B D]. unfold n2. split; [| |done].
    - intros k' i id H1 H2. specialize (A k' i id H1 H2). unfold n. destruct (ci_file it); lia.
    - intros k' i id H1 H2. specialize (B k' i id H1 H2). unfold n. destruct (ci_file it); lia. }
  pose proof (expiry_add _ n2 _ _ k x Hex Hids2 Hk Hlost) as Hex'. rewrite Hxe, Hxg, Hxx in Hex'.
  assert (∀ w mk, mk ∈ default ∅ (v !! w) ↔
    ∃ i, <[k := x]> (p_items p) !! mk = Some i ∧ w ∈ mappingVariants i) as Hrev'.
  { intros w mk. rewrite Hv. setoid_rewrite lookup_insert_Some.
    destruct (decide (w ∈ mappingVariants x)) as [Hin|Hin]; rewrite ?elem_of_union, ?elem_of_singleton, Hrev.
    - split; [intros [->|(i & Hi & Hw)]|intros (i & [[<- <-]|[Hne Hi]] & Hw)]; eauto.
      exists i. split; [|done]. right. split; [congruence|done].
    - split; [intros (i & Hi & Hw)|intros (i & [[<- <-]|[Hne Hi]] & Hw)]; [|done|eauto].
      exists i. split; [|done]. right. split; [congruence|done]. }
  assert (∀ k' i, <[k := x]> (p_items p) !! k' = Some i → ItemOk owner k' i) as Hit'.
  { intros k' i [[<- <-]|[_ Hi]]%lookup_insert_Some; [done|by apply Hitems]. }
  pose proof (map_sum_insert_new bodyWeight _ _ x Hk) as HB.
  pose proof (map_sum_insert_new mappingWeight _ _ x Hk) as HM.
  unfold bodyWeight in HB at 2. unfold mappingWeight in HM at 2. rewrite Hxf in HB, HM.
  assert (expiryOk (<[k := x]> (p_items p))
      (if isZeroTime (ci_expiresAt it) then p_expirations p
       else heapPush (p_expirations p) (ExpirationEntry n2 (ci_expiresAt it) k (ci_generation it) (-1))) lost) as Hex''.
  { apply Hex'. destruct (isZeroTime (ci_expiresAt it)); done. }
  clear Hex'. clearbody x n2 it2. destruct (ci_file it); split; simpl; try done; lia.
Qed.

(** ** [applyBatchLocked] *)

Lemma forget_absent p lost k :
  memOk p lost → p_items p !! k = None → memOk p (lost ∖ {[k]}).
Proof.
  intros [? [? ? ? Hitem] ? ? ? ? ?] Hk. split; try done. split; try done.
  intros k' it Hit Hz Hl. apply (Hitem k' it Hit Hz). set_solver.
Qed.

(** One staged item: memory keeps its invariant and holds the staged item. *)
Lemma applyItem_ok p lost k staged :
  memOk p lost → (∀ it, staged = Some it → ItemOk owner k it) →
  let p' := applyItem p k staged in
  memOk p' (lost ∖ {[k]})
  ∧ (∀ j, eraseIds <$> p_items p' !! j = eraseIds <$> (if decide (j = k) then staged else p_items p !! j))
  ∧ p_groups p' = p_groups p ∧ p_itemGroups p' = p_itemGroups p ∧ p_index p' = p_index p.
Proof.
  intros Hm Hst.
  assert (∃ p1, applyItem p k staged = match staged with
                 | None => setItems p1 (delete k (p_items p1))
                 | Some it => addItem p1 k it
                 end
    ∧ memOk (setItems p1 (delete k (p_items p1))) (lost ∖ {[k]})
    ∧ p_items p1 = p_items p ∧ p_groups p1 = p_groups p ∧ p_itemGroups p1 = p_itemGroups p
    ∧ p_index p1 = p_index p) as (p1 & Heq & Hm1 & Hi & Hg & Hig & Hix).
  { unfold applyItem. destruct (p_items p !! k) as [old|] eqn:Hold.
    - eexists. split; [by destruct staged|]. by apply forget_ok.
    - exists p. split; [by destruct staged|]. split; [|done]. rewrite delete_id by done.
      destruct p. by apply forget_absent. }
  rewrite Heq. destruct staged as [it|].
  - destruct (addItem_ok (setItems p1 (delete k (p_items p1))) (lost ∖ {[k]}) k it) as (Hm2 & (x & Hx & He) & H1 & H2 & H3);
      [done|apply lookup_delete_eq|set_solver|by apply Hst|].
    rewrite addItem_delete in Hm2, Hx, H1, H2, H3. split; [done|]. split; [|rewrite H1, H2, H3; done].
    intros j. rewrite Hx. simpl. rewrite Hi. case_decide; subst.
    + rewrite lookup_insert_eq. simpl. by rewrite He.
    + by rewrite lookup_insert_ne, lookup_delete_ne.
  - split; [done|]. split; [|done]. intros j. simpl. rewrite Hi. case_decide; subst.
    + by rewrite lookup_delete_eq.
    + by rewrite lookup_delete_ne.
Qed.

Lemma applyItems_ok l p lost :
  memOk p lost → (∀ k it, (k, Some it) ∈ l → ItemOk owner k it) →
  NoDup l.*1 →
  let p' := foldl (λ p '(key, staged), applyItem p key staged) p l in
  memOk p' (lost ∖ list_to_set l.*1)
  ∧ (∀ j, eraseIds <$> p_items p' !! j
          = eraseIds <$> match (list_to_map l : gmap string (option cacheItem)) !! j with
                         | Some staged => staged | None => p_items p !! j end)
  ∧ p_groups p' = p_groups p ∧ p_itemGroups p' = p_itemGroups p ∧ p_index p' = p_index p.
Proof.
  revert p lost. induction l as [|[k staged] l IH]; intros p lost Hm Hst Hnd; cbn [foldl].
  { split; [|done]. simpl. by rewrite difference_empty_L. }
  rewrite fmap_cons in Hnd. apply list.NoDup_cons in Hnd as [Hnew Hnd]. simpl in Hnew.
  destruct (applyItem_ok p lost k staged Hm) as (Hm1 & Hi1 & Hg1 & Hig1 & Hx1).
  { intros it ->. apply Hst. set_solver. }
  destruct (IH (applyItem p k staged) _ Hm1) as (Hm2 & Hi2 & Hg2 & Hig2 & Hx2); [set_solver|done|].
  split; [|split].
  - assert (lost ∖ list_to_set ((k, staged) :: l).*1 = lost ∖ {[k]} ∖ list_to_set l.*1) as ->; [|done].
    rewrite fmap_cons, list_to_set_cons. set_solver.
  - intros j. rewrite Hi2. simpl. destruct (decide (j = k)) as [->|Hne].
    + rewrite lookup_insert_eq, (not_elem_of_list_to_map_1 l k Hnew), Hi1, decide_True by done. done.
    + rewrite lookup_insert_ne by done. destruct (_ !! j); [done|]. rewrite Hi1, decide_False by done. done.
  - by rewrite Hg2, Hig2, Hx2.
Qed.

(** One staged group: the two group tables stay inverse. *)
Definition groupsOk (p : provider) : Prop :=
  ∀ g k, k ∈ default ∅ (p_groups p !! g) ↔ g ∈ default ∅ (p_itemGroups p !! k).

Lemma applyGroup_ok p group keys :
  groupsOk p →
  ∃ gs ig, applyGroup p group keys = setGroups p gs ig ∧ groupsOk (applyGroup p group keys)
    ∧ ∀ g, default ∅ (gs !! g) = if decide (g = group) then keys else default ∅ (p_groups p !! g).
Proof.
  intros Hg. unfold applyGroup. set (ig1 := foldl _ _ _).
  assert (∀ k, default ∅ (ig1 !! k) = default ∅ (p_itemGroups p !! k) ∖ {[group]}) as Hig1.
  { assert (∀ ks ig k, default ∅ (foldl (λ ig key,
      let gs := default ∅ (ig !! key) ∖ {[group]} in
      if bool_decide (gs = ∅) then delete key ig else <[key := gs]> ig) ig ks !! k)
      = if decide (k ∈ ks) then default ∅ (ig !! k) ∖ {[group]}
        else default ∅ ((ig : gmap string (gset string)) !! k)) as Hf.
    { induction ks as [|x ks IH]; intros ig k; cbn [foldl]; [done|]. rewrite IH. cbv zeta.
      assert (default ∅ ((if bool_decide (default ∅ (ig !! x) ∖ {[group]} = ∅) then delete x ig
          else <[x := default ∅ (ig !! x) ∖ {[group]}]> ig) !! k)
        = if decide (k = x) then default ∅ (ig !! k) ∖ {[group]} else default ∅ (ig !! k)) as ->.
      { case_bool_decide as He; destruct (decide (k = x)) as [->|Hx].
        - by rewrite lookup_delete_eq, He.
        - by rewrite lookup_delete_ne.
        - by rewrite lookup_insert_eq.
        - by rewrite lookup_insert_ne. }
      repeat case_decide; subst; set_solver. }
    intros k. unfold ig1. rewrite Hf. destruct (decide _) as [Hin|Hin]; [done|].
    rewrite rangeSet_elem in Hin. pose proof (Hg group k). set_solver. }
  case_bool_decide as Hk.
  - exists (delete group (p_groups p)), ig1. split; [done|].
    assert (∀ g, default ∅ (delete group (p_groups p) !! g)
      = if decide (g = group) then keys else default ∅ (p_groups p !! g)) as Hgs.
    { intros g. case_decide; subst; [by rewrite lookup_delete_eq|by rewrite lookup_delete_ne]. }
    split; [|done]. intros g k. simpl. rewrite Hgs, Hig1. specialize (Hg g k). case_decide; set_solver.
  - set (ig2 := foldl _ _ _).
    assert (∀ k, default ∅ (ig2 !! k) = if decide (k ∈ keys) then {[group]} ∪ default ∅ (ig1 !! k)
                                        else default ∅ (ig1 !! k)) as Hig2.
    { assert (∀ ks ig k, default ∅ (foldl (λ ig key, <[key := {[group]} ∪ default ∅ (ig !! key)]> ig) ig ks !! k)
        = if decide (k ∈ ks) then {[group]} ∪ default ∅ (ig !! k)
          else default ∅ ((ig : gmap string (gset string)) !! k)) as Hf.
      { induction ks as [|x ks IH]; intros ig k; cbn [foldl]; [done|]. rewrite IH.
        destruct (decide (k = x)) as [->|Hx]; [rewrite lookup_insert_eq|rewrite lookup_insert_ne by done];
          simpl default; repeat case_decide; set_solver. }
      intros k. unfold ig2. rewrite Hf.
      repeat case_decide; try done; exfalso; rewrite rangeSet_elem in *; done. }
    exists (<[group := keys]> (p_groups p)), ig2. split; [done|].
    assert (∀ g, default ∅ (<[group := keys]> (p_groups p) !! g)
      = if decide (g = group) then keys else default ∅ (p_groups p !! g)) as Hgs.
    { intros g. case_decide; subst; [by rewrite lookup_insert_eq|by rewrite lookup_insert_ne]. }
    split; [|done]. intros g k. simpl. rewrite Hgs, Hig2, Hig1. specialize (Hg g k).
    repeat case_decide; subst; set_solver.
Qed.

Lemma applyGroups_ok l p :
  groupsOk p → NoDup l.*1 →
  ∃ gs ig, foldl (λ p '(group, keys), applyGroup p group keys) p l = setGroups p gs ig
    ∧ groupsOk (setGroups p gs ig)
    ∧ ∀ g, default ∅ (gs !! g) = match (list_to_map l : gmap string (gset string)) !! g with
                                | Some keys => keys | None => default ∅ (p_groups p !! g) end.
Proof.
  revert p. induction l as [|[group keys] l IH]; intros p Hg Hnd; cbn [foldl].
  { exists (p_groups p), (p_itemGroups p). split; [by destruct p|]. by destruct p. }
  rewrite fmap_cons in Hnd. apply list.NoDup_cons in Hnd as [Hnew Hnd]. simpl in Hnew.
  destruct (applyGroup_ok p group keys Hg) as (gs1 & ig1 & Heq & Hok & Hg1). rewrite Heq in Hok |- *.
  destruct (IH _ Hok Hnd) as (gs & ig & Heq2 & Hok2 & Hg2). exists gs, ig. split; [by rewrite Heq2|].
  split; [done|]. intros g. rewrite Hg2. simpl. destruct (decide (g = group)) as [->|Hne].
  - rewrite lookup_insert_eq, (not_elem_of_list_to_map_1 l group Hnew), Hg1, decide_True by done. done.
  - rewrite lookup_insert_ne by done. destruct (_ !! g); [done|]. by rewrite Hg1, decide_False.
Qed.

(** The invariant of a provider between operations. *)
Record providerOk (p : provider) : Prop := {
  po_mem : memOk p ∅;
  po_groups : groupsOk p;
  po_physical : p_physicalUsed p = map_sum ci_physicalSize (p_items p);
  po_used : p_cacheUsed p ≤ map_sum ci_accountedSize (p_items p);
  po_expirations : p_expirationEntries p = N.of_nat (length (p_expirations p));
}.

Lemma providerOk_new p : providerOk p → StagedOk owner p (newBatchState p).
Proof.
  intros [[] ? ? ? ?]. split; rewrite ?viewMap_new; try done.
  all: unfold variantsView, groupView, itemGroupView; simpl; setoid_rewrite lookup_empty; simpl; try done.
Qed.

Lemma map_sum_erase (f : cacheItem → N) (m m' : gmap string cacheItem) :
  (∀ it, f (eraseIds it) = f it) → (∀ k, eraseIds <$> m !! k = eraseIds <$> m' !! k) →
  map_sum f m = map_sum f m'.
Proof.
  intros Hf. revert m'. induction m as [|k x m Hk IH] using map_ind; intros m' Heq.
  - assert (m' = ∅) as ->; [|done]. apply map_eq. intros k. specialize (Heq k).
    rewrite lookup_empty in Heq |- *. destruct (m' !! k); done.
  - pose proof (Heq k) as Hx. rewrite lookup_insert_eq in Hx. destruct (m' !! k) as [x'|] eqn:Hk'; [|done].
    rewrite map_sum_insert_new, (map_sum_delete f m' k x') by done. apply (inj Some) in Hx.
    f_equal; [rewrite <- (Hf x), <- (Hf x'), Hx; done|].
    apply IH. intros j. specialize (Heq j). destruct (decide (j = k)) as [->|Hne].
    + by rewrite Hk, lookup_delete_eq.
    + rewrite lookup_insert_ne in Heq by done. by rewrite lookup_delete_ne.
Qed.

Lemma stageRange_map (p : provider) (s : batchState) j :
  match (list_to_map (range (bs_items s)) : gmap string (option cacheItem)) !! j with
  | Some staged => staged | None => p_items p !! j end = viewMap p s !! j.
Proof.
  rewrite viewMap_lookup. unfold getItem.
  assert ((list_to_map (range (bs_items s)) : gmap string _) = bs_items s) as ->; [|done].
  rewrite <- (list_to_map_to_list (bs_items s)) at 2. apply list_to_map_proper; [apply range_NoDup|apply range_perm].
Qed.

(** Applying a batch makes memory the staged view and keeps the invariant. *)
Lemma applyBatch_ok p s lost :
  memOk p lost → groupsOk p → StagedOk owner p s → lost ⊆ dom (bs_items s) →
  let p' := applyBatchLocked p s in
  providerOk p'
  ∧ (∀ k, eraseIds <$> p_items p' !! k = eraseIds <$> viewMap p s !! k)
  ∧ (∀ g, default ∅ (p_groups p' !! g) = groupView p s g)
  ∧ p_index p' = p_index p ∧ p_dirtyItems p' = ∅ ∧ p_dirtyGroups p' = ∅
  ∧ p_cacheUsed p' = bs_used s ∧ p_physicalUsed p' = bs_physical s.
Proof.
  intros Hm Hg Hs Hlost. unfold applyBatchLocked.
  destruct (applyItems_ok (range (bs_items s)) p lost Hm) as (Hm1 & Hi1 & Hg1 & Hig1 & Hx1).
  { intros k it Hin%range_elem. apply (so_item _ _ _ _ Hs). rewrite viewMap_lookup. unfold getItem. by rewrite Hin. }
  { apply range_NoDup. }
  set (p1 := foldl _ p (range (bs_items s))) in *. cbv zeta in *.
  assert (groupsOk p1) as Hgo1 by (unfold groupsOk; rewrite Hg1, Hig1; done).
  destruct (applyGroups_ok (range (bs_groups s)) p1 Hgo1 (range_NoDup _)) as (gs & ig & -> & Hgo2 & Hg2).
  assert (lost ∖ list_to_set (range (bs_items s)).*1 = ∅) as Hz.
  { apply elem_of_equiv_empty_L. intros x [Hx Hn]%elem_of_difference. apply Hn, elem_of_list_to_set.
    apply Hlost in Hx. apply elem_of_dom in Hx as [v Hv].
    apply list_elem_of_fmap. exists (x, v). split; [done|by apply range_elem]. }
  rewrite Hz in Hm1. setoid_rewrite stageRange_map in Hi1.
  split; [split|split; [|split; [|split; [|done]]]]; simpl.
  - destruct Hm1 as [? ? ? ? ? ? ?]. split; done.
  - exact Hgo2.
  - rewrite (so_physical _ _ _ _ Hs). symmetry. by apply map_sum_erase.
  - rewrite (map_sum_erase ci_accountedSize (p_items p1) (viewMap p s)) by done. exact (so_used _ _ _ _ Hs).
  - done.
  - exact Hi1.
  - intros g. rewrite Hg2, Hg1. unfold groupView.
    assert ((list_to_map (range (bs_groups s)) : gmap string _) = bs_groups s) as ->.
    { rewrite <- (list_to_map_to_list (bs_groups s)) at 2.
      apply list_to_map_proper; [apply range_NoDup|apply range_perm]. }
    by destruct (bs_groups s !! g).
  - exact Hx1.
Qed.

(** ** The database *)

(** The database mirrors memory, save for the keys marked dirty. *)
Definition groupImage (keys : gset string) : option (list string) :=
  if bool_decide (keys = ∅) then None else Some (sortStrings (rangeSet keys)).

Record indexSynced (p : provider) (ix : indexDB) : Prop := {
  ixs_items : ∀ k, k ∉ p_dirtyItems p → ix_items ix !! k = encodeDiskItem <$> p_items p !! k;
  ixs_groups : ∀ g, g ∉ p_dirtyGroups p → ix_groups ix !! g = groupImage (default ∅ (p_groups p !! g));
}.

Lemma foldl_update {A} (upd : string → option A) (ks : list string) (m : gmap string A) j :
  foldl (λ m k, match upd k with None => delete k m | Some a => <[k := a]> m end) m ks !! j
  = if decide (j ∈ ks) then upd j else m !! j.
Proof.
  revert m. induction ks as [|k ks IH]; intros m; cbn [foldl]; [done|]. rewrite IH.
  destruct (decide (j ∈ ks)) as [Hin|Hin]; [rewrite decide_True by set_solver; done|].
  destruct (decide (j = k)) as [->|Hne].
  - rewrite decide_True by set_solver. destruct (upd k); [apply lookup_insert_eq|apply lookup_delete_eq].
  - rewrite decide_False by set_solver.
    destruct (upd k); [by rewrite lookup_insert_ne|by rewrite lookup_delete_ne].
Qed.

Lemma foldl_same {A B} (f g : A → B → A) l a : (∀ a b, f a b = g a b) → foldl f a l = foldl g a l.
Proof. intros Hfg. revert a. induction l as [|b l IH]; intros a; simpl; [done|]. by rewrite Hfg. Qed.

Lemma encodeDiskItem_erase it : encodeDiskItem (eraseIds it) = encodeDiskItem it.
Proof. done. Qed.

(** The transaction writes the disk image of the staged view. *)
Lemma persist_image p s ix p1 :
  p_index p = Some ix → indexSynced p ix → persistBatchLocked None p s = Ok p1 →
  ∃ ix', p1 = setIndexDB p (Some ix') ∧ ix_used ix' = bs_used s
    ∧ (∀ k, ix_items ix' !! k = encodeDiskItem <$> viewMap p s !! k)
    ∧ (∀ g, ix_groups ix' !! g = groupImage (groupView p s g)).
Proof.
  intros Hix [Hi Hg] Hp. unfold persistBatchLocked in Hp. rewrite Hix in Hp. apply Ok_inj in Hp as <-.
  eexists. split; [done|]. split; [done|]. split.
  - intros k. simpl. unfold persistItems.
    rewrite (foldl_same _ (λ m k, match encodeDiskItem <$> getItem p s k with
      None => delete k m | Some a => <[k := a]> m end)) by (intros m x; by destruct (getItem p s x)).
    rewrite foldl_update, viewMap_lookup. destruct (decide _) as [Hin|Hin]; [done|].
    rewrite rangeSet_elem, not_elem_of_union in Hin. destruct Hin as [Hd Hs]. rewrite Hi by done.
    unfold getItem. apply not_elem_of_dom in Hs. by rewrite Hs.
  - intros g. simpl. unfold persistGroups.
    rewrite (foldl_same _ (λ m g, match groupImage (groupView p s g) with
      None => delete g m | Some a => <[g := a]> m end)).
    2:{ intros m x. unfold groupImage, groupView. destruct (bs_groups s !! x); simpl; by case_bool_decide. }
    rewrite foldl_update. destruct (decide _) as [Hin|Hin]; [done|].
    rewrite rangeSet_elem, not_elem_of_union in Hin. destruct Hin as [Hd Hs]. rewrite Hg by done.
    unfold groupView. apply not_elem_of_dom in Hs. by rewrite Hs.
Qed.

(** Persist, then apply. *)
Definition commitBatch (fault : option nat) (p : provider) (s : batchState) : result storeError provider :=
  p1 ← persistBatchLocked fault p s; Ok (applyBatchLocked p1 s).

Lemma commit_index p s ix lost :
  memOk p lost → groupsOk p → StagedOk owner p s → lost ⊆ dom (bs_items s) →
  p_index p = Some ix → indexSynced p ix →
  ∃ p' ix', commitBatch None p s = Ok p' ∧ p_index p' = Some ix' ∧ indexSynced p' ix'
    ∧ ix_used ix' = p_cacheUsed p' ∧ p_dirtyItems p' = ∅ ∧ p_dirtyGroups p' = ∅
    ∧ providerOk p'
    ∧ (∀ k, eraseIds <$> p_items p' !! k = eraseIds <$> viewMap p s !! k)
    ∧ (∀ g, default ∅ (p_groups p' !! g) = groupView p s g)
    ∧ p_physicalUsed p' = bs_physical s ∧ p_cacheUsed p' = bs_used s.
Proof.
  intros Hm Hg Hs Hlost Hix Hsync. unfold commitBatch.
  destruct (persistBatchLocked None p s) as [p1|e] eqn:Hp;
    [|unfold persistBatchLocked in Hp; rewrite Hix in Hp; discriminate].
  destruct (persist_image p s ix p1 Hix Hsync Hp) as (ix' & -> & Hu & Hi & Hgr).
  destruct (applyBatch_ok (setIndexDB p (Some ix')) s lost) as (Hpo & Hview & Hgv & Hidx & Hdi & Hdg & Hcu & Hph).
  { destruct Hm. split; done. }
  { done. }
  { destruct Hs. split; done. }
  { done. }
  eexists _, ix'. split; [done|]. split; [done|]. split.
  { split; intros k _.
    - rewrite Hi. specialize (Hview k). change (viewMap (setIndexDB p (Some ix')) s) with (viewMap p s) in Hview.
      destruct (p_items _ !! k) as [x|], (viewMap p s !! k) as [y|]; try done. apply (inj Some) in Hview.
      cbn [fmap option_fmap option_map]. by rewrite <- (encodeDiskItem_erase x), <- (encodeDiskItem_erase y), Hview.
    - rewrite Hgr, Hgv. done. }
  rewrite Hu, Hcu. done.
Qed.
End Commit.
