(* ===== verification/CacheStoreOps.v ===== *)
(** * The operations of the cache store ([caddy/simplefs])

    Lookups, touches, deletions, purges, refreshes, evictions and the batched
    writes, each as a function on the provider, its body files and its
    counters.  A [fault] argument is the error a bolt transaction or a system
    call returns, [None] when it succeeds; clock readings are arguments.  Every
    operation runs under the provider's locks, which are not modelled; the one
    [TryLock] is an argument of [touchItem].  The response parser of
    [net/http] is the parameter [loadResponse]. *)
From Stdlib Require Import ZArith Lia Ascii String.
From stdpp Require Import base numbers list strings gmap sets option.
From S2P Require Import Prelude CacheCore ExpirationHeap Capacity CacheStore CacheView CacheExpiry.
From S2P Require Import CacheCommit.

Local Open Scope N_scope.

(** ** State *)

(** What the store observes of a body file. *)
Record fileInfo := FileInfo { fi_size : N; fi_checksum : string; fi_modTime : Z }.

Record counters := Counters {
  cn_hits : N; cn_misses : N; cn_staleHits : N; cn_evictions : N;
  cn_rejections : N; cn_corruptions : N; cn_objectsCommitted : N;
}.

Record store := Store {
  st_provider : provider;
  st_files : gmap string fileInfo;
  st_counters : counters;
}.

Definition withProvider (st : store) (p : provider) : store := Store p (st_files st) (st_counters st).
Definition withFiles (st : store) (f : gmap string fileInfo) : store := Store (st_provider st) f (st_counters st).
Definition withCounters (st : store) (c : counters) : store := Store (st_provider st) (st_files st) c.

Definition addHit (c : counters) : counters :=
  Counters (cn_hits c + 1) (cn_misses c) (cn_staleHits c) (cn_evictions c) (cn_rejections c) (cn_corruptions c) (cn_objectsCommitted c).
Definition addMiss (c : counters) : counters :=
  Counters (cn_hits c) (cn_misses c + 1) (cn_staleHits c) (cn_evictions c) (cn_rejections c) (cn_corruptions c) (cn_objectsCommitted c).
Definition addStaleHit (c : counters) : counters :=
  Counters (cn_hits c) (cn_misses c) (cn_staleHits c + 1) (cn_evictions c) (cn_rejections c) (cn_corruptions c) (cn_objectsCommitted c).
Definition addEvictions (n : N) (c : counters) : counters :=
  Counters (cn_hits c) (cn_misses c) (cn_staleHits c) (cn_evictions c + n) (cn_rejections c) (cn_corruptions c) (cn_objectsCommitted c).
Definition addRejections (n : N) (c : counters) : counters :=
  Counters (cn_hits c) (cn_misses c) (cn_staleHits c) (cn_evictions c) (cn_rejections c + n) (cn_corruptions c) (cn_objectsCommitted c).
Definition addCorruption (c : counters) : counters :=
  Counters (cn_hits c) (cn_misses c) (cn_staleHits c) (cn_evictions c) (cn_rejections c) (cn_corruptions c + 1) (cn_objectsCommitted c).
Definition addCommitted (n : N) (c : counters) : counters :=
  Counters (cn_hits c) (cn_misses c) (cn_staleHits c) (cn_evictions c) (cn_rejections c) (cn_corruptions c) (cn_objectsCommitted c + n).

Definition removeFiles (paths : gset string) (files : gmap string fileInfo) : gmap string fileInfo :=
  filter (λ '(path, _), path ∉ paths) files.

(** An item with a deadline at or before [now]. *)
Definition expiredAt (now : Z) (it : cacheItem) : bool :=
  negb (isZeroTime (ci_expiresAt it)) && (ci_expiresAt it <=? now)%Z.

(** One second in nanoseconds. *)
Definition second : Z := 10 ^ 9.

Section Ops.
Context {C : MappingCodec} {G : GoRange}.

(** ** Deletions *)

(** The tail shared by the deletions: commit what was staged and remove the
    obsolete files; a failed transaction changes nothing but the version
    counter. *)
Definition finishDelete (fault : option nat) (st : store) (p : provider) (s : batchState) : store :=
  match commitBatch fault p s with
  | Ok p' => Store p' (removeFiles (bs_obsoleteFiles s) (st_files st)) (st_counters st)
  | Err _ => withProvider st p
  end.

Definition deleteItemIf (fault : option nat) (st : store) (key : string) (match' : cacheItem → bool) : store :=
  match p_items (st_provider st) !! key with
  | None => st
  | Some item =>
      if match' item then
        let '(p, s) := deleteItem (st_provider st) (newBatchState (st_provider st)) key in
        finishDelete fault st p s
      else st
  end.

Definition removeExpired (fault : option nat) (st : store) (key : string) (generation : N) (now : Z) : store :=
  deleteItemIf fault st key (λ item, (ci_generation item =? generation) && expiredAt now item).

Definition removeCorrupt (fault : option nat) (st : store) (key : string) (generation : N) : store :=
  let st1 := deleteItemIf fault st key (λ item, ci_generation item =? generation) in
  withCounters st1 (addCorruption (st_counters st1)).

Definition removeInvalidMapping (fault : option nat) (st : store) (key value : string) : store :=
  deleteItemIf fault st key (λ item, negb (ci_file item) && bool_decide (ci_value item = value)).

Definition pruneExpired (fault : option nat) (st : store) (now : Z) : store :=
  let p0 := st_provider st in
  let '(p, s) := stageExpired p0 (newBatchState p0) now in
  if bool_decide (bs_items s = ∅) then withProvider st p
  else
    match commitBatch fault p s with
    | Ok p' => Store p' (removeFiles (bs_obsoleteFiles s) (st_files st)) (st_counters st)
    | Err _ => withProvider st (restoreExpiry p s)
    end.

Definition Delete (fault : option nat) (st : store) (key : string) : store :=
  let p0 := st_provider st in
  let '(p, s) := deleteItem p0 (newBatchState p0) key in
  if bool_decide (bs_items s = ∅) then withFiles (withProvider st p) (removeFiles (bs_obsoleteFiles s) (st_files st))
  else finishDelete fault st p s.

(** [DeleteMany]; [matches] is the compiled expression. *)
Definition DeleteMany (fault : option nat) (st : store) (matches : string → bool) (expression : string) : store :=
  let p0 := st_provider st in
  let '(p, s) := foldl (λ '(p, s) '(key, _),
      if matches key || String.prefix expression key then deleteItem p s key else (p, s))
    (p0, newBatchState p0) (range (p_items p0)) in
  if bool_decide (bs_items s = ∅) then withFiles (withProvider st p) (removeFiles (bs_obsoleteFiles s) (st_files st))
  else finishDelete fault st p s.

(** The reverse links a damaged mapping leaves behind. *)
Definition unlinkRecovered (p : provider) (mappingKey : string) (variants : list string) : provider :=
  foldl (λ p variant,
    let keys := default ∅ (p_variantMappings p !! variant) ∖ {[mappingKey]} in
    setVariants p (if bool_decide (keys = ∅) then delete variant (p_variantMappings p)
                   else <[variant := keys]> (p_variantMappings p))) p variants.

(** The bodies [DeleteEntry] stages for deletion: those the mapping lists, or,
    when its text is damaged, those the reverse index links to it. *)
Definition stageEntry (p0 : provider) (mappingKey : string) : provider * batchState * list string :=
  let s0 := newBatchState p0 in
  match p_items p0 !! mappingKey with
  | Some mappingItem =>
      if ci_file mappingItem then (p0, s0, [])
      else
        match DecodeMapping (ci_value mappingItem) with
        | Some mapping =>
            let '(p, s) := foldl (λ '(p, s) '(variedKey, _), deleteItem p s variedKey) (p0, s0)
                             (range (default ∅ (sm_Mapping mapping))) in
            (p, s, [])
        | None =>
            foldl (λ '(p, s, r) '(variedKey, mappings),
                if bool_decide (mappingKey ∈ mappings)
                then let '(p', s') := deleteItem p s variedKey in (p', s', r ++ [variedKey])
                else (p, s, r))
              (p0, removeItemGroups p0 s0 mappingKey, []) (range (p_variantMappings p0))
        end
  | None => (p0, s0, [])
  end.

Definition DeleteEntry (fault : option nat) (st : store) (baseKey : string) : store :=
  let mappingKey := MappingKeyPrefix +:+ baseKey in
  let '(p1, s1, recovered) := stageEntry (st_provider st) mappingKey in
  let '(p2, s2) := deleteItem p1 s1 mappingKey in
  if bool_decide (bs_items s2 = ∅)
  then withFiles (withProvider st p2) (removeFiles (bs_obsoleteFiles s2) (st_files st))
  else
    match commitBatch fault p2 s2 with
    | Ok p3 => Store (unlinkRecovered p3 mappingKey recovered)
                 (removeFiles (bs_obsoleteFiles s2) (st_files st)) (st_counters st)
    | Err _ => withProvider st p2
    end.

Definition deleteKeysLocked (fault : option nat) (p0 : provider) (keys : list string)
    : provider * result storeError (N * gset string) :=
  let '(p, s, count) := foldl (λ '(p, s, count) key,
      match getItem p s key with
      | Some item =>
          let '(p', s') := deleteItem p s key in
          (p', s', if ci_file item then count + 1 else count)
      | None => (p, s, count)
      end) (p0, newBatchState p0, 0) keys in
  if bool_decide (bs_items s = ∅) then (p, Ok (count, ∅))
  else
    match commitBatch fault p s with
    | Ok p' => (p', Ok (count, bs_obsoleteFiles s))
    | Err e => (p, Err e)
    end.

(** [resetLocked]; [fault] is the error of [replaceWithEmptyIndexLocked], which
    then leaves the old database open. *)
Definition resetLocked (fault : option nat) (p : provider) : result storeError (provider * gset string) :=
  match fault with
  | Some code => Err (ErrIndexIO code)
  | None =>
      let obsolete := list_to_set (omap (λ '(_, item), if ci_file item then Some (ci_value item) else None)
                                    (range (p_items p))) in
      Ok (Provider ∅ ∅ ∅ ∅ [] [] (Some (IndexDB ∅ ∅ 0)) ∅ ∅ 0 0 0 0 0 (p_nextVersion p) (p_nextId p), obsolete)
  end.

(** ** Touching and reading *)

Definition touchItem (p : provider) (key : string) (generation : N) (now modifiedAt : Z) (locked : bool) : provider :=
  match p_items p !! key with
  | None => p
  | Some item =>
      let due := (second <=? now - ci_lastAccess item)%Z in
      let moved := negb (modifiedAt =? 0)%Z && negb (modifiedAt =? ci_modifiedAt item)%Z in
      if negb (ci_generation item =? generation) || negb (due || moved) || negb locked then p
      else
        let '(p1, item1) :=
          if due then
            (match ci_lru item with
             | Some id => setLruList p (filter (λ x, x.1 ≠ id) (p_lru p) ++ [(id, key)])
             | None => p
             end, setLastAccess item now)
          else (p, item) in
        let item2 := if negb (modifiedAt =? 0)%Z then setModifiedAt item1 modifiedAt else item1 in
        setDirty (setItems p1 (<[key := item2]> (p_items p1))) ({[key]} ∪ p_dirtyItems p1) (p_dirtyGroups p1)
  end.

Definition getDecodedMapping (fault : option nat) (st : store) (key : string) (now : Z) (locked : bool)
    : store * result storeError (option StorageMapper) :=
  match p_items (st_provider st) !! key with
  | None => (st, Ok None)
  | Some item =>
      if ci_file item then (st, Ok None)
      else if expiredAt now item then (removeExpired fault st key (ci_generation item) now, Ok None)
      else
        match ci_mapping item with
        | Some mapping =>
            (withProvider st (touchItem (st_provider st) key (ci_generation item) now 0 locked), Ok (Some mapping))
        | None =>
            match DecodeMapping (ci_value item) with
            | None => (removeInvalidMapping fault st key (ci_value item), Err ErrMapping)
            | Some mapping =>
                let p := st_provider st in
                let p1 := if locked then setItems p (<[key := setMapping item (Some mapping)]> (p_items p)) else p in
                (withProvider st (touchItem p1 key (ci_generation item) now 0 locked), Ok (Some mapping))
            end
        end
  end.

(** [openCachedObject]: the item and its open file, if both exist. *)
Definition openCachedObject (fault : option nat) (st : store) (key : string) (now : Z) (locked : bool)
    : store * option (cacheItem * result storeError fileInfo) :=
  match p_items (st_provider st) !! key with
  | None => (st, None)
  | Some item =>
      if negb (ci_file item) then (st, None)
      else if expiredAt now item then (removeExpired fault st key (ci_generation item) now, None)
      else
        match st_files st !! ci_value item with
        | None => (st, Some (item, Err (ErrFile 2)))
        | Some info =>
            (withProvider st (touchItem (st_provider st) key (ci_generation item) now (ci_modifiedAt item) locked),
             Some (item, Ok info))
        end
  end.

Section Lookup.
Context {R : Type} (loadResponse : fileInfo → option R).

(** [readHTTPResponse]: a body whose file is missing or does not parse is
    removed as corrupt. *)
Definition readHTTPResponse (fault : option nat) (st : store) (key : string) (now : Z) (locked : bool)
    : store * result storeError (option R) :=
  match openCachedObject fault st key now locked with
  | (st1, None) => (st1, Ok None)
  | (st1, Some (item, Err _)) => (removeCorrupt fault st1 key (ci_generation item), Ok None)
  | (st1, Some (item, Ok info)) =>
      match loadResponse info with
      | None => (removeCorrupt fault st1 key (ci_generation item), Err ErrMapping)
      | Some response => (st1, Ok (Some response))
      end
  end.

(** The vary test of one variant against the request's headers. *)
Definition variantMatches (request : Header) (index : KeyIndex) : bool :=
  forallb (λ '(name, values), bool_decide (headerGet request name = String.concat ", " values))
    (range (ki_VariedHeaders index)).

Inductive election :=
| Fresh (r : R) (key : string) (index : KeyIndex)
| Stale (r : R) (key : string) (index : KeyIndex)
| ElectionError (key : string)
| NoVariant.

Fixpoint electFrom (fault : option nat) (st : store) (request : Header) (validator : Revalidator) (now : Z)
    (locked : bool) (variants : list (string * KeyIndex)) : store * election :=
  match variants with
  | [] => (st, NoVariant)
  | (key, index) :: rest =>
      if variantMatches request index then
        let validator1 := ValidateETagFromHeader (ki_ETag index) validator in
        if rv_Matched validator1 then
          let '(st1, r1) :=
            if (now <? ki_FreshTime index)%Z then readHTTPResponse fault st key now locked else (st, Ok None) in
          match r1 with
          | Ok (Some r) => (st1, Fresh r key index)
          | Err _ => (st1, ElectionError key)
          | Ok None =>
              let '(st2, r2) :=
                if (now <? ki_StaleTime index)%Z then readHTTPResponse fault st1 key now locked else (st1, Ok None) in
              match r2 with
              | Ok (Some r) => (st2, Stale r key index)
              | Err _ => (st2, ElectionError key)
              | Ok None => electFrom fault st2 request validator1 now locked rest
              end
          end
        else electFrom fault st request validator1 now locked rest
      else electFrom fault st request validator now locked rest
  end.

Definition mappingElection (fault : option nat) (st : store) (mapping : StorageMapper) (request : Header)
    (validator : Revalidator) (now : Z) (locked : bool) : store * election :=
  electFrom fault st request validator now locked (range (default ∅ (sm_Mapping mapping))).

(** One lookup is one step here, at one time.  The code takes the read lock for
    the mapping and again for each body, and reads the clock each time; a body
    that is replaced or removed in between is found missing or by its new
    generation, as it would be by a lookup that starts later. *)
Definition getMultiLevel (fault : option nat) (st : store) (key : string) (request : Header)
    (validator : Revalidator) (now : Z) (locked : bool) : store * election :=
  let '(st1, decoded) := getDecodedMapping fault st (MappingKeyPrefix +:+ key) now locked in
  match decoded with
  | Err _ => (withCounters st1 (addMiss (addCorruption (st_counters st1))), NoVariant)
  | Ok None => (withCounters st1 (addMiss (st_counters st1)), NoVariant)
  | Ok (Some mapping) =>
      match sm_Mapping mapping with
      | None => (withCounters st1 (addMiss (st_counters st1)), NoVariant)
      | Some _ =>
          let '(st2, e) := mappingElection fault st1 mapping request validator now locked in
          match e with
          | Fresh _ _ _ => (withCounters st2 (addHit (st_counters st2)), e)
          | Stale _ _ _ => (withCounters st2 (addStaleHit (addHit (st_counters st2))), e)
          | _ => (withCounters st2 (addMiss (st_counters st2)), e)
          end
      end
  end.

End Lookup.
End Ops.
