(* ===== verification/CacheWrites.v ===== *)
(** * Writes, refreshes and evictions ([caddy/simplefs])

    [flushBatch] stages a batch of pending writes against the capacity
    budget, evicting least-recently-used bodies, installs their files, commits
    and removes the obsolete files; [Refresh] extends a variant after a 304;
    [evictForBudget] and [ensureSpace] enforce a limit without a write. *)
From Stdlib Require Import ZArith Lia Ascii String.
From stdpp Require Import base numbers list strings gmap sets option.
From S2P Require Import Prelude CacheCore ExpirationHeap Capacity CacheStore CacheView CacheExpiry.
From S2P Require Import CacheCommit CacheStoreOps.

Local Open Scope N_scope.

Record pendingWrite := PendingWrite {
  pw_baseKey : string;
  pw_variedKey : string;
  pw_temporaryPath : string;
  pw_finalPath : string;
  pw_compressedSize : N;
  pw_physicalSize : N;
  pw_originalSize : N;
  pw_checksum : string;
  pw_modifiedAt : Z;
  pw_groups : list string;
  pw_variedHeaders : Header;
  pw_etag : string;
  pw_duration : Z;
  pw_realKey : string;
}.

Definition pwPhysical (w : pendingWrite) (n : N) : pendingWrite :=
  PendingWrite (pw_baseKey w) (pw_variedKey w) (pw_temporaryPath w) (pw_finalPath w) (pw_compressedSize w) n
    (pw_originalSize w) (pw_checksum w) (pw_modifiedAt w) (pw_groups w) (pw_variedHeaders w) (pw_etag w)
    (pw_duration w) (pw_realKey w).
Definition pwModifiedAt (w : pendingWrite) (t : Z) : pendingWrite :=
  PendingWrite (pw_baseKey w) (pw_variedKey w) (pw_temporaryPath w) (pw_finalPath w) (pw_compressedSize w)
    (pw_physicalSize w) (pw_originalSize w) (pw_checksum w) t (pw_groups w) (pw_variedHeaders w) (pw_etag w)
    (pw_duration w) (pw_realKey w).

Definition newMappingItem (value : string) (mapping : option StorageMapper) (expiresAt lastAccess : Z) : cacheItem :=
  CacheItem value mapping expiresAt lastAccess false 0 0 0 0 0 "" 0 None None.

#[export] Instance storeError_eq_dec : EqDecision storeError.
Proof. solve_decision. Defined.

Section Writes.
Context {C : MappingCodec} {G : GoRange}.

(** ** Eviction candidates *)

(** The walk of [evictionCandidates] along the LRU list. *)
Fixpoint candidatesFrom (p : provider) (s : batchState) (protected : gset string)
    (requiredAccounted requiredPhysical freedAccounted freedPhysical : N) (found : list string)
    (lru : list (N * string)) : list string * bool :=
  match lru with
  | [] => ([], false)
  | (_, key) :: rest =>
      if bool_decide (key ∈ protected)
      then candidatesFrom p s protected requiredAccounted requiredPhysical freedAccounted freedPhysical found rest
      else
        match getItem p s key with
        | Some item =>
            if ci_file item then
              let found := found ++ [key] in
              let freedAccounted := freedAccounted + ci_accountedSize item in
              let freedPhysical := freedPhysical + ci_physicalSize item in
              if (requiredAccounted <=? freedAccounted) && (requiredPhysical <=? freedPhysical) then (found, true)
              else candidatesFrom p s protected requiredAccounted requiredPhysical freedAccounted freedPhysical found rest
            else candidatesFrom p s protected requiredAccounted requiredPhysical freedAccounted freedPhysical found rest
        | None =>
            candidatesFrom p s protected requiredAccounted requiredPhysical freedAccounted freedPhysical found rest
        end
  end.

Definition evictionCandidates (p : provider) (s : batchState) (protected : gset string)
    (neededAccounted accountedAvailable neededPhysical physicalAvailable : N) : list string * bool :=
  if (neededAccounted <=? accountedAvailable) && (neededPhysical <=? physicalAvailable) then ([], true)
  else
    candidatesFrom p s protected
      (neededAccounted - N.min neededAccounted accountedAvailable)
      (neededPhysical - N.min neededPhysical physicalAvailable) 0 0 [] (p_lru p).

(** ** Staging one write *)

Definition evictKeys (p : provider) (s : batchState) (keys : list string) : provider * batchState :=
  foldl (λ '(p, s) key,
    let '(p', s') := deleteItem p s key in (p', sEvicted s' (bs_evicted s' + 1))) (p, s) keys.

(** The body item of a write. *)
Definition bodyItem (stale now : Z) (generation : N) (write : pendingWrite) : cacheItem :=
  let body := CacheItem (pw_finalPath write) None (now + (pw_duration write + stale)) now true generation
    (pw_compressedSize write) (pw_physicalSize write) 0 (pw_originalSize write) (pw_checksum write)
    (pw_modifiedAt write) None None in
  setAccounted body (accountedItemSize (pw_variedKey write) body).

(** Replacing the body of a key once the room was made. *)
Definition replaceBody (p : provider) (s : batchState) (write : pendingWrite) (old : option cacheItem)
    (body : cacheItem) : batchState :=
  let s1 :=
    match old with
    | Some old =>
        let s' := removeItemGroups p s (pw_variedKey write) in
        if ci_file old then
          let s'' := sBytes s' (bs_used s' - N.min (bs_used s') (ci_accountedSize old))
                              (bs_physical s' - N.min (bs_physical s') (ci_physicalSize old)) in
          if bool_decide (ci_value old = pw_finalPath write) then s''
          else sObsolete s'' ({[ci_value old]} ∪ bs_obsoleteFiles s'')
        else s'
    | None => s
    end in
  let s2 := sBytes s1 (bs_used s1 + ci_accountedSize body) (bs_physical s1 + ci_physicalSize body) in
  sItems s2 (<[pw_variedKey write := Some body]> (bs_items s2)).

(** One round of the loop of [flushBatch]; the error is the write's result. *)
Definition stageWrite (budget : capacityBudget) (stale now : Z) (p : provider) (s : batchState)
    (protected : gset string) (write : pendingWrite)
    : provider * batchState * gset string * option storeError :=
  let mappingKey := MappingKeyPrefix +:+ pw_baseKey write in
  let previous := default "" (ci_value <$> getItem p s mappingKey) in
  match MappingUpdater (pw_variedKey write) previous now (now + pw_duration write)
          (now + (pw_duration write + stale)) (pw_variedHeaders write) (pw_etag write) (pw_realKey write) with
  | None => (p, s, protected, Some ErrMapping)
  | Some mapping =>
      let old := getItem p s (pw_variedKey write) in
      let oldFile := match old with Some o => if ci_file o then Some o else None | None => None end in
      let oldAccounted := from_option ci_accountedSize 0 oldFile in
      let oldPhysical := from_option ci_physicalSize 0 oldFile in
      let p1 := bumpVersion p in
      let body := bodyItem stale now (p_nextVersion p1) write in
      let mappingItem0 := newMappingItem mapping (DecodeMapping mapping) (now + (pw_duration write + stale)) now in
      let mappingItem := setAccounted mappingItem0 (accountedItemSize mappingKey mappingItem0) in
      let oldMapping := from_option ci_accountedSize 0 (getItem p1 s mappingKey) in
      let usedLess := bs_used s - N.min (bs_used s) oldAccounted in
      let neededAccounted :=
        usedLess - N.min usedLess oldMapping + ci_accountedSize body + ci_accountedSize mappingItem in
      let neededPhysical := bs_physical s - N.min (bs_physical s) oldPhysical + ci_physicalSize body in
      if (cb_accountedAvailable budget <? ci_accountedSize body + ci_accountedSize mappingItem)
         || (cb_physicalAvailable budget <? ci_physicalSize body)
      then (p1, s, protected, Some ErrCapacity)
      else
        match evictionCandidates p1 s ({[pw_variedKey write]} ∪ protected) neededAccounted
                (cb_accountedAvailable budget) neededPhysical (cb_physicalAvailable budget) with
        | (_, false) => (p1, s, protected, Some ErrCapacity)
        | (candidates, true) =>
            let '(p2, s2) := evictKeys p1 s candidates in
            let s3 := replaceBody p2 s2 write old body in
            let p3 := bumpVersion p2 in
            let mappingItem1 := setDeadline mappingItem (now + (pw_duration write + stale)) now (p_nextVersion p3) in
            let s4 := stageMapping p3 s3 mappingKey (Some mappingItem1) in
            let s5 := foldl (λ s group,
                addItemGroup p3 (addItemGroup p3 s (pw_variedKey write) group) mappingKey group) s4 (pw_groups write) in
            (p3, s5, {[pw_variedKey write]} ∪ protected, None)
        end
  end.

(** The loop over the batch; [clock i] is the time read for write [i]. *)
Fixpoint stageWrites (budget : capacityBudget) (stale : Z) (clock : nat → Z) (i : nat) (p : provider)
    (s : batchState) (protected : gset string) (batch : list pendingWrite)
    : provider * batchState * list (option storeError) :=
  match batch with
  | [] => (p, s, [])
  | write :: rest =>
      let '(p1, s1, protected1, r) := stageWrite budget stale (clock i) p s protected write in
      let '(p2, s2, rs) := stageWrites budget stale clock (S i) p1 s1 protected1 rest in
      (p2, s2, r :: rs)
  end.

(** ** Installing files *)

Inductive renameError := ENOSPC | RenameErr (code : nat).

(** The environment of one flush: what the system calls return. *)
Record flushEnv := FlushEnv {
  fe_usage : result storeError UsageStat;             (* disk.Usage *)
  fe_blocks : string → option (option Z);             (* os.Stat of a temporary file *)
  fe_verify : string → bool;                          (* whether a final path can be read to verify it *)
  fe_rename : string → option renameError;            (* os.Rename of a temporary file *)
  fe_stat : string → option nat;                      (* os.Stat of an installed file *)
  fe_sync : option nat;                               (* syncing the directory *)
  fe_commit : option nat;                             (* the bolt transaction *)
}.

(** The file already at the final path, if it has the write's size and checksum. *)
Definition presentFile (env : flushEnv) (files : gmap string fileInfo) (write : pendingWrite) : option fileInfo :=
  match files !! pw_finalPath write with
  | Some info =>
      if fe_verify env (pw_finalPath write) && (fi_size info =? pw_compressedSize write)
         && bool_decide (fi_checksum info = pw_checksum write)
      then Some info else None
  | None => None
  end.

Fixpoint installFiles (env : flushEnv) (files : gmap string fileInfo) (installed : gset string)
    (writes : list pendingWrite)
    : gmap string fileInfo * gset string * list pendingWrite * option storeError :=
  match writes with
  | [] => (files, installed, [], None)
  | write :: rest =>
      match presentFile env files write with
      | Some info =>
          let '(f, i, ws, e) := installFiles env (delete (pw_temporaryPath write) files) installed rest in
          (f, i, pwModifiedAt write (fi_modTime info) :: ws, e)
      | None =>
          match fe_rename env (pw_temporaryPath write), files !! pw_temporaryPath write with
          | Some ENOSPC, _ => (files, installed, write :: rest, Some ErrCapacity)
          | Some (RenameErr code), _ => (files, installed, write :: rest, Some (ErrFile code))
          | None, None => (files, installed, write :: rest, Some (ErrFile 2))
          | None, Some info =>
              let files1 := <[pw_finalPath write := info]> (delete (pw_temporaryPath write) files) in
              match fe_stat env (pw_finalPath write) with
              | Some code => (files1, installed, write :: rest, Some (ErrFile code))
              | None =>
                  let '(f, i, ws, e) := installFiles env files1 ({[pw_finalPath write]} ∪ installed) rest in
                  (f, i, pwModifiedAt write (fi_modTime info) :: ws, e)
              end
          end
      end
  end.

Definition installBatchFiles (env : flushEnv) (files : gmap string fileInfo) (writes : list pendingWrite)
    : gmap string fileInfo * gset string * list pendingWrite * option storeError :=
  let '(f, i, ws, e) := installFiles env files ∅ writes in
  match e with
  | Some _ => (f, i, ws, e)
  | None =>
      if bool_decide (i = ∅) then (f, i, ws, None)
      else match fe_sync env with
           | Some code => (f, i, ws, Some (ErrFile code))
           | None => (f, i, ws, None)
           end
  end.

(** ** [flushBatch] *)

(** [errors.Is(err, syscall.ENOSPC)] on the errors a write can meet. *)
Definition isENOSPC (e : storeError) : bool :=
  match e with ErrIndexIO 28 | ErrFile 28 => true | _ => false end.
Definition recordRejectedWrite (e : storeError) (c : counters) : counters :=
  if isENOSPC e then addRejections 1 c else c.

Definition sizedWrites (env : flushEnv) (batch : list pendingWrite) : list pendingWrite :=
  map (λ w, if pw_physicalSize w =? 0
            then pwPhysical w (physicalFileSize (fe_blocks env (pw_temporaryPath w)) (pw_compressedSize w))
            else w) batch.

(** The final modification times of the installed bodies. *)
Definition stampModified (s : batchState) (writes : list pendingWrite) : batchState :=
  foldl (λ s w, sItems s (<[pw_variedKey w :=
      (λ it, setModifiedAt it (pw_modifiedAt w)) <$> mjoin (bs_items s !! pw_variedKey w)]> (bs_items s))) s writes.

Definition liveFiles (s : batchState) : gset string :=
  list_to_set (omap (λ '(_, staged), match staged with
    | Some it => if ci_file it then Some (ci_value it) else None | None => None end) (range (bs_items s))).

(** The writes whose result is still nil. *)
Definition acceptedOf (batch : list pendingWrite) (results : list (option storeError)) : list pendingWrite :=
  omap (λ '(w, r), match r with None => Some w | Some _ => None end) (zip batch results).

Definition capacityRejections (results : list (option storeError)) : N :=
  N.of_nat (length (filter (λ r, r = Some ErrCapacity) results)).

Definition flushBatch (env : flushEnv) (lim : limits) (stale now0 : Z) (clock : nat → Z) (st : store)
    (batch0 : list pendingWrite) : store * list (option storeError) :=
  let p0 := st_provider st in
  let '(p1, s1) := stageExpired p0 (newBatchState p0) now0 in
  let batch := sizedWrites env batch0 in
  let transient := foldl (λ n w, u64 (n + pw_physicalSize w)) 0 batch in
  match capacityAvailable (p_cacheUsed p1) (p_physicalUsed p1) lim transient (fe_usage env) with
  | Err e => (withProvider st (restoreExpiry p1 s1), map (λ _, Some e) batch)
  | Ok budget =>
      let '(p2, s2, results) := stageWrites budget stale clock 0 p1 s1 ∅ batch in
      let accepted := acceptedOf batch results in
      let st1 := withCounters st (addRejections (capacityRejections results) (st_counters st)) in
      if bool_decide (accepted = []) then (withProvider st1 (restoreExpiry p2 s2), results)
      else
        let '(files, installed, written, installErr) := installBatchFiles env (st_files st) accepted in
        let s3 := match installErr with None => stampModified s2 written | Some _ => s2 end in
        let committed :=
          match installErr with
          | Some e => Err e
          | None => commitBatch (fe_commit env) p2 s3
          end in
        match committed with
        | Err e =>
            (Store (restoreExpiry p2 s3) (removeFiles installed files)
               (recordRejectedWrite e (st_counters st1)),
             map (λ r, match r with None => Some e | Some _ => r end) results)
        | Ok p3 =>
            (Store p3 (removeFiles (bs_obsoleteFiles s3 ∖ liveFiles s3) files)
               (addCommitted (N.of_nat (length accepted)) (addEvictions (bs_evicted s3) (st_counters st1))),
             results)
        end
  end.

(** ** [Refresh] *)

Definition refreshedNames : list string :=
  ["Cache-Control"; "Content-Location"; "Date"; "ETag"; "Expires"; "Last-Modified"; "Vary"].

(** The variant record after a 304: new deadlines, and the listed headers of
    [update] under exactly these names. *)
Definition refreshIndex (index : KeyIndex) (now duration stale : Z) (update : Header) : KeyIndex :=
  let revalidated := foldl (λ h name,
      match update !! name with Some values => <[name := values]> h | None => h end)
    (ki_Revalidated index) refreshedNames in
  let etag := headerGet revalidated "ETag" in
  {| ki_StoredAt := now; ki_FreshTime := now + duration; ki_StaleTime := now + (duration + stale);
     ki_VariedHeaders := ki_VariedHeaders index;
     ki_ETag := if bool_decide (etag = "") then ki_ETag index else etag;
     ki_RealKey := ki_RealKey index; ki_Revalidated := revalidated |}.

(** The first variant, in iteration order, whose vary headers match. *)
Fixpoint firstMatch (request : Header) (variants : list (string * KeyIndex)) : option (string * KeyIndex) :=
  match variants with
  | [] => None
  | (key, index) :: rest => if variantMatches request index then Some (key, index) else firstMatch request rest
  end.

Definition Refresh (fault : option nat) (stale now : Z) (p : provider) (baseKey : string) (request : Header)
    (duration : Z) (update : Header) : provider * bool :=
  let mappingKey := MappingKeyPrefix +:+ baseKey in
  match p_items p !! mappingKey with
  | None => (p, false)
  | Some mappingItem =>
      if ci_file mappingItem then (p, false)
      else
        match DecodeMapping (ci_value mappingItem) with
        | None => (p, false)
        | Some decoded =>
            let m := default ∅ (sm_Mapping decoded) in
            match firstMatch request (range m) with
            | None => (p, false)
            | Some (variedKey, index) =>
                if bool_decide (variedKey = "") then (p, false)
                else
                  let mapping := {| sm_Mapping := Some (<[variedKey := refreshIndex index now duration stale update]> m) |} in
                  match p_items p !! variedKey with
                  | None => (p, false)
                  | Some body =>
                      if negb (ci_file body) then (p, false)
                      else
                        match EncodeMapping mapping with
                        | None => (p, false)
                        | Some encoded =>
                            let expiresAt := (now + (duration + stale))%Z in
                            let s0 := newBatchState p in
                            let p1 := bumpVersion p in
                            let mappingItem1 :=
                              setDeadline (setEncoded mappingItem encoded mapping (p_nextVersion p1))
                                expiresAt now (p_nextVersion p1) in
                            let s1 := stageMapping p1 s0 mappingKey (Some mappingItem1) in
                            let p2 := bumpVersion p1 in
                            let body1 := setDeadline body expiresAt now (p_nextVersion p2) in
                            let s2 := sItems s1 (<[variedKey := Some body1]> (bs_items s1)) in
                            match commitBatch fault p2 s2 with
                            | Ok p3 => (p3, true)
                            | Err _ => (p2, false)
                            end
                        end
                  end
            end
        end
  end.

(** ** Enforcing a limit *)

Fixpoint evictLoop (p : provider) (s : batchState) (requiredAccounted requiredPhysical freedAccounted freedPhysical : N)
    (lru : list (N * string)) : provider * batchState * N * N :=
  match lru with
  | [] => (p, s, freedAccounted, freedPhysical)
  | (_, key) :: rest =>
      if (freedAccounted <? requiredAccounted) || (freedPhysical <? requiredPhysical) then
        match getItem p s key with
        | Some item =>
            if ci_file item then
              let '(p', s') := deleteItem p s key in
              evictLoop p' (sEvicted s' (bs_evicted s' + 1)) requiredAccounted requiredPhysical
                (freedAccounted + ci_accountedSize item) (freedPhysical + ci_physicalSize item) rest
            else evictLoop p s requiredAccounted requiredPhysical freedAccounted freedPhysical rest
        | None => evictLoop p s requiredAccounted requiredPhysical freedAccounted freedPhysical rest
        end
      else (p, s, freedAccounted, freedPhysical)
  end.

(** [evictForBudget]; [removal] is the error of an [os.Remove] after the commit,
    with the paths that are then still in place. *)
Definition evictForBudget (fault : option nat) (removal : option (nat * gset string)) (st : store)
    (requiredAccounted requiredPhysical : N) : store * result storeError (N * N) :=
  if (requiredAccounted =? 0) && (requiredPhysical =? 0) then (st, Ok (0, 0))
  else
    let p0 := st_provider st in
    let '(p, s, freedAccounted, freedPhysical) :=
      evictLoop p0 (newBatchState p0) requiredAccounted requiredPhysical 0 0 (p_lru p0) in
    if bs_evicted s =? 0 then (withProvider st p, Ok (freedAccounted, freedPhysical))
    else
      match commitBatch fault p s with
      | Err e => (withProvider st p, Err e)
      | Ok p' =>
          match removal with
          | Some (code, remaining) =>
              (Store p' (removeFiles (bs_obsoleteFiles s ∖ remaining) (st_files st)) (st_counters st), Err (ErrFile code))
          | None =>
              (Store p' (removeFiles (bs_obsoleteFiles s) (st_files st)) (addEvictions (bs_evicted s) (st_counters st)),
               Ok (freedAccounted, freedPhysical))
          end
      end.

(** [ensureSpaceLockedWithTransient]; [fault1] is the error of the expiry
    transaction, [fault2] and [removal] those of the eviction. *)
Definition ensureSpaceLockedWithTransient (fault1 fault2 : option nat) (removal : option (nat * gset string))
    (usage : result storeError UsageStat)
    (st : store) (now : Z) (incoming : N) (configured : limits) (transient : N) : store * option storeError :=
  let p0 := st_provider st in
  let '(p, s) := stageExpired p0 (newBatchState p0) now in
  let '(st1, pruneErr) :=
    if bool_decide (bs_items s = ∅) then (withProvider st p, None)
    else
      match commitBatch fault1 p s with
      | Ok p' => (Store p' (removeFiles (bs_obsoleteFiles s) (st_files st)) (st_counters st), None)
      | Err e => (Store (restoreExpiry p s) (st_files st) (recordRejectedWrite e (st_counters st)), Some e)
      end in
  match pruneErr with
  | Some e => (st1, Some e)
  | None =>
      match capacityAvailable (p_cacheUsed (st_provider st1)) (p_physicalUsed (st_provider st1)) configured transient usage with
      | Err e => (st1, Some e)
      | Ok budget =>
          if (cb_accountedAvailable budget <? incoming) || (cb_physicalAvailable budget <? incoming)
          then (withCounters st1 (addRejections 1 (st_counters st1)), Some ErrCapacity)
          else
            let accountedRequired := cb_accountedUsed budget - (cb_accountedAvailable budget - incoming) in
            let physicalRequired := cb_physicalUsed budget - (cb_physicalAvailable budget - incoming) in
            if (accountedRequired =? 0) && (physicalRequired =? 0) then (st1, None)
            else
              match evictForBudget fault2 removal st1 accountedRequired physicalRequired with
              | (st2, Err e) => (st2, Some e)
              | (st2, Ok (freedAccounted, freedPhysical)) =>
                  if (freedAccounted <? accountedRequired) || (freedPhysical <? physicalRequired)
                  then (withCounters st2 (addRejections 1 (st_counters st2)), Some ErrCapacity)
                  else (st2, None)
              end
      end
  end.

(** ** [Set] *)

(** [provider.Set]: store a value under a key, mapping records through
    [stageMapping] and any other key directly. *)
Definition Set' (fault : option nat) (st : store) (key value : string) (duration now : Z)
    : store * option storeError :=
  let p0 := st_provider st in
  let s0 := newBatchState p0 in
  let s1 :=
    match getItem p0 s0 key with
    | Some old =>
        if ci_file old then
          sObsolete (sBytes s0 (bs_used s0 - N.min (bs_used s0) (ci_accountedSize old))
                       (bs_physical s0 - N.min (bs_physical s0) (ci_physicalSize old)))
            ({[ci_value old]} ∪ bs_obsoleteFiles s0)
        else s0
    | None => s0
    end in
  let expiresAt := if (0 <? duration)%Z then (now + duration)%Z else zeroTime in
  let p1 := bumpVersion p0 in
  let item := CacheItem value None expiresAt now false (p_nextVersion p1) 0 0 0 0 "" 0 None None in
  let s2 :=
    if String.prefix MappingKeyPrefix key then stageMapping p1 s1 key (Some item)
    else
      let s' :=
        match getItem p1 s1 key with
        | Some old => sBytes s1 (bs_used s1 - N.min (bs_used s1) (ci_accountedSize old))
                        (bs_physical s1 - N.min (bs_physical s1) (ci_physicalSize old))
        | None => s1
        end in
      let item1 := setAccounted item (accountedItemSize key item) in
      let s'' := sBytes s' (bs_used s' + ci_accountedSize item1) (bs_physical s') in
      sItems s'' (<[key := Some item1]> (bs_items s'')) in
  match commitBatch fault p1 s2 with
  | Ok p2 => (Store p2 (removeFiles (bs_obsoleteFiles s2) (st_files st)) (st_counters st), None)
  | Err e => (withProvider st p1, Some e)
  end.
End Writes.
