(* ===== verification/CacheInvariant.v ===== *)
(** * The invariant of the cache store

    [storeOk] collects what the store maintains: the provider's invariant
    ([providerOk]), a database that mirrors memory up to the keys marked
    dirty, and a file for every body in memory.  The lemmas show that every
    operation keeps it, whatever fails; [CacheTheorems] states it over all
    runs. *)
From Stdlib Require Import ZArith Lia Ascii String.
From stdpp Require Import base numbers list strings gmap sets option.
From S2P Require Import Prelude CacheCore ExpirationHeap Capacity CacheStore CacheView CacheExpiry.
From S2P Require Import CacheCommit CacheStoreOps CacheWrites.

Local Open Scope N_scope.

Section Invariant.
Context {C : MappingCodec} {CR : MappingCodecRoundtrip} {G : GoRange}.
Context (owner : string → string).

(** The checksum and size of the content a body's path stands for: the path is
    named after the SHA-256 of the content. *)
Context (content : string → string * N).

(** A body's file is present and holds what the item records. *)
Definition fileFor (files : gmap string fileInfo) (it : cacheItem) : Prop :=
  content (ci_value it) = (ci_checksum it, ci_compressedSize it)
  ∧ ∃ info, files !! ci_value it = Some info ∧ fi_checksum info = ci_checksum it
      ∧ fi_size info = ci_compressedSize it.

(** Every body in memory has its file. *)
Definition filesOk (items : gmap string cacheItem) (files : gmap string fileInfo) : Prop :=
  ∀ k it, items !! k = Some it → ci_file it = true → fileFor files it.

Lemma fileFor_remove files it paths :
  fileFor files it → ci_value it ∉ paths → fileFor (removeFiles paths files) it.
Proof.
  intros [Hc (info & Hf & Hi)] Hn. split; [done|]. exists info. split; [|done].
  apply map_lookup_filter_Some. done.
Qed.

Lemma fileFor_same files it it' :
  ci_value it' = ci_value it → ci_checksum it' = ci_checksum it → ci_compressedSize it' = ci_compressedSize it →
  fileFor files it → fileFor files it'.
Proof. unfold fileFor. by intros -> -> ->. Qed.

Record storeOk (st : store) : Prop := {
  st_ok : providerOk owner (st_provider st);
  st_index : ∃ ix, p_index (st_provider st) = Some ix ∧ indexSynced (st_provider st) ix;
  st_bodies : filesOk (p_items (st_provider st)) (st_files st);
}.

(** ** Changes that do not commit *)

Lemma storeOk_version st n : storeOk st → storeOk (withProvider st (setVersion (st_provider st) n)).
Proof. intros [[[] ? ? ? ?] (ix & Hix & []) ?]. split; [split; [split|..]; done|exists ix; split; [done|split; done]|done]. Qed.

Lemma storeOk_provider st p : storeOk st → p = st_provider st → storeOk (withProvider st p).
Proof. intros Hst ->. destruct st. exact Hst. Qed.

Lemma storeOk_counters st c : storeOk st → storeOk (withCounters st c).
Proof. intros [[[] ? ? ? ?] (ix & Hix & []) ?]. split; [split; [split|..]; done|exists ix; split; [done|split; done]|done]. Qed.

(** More files do no harm. *)
Lemma storeOk_files st files :
  storeOk st → (∀ path info, st_files st !! path = Some info → files !! path = Some info) →
  storeOk (withFiles st files).
Proof.
  intros [Hok Hix Hb] Hf. split; [done|done|]. intros k it Hk Hfile.
  destruct (Hb k it Hk Hfile) as [Hc (info & Hi & Hs)]. split; [done|]. exists info. split; [by apply Hf|done].
Qed.

(** Putting the popped entries back restores the invariant. *)
Lemma restore_ok st now p s es :
  storeOk st → expiredStaged owner now (st_provider st) (newBatchState (st_provider st)) ∅ p s es →
  ∀ n s', bs_poppedExpiry s' = bs_poppedExpiry s →
  storeOk (withProvider st (restoreExpiry (setVersion p n) s')).
Proof.
  intros [[Hm Hg Hph Hu Hee] Hix Hb] Hx n s' Hpop. destruct (xs_provider _ _ _ _ _ _ _ _ Hx) as (n0 & h & Hp).
  pose proof (xs_same _ _ _ _ _ _ _ _ Hx) as Hsame. rewrite (xs_popped _ _ _ _ _ _ _ _ Hx) in Hpop.
  simpl in Hpop. pose proof (mm_expiry _ _ _ Hm) as [Hheap Hnd Hent Hitem].
  pose proof (ex_heap _ _ _ (xs_expiry _ _ _ _ _ _ _ _ Hx)) as Hheap'.
  pose proof (sameEntries_forall _ _ _ (entryFor_index _) Hsame Hent) as Hall.
  destruct (restoreExpiry_ok (setVersion p n) es) as (h' & Hr & Hok & Hs').
  { intros e He. rewrite Hp. apply Hall. set_solver. }
  { exact Hheap'. }
  unfold restoreExpiry. rewrite Hpop, Hr. subst p.
  assert (sameEntries h' (p_expirations (st_provider st))) as Hback by (by eapply sameEntries_trans).
  assert (expiryOk (p_items (st_provider st)) h' ∅) as Hex.
  { split; [done| | |].
    - by rewrite (sameEntries_ids _ _ Hback).
    - exact (sameEntries_forall _ _ _ (entryFor_index _) Hback Hent).
    - intros k it Hk Hz Hl. apply (sameEntries_exists (λ e, ee_key e = k) _ _ (λ _ _, iff_refl _) Hback). by apply (Hitem k it). }
  destruct Hix as (ix & Hix & []).
  split; [|exists ix; split; [done|split; done]|done]. destruct Hm. split; [split; done|done|done|done|].
  simpl. by rewrite Hee, (sameEntries_length _ _ Hback).
Qed.

(** ** Committing *)

Lemma memOk_version p n lost : memOk owner p lost → memOk owner (setVersion p n) lost.
Proof. intros []. split; done. Qed.

(** The files of a committed view. *)
Lemma filesOk_view (items view : gmap string cacheItem) files :
  (∀ k, eraseIds <$> items !! k = eraseIds <$> view !! k) → filesOk view files → filesOk items files.
Proof.
  intros He Hf k it Hk Hfile. specialize (He k). rewrite Hk in He.
  destruct (view !! k) as [y|] eqn:Hy; [|done]. apply (inj Some) in He.
  assert (ci_file y = ci_file it ∧ ci_value it = ci_value y ∧ ci_checksum it = ci_checksum y
    ∧ ci_compressedSize it = ci_compressedSize y) as (Hyf & ? & ? & ?) by (destruct it, y; simpl in *; by simplify_eq).
  apply (fileFor_same _ y); try done. apply (Hf k y Hy). by rewrite Hyf.
Qed.

(** A transaction that fails leaves the provider as it was. *)
Lemma commit_fault p s code ix : p_index p = Some ix → commitBatch (Some code) p s = Err (ErrIndexIO code).
Proof. intros Hix. unfold commitBatch, persistBatchLocked. by rewrite Hix. Qed.

(** A committed batch keeps the invariant, if the files it leaves hold its
    bodies. *)
Lemma commit_storeOk st p s lost files c :
  storeOk st → memOk owner p lost → StagedOk owner p s → lost ⊆ dom (bs_items s) →
  p_groups p = p_groups (st_provider st) → p_itemGroups p = p_itemGroups (st_provider st) →
  p_items p = p_items (st_provider st) → p_index p = p_index (st_provider st) →
  p_dirtyItems p = p_dirtyItems (st_provider st) → p_dirtyGroups p = p_dirtyGroups (st_provider st) →
  filesOk (viewMap p s) files →
  ∃ p', commitBatch None p s = Ok p' ∧ storeOk (Store p' files c)
    ∧ (∀ k, eraseIds <$> p_items p' !! k = eraseIds <$> viewMap p s !! k)
    ∧ p_physicalUsed p' = bs_physical s ∧ p_cacheUsed p' = bs_used s
    ∧ (∀ g, default ∅ (p_groups p' !! g) = groupView p s g)
    ∧ ∃ ix', p_index p' = Some ix' ∧ ix_used ix' = p_cacheUsed p'
        ∧ ∀ k, ix_items ix' !! k = encodeDiskItem <$> p_items p' !! k.
Proof.
  intros [[Hm Hgo _ _ _] (ix & Hix & [Hi Hg]) _] Hmem Hs Hlost E1 E2 E3 E4 E5 E6 Hf.
  destruct (commit_index owner p s ix lost) as (p' & ix' & Hc & Hix' & Hsync & Hu & Hd1 & Hd2 & Hpo & Hv & Hgv & Hph & Hcu).
  - done.
  - unfold groupsOk. by rewrite E1, E2.
  - done.
  - done.
  - by rewrite E4.
  - split; rewrite ?E5, ?E6, ?E3, ?E1; done.
  - exists p'. split; [done|]. split; [|split_and!; try done].
    + split; [done|by exists ix'|]. simpl. by eapply filesOk_view.
    + exists ix'. split_and!; try done. intros k. apply (ixs_items _ _ Hsync). rewrite Hd1. set_solver.
Qed.

(** ** Deletions *)

Lemma foldl_skip {A B} (f : A → B → A) l a : (∀ a b, b ∈ l → f a b = a) → foldl f a l = a.
Proof.
  revert a. induction l as [|b l IH]; intros a Hf; simpl; [done|].
  rewrite Hf by set_solver. apply IH. intros a' b' Hb. apply Hf. set_solver.
Qed.

(** What a sequence of deletions makes of a staged batch. *)
Record shrunk (p : provider) (s : batchState) (p' : provider) (s' : batchState) : Prop := {
  sh_provider : ∃ n, p' = setVersion p n;
  sh_ok : StagedOk owner p' s';
  sh_bodies : ∀ k it, mappingKeyed k = false → viewMap p' s' !! k = Some it → viewMap p s !! k = Some it;
  sh_shrinks : ∀ k, viewMap p s !! k = None → viewMap p' s' !! k = None;
  sh_staged : dom (bs_items s) ⊆ dom (bs_items s');
  sh_obsolete : obsoleteGone owner p s → obsoleteGone owner p' s';
  sh_popped : bs_poppedExpiry s' = bs_poppedExpiry s;
}.

Lemma shrunk_refl p s : StagedOk owner p s → shrunk p s p s.
Proof. intros Hs. split; try done. exists (p_nextVersion p). by destruct p. Qed.

Lemma shrunk_trans p s p1 s1 p2 s2 : shrunk p s p1 s1 → shrunk p1 s1 p2 s2 → shrunk p s p2 s2.
Proof.
  intros [[n ->] ? Hb Hn ? Ho ?] [[n' ->] ? Hb' Hn' ? Ho' ?]. split.
  - by exists n'.
  - done.
  - intros k it Hk Hv. by apply Hb, Hb'.
  - intros k Hk. by apply Hn', Hn.
  - set_solver.
  - auto.
  - congruence.
Qed.

Lemma shrunk_delete p s key p' s' : StagedOk owner p s → deleteItem p s key = (p', s') → shrunk p s p' s'.
Proof.
  intros Hs Hd. apply (deleteItem_ok owner) in Hd; [|done].
  pose proof (itemDeleted_obsolete owner p s key p' s' Hs Hd) as Hobs.
  destruct Hd as [? ? Hg Hb ? ? [? ?] ? ? ? ? ?]. split; try done.
  intros k it Hk Hv. destruct (decide (k = key)) as [->|Hne]; [congruence|]. by rewrite <- Hb.
Qed.

Lemma shrunk_evicted p s p' s' n : shrunk p s p' s' → shrunk p s p' (sEvicted s' n).
Proof. intros [? ? ? ? ? ? ?]. split; try done. by apply StagedOk_evicted. Qed.

(** Deleting the keys of a list that a test selects. *)
Lemma shrunk_fold {A} (sel : A → option string) (l : list A) p s p' s' :
  StagedOk owner p s →
  foldl (λ '(p, s) a, match sel a with Some key => deleteItem p s key | None => (p, s) end) (p, s) l = (p', s') →
  shrunk p s p' s'.
Proof.
  revert p s. induction l as [|a l IH]; intros p s Hs Hf; cbn [foldl] in Hf.
  { simplify_eq. by apply shrunk_refl. }
  destruct (sel a) as [key|]; [|by apply IH].
  destruct (deleteItem p s key) as [p1 s1] eqn:Hd. apply shrunk_delete in Hd; [|done].
  eapply shrunk_trans; [exact Hd|]. apply IH; [by apply sh_ok in Hd|done].
Qed.

(** What remains in a shrunk view still has its file once the obsolete files
    are removed. *)
Lemma shrunk_files st p s :
  storeOk st → shrunk (st_provider st) (newBatchState (st_provider st)) p s →
  filesOk (viewMap p s) (removeFiles (bs_obsoleteFiles s) (st_files st)).
Proof.
  intros [_ _ Hb] Hsh k it Hk Hfile. pose proof (so_item _ _ _ _ (sh_ok _ _ _ _ Hsh) k it Hk) as Hit.
  assert (mappingKeyed k = false) as Hkey.
  { pose proof (io_kind _ _ _ Hit) as Hkind. rewrite Hfile in Hkind. by destruct (mappingKeyed k). }
  pose proof (sh_bodies _ _ _ _ Hsh k it Hkey Hk) as Hold. rewrite viewMap_new in Hold.
  apply fileFor_remove; [by apply (Hb k)|]. intros Hobs.
  apply (sh_obsolete _ _ _ _ Hsh) in Hobs; [|set_solver].
  rewrite (io_owner _ _ _ Hit Hfile), Hk in Hobs. done.
Qed.

Lemma finishDelete_ok fault st p s :
  storeOk st → shrunk (st_provider st) (newBatchState (st_provider st)) p s → storeOk (finishDelete fault st p s).
Proof.
  intros Hst Hsh. pose proof (shrunk_files st p s Hst Hsh) as Hf. destruct (sh_provider _ _ _ _ Hsh) as [n ->].
  unfold finishDelete. destruct fault as [code|].
  - destruct (st_index _ Hst) as (ix & Hix & _).
    rewrite (commit_fault _ _ _ ix) by done. by apply storeOk_version.
  - destruct (commit_storeOk st (setVersion (st_provider st) n) s ∅ (removeFiles (bs_obsoleteFiles s) (st_files st))
      (st_counters st)) as (p' & -> & Hok & _); try done.
    + apply memOk_version, (po_mem _ _ (st_ok _ Hst)).
    + exact (sh_ok _ _ _ _ Hsh).
Qed.

Lemma newStaged st : storeOk st → StagedOk owner (st_provider st) (newBatchState (st_provider st)).
Proof. intros Hst. apply providerOk_new, Hst. Qed.

(** With nothing staged, there is nothing to commit. *)
Lemma shrunk_nothing st p s :
  storeOk st → shrunk (st_provider st) (newBatchState (st_provider st)) p s → bs_items s = ∅ →
  storeOk (withFiles (withProvider st p) (removeFiles (bs_obsoleteFiles s) (st_files st))).
Proof.
  intros Hst Hsh He. pose proof (shrunk_files st p s Hst Hsh) as Hf.
  destruct (sh_provider _ _ _ _ Hsh) as [n ->]. pose proof (storeOk_version st n Hst) as [Hok Hix _].
  split; [done|done|]. simpl. intros k it Hk Hfile. apply (Hf k it); [|done].
  rewrite viewMap_lookup. unfold getItem. rewrite He, lookup_empty. done.
Qed.

Lemma deleteItemIf_ok fault st key f : storeOk st → storeOk (deleteItemIf fault st key f).
Proof.
  intros Hst. unfold deleteItemIf. destruct (p_items _ !! key) as [it|]; [|done]. destruct (f it); [|done].
  destruct (deleteItem _ _ _) as [p s] eqn:Hd. apply finishDelete_ok; [done|].
  eapply shrunk_delete; [|done]. by apply newStaged.
Qed.

Lemma removeCorrupt_ok fault st key generation : storeOk st → storeOk (removeCorrupt fault st key generation).
Proof. intros Hst. unfold removeCorrupt. by apply storeOk_counters, deleteItemIf_ok. Qed.

Lemma Delete_ok fault st key : storeOk st → storeOk (Delete fault st key).
Proof.
  intros Hst. unfold Delete. cbv zeta. destruct (deleteItem _ _ _) as [p s] eqn:Hd.
  apply shrunk_delete in Hd; [|by apply newStaged].
  case_bool_decide; [by apply shrunk_nothing|by apply finishDelete_ok].
Qed.

Lemma DeleteMany_ok fault st f e : storeOk st → storeOk (DeleteMany fault st f e).
Proof.
  intros Hst. unfold DeleteMany. cbv zeta. destruct (foldl _ _ _) as [p s] eqn:Hd.
  assert (shrunk (st_provider st) (newBatchState (st_provider st)) p s) as Hsh.
  { eapply (shrunk_fold (λ '(key, _), if f key || String.prefix e key then Some key else None)); [by apply newStaged|].
    rewrite <- Hd. apply foldl_same. intros [p1 s1] [key it]. by destruct (f key || _). }
  case_bool_decide; [by apply shrunk_nothing|by apply finishDelete_ok].
Qed.

(** A mapping that does not decode has no reverse links. *)
Lemma undecoded_unlinked st mk it v :
  storeOk st → p_items (st_provider st) !! mk = Some it → ci_file it = false → DecodeMapping (ci_value it) = None →
  mk ∉ default ∅ (p_variantMappings (st_provider st) !! v).
Proof.
  intros Hst Hit Hf Hdec Hin. pose proof (po_mem _ _ (st_ok _ Hst)) as Hm.
  apply (mm_rev _ _ _ Hm) in Hin as (it' & Hit' & Hv). simplify_eq.
  rewrite mappingVariants_decoded, Hdec in Hv; [set_solver|done|].
  apply (io_cached _ _ _ (mm_items _ _ _ Hm mk it Hit) Hf).
Qed.

Lemma stageEntry_shrunk st mk p s r :
  storeOk st → stageEntry (st_provider st) mk = (p, s, r) →
  shrunk (st_provider st) (newBatchState (st_provider st)) p s ∧ r = [].
Proof.
  intros Hst He. unfold stageEntry in He. pose proof (newStaged st Hst) as Hs0. cbv zeta in He.
  destruct (p_items (st_provider st) !! mk) as [it|] eqn:Hit; [|simplify_eq; by split; [apply shrunk_refl|]].
  destruct (ci_file it) eqn:Hf; [simplify_eq; by split; [apply shrunk_refl|]|].
  destruct (DecodeMapping (ci_value it)) as [mapping|] eqn:Hdec.
  - destruct (foldl _ _ _) as [p1 s1] eqn:Hfold in He. simplify_eq. split; [|done].
    eapply (shrunk_fold (λ '(key, _), Some key)); [done|]. rewrite <- Hfold. apply foldl_same. by intros [] [].
  - rewrite (foldl_skip _ (range (p_variantMappings (st_provider st)))) in He.
    + simplify_eq. split; [|done].
      pose proof (removeItemGroups_ok owner None no_hidden (st_provider st) _ mk Hs0) as Hg.
      destruct (removeItemGroups_eq (st_provider st) (newBatchState (st_provider st)) mk) as (x & y & Heq & _ & _).
      rewrite Heq in Hg |- *. split; try done. exists (p_nextVersion (st_provider st)). by destruct (st_provider st).
    + intros [[p1 s1] r1] [v ms] Hin%range_elem. rewrite bool_decide_eq_false_2; [done|].
      pose proof (undecoded_unlinked st mk it v Hst Hit Hf Hdec) as Hn. by rewrite Hin in Hn.
Qed.

Lemma DeleteEntry_ok fault st baseKey : storeOk st → storeOk (DeleteEntry fault st baseKey).
Proof.
  intros Hst. unfold DeleteEntry. cbv zeta. destruct (stageEntry _ _) as [[p1 s1] recovered] eqn:H1.
  apply stageEntry_shrunk in H1 as [Hsh1 ->]; [|done].
  destruct (deleteItem p1 s1 _) as [p2 s2] eqn:Hd.
  apply shrunk_delete in Hd; [|by apply sh_ok in Hsh1]. pose proof (shrunk_trans _ _ _ _ _ _ Hsh1 Hd) as Hsh.
  case_bool_decide; [by apply shrunk_nothing|].
  pose proof (finishDelete_ok fault st p2 s2 Hst Hsh) as Hfin. unfold finishDelete in Hfin.
  destruct (commitBatch fault p2 s2); done.
Qed.

Lemma deleteKeys_shrunk keys p s n p' s' n' :
  StagedOk owner p s →
  foldl (λ '(p, s, count) key,
      match getItem p s key with
      | Some item =>
          let '(p', s') := deleteItem p s key in
          (p', s', if ci_file item then count + 1 else count)
      | None => (p, s, count)
      end) (p, s, n) keys = (p', s', n') →
  shrunk p s p' s'.
Proof.
  revert p s n. induction keys as [|key keys IH]; intros p s n Hs Hfold; cbn [foldl] in Hfold.
  { simplify_eq. by apply shrunk_refl. }
  destruct (getItem p s key); [|by eapply IH].
  destruct (deleteItem p s key) as [p2 s2] eqn:Hd. apply shrunk_delete in Hd; [|done].
  eapply shrunk_trans; [exact Hd|]. eapply IH; [by apply sh_ok in Hd|done].
Qed.

Lemma deleteKeysLocked_ok fault st keys p r :
  storeOk st → deleteKeysLocked fault (st_provider st) keys = (p, r) →
  storeOk (match r with
           | Ok (_, obsolete) => Store p (removeFiles obsolete (st_files st)) (st_counters st)
           | Err _ => withProvider st p
           end).
Proof.
  intros Hst. unfold deleteKeysLocked. cbv zeta. destruct (foldl _ _ _) as [[p1 s1] count] eqn:Hfold.
  apply deleteKeys_shrunk in Hfold as Hsh; [|by apply newStaged].
  intros Hr. case_bool_decide as He.
  - apply pair_eq in Hr as [<- <-]. pose proof (shrunk_nothing st p1 s1 Hst Hsh He) as [Hok Hix _]. split; [done|done|].
    simpl. intros k it Hk Hfile. destruct (sh_provider _ _ _ _ Hsh) as [n ->].
    apply fileFor_remove; [by apply (st_bodies _ Hst k)|set_solver].
  - pose proof (finishDelete_ok fault st p1 s1 Hst Hsh) as Hfin. unfold finishDelete in Hfin.
    destruct (commitBatch fault p1 s1); simplify_eq; done.
Qed.

Lemma resetLocked_ok fault st p obsolete :
  storeOk st → resetLocked fault (st_provider st) = Ok (p, obsolete) →
  storeOk (Store p (removeFiles obsolete (st_files st)) (st_counters st)) ∧ p_items p = ∅.
Proof.
  intros _ Hr. unfold resetLocked in Hr. destruct fault; [done|]. simplify_eq. split; [|done].
  split; simpl; [| |done].
  - split; [split|..]; simpl; try done.
    + split; [split|constructor| |done]; [intros i Hi; simpl in Hi; lia|done|set_solver].
    + split; [constructor| |done]. intros id k. split; [set_solver|]. intros (it & Hit & _). done.
    + intros v mk. rewrite lookup_empty. split; [set_solver|]. intros (it & Hit & _). done.
  - eexists. split; [done|]. split; intros ? _; simpl; rewrite !lookup_empty; done.
Qed.

(** ** Touches and lookups *)

Definition retimed (it it' : cacheItem) : Prop :=
  setLastAccess (setModifiedAt it 0) 0 = setLastAccess (setModifiedAt it' 0) 0.

Lemma lru_move items l k it id :
  lruOk items l → items !! k = Some it → ci_lru it = Some id →
  lruOk items (filter (λ x, x.1 ≠ id) l ++ [(id, k)]).
Proof.
  intros Hl Hit Hid. pose proof (lru_remove owner items l k it Hl Hit) as [Hnd Hel _]. rewrite Hid in Hnd, Hel.
  split.
  - rewrite fmap_app. apply list.NoDup_app. split; [done|]. split; [|apply NoDup_singleton].
    intros i ([i' k'] & -> & [Hne _]%list_elem_of_filter)%list_elem_of_fmap. simpl in *. set_solver.
  - intros i k'. rewrite elem_of_app, list_elem_of_singleton, Hel. setoid_rewrite lookup_delete_Some. split.
    + intros [(x & [Hne Hx] & Hi)|[= -> ->]]; eauto.
    + intros (x & Hx & Hi). destruct (decide (k = k')) as [->|Hne]; [right; congruence|left; eauto].
  - exact (lr_file _ _ Hl).
Qed.

(** Replacing an item by one with other access times. *)
Lemma retime_ok st k it it' l' :
  storeOk st → p_items (st_provider st) !! k = Some it → retimed it it' →
  lruOk (p_items (st_provider st)) l' →
  let p := st_provider st in
  storeOk (withProvider st (setDirty (setItems (setLruList p l') (<[k := it']> (p_items p)))
                              ({[k]} ∪ p_dirtyItems p) (p_dirtyGroups p))).
Proof.
  intros [[[Hi Hex Hl Hid Hb Hm Hrev] Hg Hph Hu Hee] (ix & Hix & [Hsi Hsg]) Hf] Hk Hr Hl' p. fold p in Hk, Hl' |- *.
  assert (ci_value it' = ci_value it ∧ ci_mapping it' = ci_mapping it ∧ ci_file it' = ci_file it
    ∧ ci_expiresAt it' = ci_expiresAt it ∧ ci_generation it' = ci_generation it
    ∧ ci_physicalSize it' = ci_physicalSize it ∧ ci_accountedSize it' = ci_accountedSize it
    ∧ ci_lru it' = ci_lru it ∧ ci_expiration it' = ci_expiration it
    ∧ mappingVariants it' = mappingVariants it ∧ ci_checksum it' = ci_checksum it
    ∧ ci_compressedSize it' = ci_compressedSize it) as (Ev & Em & Ef & Ee & Eg & Ep & Ea & El & Ex & Evar & Ec & Es).
  { unfold retimed in Hr. destruct it, it'. simpl in *. simplify_eq. done. }
  assert (∀ P : cacheItem → Prop, (P it ↔ P it') → ∀ j,
    (∃ x, <[k := it']> (p_items p) !! j = Some x ∧ P x) ↔ ∃ x, p_items p !! j = Some x ∧ P x) as Hsame.
  { intros P HP j. setoid_rewrite lookup_insert_Some. split.
    - intros (x & [[<- <-]|[Hne Hx]] & Hp); [exists it; by rewrite HP|eauto].
    - intros (x & Hx & Hp). destruct (decide (k = j)) as [<-|Hne]; [|eauto].
      exists it'. split; [by left|]. rewrite <- HP. congruence. }
  assert (∀ f : cacheItem → N, f it' = f it → map_sum f (<[k := it']> (p_items p)) = map_sum f (p_items p)) as Hsum.
  { intros f Hfe. rewrite map_sum_insert, (map_sum_delete f (p_items p) k it Hk), Hfe. done. }
  assert (∀ j x, <[k := it']> (p_items p) !! j = Some x → ∃ y, p_items p !! j = Some y
    ∧ ci_value x = ci_value y ∧ ci_file x = ci_file y ∧ ci_lru x = ci_lru y
    ∧ ci_expiration x = ci_expiration y ∧ ci_expiresAt x = ci_expiresAt y) as Hback.
  { intros j x [[<- <-]|[_ Hx]]%lookup_insert_Some; [exists it|exists x]; done. }
  split; [split; [split|..]|..]; simpl.
  - intros j x [[<- <-]|[_ Hx]]%lookup_insert_Some; [|by apply Hi].
    pose proof (Hi k it Hk) as []. split; rewrite ?Ev, ?Em, ?Ef, ?Ee, ?Ep, ?Ea, ?El, ?Ex; try done.
    rewrite io_acct. unfold accountedItemSize. by rewrite Ev, Ef, Ep.
  - destruct Hex as [? ? Hent Hitem]. split; try done.
    + intros e He. unfold entryFor. rewrite Hsame by (by rewrite Ex, Eg, Ee). by apply Hent.
    + intros j x (y & Hy & _ & _ & _ & _ & E)%Hback. rewrite E. by apply Hitem.
  - destruct Hl' as [? Hel Hfile]. split; [done| |].
    + intros i j. rewrite Hel, Hsame by (by rewrite El). done.
    + intros j x (y & Hy & _ & E & E' & _)%Hback. rewrite E, E'. by apply (Hfile j).
  - destruct Hid as [A B D]. split.
    + intros j x i (y & Hy & _ & _ & E & _)%Hback. rewrite E. by apply (A j).
    + intros j x i (y & Hy & _ & _ & _ & E & _)%Hback. rewrite E. by apply (B j).
    + intros j j' x x' i (y & Hy & _ & _ & _ & E & _)%Hback (y' & Hy' & _ & _ & _ & E' & _)%Hback.
      rewrite E, E'. by apply D.
  - rewrite Hsum; [done|]. unfold bodyWeight. by rewrite Ef.
  - rewrite Hsum; [done|]. unfold mappingWeight. by rewrite Ef.
  - intros v mk. rewrite Hsame by (by rewrite Evar). apply Hrev.
  - done.
  - by rewrite Hsum.
  - by rewrite Hsum.
  - done.
  - exists ix. split; [done|]. split; [|done]. intros j Hj. simpl in *.
    rewrite lookup_insert_ne by set_solver. apply Hsi. set_solver.
  - intros j x [[<- <-]|[_ Hx]]%lookup_insert_Some Hfile; [|by apply (Hf j)].
    apply (fileFor_same _ it); try done. apply (Hf k it Hk). by rewrite <- Ef.
Qed.

Lemma touchItem_ok st key generation now modifiedAt locked :
  storeOk st → storeOk (withProvider st (touchItem (st_provider st) key generation now modifiedAt locked)).
Proof.
  intros Hst. unfold touchItem. destruct (p_items (st_provider st) !! key) as [it|] eqn:Hit; [|by apply storeOk_provider].
  destruct (_ || _ || _); [by apply storeOk_provider|].
  pose proof (mm_lru _ _ _ (po_mem _ _ (st_ok _ Hst))) as Hl.
  assert (∀ x b, retimed x (if (b : bool) then setModifiedAt x modifiedAt else x)) as Hr1 by (by intros [] []).
  destruct (second <=? now - ci_lastAccess it)%Z.
  - destruct (ci_lru it) as [id|] eqn:Hid; cbn [p_items setLruList].
    + apply (retime_ok st key it); [done|done| |by apply (lru_move _ _ key it)].
      destruct (negb (modifiedAt =? 0)%Z); by destruct it.
    + pose proof (retime_ok st key it (if negb (modifiedAt =? 0)%Z then setModifiedAt (setLastAccess it now) modifiedAt
        else setLastAccess it now) (p_lru (st_provider st)) Hst Hit) as H.
      destruct (st_provider st). apply H; [destruct (negb _); by destruct it|done].
  - pose proof (retime_ok st key it (if negb (modifiedAt =? 0)%Z then setModifiedAt it modifiedAt else it)
      (p_lru (st_provider st)) Hst Hit) as H.
    destruct (st_provider st). apply H; [apply Hr1|done].
Qed.

Lemma getDecodedMapping_ok fault st key now locked st' r :
  storeOk st → getDecodedMapping fault st key now locked = (st', r) → storeOk st'.
Proof.
  intros Hst. unfold getDecodedMapping. destruct (p_items _ !! key) as [it|] eqn:Hit; [|intros; by simplify_eq].
  destruct (ci_file it) eqn:Hf; [intros; by simplify_eq|].
  destruct (expiredAt now it); [intros [= <- _]; by apply deleteItemIf_ok|].
  destruct (ci_mapping it) eqn:Hm; [intros [= <- _]; by apply touchItem_ok|].
  pose proof (io_cached _ _ _ (mm_items _ _ _ (po_mem _ _ (st_ok _ Hst)) key it Hit) Hf) as Hc.
  rewrite Hm in Hc. rewrite <- Hc. intros [= <- _]. by apply deleteItemIf_ok.
Qed.

Lemma readHTTPResponse_ok {R} (load : fileInfo → option R) fault st key now locked st' r :
  storeOk st → readHTTPResponse load fault st key now locked = (st', r) → storeOk st'.
Proof.
  intros Hst. unfold readHTTPResponse, openCachedObject.
  destruct (p_items _ !! key) as [it|] eqn:Hit; [|intros; by simplify_eq].
  destruct (negb (ci_file it)); [intros; by simplify_eq|].
  destruct (expiredAt now it); [intros [= <- _]; by apply deleteItemIf_ok|].
  destruct (st_files st !! ci_value it) as [info|]; [|intros [= <- _]; by apply removeCorrupt_ok].
  destruct (load info); intros [= <- _]; [by apply touchItem_ok|].
  by apply removeCorrupt_ok, touchItem_ok.
Qed.

Lemma electFrom_ok {R} (load : fileInfo → option R) fault request now locked variants :
  ∀ st v st' e, storeOk st → electFrom load fault st request v now locked variants = (st', e) → storeOk st'.
Proof.
  induction variants as [|[key index] rest IH]; intros st v st' e Hst He; cbn [electFrom] in He; [by simplify_eq|].
  destruct (variantMatches request index); [|by eapply IH].
  destruct (rv_Matched _); [|by eapply IH].
  destruct (if (now <? ki_FreshTime index)%Z then _ else _) as [st1 r1] eqn:H1.
  assert (storeOk st1) as Hst1.
  { destruct (now <? ki_FreshTime index)%Z; [exact (readHTTPResponse_ok load _ _ _ _ _ _ _ Hst H1)|by simplify_eq]. }
  destruct r1 as [[r|]|]; [by simplify_eq| |by simplify_eq].
  destruct (if (now <? ki_StaleTime index)%Z then _ else _) as [st2 r2] eqn:H2.
  assert (storeOk st2) as Hst2.
  { destruct (now <? ki_StaleTime index)%Z; [exact (readHTTPResponse_ok load _ _ _ _ _ _ _ Hst1 H2)|by simplify_eq]. }
  destruct r2 as [[r|]|]; [by simplify_eq|by eapply IH|by simplify_eq].
Qed.

Lemma getMultiLevel_ok {R} (load : fileInfo → option R) fault st key request v now locked st' e :
  storeOk st → getMultiLevel load fault st key request v now locked = (st', e) → storeOk st'.
Proof.
  intros Hst. unfold getMultiLevel. destruct (getDecodedMapping _ _ _ _ _) as [st1 decoded] eqn:Hd.
  apply getDecodedMapping_ok in Hd; [|done].
  destruct decoded as [[mapping|]|]; [|intros [= <- _]; by apply storeOk_counters..].
  destruct (sm_Mapping mapping) eqn:Hm; [|intros [= <- _]; by apply storeOk_counters].
  destruct (mappingElection _ _ _ _ _ _ _ _) as [st2 el] eqn:Hel. apply electFrom_ok in Hel; [|done].
  destruct el; intros [= <- _]; by apply storeOk_counters.
Qed.

(** ** Expiry *)

(** The state after popping due entries: memory as before, save for them. *)
Lemma expired_mem st now p s es :
  storeOk st → expiredStaged owner now (st_provider st) (newBatchState (st_provider st)) ∅ p s es →
  memOk owner p (list_to_set (ee_key <$> es)) ∧ (list_to_set (ee_key <$> es) : gset string) ⊆ dom (bs_items s).
Proof.
  intros Hst Hx. pose proof (po_mem _ _ (st_ok _ Hst)) as Hm.
  pose proof (xs_expiry _ _ _ _ _ _ _ _ Hx) as Hex. pose proof (xs_same _ _ _ _ _ _ _ _ Hx) as Hsame.
  pose proof (sameEntries_forall _ _ _ (entryFor_index _) Hsame (ex_entry _ _ _ (mm_expiry _ _ _ Hm))) as Hent.
  pose proof (xs_gone _ _ _ _ _ _ _ _ Hx) as Hgone.
  destruct (xs_provider _ _ _ _ _ _ _ _ Hx) as (n & h & ->). rewrite union_empty_r_L in Hex. split.
  - destruct Hm. split; done.
  - intros k. rewrite elem_of_list_to_set, list_elem_of_fmap. intros (e & -> & He).
    destruct (Hent e ltac:(set_solver)) as (it & Hit & _). specialize (Hgone e He).
    rewrite viewMap_lookup in Hgone. unfold getItem in Hgone. apply elem_of_dom.
    destruct (bs_items s !! ee_key e); [eauto|]. simpl in Hgone. congruence.
Qed.

(** Expiring is a deletion. *)
Lemma expired_shrunk st now p s es :
  storeOk st → expiredStaged owner now (st_provider st) (newBatchState (st_provider st)) ∅ p s es →
  filesOk (viewMap p s) (removeFiles (bs_obsoleteFiles s) (st_files st)).
Proof.
  intros Hst Hx k it Hk Hfile. pose proof (so_item _ _ _ _ (xs_ok _ _ _ _ _ _ _ _ Hx) k it Hk) as Hit.
  assert (mappingKeyed k = false) as Hkey.
  { pose proof (io_kind _ _ _ Hit) as Hkind. rewrite Hfile in Hkind. by destruct (mappingKeyed k). }
  assert (k ∉ ee_key <$> es) as Hnot.
  { intros (e & -> & He)%list_elem_of_fmap. rewrite (xs_gone _ _ _ _ _ _ _ _ Hx e He) in Hk. done. }
  pose proof Hk as Hold. rewrite (xs_bodies _ _ _ _ _ _ _ _ Hx k Hkey Hnot), viewMap_new in Hold.
  apply fileFor_remove; [by apply (st_bodies _ Hst k)|]. intros Hobs.
  apply (xs_obsolete _ _ _ _ _ _ _ _ Hx) in Hobs; [|set_solver].
  rewrite (io_owner _ _ _ Hit Hfile), Hk in Hobs. done.
Qed.

(** Popping nothing due leaves the invariant. *)
Lemma expired_nothing st now p s es :
  storeOk st → expiredStaged owner now (st_provider st) (newBatchState (st_provider st)) ∅ p s es →
  bs_items s = ∅ → storeOk (withProvider st p).
Proof.
  intros Hst Hx He. destruct (expired_mem st now p s es Hst Hx) as [Hm Hd].
  assert (es = []) as ->.
  { destruct es as [|e es]; [done|]. exfalso. rewrite He in Hd. simpl in Hd. set_solver. }
  pose proof (xs_same _ _ _ _ _ _ _ _ Hx) as Hsame. simpl in Hsame, Hm.
  destruct (xs_provider _ _ _ _ _ _ _ _ Hx) as (n & h & ->). simpl in Hsame.
  destruct Hst as [[_ ? ? ? Hee] (ix & Hix & []) ?].
  split; [split; try done|exists ix; split; [done|split; done]|done].
  simpl. by rewrite Hee, (sameEntries_length _ _ Hsame).
Qed.

(** Staging the expired items, then committing. *)
Lemma expireCommit_ok fault st now p s c :
  storeOk st → stageExpired (st_provider st) (newBatchState (st_provider st)) now = (p, s) →
  match commitBatch fault p s with
  | Ok p' => storeOk (Store p' (removeFiles (bs_obsoleteFiles s) (st_files st)) c)
      ∧ ∀ k, eraseIds <$> p_items p' !! k = eraseIds <$> viewMap p s !! k
  | Err _ => storeOk (Store (restoreExpiry p s) (st_files st) c)
  end.
Proof.
  intros Hst Hexp. apply (stageExpired_ok owner now _ _ ∅) in Hexp as (es & Hx).
  2:{ by apply newStaged. }
  2:{ apply (mm_expiry _ _ _ (po_mem _ _ (st_ok _ Hst))). }
  destruct (expired_mem st now p s es Hst Hx) as [Hm Hd]. pose proof (expired_shrunk st now p s es Hst Hx) as Hf.
  pose proof (xs_ok _ _ _ _ _ _ _ _ Hx) as Hok. destruct (xs_provider _ _ _ _ _ _ _ _ Hx) as (n & h & Hp).
  destruct fault as [code|].
  - destruct (st_index _ Hst) as (ix & Hix & _). rewrite (commit_fault _ _ _ ix) by (by rewrite Hp).
    pose proof (restore_ok st now p s es Hst Hx n s eq_refl) as Hr.
    assert (setVersion p n = p) as Hv by (by rewrite Hp). rewrite Hv in Hr.
    apply (storeOk_counters _ c) in Hr. exact Hr.
  - destruct (commit_storeOk st p s (list_to_set (ee_key <$> es)) (removeFiles (bs_obsoleteFiles s) (st_files st)) c)
      as (p' & -> & Hok' & Hv & _); try done; by rewrite Hp.
Qed.

Lemma stageExpired_empty st now p s :
  storeOk st → stageExpired (st_provider st) (newBatchState (st_provider st)) now = (p, s) →
  bs_items s = ∅ → storeOk (withProvider st p).
Proof.
  intros Hst Hexp He. apply (stageExpired_ok owner now _ _ ∅) in Hexp as (es & Hx).
  - by eapply expired_nothing.
  - by apply newStaged.
  - apply (mm_expiry _ _ _ (po_mem _ _ (st_ok _ Hst))).
Qed.

Lemma pruneExpired_ok fault st now : storeOk st → storeOk (pruneExpired fault st now).
Proof.
  intros Hst. unfold pruneExpired. cbv zeta. destruct (stageExpired _ _ _) as [p s] eqn:Hexp.
  case_bool_decide as He; [by eapply stageExpired_empty|].
  pose proof (expireCommit_ok fault st now p s (st_counters st) Hst Hexp) as H.
  destruct (commitBatch fault p s); [apply H|exact H].
Qed.

(** ** Evictions *)

Lemma evictLoop_shrunk ra rp lru : ∀ p s fa fp p' s' fa' fp',
  StagedOk owner p s → evictLoop p s ra rp fa fp lru = (p', s', fa', fp') → shrunk p s p' s'.
Proof.
  induction lru as [|[id key] rest IH]; intros p s fa fp p' s' fa' fp' Hs He; cbn [evictLoop] in He.
  { simplify_eq. by apply shrunk_refl. }
  destruct (_ || _); [|simplify_eq; by apply shrunk_refl].
  destruct (getItem p s key) as [it|]; [|by eapply IH]. destruct (ci_file it); [|by eapply IH].
  destruct (deleteItem p s key) as [p1 s1] eqn:Hd. apply shrunk_delete in Hd; [|done].
  apply (shrunk_evicted _ _ _ _ (bs_evicted s1 + 1)) in Hd.
  eapply shrunk_trans; [exact Hd|]. eapply IH; [by apply sh_ok in Hd|done].
Qed.

Lemma evictForBudget_ok fault removal st ra rp st' r :
  storeOk st → evictForBudget fault removal st ra rp = (st', r) → storeOk st'.
Proof.
  intros Hst. unfold evictForBudget. destruct (_ && _); [intros; by simplify_eq|]. cbv zeta.
  destruct (evictLoop _ _ _ _ _ _ _) as [[[p s] fa] fp] eqn:He.
  apply evictLoop_shrunk in He; [|by apply newStaged].
  destruct (bs_evicted s =? 0).
  - intros [= <- _]. destruct (sh_provider _ _ _ _ He) as [n ->]. by apply storeOk_version.
  - pose proof (finishDelete_ok fault st p s Hst He) as Hfin. unfold finishDelete in Hfin.
    destruct (commitBatch fault p s) as [p'|e]; [|by intros [= <- _]].
    destruct removal as [[code remaining]|]; intros [= <- _].
    + apply (storeOk_files (Store p' (removeFiles (bs_obsoleteFiles s) (st_files st)) (st_counters st))); [done|].
      intros path info [Hi Hn]%map_lookup_filter_Some. apply map_lookup_filter_Some. split; [done|set_solver].
    + apply (storeOk_counters _ (addEvictions (bs_evicted s) (st_counters st))) in Hfin. exact Hfin.
Qed.

Lemma ensureSpace_ok f1 f2 removal usage st now incoming configured transient st' r :
  storeOk st → ensureSpaceLockedWithTransient f1 f2 removal usage st now incoming configured transient = (st', r) → storeOk st'.
Proof.
  intros Hst. unfold ensureSpaceLockedWithTransient. cbv zeta. destruct (stageExpired _ _ _) as [p s] eqn:Hexp.
  destruct (if bool_decide _ then _ else _) as [st1 perr] eqn:H1.
  assert (storeOk st1) as Hst1.
  { case_bool_decide as He; [simplify_eq; by eapply stageExpired_empty|].
    pose proof (expireCommit_ok f1 st now p s) as H. destruct (commitBatch f1 p s); simplify_eq; by apply H. }
  destruct perr; [intros; by simplify_eq|].
  destruct (capacityAvailable _ _ _ _ _) as [budget|]; [|intros; by simplify_eq].
  destruct (_ || _); [intros [= <- _]; by apply storeOk_counters|].
  destruct (_ && _); [intros; by simplify_eq|].
  destruct (evictForBudget _ _ _ _ _) as [st2 er] eqn:Hev. apply evictForBudget_ok in Hev; [|done].
  destruct er as [[fa fp]|]; [|intros; by simplify_eq].
  destruct (_ || _); intros [= <- _]; [by apply storeOk_counters|done].
Qed.

End Invariant.
