(* ===== verification/CacheFlush.v ===== *)
(** * Writes and refreshes keep the store's invariant

    The staging of a write ([stageWrite]) keeps the staged invariant, makes
    the new body visible, stays within the physical budget and never evicts a
    body of the same batch; installing files never touches a live body; a
    flush or a refresh therefore keeps [storeOk], whether it commits or not. *)
From Stdlib Require Import ZArith Lia Ascii String.
From stdpp Require Import base numbers list strings gmap sets option.
From S2P Require Import Prelude CacheCore ExpirationHeap Capacity CacheStore CacheView CacheExpiry.
From S2P Require Import CacheCommit CacheStoreOps CacheWrites CacheInvariant.

Local Open Scope N_scope.

Lemma mappingKeyed_prefix k : mappingKeyed (MappingKeyPrefix +:+ k) = true.
Proof.
  unfold mappingKeyed. change (MappingKeyPrefix +:+ k)
    with (String "I" (String "D" (String "X" (String "_" k)))). destruct k; done.
Qed.

Section Flush.
Context {C : MappingCodec} {CR : MappingCodecRoundtrip} {G : GoRange}.
Context (owner : string → string) (content : string → string * N).

(** ** Replacing a body in the view *)

(** Inserting a body over an old body of the same key. *)
Lemma StagedOk_body p s s' key it :
  StagedOk owner p s → mappingKeyed key = false → ItemOk owner key it →
  viewMap p s' = <[key := it]> (viewMap p s) →
  (∀ v, variantsView p s' v = variantsView p s v) →
  (∀ g k, k ∈ groupView p s' g ↔ g ∈ itemGroupView p s' k) →
  bs_physical s' = bs_physical s - from_option ci_physicalSize 0 (viewMap p s !! key) + ci_physicalSize it →
  bs_used s' ≤ bs_used s - from_option ci_accountedSize 0 (viewMap p s !! key) + ci_accountedSize it →
  (∀ f, f ∈ bs_obsoleteFiles s' → owner f ∈ dom (bs_items s')) →
  StagedOk owner p s'.
Proof.
  intros Hs Hk Hit Hv Hvar Hg Hph Hu Ho.
  assert (mappingVariants it = ∅) as Hnone.
  { apply mappingVariants_file. by rewrite (io_kind _ _ _ Hit), Hk. }
  apply (StagedOk_insert owner None no_hidden p s s' key it); try done.
  - intros v mk. rewrite Hvar, Hnone. split; [|set_solver]. intros Hmk. right. split; [|done].
    intros ->. apply (variantsView_keyed owner p s v) in Hmk; [|done]. congruence.
  - intros f Hf. left. by apply Ho.
Qed.

(** The physical bytes of a key are counted. *)
Lemma physical_counted p s key it :
  StagedOk owner p s → viewMap p s !! key = Some it → ci_physicalSize it ≤ bs_physical s.
Proof.
  intros Hs Hk. rewrite (so_physical _ _ _ _ Hs). simpl. rewrite (map_sum_delete _ _ _ _ Hk). lia.
Qed.

(** ** [Refresh] *)

Lemma setDeadline_ok key it e l g :
  ItemOk owner key it → isZeroTime e = false → ItemOk owner key (setDeadline it e l g).
Proof. intros [] He. split; simpl; try done. by rewrite He. Qed.

(** The two records a refresh stages. *)
Lemma refresh_staged p mk key mappingItem body encoded mapping e l g1 g2 :
  StagedOk owner p (newBatchState p) → mappingKeyed mk = true →
  p_items p !! mk = Some mappingItem → p_items p !! key = Some body → ci_file mappingItem = false →
  ci_file body = true → DecodeMapping encoded = Some mapping → isZeroTime e = false →
  let s1 := stageMapping p (newBatchState p) mk
              (Some (setDeadline (setEncoded mappingItem encoded mapping g1) e l g1)) in
  let s2 := sItems s1 (<[key := Some (setDeadline body e l g2)]> (bs_items s1)) in
  StagedOk owner p s2
  ∧ viewMap p s2 = <[key := setDeadline body e l g2]>
      (<[mk := mappingItemOf mk (setDeadline (setEncoded mappingItem encoded mapping g1) e l g1)]> (p_items p)).
Proof.
  intros Hs Hmk Hm Hb Hmf Hbf Hdec He s1 s2.
  assert (viewMap p (newBatchState p) !! mk = Some mappingItem) as Hvm by (by rewrite viewMap_new).
  pose proof (so_item _ _ _ _ Hs mk mappingItem Hvm) as Hmi.
  destruct (stageMapping_some owner None no_hidden p (newBatchState p) mk
    (setDeadline (setEncoded mappingItem encoded mapping g1) e l g1)) as (Hs1 & Hv1 & Hfr & Hi1 & Hph1); try done.
  { exact (io_phys0 _ _ _ Hmi Hmf). }
  { right. simpl. by rewrite Hdec. }
  { exact (io_lru _ _ _ Hmi Hmf). }
  { simpl. by rewrite He. }
  fold s1 in Hs1, Hv1, Hfr, Hi1, Hph1. rewrite viewMap_new in Hv1. clearbody s1.
  assert (viewMap p (newBatchState p) !! key = Some body) as Hvb by (by rewrite viewMap_new).
  pose proof (so_item _ _ _ _ Hs key body Hvb) as Hbi.
  assert (mappingKeyed key = false) as Hkey.
  { pose proof (io_kind _ _ _ Hbi) as Hk. rewrite Hbf in Hk. by destruct (mappingKeyed key). }
  assert (viewMap p s1 !! key = Some body) as Hvb1 by (rewrite Hv1, lookup_insert_ne; [done|congruence]).
  assert (viewMap p s2 = <[key := setDeadline body e l g2]> (viewMap p s1)) as Hv2.
  { unfold s2. rewrite (viewMap_stage p _ (bs_items s1) key (setDeadline body e l g2)) by done. by destruct s1. }
  split; [|by rewrite Hv2, Hv1].
  apply (StagedOk_body p s1 s2 key (setDeadline body e l g2)); try done.
  - by apply setDeadline_ok.
  - exact (so_groups _ _ _ _ Hs1).
  - rewrite Hvb1. simpl. pose proof (physical_counted p s1 key body Hs1 Hvb1). lia.
  - rewrite Hvb1. simpl. lia.
  - intros f Hf. destruct (so_obsolete _ _ _ _ Hs1 f Hf) as [?|?]; [|done]. simpl. set_solver.
Qed.

Lemma Refresh_ok fault stale now st baseKey request duration update p' ok :
  storeOk owner content st → isZeroTime (now + (duration + stale)) = false →
  Refresh fault stale now (st_provider st) baseKey request duration update = (p', ok) →
  storeOk owner content (withProvider st p').
Proof.
  intros Hst Hz. unfold Refresh. cbv zeta. set (mk := MappingKeyPrefix +:+ baseKey).
  assert (∀ ok', (st_provider st, ok') = (p', ok) → storeOk owner content (withProvider st p')) as Hsame.
  { intros ok' [= <- _]. by apply storeOk_provider. }
  destruct (p_items (st_provider st) !! mk) as [mi|] eqn:Hm; [|apply Hsame].
  destruct (ci_file mi) eqn:Hmf; [apply Hsame|].
  destruct (DecodeMapping (ci_value mi)) as [decoded|]; [|apply Hsame].
  destruct (firstMatch _ _) as [[key index]|]; [|apply Hsame].
  case_bool_decide; [apply Hsame|].
  destruct (p_items (st_provider st) !! key) as [body|] eqn:Hb; [|apply Hsame].
  destruct (ci_file body) eqn:Hbf; simpl negb; [|apply Hsame]. cbv iota.
  destruct (EncodeMapping _) as [encoded|] eqn:Henc; [|apply Hsame]. apply decode_encode in Henc.
  set (mapping := {| sm_Mapping := _ |}) in *. set (e := (now + (duration + stale))%Z) in *.
  set (n1 := p_nextVersion (bumpVersion (st_provider st))).
  set (n2 := p_nextVersion (bumpVersion (bumpVersion (st_provider st)))).
  assert (∀ n s, StagedOk owner (st_provider st) s → StagedOk owner (setVersion (st_provider st) n) s) as Hver.
  { intros n s. by apply StagedOk_version. }
  destruct (refresh_staged (bumpVersion (st_provider st)) mk key mi body encoded mapping e now n1 n2)
    as [Hs2 Hv2]; try done.
  { apply Hver, newStaged with content, Hst. }
  { apply mappingKeyed_prefix. }
  change (newBatchState (bumpVersion (st_provider st))) with (newBatchState (st_provider st)) in Hs2, Hv2.
  set (s2 := sItems _ _) in *.
  destruct fault as [code|].
  - destruct (st_index _ _ _ Hst) as (ix & Hix & _).
    rewrite (commit_fault _ _ _ ix) by done. intros [= <- _]. by apply (storeOk_version _ _ st).
  - destruct (commit_storeOk owner content st (bumpVersion (bumpVersion (st_provider st))) s2 ∅ (st_files st)
      (st_counters st)) as (p3 & -> & Hok & _); try done.
    + apply memOk_version, memOk_version, (po_mem _ _ (st_ok _ _ _ Hst)).
    + by apply StagedOk_version.
    + change (viewMap (bumpVersion (bumpVersion (st_provider st))) s2)
        with (viewMap (bumpVersion (st_provider st)) s2). rewrite Hv2.
      intros k it [[<- <-]|[Hne [[<- <-]|[_ Hk]]%lookup_insert_Some]]%lookup_insert_Some Hfile.
      * apply (fileFor_same _ _ body); try done. by apply (st_bodies _ _ _ Hst key).
      * unfold mappingItemOf in Hfile. simpl in Hfile. congruence.
      * by apply (st_bodies _ _ _ Hst k).
    + intros [= <- _]. exact Hok.
Qed.

(** ** Eviction candidates *)

(** A body that may be evicted. *)
Definition evictable (p : provider) (s : batchState) (protected : gset string) (key : string) : bool :=
  negb (bool_decide (key ∈ protected))
  && match getItem p s key with Some item => ci_file item | None => false end.

Definition sumOf (f : cacheItem → N) (p : provider) (s : batchState) (keys : list string) : N :=
  foldr (λ k n, from_option f 0 (getItem p s k) + n) 0 keys.

Lemma sumOf_app f p s ks ks' : sumOf f p s (ks ++ ks') = sumOf f p s ks + sumOf f p s ks'.
Proof. induction ks as [|k ks IH]; simpl; [done|]. rewrite IH. lia. Qed.

(** The walk takes evictable bodies in LRU order until enough is freed. *)
Lemma candidatesFrom_spec p s protected ra rp lru : ∀ fa fp found cs,
  candidatesFrom p s protected ra rp fa fp found lru = (cs, true) →
  ∃ n new, cs = found ++ new ∧ new = take (S n) (filter (λ k, evictable p s protected k = true) lru.*2)
    ∧ length new = S n
    ∧ ra ≤ fa + sumOf ci_accountedSize p s new ∧ rp ≤ fp + sumOf ci_physicalSize p s new
    ∧ ∀ m, (0 < m ≤ n)%nat →
        ¬ (ra ≤ fa + sumOf ci_accountedSize p s (take m new) ∧ rp ≤ fp + sumOf ci_physicalSize p s (take m new)).
Proof.
  induction lru as [|[id key] rest IH]; intros fa fp found cs Hc; cbn [candidatesFrom] in Hc; [done|].
  rewrite fmap_cons, filter_cons. simpl.
  assert (∀ b, evictable p s protected key = b → b = false →
    candidatesFrom p s protected ra rp fa fp found rest = (cs, true) →
    ∃ n new, cs = found ++ new
      ∧ new = take (S n) (if decide (evictable p s protected key = true)
                          then key :: filter (λ k, evictable p s protected k = true) rest.*2
                          else filter (λ k, evictable p s protected k = true) rest.*2)
      ∧ length new = S n
      ∧ ra ≤ fa + sumOf ci_accountedSize p s new ∧ rp ≤ fp + sumOf ci_physicalSize p s new
      ∧ ∀ m, (0 < m ≤ n)%nat → ¬ (ra ≤ fa + sumOf ci_accountedSize p s (take m new)
          ∧ rp ≤ fp + sumOf ci_physicalSize p s (take m new))) as Hskip.
  { intros b Hb -> Hrest. rewrite decide_False by congruence. by apply IH. }
  assert (evictable p s protected key = negb (bool_decide (key ∈ protected))
    && match getItem p s key with Some item => ci_file item | None => false end) as Hev by done.
  case_bool_decide as Hprot; [by apply (Hskip false)|].
  destruct (getItem p s key) as [it|] eqn:Hit; [|by apply (Hskip false)].
  destruct (ci_file it) eqn:Hf; [|by apply (Hskip false)].
  clear Hskip. rewrite decide_True by done.
  destruct (_ && _) eqn:Hen.
  - injection Hc as <-. apply andb_true_iff in Hen as [H1%N.leb_le H2%N.leb_le].
    exists 0%nat, [key]. simpl. rewrite Hit. simpl. split_and!; try done; lia.
  - destruct (IH _ _ _ _ Hc) as (n & new & -> & Hnew & Hlen & Ha & Hp & Hmin).
    exists (S n), (key :: new). simpl. rewrite Hit. simpl.
    split; [by rewrite <- (assoc_L app)|]. split; [by rewrite Hnew|]. split; [by rewrite Hlen|].
    split; [lia|]. split; [lia|]. intros [|m] [Hm0 Hm]; [lia|]. simpl. rewrite Hit. simpl.
    destruct m as [|m].
    + simpl. apply andb_false_iff in Hen as [?%N.leb_gt|?%N.leb_gt]; lia.
    + intros [Hx Hy]. apply (Hmin (S m) ltac:(lia)). split; lia.
Qed.

(** One element per body: the keys of the LRU list are distinct. *)
Lemma lru_keys_NoDup items l : lruOk items l → NoDup l.*2.
Proof.
  intros [Hnd Hel _]. apply NoDup_fmap_2_strong.
  - intros [i k] [i' k'] H1 H2 Heq. simpl in Heq. subst k'.
    apply Hel in H1 as (it & Hit & E), H2 as (it' & Hit' & E'). congruence.
  - by eapply NoDup_fmap_1.
Qed.

(** Evicting distinct bodies frees exactly their physical bytes and leaves the
    other bodies alone. *)
Lemma evictKeys_ok keys p s p' s' :
  StagedOk owner p s → NoDup keys →
  Forall (λ k, mappingKeyed k = false ∧ is_Some (viewMap p s !! k)) keys →
  evictKeys p s keys = (p', s') →
  shrunk owner p s p' s'
  ∧ bs_physical s' = bs_physical s - sumOf ci_physicalSize p s keys
  ∧ sumOf ci_physicalSize p s keys ≤ bs_physical s
  ∧ (∀ k, mappingKeyed k = false → k ∉ keys →
      viewMap p' s' !! k = viewMap p s !! k ∧ bs_items s' !! k = bs_items s !! k)
  ∧ (∀ k, k ∈ keys → bs_items s' !! k = Some None).
Proof.
  unfold evictKeys. revert p s. induction keys as [|key keys IH]; intros p s Hs Hnd Hall He; cbn [foldl] in He.
  { simplify_eq. split; [by apply shrunk_refl|]. simpl. split; [lia|]. split; [lia|]. split; [done|set_solver]. }
  apply list.NoDup_cons in Hnd as [Hnew Hnd]. apply Forall_cons_1 in Hall as [[Hk Hsome] Hall].
  destruct (deleteItem p s key) as [p1 s1] eqn:Hd. pose proof Hd as Hsh1. apply (shrunk_delete owner) in Hsh1; [|done].
  apply (shrunk_evicted owner _ _ _ _ (bs_evicted s1 + 1)) in Hsh1.
  apply (deleteItem_ok owner) in Hd; [|done].
  pose proof (dl_bodies _ _ _ _ _ _ Hd) as Hbodies. pose proof (dl_nostage _ _ _ _ _ _ Hd) as Hnst.
  pose proof (dl_physical _ _ _ _ _ _ Hd) as Hph. pose proof (dl_gone _ _ _ _ _ _ Hd) as Hgone.
  pose proof (proj2 (dl_staged _ _ _ _ _ _ Hd) Hsome) as Hdom.
  set (s1' := sEvicted s1 (bs_evicted s1 + 1)) in *.
  assert (∀ ks, key ∉ ks → Forall (λ k, mappingKeyed k = false ∧ is_Some (viewMap p s !! k)) ks →
    sumOf ci_physicalSize p1 s1' ks = sumOf ci_physicalSize p s ks) as Hsum.
  { induction ks as [|k ks IHk]; intros Hni Hks; simpl; [done|]. apply Forall_cons_1 in Hks as [[Hkk _] Hks].
    rewrite IHk by (done || set_solver). f_equal. f_equal.
    rewrite <- !viewMap_lookup. by apply Hbodies; [|set_solver]. }
  destruct (IH p1 s1') as (Hsh2 & Hph2 & Hle & Hother & Hin); [by apply (sh_ok owner _ _ _ _ Hsh1)|done| |done|].
  { rewrite list.Forall_forall in Hall |- *. intros k Hki. destruct (Hall k Hki) as [Hkk Hks]. split; [done|].
    change (is_Some (viewMap p1 s1 !! k)). rewrite Hbodies; [done|done|]. by intros ->. }
  rewrite Hsum in Hph2, Hle by done.
  assert (from_option ci_physicalSize 0 (viewMap p s !! key) ≤ bs_physical s) as Hkle.
  { destruct (viewMap p s !! key) as [it|] eqn:Hit; simpl; [|lia]. by apply (physical_counted p s key). }
  change (bs_physical s1') with (bs_physical s1) in Hph2, Hle. simpl sumOf. rewrite <- viewMap_lookup.
  split; [by eapply shrunk_trans|]. split; [lia|]. split; [lia|]. split.
  - intros k Hkk [Hne Hni]%not_elem_of_cons. destruct (Hother k Hkk Hni) as [-> ->].
    split; [by apply Hbodies|by apply Hnst].
  - intros k [->|Hki]%elem_of_cons; [|by apply Hin].
    rewrite (proj2 (Hother key Hk Hnew)). change (bs_items s1 !! key = Some None).
    apply elem_of_dom in Hdom as [x Hx]. rewrite viewMap_lookup in Hgone. unfold getItem in Hgone.
    rewrite Hx in Hgone. by rewrite Hx, Hgone.
Qed.

(** ** Staging one write *)

(** What the callers of the write queue guarantee of a write: its variant key
    is not a mapping key, its final path is named after that key and the
    checksum of the encoded object, and the object was written to a temporary
    file, which is no body's path. *)
Record writeOk (files : gmap string fileInfo) (w : pendingWrite) : Prop := {
  wo_key : mappingKeyed (pw_variedKey w) = false;
  wo_owner : owner (pw_finalPath w) = pw_variedKey w;
  wo_content : content (pw_finalPath w) = (pw_checksum w, pw_compressedSize w);
  wo_temporary : mappingKeyed (owner (pw_temporaryPath w)) = true;
  wo_file : ∀ info, files !! pw_temporaryPath w = Some info →
    fi_checksum info = pw_checksum w ∧ fi_size info = pw_compressedSize w;
}.

Lemma bodyItem_ok stale now generation w :
  mappingKeyed (pw_variedKey w) = false → owner (pw_finalPath w) = pw_variedKey w →
  ItemOk owner (pw_variedKey w) (bodyItem stale now generation w).
Proof. intros Hk Ho. split; simpl; rewrite ?Hk; done. Qed.

Lemma replaceBody_ok p s w old body :
  StagedOk owner p s → viewMap p s !! pw_variedKey w = old → ItemOk owner (pw_variedKey w) body →
  mappingKeyed (pw_variedKey w) = false → ci_value body = pw_finalPath w →
  let s' := replaceBody p s w old body in
  StagedOk owner p s' ∧ bs_items s' = <[pw_variedKey w := Some body]> (bs_items s)
  ∧ bs_physical s' = bs_physical s - from_option ci_physicalSize 0 old + ci_physicalSize body
  ∧ bs_poppedExpiry s' = bs_poppedExpiry s ∧ bs_evicted s' = bs_evicted s.
Proof.
  intros Hs Hold Hb Hk Hval. set (key := pw_variedKey w) in *. unfold replaceBody. fold key.
  set (s1 := match old with Some _ => _ | None => _ end).
  assert (∃ x y u ph ob, s1 = sObsolete (sBytes (sItemGroups (sGroups s x) y) u ph) ob
    ∧ (∀ g k, k ∈ groupView p s1 g ↔ g ∈ itemGroupView p s1 k)
    ∧ u = bs_used s - from_option ci_accountedSize 0 old
    ∧ ph = bs_physical s - from_option ci_physicalSize 0 old
    ∧ ∀ f, f ∈ ob → f ∈ bs_obsoleteFiles s ∨ owner f = key) as (x & y & u & ph & ob & Hs1 & Hg & Hu & Hph & Hob).
  { unfold s1. clear s1. destruct old as [o|].
    - pose proof (so_item _ _ _ _ Hs key o Hold) as Ho. pose proof (io_kind _ _ _ Ho) as Hof. rewrite Hk in Hof.
      simpl in Hof. rewrite Hof. pose proof (so_groups _ _ _ _ (removeItemGroups_ok owner None no_hidden p s key Hs)) as Hgr.
      destruct (removeItemGroups_eq p s key) as (x & y & Heq & _ & _). rewrite Heq in Hgr |- *.
      case_bool_decide.
      + exists x, y, (bs_used s - N.min (bs_used s) (ci_accountedSize o)), (bs_physical s - N.min (bs_physical s) (ci_physicalSize o)),
          (bs_obsoleteFiles s). split; [reflexivity|]. split; [exact Hgr|]. simpl. split; [lia|]. split; [lia|]. auto.
      + exists x, y, (bs_used s - N.min (bs_used s) (ci_accountedSize o)), (bs_physical s - N.min (bs_physical s) (ci_physicalSize o)),
          ({[ci_value o]} ∪ bs_obsoleteFiles s). split; [reflexivity|]. split; [exact Hgr|]. simpl. split; [lia|]. split; [lia|].
        intros f [->%elem_of_singleton|?]%elem_of_union; [right|by left]. exact (io_owner _ _ _ Ho Hof).
    - exists (bs_groups s), (bs_itemGroups s), (bs_used s), (bs_physical s), (bs_obsoleteFiles s).
      split; [by destruct s|]. split; [exact (so_groups _ _ _ _ Hs)|]. simpl. split; [lia|]. split; [lia|]. auto. }
  clearbody s1. subst s1. cbv zeta. set (s' := sItems _ _).
  assert (viewMap p s' = <[key := body]> (viewMap p s)) as Hv.
  { rewrite (viewMap_stage p s' (bs_items s) key body) by done. done. }
  split; [|simpl; rewrite Hph; done].
  apply (StagedOk_body p s s' key body); try done; rewrite ?Hold; simpl; [lia|lia|].
  intros f Hf. destruct (Hob f Hf) as [Hin| ->]; [|set_solver].
  destruct (so_obsolete _ _ _ _ Hs f Hin); [set_solver|done].
Qed.

(** The candidates of a write: distinct bodies, none protected, enough of them. *)
Lemma evictionCandidates_ok p s protected na aa np pa cs :
  StagedOk owner p s → lruOk (p_items p) (p_lru p) →
  evictionCandidates p s protected na aa np pa = (cs, true) →
  NoDup cs ∧ Forall (λ k, mappingKeyed k = false ∧ is_Some (viewMap p s !! k)) cs
  ∧ (∀ k, k ∈ cs → k ∉ protected) ∧ np ≤ pa + sumOf ci_physicalSize p s cs
  ∧ na ≤ aa + sumOf ci_accountedSize p s cs.
Proof.
  intros Hs Hl Hc. unfold evictionCandidates in Hc. destruct (_ && _) eqn:Hen.
  { injection Hc as <-. apply andb_true_iff in Hen as [H1%N.leb_le H2%N.leb_le].
    split; [constructor|]. split; [constructor|]. split; [set_solver|]. simpl. lia. }
  apply candidatesFrom_spec in Hc as (n & new & -> & Hnew & _ & Ha & Hp & _). simpl.
  assert (∀ k, k ∈ new → evictable p s protected k = true) as Hel.
  { intros k Hk. rewrite Hnew in Hk. apply elem_of_take in Hk as (i & Hi & _).
    apply list_elem_of_lookup_2, list_elem_of_filter in Hi as [? _]. done. }
  split.
  { rewrite Hnew. eapply sublist_NoDup; [|apply sublist_take]. apply list.NoDup_filter. by eapply lru_keys_NoDup. }
  split; [|split; [|lia]].
  - apply list.Forall_forall. intros k Hk. apply Hel in Hk. unfold evictable in Hk.
    apply andb_true_iff in Hk as [_ Hk]. rewrite viewMap_lookup. destruct (getItem p s k) as [it|] eqn:Hit; [|done].
    split; [|eauto]. pose proof (so_kind _ _ _ _ Hs k it) as Hkind. rewrite viewMap_lookup in Hkind.
    specialize (Hkind Hit). rewrite Hk in Hkind. by destruct (mappingKeyed k).
  - intros k Hk. apply Hel in Hk. unfold evictable in Hk. apply andb_true_iff in Hk as [Hk _].
    apply negb_true_iff, bool_decide_eq_false in Hk. done.
Qed.

(** Adding groups leaves everything else. *)
Lemma addGroups_ok p k1 k2 gs : ∀ s, StagedOk owner p s →
  let s' := foldl (λ s group, addItemGroup p (addItemGroup p s k1 group) k2 group) s gs in
  StagedOk owner p s' ∧ bs_items s' = bs_items s ∧ bs_physical s' = bs_physical s
  ∧ bs_poppedExpiry s' = bs_poppedExpiry s.
Proof.
  induction gs as [|g gs IH]; intros s Hs; cbn [foldl]; [done|].
  pose proof (addItemGroup_ok owner None no_hidden p s k1 g Hs) as H1.
  pose proof (addItemGroup_ok owner None no_hidden p _ k2 g H1) as H2.
  destruct (IH _ H2) as (Hok & Hi & Hph & Hpop). split; [done|]. rewrite Hi, Hph, Hpop.
  destruct (addItemGroup_eq p (addItemGroup p s k1 g) k2 g) as (x & y & -> & _ & _).
  destruct (addItemGroup_eq p s k1 g) as (x' & y' & -> & _ & _). done.
Qed.

(** What staging one write did. *)
Record writeStaged (budget : capacityBudget) (stale now : Z) (p : provider) (s : batchState) (protected : gset string)
    (w : pendingWrite) (p' : provider) (s' : batchState) (protected' : gset string) (r : option storeError) : Prop := {
  ws_provider : ∃ n, p' = setVersion p n;
  ws_ok : StagedOk owner p' s';
  ws_popped : bs_poppedExpiry s' = bs_poppedExpiry s;
  ws_staged : dom (bs_items s) ⊆ dom (bs_items s');
  ws_reject : r ≠ None → s' = s ∧ protected' = protected;
  ws_protected : r = None → protected' = {[pw_variedKey w]} ∪ protected;
  ws_budget : r = None → bs_physical s' ≤ cb_physicalAvailable budget;
  ws_visible : r = None → ∃ generation,
    bs_items s' !! pw_variedKey w = Some (Some (bodyItem stale now generation w));
  ws_bodies : ∀ k, mappingKeyed k = false → k ≠ pw_variedKey w →
    bs_items s' !! k = bs_items s !! k ∨ k ∉ protected ∧ bs_items s' !! k = Some None;
}.

Lemma writeStaged_reject budget stale now p s protected w n e :
  StagedOk owner p s → writeStaged budget stale now p s protected w (setVersion p n) s protected (Some e).
Proof. intros Hs. split; try done; [by exists n|by apply StagedOk_version|by left]. Qed.

(** The mapping item a write stages is well formed. *)
Lemma writeMapping_ok p s mk mapping e now g a :
  StagedOk owner p s → mappingKeyed mk = true →
  let it := setDeadline (setAccounted (newMappingItem mapping (DecodeMapping mapping) e now) a) e now g in
  let s' := stageMapping p s mk (Some it) in
  StagedOk owner p s' ∧ (∀ k, mappingKeyed k = false → bs_items s' !! k = bs_items s !! k)
  ∧ dom (bs_items s) ⊆ dom (bs_items s') ∧ bs_physical s' = bs_physical s
  ∧ bs_poppedExpiry s' = bs_poppedExpiry s.
Proof.
  intros Hs Hk it.
  destruct (stageMapping_some owner None no_hidden p s mk it Hs Hk) as (Hok & _ & (_ & _ & _ & _ & Hpop) & Hi & Hph);
    try done; [by right|].
  split; [done|]. rewrite Hi. split; [|split; [set_solver|done]].
  intros k Hkk. rewrite lookup_insert_ne; [done|congruence].
Qed.

Lemma stageWrite_ok budget stale now p s protected files w p' s' protected' r :
  StagedOk owner p s → lruOk (p_items p) (p_lru p) → writeOk files w →
  stageWrite budget stale now p s protected w = (p', s', protected', r) →
  writeStaged budget stale now p s protected w p' s' protected' r.
Proof.
  intros Hs Hl Hw Hst. unfold stageWrite in Hst. cbv zeta in Hst.
  set (mk := MappingKeyPrefix +:+ pw_baseKey w) in *. set (key := pw_variedKey w) in *.
  assert (mappingKeyed mk = true) as Hmk by apply mappingKeyed_prefix.
  pose proof (wo_key _ _ Hw) as Hkey. fold key in Hkey.
  destruct (MappingUpdater _ _ _ _ _ _ _ _) as [mapping|].
  2:{ simplify_eq. pose proof (writeStaged_reject budget stale now p' s' protected' w (p_nextVersion p') ErrMapping Hs) as H.
      by destruct p'. }
  set (body := bodyItem stale now (p_nextVersion (bumpVersion p)) w) in *.
  destruct (_ || _) eqn:Hguard in Hst; [simplify_eq; by apply writeStaged_reject|].
  apply orb_false_iff in Hguard as [_ Hguard%N.ltb_ge].
  assert (match getItem p s key with Some o => if ci_file o then Some o else None | None => None end
    = getItem p s key) as Hfile.
  { destruct (getItem p s key) as [o|] eqn:Ho; [|done]. pose proof (so_kind _ _ _ _ Hs key o) as Hk.
    rewrite viewMap_lookup, Hkey in Hk. by rewrite (Hk Ho). }
  rewrite Hfile in Hst.
  destruct (evictionCandidates _ _ _ _ _ _ _) as [candidates [|]] eqn:Hc; [|simplify_eq; by apply writeStaged_reject].
  assert (StagedOk owner (bumpVersion p) s) as Hs1 by (by apply StagedOk_version).
  apply evictionCandidates_ok in Hc as (Hnd & Hall & Hprot & Hphys & _); [|done|done].
  destruct (evictKeys _ _ _) as [p2 s2] eqn:Hev.
  apply evictKeys_ok in Hev as (Hsh & Hph2 & Hle & Hother & Hin); [|done|done|done].
  destruct (sh_provider _ _ _ _ _ Hsh) as [n2 ->]. pose proof (sh_ok _ _ _ _ _ Hsh) as Hs2.
  assert (key ∉ candidates) as Hnc by (intros Hk; apply (Hprot key Hk); set_solver).
  assert (viewMap (setVersion (bumpVersion p) n2) s2 !! key = getItem p s key) as Hold.
  { rewrite (proj1 (Hother key Hkey Hnc)), viewMap_lookup. done. }
  destruct (replaceBody_ok (setVersion (bumpVersion p) n2) s2 w (getItem p s key) body Hs2 Hold)
    as (Hs3 & Hi3 & Hph3 & Hpop3 & _); [by apply bodyItem_ok, Hw|done|done|].
  set (s3 := replaceBody _ _ _ _ _) in *.
  set (p3 := bumpVersion (setVersion (bumpVersion p) n2)) in *.
  assert (StagedOk owner p3 s3) as Hs3' by (by apply StagedOk_version).
  pose proof (writeMapping_ok p3 s3 mk mapping (now + (pw_duration w + stale)) now (p_nextVersion p3)
    (accountedItemSize mk (newMappingItem mapping (DecodeMapping mapping) (now + (pw_duration w + stale)) now))
    Hs3' Hmk) as (Hs4 & Hi4 & Hd4 & Hph4 & Hpop4).
  destruct (addGroups_ok p3 key mk (pw_groups w) _ Hs4) as (Hs5 & Hi5 & Hph5 & Hpop5).
  apply pair_eq in Hst as [Hst <-]. apply pair_eq in Hst as [Hst <-]. apply pair_eq in Hst as [<- <-].
  assert (∀ k, mappingKeyed k = false → k ≠ key → bs_items s3 !! k = bs_items s2 !! k) as H32.
  { intros k Hk Hne. by rewrite Hi3, lookup_insert_ne. }
  split.
  - exists (n2 + 1). done.
  - exact Hs5.
  - etransitivity; [exact Hpop5|]. etransitivity; [exact Hpop4|]. rewrite Hpop3. apply (sh_popped _ _ _ _ _ Hsh).
  - pose proof (sh_staged _ _ _ _ _ Hsh) as Hd2. etransitivity; [|rewrite Hi5; exact Hd4]. rewrite Hi3. set_solver.
  - done.
  - done.
  - intros _. etransitivity; [apply N.eq_le_incl; exact Hph5|]. rewrite Hph4, Hph3, Hph2.
    change (sumOf ci_physicalSize (bumpVersion p) s candidates) with (sumOf ci_physicalSize p s candidates) in *. lia.
  - intros _. eexists. rewrite Hi5, Hi4, Hi3 by done. by rewrite lookup_insert_eq.
  - intros k Hk Hne. rewrite Hi5, Hi4, H32 by done.
    destruct (decide (k ∈ candidates)) as [Hkc|Hkc]; [right|left].
    + split; [|by apply Hin]. pose proof (Hprot k Hkc). set_solver.
    + exact (proj2 (Hother k Hk Hkc)).
Qed.

(** ** Staging the batch *)

(** The body of a write, whatever its modification time. *)
Definition isBody (stale : Z) (it : cacheItem) (w : pendingWrite) : Prop :=
  ∃ now generation t, it = setModifiedAt (bodyItem stale now generation w) t.

(** The bodies a batch has staged are those of its accepted writes. *)
Record batchStaged (budget : capacityBudget) (stale : Z) (s : batchState) (protected : gset string)
    (accepted : list pendingWrite) : Prop := {
  bt_from : ∀ k it, mappingKeyed k = false → bs_items s !! k = Some (Some it) →
    ∃ w, w ∈ accepted ∧ pw_variedKey w = k ∧ isBody stale it w;
  bt_visible : ∀ w, w ∈ accepted → pw_variedKey w ∈ protected
    ∧ ∃ it, bs_items s !! pw_variedKey w = Some (Some it);
  bt_budget : accepted ≠ [] → bs_physical s ≤ cb_physicalAvailable budget;
}.

Lemma batchStaged_write budget stale now p s protected acc w p' s' protected' r :
  batchStaged budget stale s protected acc → mappingKeyed (pw_variedKey w) = false →
  (∀ w', w' ∈ acc → mappingKeyed (pw_variedKey w') = false) →
  writeStaged budget stale now p s protected w p' s' protected' r →
  batchStaged budget stale s' protected' (acc ++ match r with None => [w] | Some _ => [] end).
Proof.
  intros [Hfrom Hvis Hbud] Hk Hacck Hws. destruct r as [e|].
  { destruct (ws_reject _ _ _ _ _ _ _ _ _ _ _ Hws ltac:(done)) as [-> ->]. by rewrite app_nil_r. }
  rewrite (ws_protected _ _ _ _ _ _ _ _ _ _ _ Hws eq_refl).
  destruct (ws_visible _ _ _ _ _ _ _ _ _ _ _ Hws eq_refl) as (g & Hit).
  pose proof (ws_bodies _ _ _ _ _ _ _ _ _ _ _ Hws) as Hb.
  pose proof (ws_budget _ _ _ _ _ _ _ _ _ _ _ Hws eq_refl) as Hbu. split.
  - intros k it Hkk Hkit. destruct (decide (k = pw_variedKey w)) as [->|Hne].
    + exists w. rewrite Hit in Hkit. simplify_eq. split; [set_solver|]. split; [done|]. by exists now, g, (pw_modifiedAt w).
    + destruct (Hb k Hkk Hne) as [Heq|[_ Heq]]; rewrite Heq in Hkit; [|done].
      destruct (Hfrom k it Hkk Hkit) as (w' & Hw' & ? & ?). exists w'. set_solver.
  - intros w' [Hw'|Hw'%list_elem_of_singleton]%elem_of_app; [|subst w'; split; [set_solver|eauto]].
    destruct (Hvis w' Hw') as [Hprot [it Hi]]. split; [set_solver|].
    destruct (decide (pw_variedKey w' = pw_variedKey w)) as [Heq|Hne]; [rewrite Heq; eauto|].
    destruct (Hb _ (Hacck w' Hw') Hne) as [Hsame|[Hnp _]]; [|done]. rewrite Hsame. eauto.
  - done.
Qed.

Lemma stageWrites_ok budget stale clock files batch : ∀ i p s protected acc p' s' rs,
  StagedOk owner p s → lruOk (p_items p) (p_lru p) → Forall (writeOk files) batch →
  batchStaged budget stale s protected acc → (∀ w, w ∈ acc → mappingKeyed (pw_variedKey w) = false) →
  stageWrites budget stale clock i p s protected batch = (p', s', rs) →
  (∃ n, p' = setVersion p n) ∧ StagedOk owner p' s' ∧ bs_poppedExpiry s' = bs_poppedExpiry s
  ∧ dom (bs_items s) ⊆ dom (bs_items s') ∧ length rs = length batch
  ∧ ∃ protected', batchStaged budget stale s' protected' (acc ++ acceptedOf batch rs).
Proof.
  induction batch as [|w batch IH]; intros i p s protected acc p' s' rs Hs Hl Hall Hbt Hk Hst; cbn [stageWrites] in Hst.
  { simplify_eq. split; [exists (p_nextVersion p'); by destruct p'|]. split_and!; try done.
    exists protected. simpl. by rewrite app_nil_r. }
  apply Forall_cons_1 in Hall as [Hw Hall].
  destruct (stageWrite budget stale (clock i) p s protected w) as [[[p1 s1] prot1] r] eqn:H1.
  apply stageWrite_ok with (files := files) in H1; [|done|done|done].
  destruct (stageWrites budget stale clock (S i) p1 s1 prot1 batch) as [[p2 s2] rs2] eqn:H2. simplify_eq.
  destruct (ws_provider _ _ _ _ _ _ _ _ _ _ _ H1) as [n ->].
  apply (batchStaged_write budget stale (clock i) p s protected acc w _ _ _ _ Hbt (wo_key _ _ Hw) Hk) in H1 as Hbt1.
  apply (IH _ _ _ _ _ _ _ _ (ws_ok _ _ _ _ _ _ _ _ _ _ _ H1) Hl Hall Hbt1) in H2
    as ((n2 & ->) & Hok & Hpop & Hd & Hlen & (prot' & Hbt2)).
  - split; [by exists n2|]. split; [done|].
    split; [rewrite Hpop; exact (ws_popped _ _ _ _ _ _ _ _ _ _ _ H1)|].
    split; [pose proof (ws_staged _ _ _ _ _ _ _ _ _ _ _ H1); set_solver|].
    split; [simpl; by rewrite Hlen|]. exists prot'. rewrite <- (assoc_L app) in Hbt2.
    destruct r; exact Hbt2.
  - intros w' [Hw'|Hw']%elem_of_app; [by apply Hk|]. destruct r; [set_solver|].
    apply list_elem_of_singleton in Hw' as ->. exact (wo_key _ _ Hw).
Qed.

(** ** Installing files *)

(** A file present with the content its path stands for. *)
Definition goodFile (files : gmap string fileInfo) (path : string) : Prop :=
  ∃ info, files !! path = Some info ∧ content path = (fi_checksum info, fi_size info).

Definition bodyPath (path : string) : Prop := mappingKeyed (owner path) = false.

Lemma presentFile_good env files w info :
  content (pw_finalPath w) = (pw_checksum w, pw_compressedSize w) →
  presentFile env files w = Some info → goodFile files (pw_finalPath w).
Proof.
  intros Hc Hp. unfold presentFile in Hp. destruct (files !! pw_finalPath w) as [i|] eqn:Hf; [|done].
  destruct (_ && _) eqn:Hm in Hp; [|done].
  apply andb_true_iff in Hm as [[_ Hs%N.eqb_eq]%andb_true_iff Hck%bool_decide_eq_true]. exists i. split; [done|]. by rewrite Hc, Hs, Hck.
Qed.
(** Files that are there can be read to verify them. *)
Definition verifies (env : flushEnv) : Prop := ∀ path, fe_verify env path = true.

Lemma presentFile_bad env files w :
  verifies env →
  content (pw_finalPath w) = (pw_checksum w, pw_compressedSize w) →
  presentFile env files w = None → ¬ goodFile files (pw_finalPath w).
Proof.
  intros Hv Hc Hp (i & Hi & Hci). unfold presentFile in Hp. rewrite Hi, Hv in Hp. rewrite Hc in Hci. injection Hci as E1 E2.
  rewrite E1, E2, N.eqb_refl, bool_decide_eq_true_2 in Hp by done. done.
Qed.

(** Installing one write moves its temporary file and keeps the good files. *)
Record installStep (files files1 : gmap string fileInfo) (w : pendingWrite) : Prop := {
  is_keep : ∀ path, bodyPath path → goodFile files path → goodFile files1 path;
  is_same : ∀ path, bodyPath path → path ≠ pw_finalPath w → files1 !! path = files !! path;
  is_temps : ∀ x info, mappingKeyed (owner x) = true → files1 !! x = Some info → files !! x = Some info;
  is_good : goodFile files1 (pw_finalPath w);
}.

Lemma installStep_present env files w info :
  writeOk files w → presentFile env files w = Some info → installStep files (delete (pw_temporaryPath w) files) w.
Proof.
  intros Hw Hp. apply presentFile_good in Hp; [|exact (wo_content _ _ Hw)].
  assert (∀ x, bodyPath x → delete (pw_temporaryPath w) files !! x = files !! x) as Hd.
  { intros x Hx. rewrite lookup_delete_ne; [done|]. intros <-. unfold bodyPath in Hx.
    pose proof (wo_temporary _ _ Hw). congruence. }
  assert (bodyPath (pw_finalPath w)) as Hb by (unfold bodyPath; rewrite (wo_owner _ _ Hw); exact (wo_key _ _ Hw)).
  split.
  - intros path Hx (y & Hy & Hc). exists y. by rewrite Hd.
  - intros path Hx _. by apply Hd.
  - by intros x y _ [_ ?]%lookup_delete_Some.
  - destruct Hp as (y & Hy & Hc). exists y. by rewrite Hd.
Qed.

Lemma installStep_rename files w info :
  writeOk files w → files !! pw_temporaryPath w = Some info →
  installStep files (<[pw_finalPath w := info]> (delete (pw_temporaryPath w) files)) w.
Proof.
  intros Hw Ht. destruct (wo_file _ _ Hw info Ht) as [Hck Hsz].
  assert (bodyPath (pw_finalPath w)) as Hb by (unfold bodyPath; rewrite (wo_owner _ _ Hw); exact (wo_key _ _ Hw)).
  assert (∀ x, bodyPath x → x ≠ pw_finalPath w →
    <[pw_finalPath w := info]> (delete (pw_temporaryPath w) files) !! x = files !! x) as Hd.
  { intros x Hx Hne. rewrite lookup_insert_ne, lookup_delete_ne; [done| |done]. intros <-. unfold bodyPath in Hx.
    pose proof (wo_temporary _ _ Hw). congruence. }
  assert (goodFile (<[pw_finalPath w := info]> (delete (pw_temporaryPath w) files)) (pw_finalPath w)) as Hgood.
  { exists info. rewrite lookup_insert_eq. split; [done|]. by rewrite (wo_content _ _ Hw), Hck, Hsz. }
  split; [|done| |done].
  - intros path Hx (y & Hy & Hc). destruct (decide (path = pw_finalPath w)) as [->|Hne]; [done|].
    exists y. by rewrite Hd.
  - intros x y Hx [[<- <-]|[_ [_ ?]%lookup_delete_Some]]%lookup_insert_Some; [|done].
    unfold bodyPath in Hb. congruence.
Qed.

Lemma writeOk_step files files1 w ws :
  installStep files files1 w → Forall (writeOk files) ws → Forall (writeOk files1) ws.
Proof.
  intros Hst Hall. rewrite list.Forall_forall in Hall |- *. intros w' Hw'. destruct (Hall w' Hw'). split; try done.
  intros info Hinfo. apply wo_file0, (is_temps _ _ _ Hst); done.
Qed.

(** What installing a list of writes did. *)
Record filesInstalled (files : gmap string fileInfo) (installed : gset string) (writes : list pendingWrite)
    (files' : gmap string fileInfo) (installed' : gset string) (ws : list pendingWrite)
    (e : option storeError) : Prop := {
  fin_keep : ∀ path, bodyPath path → goodFile files path → goodFile files' path;
  fin_installed : ∀ path, path ∈ installed' → path ∈ installed ∨ ¬ goodFile files path;
  fin_good : e = None → ∀ w, w ∈ writes → goodFile files' (pw_finalPath w);
  fin_writes : e = None → pw_variedKey <$> ws = pw_variedKey <$> writes;
}.

Lemma filesInstalled_cons files files1 installed installed1 w rest files' installed' ws e t :
  installStep files files1 w →
  (installed1 = installed ∨ installed1 = {[pw_finalPath w]} ∪ installed ∧ ¬ goodFile files (pw_finalPath w)) →
  bodyPath (pw_finalPath w) → Forall (λ w, bodyPath (pw_finalPath w)) rest →
  (∀ path, path ∈ installed' → path ∈ installed1 ∨ bodyPath path) →
  filesInstalled files1 installed1 rest files' installed' ws e →
  filesInstalled files installed (w :: rest) files' installed' (pwModifiedAt w t :: ws) e.
Proof.
  intros Hst Hi Hb Hall Hbp [Hk Hin Hg Hw]. split.
  - intros path Hx Hy. by apply Hk, (is_keep _ _ _ Hst).
  - intros path Hp. destruct (Hin path Hp) as [Hin1|Hn].
    + destruct Hi as [->|[-> Hbad]]; [by left|].
      apply elem_of_union in Hin1 as [->%elem_of_singleton|?]; [by right|by left].
    + destruct (Hbp path Hp) as [Hin1|Hx].
      * destruct Hi as [->|[-> Hbad]]; [by left|].
        apply elem_of_union in Hin1 as [->%elem_of_singleton|?]; [by right|by left].
      * right. intros Hgood. by apply Hn, (is_keep _ _ _ Hst).
  - intros He w' [->|Hw']%elem_of_cons; [|by apply Hg]. by apply Hk, (is_good _ _ _ Hst).
  - intros He. rewrite !fmap_cons. f_equal. by apply Hw.
Qed.

Lemma installFiles_ok env writes : verifies env → ∀ files installed files' installed' ws e,
  Forall (writeOk files) writes →
  installFiles env files installed writes = (files', installed', ws, e) →
  filesInstalled files installed writes files' installed' ws e
  ∧ ∀ path, path ∈ installed' → path ∈ installed ∨ bodyPath path.
Proof.
  intros Hv. induction writes as [|w rest IH]; intros files installed files' installed' ws e Hall Hi; cbn [installFiles] in Hi.
  { simplify_eq. split; [split; try done; [by left|set_solver]|by left]. }
  apply Forall_cons_1 in Hall as [Hw Hall].
  assert (∀ x : pendingWrite, ∀ f, writeOk f x → bodyPath (pw_finalPath x)) as Hbody.
  { intros x f Hx. unfold bodyPath. rewrite (wo_owner _ _ Hx). exact (wo_key _ _ Hx). }
  assert (Forall (λ w, bodyPath (pw_finalPath w)) rest) as Hbr.
  { rewrite list.Forall_forall in Hall |- *. intros x Hx. by eapply Hbody, Hall. }
  assert (∀ e', (files, installed, w :: rest, Some e') = (files', installed', ws, e) →
    filesInstalled files installed (w :: rest) files' installed' ws e
    ∧ ∀ path, path ∈ installed' → path ∈ installed ∨ bodyPath path) as Herr.
  { intros e' Heq. simplify_eq. split; [split; try done; by left|by left]. }
  destruct (presentFile env files w) as [info|] eqn:Hp.
  - destruct (installFiles env _ installed rest) as [[[f i] ws'] e'] eqn:Hr in Hi. simplify_eq.
    pose proof (installStep_present env files w info Hw Hp) as Hst.
    destruct (IH _ _ _ _ _ _ (writeOk_step _ _ _ _ Hst Hall) Hr) as [Hrec Hb]. split; [|done].
    eapply (filesInstalled_cons files _ installed installed); eauto.
  - destruct (fe_rename env (pw_temporaryPath w)) as [[|code]|]; [by eapply Herr..|].
    destruct (files !! pw_temporaryPath w) as [info|] eqn:Ht; [|by eapply Herr].
    pose proof (installStep_rename files w info Hw Ht) as Hst.
    destruct (fe_stat env (pw_finalPath w)) as [code|].
    { simplify_eq. split; [|by left]. split; try done; [exact (is_keep _ _ _ Hst)|by left]. }
    destruct (installFiles env _ _ rest) as [[[f i] ws'] e'] eqn:Hr in Hi. simplify_eq.
    destruct (IH _ _ _ _ _ _ (writeOk_step _ _ _ _ Hst Hall) Hr) as [Hrec Hb]. split.
    + eapply (filesInstalled_cons files _ installed ({[pw_finalPath w]} ∪ installed)); eauto.
      right. split; [done|]. by apply (presentFile_bad env); [done|apply Hw|].
    + intros path [[->%elem_of_singleton|?]%elem_of_union|?]%Hb; eauto.
Qed.

(** ** Stamping the modification times *)

Lemma stampModified_ok budget stale p protected acc ws : ∀ s,
  StagedOk owner p s → batchStaged budget stale s protected acc →
  (∀ w, w ∈ acc → mappingKeyed (pw_variedKey w) = false) →
  (∀ w, w ∈ ws → pw_variedKey w ∈ pw_variedKey <$> acc) →
  let s' := stampModified s ws in
  StagedOk owner p s' ∧ batchStaged budget stale s' protected acc ∧ dom (bs_items s') = dom (bs_items s)
  ∧ bs_physical s' = bs_physical s ∧ bs_poppedExpiry s' = bs_poppedExpiry s.
Proof.
  unfold stampModified. induction ws as [|w ws IH]; intros s Hs Hb Hk Hws; cbn [foldl]; [done|].
  destruct (proj1 (list_elem_of_fmap _ _ _) (Hws w ltac:(set_solver))) as (a & Ha & Hacc).
  destruct (bt_visible _ _ _ _ _ Hb a Hacc) as [Hprot [it Hit]]. rewrite <- Ha in Hprot, Hit.
  pose proof (Hk a Hacc) as Hkey. rewrite <- Ha in Hkey. rewrite Hit. set (key := pw_variedKey w) in *.
  change (mjoin (Some (Some it))) with (Some it). cbn [fmap option_fmap option_map].
  set (it' := setModifiedAt it (pw_modifiedAt w)). set (s1 := sItems s _).
  assert (viewMap p s !! key = Some it) as Hview by (rewrite viewMap_lookup; unfold getItem; by rewrite Hit).
  assert (StagedOk owner p s1) as Hs1.
  { apply (StagedOk_body p s s1 key it'); try done.
    - pose proof (so_item _ _ _ _ Hs key it Hview) as []. split; done.
    - rewrite (viewMap_stage p s1 (bs_items s) key it') by done. by destruct s.
    - exact (so_groups _ _ _ _ Hs).
    - rewrite Hview. simpl. pose proof (physical_counted p s key it Hs Hview). lia.
    - rewrite Hview. simpl. lia.
    - intros f Hf. destruct (so_obsolete _ _ _ _ Hs f Hf); [simpl; set_solver|done]. }
  assert (batchStaged budget stale s1 protected acc) as Hb1.
  { destruct Hb as [Hfrom Hvis Hbud]. split; [| |done].
    - intros k x Hkk. simpl. destruct (decide (k = key)) as [->|Hne].
      + rewrite lookup_insert_eq. intros [= <-]. destruct (Hfrom key it Hkk Hit) as (w' & ? & ? & (n & g & t & ->)).
        exists w'. split; [done|]. split; [done|]. by exists n, g, (pw_modifiedAt w).
      + rewrite lookup_insert_ne by done. by apply Hfrom.
    - intros w' Hw'. destruct (Hvis w' Hw') as [? [x Hx]]. split; [done|]. simpl.
      destruct (decide (pw_variedKey w' = key)) as [->|Hne]; [rewrite lookup_insert_eq; eauto|].
      rewrite lookup_insert_ne by done. eauto. }
  destruct (IH s1 Hs1 Hb1 Hk ltac:(set_solver)) as (H1 & H2 & H3 & H4 & H5).
  split; [done|]. split; [done|]. split; [|done]. rewrite H3. simpl. rewrite dom_insert_L.
  assert (key ∈ dom (bs_items s)) by (apply elem_of_dom; eauto). set_solver.
Qed.

Lemma stampModified_popped s ws : bs_poppedExpiry (stampModified s ws) = bs_poppedExpiry s.
Proof.
  unfold stampModified. revert s. induction ws as [|w ws IH]; intros s; cbn [foldl]; [done|]. by rewrite IH.
Qed.

Lemma acceptedOf_sub batch rs w : w ∈ acceptedOf batch rs → w ∈ batch.
Proof.
  unfold acceptedOf. rewrite list_elem_of_omap. intros ([x r] & Hin & Hr). destruct r; simplify_eq.
  by apply elem_of_zip_l in Hin.
Qed.

(** After expiring, nothing of this batch is staged yet. *)
Lemma expired_batch budget stale now st p s es :
  storeOk owner content st →
  expiredStaged owner now (st_provider st) (newBatchState (st_provider st)) ∅ p s es →
  batchStaged budget stale s ∅ [].
Proof.
  intros Hst Hx. split; [|set_solver|done]. intros k it Hk Hit. exfalso.
  destruct (decide (k ∈ ee_key <$> es)) as [(e & -> & He)%list_elem_of_fmap|Hn].
  - pose proof (xs_gone _ _ _ _ _ _ _ _ Hx e He) as Hg. rewrite viewMap_lookup in Hg. unfold getItem in Hg.
    by rewrite Hit in Hg.
  - rewrite (xs_nostage _ _ _ _ _ _ _ _ Hx k Hk Hn) in Hit. done.
Qed.

Lemma fileFor_good files it : fileFor content files it → goodFile files (ci_value it).
Proof. intros [Hc (i & Hi & E1 & E2)]. exists i. split; [done|]. by rewrite Hc, E1, E2. Qed.
Lemma good_fileFor files it :
  content (ci_value it) = (ci_checksum it, ci_compressedSize it) → goodFile files (ci_value it) →
  fileFor content files it.
Proof.
  intros Hc (i & Hi & E). split; [done|]. exists i. split; [done|]. rewrite Hc in E. by injection E as -> ->.
Qed.

(** The bodies of the committed view have their files. *)
Lemma flush_files budget stale st p s protected acc files' installed ws :
  storeOk owner content st → p_items p = p_items (st_provider st) →
  StagedOk owner p s → batchStaged budget stale s protected acc →
  Forall (writeOk (st_files st)) acc →
  filesInstalled (st_files st) ∅ acc files' installed ws None →
  filesOk content (viewMap p s) (removeFiles (bs_obsoleteFiles s ∖ liveFiles s) files').
Proof.
  intros Hst Hp Hs Hb Hw Hf k it Hk Hfile. pose proof (so_item _ _ _ _ Hs k it Hk) as Hi.
  assert (mappingKeyed k = false) as Hkey.
  { pose proof (io_kind _ _ _ Hi) as Hkind. rewrite Hfile in Hkind. by destruct (mappingKeyed k). }
  pose proof (io_owner _ _ _ Hi Hfile) as Howner.
  rewrite viewMap_lookup in Hk. unfold getItem in Hk. destruct (bs_items s !! k) as [[it0|]|] eqn:Hst'.
  - apply (inj Some) in Hk as ->. destruct (bt_from _ _ _ _ _ Hb k it Hkey Hst') as (w & Hwa & Hwk & (n & g & t & Heq)).
    rewrite list.Forall_forall in Hw. specialize (Hw w Hwa). subst it.
    apply fileFor_remove.
    + apply good_fileFor; [exact (wo_content _ _ Hw)|]. exact (fin_good _ _ _ _ _ _ _ Hf eq_refl w Hwa).
    + apply not_elem_of_difference. right. unfold liveFiles. apply elem_of_list_to_set, list_elem_of_omap.
      eexists (k, Some _). split; [by apply range_elem|]. done.
  - done.
  - rewrite Hp in Hk. pose proof (st_bodies _ _ _ Hst k it Hk Hfile) as Hff.
    apply fileFor_remove.
    + apply good_fileFor; [apply Hff|]. apply (fin_keep _ _ _ _ _ _ _ Hf); [unfold bodyPath; by rewrite Howner|].
      by apply fileFor_good.
    + apply not_elem_of_difference. left. intros Hobs. destruct (so_obsolete _ _ _ _ Hs _ Hobs) as [Hd|?]; [|done].
      rewrite Howner in Hd. apply elem_of_dom in Hd as [? ?]. congruence.
Qed.

(** A failed flush removes only files that no live body uses. *)
Lemma flush_failed_files st acc files' installed ws e :
  storeOk owner content st → filesInstalled (st_files st) ∅ acc files' installed ws e →
  filesOk content (p_items (st_provider st)) (removeFiles installed files').
Proof.
  intros Hst Hf k it Hk Hfile. pose proof (st_bodies _ _ _ Hst k it Hk Hfile) as Hff.
  pose proof (mm_items _ _ _ (po_mem _ _ (st_ok _ _ _ Hst)) k it Hk) as Hi.
  assert (bodyPath (ci_value it)) as Hbp.
  { unfold bodyPath. rewrite (io_owner _ _ _ Hi Hfile). pose proof (io_kind _ _ _ Hi) as Hkind.
    rewrite Hfile in Hkind. by destruct (mappingKeyed k). }
  pose proof (fileFor_good _ _ Hff) as Hgood. apply fileFor_remove.
  - apply good_fileFor; [apply Hff|]. by apply (fin_keep _ _ _ _ _ _ _ Hf).
  - intros Hin. destruct (fin_installed _ _ _ _ _ _ _ Hf _ Hin); [set_solver|done].
Qed.

(** ** [flushBatch] *)

Lemma sizedWrites_ok env files batch : Forall (writeOk files) batch → Forall (writeOk files) (sizedWrites env batch).
Proof.
  unfold sizedWrites. intros Hall. rewrite list.Forall_forall in Hall |- *.
  intros w (w0 & -> & Hw0)%list_elem_of_fmap. destruct (Hall w0 Hw0). destruct (_ =? 0); split; done.
Qed.

Lemma installBatchFiles_ok env files writes files' installed ws e :
  verifies env →   Forall (writeOk files) writes → installBatchFiles env files writes = (files', installed, ws, e) →
  filesInstalled files ∅ writes files' installed ws e.
Proof.
  intros Hv Hall Hi. unfold installBatchFiles in Hi.
  destruct (installFiles env files ∅ writes) as [[[f i] ws'] e'] eqn:Hf.
  apply installFiles_ok in Hf as [Hok _]; [|done..].
  destruct e' as [e'|]; [by simplify_eq|].
  case_bool_decide; [by simplify_eq|]. destruct (fe_sync env); simplify_eq; [|done].
  destruct Hok. split; done.
Qed.

(** The outcome of a flush. *)
Record flushed (budget : option capacityBudget) (stale : Z) (batch : list pendingWrite) (st' : store)
    (results : list (option storeError)) : Prop := {
  fl_ok : storeOk owner content st';
  fl_length : length results = length batch;
  fl_visible : ∀ i w, batch !! i = Some w → results !! i = Some None →
    ∃ it w', p_items (st_provider st') !! pw_variedKey w = Some it ∧ w' ∈ batch
      ∧ pw_variedKey w' = pw_variedKey w ∧ ∃ x, isBody stale x w' ∧ eraseIds it = eraseIds x;
  fl_budget : ∀ i b, budget = Some b → results !! i = Some None →
    p_physicalUsed (st_provider st') ≤ cb_physicalAvailable b;
}.

Lemma acceptedOf_lookup batch results i w :
  batch !! i = Some w → results !! i = Some None → w ∈ acceptedOf batch results.
Proof.
  intros Hb Hr. unfold acceptedOf. apply list_elem_of_omap. exists (w, None). split; [|done].
  apply list_elem_of_lookup. exists i. by apply lookup_zip_Some.
Qed.

(** A flush none of whose writes went through. *)
Lemma flushed_none budget stale batch st' results :
  storeOk owner content st' → length results = length batch → (∀ i, results !! i ≠ Some None) →
  flushed budget stale batch st' results.
Proof. intros Hok Hl Hn. split; try done; intros; exfalso; by eapply Hn. Qed.

Lemma restoreExpiry_items p s : p_items (restoreExpiry p s) = p_items p.
Proof.
  unfold restoreExpiry. generalize (bs_poppedExpiry s). intros l. revert p.
  induction l as [|e l IH]; intros p; cbn [foldl]; [done|]. rewrite IH. by repeat case_match.
Qed.

(** A flush that does not commit leaves memory and every live file. *)
Lemma flush_failed st p s es now n s' acc files' installed ws e c :
  storeOk owner content st →
  expiredStaged owner now (st_provider st) (newBatchState (st_provider st)) ∅ p s es →
  bs_poppedExpiry s' = bs_poppedExpiry s → filesInstalled (st_files st) ∅ acc files' installed ws e →
  storeOk owner content (Store (restoreExpiry (setVersion p n) s') (removeFiles installed files') c).
Proof.
  intros Hst Hx Hpop Hf. destruct (restore_ok owner content st now p s es Hst Hx n s' Hpop) as [Hok Hidx _].
  split; [done|done|]. simpl. rewrite restoreExpiry_items.
  destruct (xs_provider _ _ _ _ _ _ _ _ Hx) as (n0 & h & ->). exact (flush_failed_files st _ _ _ _ _ Hst Hf).
Qed.

(** A flush whose writes were staged and whose files were installed. *)
Lemma flush_commit budget stale st p s es now protected batch results files' installed ws c n s2 :
  storeOk owner content st →
  expiredStaged owner now (st_provider st) (newBatchState (st_provider st)) ∅ p s es →
  StagedOk owner (setVersion p n) s2 →
  dom (bs_items s) ⊆ dom (bs_items s2) → batchStaged budget stale s2 protected (acceptedOf batch results) →
  Forall (writeOk (st_files st)) batch → length results = length batch →
  filesInstalled (st_files st) ∅ (acceptedOf batch results) files' installed ws None →
  let s3 := stampModified s2 ws in
  ∃ p3, commitBatch None (setVersion p n) s3 = Ok p3
    ∧ flushed (Some budget) stale batch (Store p3 (removeFiles (bs_obsoleteFiles s3 ∖ liveFiles s3) files') c) results.
Proof.
  intros Hst Hx Hs2 Hdom Hbt Hw Hlen Hf. cbv zeta.
  assert (Forall (writeOk (st_files st)) (acceptedOf batch results)) as Hwa.
  { rewrite list.Forall_forall in Hw |- *. intros w Ha%acceptedOf_sub. by apply Hw. }
  assert (∀ w, w ∈ acceptedOf batch results → mappingKeyed (pw_variedKey w) = false) as Hkeys.
  { rewrite list.Forall_forall in Hwa. intros w Ha. exact (wo_key _ _ (Hwa w Ha)). }
  destruct (stampModified_ok budget stale (setVersion p n) protected (acceptedOf batch results) ws s2 Hs2 Hbt Hkeys)
    as (Hs3 & Hbt3 & Hdom3 & Hph3 & _).
  { intros w Hwin. rewrite <- (fin_writes _ _ _ _ _ _ _ Hf eq_refl). by apply list_elem_of_fmap_2. }
  set (s3 := stampModified s2 ws) in *.
  destruct (expired_mem owner content st now p s es Hst Hx) as [Hm Hd].
  destruct (xs_provider _ _ _ _ _ _ _ _ Hx) as (n0 & h & Hp).
  destruct (commit_storeOk owner content st (setVersion p n) s3 (list_to_set (ee_key <$> es))
    (removeFiles (bs_obsoleteFiles s3 ∖ liveFiles s3) files') c) as (p3 & Hc & Hok & Hv & Hph & _);
    try done; try (by rewrite Hp).
  { by apply memOk_version. }
  { set_solver. }
  { apply (flush_files budget stale st (setVersion p n) s3 protected (acceptedOf batch results) files' installed ws);
      try done. by rewrite Hp. }
  exists p3. split; [done|]. split; [done|done| |].
  - intros i w Hi Hr. pose proof (acceptedOf_lookup _ _ _ _ Hi Hr) as Ha.
    destruct (bt_visible _ _ _ _ _ Hbt3 w Ha) as [_ [x Hx3]].
    destruct (bt_from _ _ _ _ _ Hbt3 _ x (Hkeys w Ha) Hx3) as (w' & Hw' & Hk' & Hbody).
    specialize (Hv (pw_variedKey w)). rewrite viewMap_lookup in Hv. unfold getItem in Hv. rewrite Hx3 in Hv.
    destruct (p_items p3 !! pw_variedKey w) as [it|] eqn:Hit; [|done]. apply (inj Some) in Hv.
    exists it, w'. split; [done|]. split; [by eapply acceptedOf_sub|]. split; [done|]. by exists x.
  - intros i b [= <-] Hr. simpl. rewrite Hph, Hph3. apply (bt_budget _ _ _ _ _ Hbt).
    assert (is_Some (batch !! i)) as [w Hi].
    { apply lookup_lt_is_Some. rewrite <- Hlen. apply lookup_lt_is_Some. eauto. }
    intros Hnil. pose proof (acceptedOf_lookup _ _ _ _ Hi Hr) as Ha. rewrite Hnil in Ha. set_solver.
Qed.

(** The budget a flush works against. *)
Definition flushBudget (env : flushEnv) (lim : limits) (now : Z) (st : store) (batch : list pendingWrite)
    : option capacityBudget :=
  let p := (stageExpired (st_provider st) (newBatchState (st_provider st)) now).1 in
  let transient := foldl (λ n w, u64 (n + pw_physicalSize w)) 0 (sizedWrites env batch) in
  match capacityAvailable (p_cacheUsed p) (p_physicalUsed p) lim transient (fe_usage env) with
  | Ok b => Some b
  | Err _ => None
  end.

Lemma flushBatch_ok env lim stale now0 clock st batch st' results :
  verifies env →   storeOk owner content st → Forall (writeOk (st_files st)) batch →
  flushBatch env lim stale now0 clock st batch = (st', results) →
  flushed (flushBudget env lim now0 st batch) stale (sizedWrites env batch) st' results.
Proof.
  intros Hv Hst Hw0 Hfl. unfold flushBatch in Hfl. unfold flushBudget. cbv zeta in Hfl |- *.
  destruct (stageExpired _ _ now0) as [p1 s1] eqn:Hexp. simpl fst.
  apply (stageExpired_ok owner now0 _ _ ∅) in Hexp as (es & Hx);
    [|by apply newStaged with content|apply (mm_expiry _ _ _ (po_mem _ _ (st_ok _ _ _ Hst)))].
  apply (sizedWrites_ok env) in Hw0 as Hw. set (batch1 := sizedWrites env batch) in *. clearbody batch1. clear Hw0.
  assert (∀ n s, bs_poppedExpiry s = bs_poppedExpiry s1 →
    storeOk owner content (withProvider st (restoreExpiry (setVersion p1 n) s))) as Hback.
  { intros n s Hs. by apply (restore_ok owner content st now0 p1 s1 es). }
  assert (∃ n, p1 = setVersion p1 n) as [nv Hnv].
  { destruct (xs_provider _ _ _ _ _ _ _ _ Hx) as (n0 & h & ->). by exists n0. }
  destruct (capacityAvailable _ _ _ _ _) as [budget|e].
  2:{ apply pair_eq in Hfl as [<- <-]. apply flushed_none.
      - rewrite Hnv. by apply Hback.
      - apply length_map.
      - intros i. rewrite list_lookup_fmap. destruct (batch1 !! i); done. }
  destruct (stageWrites budget stale clock 0 p1 s1 ∅ batch1) as [[p2 s2] rs] eqn:Hsw.
  apply (stageWrites_ok budget stale clock (st_files st) batch1 0 p1 s1 ∅ []) in Hsw
    as ((n & ->) & Hs2 & Hpop & Hdom & Hlen & (prot & Hbt));
    [|exact (xs_ok _ _ _ _ _ _ _ _ Hx)| |done|by eapply expired_batch|set_solver].
  2:{ destruct (xs_provider _ _ _ _ _ _ _ _ Hx) as (n0 & h & ->). exact (mm_lru _ _ _ (po_mem _ _ (st_ok _ _ _ Hst))). }
  simpl in Hbt. case_bool_decide as Hnone.
  { apply pair_eq in Hfl as [<- <-]. apply flushed_none.
    - by apply (storeOk_counters owner content _ _ (Hback n s2 Hpop)).
    - done.
    - intros i Hr. assert (is_Some (batch1 !! i)) as [w Hi].
      { apply lookup_lt_is_Some. rewrite <- Hlen. apply lookup_lt_is_Some. eauto. }
      pose proof (acceptedOf_lookup _ _ _ _ Hi Hr) as Ha. rewrite Hnone in Ha. set_solver. }
  destruct (installBatchFiles _ _ _) as [[[files' installed] ws] ie] eqn:Hinst.
  apply installBatchFiles_ok in Hinst; [|done|].
  2:{ rewrite list.Forall_forall in Hw |- *. intros w Ha%acceptedOf_sub. by apply Hw. }
  assert (∀ e s3, bs_poppedExpiry s3 = bs_poppedExpiry s1 →
    (Store (restoreExpiry (setVersion p1 n) s3) (removeFiles installed files')
       (recordRejectedWrite e (addRejections (capacityRejections rs) (st_counters st))),
     map (λ r, match r with None => Some e | Some _ => r end) rs) = (st', results) →
    flushed (Some budget) stale batch1 st' results) as Hfail.
  { intros e s3 Hp3 Heq. apply pair_eq in Heq as [<- <-]. apply flushed_none.
    - by apply (flush_failed st p1 s1 es now0 n s3 (acceptedOf batch1 rs) files' installed ws ie).
    - by rewrite length_map.
    - intros i. rewrite list_lookup_fmap. destruct (rs !! i) as [[]|]; done. }
  destruct ie as [e|]; [exact (Hfail e s2 Hpop Hfl)|].
  pose proof (flush_commit budget stale st p1 s1 es now0 prot batch1 rs files' installed ws) as Hcommit.
  destruct (fe_commit env) as [code|].
  - destruct (st_index _ _ _ Hst) as (ix & Hix & _).
    rewrite (commit_fault _ _ _ ix) in Hfl by (destruct (xs_provider _ _ _ _ _ _ _ _ Hx) as (n0 & h & ->); done).
    eapply Hfail; [|exact Hfl]. rewrite stampModified_popped. done.
  - destruct (Hcommit (addCommitted (N.of_nat (length (acceptedOf batch1 rs)))
      (addEvictions (bs_evicted (stampModified s2 ws)) (addRejections (capacityRejections rs) (st_counters st)))) n s2)
      as (p3 & Hc & Hflushed); try done.
    rewrite Hc in Hfl. apply pair_eq in Hfl as [<- <-]. exact Hflushed.
Qed.

End Flush.
