(* ===== verification/CacheTheorems.v ===== *)
(** * What the cache store guarantees ([caddy/simplefs])

    The theorems about the operations of [CacheStoreOps] and [CacheWrites]:
    the invariant over every run, the outcome of a flush, the atomicity of a
    commit, deletions, expiry, and what a lookup may serve. *)
From Stdlib Require Import ZArith Lia Ascii String.
From stdpp Require Import base numbers list strings gmap sets option.
From S2P Require Import Prelude CacheCore ExpirationHeap Capacity CacheStore CacheView CacheExpiry.
From S2P Require Import CacheCommit CacheStoreOps CacheWrites CacheInvariant CacheFlush.

Local Open Scope N_scope.

(** The store after [resetLocked]: an empty memory and an empty database. *)
Definition emptyProvider : provider :=
  Provider ∅ ∅ ∅ ∅ [] [] (Some (IndexDB ∅ ∅ 0)) ∅ ∅ 0 0 0 0 0 0 0.
Definition emptyStore : store := Store emptyProvider ∅ (Counters 0 0 0 0 0 0 0).

Section Theorems.
Context {C : MappingCodec} {CR : MappingCodecRoundtrip} {G : GoRange}.
Context (owner : string → string) (content : string → string * N).

(** ** The transition system *)

Section Steps.
Context {R : Type} (load : fileInfo → option R).

(** One operation of the store.  Every [fault] and every environment is
    allowed: transactions, renames and directory syncs may fail. *)
Inductive storeStep (st : store) : store → Prop :=
| StepDelete fault key : storeStep st (Delete fault st key)
| StepDeleteMany fault matches expression : storeStep st (DeleteMany fault st matches expression)
| StepDeleteEntry fault baseKey : storeStep st (DeleteEntry fault st baseKey)
| StepDeleteKeys fault keys p n obsolete :
    deleteKeysLocked fault (st_provider st) keys = (p, Ok (n, obsolete)) →
    storeStep st (Store p (removeFiles obsolete (st_files st)) (st_counters st))
| StepDeleteKeysFail fault keys p e :
    deleteKeysLocked fault (st_provider st) keys = (p, Err e) → storeStep st (withProvider st p)
| StepReset fault p obsolete :
    resetLocked fault (st_provider st) = Ok (p, obsolete) →
    storeStep st (Store p (removeFiles obsolete (st_files st)) (st_counters st))
| StepRemoveExpired fault key generation now : storeStep st (removeExpired fault st key generation now)
| StepRemoveCorrupt fault key generation : storeStep st (removeCorrupt fault st key generation)
| StepPrune fault now : storeStep st (pruneExpired fault st now)
| StepLookup fault key request validator now locked :
    storeStep st (getMultiLevel load fault st key request validator now locked).1
| StepRead fault key now locked : storeStep st (readHTTPResponse load fault st key now locked).1
| StepRefresh fault stale now baseKey request duration update :
    isZeroTime (now + (duration + stale)) = false →
    storeStep st (withProvider st (Refresh fault stale now (st_provider st) baseKey request duration update).1)
| StepEnsureSpace fault1 fault2 removal usage now incoming configured transient :
    storeStep st (ensureSpaceLockedWithTransient fault1 fault2 removal usage st now incoming configured transient).1
| StepFlush env lim stale now clock batch :
    verifies env →     Forall (writeOk owner content (st_files st)) batch →
    storeStep st (flushBatch env lim stale now clock st batch).1
| StepTemporary path info :
    mappingKeyed (owner path) = true → storeStep st (withFiles st (<[path := info]> (st_files st))).

Inductive storeRun : store → store → Prop :=
| RunNil st : storeRun st st
| RunStep st st1 st2 : storeStep st st1 → storeRun st1 st2 → storeRun st st2.

Lemma temporary_ok st path info :
  storeOk owner content st → mappingKeyed (owner path) = true →
  storeOk owner content (withFiles st (<[path := info]> (st_files st))).
Proof.
  intros Hst Hp. destruct Hst as [Hok Hix Hb]. split; [done|done|].
  intros k it Hk Hf. destruct (Hb k it Hk Hf) as [Hc (i & Hi & Hs)]. split; [done|]. exists i. split; [|done].
  simpl. rewrite lookup_insert_ne; [done|]. intros ->.
  pose proof (mm_items _ _ _ (po_mem _ _ Hok) k it Hk) as [Hkind _ _ _ Ho _ _].
  rewrite Ho in Hp by done. rewrite Hp, Hf in Hkind. done.
Qed.

Lemma step_ok st st' : storeOk owner content st → storeStep st st' → storeOk owner content st'.
Proof.
  intros Hst Hstep. destruct Hstep.
  - by apply Delete_ok.
  - by apply DeleteMany_ok.
  - by apply DeleteEntry_ok.
  - by apply (deleteKeysLocked_ok owner content fault st keys p (Ok (n, obsolete))).
  - by apply (deleteKeysLocked_ok owner content fault st keys p (Err e)).
  - by eapply resetLocked_ok.
  - by apply deleteItemIf_ok.
  - by apply removeCorrupt_ok.
  - by apply pruneExpired_ok.
  - eapply getMultiLevel_ok; [done|apply surjective_pairing].
  - eapply readHTTPResponse_ok; [done|apply surjective_pairing].
  - eapply Refresh_ok; [done|done|apply surjective_pairing].
  - eapply ensureSpace_ok; [done|apply surjective_pairing].
  - eapply fl_ok, flushBatch_ok; [done..|apply surjective_pairing].
  - by apply temporary_ok.
Qed.

Lemma empty_ok : storeOk owner content emptyStore.
Proof.
  split; simpl; [| |done].
  - split; [split|..]; simpl; try done.
    + split; [split|constructor| |done]; [intros i Hi; simpl in Hi; lia|done|set_solver].
    + split; [constructor| |done]. intros id k. split; [set_solver|]. intros (it & Hit & _). done.
    + intros v mk. rewrite lookup_empty. split; [set_solver|]. intros (it & Hit & _). done.
  - eexists. split; [done|]. split; intros; simpl; by rewrite !lookup_empty.
Qed.

Lemma run_ok st st' : storeOk owner content st → storeRun st st' → storeOk owner content st'.
Proof. intros Hst Hrun. induction Hrun; eauto using step_ok. Qed.

Lemma run_snoc st st1 st2 : storeRun st st1 → storeStep st1 st2 → storeRun st st2.
Proof. intros Hrun Hstep. induction Hrun; eauto using storeRun. Qed.


End Steps.

(** ** Flushing a batch *)

(** C3. A flush is all or nothing for each write, and never exceeds its budget.
    As long as files that are there can be read to verify them, whatever the
    disk, the renames, the sync and the transaction do, the flush returns one
    result per write and a store that satisfies its invariant (so no body in
    memory lost its file).  Every write reported as stored is in
    memory, as the body of the last accepted write of its key, and the
    physical bytes then stay within the budget computed for the flush. *)
Theorem flush_outcome env lim stale now0 clock st batch st' results :
  verifies env → storeOk owner content st → Forall (writeOk owner content (st_files st)) batch →
  flushBatch env lim stale now0 clock st batch = (st', results) →
  storeOk owner content st'
  ∧ length results = length batch
  ∧ (∀ i w, sizedWrites env batch !! i = Some w → results !! i = Some None →
      ∃ it w', p_items (st_provider st') !! pw_variedKey w = Some it ∧ w' ∈ sizedWrites env batch
        ∧ pw_variedKey w' = pw_variedKey w ∧ ∃ x, isBody stale x w' ∧ eraseIds it = eraseIds x)
  ∧ (∀ i b, flushBudget env lim now0 st batch = Some b → results !! i = Some None →
      p_physicalUsed (st_provider st') ≤ cb_physicalAvailable b).
Proof.
  intros Hv0 Hst Hw Hf. destruct (flushBatch_ok _ _ _ _ _ _ _ _ _ _ _ Hv0 Hst Hw Hf) as [Hok Hl Hv Hb].
  split_and!; try done. rewrite Hl. apply length_map.
Qed.

(** ** Committing *)

(** C8. A commit is atomic.  A staged batch over an intact store either fails, and
    then nothing is returned to apply, or it commits: memory then holds exactly
    the staged view (up to the identities of list and heap elements), the
    database holds the disk image of every item in memory and of the byte
    counter, and the whole is consistent again. *)
Theorem commit_atomic fault st s files c :
  storeOk owner content st → StagedOk owner (st_provider st) s → filesOk content (viewMap (st_provider st) s) files →
  match commitBatch fault (st_provider st) s with
  | Err e => ∃ code, fault = Some code ∧ e = ErrIndexIO code
  | Ok p' => fault = None ∧ storeOk owner content (Store p' files c)
      ∧ (∀ k, eraseIds <$> p_items p' !! k = eraseIds <$> getItem (st_provider st) s k)
      ∧ (∀ g, default ∅ (p_groups p' !! g) = groupView (st_provider st) s g)
      ∧ p_physicalUsed p' = bs_physical s ∧ p_cacheUsed p' = bs_used s
      ∧ ∃ ix, p_index p' = Some ix ∧ ix_used ix = p_cacheUsed p'
          ∧ ∀ k, ix_items ix !! k = encodeDiskItem <$> p_items p' !! k
  end.
Proof.
  intros Hst Hs Hf. destruct fault as [code|].
  - destruct (st_index _ _ _ Hst) as (ix & Hix & _). rewrite (commit_fault _ _ _ ix) by done. eauto.
  - destruct (commit_storeOk owner content st (st_provider st) s ∅ files c) as (p' & -> & H1 & H2 & H3 & H4 & H5 & H6);
      try done; [apply Hst|].
    split_and!; try done. intros k. by rewrite H2, viewMap_lookup.
Qed.

(** ** Deleting *)

(** What a successful deletion of the item [it] under [key] does. *)
Record deletionEffect (st : store) (key : string) (it : cacheItem) (st' : store) : Prop := {
  de_gone : p_items (st_provider st') !! key = None;
  de_index : ∃ ix, p_index (st_provider st') = Some ix ∧ ix_items ix !! key = None;
  de_file : ci_file it = true → st_files st' !! ci_value it = None;
  de_unlisted : ci_file it = true → ∀ mk mi, p_items (st_provider st') !! mk = Some mi → key ∉ mappingVariants mi;
  de_bodies : ∀ k x, k ≠ key → p_items (st_provider st) !! k = Some x → ci_file x = true →
    ∃ x', p_items (st_provider st') !! k = Some x' ∧ eraseIds x' = eraseIds x
      ∧ st_files st' !! ci_value x = st_files st !! ci_value x;
  de_shrinks : ∀ k x', p_items (st_provider st') !! k = Some x' → ci_file x' = true →
    ∃ x, p_items (st_provider st) !! k = Some x ∧ eraseIds x' = eraseIds x;
  de_files : st_files st' ⊆ st_files st;
}.

Lemma body_key st k it : storeOk owner content st → p_items (st_provider st) !! k = Some it → ci_file it = true →
  mappingKeyed k = false ∧ owner (ci_value it) = k.
Proof.
  intros Hst Hk Hf. pose proof (mm_items _ _ _ (po_mem _ _ (st_ok _ _ _ Hst)) k it Hk) as [Hkind _ _ _ Ho _ _].
  split; [destruct (mappingKeyed k); [by rewrite Hf in Hkind|done]|by apply Ho].
Qed.

(** An item of a committed view, without its identities. *)
Lemma erased_lookup (items view : gmap string cacheItem) k :
  eraseIds <$> items !! k = eraseIds <$> view !! k →
  ∀ x, view !! k = Some x → ∃ x', items !! k = Some x' ∧ eraseIds x' = eraseIds x.
Proof.
  intros He x Hx. rewrite Hx in He. destruct (items !! k) as [y|]; [|done]. apply (inj Some) in He. eauto.
Qed.

Lemma erased_variants x y : eraseIds x = eraseIds y → mappingVariants x = mappingVariants y.
Proof. intros H. by assert (mappingVariants (eraseIds x) = mappingVariants (eraseIds y)) as Hv by (by rewrite H). Qed.

Lemma erased_file x y : eraseIds x = eraseIds y → ci_file x = ci_file y ∧ ci_value x = ci_value y
  ∧ ci_expiresAt x = ci_expiresAt y.
Proof. intros H. by split_and!; [change (ci_file (eraseIds x) = ci_file (eraseIds y))|
  change (ci_value (eraseIds x) = ci_value (eraseIds y))|
  change (ci_expiresAt (eraseIds x) = ci_expiresAt (eraseIds y))]; rewrite H. Qed.

Lemma finishDelete_effect st key it p s :
  storeOk owner content st → p_items (st_provider st) !! key = Some it →
  deleteItem (st_provider st) (newBatchState (st_provider st)) key = (p, s) →
  deletionEffect st key it (finishDelete None st p s).
Proof.
  intros Hst Hit Hd. pose proof (newStaged owner content st Hst) as Hs0.
  pose proof (shrunk_delete owner _ _ _ _ _ Hs0 Hd) as Hsh.
  pose proof (deleteItem_ok owner _ _ _ _ _ Hs0 Hd) as Hdel.
  pose proof (shrunk_files owner content st p s Hst Hsh) as Hfiles.
  rewrite <- viewMap_new in Hit.
  destruct Hdel as [_ Hok Hgone Hbodies Hshr Hun _ _ _ Hobs _ _]. rewrite Hit in Hobs.
  destruct (sh_provider _ _ _ _ _ Hsh) as [n ->]. unfold finishDelete.
  destruct (commit_storeOk owner content st (setVersion (st_provider st) n) s ∅
    (removeFiles (bs_obsoleteFiles s) (st_files st)) (st_counters st))
    as (p' & -> & Hok' & Hview & _ & _ & _ & (ix & Hix & _ & Himg)); try done.
  { apply memOk_version, (po_mem _ _ (st_ok _ _ _ Hst)). }
  assert (p_items p' !! key = None) as Hnone.
  { specialize (Hview key). rewrite Hgone in Hview. by destruct (p_items p' !! key). }
  assert (∀ k x', p_items p' !! k = Some x' → ∃ y, viewMap (setVersion (st_provider st) n) s !! k = Some y
    ∧ eraseIds x' = eraseIds y) as Hback.
  { intros k x' Hx'. specialize (Hview k). rewrite Hx' in Hview. destruct (viewMap _ _ !! k) as [y|]; [|done].
    apply (inj Some) in Hview. eauto. }
  split; cbn [st_provider st_files].
  - done.
  - exists ix. by rewrite Himg, Hnone.
  - intros Hf. rewrite Hf in Hobs. apply map_lookup_filter_None_2. right. intros i _. rewrite Hobs. set_solver.
  - intros Hf mk mi Hmi. destruct (body_key st key it Hst) as [Hkey _]; [by rewrite <- viewMap_new|done|].
    destruct (Hback mk mi Hmi) as (y & Hy & He). rewrite (erased_variants _ _ He). by apply (Hun Hkey (ex_intro _ it Hit) mk).
  - intros k x Hne Hx Hf. destruct (body_key st k x Hst Hx Hf) as [Hkey Hown].
    pose proof (Hbodies k Hkey Hne) as Hv. rewrite viewMap_new, Hx in Hv.
    destruct (erased_lookup _ _ _ (Hview k) x Hv) as (x' & Hx' & He). exists x'. split_and!; [done|done|].
    destruct (Hfiles k x Hv Hf) as [_ (i & Hi & _)]. rewrite Hi. symmetry.
    by apply map_lookup_filter_Some in Hi as [-> _].
  - intros k x' Hx' Hf. destruct (Hback k x' Hx') as (y & Hy & He). exists y. split; [|done].
    destruct (body_key (Store p' (removeFiles (bs_obsoleteFiles s) (st_files st)) (st_counters st)) k x' Hok' Hx' Hf) as [Hkey _].
    rewrite <- viewMap_new. by apply (sh_bodies _ _ _ _ _ Hsh).
  - apply map_filter_subseteq.
Qed.

(** Deleting a body removes it everywhere.  After a successful [Delete] of the
    key of a body, memory and database have no such key, the body's file is
    gone, no mapping record lists the variant any more, and every other body
    keeps its contents and its file; after a failed one nothing has changed
    but the version counter. *)
Theorem delete_complete fault st key it :
  storeOk owner content st → p_items (st_provider st) !! key = Some it → ci_file it = true →
  let st' := Delete fault st key in
  match fault with
  | Some _ => ∃ n, st' = withProvider st (setVersion (st_provider st) n)
  | None =>
      p_items (st_provider st') !! key = None
      ∧ (∃ ix, p_index (st_provider st') = Some ix ∧ ix_items ix !! key = None)
      ∧ st_files st' !! ci_value it = None
      ∧ (∀ mk mi, p_items (st_provider st') !! mk = Some mi → key ∉ mappingVariants mi)
      ∧ (∀ k x, k ≠ key → p_items (st_provider st) !! k = Some x → ci_file x = true →
          ∃ x', p_items (st_provider st') !! k = Some x' ∧ eraseIds x' = eraseIds x
            ∧ st_files st' !! ci_value x = st_files st !! ci_value x)
  end.
Proof.
  intros Hst Hit Hf. cbv zeta. unfold Delete. destruct (deleteItem _ _ key) as [p s] eqn:Hd.
  pose proof (newStaged owner content st Hst) as Hs0.
  assert (bs_items s ≠ ∅) as Hne.
  { intros He. pose proof (deleteItem_ok owner _ _ _ _ _ Hs0 Hd) as Hdel.
    destruct (dl_staged _ _ _ _ _ _ Hdel) as [_ Hin]. rewrite viewMap_new, Hit, He in Hin.
    specialize (Hin ltac:(eauto)). set_solver. }
  rewrite bool_decide_eq_false_2 by done. destruct fault as [code|].
  - destruct (st_index _ _ _ Hst) as (ix & Hix & _).
    destruct (sh_provider _ _ _ _ _ (shrunk_delete owner _ _ _ _ _ Hs0 Hd)) as [n ->].
    exists n. unfold finishDelete. by rewrite (commit_fault _ _ _ ix).
  - destruct (finishDelete_effect st key it p s Hst Hit Hd) as [? ? Hfile Hun ? _ _].
    split_and!; [done|done|by apply Hfile|exact (Hun Hf)|done].
Qed.

(** ** Expiry *)

(** An item whose deadline has passed is among the entries that were popped. *)
Lemma expired_popped st now p s es k it :
  storeOk owner content st → expiredStaged owner now (st_provider st) (newBatchState (st_provider st)) ∅ p s es →
  p_items (st_provider st) !! k = Some it → expiredAt now it = true → k ∈ ee_key <$> es.
Proof.
  intros Hst Hx Hk He. unfold expiredAt in He. apply andb_true_iff in He as [Hz%negb_true_iff Hd%Z.leb_le].
  destruct (decide (k ∈ ee_key <$> es)) as [|Hn]; [done|]. exfalso.
  destruct (ex_item _ _ _ (xs_expiry _ _ _ _ _ _ _ _ Hx) k it Hk Hz) as (e & He & Hek).
  { rewrite union_empty_r_L. by rewrite elem_of_list_to_set. }
  destruct (ex_entry _ _ _ (xs_expiry _ _ _ _ _ _ _ _ Hx) e He) as (it' & Hit' & _ & _ & Hat).
  rewrite Hek, Hk in Hit'. apply (inj Some) in Hit' as <-.
  pose proof (xs_left _ _ _ _ _ _ _ _ Hx e He). lia.
Qed.

(** A popped entry belongs to an item whose deadline has passed. *)
Lemma popped_expired st now p s es k it :
  storeOk owner content st → expiredStaged owner now (st_provider st) (newBatchState (st_provider st)) ∅ p s es →
  p_items (st_provider st) !! k = Some it → k ∈ ee_key <$> es → expiredAt now it = true.
Proof.
  intros Hst Hx Hk (e & -> & He)%list_elem_of_fmap.
  pose proof (mm_expiry _ _ _ (po_mem _ _ (st_ok _ _ _ Hst))) as [_ _ Hent _].
  pose proof (sameEntries_forall _ _ _ (entryFor_index _) (xs_same _ _ _ _ _ _ _ _ Hx) Hent) as Hall.
  destruct (Hall e) as (it' & Hit' & Hid & _ & Hat); [set_solver|].
  rewrite Hk in Hit'. apply (inj Some) in Hit' as <-.
  pose proof (xs_due _ _ _ _ _ _ _ _ Hx e He) as Hdue. unfold expiredAt.
  destruct (isZeroTime (ci_expiresAt it)) eqn:Hz; [|simpl; apply Z.leb_le; lia].
  pose proof (io_noexp _ _ _ (mm_items _ _ _ (po_mem _ _ (st_ok _ _ _ Hst)) _ it Hk) Hz). congruence.
Qed.

(** The items after pruning are those of the staged view. *)
Lemma prune_view st now p s :
  storeOk owner content st → stageExpired (st_provider st) (newBatchState (st_provider st)) now = (p, s) →
  ∀ k, eraseIds <$> p_items (st_provider (pruneExpired None st now)) !! k = eraseIds <$> viewMap p s !! k.
Proof.
  intros Hst Hexp. unfold pruneExpired. rewrite Hexp. case_bool_decide as He.
  - intros k. rewrite viewMap_lookup. unfold getItem. by rewrite He, lookup_empty.
  - pose proof (expireCommit_ok owner content None st now p s (st_counters st) Hst Hexp) as H.
    destruct (commitBatch None p s) as [p'|e] eqn:Hc; [apply H|].
    apply stageExpired_ok with (owner := owner) (lost := ∅) in Hexp as (es & Hx); [|by eapply newStaged|apply Hst].
    destruct (xs_provider _ _ _ _ _ _ _ _ Hx) as (n & h & ->). destruct (st_index _ _ _ Hst) as (ix & Hix & _).
    unfold commitBatch, persistBatchLocked in Hc. simpl in Hc. by rewrite Hix in Hc.
Qed.

(** Putting the popped entries back restores the heap's entries. *)
Lemma restore_same st now p s es :
  storeOk owner content st → expiredStaged owner now (st_provider st) (newBatchState (st_provider st)) ∅ p s es →
  p_items (restoreExpiry p s) = p_items (st_provider st)
  ∧ sameEntries (p_expirations (restoreExpiry p s)) (p_expirations (st_provider st)).
Proof.
  intros Hst Hx. pose proof (mm_expiry _ _ _ (po_mem _ _ (st_ok _ _ _ Hst))) as [_ _ Hent _].
  pose proof (xs_same _ _ _ _ _ _ _ _ Hx) as Hsame.
  pose proof (sameEntries_forall _ _ _ (entryFor_index _) Hsame Hent) as Hall.
  destruct (xs_provider _ _ _ _ _ _ _ _ Hx) as (n & h & Hp).
  destruct (restoreExpiry_ok p es) as (h' & Hr & _ & Hs').
  { intros e He. rewrite Hp. apply Hall. set_solver. }
  { exact (ex_heap _ _ _ (xs_expiry _ _ _ _ _ _ _ _ Hx)). }
  pose proof (xs_popped _ _ _ _ _ _ _ _ Hx) as Hpop. simpl in Hpop.
  unfold restoreExpiry. rewrite Hpop, Hr. split; [by rewrite Hp|]. by eapply sameEntries_trans.
Qed.

(** Pruning removes exactly what has expired.  After [pruneExpired] at [now],
    every item whose deadline had passed is gone, body or mapping, and every
    body whose deadline had not keeps its contents and its file; when the
    transaction fails, every item is still in memory and the expiration heap
    holds the same entries, so that the next prune retries them. *)
Theorem prune_exact fault st now :
  storeOk owner content st →
  let st' := pruneExpired fault st now in
  storeOk owner content st'
  ∧ match fault with
    | None => (∀ k it, p_items (st_provider st) !! k = Some it → expiredAt now it = true →
          p_items (st_provider st') !! k = None)
        ∧ (∀ k it, p_items (st_provider st) !! k = Some it → ci_file it = true → expiredAt now it = false →
          ∃ it', p_items (st_provider st') !! k = Some it' ∧ eraseIds it' = eraseIds it
            ∧ is_Some (st_files st' !! ci_value it))
    | Some _ => p_items (st_provider st') = p_items (st_provider st) ∧ st_files st' = st_files st
        ∧ sameEntries (p_expirations (st_provider st')) (p_expirations (st_provider st))
    end.
Proof.
  intros Hst. cbv zeta. pose proof (pruneExpired_ok owner content fault st now Hst) as Hst'. split; [done|].
  destruct (stageExpired (st_provider st) (newBatchState (st_provider st)) now) as [p s] eqn:Hexp.
  destruct (stageExpired_ok owner now _ _ ∅ _ _ (newStaged owner content st Hst)
    (mm_expiry _ _ _ (po_mem _ _ (st_ok _ _ _ Hst))) Hexp) as (es & Hx).
  destruct fault as [code|].
  - unfold pruneExpired. rewrite Hexp. destruct (xs_provider _ _ _ _ _ _ _ _ Hx) as (n & h & Hp).
    case_bool_decide as He.
    + destruct (expired_mem owner content st now p s es Hst Hx) as [_ Hd]. rewrite He in Hd.
      assert (es = []) as -> by (destruct es as [|e es]; [done|]; simpl in Hd; set_solver).
      split_and!; [by rewrite Hp|done|]. exact (xs_same _ _ _ _ _ _ _ _ Hx).
    + destruct (st_index _ _ _ Hst) as (ix & Hix & _).
      rewrite (commit_fault _ _ _ ix) by (by rewrite Hp).
      destruct (restore_same st now p s es Hst Hx). split_and!; done.
  - pose proof (prune_view st now p s Hst Hexp) as Hview.
    set (st' := pruneExpired None st now) in *. clearbody st'. split.
    + intros k it Hk He. specialize (Hview k). pose proof (expired_popped st now p s es k it Hst Hx Hk He) as Hin.
      apply list_elem_of_fmap in Hin as (e & -> & Hin). rewrite (xs_gone _ _ _ _ _ _ _ _ Hx e Hin) in Hview.
      by destruct (p_items (st_provider st') !! ee_key e).
    + intros k it Hk Hf He. destruct (body_key st k it Hst Hk Hf) as [Hkey _].
      destruct (erased_lookup _ _ _ (Hview k) it) as (it' & Hit' & Her).
      { rewrite (xs_bodies _ _ _ _ _ _ _ _ Hx k Hkey); [by rewrite viewMap_new|].
        intros Hin. pose proof (popped_expired st now p s es k it Hst Hx Hk Hin). congruence. }
      exists it'. split_and!; [done|done|]. destruct (erased_file _ _ Her) as (Hf' & <- & _).
      destruct (st_bodies _ _ _ Hst' k it' Hit') as [_ (i & -> & _)]; [congruence|eauto].
Qed.

(** ** Eviction *)

(** The bodies eviction may take, least recently used first. *)
Definition evictableKeys (p : provider) (s : batchState) (protected : gset string) : list string :=
  filter (λ k, evictable p s protected k = true) (p_lru p).*2.

(** Freeing the bodies [keys] makes both needs fit. *)
Definition frees (p : provider) (s : batchState) (na aa np pa : N) (keys : list string) : Prop :=
  na ≤ aa + sumOf ci_accountedSize p s keys ∧ np ≤ pa + sumOf ci_physicalSize p s keys.

Lemma candidatesFrom_fail p s protected ra rp lru : ∀ fa fp found cs,
  candidatesFrom p s protected ra rp fa fp found lru = (cs, false) →
  let all := filter (λ k, evictable p s protected k = true) lru.*2 in
  all = [] ∨ ¬ (ra ≤ fa + sumOf ci_accountedSize p s all ∧ rp ≤ fp + sumOf ci_physicalSize p s all).
Proof.
  induction lru as [|[id key] rest IH]; intros fa fp found cs Hc; cbn [candidatesFrom] in Hc; [by left|].
  rewrite fmap_cons, filter_cons. simpl.
  assert (evictable p s protected key = match getItem p s key with Some i => negb (bool_decide (key ∈ protected)) && ci_file i | None => false end) as Hev.
  { unfold evictable. destruct (getItem p s key); [done|apply andb_false_r]. }
  destruct (bool_decide (key ∈ protected)).
  { rewrite decide_False by (rewrite Hev; by destruct (getItem p s key)). by eapply IH. }
  destruct (getItem p s key) as [item|] eqn:Hitem; [|rewrite decide_False by (by rewrite Hev); by eapply IH].
  destruct (ci_file item); [|rewrite decide_False by (by rewrite Hev); by eapply IH].
  rewrite decide_True by (by rewrite Hev). right. simpl. rewrite Hitem. simpl.
  destruct (_ && _) eqn:Hb; [done|]. apply andb_false_iff in Hb.
  rewrite N.leb_nle, N.leb_nle in Hb. apply IH in Hc as [->|Hc]; [simpl; lia|]. lia.
Qed.

(** Eviction takes the least recently used bodies, and no more than it must.
    When room can be made, the candidates are the shortest prefix of the
    evictable bodies in LRU order (a prefix of length [n], none shorter) whose
    removal makes the accounted and the physical bytes fit; when the routine
    gives up, evicting every evictable body would not have been enough. *)
Theorem eviction_lru_minimal p s protected na aa np pa :
  let all := evictableKeys p s protected in
  match evictionCandidates p s protected na aa np pa with
  | (cs, true) => ∃ n, cs = take n all ∧ length cs = n ∧ frees p s na aa np pa cs
      ∧ ∀ m, (m < n)%nat → ¬ frees p s na aa np pa (take m all)
  | (_, false) => ¬ frees p s na aa np pa all
  end.
Proof.
  cbv zeta. unfold evictionCandidates, evictableKeys, frees.
  destruct ((na <=? aa) && (np <=? pa)) eqn:Hfit.
  { apply andb_true_iff in Hfit as [Ha%N.leb_le Hp%N.leb_le]. exists 0%nat. split_and!; simpl; [done|done|lia|lia|lia]. }
  apply andb_false_iff in Hfit. rewrite N.leb_nle, N.leb_nle in Hfit.
  destruct (candidatesFrom _ _ _ _ _ _ _ _ _) as [cs [|]] eqn:Hc.
  - apply candidatesFrom_spec in Hc as (n & new & -> & Hnew & Hlen & Ha & Hp & Hmin). simpl. rewrite Hlen, Hnew.
    rewrite <- Hnew. exists (S n). split_and!; [done|done|lia|lia|].
    intros m Hm. destruct m as [|m]; [simpl; lia|]. specialize (Hmin (S m) ltac:(lia)).
    rewrite Hnew, take_take, Nat.min_l in Hmin by lia. lia.
  - apply candidatesFrom_fail in Hc as [->|Hc]; [simpl; lia|]. lia.
Qed.

(** ** Lookups *)

(** Two records of one body: same file, deadline and generation. *)
Definition sameBody (x y : cacheItem) : Prop :=
  ci_file x = ci_file y ∧ ci_value x = ci_value y ∧ ci_expiresAt x = ci_expiresAt y.

(** [st'] has no body and no file that [st] has not. *)
Definition bodiesFrom (st st' : store) : Prop :=
  (∀ k x', p_items (st_provider st') !! k = Some x' → ci_file x' = true →
    ∃ x, p_items (st_provider st) !! k = Some x ∧ sameBody x x')
  ∧ st_files st' ⊆ st_files st.

(** [st'] still has the bodies of [st], save perhaps that of [key]. *)
Definition bodiesKept (key : string) (st st' : store) : Prop :=
  ∀ k x, k ≠ key → p_items (st_provider st) !! k = Some x → ci_file x = true →
    ∃ x', p_items (st_provider st') !! k = Some x' ∧ sameBody x x'
      ∧ st_files st' !! ci_value x = st_files st !! ci_value x.

Lemma bodiesFrom_refl st : bodiesFrom st st.
Proof. split; [|done]. intros k x Hx _. by exists x. Qed.

Lemma bodiesFrom_trans st1 st2 st3 : bodiesFrom st1 st2 → bodiesFrom st2 st3 → bodiesFrom st1 st3.
Proof.
  intros [H1 F1] [H2 F2]. split; [|by etrans]. intros k x3 Hx3 Hf3.
  destruct (H2 k x3 Hx3 Hf3) as (x2 & Hx2 & A & B & D).
  destruct (H1 k x2 Hx2) as (x1 & Hx1 & A' & B' & D'); [congruence|].
  exists x1. split; [done|]. repeat split; congruence.
Qed.

Lemma bodiesKept_refl key st : bodiesKept key st st.
Proof. intros k x _ Hx _. by exists x. Qed.

Lemma bodiesKept_trans key st1 st2 st3 : bodiesKept key st1 st2 → bodiesKept key st2 st3 → bodiesKept key st1 st3.
Proof.
  intros H1 H2 k x Hne Hx Hf. destruct (H1 k x Hne Hx Hf) as (x2 & Hx2 & (A & B & D) & F).
  destruct (H2 k x2 Hne Hx2) as (x3 & Hx3 & (A' & B' & D') & F'); [congruence|].
  exists x3. split; [done|]. split; [repeat split; congruence|]. rewrite <- F, B. done.
Qed.

Lemma touch_items p key generation now t locked :
  let p' := touchItem p key generation now t locked in
  ∀ k, p_items p' !! k = p_items p !! k
    ∨ k = key ∧ ∃ x x', p_items p !! k = Some x ∧ p_items p' !! k = Some x' ∧ sameBody x x'.
Proof.
  cbv zeta. intros k. unfold touchItem. destruct (p_items p !! key) as [it|] eqn:Hit; [|by left].
  destruct (_ || _ || _); [by left|]. destruct (decide (k = key)) as [->|Hne].
  - right. split; [done|].
    destruct (second <=? _)%Z; [destruct (ci_lru it)|]; simpl; rewrite lookup_insert_eq;
      eexists _, _; (split; [done|]; split; [done|]); by destruct (negb (t =? 0)%Z), it.
  - left. destruct (second <=? _)%Z; [destruct (ci_lru it)|]; simpl; by rewrite lookup_insert_ne.
Qed.

Lemma touch_effect st key generation now t locked :
  let st' := withProvider st (touchItem (st_provider st) key generation now t locked) in
  bodiesFrom st st' ∧ ∀ key', bodiesKept key' st st'.
Proof.
  cbv zeta. pose proof (touch_items (st_provider st) key generation now t locked) as H. cbv zeta in H. split.
  - split; [|done]. intros k x' Hx' Hf. destruct (H k) as [He|(_ & x & y & Hx & Hy & Hs)].
    + simpl in Hx'. rewrite He in Hx'. by exists x'.
    + simpl in Hx'. rewrite Hy in Hx'. apply (inj Some) in Hx' as <-. by exists x.
  - intros key' k x _ Hx Hf. simpl. destruct (H k) as [He|(_ & y & x' & Hy & Hx' & Hs)].
    + exists x. by rewrite He.
    + rewrite Hx in Hy. apply (inj Some) in Hy as <-. by exists x'.
Qed.

Lemma deleteItemIf_effect fault st key f :
  storeOk owner content st →
  bodiesFrom st (deleteItemIf fault st key f) ∧ bodiesKept key st (deleteItemIf fault st key f).
Proof.
  intros Hst. pose proof (bodiesFrom_refl st) as Hr. pose proof (bodiesKept_refl key st) as Hk.
  unfold deleteItemIf. destruct (p_items (st_provider st) !! key) as [it|] eqn:Hit; [|done].
  destruct (f it); [|done]. destruct (deleteItem _ _ _) as [p s] eqn:Hd. destruct fault as [code|].
  - destruct (st_index _ _ _ Hst) as (ix & Hix & _).
    destruct (sh_provider _ _ _ _ _ (shrunk_delete owner _ _ _ _ _ (newStaged owner content st Hst) Hd)) as [n ->].
    unfold finishDelete. rewrite (commit_fault _ _ _ ix) by done. done.
  - pose proof (finishDelete_effect st key it p s Hst Hit Hd) as [_ _ _ _ Hb Hs Hf]. split; [split; [|done]|].
    + intros k x' Hx' Hfile. destruct (Hs k x' Hx' Hfile) as (x & Hx & He). exists x. split; [done|].
      destruct (erased_file _ _ He) as (? & ? & ?). by repeat split.
    + intros k x Hne Hx Hfile. destruct (Hb k x Hne Hx Hfile) as (x' & Hx' & He & HF). exists x'. split; [done|].
      destruct (erased_file _ _ He) as (? & ? & ?). by repeat split.
Qed.

Section Lookups.
Context {R : Type} (load : fileInfo → option R).

(** The response a body in memory yields. *)
Definition servable (st : store) (now : Z) (key : string) (r : R) : Prop :=
  ∃ it info, p_items (st_provider st) !! key = Some it ∧ ci_file it = true ∧ expiredAt now it = false
    ∧ st_files st !! ci_value it = Some info ∧ load info = Some r.

Lemma servable_from st st' now key r : bodiesFrom st st' → servable st' now key r → servable st now key r.
Proof.
  intros [Hb Hf] (it & info & Hit & Hfile & He & Hi & Hl). destruct (Hb key it Hit Hfile) as (x & Hx & A & B & D).
  exists x, info. split_and!; [done|congruence| | |done].
  - unfold expiredAt in *. by rewrite D.
  - rewrite B. by eapply lookup_weaken.
Qed.

Lemma servable_kept st st' now key' key r :
  bodiesKept key' st st' → key ≠ key' → servable st now key r → servable st' now key r.
Proof.
  intros Hk Hne (it & info & Hit & Hfile & He & Hi & Hl). destruct (Hk key it Hne Hit Hfile) as (x & Hx & (A & B & D) & F).
  exists x, info. split_and!; [done|congruence| | |done].
  - unfold expiredAt in *. by rewrite <- D.
  - rewrite <- B. by rewrite F.
Qed.

Lemma read_effect fault st key now locked st' o :
  storeOk owner content st → readHTTPResponse load fault st key now locked = (st', o) →
  (bodiesFrom st st' ∧ bodiesKept key st st')
  ∧ (∀ r, o = Ok (Some r) → servable st now key r)
  ∧ (∀ r, servable st now key r → o = Ok (Some r)).
Proof.
  intros Hst Hr. pose proof (bodiesFrom_refl st) as Hr0. pose proof (bodiesKept_refl key st) as Hk0.
  assert (∀ st1 generation, storeOk owner content st1 → bodiesFrom st st1 → bodiesKept key st st1 →
    bodiesFrom st (removeCorrupt fault st1 key generation) ∧ bodiesKept key st (removeCorrupt fault st1 key generation))
    as Hcor.
  { intros st1 g Hst1 Hf Hk. destruct (deleteItemIf_effect fault st1 key (λ it, ci_generation it =? g) Hst1) as [Hf1 Hk1].
    split; [exact (bodiesFrom_trans _ _ _ Hf Hf1)|exact (bodiesKept_trans _ _ _ _ Hk Hk1)]. }
  unfold readHTTPResponse, openCachedObject in Hr. unfold servable.
  destruct (p_items (st_provider st) !! key) as [it|] eqn:Hit.
  2:{ simplify_eq. split; [done|]. split; [done|]. intros r (? & ? & ? & _). done. }
  destruct (ci_file it) eqn:Hf; simpl in Hr.
  2:{ simplify_eq. split; [done|]. split; [done|]. intros r (x & ? & ? & ? & _). congruence. }
  destruct (expiredAt now it) eqn:He.
  { simplify_eq. split; [by apply deleteItemIf_effect|]. split; [done|]. intros r (x & ? & ? & ? & ? & _). congruence. }
  destruct (st_files st !! ci_value it) as [info|] eqn:Hi.
  2:{ simplify_eq. split; [by apply Hcor|]. split; [done|]. intros r (x & i & Hx & _ & _ & Hxi & _). congruence. }
  destruct (touch_effect st key (ci_generation it) now (ci_modifiedAt it) locked) as [Hft Hkt].
  destruct (load info) as [r|] eqn:Hl; simplify_eq.
  - split; [done|]. split.
    + intros r' [= <-]. by exists it, info.
    + intros r' (x & i & Hx & _ & _ & Hxi & Hlr). congruence.
  - split; [apply Hcor; [by apply touchItem_ok|done|done]|]. split; [done|].
    intros r (x & i & Hx & _ & _ & Hxi & Hlr). congruence.
Qed.

(** Conditional reads, as the two deadlines of a variant guard them. *)
Lemma guarded_read (b : bool) fault st key now locked st' o :
  storeOk owner content st →
  (if b then readHTTPResponse load fault st key now locked else (st, Ok None)) = (st', o) →
  storeOk owner content st' ∧ (bodiesFrom st st' ∧ bodiesKept key st st')
  ∧ (∀ r, o = Ok (Some r) → b = true ∧ servable st now key r)
  ∧ (∀ r, b = true → servable st now key r → o = Ok (Some r)).
Proof.
  intros Hst Hr. destruct b.
  - split; [exact (readHTTPResponse_ok owner content load _ _ _ _ _ _ _ Hst Hr)|].
    destruct (read_effect _ _ _ _ _ _ _ Hst Hr) as (He & H1 & H2). split_and!; [apply He|apply He|auto|auto].
  - simplify_eq. split; [done|]. split; [split; [apply bodiesFrom_refl|apply bodiesKept_refl]|]. split; done.
Qed.

(** A present body whose file does not parse; a read reports an error for nothing
    else. *)
Definition damaged (st : store) (now : Z) (key : string) : Prop :=
  ∃ it info, p_items (st_provider st) !! key = Some it ∧ ci_file it = true ∧ expiredAt now it = false
    ∧ st_files st !! ci_value it = Some info ∧ load info = None.
Lemma damaged_from st st' now key : bodiesFrom st st' → damaged st' now key → damaged st now key.
Proof.
  intros [Hb Hf] (it & info & Hit & Hfile & He & Hi & Hl). destruct (Hb key it Hit Hfile) as (x & Hx & A & B & D).
  exists x, info. split_and!; [done|congruence| | |done].
  - unfold expiredAt in *. by rewrite D.
  - rewrite B. by eapply lookup_weaken.
Qed.
Lemma guarded_error (b : bool) fault st key now locked st' err :
  (if b then readHTTPResponse load fault st key now locked else (st, Ok None)) = (st', Err err) → damaged st now key.
Proof.
  destruct b; [|done]. unfold readHTTPResponse, openCachedObject. destruct (p_items (st_provider st) !! key) as [it|] eqn:Hit; [|done].
  destruct (ci_file it) eqn:Hf; [|done]. cbn [negb]. destruct (expiredAt now it) eqn:He; [done|]. destruct (st_files st !! ci_value it) as [info|] eqn:Hi; [|done].
  destruct (load info) eqn:Hl; [done|]. intros _. by exists it, info.
Qed.

(** What an election may answer, over the variants it was given. *)
Definition electionSound (st : store) (request : Header) (now : Z) (variants : list (string * KeyIndex))
    (e : election) : Prop :=
  match e with
  | Fresh r key index => (key, index) ∈ variants ∧ variantMatches request index = true
      ∧ (now < ki_FreshTime index)%Z ∧ servable st now key r
  | Stale r key index => (key, index) ∈ variants ∧ variantMatches request index = true
      ∧ (now < ki_StaleTime index)%Z ∧ servable st now key r
  | ElectionError key => ∃ index, (key, index) ∈ variants ∧ variantMatches request index = true
  | NoVariant => True
  end.

Lemma electionSound_from st st' request now variants rest e :
  bodiesFrom st st' → (∀ x, x ∈ rest → x ∈ variants) →
  electionSound st' request now rest e → electionSound st request now variants e.
Proof.
  intros Hb Hsub. destruct e as [r key index|r key index|key|]; simpl; [| |intros (i & H1 & H2); eauto|done];
    intros (Hin & Hm & Hn & Hs); split_and!; eauto using servable_from.
Qed.

Lemma electFrom_sound fault request now locked variants : ∀ st v st' e,
  storeOk owner content st → electFrom load fault st request v now locked variants = (st', e) →
  electionSound st request now variants e.
Proof.
  induction variants as [|[key index] rest IH]; intros st v st' e Hst He; cbn [electFrom] in He; [by simplify_eq|].
  assert (∀ st1 v1, storeOk owner content st1 → bodiesFrom st st1 →
    electFrom load fault st1 request v1 now locked rest = (st', e) →
    electionSound st request now ((key, index) :: rest) e) as Hrest.
  { intros st1 v1 Hst1 Hf H. eapply electionSound_from; [exact Hf| |by eapply IH]. set_solver. }
  destruct (variantMatches request index) eqn:Hm; [|by eapply Hrest; eauto using bodiesFrom_refl].
  destruct (rv_Matched _); [|by eapply Hrest; eauto using bodiesFrom_refl].
  destruct (if (now <? ki_FreshTime index)%Z then _ else _) as [st1 r1] eqn:H1.
  apply guarded_read in H1 as (Hst1 & [Hf1 Hk1] & Hs1 & _); [|done].
  destruct r1 as [[r|]|]; [| |simplify_eq; exists index; set_solver].
  { simplify_eq. destruct (Hs1 r eq_refl) as [?%Z.ltb_lt ?]. split_and!; [set_solver|done|done|done]. }
  destruct (if (now <? ki_StaleTime index)%Z then _ else _) as [st2 r2] eqn:H2.
  apply guarded_read in H2 as (Hst2 & [Hf2 Hk2] & Hs2 & _); [|done].
  destruct r2 as [[r|]|]; [| |simplify_eq; exists index; set_solver].
  - simplify_eq. destruct (Hs2 r eq_refl) as [?%Z.ltb_lt ?].
    split_and!; [set_solver|done|done|by eapply servable_from].
  - eapply Hrest; [done| |exact He]. by eapply bodiesFrom_trans.
Qed.

(** A validator that carries no entity tags. *)
Definition untagged (v : Revalidator) : Prop :=
  rv_RequestETags v = [] ∧ rv_IfNoneMatchSet v = false ∧ rv_IfMatchSet v = false.

(** An election that found something to serve. *)
Definition serves (e : election (R := R)) : Prop := match e with Fresh _ _ _ | Stale _ _ _ => True | _ => False end.
Lemma electFrom_finds fault request now locked variants : ∀ st v st' e key index r,
  storeOk owner content st → untagged v → NoDup variants.*1 →
  (∀ k i, (k, i) ∈ variants → variantMatches request i = true → ¬ damaged st now k) →
  (key, index) ∈ variants → variantMatches request index = true → (now < ki_FreshTime index)%Z →
  servable st now key r →
  electFrom load fault st request v now locked variants = (st', e) → serves e.
Proof.
  induction variants as [|[key0 index0] rest IH]; intros st v st' e key index r Hst Hv Hnd Hgood Hin Hm Hn Hs He;
    cbn [electFrom] in He; [set_solver|].
  apply list.NoDup_cons in Hnd as [Hni Hnd]. apply elem_of_cons in Hin as [[= <- <-]|Hin].
  - rewrite Hm in He. destruct Hv as (H1 & H2 & H3).
    destruct (plain_matched (ki_ETag index) v H1 H2 H3) as [Hmt _]. rewrite Hmt in He.
    destruct (if (now <? ki_FreshTime index)%Z then _ else _) as [st1 r1] eqn:Hr.
    apply guarded_read in Hr as (_ & _ & _ & Hr); [|done]. rewrite (Hr r) in He; [by simplify_eq|by apply Z.ltb_lt|done].
  - assert (key ≠ key0) as Hne.
    { intros ->. apply Hni. apply list_elem_of_fmap. by exists (key0, index). }
    assert (∀ k i, (k, i) ∈ rest → variantMatches request i = true → ¬ damaged st now k) as Hrest by (intros k i Hk; apply (Hgood k i); set_solver).
    destruct (plain_matched (ki_ETag index0) v) as (Hmt & Hv1); try apply Hv.
    destruct (variantMatches request index0) eqn:Hm0; [|exact (IH st v st' e key index r Hst Hv Hnd Hrest Hin Hm Hn Hs He)].
    pose proof (Hgood key0 index0 ltac:(set_solver) Hm0) as Hok. rewrite Hmt in He.
    destruct (if (now <? ki_FreshTime index0)%Z then _ else _) as [st1 r1] eqn:H1. pose proof H1 as E1.
    apply guarded_read in H1 as (Hst1 & [Hf1 Hk1] & _ & _); [|done].
    destruct r1 as [[r1|]|]; [by simplify_eq| |by apply guarded_error in E1].
    destruct (if (now <? ki_StaleTime index0)%Z then _ else _) as [st2 r2] eqn:H2. pose proof H2 as E2.
    apply guarded_read in H2 as (Hst2 & [Hf2 Hk2] & _ & _); [|done].
    destruct r2 as [[r2|]|]; [by simplify_eq| |by apply guarded_error, (damaged_from st) in E2].
    eapply (IH st2); [done|exact Hv1|done| |done|done|done| |exact He].
    + intros k i Hk Hki Hd. apply (Hrest k i Hk Hki). eapply damaged_from; [|exact Hd]. by eapply bodiesFrom_trans.
    + eapply servable_kept; [exact Hk2|done|]. by eapply servable_kept; [exact Hk1|..].
Qed.

(** The mapping record a lookup works on. *)
Definition lookupMapping (st : store) (now : Z) (key : string) (m : gmap string KeyIndex) : Prop :=
  ∃ mi, p_items (st_provider st) !! (MappingKeyPrefix +:+ key) = Some mi ∧ ci_file mi = false
    ∧ expiredAt now mi = false ∧ DecodeMapping (ci_value mi) = Some {| sm_Mapping := Some m |}.

Lemma decoded_effect fault st key now locked st1 d :
  storeOk owner content st → getDecodedMapping fault st (MappingKeyPrefix +:+ key) now locked = (st1, d) →
  (∀ m, d = Ok (Some {| sm_Mapping := Some m |}) ↔ lookupMapping st now key m)
  ∧ (∀ mapping, d = Ok (Some mapping) → bodiesFrom st st1 ∧ ∀ k, bodiesKept k st st1).
Proof.
  intros Hst Hd. unfold getDecodedMapping in Hd. unfold lookupMapping.
  destruct (p_items _ !! _) as [it|] eqn:Hit.
  2:{ simplify_eq. split; [|done]. intros m. split; [done|]. intros (? & ? & _). done. }
  destruct (ci_file it) eqn:Hf.
  { simplify_eq. split; [|done]. intros m. split; [done|]. intros (? & ? & ? & _). congruence. }
  destruct (expiredAt now it) eqn:He.
  { simplify_eq. split; [|done]. intros m. split; [done|]. intros (? & ? & ? & ? & _). congruence. }
  pose proof (io_cached _ _ _ (mm_items _ _ _ (po_mem _ _ (st_ok _ _ _ Hst)) _ it Hit) Hf) as Hc.
  destruct (ci_mapping it) as [mapping|] eqn:Hm.
  - simplify_eq. split; [|intros ? _; apply touch_effect]. intros m. split.
    + intros [= ->]. by exists it.
    + intros (mi & Hmi & _ & _ & Hdec). congruence.
  - rewrite <- Hc in Hd. simplify_eq. split; [|done]. intros m. split; [done|].
    intros (mi & Hmi & _ & _ & Hdec). congruence.
Qed.

(** C5. A lookup serves only what it may.  The response of a hit is the parsed
    file of a body in memory that has not expired, under a variant that the
    current, unexpired mapping record lists and whose vary headers equal the
    request's; a fresh answer comes before the variant's fresh deadline and a
    stale one before its stale deadline. *)
Theorem lookup_sound fault st key request v now locked st' e :
  storeOk owner content st → getMultiLevel load fault st key request v now locked = (st', e) →
  match e with
  | Fresh r variant index => ∃ m, lookupMapping st now key m ∧ m !! variant = Some index
      ∧ variantMatches request index = true ∧ (now < ki_FreshTime index)%Z ∧ servable st now variant r
  | Stale r variant index => ∃ m, lookupMapping st now key m ∧ m !! variant = Some index
      ∧ variantMatches request index = true ∧ (now < ki_StaleTime index)%Z ∧ servable st now variant r
  | _ => True
  end.
Proof.
  intros Hst Hg. unfold getMultiLevel in Hg. destruct (getDecodedMapping _ _ _ _ _) as [st1 d] eqn:Hd.
  pose proof (getDecodedMapping_ok owner content _ _ _ _ _ _ _ Hst Hd) as Hst1.
  destruct (decoded_effect _ _ _ _ _ _ _ Hst Hd) as [Hmap Heff].
  destruct d as [[[mo]|]|]; [|by simplify_eq..]. destruct (Heff _ eq_refl) as [Hfrom _].
  simpl in Hg. destruct mo as [m|]; [|by simplify_eq]. pose proof (proj1 (Hmap m) eq_refl) as Hlk.
  destruct (mappingElection _ _ _ _ _ _ _ _) as [st2 el] eqn:Hel.
  apply electFrom_sound in Hel; [|done]. eapply electionSound_from in Hel; [|exact Hfrom|intros x Hx; exact Hx].
  destruct el as [r k i|r k i|k|]; simplify_eq/=; [| |done|done];
    destruct Hel as (Hin%range_elem & ? & ? & ?); exists m; done.
Qed.

(** C34. A lookup serves a fresh variant.  When the mapping record of the key is
    current and lists a variant that matches the request, is still fresh and whose
    body can be parsed, and no matching variant has a present body that does not
    parse (such a body ends the election with an error, which is a miss), an
    unconditional lookup answers with a fresh or a stale response, even when
    bodies of other variants are missing or expired and are removed on the way. *)
Theorem lookup_complete fault st key request v now locked st' e m variant index r :
  storeOk owner content st → untagged v → lookupMapping st now key m → m !! variant = Some index →
  variantMatches request index = true → (now < ki_FreshTime index)%Z → servable st now variant r →
  (∀ k i, m !! k = Some i → variantMatches request i = true → ¬ damaged st now k) →
  getMultiLevel load fault st key request v now locked = (st', e) →
  (∃ r' k i, e = Fresh r' k i ∨ e = Stale r' k i).
Proof.
  intros Hst Hv Hlk Hin Hm Hn Hs Hgood Hg. unfold getMultiLevel in Hg.
  destruct (getDecodedMapping _ _ _ _ _) as [st1 d] eqn:Hd.
  pose proof (getDecodedMapping_ok owner content _ _ _ _ _ _ _ Hst Hd) as Hst1.
  destruct (decoded_effect _ _ _ _ _ _ _ Hst Hd) as [Hmap Heff]. apply Hmap in Hlk as ->.
  destruct (Heff _ eq_refl) as [Hfrom Hkept]. simpl in Hg.
  destruct (mappingElection _ _ _ _ _ _ _ _) as [st2 el] eqn:Hel.
  assert (serves el) as Hne.
  { eapply electFrom_finds; [exact Hst1|done|apply range_NoDup| |by apply range_elem|done|done| |exact Hel].
    - intros k i Hk%range_elem Hki Hdm. apply (Hgood k i Hk Hki). by eapply damaged_from.
    - eapply (servable_kept st st1 _ (variant +:+ "x")); [apply Hkept| |done].
      intros Heq. apply (f_equal String.length) in Heq. rewrite TextCodec.length_app_string in Heq. simpl in Heq. lia. }
  destruct el; try done; simplify_eq; eauto.
Qed.

End Lookups.

End Theorems.
