(* ===== verification/CacheRuns.v ===== *)
(** * Concrete runs of the cache store

    A small store, built by flushing writes into the empty one, at which the
    theorems of [CacheTheorems] are applied, and runs that exhibit what the
    code does on inputs where it does not do what it means to. *)
From Stdlib Require Import ZArith Lia Ascii String.
From stdpp Require Import base numbers list strings gmap sets option.
From S2P Require Import Prelude CacheCore ExpirationHeap Capacity CacheStore CacheView CacheExpiry.
From S2P Require Import CacheCommit CacheStoreOps CacheWrites CacheInvariant CacheFlush CacheTheorems.
Import TextCodec.

Local Open Scope N_scope.

(** Paths: [/c/a] and [/c/b] are the bodies of the variants [a] and [b]. *)
Definition demoOwner (path : string) : string :=
  if bool_decide (path = "/c/a") then "a" else if bool_decide (path = "/c/b") then "b" else "IDX_".
Definition demoContent (path : string) : string * N := ("sum", 10).
Definition demoInfo : fileInfo := FileInfo 10 "sum" 1.
Definition demoLoad (i : fileInfo) : option string := Some (fi_checksum i).

Definition demoWrite (variant language : string) : pendingWrite :=
  PendingWrite "p" variant ("/t/" +:+ variant) ("/c/" +:+ variant) 10 4096 30 "sum" 1 ["site"]
    {[ "Accept-Language" := [language] ]} "" 100 "p".

(** A disk of one tebibyte, one gigabyte used, and system calls that succeed. *)
Definition demoEnv : flushEnv :=
  FlushEnv (Ok (UsageStatOf (2 ^ 40) (2 ^ 30))) (λ _, Some None) (λ _, true) (λ _, None) (λ _, None) None None.
Definition demoLimits : limits := Limits true 0 90.

Definition demoStart : store := withFiles emptyStore (<[ "/t/b" := demoInfo ]> {[ "/t/a" := demoInfo ]}).
Definition demoFlush : store * list (option storeError) :=
  flushBatch demoEnv demoLimits 50 1000 (λ _, 1000%Z) demoStart [demoWrite "a" "en"; demoWrite "b" "de"].
Definition demoStore : store := demoFlush.1.

Lemma demoWrites_ok : Forall (writeOk demoOwner demoContent (st_files demoStart)) [demoWrite "a" "en"; demoWrite "b" "de"].
Proof.
  assert (∀ v l, v = "a" ∨ v = "b" → writeOk demoOwner demoContent (st_files demoStart) (demoWrite v l)) as H.
  { intros v l [-> | ->]; (split; [done..|]); intros info Hi; vm_compute in Hi; by injection Hi as <-. }
  repeat apply Forall_cons; auto.
Qed.

Lemma demoStart_run : storeRun demoOwner demoContent demoLoad emptyStore demoStart.
Proof.
  eapply RunStep; [by apply (StepTemporary _ _ _ _ "/t/a" demoInfo)|].
  eapply RunStep; [by apply (StepTemporary _ _ _ _ "/t/b" demoInfo)|]. apply RunNil.
Qed.

Lemma demoStart_ok : storeOk demoOwner demoContent demoStart.
Proof. eapply run_ok, demoStart_run. apply empty_ok. Qed.

Lemma demo_ok : storeOk demoOwner demoContent demoStore.
Proof. eapply step_ok; [apply demoStart_ok|]. apply (StepFlush _ _ demoLoad); [done|apply demoWrites_ok]. Qed.


Lemma flush_outcome_witness :
  storeOk demoOwner demoContent demoStore ∧ demoFlush.2 = [None; None]
  ∧ ∃ it, p_items (st_provider demoStore) !! "a" = Some it ∧ ci_file it = true.
Proof.
  destruct (flush_outcome demoOwner demoContent demoEnv demoLimits 50 1000 (λ _, 1000%Z) demoStart
    [demoWrite "a" "en"; demoWrite "b" "de"] demoStore demoFlush.2 (λ _, eq_refl) demoStart_ok demoWrites_ok)
    as (Hok & _ & Hv & _); [apply surjective_pairing|].
  split; [exact Hok|]. split; [reflexivity|].
  destruct (Hv 0%nat (demoWrite "a" "en")) as (it & w & Hit & _ & _ & x & (n & g & t & ->) & He); [reflexivity..|].
  exists it. split; [exact Hit|]. apply (f_equal ci_file) in He. exact He.
Defined.

(** A batch that drops the body [a] of the demo store. *)
Definition demoStaged : batchState :=
  (deleteItem (st_provider demoStore) (newBatchState (st_provider demoStore)) "a").2.

Lemma commit_atomic_witness :
  ∃ p', commitBatch None (st_provider demoStore) (newBatchState (st_provider demoStore)) = Ok p'
    ∧ storeOk demoOwner demoContent (Store p' (st_files demoStore) (st_counters demoStore)).
Proof.
  pose proof (commit_atomic demoOwner demoContent None demoStore (newBatchState (st_provider demoStore))
    (st_files demoStore) (st_counters demoStore) demo_ok (newStaged _ _ _ demo_ok)) as H.
  rewrite viewMap_new in H. specialize (H (st_bodies _ _ _ demo_ok)).
  destruct (commitBatch None _ _) as [p'|e].
  - exists p'. split; [reflexivity|]. apply H.
  - destruct H as (code & Hc & _). discriminate.
Defined.

Lemma delete_complete_witness :
  p_items (st_provider (Delete None demoStore "a")) !! "a" = None
  ∧ st_files (Delete None demoStore "a") !! "/c/a" = None
  ∧ is_Some (st_files (Delete None demoStore "a") !! "/c/b").
Proof.
  assert (∃ it, p_items (st_provider demoStore) !! "a" = Some it ∧ ci_file it = true ∧ ci_value it = "/c/a")
    as (it & Hit & Hf & Hv) by (eexists; split; [vm_compute; reflexivity|split; reflexivity]).
  pose proof (delete_complete demoOwner demoContent None demoStore "a" it demo_ok Hit Hf) as H.
  rewrite Hv in H. destruct H as (H1 & _ & H2 & _).
  split; [exact H1|]. split; [exact H2|]. exists demoInfo. vm_compute. reflexivity.
Defined.

Lemma prune_exact_witness :
  storeOk demoOwner demoContent (pruneExpired None demoStore 2000)
  ∧ p_items (st_provider (pruneExpired None demoStore 2000)) !! "a" = None.
Proof.
  destruct (prune_exact demoOwner demoContent None demoStore 2000 demo_ok) as (H1 & H2 & _).
  split; [exact H1|].
  assert (∃ it, p_items (st_provider demoStore) !! "a" = Some it ∧ expiredAt 2000 it = true)
    as (it & Hit & He) by (eexists; split; [vm_compute; reflexivity|reflexivity]).
  exact (H2 "a" it Hit He).
Defined.

(** A lookup in English at time 1010 is answered by the variant [a]. *)
Definition demoLookup : store * election :=
  getMultiLevel demoLoad None demoStore "p" {[ "Accept-Language" := ["en"] ]} plainValidator 1010 true.

Lemma lookup_sound_witness :
  (∃ index, demoLookup.2 = Fresh "sum" "a" index) ∧ servable demoLoad demoStore 1010 "a" "sum".
Proof.
  pose proof (lookup_sound demoOwner demoContent demoLoad None demoStore "p" {[ "Accept-Language" := ["en"] ]}
    plainValidator 1010 true demoLookup.1 demoLookup.2 demo_ok (surjective_pairing _)) as H.
  assert (∃ index, demoLookup.2 = Fresh "sum" "a" index) as [index He] by (eexists; vm_compute; reflexivity).
  rewrite He in H. split; [exists index; exact He|]. destruct H as (m & _ & _ & _ & _ & Hs). exact Hs.
Defined.

Definition demoMapping : gmap string KeyIndex :=
  match p_items (st_provider demoStore) !! "IDX_p" with
  | Some it => default ∅ (GetMapping (ci_mapping it))
  | None => ∅
  end.

Lemma lookup_complete_witness : ∃ r k i, demoLookup.2 = Fresh r k i ∨ demoLookup.2 = Stale r k i.
Proof.
  assert (∃ index, demoMapping !! "a" = Some index) as [index Hi] by (eexists; vm_compute; reflexivity).
  apply (lookup_complete demoOwner demoContent demoLoad None demoStore "p" {[ "Accept-Language" := ["en"] ]}
    plainValidator 1010 true demoLookup.1 demoLookup.2 demoMapping "a" index "sum" demo_ok).
  - repeat split.
  - eexists. split; [vm_compute; reflexivity|]. split; [reflexivity|]. split; [reflexivity|]. vm_compute. reflexivity.
  - exact Hi.
  - vm_compute in Hi. injection Hi as <-. reflexivity.
  - vm_compute in Hi. injection Hi as <-. reflexivity.
  - eexists _, demoInfo. split; [vm_compute; reflexivity|]. repeat (split; [reflexivity|]). reflexivity.
  - intros k i _ _ (it & info & _ & _ & _ & _ & Hl). discriminate Hl.
  - apply surjective_pairing.
Defined.

(** ** Runs that show defects *)

Section Accounting.
Context {C : MappingCodec} {G : GoRange}.

(** Deleting a mapping record subtracts its accounted size twice: once in
    [deleteItem] and once more in [stageMapping], which it calls.  The
    accounted bytes then under-count what memory holds, so that the configured
    byte limit is enforced too late. *)
Theorem mapping_delete_undercounts p s key it :
  getItem p s key = Some it → ci_file it = false →
  bs_used (deleteItem p s key).2 = bs_used s - ci_accountedSize it - ci_accountedSize it.
Proof.
  intros Hit Hf. unfold deleteItem. rewrite Hit, Hf. simpl.
  destruct (removeItemGroups_eq p s key) as (x & y & -> & _).
  unfold stageMapping. change (getItem p (sBytes _ _ _) key) with (getItem p s key). rewrite Hit.
  match goal with |- context [unlinkVariants p ?s' key ?l] =>
    destruct (unlinkVariants_eq p s' key l) as (z & -> & _) end.
  simpl. lia.
Qed.

(** Storing a plain value over a body subtracts the body's bytes twice: [Set]
    does so when it finds the old body and again before it adds the new item,
    which reads the same old body through the batch. *)
Theorem set_replaced_body_undercounts st key value duration now old p' :
  getItem (st_provider st) (newBatchState (st_provider st)) key = Some old → ci_file old = true →
  String.prefix MappingKeyPrefix key = false →
  (Set' None st key value duration now) = (p', None) →
  p_physicalUsed (st_provider p') = p_physicalUsed (st_provider st) - ci_physicalSize old - ci_physicalSize old.
Proof.
  intros Hold Hf Hk Hset. unfold Set' in Hset. cbv zeta in Hset. rewrite Hold, Hf, Hk in Hset.
  change (getItem (bumpVersion (st_provider st)) (sObsolete (sBytes (newBatchState (st_provider st)) ?a ?b) ?o) key)
    with (getItem (st_provider st) (newBatchState (st_provider st)) key) in Hset. rewrite Hold in Hset.
  unfold commitBatch, persistBatchLocked in Hset. simpl in Hset.
  destruct (p_index (st_provider st)); [|done]. apply pair_eq in Hset as [<- _].
  unfold applyBatchLocked. simpl. lia.
Qed.

(** A 304 never updates the entity tag of a variant.  [Refresh] copies the
    updated headers under the literal name [ETag], while every key of a Go
    header is canonical ([Etag]), and reads the tag back with [Get], which looks
    under the canonical name: whatever headers the origin sends with the 304,
    the variant keeps its old tag, and the same holds after the refresh. *)
Theorem refresh_keeps_etag index now duration stale update :
  ki_Revalidated index !! "Etag" = None →
  ki_ETag (refreshIndex index now duration stale update) = ki_ETag index
  ∧ ki_Revalidated (refreshIndex index now duration stale update) !! "Etag" = None.
Proof.
  intros Hr. unfold refreshIndex. cbv zeta. cbn [ki_ETag ki_Revalidated].
  assert (∀ names (h : Header), h !! "Etag" = None → "Etag" ∉ names →
    foldl (λ (h : Header) name, match update !! name with Some values => <[name := values]> h | None => h end) h names !! "Etag"
    = None) as Hfold.
  { intros names. induction names as [|n names IH]; intros h Hh Hn; cbn [foldl]; [done|].
    apply not_elem_of_cons in Hn as [Hne Hn]. apply IH; [|done].
    destruct (update !! n); [by rewrite lookup_insert_ne|done]. }
  specialize (Hfold refreshedNames (ki_Revalidated index) Hr).
  assert ("Etag" ∉ refreshedNames) as Hni by (unfold refreshedNames; rewrite !not_elem_of_cons; set_solver).
  specialize (Hfold Hni). split; [|done]. unfold headerGet.
  change (CanonicalHeaderKey "ETag") with "Etag". rewrite Hfold. done.
Qed.
End Accounting.

(** The mapping record of the demo store is deleted, and its size counted twice. *)
Lemma mapping_delete_undercounts_witness :
  ∃ it, p_items (st_provider demoStore) !! "IDX_p" = Some it
    ∧ bs_used (deleteItem (st_provider demoStore) (newBatchState (st_provider demoStore)) "IDX_p").2
      = p_cacheUsed (st_provider demoStore) - ci_accountedSize it - ci_accountedSize it.
Proof.
  assert (∃ it, p_items (st_provider demoStore) !! "IDX_p" = Some it ∧ ci_file it = false)
    as (it & Hit & Hf) by (eexists; split; [vm_compute; reflexivity|reflexivity]).
  exists it. split; [exact Hit|].
  exact (mapping_delete_undercounts (st_provider demoStore) (newBatchState (st_provider demoStore)) "IDX_p" it Hit Hf).
Defined.

Definition demoSet : store * option storeError := Set' None demoStore "a" "v" 10 1010.

Lemma set_replaced_body_undercounts_witness : p_physicalUsed (st_provider demoSet.1) = 8192 - 4096 - 4096.
Proof.
  assert (∃ it, p_items (st_provider demoStore) !! "a" = Some it ∧ ci_file it = true ∧ ci_physicalSize it = 4096)
    as (it & Hit & Hf & Hp) by (eexists; split; [vm_compute; reflexivity|split; reflexivity]).
  rewrite (set_replaced_body_undercounts demoStore "a" "v" 10 1010 it demoSet.1 Hit Hf eq_refl) by (vm_compute; reflexivity).
  rewrite Hp. reflexivity.
Defined.

Definition demoIndex : KeyIndex := {|
  ki_StoredAt := 0; ki_FreshTime := 10; ki_StaleTime := 20; ki_VariedHeaders := ∅; ki_ETag := "old";
  ki_RealKey := "p"; ki_Revalidated := ∅ |}.

Lemma refresh_keeps_etag_witness :
  ki_ETag (refreshIndex demoIndex 0 10 10 {[ "Etag" := ["new"] ]}) = "old".
Proof. apply (refresh_keeps_etag demoIndex 0 10 10 {[ "Etag" := ["new"] ]}). reflexivity. Defined.

(** A disk on which only one of the two bodies fits. *)
Definition smallEnv (used : N) : flushEnv :=
  FlushEnv (Ok (UsageStatOf 6000 used)) (λ _, Some None) (λ _, true) (λ _, None) (λ _, None) None None.
Definition smallFirst : store * list (option storeError) :=
  flushBatch (smallEnv 4096) demoLimits 50 1000 (λ _, 1000%Z) demoStart [demoWrite "a" "en"].
Definition smallSecond : store * list (option storeError) :=
  flushBatch (smallEnv 8192) demoLimits 50 1001 (λ _, 1001%Z) smallFirst.1 [demoWrite "b" "de"].

(** Evicting a sibling leaves a dangling variant.  The mapping record of a
    write is computed before room is made for its body; when the body that is
    evicted is another variant of the same key, the record staged afterwards
    still lists it.  After two accepted writes to one key on a disk with room
    for one body, memory holds only the second body, but the mapping lists
    both. *)
Theorem flush_lists_evicted_variant :
  smallFirst.2 = [None] ∧ smallSecond.2 = [None]
  ∧ p_items (st_provider smallSecond.1) !! "a" = None
  ∧ ∃ it, p_items (st_provider smallSecond.1) !! "IDX_p" = Some it ∧ "a" ∈ mappingVariants it.
Proof.
  split; [reflexivity|]. split; [reflexivity|]. split; [vm_compute; reflexivity|].
  eexists. split; [vm_compute; reflexivity|]. apply (bool_decide_unpack _). vm_compute. exact I.
Qed.

(** A disk that cannot read a body back to verify it, and a transaction that
    fails; the body [a] of the demo store is stored again. *)
Definition unreadableEnv : flushEnv :=
  FlushEnv (Ok (UsageStatOf (2 ^ 40) (2 ^ 30))) (λ _, Some None) (λ _, false) (λ _, None) (λ _, None) None (Some 5%nat).
Definition storedAgain : store * list (option storeError) :=
  flushBatch unreadableEnv demoLimits 50 1001 (λ _, 1001%Z)
    (withFiles demoStore (<[ "/t/a" := demoInfo ]> (st_files demoStore))) [demoWrite "a" "en"].

(** A failed flush can remove the file of a live body.  [installBatchFiles]
    reports a file it renamed over an existing one as installed when the
    existing one could not be read to verify it; when the transaction then
    fails, the clean-up removes that file, which is the file of the body that
    is still in memory and in the database. *)
Theorem failed_flush_removes_live_file :
  storedAgain.2 = [Some (ErrIndexIO 5)] ∧ st_files demoStore !! "/c/a" = Some demoInfo
  ∧ st_files storedAgain.1 !! "/c/a" = None
  ∧ ∃ it, p_items (st_provider storedAgain.1) !! "a" = Some it ∧ ci_file it = true ∧ ci_value it = "/c/a".
Proof.
  split; [vm_compute; reflexivity|]. split; [vm_compute; reflexivity|]. split; [vm_compute; reflexivity|].
  eexists. split; [vm_compute; reflexivity|]. split; reflexivity.
Qed.
