(* ===== verification/WriteQueue.v ===== *)
(** * The write queue of the cache store ([caddy/simplefs/batch.go])

    Writers append to a bounded queue and wait for their result; one flush
    loop at a time takes a batch, flushes it, and answers its writers.  The
    goroutines interleave between the sections that hold [batchMu], each of
    which is one step.  The timer and the wake channel only decide when a
    waiting loop takes its batch, which the relation leaves open. *)
From Stdlib Require Import ZArith Lia Ascii String.
From stdpp Require Import base numbers list strings gmap sets option.
From S2P Require Import Prelude CacheCore ExpirationHeap Capacity CacheStore CacheCommit CacheStoreOps CacheWrites.

Local Open Scope N_scope.

Definition writeBatchMaxObjects : nat := 64.
Definition writeBatchMaxBytes : N := 64 * 2 ^ 20.
Definition writeQueueMaxObjects : nat := 256.
Definition writeQueueMaxBytes : N := 256 * 2 ^ 20.

(** Where a flush loop is: before [takeBatch], in [flushBatch], after it and
    before the second lock, or answering the writers of its batch; a loop that
    found the queue empty is [finished] and returns once it has answered. *)
Inductive loopPhase :=
| Waiting
| Flushing (batch : list pendingWrite)
| Flushed (answers : list (pendingWrite * option storeError))
| Delivering (answers : list (pendingWrite * option storeError)) (finished : bool).

Record queueStats := QueueStats {
  qs_depth : N; qs_bytes : N; qs_depthMax : N; qs_bytesMax : N;
  qs_inflight : N; qs_queueRejections : N; qs_writeBatches : N;
}.

Record queue := Queue {
  q_store : store;
  q_pending : list pendingWrite;
  q_pendingBytes : N;
  q_flushing : bool;
  q_loops : list loopPhase;
  q_stats : queueStats;
  q_accepted : list pendingWrite;                          (* enqueued so far *)
  q_answered : list (pendingWrite * option storeError);    (* sent on [done] *)
}.

Definition writeBytes (ws : list pendingWrite) : N := foldr (λ w n, pw_compressedSize w + n) 0 ws.

(** The counters [enqueueWrite] stores after appending. *)
Definition statsEnqueued (s : queueStats) (depth bytes : N) : queueStats :=
  QueueStats depth bytes (N.max (qs_depthMax s) depth) (N.max (qs_bytesMax s) bytes)
    (qs_inflight s) (qs_queueRejections s) (qs_writeBatches s).

(** [enqueueWrite] up to the wait for the result: a full queue rejects, and
    the first write of an idle queue starts a loop. *)
Definition enqueueWrite (q : queue) (w : pendingWrite) : queue * option storeError :=
  if (writeQueueMaxObjects <=? length (q_pending q))%nat
     || (writeQueueMaxBytes <? u64 (q_pendingBytes q + pw_compressedSize w))
  then
    let s := q_stats q in
    let st := q_store q in
    (Queue (withCounters st (addRejections 1 (st_counters st))) (q_pending q) (q_pendingBytes q) (q_flushing q)
       (q_loops q)
       (QueueStats (qs_depth s) (qs_bytes s) (qs_depthMax s) (qs_bytesMax s) (qs_inflight s)
          (qs_queueRejections s + 1) (qs_writeBatches s)) (q_accepted q) (q_answered q),
     Some ErrWriteQueueFull)
  else
    let pending := q_pending q ++ [w] in
    let bytes := u64 (q_pendingBytes q + pw_compressedSize w) in
    (Queue (q_store q) pending bytes true
       (if q_flushing q then q_loops q else q_loops q ++ [Waiting])
       (statsEnqueued (q_stats q) (N.of_nat (length pending)) bytes) (q_accepted q ++ [w]) (q_answered q),
     None).

(** The loop of [takeBatch]: how many writes fit, and their bytes. *)
Fixpoint batchCount (count : nat) (bytes : N) (pending : list pendingWrite) : nat * N :=
  match pending with
  | [] => (count, bytes)
  | w :: rest =>
      if (writeBatchMaxObjects <=? count)%nat then (count, bytes)
      else if (0 <? count)%nat && (writeBatchMaxBytes <? u64 (bytes + pw_compressedSize w)) then (count, bytes)
      else batchCount (S count) (u64 (bytes + pw_compressedSize w)) rest
  end.

(** [takeBatch]: the batch is empty exactly when the queue was, and then the
    queue is marked idle. *)
Definition takeBatch (q : queue) : queue * list pendingWrite :=
  match q_pending q with
  | [] =>
      (Queue (q_store q) [] (q_pendingBytes q) false (q_loops q) (q_stats q) (q_accepted q) (q_answered q), [])
  | _ =>
      let '(count, bytes) := batchCount 0 0 (q_pending q) in
      let pending := drop count (q_pending q) in
      let s := q_stats q in
      (Queue (q_store q) pending (u64 (q_pendingBytes q + (2 ^ 64 - bytes))) (q_flushing q) (q_loops q)
         (QueueStats (N.of_nat (length pending)) (u64 (q_pendingBytes q + (2 ^ 64 - bytes))) (qs_depthMax s)
            (qs_bytesMax s) (N.of_nat count) (qs_queueRejections s) (qs_writeBatches s))
         (q_accepted q) (q_answered q),
       take count (q_pending q))
  end.

Definition setLoops (q : queue) (l : list loopPhase) : queue :=
  Queue (q_store q) (q_pending q) (q_pendingBytes q) (q_flushing q) l (q_stats q) (q_accepted q) (q_answered q).
Definition setFlushing (q : queue) (b : bool) : queue :=
  Queue (q_store q) (q_pending q) (q_pendingBytes q) b (q_loops q) (q_stats q) (q_accepted q) (q_answered q).
Definition answer (q : queue) (a : pendingWrite * option storeError) : queue :=
  Queue (q_store q) (q_pending q) (q_pendingBytes q) (q_flushing q) (q_loops q) (q_stats q) (q_accepted q)
    (q_answered q ++ [a]).
(** [flushBatch] has returned: the store, and the batch counters. *)
Definition flushed' (q : queue) (st : store) : queue :=
  let s := q_stats q in
  Queue st (q_pending q) (q_pendingBytes q) (q_flushing q) (q_loops q)
    (QueueStats (qs_depth s) (qs_bytes s) (qs_depthMax s) (qs_bytesMax s) 0 (qs_queueRejections s)
       (qs_writeBatches s + 1)) (q_accepted q) (q_answered q).

Section Queue.
Context {C : MappingCodec} {G : GoRange}.

(** One step of a flush loop, between two points where it may be preempted. *)
Inductive loopStep (q : queue) : queue → Prop :=
| LoopTake l r q' batch : q_loops q = l ++ Waiting :: r → takeBatch q = (q', batch) → batch ≠ [] →
    loopStep q (setLoops q' (l ++ Flushing batch :: r))
| LoopReturn l r q' : q_loops q = l ++ Waiting :: r → takeBatch q = (q', []) →
    loopStep q (setLoops q' (l ++ r))
| LoopFlush l r batch env lim stale now clock st results :
    q_loops q = l ++ Flushing batch :: r →
    flushBatch env lim stale now clock (q_store q) batch = (st, results) →
    loopStep q (setLoops (flushed' q st) (l ++ Flushed (zip batch results) :: r))
| LoopCheck l r answers : q_loops q = l ++ Flushed answers :: r →
    let finished := bool_decide (q_pending q = []) in
    loopStep q (setLoops (if finished then setFlushing q false else q) (l ++ Delivering answers finished :: r))
| LoopAnswer l r a answers finished : q_loops q = l ++ Delivering (a :: answers) finished :: r →
    loopStep q (setLoops (answer q a) (l ++ Delivering answers finished :: r))
| LoopAgain l r : q_loops q = l ++ Delivering [] false :: r → loopStep q (setLoops q (l ++ Waiting :: r))
| LoopEnd l r : q_loops q = l ++ Delivering [] true :: r → loopStep q (setLoops q (l ++ r)).

(** A step of the system: a writer enqueues, or a loop moves.  A file has less
    than [2^63] bytes. *)
Inductive queueStep (q : queue) : queue → Prop :=
| WriterEnqueue w : pw_compressedSize w < 2 ^ 63 → queueStep q (enqueueWrite q w).1
| LoopMove q' : loopStep q q' → queueStep q q'.

Definition emptyQueue (st : store) : queue :=
  Queue st [] 0 false [] (QueueStats 0 0 0 0 0 0 0) [] [].

Inductive queueRun (st : store) : queue → Prop :=
| QueueStart : queueRun st (emptyQueue st)
| QueueNext q q' : queueRun st q → queueStep q q' → queueRun st q'.

(** ** The invariant *)

(** The loop that holds the [flushing] flag. *)
Definition owns (l : loopPhase) : bool :=
  match l with Delivering _ true => false | _ => true end.

(** The writes a loop has taken and not yet answered. *)
Definition inLoop (l : loopPhase) : list pendingWrite :=
  match l with
  | Waiting => []
  | Flushing batch => batch
  | Flushed answers | Delivering answers _ => answers.*1
  end.

(** A loop that goes on to take a batch finds one. *)
Definition loopOk (pending : list pendingWrite) (l : loopPhase) : Prop :=
  match l with
  | Waiting | Delivering _ false => pending ≠ []
  | Flushing batch => batch ≠ [] ∧ (length batch ≤ writeBatchMaxObjects)%nat
      ∧ (writeBytes batch ≤ writeBatchMaxBytes ∨ length batch = 1%nat)
  | _ => True
  end.

Record queueOk (q : queue) : Prop := {
  qo_bytes : q_pendingBytes q = writeBytes (q_pending q);
  qo_maxBytes : q_pendingBytes q ≤ writeQueueMaxBytes;
  qo_maxObjects : (length (q_pending q) ≤ writeQueueMaxObjects)%nat;
  qo_owner : length (filter (λ l, owns l = true) (q_loops q)) = if q_flushing q then 1%nat else 0%nat;
  qo_loops : Forall (loopOk (q_pending q)) (q_loops q);
  qo_idle : q_flushing q = false → q_pending q = [];
  qo_writes : q_accepted q ≡ₚ (q_answered q).*1 ++ concat (map inLoop (q_loops q)) ++ q_pending q;
}.

Lemma writeBytes_app l k : writeBytes (l ++ k) = writeBytes l + writeBytes k.
Proof. induction l as [|w l IH]; simpl; [done|]. rewrite IH. lia. Qed.

(** [takeBatch] takes a non-empty prefix within the batch limits. *)
Lemma batchCount_spec pending : ∀ count bytes,
  (count ≤ writeBatchMaxObjects)%nat → bytes + writeBytes pending < 2 ^ 64 →
  (bytes ≤ writeBatchMaxBytes ∨ count = 1%nat ∨ count = 0%nat) → (count = 0%nat → bytes = 0) →
  ∃ n, batchCount count bytes pending = ((count + n)%nat, bytes + writeBytes (take n pending))
    ∧ (n ≤ length pending)%nat ∧ (count + n ≤ writeBatchMaxObjects)%nat
    ∧ (count = 0%nat → pending ≠ [] → (0 < n)%nat)
    ∧ (bytes + writeBytes (take n pending) ≤ writeBatchMaxBytes ∨ (count + n ≤ 1)%nat).
Proof.
  induction pending as [|w rest IH]; intros count bytes Hc Hb Hs Hz; cbn [batchCount].
  { exists 0%nat. simpl. rewrite Nat.add_0_r, N.add_0_r. split_and!; try done; try lia. }
  simpl in Hb. assert (u64 (bytes + pw_compressedSize w) = bytes + pw_compressedSize w) as Hu.
  { apply u64_small. lia. }
  destruct (writeBatchMaxObjects <=? count)%nat eqn:Hmax.
  { apply Nat.leb_le in Hmax. exists 0%nat. simpl. rewrite Nat.add_0_r, N.add_0_r.
    unfold writeBatchMaxObjects in *. split_and!; try done; try lia. }
  apply Nat.leb_gt in Hmax. rewrite Hu.
  destruct ((0 <? count)%nat && _) eqn:Hstop.
  { apply andb_true_iff in Hstop as [Hpos%Nat.ltb_lt _]. exists 0%nat. simpl. rewrite Nat.add_0_r, N.add_0_r.
    split_and!; try done; lia. }
  destruct (IH (S count) (bytes + pw_compressedSize w)) as (n & Hn & Hlen & Hobj & _ & Hby); try lia.
  exists (S n). rewrite Hn. cbn [take writeBytes foldr]. fold (writeBytes (take n rest)).
  split_and!; [f_equal; lia|simpl; lia|lia|lia|]. destruct Hby; [left; lia|right; lia].
Qed.

Lemma writeBytes_take n l : writeBytes (take n l) + writeBytes (drop n l) = writeBytes l.
Proof. rewrite <- writeBytes_app, take_drop. done. Qed.

Lemma takeBatch_spec q q' batch : queueOk q → q_pending q ≠ [] → takeBatch q = (q', batch) →
  batch ≠ [] ∧ q_pending q = batch ++ q_pending q' ∧ q_pendingBytes q' = writeBytes (q_pending q')
  ∧ loopOk [] (Flushing batch)
  ∧ q_flushing q' = q_flushing q ∧ q_accepted q' = q_accepted q ∧ q_answered q' = q_answered q
  ∧ q_store q' = q_store q.
Proof.
  intros [Hb Hmb _ _ _ _ _] Hne Ht. unfold takeBatch in Ht. destruct (q_pending q) as [|w rest] eqn:Hp; [done|].
  rewrite <- Hp in *. unfold writeQueueMaxBytes in Hmb.
  destruct (batchCount_spec (q_pending q) 0 0) as (n & Hn & Hlen & Hobj & Hpos & Hby);
    [lia|lia|by right; right|done|].
  rewrite Hn in Ht. simplify_eq/=. pose proof (writeBytes_take n (q_pending q)) as Hsum.
  specialize (Hpos eq_refl Hne).
  assert (length (take n (q_pending q)) = n) as Hl by (rewrite length_take; lia).
  split_and!; try done.
  - intros He. rewrite He in Hl. simpl in Hl. lia.
  - by rewrite take_drop.
  - rewrite Hb. unfold u64. rewrite <- Hsum.
    match goal with |- ?x `mod` _ = _ =>
      replace x with (writeBytes (drop n (q_pending q)) + 1 * 2 ^ 64) by lia end.
    rewrite N.Div0.mod_add. apply N.mod_small. lia.
  - intros He. rewrite He in Hl. simpl in Hl. lia.
  - rewrite Hl. lia.
  - rewrite Hl. destruct Hby as [|]; [left; lia|right; lia].
Qed.

(** Swapping one loop for another, when the rest stays. *)
Lemma owners_app l x r :
  length (filter (λ l, owns l = true) (l ++ x :: r))
  = (length (filter (λ l, owns l = true) (l ++ r)) + if owns x then 1 else 0)%nat.
Proof.
  rewrite !list.filter_app, filter_cons, !length_app. destruct (owns x); [rewrite decide_True by done|rewrite decide_False by done];
    simpl; lia.
Qed.

Lemma inLoop_app l x r :
  concat (map inLoop (l ++ x :: r)) ≡ₚ inLoop x ++ concat (map inLoop (l ++ r)).
Proof.
  rewrite !map_app, !concat_app. simpl. rewrite (Permutation_app_comm (concat (map inLoop l)) _), <- (assoc_L app).
  f_equiv. apply Permutation_app_comm.
Qed.

(** The owner's loop gives a batch the other loops do not depend on. *)
Lemma others_ok q l x r pending :
  queueOk q → q_loops q = l ++ x :: r → owns x = true →
  Forall (loopOk pending) (l ++ r).
Proof.
  intros [_ _ _ Hown Hok _ _] Hl Hx. rewrite Hl in Hown, Hok. rewrite owners_app, Hx in Hown.
  assert (filter (λ l, owns l = true) (l ++ r) = []) as Hnone.
  { destruct (filter _ (l ++ r)) eqn:He; [done|]. simpl in Hown. destruct (q_flushing q); lia. }
  rewrite list.Forall_forall in Hok |- *. intros y Hy.
  assert (owns y = false) as Hn.
  { destruct (owns y) eqn:Ho; [|done]. assert (y ∈ filter (λ l, owns l = true) (l ++ r)) as Hin
      by (apply list_elem_of_filter; done). rewrite Hnone in Hin. set_solver. }
  destruct y as [|?|?|? []]; done.
Qed.

Lemma loopOk_grow pending w x : loopOk pending x → loopOk (pending ++ [w]) x.
Proof.
  destruct x as [|b|a|a []]; simpl; try done; intros _ He; apply app_eq_nil in He as [_ ?]; done.
Qed.

Lemma enqueue_ok q w : queueOk q → pw_compressedSize w < 2 ^ 63 → queueOk (enqueueWrite q w).1.
Proof.
  intros Hq Hw. destruct Hq as [Hb Hmb Hmo Hown Hok Hidle Hwr]. unfold enqueueWrite.
  destruct (_ || _) eqn:Hfull; [by split|].
  apply orb_false_iff in Hfull as [Hlen%Nat.leb_gt Hbytes%N.ltb_ge].
  unfold writeQueueMaxBytes, writeQueueMaxObjects in *.
  rewrite u64_small in * by lia. split; simpl.
  - rewrite writeBytes_app, Hb. simpl. lia.
  - unfold writeQueueMaxBytes. lia.
  - rewrite length_app. simpl. unfold writeQueueMaxObjects. lia.
  - destruct (q_flushing q); [done|]. rewrite list.filter_app, length_app, Hown. done.
  - assert (Forall (loopOk (q_pending q ++ [w])) (q_loops q)) as Hg.
    { rewrite list.Forall_forall in Hok |- *. intros x Hx. apply loopOk_grow, Hok, Hx. }
    destruct (q_flushing q); [done|]. apply Forall_app. split; [done|]. repeat constructor.
    simpl. intros He. apply app_eq_nil in He as [_ ?]. done.
  - done.
  - rewrite Hwr. destruct (q_flushing q); rewrite ?map_app, ?concat_app; simpl; rewrite ?app_nil_r, !(assoc_L app); done.
Qed.

(** Replacing the loop [x] by [y], with the queue's other fields given. *)
Lemma step_owner q l x r : queueOk q → q_loops q = l ++ x :: r → owns x = true →
  q_flushing q = true ∧ length (filter (λ l, owns l = true) (l ++ r)) = 0%nat.
Proof.
  intros [_ _ _ Hown _ _ _] Hl Hx. rewrite Hl, owners_app, Hx in Hown. destruct (q_flushing q); [|lia]. split; [done|lia].
Qed.

Lemma flushBatch_length env lim stale now clock st batch st' results :
  flushBatch env lim stale now clock st batch = (st', results) → length results = length batch.
Proof.
  unfold flushBatch. cbv zeta. destruct (stageExpired _ _ _) as [p1 s1].
  assert (length (sizedWrites env batch) = length batch) as Hs by apply length_map.
  destruct (capacityAvailable _ _ _ _ _) as [b|e]; [|intros [= _ <-]; by rewrite length_map].
  destruct (stageWrites _ _ _ _ _ _ _ _) as [[p2 s2] rs] eqn:Hsw.
  assert (∀ batch i p s prot p' s' rs, stageWrites b stale clock i p s prot batch = (p', s', rs) →
    length rs = length batch) as Hlen.
  { clear. induction batch as [|w batch IH]; intros i p s prot p' s' rs Hw; cbn [stageWrites] in Hw; [by simplify_eq|].
    destruct (stageWrite _ _ _ _ _ _ _) as [[[p1 s1] prot1] r]. destruct (stageWrites _ _ _ _ _ _ _ _) as [[p2 s2] rs'] eqn:H.
    simplify_eq. simpl. f_equal. by eapply IH. }
  apply Hlen in Hsw. rewrite Hs in Hsw. destruct (bool_decide _); [by intros [= _ <-]|].
  destruct (installBatchFiles _ _ _) as [[[f i] ws] ie].
  destruct (match ie with Some e => Err e | None => commitBatch _ _ _ end); intros [= _ <-]; [done|by rewrite length_map].
Qed.

(** A loop without the flag does not matter to the others. *)
Lemma step_guest q l x r : queueOk q → q_loops q = l ++ x :: r → owns x = false →
  length (filter (λ l, owns l = true) (l ++ r)) = (if q_flushing q then 1%nat else 0%nat)
  ∧ Forall (loopOk (q_pending q)) (l ++ r).
Proof.
  intros [_ _ _ Hown Hok _ _] Hl Hx. rewrite Hl in Hown, Hok. rewrite owners_app, Hx in Hown.
  apply Forall_app in Hok as [H1 H2]. apply Forall_cons_1 in H2 as [_ H2].
  split; [lia|by apply Forall_app].
Qed.

Lemma Forall_swap (P : loopPhase → Prop) l y r : Forall P (l ++ r) → P y → Forall P (l ++ y :: r).
Proof. intros [H1 H2]%Forall_app Hy. apply Forall_app. split; [done|]. by apply Forall_cons. Qed.

(** Replacing the loop [x] by one with the same writes, the queue unchanged. *)
Lemma swap_ok q l x y r :
  queueOk q → q_loops q = l ++ x :: r → owns x = owns y → inLoop y = inLoop x → loopOk (q_pending q) y →
  queueOk (setLoops q (l ++ y :: r)).
Proof.
  intros Hq Hl Ho Hi Hy. pose proof Hq as [Hb Hmb Hmo Hown Hok Hidle Hwr]. split; simpl; try done.
  - rewrite Hl, owners_app in Hown. by rewrite owners_app, <- Ho.
  - rewrite Hl in Hok. apply Forall_app in Hok as [H1 H2]. apply Forall_cons_1 in H2 as [_ H2].
    apply Forall_swap; [by apply Forall_app|done].
  - by rewrite Hwr, Hl, !inLoop_app, Hi.
Qed.

Lemma take_ok q l r q' batch : queueOk q → q_loops q = l ++ Waiting :: r → takeBatch q = (q', batch) →
  batch ≠ [] ∧ queueOk (setLoops q' (l ++ Flushing batch :: r)).
Proof.
  intros Hq Hl Ht. pose proof Hq as [Hb Hmb Hmo Hown Hok Hidle Hwr].
  assert (q_pending q ≠ []) as Hp.
  { rewrite Hl in Hok. apply Forall_app in Hok as [_ H2]. by apply Forall_cons_1 in H2 as [H2 _]. }
  destruct (takeBatch_spec q q' batch Hq Hp Ht) as (Hne & Heq & Hb' & Hbk & Hfl & Ha & Hans & _).
  split; [done|]. destruct (step_owner q l Waiting r Hq Hl eq_refl) as [Hflush Hnone].
  pose proof (f_equal writeBytes Heq) as Hsum. rewrite writeBytes_app in Hsum.
  pose proof (f_equal length Heq) as Hlen. rewrite length_app in Hlen.
  split; simpl; [done|lia|lia| | | |].
  - by rewrite owners_app, Hnone, Hfl, Hflush.
  - apply Forall_swap; [|done]. by apply (others_ok q l Waiting r _ Hq Hl).
  - by rewrite Hfl, Hflush.
  - rewrite Ha, Hans, Hwr, Hl, !inLoop_app, Heq. simpl. solve_Permutation.
Qed.

Lemma flush_ok q l r batch st results : queueOk q → q_loops q = l ++ Flushing batch :: r →
  length results = length batch → queueOk (setLoops (flushed' q st) (l ++ Flushed (zip batch results) :: r)).
Proof.
  intros Hq Hl Hlen. pose proof (swap_ok q l (Flushing batch) (Flushed (zip batch results)) r Hq Hl) as H.
  specialize (H eq_refl ltac:(simpl; by rewrite fst_zip by lia) I). destruct H. by split.
Qed.

Lemma check_ok q l r answers : queueOk q → q_loops q = l ++ Flushed answers :: r →
  let finished := bool_decide (q_pending q = []) in
  queueOk (setLoops (if finished then setFlushing q false else q) (l ++ Delivering answers finished :: r)).
Proof.
  intros Hq Hl. cbv zeta. case_bool_decide as Hp; [|by apply (swap_ok q l (Flushed answers))].
  destruct (step_owner q l _ r Hq Hl eq_refl) as [Hflush Hnone]. pose proof Hq as [Hb Hmb Hmo Hown Hok Hidle Hwr].
  split; simpl; try done.
  - rewrite owners_app, Hnone. done.
  - apply Forall_swap; [|done]. by apply (others_ok q l _ r _ Hq Hl).
  - by rewrite Hwr, Hl, !inLoop_app.
Qed.

Lemma answer_ok q l r a answers finished : queueOk q → q_loops q = l ++ Delivering (a :: answers) finished :: r →
  queueOk (setLoops (answer q a) (l ++ Delivering answers finished :: r)).
Proof.
  intros [Hb Hmb Hmo Hown Hok Hidle Hwr] Hl. split; simpl; try done.
  - rewrite Hl, owners_app in Hown. by rewrite owners_app.
  - rewrite Hl in Hok. apply Forall_app in Hok as [H1 H2]. apply Forall_cons_1 in H2 as [Hx H2].
    apply Forall_swap; [by apply Forall_app|]. by destruct finished.
  - rewrite (fmap_app fst (q_answered q) [a]), Hwr, Hl, !inLoop_app. cbn [inLoop]. rewrite (fmap_cons fst a answers).
    change ([a].*1) with [a.1]. solve_Permutation.
Qed.

Lemma loop_ok q q' : queueOk q → loopStep q q' → queueOk q'.
Proof.
  intros Hq Hstep. destruct Hstep as [l r q' batch Hl Ht Hne|l r q' Hl Ht|l r batch env lim stale now clock st results Hl Hf
    |l r answers Hl|l r a answers fin Hl|l r Hl|l r Hl].
  - by eapply take_ok.
  - by destruct (take_ok q l r q' [] Hq Hl Ht) as [? _].
  - eapply flush_ok; [done|done|by eapply flushBatch_length].
  - by apply check_ok.
  - by apply answer_ok.
  - apply (swap_ok q l (Delivering [] false)); try done. pose proof (qo_loops _ Hq) as Hok. rewrite Hl in Hok.
    apply Forall_app in Hok as [_ H2]. by apply Forall_cons_1 in H2 as [H2 _].
  - destruct (step_guest q l _ r Hq Hl eq_refl) as [Hown Hok]. pose proof Hq as [? ? ? _ _ ? Hwr].
    split; simpl; try done. by rewrite Hwr, Hl, inLoop_app.
Qed.

Lemma run_queue_ok st q : queueRun st q → queueOk q.
Proof.
  induction 1 as [|q q' _ IH Hstep]; [split; simpl; try done; unfold writeQueueMaxBytes, writeQueueMaxObjects; lia|].
  destruct Hstep; [by apply enqueue_ok|by eapply loop_ok].
Qed.

(** ** Progress *)

(** How far the loops are from having answered everything. *)
Definition loopWork (l : loopPhase) : nat :=
  match l with
  | Waiting => 1
  | Flushing batch => 4 + length batch
  | Flushed answers => 3 + length answers
  | Delivering answers _ => 2 + length answers
  end.
Definition queueWork (q : queue) : nat :=
  8 * length (q_pending q) + list_sum (map loopWork (q_loops q)).

Lemma loopWork_app l x r : list_sum (map loopWork (l ++ x :: r)) = (list_sum (map loopWork (l ++ r)) + loopWork x)%nat.
Proof. rewrite !map_app, !list_sum_app. simpl. lia. Qed.

Lemma work_decreases q q' : queueOk q → loopStep q q' → (queueWork q' < queueWork q)%nat.
Proof.
  intros Hq Hstep. unfold queueWork.
  destruct Hstep as [l r q' batch Hl Ht Hne|l r q' Hl Ht|l r batch env lim stale now clock st results Hl Hf
    |l r answers Hl|l r a answers fin Hl|l r Hl|l r Hl]; simpl; rewrite Hl, ?loopWork_app; simpl.
  - assert (q_pending q ≠ []) as Hp.
    { intros He. unfold takeBatch in Ht. rewrite He in Ht. by simplify_eq. }
    destruct (takeBatch_spec q q' batch Hq Hp Ht) as (_ & Heq & _). apply (f_equal length) in Heq.
    rewrite length_app in Heq. destruct batch; [done|]. simpl in *. lia.
  - destruct (take_ok q l r q' [] Hq Hl Ht) as [? _]. done.
  - apply flushBatch_length in Hf. rewrite length_zip. lia.
  - destruct finished; simpl; lia.
  - lia.
  - lia.
  - lia.
Qed.

(** A system call environment in which every call succeeds. *)
Definition calmEnv : flushEnv := FlushEnv (Ok (UsageStatOf 0 0)) (λ _, None) (λ _, true) (λ _, None) (λ _, None) None None.

Lemma loop_progress q : queueOk q → q_loops q ≠ [] → ∃ q', loopStep q q'.
Proof.
  intros Hq Hne. destruct (q_loops q) as [|x r] eqn:Hl; [done|].
  pose proof Hl as Hl'. change (x :: r) with ([] ++ x :: r) in Hl'.
  destruct x as [|batch|answers|[|a answers] [|]].
  - destruct (takeBatch q) as [q' [|w batch]] eqn:Ht; eexists; [by eapply LoopReturn|by eapply LoopTake].
  - destruct (flushBatch calmEnv (Limits true 0 90) 0 0 (λ _, 0%Z) (q_store q) batch) as [st results] eqn:Hf.
    eexists. by eapply LoopFlush.
  - eexists. by eapply LoopCheck.
  - eexists. by eapply LoopEnd.
  - eexists. by eapply LoopAgain.
  - eexists. by eapply LoopAnswer.
  - eexists. by eapply LoopAnswer.
Qed.

(** C35. The write queue is bounded and loses nothing.  In every reachable state of
    the concurrent queue: at most 256 writes and 256 MiB are pending and the
    byte counter is their exact sum; at most one loop holds the flushing flag;
    a loop about to take a batch finds one, so [takeBatch] never comes back
    empty-handed; every batch has 1 to 64 writes and at most 64 MiB unless it
    is a single write; and every accepted write is exactly once among those
    answered, those a loop is working on, and those pending. *)
Theorem write_queue_safe st q :
  queueRun st q →
  (length (q_pending q) ≤ 256)%nat ∧ q_pendingBytes q = writeBytes (q_pending q) ∧ q_pendingBytes q ≤ 268435456
  ∧ (length (filter (λ l, owns l = true) (q_loops q)) ≤ 1)%nat
  ∧ (Waiting ∈ q_loops q → (takeBatch q).2 ≠ [])
  ∧ (∀ batch, Flushing batch ∈ q_loops q → (1 ≤ length batch ≤ 64)%nat
      ∧ (writeBytes batch ≤ 67108864 ∨ length batch = 1%nat))
  ∧ q_accepted q ≡ₚ (q_answered q).*1 ++ concat (map inLoop (q_loops q)) ++ q_pending q.
Proof.
  intros Hq%run_queue_ok. pose proof Hq as [Hb Hmb Hmo Hown Hok Hidle Hwr]. rewrite list.Forall_forall in Hok.
  split_and!; try done.
  - rewrite Hown. destruct (q_flushing q); lia.
  - intros Hin. destruct (list_elem_of_split _ _ Hin) as (l & r & Hl).
    destruct (takeBatch q) as [q' batch] eqn:Ht. by destruct (take_ok q l r q' batch Hq Hl Ht).
  - intros batch (Hne & Hlen & Hby)%Hok. split; [|done]. unfold writeBatchMaxObjects in Hlen.
    destruct batch; [done|]. simpl in *. lia.
Qed.

(** Draining waits for every write.  [drain] returns when the flushing flag is
    down; then no write is pending and none is inside [flushBatch], so every
    accepted write has gone through a flush. *)
Theorem drain_complete st q :
  queueRun st q → q_flushing q = false →
  q_pending q = [] ∧ (∀ l, l ∈ q_loops q → ∃ answers, l = Delivering answers true)
  ∧ q_accepted q ≡ₚ (q_answered q).*1 ++ concat (map inLoop (q_loops q)).
Proof.
  intros Hq%run_queue_ok Hf. pose proof Hq as [Hb Hmb Hmo Hown Hok Hidle Hwr]. specialize (Hidle Hf).
  split; [done|]. split; [|by rewrite Hwr, Hidle, app_nil_r].
  intros l Hl. rewrite Hf in Hown. apply length_zero_iff_nil in Hown.
  destruct (owns l) eqn:Ho; [|destruct l as [| | |answers []]; try done; by exists answers].
  assert (l ∈ filter (λ l, owns l = true) (q_loops q)) as Hin by (by apply list_elem_of_filter).
  rewrite Hown in Hin. set_solver.
Qed.

(** C36. Every accepted write is answered.  While some accepted write has no answer,
    a loop can move; every move of a loop decreases a natural number; and when
    no loop is left, the answered writes are exactly the accepted ones. *)
Theorem writers_answered st q :
  queueRun st q →
  (∀ q', loopStep q q' → (queueWork q' < queueWork q)%nat)
  ∧ ((∃ q', loopStep q q') ∨ q_loops q = [] ∧ q_pending q = [] ∧ q_accepted q ≡ₚ (q_answered q).*1).
Proof.
  intros Hq%run_queue_ok. split; [intros q'; by apply work_decreases|].
  destruct (decide (q_loops q = [])) as [He|He]; [right|left; by apply loop_progress].
  pose proof Hq as [Hb Hmb Hmo Hown Hok Hidle Hwr]. rewrite He in Hown. simpl in Hown.
  assert (q_pending q = []) as Hp by (apply Hidle; by destruct (q_flushing q)).
  split_and!; [done|done|]. by rewrite Hwr, He, Hp, app_nil_r.
Qed.
End Queue.

(** ** A concrete run *)

Module QueueDemo.
Import TextCodec.

Definition demoStore0 : store :=
  Store (Provider ∅ ∅ ∅ ∅ [] [] (Some (IndexDB ∅ ∅ 0)) ∅ ∅ 0 0 0 0 0 0 0) ∅ (Counters 0 0 0 0 0 0 0).
Definition queuedWrite : pendingWrite :=
  PendingWrite "p" "v" "/t/v" "/c/v" 10 4096 30 "sum" 1 [] ∅ "" 100 "p".

(** One write enqueued, taken, flushed, and about to be answered. *)
Definition queued : queue := (enqueueWrite (emptyQueue demoStore0) queuedWrite).1.
Definition taken : queue := setLoops (takeBatch queued).1 [Flushing [queuedWrite]].
Definition flushRun : store * list (option storeError) :=
  flushBatch calmEnv (Limits true 0 90) 50 1000 (λ _, 1000%Z) demoStore0 [queuedWrite].
Definition flushedQueue : queue :=
  setLoops (flushed' taken flushRun.1) [Flushed (zip [queuedWrite] flushRun.2)].
Definition drained : queue :=
  setLoops (setFlushing flushedQueue false) [Delivering (zip [queuedWrite] flushRun.2) true].

Lemma queued_run : queueRun demoStore0 queued.
Proof.
  eapply QueueNext; [apply QueueStart|]. apply (WriterEnqueue (emptyQueue demoStore0) queuedWrite). simpl. lia.
Qed.

Lemma drained_run : queueRun demoStore0 drained.
Proof.
  eapply QueueNext; [eapply QueueNext; [eapply QueueNext; [apply queued_run|]|]|].
  - apply LoopMove. apply (LoopTake queued [] [] (takeBatch queued).1 [queuedWrite]); done.
  - apply LoopMove. apply (LoopFlush taken [] [] [queuedWrite] calmEnv (Limits true 0 90) 50 1000 (λ _, 1000%Z)
      flushRun.1 flushRun.2); [done|apply surjective_pairing].
  - apply LoopMove. apply (LoopCheck flushedQueue [] [] (zip [queuedWrite] flushRun.2)). done.
Qed.

Lemma write_queue_safe_witness :
  Waiting ∈ q_loops queued ∧ (takeBatch queued).2 ≠ [].
Proof.
  assert (Waiting ∈ q_loops queued) as Hin by (apply list_elem_of_here).
  split; [exact Hin|]. destruct (write_queue_safe demoStore0 queued queued_run) as (_ & _ & _ & _ & H & _).
  exact (H Hin).
Defined.

Lemma drain_complete_witness : q_pending drained = [] ∧ q_accepted drained = [queuedWrite].
Proof.
  destruct (drain_complete demoStore0 drained drained_run eq_refl) as (H & _). split; [exact H|reflexivity].
Defined.

Lemma writers_answered_witness : ∃ q', loopStep queued q' ∧ (queueWork q' < queueWork queued)%nat.
Proof.
  destruct (writers_answered demoStore0 queued queued_run) as [Hd [[q' Hq']|(He & _)]].
  - exists q'. split; [exact Hq'|exact (Hd q' Hq')].
  - discriminate He.
Defined.

End QueueDemo.
