(* ===== verification/Access.v ===== *)
(** * Authorization ([internal/rbac], [internal/clusteraccess])

    The role matrix, scoped subjects, and the resolution of a request's
    principal (an API key or a user) to a decision for one cluster or for the
    platform.  The database is a record of the tables the queries read, with
    the error each query may return; [cluster_members] has the primary key
    (cluster, user), so it is a map. *)
From Stdlib Require Import ZArith Lia Ascii String.
From stdpp Require Import base numbers list strings gmap sets option sorting.
From S2P Require Import Prelude.

(** ** Permissions and roles *)

Abbreviation Permission := string.
Abbreviation Role := string.

Definition PermissionClusterRead : Permission := "cluster.read".
Definition PermissionSiteWrite : Permission := "site.write".
Definition PermissionSiteDelete : Permission := "site.delete".
Definition PermissionPublish : Permission := "site.publish".
Definition PermissionCacheOperate : Permission := "cache.operate".
Definition PermissionNodeManage : Permission := "node.manage".
Definition PermissionNodeDelete : Permission := "node.delete".
Definition PermissionCredentialManage : Permission := "credential.manage".
Definition PermissionCertificateManage : Permission := "certificate.manage".
Definition PermissionCertificateDelete : Permission := "certificate.delete".
Definition PermissionMemberManage : Permission := "cluster.member.manage".
Definition PermissionClusterTransfer : Permission := "cluster.transfer".
Definition PermissionNotificationManage : Permission := "cluster.notification.manage".
Definition PermissionLogpushManage : Permission := "cluster.logpush.manage".
Definition PermissionAPIKeyManage : Permission := "cluster.apikey.manage".
Definition PermissionAlertManage : Permission := "cluster.alert.manage".
Definition PermissionPlatformUserManage : Permission := "platform.user.manage".
Definition PermissionPlatformClusterRead : Permission := "platform.cluster.read".
Definition PermissionPlatformSettingsManage : Permission := "platform.settings.manage".
Definition PermissionPlatformAuditRead : Permission := "platform.audit.read".
Definition PermissionPlatformPolicyManage : Permission := "platform.policy.manage".

Definition RoleViewer : Role := "VIEWER".
Definition RoleOperator : Role := "OPERATOR".
Definition RoleOwner : Role := "OWNER".
Definition RoleAdmin : Role := "ADMIN".

Definition permissionSet (permissions : list Permission) : gset Permission :=
  foldl (λ result permission, {[permission]} ∪ result) ∅ permissions.

Definition rolePermissions : gmap Role (gset Permission) :=
  list_to_map [
    (RoleViewer, permissionSet [PermissionClusterRead]);
    (RoleOperator, permissionSet [PermissionClusterRead; PermissionSiteWrite; PermissionPublish;
       PermissionCacheOperate; PermissionAlertManage]);
    (RoleOwner, permissionSet [PermissionClusterRead; PermissionSiteWrite; PermissionSiteDelete;
       PermissionPublish; PermissionCacheOperate; PermissionNodeManage; PermissionNodeDelete;
       PermissionCredentialManage; PermissionCertificateManage; PermissionCertificateDelete;
       PermissionMemberManage; PermissionClusterTransfer; PermissionNotificationManage;
       PermissionLogpushManage; PermissionAPIKeyManage; PermissionAlertManage]);
    (RoleAdmin, permissionSet [PermissionClusterRead; PermissionSiteWrite; PermissionSiteDelete;
       PermissionPublish; PermissionCacheOperate; PermissionNodeManage; PermissionNodeDelete;
       PermissionCredentialManage; PermissionCertificateManage; PermissionCertificateDelete;
       PermissionMemberManage; PermissionClusterTransfer; PermissionNotificationManage;
       PermissionLogpushManage; PermissionAPIKeyManage; PermissionAlertManage;
       PermissionPlatformUserManage; PermissionPlatformClusterRead; PermissionPlatformSettingsManage;
       PermissionPlatformAuditRead; PermissionPlatformPolicyManage])].

(** [Allows]: a role that is not in the matrix grants nothing. *)
Definition Allows (role : Role) (permission : Permission) : bool :=
  bool_decide (permission ∈ default ∅ (rolePermissions !! role)).

(** [Subject]; [None] is the nil permission scope. *)
Record Subject := { sub_Role : Role; sub_permissions : option (gset Permission) }.

Definition SubjectForRole (role : Role) : Subject := {| sub_Role := role; sub_permissions := None |}.
Definition ScopedSubject (role : Role) (permissions : list Permission) : Subject :=
  {| sub_Role := role; sub_permissions := Some (permissionSet permissions) |}.

Definition subjectAllows (subject : Subject) (permission : Permission) : bool :=
  if negb (Allows (sub_Role subject) permission) then false
  else match sub_permissions subject with
       | None => true
       | Some permissions => bool_decide (permission ∈ permissions)
       end.

Definition keyGrantablePermissions : list Permission :=
  [PermissionClusterRead; PermissionSiteWrite; PermissionSiteDelete; PermissionPublish; PermissionCacheOperate].

Definition KeyPermissionAllowed (permission : Permission) : bool :=
  existsb (λ candidate, bool_decide (candidate = permission)) keyGrantablePermissions.

Definition roleRank : gmap Role nat :=
  list_to_map [(RoleViewer, 1); (RoleOperator, 2); (RoleOwner, 3); (RoleAdmin, 4)].

Definition Highest (first second : Role) : Role :=
  if (default 0 (roleRank !! first) <? default 0 (roleRank !! second)) then second else first.

(** ** The request and the database *)

Inductive UserRole := UserADMIN | UserOPERATOR | UserVIEWER.
Definition userRoleText (r : UserRole) : Role :=
  match r with UserADMIN => RoleAdmin | UserOPERATOR => RoleOperator | UserVIEWER => RoleViewer end.
(** The Go type is a string: a value that is none of the three is possible. *)
Inductive ClusterPermission := ClusterOWNER | ClusterOPERATOR | ClusterVIEWER | ClusterOther (value : string).

#[export] Instance UserRole_eq_dec : EqDecision UserRole.
Proof. solve_decision. Defined.

Record User := { us_Id : string; us_Role : UserRole; us_Active : bool }.
Record Cluster := { cl_Name : string; cl_CreatorId : string; cl_CreatedAt : Z }.

Record APIKeyPrincipal := { ak_ClusterID : string; ak_Permissions : list Permission }.

(** What the middleware left in the request's context. *)
Record requestContext := { rc_apiKey : option APIKeyPrincipal; rc_user : option User }.

Inductive dbError := DBError (code : nat).

Record database := {
  db_users : gmap string User;
  db_clusters : gmap string Cluster;
  db_members : gmap (string * string) ClusterPermission;
  db_userError : option dbError;        (* of each query, when it fails *)
  db_clusterError : option dbError;
  db_memberError : option dbError;
}.

Definition failing {A} (e : option dbError) (a : A) : result dbError A :=
  match e with Some e => Err e | None => Ok a end.

(** [auth.CurrentUser]. *)
Definition CurrentUser (ctx : requestContext) (uid : string) : option User :=
  match rc_user ctx with
  | Some user => if bool_decide (us_Id user = uid) then Some user else None
  | None => None
  end.

(** The user of the request: cached, or read from the database. *)
Definition requestUser (ctx : requestContext) (db : database) (uid : string) : result dbError (option User) :=
  match CurrentUser ctx uid with
  | Some user => Ok (Some user)
  | None => failing (db_userError db) (db_users db !! uid)
  end.

(** ** Decisions *)

(** [None] where the code's second result is [false]. *)
Definition membershipRole (permission : ClusterPermission) : option Role :=
  match permission with
  | ClusterOWNER => Some RoleOwner
  | ClusterOPERATOR => Some RoleOperator
  | ClusterVIEWER => Some RoleViewer
  | ClusterOther _ => None
  end.

Definition AuthorizeAPIKey (principal : APIKeyPrincipal) (clusterID : string) (permission : Permission)
    : bool * Role :=
  if bool_decide (clusterID = "") || negb (bool_decide (clusterID = ak_ClusterID principal)) then (false, "")
  else (subjectAllows (ScopedSubject RoleOwner (ak_Permissions principal)) permission, "").

Definition Authorize (ctx : requestContext) (db : database) (clusterID uid : string) (permission : Permission)
    : result dbError (bool * Role) :=
  match rc_apiKey ctx with
  | Some principal => Ok (AuthorizeAPIKey principal clusterID permission)
  | None =>
      if bool_decide (clusterID = "") || bool_decide (uid = "") then Ok (false, "")
      else
        user ← requestUser ctx db uid;
        match user with
        | None => Ok (false, "")
        | Some user =>
            if negb (us_Active user) then Ok (false, "")
            else
              cluster ← failing (db_clusterError db) (db_clusters db !! clusterID);
              match cluster with
              | None => Ok (false, "")
              | Some cluster =>
                  if bool_decide (us_Role user = UserADMIN) then
                    Ok (subjectAllows (SubjectForRole RoleAdmin) permission, RoleAdmin)
                  else if bool_decide (cl_CreatorId cluster = uid) then
                    Ok (subjectAllows (SubjectForRole RoleOwner) permission, RoleOwner)
                  else
                    member ← failing (db_memberError db) (db_members db !! (clusterID, uid));
                    match member with
                    | None => Ok (false, "")
                    | Some member =>
                        match membershipRole member with
                        | None => Ok (false, "")
                        | Some role =>
                            let role := Highest role (userRoleText (us_Role user)) in
                            Ok (subjectAllows (SubjectForRole role) permission, role)
                        end
                    end
              end
        end
  end.

(** [Check]: the legacy access tuple. *)
Definition Check' (ctx : requestContext) (db : database) (clusterID uid : string) : result dbError (bool * bool) :=
  '(allowed, role) ← Authorize ctx db clusterID uid PermissionClusterRead;
  Ok (allowed, bool_decide (role = RoleOwner) || bool_decide (role = RoleAdmin)).

Definition AuthorizePlatform (ctx : requestContext) (db : database) (uid : string) (permission : Permission)
    : result dbError bool :=
  match rc_apiKey ctx with
  | Some _ => Ok false
  | None =>
      if bool_decide (uid = "") then Ok false
      else
        user ← requestUser ctx db uid;
        match user with
        | None => Ok false
        | Some user =>
            if negb (us_Active user) then Ok false
            else Ok (Allows (userRoleText (us_Role user)) permission)
        end
  end.

Record AuthorizedCluster := { ac_ID : string; ac_Name : string; ac_Role : Role; ac_CreatedAt : Z }.

(** The rows of a query on [clusters], [ORDER BY created_at, name]. *)
Definition rowLe (x y : string * Cluster) : Prop :=
  (cl_CreatedAt x.2 < cl_CreatedAt y.2)%Z
  ∨ cl_CreatedAt x.2 = cl_CreatedAt y.2 ∧ String.leb (cl_Name x.2) (cl_Name y.2) = true.
#[export] Instance rowLe_dec x y : Decision (rowLe x y).
Proof. unfold rowLe. apply _. Defined.

Definition orderedClusters (db : database) : list (string * Cluster) :=
  merge_sort rowLe (map_to_list (db_clusters db)).

(** The role column of the two queries: the administrator sees every cluster;
    anyone else those they created or belong to. *)
Definition visibleRole (db : database) (uid : string) (row : string * Cluster) : option ClusterPermission :=
  if bool_decide (cl_CreatorId row.2 = uid) then Some ClusterOWNER else db_members db !! (row.1, uid).

Definition listCandidate (user : User) (db : database) (uid : string) (permission : Permission)
    (row : string * Cluster) : option AuthorizedCluster :=
  let role :=
    if bool_decide (us_Role user = UserADMIN) then Some RoleAdmin
    else match visibleRole db uid row with
         | Some p => (λ role, Highest role (userRoleText (us_Role user))) <$> membershipRole p
         | None => None
         end in
  match role with
  | Some role =>
      if subjectAllows (SubjectForRole role) permission
      then Some {| ac_ID := row.1; ac_Name := cl_Name row.2; ac_Role := role; ac_CreatedAt := cl_CreatedAt row.2 |}
      else None
  | None => None
  end.

Definition ListAuthorizedClusters (ctx : requestContext) (db : database) (uid : string) (permission : Permission)
    : result dbError (list AuthorizedCluster) :=
  match rc_apiKey ctx with
  | Some principal =>
      let '(allowed, _) := AuthorizeAPIKey principal (ak_ClusterID principal) permission in
      if negb allowed then Ok []
      else
        cluster ← failing (db_clusterError db) (db_clusters db !! ak_ClusterID principal);
        match cluster with
        | None => Ok []
        | Some c => Ok [{| ac_ID := ak_ClusterID principal; ac_Name := cl_Name c; ac_Role := "API_KEY";
                           ac_CreatedAt := cl_CreatedAt c |}]
        end
  | None =>
      if bool_decide (uid = "") then Ok []
      else
        user ← requestUser ctx db uid;
        match user with
        | None => Ok []
        | Some user =>
            if negb (us_Active user) then Ok []
            else
              rows ← failing (db_clusterError db) (orderedClusters db);
              Ok (omap (listCandidate user db uid permission) (rows : list (string * Cluster)))
        end
  end.

(** ** The matrix *)

(** Finite checks over the matrix, by evaluation. *)
Ltac by_matrix := apply (bool_decide_unpack _); vm_compute; exact I.

Lemma Allows_spec role permission : Allows role permission = true ↔ permission ∈ default ∅ (rolePermissions !! role).
Proof. unfold Allows. by rewrite bool_decide_eq_true. Qed.

(** The roles form a chain: a higher rank grants all a lower one does. *)
Lemma rank_grants : ∀ r s, r ∈ [RoleViewer; RoleOperator; RoleOwner; RoleAdmin] →
  s ∈ [RoleViewer; RoleOperator; RoleOwner; RoleAdmin] →
  default 0 (roleRank !! r) ≤ default 0 (roleRank !! s) →
  default ∅ (rolePermissions !! r) ⊆ default ∅ (rolePermissions !! s).
Proof.
  assert (Forall (λ r, Forall (λ s, default 0 (roleRank !! r) ≤ default 0 (roleRank !! s) →
    default ∅ (rolePermissions !! r) ⊆ default ∅ (rolePermissions !! s))
    [RoleViewer; RoleOperator; RoleOwner; RoleAdmin]) [RoleViewer; RoleOperator; RoleOwner; RoleAdmin]) as H by by_matrix.
  intros r s Hr Hs. rewrite list.Forall_forall in H. specialize (H r Hr). rewrite list.Forall_forall in H. auto.
Qed.

Lemma platform_denied permission :
  permission ∈ [PermissionPlatformUserManage; PermissionPlatformClusterRead; PermissionPlatformSettingsManage;
                PermissionPlatformAuditRead; PermissionPlatformPolicyManage] →
  Allows RoleViewer permission = false ∧ Allows RoleOperator permission = false ∧ Allows RoleOwner permission = false.
Proof.
  assert (Forall (λ p, Allows RoleViewer p = false ∧ Allows RoleOperator p = false ∧ Allows RoleOwner p = false)
    [PermissionPlatformUserManage; PermissionPlatformClusterRead; PermissionPlatformSettingsManage;
     PermissionPlatformAuditRead; PermissionPlatformPolicyManage]) as H by by_matrix.
  rewrite list.Forall_forall in H. apply H.
Qed.

Lemma highest_owner r : r ≠ UserADMIN → Highest RoleOwner (userRoleText r) = RoleOwner.
Proof. by destruct r. Qed.

(** From here on the matrix is only used through these lemmas. *)
#[local] Opaque rolePermissions roleRank Allows.

(** Combining two roles is exact.  For the roles of the matrix, [Highest] is one
    of its arguments and grants a permission exactly when one of the two does;
    it is idempotent and does not depend on the order as far as permissions
    go. *)
Theorem highest_grants_union r s permission :
  r ∈ [RoleViewer; RoleOperator; RoleOwner; RoleAdmin] → s ∈ [RoleViewer; RoleOperator; RoleOwner; RoleAdmin] →
  (Highest r s = r ∨ Highest r s = s)
  ∧ Allows (Highest r s) permission = (Allows r permission || Allows s permission).
Proof.
  intros Hr Hs. unfold Highest. destruct (_ <? _) eqn:Hlt.
  - apply Nat.ltb_lt in Hlt. split; [by right|]. symmetry. apply eq_true_iff_eq. rewrite orb_true_iff, !Allows_spec.
    pose proof (rank_grants r s Hr Hs ltac:(lia)) as Hsub. split; [intros [H|H]; [by apply Hsub|done]|by right].
  - apply Nat.ltb_ge in Hlt. split; [by left|]. symmetry. apply eq_true_iff_eq. rewrite orb_true_iff, !Allows_spec.
    pose proof (rank_grants s r Hs Hr ltac:(lia)) as Hsub. split; [intros [H|H]; [done|by apply Hsub]|by left].
Qed.

Lemma permissionSet_elem p ps : p ∈ permissionSet ps ↔ p ∈ ps.
Proof.
  unfold permissionSet. assert (∀ acc : gset Permission, p ∈ foldl (λ result permission, {[permission]} ∪ result) acc ps
    ↔ p ∈ acc ∨ p ∈ ps) as H; [|rewrite H; set_solver].
  induction ps as [|q ps IH]; intros acc; cbn [foldl]; [set_solver|]. rewrite IH. set_solver.
Qed.

Lemma subjectAllows_scoped role ps p : subjectAllows (ScopedSubject role ps) p = true ↔ Allows role p = true ∧ p ∈ ps.
Proof.
  unfold subjectAllows, ScopedSubject. simpl. destruct (Allows role p); simpl; [|by split; [|intros [? _]]].
  rewrite bool_decide_eq_true, permissionSet_elem. split; [by split|by intros [_ ?]].
Qed.

Lemma subjectAllows_role role p : subjectAllows (SubjectForRole role) p = Allows role p.
Proof. unfold subjectAllows. simpl. by destruct (Allows role p). Qed.

(** ** The theorems *)

Lemma key_inv principal clusterID permission role :
  AuthorizeAPIKey principal clusterID permission = (true, role) →
  clusterID = ak_ClusterID principal ∧ permission ∈ ak_Permissions principal
  ∧ Allows RoleOwner permission = true ∧ role = "".
Proof.
  unfold AuthorizeAPIKey. destruct (_ || _) eqn:Hb.
  { intros [Hf _]%pair_eq. clear - Hf. discriminate. }
  intros [[Ha Hp]%subjectAllows_scoped Hr]%pair_eq. apply orb_false_iff in Hb as [_ Hb].
  apply negb_false_iff, bool_decide_eq_true in Hb. split_and!; [exact Hb|exact Hp|exact Ha|symmetry; exact Hr].
Qed.

(** The ways a user is allowed a permission on a cluster, for any matrix. *)
Lemma authorize_inv ctx db clusterID uid permission role :
  rc_apiKey ctx = None → Authorize ctx db clusterID uid permission = Ok (true, role) →
  ∃ user, requestUser ctx db uid = Ok (Some user) ∧ us_Active user = true ∧ Allows role permission = true
    ∧ (us_Role user = UserADMIN ∨ role = RoleOwner
       ∨ ∃ member role0, membershipRole member = Some role0 ∧ role = Highest role0 (userRoleText (us_Role user))).
Proof.
  intros Hk. unfold Authorize. rewrite Hk. cbv [subjectAllows SubjectForRole sub_Role sub_permissions].
  generalize Allows. intros A H.
  assert (∀ r, (if negb (A r permission) then false else true) = A r permission) as HA by (intros r; by destruct (A r permission)).
  destruct (_ || _); [done|]. destruct (requestUser ctx db uid) as [[user|]|]; simpl in H; try done.
  exists user. split; [done|]. destruct (us_Active user); [|done]. split; [done|]. simpl in H.
  destruct (failing (db_clusterError db) _) as [[cluster|]|]; simpl in H; try done. rewrite !HA in H.
  case_bool_decide as Hadm; [injection H as Hs <-; auto|]. case_bool_decide; [injection H as Hs <-; auto|].
  destruct (failing (db_memberError db) _) as [[member|]|]; simpl in H; try done.
  destruct (membershipRole member) as [role0|] eqn:Hm; [|done]. rewrite HA in H. injection H as Hs <-. eauto 8.
Qed.

(** C9. An API key is confined to its cluster and its grants.  A request that
    carries a key is never allowed anything on another cluster, nor anything
    the key was not granted, nor anything platform-wide, whatever user is in
    the session; and a key whose grants passed [KeyPermissionAllowed] cannot
    manage credentials, certificates, members, keys or nodes. *)
Theorem api_key_confined ctx db principal clusterID uid permission :
  rc_apiKey ctx = Some principal →
  (∀ role, Authorize ctx db clusterID uid permission = Ok (true, role) →
    clusterID = ak_ClusterID principal ∧ permission ∈ ak_Permissions principal
    ∧ Allows RoleOwner permission = true ∧ role = "")
  ∧ AuthorizePlatform ctx db uid permission = Ok false
  ∧ (Forall (λ p, KeyPermissionAllowed p = true) (ak_Permissions principal) →
      permission ∉ keyGrantablePermissions → ∀ role, Authorize ctx db clusterID uid permission ≠ Ok (true, role)).
Proof.
  intros Hk. unfold Authorize, AuthorizePlatform. rewrite Hk.
  assert (∀ role, Ok (AuthorizeAPIKey principal clusterID permission) = Ok (E := dbError) (true, role) →
    clusterID = ak_ClusterID principal ∧ permission ∈ ak_Permissions principal
    ∧ Allows RoleOwner permission = true ∧ role = "") as Hin.
  { intros role H%Ok_inj. by apply key_inv. }
  split; [exact Hin|]. split; [reflexivity|]. intros Hall Hn role Ha. apply Hin in Ha as (_ & Hp & _).
  rewrite list.Forall_forall in Hall. apply Hn. specialize (Hall permission Hp).
  apply existsb_exists in Hall as (c & Hc & He). apply bool_decide_eq_true in He as <-. by apply list_elem_of_In.
Qed.

(** The platform is for administrators.  A platform-wide permission is granted
    only to an active user with the administrator role and no API key in the
    request, and no cluster decision grants it to anyone else either. *)
Theorem platform_needs_admin ctx db clusterID uid permission :
  permission ∈ [PermissionPlatformUserManage; PermissionPlatformClusterRead; PermissionPlatformSettingsManage;
                PermissionPlatformAuditRead; PermissionPlatformPolicyManage] →
  (AuthorizePlatform ctx db uid permission = Ok true
   ∨ ∃ role, Authorize ctx db clusterID uid permission = Ok (true, role)) →
  rc_apiKey ctx = None
  ∧ ∃ user, requestUser ctx db uid = Ok (Some user) ∧ us_Active user = true ∧ us_Role user = UserADMIN.
Proof.
  intros Hp Hg.
  assert (Allows RoleViewer permission = false ∧ Allows RoleOperator permission = false
    ∧ Allows RoleOwner permission = false) as (Hv & Ho & Hw) by (by apply platform_denied).
  assert (∀ r, r ≠ UserADMIN → Allows (userRoleText r) permission = false) as Huser.
  { intros [] Hr; [by destruct Hr|exact Ho|exact Hv]. }
  assert (∀ m r, membershipRole m = Some r → Allows r permission = false) as Hmember.
  { intros [] r [= <-]; [exact Hw|exact Ho|exact Hv]. }
  destruct (rc_apiKey ctx) as [k|] eqn:Hk.
  { exfalso. destruct Hg as [Hg|[role Hg]].
    - unfold AuthorizePlatform in Hg. rewrite Hk in Hg. apply Ok_inj in Hg. clear - Hg. discriminate.
    - unfold Authorize in Hg. rewrite Hk in Hg. apply Ok_inj, key_inv in Hg as (_ & _ & Ha & _). congruence. }
  split; [reflexivity|]. revert Hw Hv Ho Huser Hmember Hg. generalize (authorize_inv ctx db clusterID uid permission).
  unfold AuthorizePlatform. rewrite Hk. generalize Allows. intros A Hinv Hw _ _ Huser Hmember [Hg|[role Hg]].
  - destruct (bool_decide (uid = "")); [done|]. destruct (requestUser ctx db uid) as [[user|]|]; simpl in Hg; try done.
    exists user. destruct (us_Active user) eqn:Ha; [|done]. simpl in Hg. injection Hg as Hg.
    split_and!; try done. destruct (decide (us_Role user = UserADMIN)) as [|Hne]; [done|].
    rewrite Huser in Hg by done. done.
  - destruct (Hinv role eq_refl Hg) as (user & Hu & Ha & Hall & Hr). exists user. split_and!; [done|done|].
    destruct Hr as [Hr|[->|(m & r & Hm & ->)]]; [done|congruence|]. unfold Highest in Hall.
    destruct (_ <? _); [|by rewrite (Hmember m r Hm) in Hall].
    destruct (decide (us_Role user = UserADMIN)) as [|Hne]; [done|]. by rewrite Huser in Hall.
Qed.

Lemma ordered_elem db row : row ∈ orderedClusters db ↔ db_clusters db !! row.1 = Some row.2.
Proof.
  unfold orderedClusters. rewrite merge_sort_Permutation. destruct row as [id c]. apply elem_of_map_to_list.
Qed.

(** One cluster, for a user: the row of the listing and the decision agree. *)
Lemma listCandidate_agrees ctx db uid user permission id c :
  rc_apiKey ctx = None → uid ≠ "" → id ≠ "" → requestUser ctx db uid = Ok (Some user) → us_Active user = true →
  db_clusterError db = None → db_memberError db = None → db_clusters db !! id = Some c →
  match listCandidate user db uid permission (id, c) with
  | Some ac => ac_ID ac = id ∧ Authorize ctx db id uid permission = Ok (true, ac_Role ac)
  | None => ∀ role, Authorize ctx db id uid permission ≠ Ok (true, role)
  end.
Proof.
  intros Hk Huid Hid Hreq Hact Hce Hme Hc. pose proof highest_owner as Hho. revert Hho.
  unfold Authorize, listCandidate, visibleRole. rewrite Hk, Hreq. simpl.
  rewrite !(bool_decide_eq_false_2 (_ = "")) by done. simpl. rewrite Hact, Hce, Hme, Hc. simpl.
  generalize subjectAllows Highest. intros A Hi Hho.
  case_bool_decide as Hadm; [destruct (A _ _) eqn:Hs; simpl; [done|by intros role [= ? _]]|].
  case_bool_decide as Hcr; simpl.
  - rewrite Hho by done. destruct (A _ _) eqn:Hs; simpl; [done|by intros role [= ? _]].
  - destruct (db_members db !! (id, uid)) as [member|]; simpl; [|by intros role [= ? _]].
    destruct (membershipRole member) as [role0|]; simpl; [|by intros role [= ? _]].
    destruct (A _ _) eqn:Hs; simpl; [done|by intros role [= ? _]].
Qed.

(** The clusters of [l] are those on which the permission is granted, for a user
    each with the role of the decision. *)
Definition listsGranted (ctx : requestContext) (db : database) (uid : string) (permission : Permission) (l : list AuthorizedCluster) : Prop :=
  (∀ id, (∃ c, c ∈ l ∧ ac_ID c = id) ↔ is_Some (db_clusters db !! id) ∧ ∃ role, Authorize ctx db id uid permission = Ok (true, role))
  ∧ (rc_apiKey ctx = None → ∀ c, c ∈ l → Authorize ctx db (ac_ID c) uid permission = Ok (true, ac_Role c)).
Lemma lists_nothing ctx db uid permission : (∀ id role, is_Some (db_clusters db !! id) → Authorize ctx db id uid permission ≠ Ok (true, role)) →
  listsGranted ctx db uid permission [].
Proof. intros H. split; [|set_solver]. intros id. split; [set_solver|]. intros (Hs & role & Ha). by destruct (H id role Hs). Qed.

Lemma key_lists ctx db uid permission k : rc_apiKey ctx = Some k → db_clusterError db = None →
  ∃ l, ListAuthorizedClusters ctx db uid permission = Ok l ∧ listsGranted ctx db uid permission l.
Proof.
  intros Hk Hc. unfold ListAuthorizedClusters. rewrite Hk.
  destruct (AuthorizeAPIKey k (ak_ClusterID k) permission) as [allowed role0] eqn:Ha. rewrite Hc. simpl.
  assert (∀ id role, Authorize ctx db id uid permission = Ok (true, role) → id = ak_ClusterID k ∧ allowed = true) as Hin.
  { intros id role H. unfold Authorize in H. rewrite Hk in H. unfold AuthorizeAPIKey in H, Ha.
    destruct (bool_decide (id = "") || _) eqn:Hb; [done|]. apply orb_false_iff in Hb as [Hb1 Hb2].
    apply negb_false_iff, bool_decide_eq_true in Hb2 as ->. rewrite Hb1, bool_decide_eq_true_2 in Ha by done.
    simpl in Ha. split; [done|]. congruence. }
  destruct allowed; simpl.
  2:{ exists []. split; [done|]. apply lists_nothing. intros id role _ H. by destruct (Hin id role H). }
  destruct (db_clusters db !! ak_ClusterID k) as [c|] eqn:Hcl.
  - eexists. split; [done|]. split; [|by rewrite Hk]. intros id. split.
    + intros (x & ->%list_elem_of_singleton & <-). simpl. split; [by rewrite Hcl|]. exists role0. unfold Authorize. rewrite Hk. by rewrite Ha.
    + intros (_ & role & H). destruct (Hin id role H) as [-> _]. eexists. split; [apply list_elem_of_here|]. done.
  - exists []. split; [done|]. apply lists_nothing. intros id role Hs H. destruct (Hin id role H) as [-> _]. rewrite Hcl in Hs. by destruct Hs.
Qed.

Lemma user_lists ctx db uid permission user : rc_apiKey ctx = None → uid ≠ "" → requestUser ctx db uid = Ok (Some user) → us_Active user = true →
  db_clusterError db = None → db_memberError db = None → db_clusters db !! "" = None →
  listsGranted ctx db uid permission (omap (listCandidate user db uid permission) (orderedClusters db)).
Proof.
  intros Hk Huid Ho Hact Hc Hm Hempty.
  assert (∀ id c, db_clusters db !! id = Some c → id ≠ "") as Hid by (intros id c Hrow ->; congruence).
  assert (∀ x, x ∈ omap (listCandidate user db uid permission) (orderedClusters db) →
    is_Some (db_clusters db !! ac_ID x) ∧ Authorize ctx db (ac_ID x) uid permission = Ok (true, ac_Role x)) as Hlist.
  { intros x ((id & c) & Hrow%ordered_elem & Hx)%list_elem_of_omap. simpl in Hrow.
    pose proof (listCandidate_agrees ctx db uid user permission id c Hk Huid (Hid id c Hrow) Ho Hact Hc Hm Hrow) as H.
    rewrite Hx in H. destruct H as [-> H]. split; [by rewrite Hrow|done]. }
  split; [|intros _ x Hx; by apply Hlist]. intros id. split.
  - intros (x & Hx & <-). destruct (Hlist x Hx). eauto.
  - intros ([c Hrow] & role & H).
    pose proof (listCandidate_agrees ctx db uid user permission id c Hk Huid (Hid id c Hrow) Ho Hact Hc Hm Hrow) as Hag.
    destruct (listCandidate user db uid permission (id, c)) as [ac|] eqn:Hx; [|by destruct (Hag role)].
    destruct Hag as [Hi Hag]. exists ac. split; [|done]. apply list_elem_of_omap. exists (id, c). split; [|done]. by apply ordered_elem.
Qed.

(** C7. Listing and deciding agree.  With a database that answers its queries and
    has no cluster with an empty identifier, the clusters [ListAuthorizedClusters]
    returns for a permission are exactly the existing clusters on which
    [Authorize] allows it, and for a user each is listed with the role
    [Authorize] reports. *)
Theorem list_agrees_with_authorize ctx db uid permission :
  db_userError db = None → db_clusterError db = None → db_memberError db = None → db_clusters db !! "" = None →
  ∃ l, ListAuthorizedClusters ctx db uid permission = Ok l
    ∧ (∀ id, (∃ c, c ∈ l ∧ ac_ID c = id) ↔ is_Some (db_clusters db !! id) ∧ ∃ role, Authorize ctx db id uid permission = Ok (true, role))
    ∧ (rc_apiKey ctx = None → ∀ c, c ∈ l → Authorize ctx db (ac_ID c) uid permission = Ok (true, ac_Role c)).
Proof.
  intros Hu Hc Hm Hempty. destruct (rc_apiKey ctx) as [k|] eqn:Hk.
  { destruct (key_lists ctx db uid permission k Hk Hc) as (l & Hl & H1 & _). by exists l. }
  assert (∃ l, ListAuthorizedClusters ctx db uid permission = Ok l ∧ listsGranted ctx db uid permission l) as (l & Hl & H1 & H2);
    [|exists l; split_and!; [exact Hl|exact H1|by intros _; apply H2]].
  unfold ListAuthorizedClusters. rewrite Hk.
  destruct (decide (uid = "")) as [->|Huid].
  { exists []. split; [done|]. apply lists_nothing. intros id role _ Ha. unfold Authorize in Ha. rewrite Hk in Ha. by destruct (bool_decide (id = "")). }
  rewrite bool_decide_eq_false_2 by done.
  assert (∃ o, requestUser ctx db uid = Ok o) as [o Ho] by (unfold requestUser; rewrite Hu; destruct (CurrentUser ctx uid); eauto).
  rewrite Ho. simpl.
  assert ((∀ user, o = Some user → us_Active user = false) → listsGranted ctx db uid permission []) as Hdeny.
  { intros Hd. apply lists_nothing. intros id role _ H. unfold Authorize in H. rewrite Hk, Ho in H. destruct (_ || _); [done|]. simpl in H.
    destruct o as [user|]; [|done]. by rewrite (Hd user) in H. }
  destruct o as [user|]; [|exists []; split; [done|by apply Hdeny]]. destruct (us_Active user) eqn:Hact; simpl.
  - rewrite Hc. eexists. split; [reflexivity|]. by apply user_lists.
  - exists []. split; [done|]. apply Hdeny. by intros u [= <-].
Qed.

(** ** A concrete database *)

#[local] Transparent rolePermissions roleRank Allows.

Definition demoDb : database := {|
  db_users := {[ "alice" := {| us_Id := "alice"; us_Role := UserVIEWER; us_Active := true |} ]};
  db_clusters := {[ "c1" := {| cl_Name := "one"; cl_CreatorId := "bob"; cl_CreatedAt := 5 |} ]};
  db_members := {[ ("c1", "alice") := ClusterOPERATOR ]};
  db_userError := None; db_clusterError := None; db_memberError := None |}.
Definition demoKey : APIKeyPrincipal := {| ak_ClusterID := "c1"; ak_Permissions := [PermissionPublish] |}.
Definition keyContext : requestContext := {| rc_apiKey := Some demoKey; rc_user := None |}.
Definition adminContext : requestContext :=
  {| rc_apiKey := None; rc_user := Some {| us_Id := "root"; us_Role := UserADMIN; us_Active := true |} |}.
Definition sessionContext : requestContext := {| rc_apiKey := None; rc_user := None |}.

Lemma highest_grants_union_witness : Allows (Highest RoleViewer RoleOwner) PermissionSiteDelete = true.
Proof.
  destruct (highest_grants_union RoleViewer RoleOwner PermissionSiteDelete) as [_ ->]; [by_matrix..|].
  vm_compute. reflexivity.
Defined.

Lemma api_key_confined_witness : AuthorizePlatform keyContext demoDb "root" PermissionPlatformAuditRead = Ok false.
Proof.
  destruct (api_key_confined keyContext demoDb demoKey "c1" "root" PermissionPlatformAuditRead eq_refl) as (_ & H & _).
  exact H.
Defined.

Lemma platform_needs_admin_witness :
  ∃ user, requestUser adminContext demoDb "root" = Ok (Some user) ∧ us_Role user = UserADMIN.
Proof.
  destruct (platform_needs_admin adminContext demoDb "c1" "root" PermissionPlatformAuditRead)
    as (_ & user & H1 & _ & H2); [by_matrix|left; vm_compute; reflexivity|].
  exists user. split; [exact H1|exact H2].
Defined.

Lemma list_agrees_with_authorize_witness :
  ∃ l, ListAuthorizedClusters sessionContext demoDb "alice" PermissionPublish = Ok l
    ∧ ∃ c, c ∈ l ∧ ac_ID c = "c1".
Proof.
  destruct (list_agrees_with_authorize sessionContext demoDb "alice" PermissionPublish eq_refl eq_refl eq_refl eq_refl)
    as (l & Hl & H).
  exists l. split; [exact Hl|]. destruct (proj2 (proj1 H "c1")) as (c & Hc & Hid).
  - split; [eexists; vm_compute; reflexivity|]. eexists. vm_compute. reflexivity.
  - exists c. split; [exact Hc|exact Hid].
Defined.
