(* ===== verification/Alerting.v ===== *)
(** * Alert instances ([internal/alerting])

    The alert state machine, the evaluation of one rule against the current
    observations, the manual operations, and the delivery of notifications.
    The tables are maps from row identifiers, given out in creation order.  A
    transaction either commits or returns an error and changes nothing; the
    partial unique index on the fingerprint of an active instance is the error
    [ErrUnique] of an insert.  What a rule observes (node health, jobs,
    certificates, metrics) is an argument.  The theorems are in
    [AlertingTheorems]. *)
From Stdlib Require Import ZArith Lia Ascii String.
From stdpp Require Import base numbers list strings gmap sets option sorting.
From S2P Require Import Prelude.

Local Open Scope Z_scope.

(** ** Data *)

Inductive AlertStatus := PENDING | FIRING | ACKNOWLEDGED | RESOLVED.
#[export] Instance AlertStatus_eq_dec : EqDecision AlertStatus.
Proof. solve_decision. Defined.

Record AlertInstance := {
  ai_Id : N; ai_RuleId : string; ai_ClusterId : string; ai_Kind : string; ai_Fingerprint : string;
  ai_Status : AlertStatus; ai_Severity : string; ai_Title : string; ai_DetailJson : string;
  ai_FirstSeenAt : Z; ai_LastSeenAt : Z; ai_FiredAt : option Z;
  ai_AckedAt : option Z; ai_AckedBy : option string;
  ai_ResolvedAt : option Z; ai_ResolvedReason : option string; ai_SuppressedUntilClear : bool;
  ai_NotifyCount : Z; ai_LastNotifiedAt : option Z;
}.

Inductive AlertEventType := STATE_CHANGE | NOTIFY | ACK | RESOLVE | REARM.
Record AlertEvent := {
  ev_InstanceId : N; ev_Type : AlertEventType; ev_From : AlertStatus; ev_To : AlertStatus; ev_Payload : string;
}.

Inductive DeliveryStatus := DeliveryPENDING | DeliverySENT | DeliveryFAILED.
#[export] Instance DeliveryStatus_eq_dec : EqDecision DeliveryStatus.
Proof. solve_decision. Defined.

Record AlertDelivery := {
  ad_InstanceId : N; ad_ChannelId : string; ad_Kind : string; ad_Status : DeliveryStatus;
  ad_Attempts : Z; ad_NextRetryAt : option Z; ad_EventId : option nat; ad_LastError : option string;
}.

Record alertDB := AlertDB {
  al_instances : gmap N AlertInstance;
  al_events : list AlertEvent;
  al_deliveries : gmap N AlertDelivery;
  al_next : N;                             (* source of row identifiers *)
}.

Record AlertRule := {
  ar_Id : string; ar_ClusterId : string; ar_Kind : string; ar_Severity : string;
  ar_ForSeconds : Z; ar_CooldownSeconds : Z;
}.
Record Observation := { ob_Key : string; ob_Title : string; ob_Detail : string }.

Inductive alertError := ErrTimers | ErrUnique | ErrIllegalTransition | ErrAlertNotFound | ErrDatabase (code : nat).

(** ** The state machine ([state.go]) *)

Record observedDecision := { od_Next : AlertStatus; od_Notify : bool; od_Changed : bool }.

Definition decideObserved (current : AlertStatus) (firstSeen : Z) (lastNotified : option Z)
    (forDuration cooldown now : Z) : observedDecision :=
  match current with
  | PENDING =>
      if forDuration <=? now - firstSeen then {| od_Next := FIRING; od_Notify := true; od_Changed := true |}
      else {| od_Next := PENDING; od_Notify := false; od_Changed := false |}
  | FIRING =>
      let notify := match lastNotified with None => true | Some t => cooldown <=? now - t end in
      {| od_Next := FIRING; od_Notify := notify; od_Changed := false |}
  | ACKNOWLEDGED => {| od_Next := ACKNOWLEDGED; od_Notify := false; od_Changed := false |}
  | RESOLVED => {| od_Next := RESOLVED; od_Notify := false; od_Changed := false |}
  end.

Definition decideMissing (current : AlertStatus) : AlertStatus * bool :=
  match current with
  | PENDING => (RESOLVED, false)
  | FIRING => (RESOLVED, true)
  | ACKNOWLEDGED => (RESOLVED, true)
  | RESOLVED => (RESOLVED, false)
  end.

Definition CanAcknowledge (status : AlertStatus) : bool :=
  bool_decide (status = FIRING) || bool_decide (status = ACKNOWLEDGED).
Definition CanResolve (status : AlertStatus) : bool :=
  match status with PENDING | FIRING | ACKNOWLEDGED => true | RESOLVED => false end.

Definition ValidateManualTransition (from : AlertStatus) (action : string) : AlertStatus * option alertError :=
  if bool_decide (action = "ack") then
    if negb (CanAcknowledge from) then (from, Some ErrIllegalTransition) else (ACKNOWLEDGED, None)
  else if bool_decide (action = "resolve") then
    if negb (CanResolve from) then (from, Some ErrIllegalTransition) else (RESOLVED, None)
  else (from, Some ErrIllegalTransition).

Definition ValidateRuleTimers (forSeconds cooldownSeconds : Z) : option alertError :=
  if (forSeconds <? 0) || (86400 <? forSeconds) then Some ErrTimers
  else if (cooldownSeconds <? 60) || (86400 <? cooldownSeconds) then Some ErrTimers
  else None.

Definition Fingerprint (kind key : string) : string := kind +:+ "/" +:+ key.

Definition secondNs : Z := 10 ^ 9.

(** ** Rows *)

Definition setStatus (i : AlertInstance) (s : AlertStatus) : AlertInstance := {|
  ai_Id := ai_Id i; ai_RuleId := ai_RuleId i; ai_ClusterId := ai_ClusterId i; ai_Kind := ai_Kind i;
  ai_Fingerprint := ai_Fingerprint i; ai_Status := s; ai_Severity := ai_Severity i; ai_Title := ai_Title i;
  ai_DetailJson := ai_DetailJson i; ai_FirstSeenAt := ai_FirstSeenAt i; ai_LastSeenAt := ai_LastSeenAt i;
  ai_FiredAt := ai_FiredAt i; ai_AckedAt := ai_AckedAt i; ai_AckedBy := ai_AckedBy i;
  ai_ResolvedAt := ai_ResolvedAt i; ai_ResolvedReason := ai_ResolvedReason i;
  ai_SuppressedUntilClear := ai_SuppressedUntilClear i; ai_NotifyCount := ai_NotifyCount i;
  ai_LastNotifiedAt := ai_LastNotifiedAt i |}.
Definition setSeen (now : Z) (title detail severity : string) (i : AlertInstance) : AlertInstance := {|
  ai_Id := ai_Id i; ai_RuleId := ai_RuleId i; ai_ClusterId := ai_ClusterId i; ai_Kind := ai_Kind i;
  ai_Fingerprint := ai_Fingerprint i; ai_Status := ai_Status i; ai_Severity := severity; ai_Title := title;
  ai_DetailJson := detail; ai_FirstSeenAt := ai_FirstSeenAt i; ai_LastSeenAt := now;
  ai_FiredAt := ai_FiredAt i; ai_AckedAt := ai_AckedAt i; ai_AckedBy := ai_AckedBy i;
  ai_ResolvedAt := ai_ResolvedAt i; ai_ResolvedReason := ai_ResolvedReason i;
  ai_SuppressedUntilClear := ai_SuppressedUntilClear i; ai_NotifyCount := ai_NotifyCount i;
  ai_LastNotifiedAt := ai_LastNotifiedAt i |}.
Definition setFired (now : Z) (i : AlertInstance) : AlertInstance := {|
  ai_Id := ai_Id i; ai_RuleId := ai_RuleId i; ai_ClusterId := ai_ClusterId i; ai_Kind := ai_Kind i;
  ai_Fingerprint := ai_Fingerprint i; ai_Status := ai_Status i; ai_Severity := ai_Severity i; ai_Title := ai_Title i;
  ai_DetailJson := ai_DetailJson i; ai_FirstSeenAt := ai_FirstSeenAt i; ai_LastSeenAt := ai_LastSeenAt i;
  ai_FiredAt := Some now; ai_AckedAt := ai_AckedAt i; ai_AckedBy := ai_AckedBy i;
  ai_ResolvedAt := ai_ResolvedAt i; ai_ResolvedReason := ai_ResolvedReason i;
  ai_SuppressedUntilClear := ai_SuppressedUntilClear i; ai_NotifyCount := ai_NotifyCount i;
  ai_LastNotifiedAt := ai_LastNotifiedAt i |}.
Definition setAcked (now : Z) (user : string) (i : AlertInstance) : AlertInstance := {|
  ai_Id := ai_Id i; ai_RuleId := ai_RuleId i; ai_ClusterId := ai_ClusterId i; ai_Kind := ai_Kind i;
  ai_Fingerprint := ai_Fingerprint i; ai_Status := ai_Status i; ai_Severity := ai_Severity i; ai_Title := ai_Title i;
  ai_DetailJson := ai_DetailJson i; ai_FirstSeenAt := ai_FirstSeenAt i; ai_LastSeenAt := ai_LastSeenAt i;
  ai_FiredAt := ai_FiredAt i; ai_AckedAt := Some now; ai_AckedBy := Some user;
  ai_ResolvedAt := ai_ResolvedAt i; ai_ResolvedReason := ai_ResolvedReason i;
  ai_SuppressedUntilClear := ai_SuppressedUntilClear i; ai_NotifyCount := ai_NotifyCount i;
  ai_LastNotifiedAt := ai_LastNotifiedAt i |}.
Definition setResolved (now : Z) (reason : string) (i : AlertInstance) : AlertInstance := {|
  ai_Id := ai_Id i; ai_RuleId := ai_RuleId i; ai_ClusterId := ai_ClusterId i; ai_Kind := ai_Kind i;
  ai_Fingerprint := ai_Fingerprint i; ai_Status := ai_Status i; ai_Severity := ai_Severity i; ai_Title := ai_Title i;
  ai_DetailJson := ai_DetailJson i; ai_FirstSeenAt := ai_FirstSeenAt i; ai_LastSeenAt := ai_LastSeenAt i;
  ai_FiredAt := ai_FiredAt i; ai_AckedAt := ai_AckedAt i; ai_AckedBy := ai_AckedBy i;
  ai_ResolvedAt := Some now; ai_ResolvedReason := Some reason;
  ai_SuppressedUntilClear := ai_SuppressedUntilClear i; ai_NotifyCount := ai_NotifyCount i;
  ai_LastNotifiedAt := ai_LastNotifiedAt i |}.
Definition setSuppressed (b : bool) (i : AlertInstance) : AlertInstance := {|
  ai_Id := ai_Id i; ai_RuleId := ai_RuleId i; ai_ClusterId := ai_ClusterId i; ai_Kind := ai_Kind i;
  ai_Fingerprint := ai_Fingerprint i; ai_Status := ai_Status i; ai_Severity := ai_Severity i; ai_Title := ai_Title i;
  ai_DetailJson := ai_DetailJson i; ai_FirstSeenAt := ai_FirstSeenAt i; ai_LastSeenAt := ai_LastSeenAt i;
  ai_FiredAt := ai_FiredAt i; ai_AckedAt := ai_AckedAt i; ai_AckedBy := ai_AckedBy i;
  ai_ResolvedAt := ai_ResolvedAt i; ai_ResolvedReason := ai_ResolvedReason i;
  ai_SuppressedUntilClear := b; ai_NotifyCount := ai_NotifyCount i;
  ai_LastNotifiedAt := ai_LastNotifiedAt i |}.
Definition setNotified (t : Z) (count : Z) (i : AlertInstance) : AlertInstance := {|
  ai_Id := ai_Id i; ai_RuleId := ai_RuleId i; ai_ClusterId := ai_ClusterId i; ai_Kind := ai_Kind i;
  ai_Fingerprint := ai_Fingerprint i; ai_Status := ai_Status i; ai_Severity := ai_Severity i; ai_Title := ai_Title i;
  ai_DetailJson := ai_DetailJson i; ai_FirstSeenAt := ai_FirstSeenAt i; ai_LastSeenAt := ai_LastSeenAt i;
  ai_FiredAt := ai_FiredAt i; ai_AckedAt := ai_AckedAt i; ai_AckedBy := ai_AckedBy i;
  ai_ResolvedAt := ai_ResolvedAt i; ai_ResolvedReason := ai_ResolvedReason i;
  ai_SuppressedUntilClear := ai_SuppressedUntilClear i; ai_NotifyCount := count;
  ai_LastNotifiedAt := Some t |}.

(** [UPDATE alert_instances ... WHERE id = ...]. *)
Definition updateInstance (db : alertDB) (id : N) (f : AlertInstance → AlertInstance) : alertDB :=
  AlertDB (alter f id (al_instances db)) (al_events db) (al_deliveries db) (al_next db).

Definition recordEvent (db : alertDB) (id : N) (type : AlertEventType) (from to : AlertStatus) (payload : string)
    : alertDB :=
  AlertDB (al_instances db)
    (al_events db ++ [{| ev_InstanceId := id; ev_Type := type; ev_From := from; ev_To := to; ev_Payload := payload |}])
    (al_deliveries db) (al_next db).

Definition addDelivery (db : alertDB) (d : AlertDelivery) : alertDB :=
  AlertDB (al_instances db) (al_events db) (<[al_next db := d]> (al_deliveries db)) (al_next db + 1)%N.

(** An active instance of a rule with a fingerprint. *)
Definition activeFor (rule fp : string) (i : AlertInstance) : Prop :=
  ai_RuleId i = rule ∧ ai_Fingerprint i = fp ∧ ai_Status i ≠ RESOLVED.
#[export] Instance activeFor_dec rule fp i : Decision (activeFor rule fp i).
Proof. unfold activeFor. apply _. Defined.

(** [INSERT INTO alert_instances], with its unique index. *)
Definition createInstance (db : alertDB) (i : AlertInstance) : result alertError alertDB :=
  if bool_decide (map_Exists (λ _ j, activeFor (ai_RuleId i) (ai_Fingerprint i) j) (al_instances db))
  then Err ErrUnique
  else Ok (AlertDB (<[ai_Id i := i]> (al_instances db)) (al_events db) (al_deliveries db) (al_next db + 1)%N).

(** Creation order. *)
Definition rowOrder {A} (x y : N * A) : Prop := (x.1 ≤ y.1)%N.
#[export] Instance rowOrder_dec {A} (x y : N * A) : Decision (rowOrder x y).
Proof. unfold rowOrder. apply _. Defined.

(** ** Notifications *)

Definition pendingDelivery (instance : N) (phase : string) (event : nat) (channel : string) : AlertDelivery := {|
  ad_InstanceId := instance; ad_ChannelId := channel; ad_Kind := phase; ad_Status := DeliveryPENDING;
  ad_Attempts := 0; ad_NextRetryAt := None; ad_EventId := Some event; ad_LastError := None |}.

(** [enqueueNotification]: an event and one delivery per channel, and the
    bookkeeping of the instance, which also marks a wave without channels. *)
Definition enqueueNotification (db : alertDB) (instance : AlertInstance) (channels : list string) (phase : string)
    (now : Z) : alertDB :=
  let db1 :=
    match channels with
    | [] => db
    | _ =>
        let event := length (al_events db) in
        foldl addDelivery (recordEvent db (ai_Id instance) NOTIFY (ai_Status instance) (ai_Status instance) phase)
          (map (pendingDelivery (ai_Id instance) phase event) channels)
    end in
  updateInstance db1 (ai_Id instance) (setNotified now (ai_NotifyCount instance + Z.of_nat (length channels))).

(** ** Evaluating a rule ([evaluateRule]) *)

Section Evaluate.
Context (rule : AlertRule) (channels : list string) (notificationsSuppressed : bool).
(** [now] is read once; [clock n] is the reading for a notification enqueued
    after [n] events. *)
Context (now : Z) (clock : nat → Z).

Definition newInstance (db : alertDB) (fp : string) (o : Observation) : AlertInstance := {|
  ai_Id := al_next db; ai_RuleId := ar_Id rule; ai_ClusterId := ar_ClusterId rule; ai_Kind := ar_Kind rule;
  ai_Fingerprint := fp; ai_Status := PENDING; ai_Severity := ar_Severity rule; ai_Title := ob_Title o;
  ai_DetailJson := ob_Detail o; ai_FirstSeenAt := now; ai_LastSeenAt := now; ai_FiredAt := None;
  ai_AckedAt := None; ai_AckedBy := None; ai_ResolvedAt := None; ai_ResolvedReason := None;
  ai_SuppressedUntilClear := false; ai_NotifyCount := 0; ai_LastNotifiedAt := None |}.

(** The decision for an instance whose condition is present; the result is the
    new row of the in-memory instance. *)
Definition applyObserved (db : alertDB) (instance : AlertInstance) : alertDB * AlertInstance :=
  let decision := decideObserved (ai_Status instance) (ai_FirstSeenAt instance) (ai_LastNotifiedAt instance)
                    (ar_ForSeconds rule * secondNs) (ar_CooldownSeconds rule * secondNs) now in
  let '(db1, instance1) :=
    if od_Changed decision then
      (recordEvent (updateInstance db (ai_Id instance) (λ i, setFired now (setStatus i (od_Next decision))))
         (ai_Id instance) STATE_CHANGE (ai_Status instance) (od_Next decision) "",
       setStatus instance (od_Next decision))
    else (db, instance) in
  (if od_Notify decision && negb notificationsSuppressed
   then enqueueNotification db1 instance1 channels "firing" (clock (length (al_events db1)))
   else db1, instance1).

(** One round of the loop over the observations; [byFingerprint] holds the
    active instances read at the start, whose status the loop updates. *)
Definition observeOne (suppressed : gmap string AlertInstance) (st : alertDB * gmap string AlertInstance)
    (o : Observation) : result alertError (alertDB * gmap string AlertInstance) :=
  let '(db, byFingerprint) := st in
  let fp := Fingerprint (ar_Kind rule) (ob_Key o) in
  let seen := setSeen now (ob_Title o) (ob_Detail o) (ar_Severity rule) in
  match byFingerprint !! fp with
  | Some instance =>
      let '(db1, instance1) := applyObserved (updateInstance db (ai_Id instance) seen) instance in
      Ok (db1, <[fp := instance1]> byFingerprint)
  | None =>
      match suppressed !! fp with
      | Some s => Ok (updateInstance db (ai_Id s) seen, byFingerprint)
      | None =>
          let instance := newInstance db fp o in
          db1 ← createInstance db instance;
          Ok ((applyObserved db1 instance).1, byFingerprint)
      end
  end.

Fixpoint observeAll (suppressed : gmap string AlertInstance) (st : alertDB * gmap string AlertInstance)
    (os : list Observation) : result alertError (alertDB * gmap string AlertInstance) :=
  match os with
  | [] => Ok st
  | o :: rest => st1 ← observeOne suppressed st o; observeAll suppressed st1 rest
  end.

(** One round of the loop over the active instances. *)
Definition resolveMissing (seen : gset string) (db : alertDB) (instance : AlertInstance) : alertDB :=
  if bool_decide (ai_Fingerprint instance ∈ seen) then db
  else
    let '(next, recovered) := decideMissing (ai_Status instance) in
    if bool_decide (next = ai_Status instance) then db
    else
      let db1 := recordEvent
        (updateInstance db (ai_Id instance) (λ i, setResolved now "condition cleared" (setStatus i next)))
        (ai_Id instance) STATE_CHANGE (ai_Status instance) next "condition cleared" in
      if recovered && negb notificationsSuppressed
      then enqueueNotification db1 instance channels "recovery" (clock (length (al_events db1)))
      else db1.

(** One round of the loop over the suppressed instances. *)
Definition rearm (seen : gset string) (db : alertDB) (instance : AlertInstance) : alertDB :=
  if bool_decide (ai_Fingerprint instance ∈ seen) then db
  else recordEvent (updateInstance db (ai_Id instance) (setSuppressed false))
         (ai_Id instance) REARM RESOLVED RESOLVED "condition cleared".

(** The rows of the rule that the evaluation locks, in creation order. *)
Definition candidates (db : alertDB) : list AlertInstance :=
  (merge_sort rowOrder
     (filter (λ x, ai_RuleId x.2 = ar_Id rule ∧ (ai_Status x.2 ≠ RESOLVED ∨ ai_SuppressedUntilClear x.2 = true))
        (map_to_list (al_instances db)))).*2.
Definition activeOf (db : alertDB) : list AlertInstance :=
  filter (λ i, ai_Status i ≠ RESOLVED) (candidates db).
Definition suppressedOf (db : alertDB) : list AlertInstance :=
  filter (λ i, ai_Status i = RESOLVED ∧ ai_SuppressedUntilClear i = true) (candidates db).

(** Later rows win, as in the loops that build the two maps. *)
Definition byFingerprintOf (l : list AlertInstance) : gmap string AlertInstance :=
  foldl (λ m i, <[ai_Fingerprint i := i]> m) ∅ l.

(** [evaluateRule].  [observed] is what the rule's query returned, or [None]
    when the rule needs an analytics database and there is none. *)
Definition evaluateRule (observed : option (result alertError (list Observation))) (db : alertDB)
    : result alertError alertDB :=
  match ValidateRuleTimers (ar_ForSeconds rule) (ar_CooldownSeconds rule) with
  | Some e => Err e
  | None =>
      match observed with
      | None => Ok db
      | Some answer =>
          observations ← answer;
          let active := activeOf db in
          let suppressed := suppressedOf db in
          let seen : gset string := list_to_set (map (λ o, Fingerprint (ar_Kind rule) (ob_Key o)) observations) in
          '(db1, _) ← observeAll (byFingerprintOf suppressed) (db, byFingerprintOf active) observations;
          Ok (foldl (rearm seen) (foldl (resolveMissing seen) db1 active) suppressed)
      end
  end.

End Evaluate.

(** ** Manual operations ([ops.go]) *)

Definition mutateInstance (db : alertDB) (clusterID : string) (alertID : N)
    (mutate : AlertInstance → result alertError ((AlertInstance → AlertInstance) * AlertStatus))
    (event : AlertEventType) (payload : string) : result alertError alertDB :=
  match al_instances db !! alertID with
  | Some instance =>
      if bool_decide (ai_ClusterId instance = clusterID) then
        '(set, next) ← mutate instance;
        Ok (recordEvent (updateInstance db alertID set) alertID event (ai_Status instance) next payload)
      else Err ErrAlertNotFound
  | None => Err ErrAlertNotFound
  end.

Definition Acknowledge (db : alertDB) (clusterID : string) (alertID : N) (userID : string) (now : Z)
    : result alertError alertDB :=
  mutateInstance db clusterID alertID (λ instance,
    if negb (CanAcknowledge (ai_Status instance)) then Err ErrIllegalTransition
    else Ok (λ i, setAcked now userID (setStatus i ACKNOWLEDGED), ACKNOWLEDGED)) ACK "".

Definition Resolve (db : alertDB) (clusterID : string) (alertID : N) (reason : string) (now : Z)
    : result alertError alertDB :=
  let reason := if bool_decide (reason = "") then "resolved manually" else reason in
  mutateInstance db clusterID alertID (λ instance,
    if negb (CanResolve (ai_Status instance)) then Err ErrIllegalTransition
    else Ok (λ i, setSuppressed true (setResolved now reason (setStatus i RESOLVED)), RESOLVED)) RESOLVE "manual".

(** ** Deliveries *)

Definition deliveryMaxAttempts : Z := 5.
Definition deliveryBatchSize : nat := 32.
Definition minuteNs : Z := 60 * 10 ^ 9.

(** [backoff]: 2, 4, 8, ... minutes. *)
Definition deliveryBackoff (attempts : Z) : Z := 2 ^ (Z.max attempts 1) * minuteNs.

Definition updateDelivery (db : alertDB) (id : N) (f : AlertDelivery → AlertDelivery) : alertDB :=
  AlertDB (al_instances db) (al_events db) (alter f id (al_deliveries db)) (al_next db).

Definition deliveryClaimWindow : Z := 3 * minuteNs.

Definition hideDelivery (until : Z) (d : AlertDelivery) : AlertDelivery := {|
  ad_InstanceId := ad_InstanceId d; ad_ChannelId := ad_ChannelId d; ad_Kind := ad_Kind d;
  ad_Status := ad_Status d; ad_Attempts := ad_Attempts d; ad_NextRetryAt := Some until;
  ad_EventId := ad_EventId d; ad_LastError := ad_LastError d |}.

(** The claim of [flushDeliveries]: due rows in creation order, at most a
    batch, hidden for the claim window. *)
Definition claimDeliveries (db : alertDB) (now : Z) : alertDB * list (N * Z) :=
  let due := filter (λ x : N * AlertDelivery, ad_Status x.2 = DeliveryPENDING
                       ∧ match ad_NextRetryAt x.2 with None => true | Some t => t <=? now end = true)
               (map_to_list (al_deliveries db)) in
  let rows := take deliveryBatchSize (merge_sort rowOrder due) in
  (foldl (λ db (x : N * AlertDelivery), updateDelivery db x.1 (hideDelivery (now + deliveryClaimWindow))) db rows,
   map (λ x, (x.1, ad_Attempts x.2)) rows).

(** [finishDelivery]; [now] is its clock reading. *)
Definition finishDelivery (db : alertDB) (id : N) (attempts : Z) (sent : bool) (cause : option string)
    (permanent : bool) (now : Z) : alertDB :=
  if sent then
    updateDelivery db id (λ d, {|
      ad_InstanceId := ad_InstanceId d; ad_ChannelId := ad_ChannelId d; ad_Kind := ad_Kind d;
      ad_Status := DeliverySENT; ad_Attempts := attempts; ad_NextRetryAt := None;
      ad_EventId := ad_EventId d; ad_LastError := None |})
  else
    let failed := permanent || (deliveryMaxAttempts <=? attempts) in
    updateDelivery db id (λ d, {|
      ad_InstanceId := ad_InstanceId d; ad_ChannelId := ad_ChannelId d; ad_Kind := ad_Kind d;
      ad_Status := if failed then DeliveryFAILED else DeliveryPENDING; ad_Attempts := attempts;
      ad_NextRetryAt := if failed then None else Some (now + deliveryBackoff attempts);
      ad_EventId := ad_EventId d; ad_LastError := Some (default "" cause) |}).

(** What [deliverOne] meets before and while sending; a cause is the message
    the row keeps, [Cancelled] also an attempt whose final update failed. *)
Inductive sendOutcome :=
| QueryFailed (cause : string) | ChannelUnavailable | CipherUnavailable | DecryptFailed (cause : string)
| SendCongested | SendFailed (cause : string) | Sent | Cancelled.

Definition deliverOne (db : alertDB) (id : N) (attempts : Z) (outcome : sendOutcome) (now : Z) : alertDB :=
  match outcome with
  | QueryFailed cause => finishDelivery db id attempts false (Some cause) false now
  | ChannelUnavailable => finishDelivery db id attempts false (Some "notification channel is unavailable") true now
  | CipherUnavailable => finishDelivery db id attempts false (Some "notification cipher is unavailable") false now
  | DecryptFailed cause => finishDelivery db id attempts false (Some cause) false now
  | SendCongested | Cancelled => db
  | SendFailed cause => finishDelivery db id attempts false (Some cause) false now
  | Sent => finishDelivery db id attempts true None false now
  end.

(** [flushDeliveries]: claim, then attempt each claimed delivery; every attempt
    has its outcome and its clock reading. *)
Definition flushDeliveries (db : alertDB) (now : Z) (outcomes : N → sendOutcome * Z) : alertDB :=
  let '(db1, rows) := claimDeliveries db now in
  foldl (λ db '(id, attempts), deliverOne db id (attempts + 1) (outcomes id).1 (outcomes id).2) db1 rows.
