(* ===== verification/AlertingTheorems.v ===== *)
(** * Theorems about alerts

    The tables stay well formed, an evaluation changes exactly the rows its
    observations call for, statuses only move along the legal transitions,
    notifications follow the policy of the rule, and deliveries are retried a
    bounded number of times. *)
From Stdlib Require Import ZArith Lia Ascii String.
From stdpp Require Import base numbers list strings gmap sets option sorting relations.
From S2P Require Import Prelude Alerting.

Local Open Scope Z_scope.

(** Updating a row that is present. *)
Lemma alter_known {A} (f : A → A) (m : gmap N A) k x : m !! k = Some x → alter f k m = <[k := f x]> m.
Proof.
  intros Hx. apply map_eq. intros j. destruct (decide (j = k)) as [->|Hne].
  - by rewrite lookup_alter_eq, Hx, lookup_insert_eq.
  - by rewrite lookup_alter_ne, lookup_insert_ne by done.
Qed.

(** ** The legal transitions *)

Inductive legal : AlertStatus → AlertStatus → Prop :=
| PendingFires : legal PENDING FIRING
| PendingClears : legal PENDING RESOLVED
| FiringAcked : legal FIRING ACKNOWLEDGED
| FiringClears : legal FIRING RESOLVED
| AckedClears : legal ACKNOWLEDGED RESOLVED.

(** The columns an update never changes. *)
Definition sameRow (i j : AlertInstance) : Prop :=
  ai_Id j = ai_Id i ∧ ai_RuleId j = ai_RuleId i ∧ ai_ClusterId j = ai_ClusterId i
  ∧ ai_Fingerprint j = ai_Fingerprint i ∧ ai_FirstSeenAt j = ai_FirstSeenAt i.

Lemma sameRow_refl i : sameRow i i.
Proof. done. Qed.
Lemma sameRow_trans i j k : sameRow i j → sameRow j k → sameRow i k.
Proof. unfold sameRow. intros (?&?&?&?&?) (?&?&?&?&?). repeat split; congruence. Qed.
#[local] Hint Resolve sameRow_refl sameRow_trans : core.

(** What the tables always satisfy. *)
Record dbOk (db : alertDB) : Prop := {
  dk_id : ∀ id i, al_instances db !! id = Some i → ai_Id i = id;
  dk_next : ∀ id i, al_instances db !! id = Some i → (id < al_next db)%N;
  dk_dnext : ∀ n d, al_deliveries db !! n = Some d → (n < al_next db)%N;
  dk_one : ∀ rule fp id id' i i', al_instances db !! id = Some i → al_instances db !! id' = Some i' →
    activeFor rule fp i → activeFor rule fp i' → id = id';
  dk_sup : ∀ id i, al_instances db !! id = Some i → ai_SuppressedUntilClear i = true → ai_Status i = RESOLVED;
  dk_ref : ∀ n d, al_deliveries db !! n = Some d → is_Some (al_instances db !! ad_InstanceId d);
}.

(** New deliveries satisfy [Q]; the others are kept. *)
Record grows (Q : AlertDelivery → Prop) (db db' : alertDB) : Prop := {
  gr_next : (al_next db ≤ al_next db')%N;
  gr_new : ∀ n d, al_deliveries db' !! n = Some d → al_deliveries db !! n = Some d ∨ Q d;
  gr_kept : ∀ n d, (n < al_next db)%N → al_deliveries db !! n = Some d → al_deliveries db' !! n = Some d;
  gr_bound : (∀ n d, al_deliveries db !! n = Some d → (n < al_next db)%N) →
    ∀ n d, al_deliveries db' !! n = Some d → (n < al_next db')%N;
}.

Lemma grows_trans (Q : AlertDelivery → Prop) db1 db2 db3 : grows Q db1 db2 → grows Q db2 db3 → grows Q db1 db3.
Proof.
  intros [N1 A1 K1 B1] [N2 A2 K2 B2]. split; [lia| | |by intros H; apply B2, B1].
  - intros n d [H|H]%A2; [by apply A1|by right].
  - intros n d Hn Hd. apply K2; [lia|]. by apply K1.
Qed.

Lemma grows_weaken (Q Q' : AlertDelivery → Prop) db db' : grows Q db db' → (∀ d, Q d → Q' d) → grows Q' db db'.
Proof. intros [N A K B] HQ. split; [done| |done|done]. intros n d [?|?]%A; auto. Qed.

(** A change of instances and events only. *)
Lemma grows_same Q db insts evs : grows Q db (AlertDB insts evs (al_deliveries db) (al_next db)).
Proof. split; simpl; auto; lia. Qed.

(** The same with a row identifier taken. *)
Lemma grows_create Q db insts : grows Q db (AlertDB insts (al_events db) (al_deliveries db) (al_next db + 1)).
Proof. split; simpl; auto; [lia|]. intros H n d Hd. apply H in Hd. lia. Qed.

Lemma grows_refl Q db : grows Q db db.
Proof. split; auto; lia. Qed.

Lemma grows_add (Q : AlertDelivery → Prop) db d : Q d → grows Q db (addDelivery db d).
Proof.
  intros HQ. split; simpl; [lia| | |].
  - intros n d' [[<- <-]|[_ H]]%lookup_insert_Some; auto.
  - intros n d' Hn Hd. rewrite lookup_insert_ne by lia. done.
  - intros Hb n d' [[<- <-]|[_ H]]%lookup_insert_Some; [lia|]. apply Hb in H. lia.
Qed.

Lemma grows_add_all (Q : AlertDelivery → Prop) ds db : (∀ d, d ∈ ds → Q d) → grows Q db (foldl addDelivery db ds).
Proof.
  revert db. induction ds as [|d ds IH]; intros db HQ; cbn [foldl]; [apply grows_refl|].
  eapply grows_trans; [apply (grows_add Q _ d), HQ; set_solver|]. apply IH. set_solver.
Qed.

Lemma add_all_instances ds db : al_instances (foldl addDelivery db ds) = al_instances db.
Proof. revert db. induction ds as [|d ds IH]; intros db; cbn [foldl]; [done|]. by rewrite IH. Qed.

(** A fresh delivery of one phase for one instance. *)
Definition queuedFor (id : N) (phase : string) (chans : list string) (d : AlertDelivery) : Prop :=
  ad_InstanceId d = id ∧ ad_Kind d = phase ∧ ad_ChannelId d ∈ chans ∧ ad_Status d = DeliveryPENDING ∧ ad_Attempts d = 0.

(** [enqueueNotification] adds deliveries of one phase for one instance. *)
Lemma enqueue_spec db i chans phase t row :
  al_instances db !! ai_Id i = Some row →
  al_instances (enqueueNotification db i chans phase t)
    = <[ai_Id i := setNotified t (ai_NotifyCount i + Z.of_nat (length chans)) row]> (al_instances db)
  ∧ grows (queuedFor (ai_Id i) phase chans) db (enqueueNotification db i chans phase t).
Proof.
  intros Hrow. unfold enqueueNotification. destruct chans as [|c cs].
  - simpl. rewrite (alter_known _ _ _ row) by done. split; [done|apply grows_same].
  - cbn [updateInstance al_instances]. rewrite add_all_instances. cbn [recordEvent al_instances].
    rewrite (alter_known _ _ _ row) by done. split; [done|].
    eapply grows_trans; [|apply grows_same]. eapply grows_trans; [apply grows_same|].
    apply grows_add_all. intros d (c' & -> & Hc)%list_elem_of_fmap. done.
Qed.

(** Rows that keep their identity and do not become active keep the tables
    well formed. *)
Lemma dbOk_rows Q db db' :
  dbOk db → grows Q db db' →
  (∀ id row', al_instances db' !! id = Some row' → ∃ row, al_instances db !! id = Some row
     ∧ sameRow row row' ∧ (ai_Status row = RESOLVED → ai_Status row' = RESOLVED)
     ∧ (ai_SuppressedUntilClear row' = true → ai_SuppressedUntilClear row = true ∨ ai_Status row' = RESOLVED)) →
  (∀ id, is_Some (al_instances db !! id) → is_Some (al_instances db' !! id)) →
  (∀ d, Q d → is_Some (al_instances db' !! ad_InstanceId d)) →
  dbOk db'.
Proof.
  intros [Hid Hnext Hdn Hone Hsup Href] Hg Hrows Hdom HQ. split.
  - intros id row' H. destruct (Hrows _ _ H) as (row & Hr & (Hsame & _) & _). rewrite Hsame. eauto.
  - intros id row' H. destruct (Hrows _ _ H) as (row & Hr & _). apply Hnext in Hr. pose proof (gr_next _ _ _ Hg). lia.
  - exact (gr_bound _ _ _ Hg Hdn).
  - intros rule fp id id' i i' H H' (Ha & Hb & Hc) (Ha' & Hb' & Hc').
    destruct (Hrows _ _ H) as (r & Hr & (_ & E1 & _ & E2 & _) & Hact & _).
    destruct (Hrows _ _ H') as (r' & Hr' & (_ & E1' & _ & E2' & _) & Hact' & _).
    apply (Hone rule fp id id' r r' Hr Hr'); unfold activeFor; split_and!; try congruence; intros E; auto.
  - intros id row' H Hs. destruct (Hrows _ _ H) as (row & Hr & _ & Hact & Hsu). destruct (Hsu Hs) as [E|E]; [|done].
    apply Hact. eauto.
  - intros n d [H|H]%(gr_new _ _ _ Hg); [apply Hdom; eauto|auto].
Qed.

(** Inserting a row where no active row has its fingerprint. *)
Lemma dbOk_create db i :
  dbOk db → ai_Id i = al_next db → ai_SuppressedUntilClear i = false →
  (∀ id j, al_instances db !! id = Some j → ~ activeFor (ai_RuleId i) (ai_Fingerprint i) j) →
  dbOk (AlertDB (<[ai_Id i := i]> (al_instances db)) (al_events db) (al_deliveries db) (al_next db + 1)).
Proof.
  intros [Hid Hnext Hdn Hone Hsup Href] Hi Hs Hfree. split; cbn.
  - intros id j [[<- <-]|[_ H]]%lookup_insert_Some; eauto.
  - intros id j [[<- <-]|[_ H]]%lookup_insert_Some; [lia|]. apply Hnext in H. lia.
  - intros n d H. apply Hdn in H. lia.
  - intros r fp id id' j j' [[<- <-]|[_ H]]%lookup_insert_Some [[<- <-]|[_ H']]%lookup_insert_Some Ha Ha'; eauto.
    + destruct Ha as (E1 & E2 & _). destruct (Hfree _ _ H'). by rewrite E1, E2.
    + destruct Ha' as (E1 & E2 & _). destruct (Hfree _ _ H). by rewrite E1, E2.
  - intros id j [[<- <-]|[_ H]]%lookup_insert_Some E; [congruence|eauto].
  - intros n d H. apply lookup_insert_is_Some'. right. eauto.
Qed.

(** A fold whose step changes the row of its element only. *)
Section Touch.
Context (step : alertDB → AlertInstance → alertDB) (R : AlertInstance → AlertInstance → AlertInstance → Prop)
  (Q : AlertInstance → AlertDelivery → Prop).
Context (step_row : ∀ db i row, al_instances db !! ai_Id i = Some row →
  ∃ row', al_instances (step db i) = <[ai_Id i := row']> (al_instances db) ∧ R i row row' ∧ grows (Q i) db (step db i)).

Lemma foldl_touch l : ∀ db, NoDup (map ai_Id l) →
  (∀ i, i ∈ l → is_Some (al_instances db !! ai_Id i)) →
  grows (λ d, ∃ i, i ∈ l ∧ Q i d) db (foldl step db l)
  ∧ (∀ id row', al_instances (foldl step db l) !! id = Some row' → ∃ row, al_instances db !! id = Some row
       ∧ (∀ i, i ∈ l → ai_Id i = id → R i row row') ∧ ((∀ i, i ∈ l → ai_Id i ≠ id) → row' = row))
  ∧ (∀ id, is_Some (al_instances db !! id) → is_Some (al_instances (foldl step db l) !! id)).
Proof.
  induction l as [|i l IH]; intros db Hnd Hin; cbn [foldl].
  { split_and!; [apply grows_refl| |done]. intros id row' H. exists row'. split_and!; [done| |done]. set_solver. }
  cbn [map] in Hnd. apply list.NoDup_cons in Hnd as [Hni Hnd].
  destruct (Hin i) as [row0 Hrow0]; [set_solver|].
  destruct (step_row db i row0 Hrow0) as (row1 & Hst & HR & Hg).
  assert (∀ id, is_Some (al_instances db !! id) → is_Some (al_instances (step db i) !! id)) as Hdom.
  { intros id Hs. rewrite Hst. destruct (decide (id = ai_Id i)) as [->|]; [by rewrite lookup_insert_eq|].
    by rewrite lookup_insert_ne by done. }
  destruct (IH (step db i) Hnd) as (Hg' & Hrow & Hdom'); [intros j Hj; apply Hdom, Hin; set_solver|].
  split_and!; [| |auto].
  - eapply grows_trans; (eapply grows_weaken; [eassumption|]); [intros d Hd; exists i; set_solver|].
    intros d (j & Hj & Hd). exists j. set_solver.
  - intros id row' H. destruct (Hrow _ _ H) as (row & Hr & HRl & Hno). rewrite Hst in Hr.
    assert (∀ j, j ∈ l → ai_Id j ≠ ai_Id i) as Hne.
    { intros j Hj E. apply Hni. rewrite <- E. by apply list_elem_of_fmap_2. }
    destruct (decide (id = ai_Id i)) as [->|Hid].
    + rewrite lookup_insert_eq in Hr. apply (inj Some) in Hr as ->. rewrite (Hno Hne) in *. exists row0. split_and!; [done| |].
      * intros j [-> | Hj]%elem_of_cons E; [done|]. by destruct (Hne j Hj).
      * intros Hall. destruct (Hall i); [set_solver|done].
    + rewrite lookup_insert_ne in Hr by done. exists row. split_and!; [done| |].
      * intros j [-> | Hj]%elem_of_cons E; [by destruct Hid|]. eauto.
      * intros Hall. apply Hno. intros j Hj. apply Hall. set_solver.
Qed.
End Touch.

(** ** The rows an evaluation reads *)

Section EvaluateRows.
Context (rule : AlertRule) (db : alertDB) (Hok : dbOk db).

Lemma elem_candidates i :
  i ∈ candidates rule db ↔ ∃ id, al_instances db !! id = Some i ∧ ai_RuleId i = ar_Id rule
    ∧ (ai_Status i ≠ RESOLVED ∨ ai_SuppressedUntilClear i = true).
Proof.
  unfold candidates. rewrite list_elem_of_fmap. split.
  - intros ([id j] & -> & H). rewrite (merge_sort_Permutation rowOrder) in H.
    apply list_elem_of_filter in H as [[Hr Hs] H]. apply elem_of_map_to_list in H. by exists id.
  - intros (id & H & Hr & Hs). exists (id, i). split; [done|].
    rewrite (merge_sort_Permutation rowOrder). apply list_elem_of_filter. split; [done|]. by apply elem_of_map_to_list.
Qed.

Lemma candidates_ids : NoDup (map ai_Id (candidates rule db)).
Proof.
  unfold candidates. rewrite (merge_sort_Permutation rowOrder).
  set (l := filter _ _). assert (map ai_Id l.*2 = l.*1) as ->.
  { assert (∀ x, x ∈ l → ai_Id x.2 = x.1) as Hid.
    { intros [id i] [_ H]%list_elem_of_filter. apply elem_of_map_to_list in H. exact (dk_id _ Hok _ _ H). }
    clearbody l. induction l as [|x l IH]; [done|]. cbn. rewrite Hid by set_solver. f_equal. apply IH. set_solver. }
  eapply sublist_NoDup; [apply (NoDup_fst_map_to_list (al_instances db))|]. apply fmap_sublist, sublist_filter.
Qed.

Lemma filter_ids (P : AlertInstance → Prop) `{!∀ i, Decision (P i)} l : NoDup (map ai_Id l) → NoDup (map ai_Id (filter P l)).
Proof. intros Hnd. eapply sublist_NoDup; [exact Hnd|]. apply (fmap_sublist ai_Id), sublist_filter. Qed.

Lemma elem_active i :
  i ∈ activeOf rule db ↔ al_instances db !! ai_Id i = Some i ∧ ai_RuleId i = ar_Id rule ∧ ai_Status i ≠ RESOLVED.
Proof.
  unfold activeOf. rewrite list_elem_of_filter, elem_candidates. split.
  - intros (Hs & id & H & Hr & _). pose proof (dk_id _ Hok _ _ H) as <-. done.
  - intros (H & Hr & Hs). split; [done|]. exists (ai_Id i). auto.
Qed.

Lemma elem_suppressed i :
  i ∈ suppressedOf rule db ↔ al_instances db !! ai_Id i = Some i ∧ ai_RuleId i = ar_Id rule ∧ ai_Status i = RESOLVED
    ∧ ai_SuppressedUntilClear i = true.
Proof.
  unfold suppressedOf. rewrite list_elem_of_filter, elem_candidates. split.
  - intros ((Hs & Hu) & id & H & Hr & _). pose proof (dk_id _ Hok _ _ H) as <-. done.
  - intros (H & Hr & Hs & Hu). split; [done|]. exists (ai_Id i). auto.
Qed.
End EvaluateRows.

(** The map of the loops, for a list of rows. *)
Lemma byFingerprint_sound l fp i : byFingerprintOf l !! fp = Some i → i ∈ l ∧ ai_Fingerprint i = fp.
Proof.
  unfold byFingerprintOf. induction l as [|j l IH] using rev_ind; [done|].
  rewrite foldl_app. cbn. intros [[<- <-]|[_ H]]%lookup_insert_Some; [set_solver|]. set_solver.
Qed.
Lemma byFingerprint_complete l i : i ∈ l → is_Some (byFingerprintOf l !! ai_Fingerprint i).
Proof.
  unfold byFingerprintOf. induction l as [|j l IH] using rev_ind; [by intros ?%elem_of_nil|].
  rewrite foldl_app. cbn. intros [H| ->%list_elem_of_singleton]%elem_of_app; [|by rewrite lookup_insert_eq].
  destruct (decide (ai_Fingerprint j = ai_Fingerprint i)) as [E|E]; [rewrite E; by rewrite lookup_insert_eq|].
  rewrite lookup_insert_ne by done. auto.
Qed.

(** ** The loop over the observations *)

Section Observe.
Context (rule : AlertRule) (channels : list string) (muted : bool) (now : Z) (clock : nat → Z).
Context (db0 : alertDB) (Hok0 : dbOk db0).

Definition decisionFor (i : AlertInstance) : observedDecision :=
  decideObserved (ai_Status i) (ai_FirstSeenAt i) (ai_LastNotifiedAt i)
    (ar_ForSeconds rule * secondNs) (ar_CooldownSeconds rule * secondNs) now.
(** The decision for a condition seen for the first time. *)
Definition firstDecision : observedDecision :=
  decideObserved PENDING now None (ar_ForSeconds rule * secondNs) (ar_CooldownSeconds rule * secondNs) now.

Lemma decideObserved_kept current fs ln fd cd t :
  od_Changed (decideObserved current fs ln fd cd t) = false → od_Next (decideObserved current fs ln fd cd t) = current.
Proof. unfold decideObserved. destruct current; simpl; try done. by case_match. Qed.

Lemma decideObserved_resolved current fs ln fd cd t :
  od_Next (decideObserved current fs ln fd cd t) = RESOLVED ↔ current = RESOLVED.
Proof. unfold decideObserved. destruct current; simpl; try done. by case_match. Qed.

Lemma applyObserved_spec db i row :
  al_instances db !! ai_Id i = Some row → ai_Status row = ai_Status i →
  ∃ row', al_instances (applyObserved rule channels muted now clock db i).1 = <[ai_Id i := row']> (al_instances db)
    ∧ sameRow row row' ∧ ai_SuppressedUntilClear row' = ai_SuppressedUntilClear row
    ∧ ai_Status row' = od_Next (decisionFor i)
    ∧ grows (λ d, od_Notify (decisionFor i) = true ∧ muted = false ∧ queuedFor (ai_Id i) "firing" channels d) db
        (applyObserved rule channels muted now clock db i).1.
Proof.
  intros Hrow Hst. unfold applyObserved. fold (decisionFor i). set (d := decisionFor i).
  set (changed := if od_Changed d then _ else _).
  assert (∃ row1, al_instances changed.1 = <[ai_Id i := row1]> (al_instances db) ∧ ai_Id changed.2 = ai_Id i
    ∧ sameRow row row1 ∧ ai_SuppressedUntilClear row1 = ai_SuppressedUntilClear row
    ∧ ai_Status row1 = od_Next d ∧ ∀ Q, grows Q db changed.1) as (row1 & Hi & Hid & Hsame & Hsup & Hs & Hg).
  { unfold changed. destruct (od_Changed d) eqn:Hc.
    - eexists. cbn. rewrite (alter_known _ _ _ row) by done. split_and!; [reflexivity|done..|]. intros Q. exact (grows_same Q db _ _).
    - exists row. cbn. rewrite insert_id by done. split_and!; [done..| |intros Q; apply grows_refl].
      rewrite Hst. unfold d, decisionFor. symmetry. by apply decideObserved_kept. }
  destruct changed as [db1 i1]. cbn in *. destruct (od_Notify d) eqn:Hn; [destruct muted eqn:Hm|]; cbn [andb negb].
  - exists row1. split_and!; try done.
  - destruct (enqueue_spec db1 i1 channels "firing" (clock (length (al_events db1))) row1) as [He Hge].
    { rewrite Hi, Hid. apply lookup_insert_eq. }
    eexists. split_and!; [rewrite He, Hi, Hid, insert_insert_eq; reflexivity|exact Hsame|done|done|].
    rewrite Hid in Hge. eapply grows_trans; [apply Hg|]. eapply grows_weaken; [exact Hge|]. done.
  - exists row1. split_and!; try done.
Qed.

Let by0 := byFingerprintOf (activeOf rule db0).
Let sup0 := byFingerprintOf (suppressedOf rule db0).

(** A row that existed before, after the conditions [done] were seen. *)
Definition rowSeen (done : gset string) (i0 i : AlertInstance) : Prop :=
  sameRow i0 i ∧ ai_SuppressedUntilClear i = ai_SuppressedUntilClear i0
  ∧ ai_Status i = (if decide (ai_RuleId i0 = ar_Id rule ∧ ai_Fingerprint i0 ∈ done)
                   then od_Next (decisionFor i0) else ai_Status i0)
  ∧ (ai_RuleId i0 ≠ ar_Id rule ∨ ai_Fingerprint i0 ∉ done
     ∨ (ai_Status i0 = RESOLVED ∧ ai_SuppressedUntilClear i0 = false) → i = i0).

(** A row the evaluation created. *)
Definition rowNew (done : gset string) (i : AlertInstance) : Prop :=
  ai_RuleId i = ar_Id rule ∧ ai_ClusterId i = ar_ClusterId rule ∧ ai_Fingerprint i ∈ done
  ∧ by0 !! ai_Fingerprint i = None ∧ sup0 !! ai_Fingerprint i = None
  ∧ ai_Status i = od_Next firstDecision ∧ ai_SuppressedUntilClear i = false ∧ ai_FirstSeenAt i = now.

(** Firing notifications: not muted, and called for by the decision of a row of
    the rule that was seen, or of a new one. *)
Definition firingPolicy (done : gset string) (d : AlertDelivery) : Prop :=
  muted = false ∧ queuedFor (ad_InstanceId d) "firing" channels d
  ∧ match al_instances db0 !! ad_InstanceId d with
    | Some i0 => ai_RuleId i0 = ar_Id rule ∧ ai_Fingerprint i0 ∈ done ∧ od_Notify (decisionFor i0) = true
    | None => od_Notify firstDecision = true
    end.

Record observed (done : gset string) (db : alertDB) (by' : gmap string AlertInstance) : Prop := {
  ob_ok : dbOk db;
  ob_old : ∀ id i0, al_instances db0 !! id = Some i0 → ∃ i, al_instances db !! id = Some i ∧ rowSeen done i0 i;
  ob_new : ∀ id i, al_instances db !! id = Some i → al_instances db0 !! id = None → rowNew done i;
  ob_made : ∀ fp, fp ∈ done → by0 !! fp = None → sup0 !! fp = None →
    ∃ id i, al_instances db !! id = Some i ∧ al_instances db0 !! id = None ∧ ai_Fingerprint i = fp;
  ob_by : ∀ fp, fp ∉ done → by' !! fp = by0 !! fp;
  ob_grows : grows (firingPolicy done) db0 db;
}.

Lemma observed_start : observed ∅ db0 by0.
Proof.
  split; [done| | |set_solver|done|apply grows_refl].
  - intros id i0 H. exists i0. split; [done|]. split_and!; try done. by rewrite decide_False by set_solver.
  - intros id i H. by rewrite H.
Qed.

Lemma policy_weaken fp done d : firingPolicy done d → firingPolicy ({[fp]} ∪ done) d.
Proof. unfold firingPolicy. case_match; set_solver. Qed.
Lemma rowNew_weaken fp done i : rowNew done i → rowNew ({[fp]} ∪ done) i.
Proof. unfold rowNew. set_solver. Qed.

(** The rows of a fingerprint other than the one the loop works on. *)
Definition othersResolved (fp : string) (skip : option N) : Prop :=
  ∀ id j, al_instances db0 !! id = Some j → ai_RuleId j = ar_Id rule → ai_Fingerprint j = fp → Some id ≠ skip →
    ai_Status j = RESOLVED.

Lemma rowSeen_other fp done skip id j0 j :
  othersResolved fp skip → fp ∉ done → Some id ≠ skip → al_instances db0 !! id = Some j0 →
  rowSeen done j0 j → rowSeen ({[fp]} ∪ done) j0 j.
Proof.
  intros Hoth Hfp Hid Hj0 (Hs & Hsup & Hst & Heq). split_and!; [done|done| |].
  - rewrite Hst. destruct (decide (ai_RuleId j0 = ar_Id rule)) as [Hr|Hr].
    + destruct (decide (ai_Fingerprint j0 = fp)) as [E|E].
      * rewrite decide_False by (rewrite E; tauto). rewrite decide_True by set_solver.
        rewrite (Hoth _ _ Hj0 Hr E Hid). symmetry. unfold decisionFor. rewrite (Hoth _ _ Hj0 Hr E Hid). done.
      * destruct (decide (ai_Fingerprint j0 ∈ done)).
        -- rewrite decide_True by done. by rewrite decide_True by set_solver.
        -- rewrite decide_False by tauto. by rewrite decide_False by set_solver.
    + rewrite decide_False by tauto. by rewrite decide_False by tauto.
  - intros H. apply Heq. set_solver.
Qed.

(** The loop changed the row of an instance that existed. *)
Lemma observed_touch done db by' db' by'' i0 row' :
  observed done db by' → al_instances db0 !! ai_Id i0 = Some i0 → ai_RuleId i0 = ar_Id rule →
  ai_Fingerprint i0 ∉ done → ai_Status i0 ≠ RESOLVED ∨ ai_SuppressedUntilClear i0 = true →
  (is_Some (by0 !! ai_Fingerprint i0) ∨ is_Some (sup0 !! ai_Fingerprint i0)) →
  othersResolved (ai_Fingerprint i0) (Some (ai_Id i0)) →
  al_instances db' = <[ai_Id i0 := row']> (al_instances db) → sameRow i0 row' →
  ai_SuppressedUntilClear row' = ai_SuppressedUntilClear i0 → ai_Status row' = od_Next (decisionFor i0) →
  grows (λ d, firingPolicy ({[ai_Fingerprint i0]} ∪ done) d ∧ ad_InstanceId d = ai_Id i0) db db' →
  (∀ fp, fp ≠ ai_Fingerprint i0 → by'' !! fp = by' !! fp) →
  observed ({[ai_Fingerprint i0]} ∪ done) db' by''.
Proof.
  intros [Ok Old New Made By Gr] Hi0 Hr Hfp Hact Hmaps Hoth Hdb Hsame Hsup Hst Hg Hby.
  destruct (Old _ _ Hi0) as (i1 & Hi1 & Hseen).
  assert (i1 = i0) as -> by (apply Hseen; tauto).
  split.
  - eapply (dbOk_rows _ db db' Ok Hg); rewrite Hdb;
      [|intros id H; apply lookup_insert_is_Some'; auto|intros d [_ ->]; by rewrite lookup_insert_eq].
    intros id r [[<- <-]|[_ H]]%lookup_insert_Some; [|exists r; auto].
    exists i0. split_and!; [done..| |by left; congruence]. intros E. rewrite Hst. unfold decisionFor. by apply decideObserved_resolved.
  - intros id j0 Hj0. rewrite Hdb. destruct (decide (id = ai_Id i0)) as [->|Hne].
    + rewrite lookup_insert_eq. exists row'. split; [done|]. rewrite Hi0 in Hj0. apply (inj Some) in Hj0 as <-.
      split_and!; [done|done| |].
      * by rewrite decide_True by set_solver.
      * intros [?|[?|[E1 E2]]]; [done|set_solver|]. destruct Hact as [?|E]; [done|]. by rewrite E in E2.
    + rewrite lookup_insert_ne by done. destruct (Old _ _ Hj0) as (j & Hj & Hjs). exists j. split; [done|].
      apply (rowSeen_other _ _ (Some (ai_Id i0)) id); [done|done|congruence|done|done].
  - intros id i. rewrite Hdb. intros [[<- <-]|[_ H]]%lookup_insert_Some Hnone; [congruence|].
    apply rowNew_weaken. eauto.
  - intros fp [->%elem_of_singleton|Hin]%elem_of_union Hb Hs.
    { destruct Hmaps as [[? E]|[? E]]; congruence. }
    destruct (Made fp Hin Hb Hs) as (id & i & H & Hnone & E). exists id, i. split_and!; [|done|done].
    rewrite Hdb, lookup_insert_ne by congruence. done.
  - intros fp Hn. rewrite Hby by set_solver. apply By. set_solver.
  - eapply grows_trans; [eapply grows_weaken; [exact Gr|intros d; apply policy_weaken]|].
    eapply grows_weaken; [exact Hg|]. tauto.
Qed.

(** What the two maps hold. *)
Lemma by0_sound fp i : by0 !! fp = Some i →
  ai_Fingerprint i = fp ∧ al_instances db0 !! ai_Id i = Some i ∧ ai_RuleId i = ar_Id rule ∧ ai_Status i ≠ RESOLVED.
Proof. intros [H E]%byFingerprint_sound. by apply (elem_active rule db0 Hok0) in H. Qed.
Lemma by0_none fp id j : by0 !! fp = None → al_instances db0 !! id = Some j → ai_RuleId j = ar_Id rule →
  ai_Fingerprint j = fp → ai_Status j = RESOLVED.
Proof.
  intros Hn Hj Hr <-. destruct (decide (ai_Status j = RESOLVED)) as [|Hs]; [done|].
  destruct (byFingerprint_complete (activeOf rule db0) j) as [k Hk].
  - apply (elem_active rule db0 Hok0). pose proof (dk_id _ Hok0 _ _ Hj) as ->. done.
  - unfold by0 in Hn. congruence.
Qed.
Lemma sup0_sound fp i : sup0 !! fp = Some i →
  ai_Fingerprint i = fp ∧ al_instances db0 !! ai_Id i = Some i ∧ ai_RuleId i = ar_Id rule ∧ ai_Status i = RESOLVED
  ∧ ai_SuppressedUntilClear i = true.
Proof. intros [H E]%byFingerprint_sound. by apply (elem_suppressed rule db0 Hok0) in H. Qed.

Let fpOf (o : Observation) : string := Fingerprint (ar_Kind rule) (ob_Key o).

Lemma observe_active done db by' o i :
  observed done db by' → fpOf o ∉ done → by' !! fpOf o = Some i →
  ∃ db1 by1, observeOne rule channels muted now clock sup0 (db, by') o = Ok (db1, by1)
    ∧ observed ({[fpOf o]} ∪ done) db1 by1.
Proof.
  intros Hobs Hfp Hby. pose proof Hby as Hby0. rewrite (ob_by _ _ _ Hobs) in Hby0 by done.
  destruct (by0_sound _ _ Hby0) as (Efp & Hi0 & Hr & Hs).
  destruct (ob_old _ _ _ Hobs _ _ Hi0) as (i1 & Hi1 & Hseen).
  assert (i1 = i) as -> by (apply Hseen; rewrite Efp; tauto).
  set (seen := setSeen now (ob_Title o) (ob_Detail o) (ar_Severity rule)).
  set (db1 := updateInstance db (ai_Id i) seen).
  destruct (applyObserved_spec db1 i (seen i)) as (row & Hdb & Hsame & Hsup & Hst & Hg); [|done|].
  { unfold db1. cbn. by rewrite (alter_known _ _ _ i), lookup_insert_eq by done. }
  destruct (applyObserved rule channels muted now clock db1 i) as [db2 i2] eqn:Hap. cbn in Hdb, Hg.
  exists db2, (<[fpOf o := i2]> by'). split.
  { unfold observeOne, fpOf. fold (fpOf o). rewrite Hby. fold seen db1. by rewrite Hap. }
  rewrite <- Efp. eapply (observed_touch done db by' db2 _ i row); try done.
  - by rewrite Efp.
  - tauto.
  - left. rewrite Efp, Hby0. done.
  - intros id j Hj Hrj Hfj Hne. destruct (decide (ai_Status j = RESOLVED)) as [|Hsj]; [done|]. destruct Hne. f_equal.
    apply (dk_one _ Hok0 (ar_Id rule) (ai_Fingerprint i) id (ai_Id i) j i); done.
  - rewrite Hdb. unfold db1. cbn. by rewrite (alter_known _ _ _ i), insert_insert_eq by done.
  - apply (grows_trans _ _ db1); [exact (grows_same _ db _ _)|]. eapply grows_weaken; [exact Hg|].
    intros d (Hn & Hm & Hq). pose proof Hq as (E & _). split; [|done]. unfold firingPolicy. rewrite E, Hi0. set_solver.
  - intros fp Hne. by rewrite lookup_insert_ne by done.
Qed.

Lemma observe_suppressed done db by' o i :
  observed done db by' → fpOf o ∉ done → by' !! fpOf o = None → sup0 !! fpOf o = Some i →
  ∃ db1, observeOne rule channels muted now clock sup0 (db, by') o = Ok (db1, by')
    ∧ observed ({[fpOf o]} ∪ done) db1 by'.
Proof.
  intros Hobs Hfp Hby Hs0. pose proof Hby as Hby0. rewrite (ob_by _ _ _ Hobs) in Hby0 by done.
  destruct (sup0_sound _ _ Hs0) as (Efp & Hi0 & Hr & Hs & Hsup).
  destruct (ob_old _ _ _ Hobs _ _ Hi0) as (i1 & Hi1 & Hseen).
  assert (i1 = i) as -> by (apply Hseen; rewrite Efp; tauto).
  eexists. split.
  { unfold observeOne. fold (fpOf o). rewrite Hby, Hs0. reflexivity. }
  rewrite <- Efp. eapply (observed_touch done db by' _ _ i (setSeen now (ob_Title o) (ob_Detail o) (ar_Severity rule) i)); try done.
  - by rewrite Efp.
  - tauto.
  - right. rewrite Efp, Hs0. done.
  - intros id j Hj Hrj Hfj _. apply (by0_none (fpOf o) id); congruence.
  - cbn. by rewrite (alter_known _ _ _ i) by done.
  - unfold decisionFor. by rewrite Hs.
  - exact (grows_same _ db _ _).
Qed.

Lemma observe_new done db by' o :
  observed done db by' → fpOf o ∉ done → by' !! fpOf o = None → sup0 !! fpOf o = None →
  ∃ db1, observeOne rule channels muted now clock sup0 (db, by') o = Ok (db1, by')
    ∧ observed ({[fpOf o]} ∪ done) db1 by'.
Proof.
  intros Hobs Hfp Hby Hs0. pose proof Hby as Hby0. rewrite (ob_by _ _ _ Hobs) in Hby0 by done.
  set (i := newInstance rule now db (fpOf o) o).
  assert (∀ id j, al_instances db !! id = Some j → ~ activeFor (ai_RuleId i) (ai_Fingerprint i) j) as Hfree.
  { cbn. intros id j Hj (Er & Ef & Hs). destruct (al_instances db0 !! id) as [j0|] eqn:Hj0.
    - destruct (ob_old _ _ _ Hobs _ _ Hj0) as (j' & Hj' & (_ & _ & _ & Hfp' & _) & _ & Hst & Heq).
      rewrite Hj in Hj'. apply (inj Some) in Hj' as <-. rewrite Heq in Er, Hs by (rewrite <- Hfp', Ef; tauto).
      apply Hs. apply (by0_none (fpOf o) id); [done|done|done|congruence].
    - pose proof (ob_new _ _ _ Hobs _ _ Hj Hj0) as (_ & _ & Hin & _). by rewrite Ef in Hin. }
  set (db1 := AlertDB (<[al_next db := i]> (al_instances db)) (al_events db) (al_deliveries db) (al_next db + 1)).
  assert (createInstance db i = Ok db1) as Hcr.
  { unfold createInstance. rewrite bool_decide_eq_false_2; [done|]. intros (id & j & Hj & Ha). by destruct (Hfree id j). }
  pose proof (dbOk_create db i (ob_ok _ _ _ Hobs) eq_refl eq_refl Hfree) as Hok1. fold db1 in Hok1.
  destruct (applyObserved_spec db1 i i) as (row & Hdb & Hsame & Hsup & Hst & Hg); [apply lookup_insert_eq|done|].
  cbn in Hdb. rewrite insert_insert_eq in Hdb.
  assert (al_instances db0 !! al_next db = None) as Hfresh.
  { destruct (al_instances db0 !! al_next db) eqn:E; [|done]. apply (dk_next _ Hok0) in E.
    pose proof (gr_next _ _ _ (ob_grows _ _ _ Hobs)). lia. }
  eexists. split.
  { unfold observeOne. fold (fpOf o). rewrite Hby, Hs0. fold i. rewrite Hcr. reflexivity. }
  set (db2 := (applyObserved rule channels muted now clock db1 i).1) in *.
  assert (grows (firingPolicy ({[fpOf o]} ∪ done)) db1 db2) as Hg2.
  { eapply grows_weaken; [exact Hg|]. intros d (Hn & Hm & Hq). pose proof Hq as (E & _). unfold firingPolicy.
    rewrite E. cbn. rewrite Hfresh. done. }
  assert (rowNew ({[fpOf o]} ∪ done) row) as Hnew.
  { destruct Hsame as (E1 & E2 & E3 & E4 & E5). unfold rowNew. rewrite E2, E3, E4, E5, Hst, Hsup. cbn. set_solver. }
  split.
  - eapply dbOk_rows; [exact Hok1|exact Hg|rewrite Hdb..].
    2:{ intros id H. cbn in H. by rewrite lookup_insert_is_Some' in *. }
    2:{ intros d (_ & _ & -> & _). by rewrite lookup_insert_eq. }
    intros id r [[<- <-]|[Hne H]]%lookup_insert_Some.
    + exists i. split_and!; [apply lookup_insert_eq|done|by intros E|left; congruence].
    + exists r. split_and!; [|auto..]. cbn. by rewrite lookup_insert_ne by done.
  - intros id j0 Hj0. rewrite Hdb, lookup_insert_ne by congruence.
    destruct (ob_old _ _ _ Hobs _ _ Hj0) as (j & Hj & Hjs). exists j. split; [done|].
    apply (rowSeen_other (fpOf o) done None id); try done. intros id' j' Hj' Hr' Hf' _. by apply (by0_none (fpOf o) id').
  - intros id j. rewrite Hdb. intros [[<- <-]|[_ H]]%lookup_insert_Some Hnone; [done|].
    apply rowNew_weaken. by apply (ob_new _ _ _ Hobs id).
  - intros fp [->%elem_of_singleton|Hin]%elem_of_union Hb Hs.
    + exists (al_next db), row. split_and!; [rewrite Hdb; apply lookup_insert_eq|done|]. by destruct Hsame as (_ & _ & _ & -> & _).
    + destruct (ob_made _ _ _ Hobs fp Hin Hb Hs) as (id & j & H & Hnone & E). exists id, j. split_and!; [|done|done].
      rewrite Hdb, lookup_insert_ne; [done|]. intros <-. apply (dk_next _ (ob_ok _ _ _ Hobs)) in H. lia.
  - intros fp Hn. apply (ob_by _ _ _ Hobs). set_solver.
  - eapply grows_trans; [|exact Hg2]. apply (grows_trans _ _ db).
    + eapply grows_weaken; [exact (ob_grows _ _ _ Hobs)|]. intros d. apply policy_weaken.
    + apply grows_create.
Qed.

Lemma observe_one done db by' o :
  observed done db by' → fpOf o ∉ done →
  ∃ db1 by1, observeOne rule channels muted now clock sup0 (db, by') o = Ok (db1, by1)
    ∧ observed ({[fpOf o]} ∪ done) db1 by1.
Proof.
  intros Hobs Hfp. destruct (by' !! fpOf o) as [i|] eqn:Hby; [by eapply observe_active|].
  destruct (sup0 !! fpOf o) as [i|] eqn:Hs.
  - destruct (observe_suppressed _ _ _ _ _ Hobs Hfp Hby Hs) as (db1 & ? & ?). by exists db1, by'.
  - destruct (observe_new _ _ _ _ Hobs Hfp Hby Hs) as (db1 & ? & ?). by exists db1, by'.
Qed.

Lemma observe_all os : ∀ done db by',
  observed done db by' → NoDup (map fpOf os) → (∀ o, o ∈ os → fpOf o ∉ done) →
  ∃ db1 by1, observeAll rule channels muted now clock sup0 (db, by') os = Ok (db1, by1)
    ∧ observed (list_to_set (map fpOf os) ∪ done) db1 by1.
Proof.
  induction os as [|o os IH]; intros done db by' Hobs Hnd Hfresh; cbn [observeAll map list_to_set].
  - exists db, by'. split; [done|]. by rewrite (left_id_L ∅ (∪)).
  - cbn in Hnd. apply list.NoDup_cons in Hnd as [Hni Hnd].
    destruct (observe_one _ _ _ o Hobs) as (db1 & by1 & -> & Hobs1); [apply Hfresh; set_solver|]. cbn [mbind result_bind].
    destruct (IH _ _ _ Hobs1 Hnd) as (db2 & by2 & -> & Hobs2).
    + intros o' Ho' [E%elem_of_singleton|Hin]%elem_of_union; [|eapply Hfresh; [|done]; set_solver].
      apply Hni. rewrite <- E. by apply list_elem_of_fmap_2.
    + exists db2, by2. split; [done|].
      assert ({[fpOf o]} ∪ list_to_set (map fpOf os) ∪ done = list_to_set (map fpOf os) ∪ ({[fpOf o]} ∪ done)) as -> by set_solver.
      done.
Qed.

(** ** The two loops that close *)

Context (seen : gset string).

Definition rowClosed (i row row' : AlertInstance) : Prop :=
  (ai_Fingerprint i ∈ seen ∨ ai_Status i = RESOLVED → row' = row)
  ∧ (ai_Fingerprint i ∉ seen → ai_Status i ≠ RESOLVED →
     sameRow row row' ∧ ai_SuppressedUntilClear row' = ai_SuppressedUntilClear row ∧ ai_Status row' = RESOLVED
     ∧ ai_ResolvedReason row' = Some "condition cleared" ∧ ai_ResolvedAt row' = Some now).

(** Recovery notifications: not muted, for a row that had fired and whose
    condition is gone. *)
Definition recoveryPolicy (i : AlertInstance) (d : AlertDelivery) : Prop :=
  muted = false ∧ queuedFor (ai_Id i) "recovery" channels d
  ∧ ai_Fingerprint i ∉ seen ∧ (ai_Status i = FIRING ∨ ai_Status i = ACKNOWLEDGED).

Lemma resolveMissing_row db i row :
  al_instances db !! ai_Id i = Some row →
  ∃ row', al_instances (resolveMissing channels muted now clock seen db i) = <[ai_Id i := row']> (al_instances db)
    ∧ rowClosed i row row' ∧ grows (recoveryPolicy i) db (resolveMissing channels muted now clock seen db i).
Proof.
  intros Hrow. destruct (decide (ai_Fingerprint i ∈ seen ∨ ai_Status i = RESOLVED)) as [Hkeep|Hclose].
  { assert (resolveMissing channels muted now clock seen db i = db) as ->.
    { unfold resolveMissing. case_bool_decide; [done|]. destruct Hkeep as [|Hst]; [done|]. by rewrite Hst. }
    exists row. rewrite insert_id by done. split_and!; [done| |apply grows_refl]. split; [done|tauto]. }
  assert (ai_Fingerprint i ∉ seen) as Hs by tauto.
  set (close := λ j : AlertInstance, setResolved now "condition cleared" (setStatus j RESOLVED)).
  set (db1 := recordEvent (updateInstance db (ai_Id i) close) (ai_Id i) STATE_CHANGE (ai_Status i) RESOLVED "condition cleared").
  assert (al_instances db1 = <[ai_Id i := close row]> (al_instances db)) as Hdb1 by (cbn; by apply alter_known).
  assert (∀ Q, grows Q db db1) as Hg1 by (intros Q; exact (grows_same Q db _ _)).
  assert (resolveMissing channels muted now clock seen db i
    = if (decideMissing (ai_Status i)).2 && negb muted
      then enqueueNotification db1 i channels "recovery" (clock (length (al_events db1))) else db1) as Heq.
  { unfold resolveMissing. rewrite bool_decide_eq_false_2 by done. destruct (ai_Status i); [done..|]. destruct Hclose. tauto. }
  rewrite Heq.
  destruct ((decideMissing (ai_Status i)).2 && negb muted) eqn:Hb.
  - destruct (enqueue_spec db1 i channels "recovery" (clock (length (al_events db1))) (close row)) as [He Hge].
    { rewrite Hdb1. apply lookup_insert_eq. }
    rewrite Hdb1, insert_insert_eq in He. eexists. split_and!; [exact He|by split; [tauto|]|].
    eapply grows_trans; [apply Hg1|]. eapply grows_weaken; [exact Hge|]. intros d Hq.
    apply andb_true_iff in Hb as [Hd Hm]. split_and!; [by destruct muted|done|done|]. destruct (ai_Status i); auto; done.
  - exists (close row). split_and!; [done|by split; [tauto|]|]. apply Hg1.
Qed.

Definition rowRearmed (i row row' : AlertInstance) : Prop :=
  row' = (if decide (ai_Fingerprint i ∈ seen) then row else setSuppressed false row).

Lemma rearm_row db i row :
  al_instances db !! ai_Id i = Some row →
  ∃ row', al_instances (rearm seen db i) = <[ai_Id i := row']> (al_instances db)
    ∧ rowRearmed i row row' ∧ grows (λ _, False) db (rearm seen db i).
Proof.
  intros Hrow. unfold rearm, rowRearmed. case_bool_decide as Hs.
  - exists row. rewrite insert_id, decide_True by auto. split_and!; [done|done|apply grows_refl].
  - eexists. rewrite decide_False by done. split_and!; [|done|exact (grows_same _ db _ _)]. cbn. by apply alter_known.
Qed.
End Observe.

(** ** One evaluation *)

(** What an evaluation may do to a row that existed. *)
Definition rowEvaluated (rule : AlertRule) (now : Z) (seen : gset string) (i i' : AlertInstance) : Prop :=
  sameRow i i'
  ∧ (ai_RuleId i ≠ ar_Id rule → i' = i)
  ∧ (ai_Status i = RESOLVED → ai_SuppressedUntilClear i = false → i' = i)
  ∧ (ai_RuleId i = ar_Id rule →
     ai_Status i' = (if decide (ai_Fingerprint i ∈ seen) then od_Next (decisionFor rule now i) else RESOLVED)
     ∧ ai_SuppressedUntilClear i' = ai_SuppressedUntilClear i && bool_decide (ai_Fingerprint i ∈ seen)).

(** The rule has an open alert, a silenced one, for a fingerprint. *)
Definition openFor (rule fp : string) (db : alertDB) : Prop :=
  ∃ id i, al_instances db !! id = Some i ∧ activeFor rule fp i.
Definition silencedFor (rule fp : string) (db : alertDB) : Prop :=
  ∃ id i, al_instances db !! id = Some i ∧ ai_RuleId i = rule ∧ ai_Fingerprint i = fp
    ∧ ai_SuppressedUntilClear i = true.

Record evaluation (rule : AlertRule) (channels : list string) (muted : bool) (now : Z) (seen : gset string)
    (db db' : alertDB) : Prop := {
  en_ok : dbOk db';
  en_old : ∀ id i, al_instances db !! id = Some i →
    ∃ i', al_instances db' !! id = Some i' ∧ rowEvaluated rule now seen i i';
  en_new : ∀ id i', al_instances db' !! id = Some i' → al_instances db !! id = None →
    ai_RuleId i' = ar_Id rule ∧ ai_ClusterId i' = ar_ClusterId rule ∧ ai_Fingerprint i' ∈ seen
    ∧ ~ openFor (ar_Id rule) (ai_Fingerprint i') db ∧ ~ silencedFor (ar_Id rule) (ai_Fingerprint i') db
    ∧ ai_Status i' = od_Next (firstDecision rule now) ∧ ai_SuppressedUntilClear i' = false ∧ ai_FirstSeenAt i' = now;
  en_made : ∀ fp, fp ∈ seen → ~ openFor (ar_Id rule) fp db → ~ silencedFor (ar_Id rule) fp db →
    ∃ id i', al_instances db' !! id = Some i' ∧ al_instances db !! id = None ∧ ai_Fingerprint i' = fp;
  en_grows : grows (λ d, firingPolicy rule channels muted now db seen d
      ∨ ∃ i, al_instances db !! ai_Id i = Some i ∧ ai_RuleId i = ar_Id rule ∧ recoveryPolicy channels muted seen i d)
    db db';
}.

Section Evaluation.
Context (rule : AlertRule) (channels : list string) (muted : bool) (now : Z) (clock : nat → Z).
Context (db : alertDB) (Hok : dbOk db) (seen : gset string).
Let by0 := byFingerprintOf (activeOf rule db).
Let sup0 := byFingerprintOf (suppressedOf rule db).

Lemma by0_open fp : by0 !! fp = None ↔ ~ openFor (ar_Id rule) fp db.
Proof.
  split.
  - intros Hn (id & i & Hi & Hr & Hf & Hs). apply Hs. by apply (by0_none rule db Hok fp id).
  - intros Hno. destruct (by0 !! fp) as [i|] eqn:E; [|done]. destruct Hno.
    destruct (by0_sound rule db Hok _ _ E) as (? & ? & ? & ?). by exists (ai_Id i), i.
Qed.
Lemma sup0_silenced fp : sup0 !! fp = None ↔ ~ silencedFor (ar_Id rule) fp db.
Proof.
  split.
  - intros Hn (id & i & Hi & Hr & Hf & Hs). destruct (byFingerprint_complete (suppressedOf rule db) i) as [k Hk].
    + apply (elem_suppressed rule db Hok). pose proof (dk_id _ Hok _ _ Hi) as ->.
      split_and!; [done..| |done]. exact (dk_sup _ Hok _ _ Hi Hs).
    + subst fp. unfold sup0 in Hn. congruence.
  - intros Hno. destruct (sup0 !! fp) as [i|] eqn:E; [|done]. destruct Hno.
    destruct (sup0_sound rule db Hok _ _ E) as (? & ? & ? & ? & ?). by exists (ai_Id i), i.
Qed.

(** The rows of the closing loops are those of [db]. *)
Lemma close_rows db1 by1 :
  observed rule channels muted now db seen db1 by1 →
  let db2 := foldl (rearm seen) (foldl (resolveMissing channels muted now clock seen) db1 (activeOf rule db))
               (suppressedOf rule db) in
  grows (λ d, ∃ i, i ∈ activeOf rule db ∧ recoveryPolicy channels muted seen i d) db1 db2
  ∧ (∀ id, is_Some (al_instances db1 !! id) → is_Some (al_instances db2 !! id))
  ∧ (∀ id r2, al_instances db2 !! id = Some r2 → ∃ r1, al_instances db1 !! id = Some r1
      ∧ match al_instances db !! id with
        | None => r2 = r1
        | Some i => ∃ rm, (if decide (ai_RuleId i = ar_Id rule ∧ ai_Status i ≠ RESOLVED) then rowClosed now seen i r1 rm else rm = r1)
            ∧ (if decide (ai_RuleId i = ar_Id rule ∧ ai_Status i = RESOLVED ∧ ai_SuppressedUntilClear i = true)
               then rowRearmed seen i rm r2 else r2 = rm)
        end).
Proof.
  intros Hobs. cbn.
  assert (∀ i, al_instances db !! ai_Id i = Some i → is_Some (al_instances db1 !! ai_Id i)) as Hin.
  { intros i Hi. destruct (ob_old _ _ _ _ _ _ _ _ Hobs _ _ Hi) as (i1 & -> & _). done. }
  destruct (foldl_touch _ _ _ (resolveMissing_row channels muted now clock seen) (activeOf rule db) db1)
    as (Hg1 & Hr1 & Hd1).
  { apply filter_ids, candidates_ids, Hok. }
  { intros i Hi. apply Hin. by apply (elem_active rule db Hok). }
  set (dbm := foldl (resolveMissing channels muted now clock seen) db1 (activeOf rule db)) in *.
  destruct (foldl_touch _ _ _ (rearm_row seen) (suppressedOf rule db) dbm) as (Hg2 & Hr2 & Hd2).
  { apply filter_ids, candidates_ids, Hok. }
  { intros i Hi. apply Hd1, Hin. by apply (elem_suppressed rule db Hok). }
  split_and!; [|by auto|].
  - eapply grows_trans; [exact Hg1|]. eapply grows_weaken; [exact Hg2|]. by intros d (i & _ & []).
  - intros id r2 H2. destruct (Hr2 _ _ H2) as (rm & Hm & HR2 & Hk2). destruct (Hr1 _ _ Hm) as (r1 & H1 & HR1 & Hk1).
    exists r1. split; [done|]. destruct (al_instances db !! id) as [i|] eqn:Hi.
    + pose proof (dk_id _ Hok _ _ Hi) as <-. exists rm. split.
      * case_decide as Hc; [apply HR1; [|done]; apply (elem_active rule db Hok); tauto|].
        apply Hk1. intros j Hj E. apply (elem_active rule db Hok) in Hj as (Hj & ? & ?). rewrite E, Hi in Hj.
        apply (inj Some) in Hj as <-. tauto.
      * case_decide as Hc; [apply HR2; [|done]; apply (elem_suppressed rule db Hok); tauto|].
        apply Hk2. intros j Hj E. apply (elem_suppressed rule db Hok) in Hj as (Hj & ? & ? & ?). rewrite E, Hi in Hj.
        apply (inj Some) in Hj as <-. tauto.
    + rewrite Hk2; [apply Hk1|].
      * intros j Hj E. apply (elem_active rule db Hok) in Hj as (Hj & _). congruence.
      * intros j Hj E. apply (elem_suppressed rule db Hok) in Hj as (Hj & _). congruence.
Qed.

(** One row through the three loops. *)
Lemma rowEvaluated_intro i r1 rm r2 :
  al_instances db !! ai_Id i = Some i →
  rowSeen rule now seen i r1 →
  (if decide (ai_RuleId i = ar_Id rule ∧ ai_Status i ≠ RESOLVED) then rowClosed now seen i r1 rm else rm = r1) →
  (if decide (ai_RuleId i = ar_Id rule ∧ ai_Status i = RESOLVED ∧ ai_SuppressedUntilClear i = true)
   then rowRearmed seen i rm r2 else r2 = rm) →
  rowEvaluated rule now seen i r2.
Proof.
  intros Hi (Hsame & Hsup & Hst & Heq) H1 H2. pose proof (dk_sup _ Hok _ _ Hi) as Hinv.
  destruct (decide (ai_RuleId i = ar_Id rule)) as [Hr|Hr].
  2:{ rewrite decide_False in H1 by tauto. rewrite decide_False in H2 by tauto. subst. rewrite Heq by tauto. by split_and!. }
  destruct (decide (ai_Status i = RESOLVED)) as [Hs|Hs].
  - rewrite decide_False in H1 by tauto. subst rm.
    assert (ai_Status r1 = RESOLVED) as Hs1.
    { clear H2. rewrite Hst. clear Hst. case_decide; [|done]. unfold decisionFor. by rewrite Hs. }
    destruct (ai_SuppressedUntilClear i) eqn:Hu.
    + rewrite decide_True in H2 by done. unfold rowRearmed in H2. unfold rowEvaluated. rewrite Hu. subst r2.
      destruct (decide (ai_Fingerprint i ∈ seen)) as [Hin|Hin].
      * rewrite (bool_decide_eq_true_2 _ Hin). split_and!; [done..|]. intros _. rewrite Hst, decide_True by done. done.
      * rewrite (bool_decide_eq_false_2 _ Hin). split_and!; [done..|]. intros _. done.
    + rewrite decide_False in H2 by (intros (_ & _ & ?); done). subst r2.
      rewrite Heq in * by tauto. unfold rowEvaluated. rewrite Hu. split_and!; [done..|]. intros _. split; [|done].
      clear Hst. case_decide; [|done]. unfold decisionFor. by rewrite Hs.
  - rewrite decide_True in H1 by done. rewrite decide_False in H2 by tauto. subst r2. destruct H1 as [Hkeep Hclose].
    assert (ai_SuppressedUntilClear i = false) as Hu by (destruct (ai_SuppressedUntilClear i); [by destruct Hs; apply Hinv|done]).
    unfold rowEvaluated. rewrite Hu. destruct (decide (ai_Fingerprint i ∈ seen)) as [Hin|Hin].
    + rewrite Hkeep by tauto. split_and!; [done..|]. intros _. rewrite Hst, decide_True by done. by rewrite Hsup.
    + destruct (Hclose Hin Hs) as (Hsame' & Hsup' & Hst' & _). split_and!; [by eapply sameRow_trans|done..|].
      intros _. rewrite Hsup', Hsup. done.
Qed.

Lemma evaluation_intro db1 by1 :
  observed rule channels muted now db seen db1 by1 →
  evaluation rule channels muted now seen db
    (foldl (rearm seen) (foldl (resolveMissing channels muted now clock seen) db1 (activeOf rule db))
       (suppressedOf rule db)).
Proof.
  intros Hobs. destruct (close_rows db1 by1 Hobs) as (Hg & Hdom & Hrows). set (db2 := foldl (rearm seen) _ _) in *.
  assert (∀ id i, al_instances db !! id = Some i →
    ∃ i', al_instances db2 !! id = Some i' ∧ rowEvaluated rule now seen i i') as Hold.
  { intros id i Hi. destruct (ob_old _ _ _ _ _ _ _ _ Hobs _ _ Hi) as (r1 & Hr1 & Hseen).
    destruct (Hdom id) as [r2 Hr2]; [by rewrite Hr1|]. exists r2. split; [done|].
    destruct (Hrows _ _ Hr2) as (r1' & Hr1' & Hm). rewrite Hi in Hm. rewrite Hr1 in Hr1'. apply (inj Some) in Hr1' as <-.
    destruct Hm as (rm & H1 & H2). pose proof (dk_id _ Hok _ _ Hi) as <-. by eapply rowEvaluated_intro. }
  assert (∀ id i', al_instances db2 !! id = Some i' → al_instances db !! id = None → al_instances db1 !! id = Some i') as Hnew.
  { intros id i' H Hn. destruct (Hrows _ _ H) as (r1 & Hr1 & Hm). rewrite Hn in Hm. by subst. }
  split; [|done| | |].
  - eapply dbOk_rows; [exact (ob_ok _ _ _ _ _ _ _ _ Hobs)|exact Hg| |exact Hdom|].
    2:{ intros d (i & Hi & (_ & (-> & _) & _)). apply (elem_active rule db Hok) in Hi as (Hi & _).
        destruct (Hold _ _ Hi) as (i' & -> & _). done. }
    intros id r2 H2.
    destruct (Hrows _ _ H2) as (r1 & Hr1 & Hm). exists r1. split; [done|].
    destruct (al_instances db !! id) as [i|] eqn:Hi; [|subst; auto].
    destruct Hm as (rm & H1 & H2').
    assert (sameRow r1 rm ∧ ai_SuppressedUntilClear rm = ai_SuppressedUntilClear r1
      ∧ (rm = r1 ∨ ai_Status rm = RESOLVED)) as (A1 & A2 & A3).
    { clear - H1. case_decide as Hc; [|by subst; auto]. destruct (decide (ai_Fingerprint i ∈ seen)) as [Hin|Hin].
      - destruct H1 as [-> _]; auto.
      - destruct H1 as [_ H1]. destruct H1 as (?&?&?&?); tauto. }
    assert (sameRow rm r2 ∧ ai_Status r2 = ai_Status rm
      ∧ (ai_SuppressedUntilClear r2 = true → ai_SuppressedUntilClear rm = true)) as (B1 & B2 & B3).
    { clear - H2'. case_decide; [|by subst]. unfold rowRearmed in H2'. case_decide; by subst. }
    split_and!; [by eapply sameRow_trans| |].
    + intros E. rewrite B2. destruct A3 as [-> | ->]; done.
    + intros E. left. rewrite <- A2. auto.
  - intros id i' H Hn. destruct (ob_new _ _ _ _ _ _ _ _ Hobs id i' (Hnew _ _ H Hn) Hn) as (? & ? & ? & Hb & Hs & ? & ? & ?).
    split_and!; [done..| | |done|done|done].
    + by apply by0_open.
    + by apply sup0_silenced.
  - intros fp Hin Hb Hs. destruct (ob_made _ _ _ _ _ _ _ _ Hobs fp Hin) as (id & i & Hi & Hn & Hf);
      [by apply by0_open|by apply sup0_silenced|].
    destruct (Hdom id) as [i' Hi']; [by rewrite Hi|]. exists id, i'. split_and!; [done|done|].
    pose proof (Hnew _ _ Hi' Hn). congruence.
  - eapply grows_trans.
    + eapply grows_weaken; [exact (ob_grows _ _ _ _ _ _ _ _ Hobs)|]. auto.
    + eapply grows_weaken; [exact Hg|]. intros d (i & Hi & Hp). apply (elem_active rule db Hok) in Hi as (? & ? & _).
      right. by exists i.
Qed.
End Evaluation.

Lemma string_app_inj (p a b : string) : p +:+ a = p +:+ b → a = b.
Proof. induction p as [|c p IH]; cbn; [done|]. intros H. injection H. exact IH. Qed.

Lemma fingerprint_inj kind a b : Fingerprint kind a = Fingerprint kind b → a = b.
Proof. unfold Fingerprint. intros H%string_app_inj. by apply (string_app_inj "/") in H. Qed.

(** The fingerprints of the observations of a rule. *)
Definition seenOf (rule : AlertRule) (observations : list Observation) : gset string :=
  list_to_set (map (λ o, Fingerprint (ar_Kind rule) (ob_Key o)) observations).

Lemma evaluate_rule_spec rule channels muted now clock observations db :
  dbOk db → ValidateRuleTimers (ar_ForSeconds rule) (ar_CooldownSeconds rule) = None →
  NoDup (map ob_Key observations) →
  ∃ db', evaluateRule rule channels muted now clock (Some (Ok observations)) db = Ok db'
    ∧ evaluation rule channels muted now (seenOf rule observations) db db'.
Proof.
  intros Hok Ht Hnd. unfold evaluateRule. rewrite Ht. cbn [mbind result_bind].
  destruct (observe_all rule channels muted now clock db Hok observations ∅ db (byFingerprintOf (activeOf rule db)))
    as (db1 & by1 & -> & Hobs).
  - by apply observed_start.
  - rewrite <- (map_map ob_Key (Fingerprint (ar_Kind rule))). apply (NoDup_fmap_2_strong _); [|done].
    intros a b _ _. apply fingerprint_inj.
  - set_solver.
  - rewrite (right_id_L ∅ (∪)) in Hobs. eexists. split; [reflexivity|]. by eapply evaluation_intro.
Qed.

(** ** Deliveries *)

(** A delivery within its retry budget. *)
Definition deliveryOk (d : AlertDelivery) : Prop :=
  0 ≤ ad_Attempts d ≤ deliveryMaxAttempts ∧ (ad_Status d = DeliveryPENDING → ad_Attempts d < deliveryMaxAttempts).

(** What may happen to a delivery. *)
Definition deliveryStep (d d' : AlertDelivery) : Prop :=
  ad_InstanceId d' = ad_InstanceId d ∧ ad_ChannelId d' = ad_ChannelId d ∧ ad_Kind d' = ad_Kind d
  ∧ ad_Attempts d ≤ ad_Attempts d' ∧ (ad_Status d ≠ DeliveryPENDING → d' = d) ∧ (deliveryOk d → deliveryOk d').

Lemma deliveryStep_refl d : deliveryStep d d.
Proof. unfold deliveryStep. intuition lia. Qed.
Lemma deliveryStep_trans d1 d2 d3 : deliveryStep d1 d2 → deliveryStep d2 d3 → deliveryStep d1 d3.
Proof.
  intros (A1 & A2 & A3 & A4 & A5 & A6) (B1 & B2 & B3 & B4 & B5 & B6).
  unfold deliveryStep. split_and!; try congruence; [lia| |auto].
  intros H. pose proof (A5 H) as ->. auto.
Qed.

(** Every delivery of [db] makes a step, and no other appears. *)
Definition deliveriesStep (db db' : alertDB) : Prop :=
  al_instances db' = al_instances db ∧ al_next db' = al_next db
  ∧ (∀ n d', al_deliveries db' !! n = Some d' → ∃ d, al_deliveries db !! n = Some d ∧ deliveryStep d d')
  ∧ (∀ n d, al_deliveries db !! n = Some d → ∃ d', al_deliveries db' !! n = Some d' ∧ deliveryStep d d').

Lemma deliveriesStep_refl db : deliveriesStep db db.
Proof. split_and!; eauto using deliveryStep_refl. Qed.
Lemma deliveriesStep_trans db1 db2 db3 : deliveriesStep db1 db2 → deliveriesStep db2 db3 → deliveriesStep db1 db3.
Proof.
  intros (A1 & A2 & A3 & A4) (B1 & B2 & B3 & B4). split_and!; [congruence..| |].
  - intros n d3 H. destruct (B3 _ _ H) as (d2 & H2 & S2). destruct (A3 _ _ H2) as (d1 & H1 & S1).
    eauto using deliveryStep_trans.
  - intros n d1 H. destruct (A4 _ _ H) as (d2 & H2 & S2). destruct (B4 _ _ H2) as (d3 & H3 & S3).
    eauto using deliveryStep_trans.
Qed.

Lemma update_step db id f :
  (∀ d, al_deliveries db !! id = Some d → deliveryStep d (f d)) → deliveriesStep db (updateDelivery db id f).
Proof.
  intros Hf. split_and!; [done|done| |]; cbn; intros n d H; destruct (decide (n = id)) as [->|Hne].
  - rewrite lookup_alter_eq in H. destruct (al_deliveries db !! id) as [d0|] eqn:E; [|done].
    apply (inj Some) in H as <-. eauto.
  - rewrite lookup_alter_ne in H by done. eauto using deliveryStep_refl.
  - rewrite lookup_alter_eq, H. cbn. eauto.
  - rewrite lookup_alter_ne by done. eauto using deliveryStep_refl.
Qed.

Lemma deliver_step db id a outcome t d :
  al_deliveries db !! id = Some d → ad_Status d = DeliveryPENDING → ad_Attempts d = a →
  deliveriesStep db (deliverOne db id (a + 1) outcome t).
Proof.
  intros Hd Hs Ha.
  assert (∀ sent cause permanent, deliveriesStep db (finishDelivery db id (a + 1) sent cause permanent t)) as Hfin.
  { intros sent cause permanent. unfold finishDelivery. destruct sent; apply update_step; intros d'; rewrite Hd;
      intros E; apply (inj Some) in E as <-; unfold deliveryStep, deliveryOk, deliveryMaxAttempts; cbn;
      rewrite Hs, Ha; split_and!; try done; try lia.
    - intros [H1 H2]. split; [|done]. specialize (H2 eq_refl). lia.
    - intros [H1 H2]. specialize (H2 eq_refl). split; [lia|]. destruct permanent; cbn; [done|].
      destruct (Z.leb_spec 5 (a + 1)); [done|]. intros _. lia. }
  unfold deliverOne. destruct outcome; auto using deliveriesStep_refl.
Qed.

Lemma update_other db id f n : n ≠ id → al_deliveries (updateDelivery db id f) !! n = al_deliveries db !! n.
Proof. intros H. cbn. by rewrite lookup_alter_ne. Qed.

Lemma deliver_other db id a outcome t n :
  n ≠ id → al_deliveries (deliverOne db id a outcome t) !! n = al_deliveries db !! n.
Proof. intros H. unfold deliverOne, finishDelivery. destruct outcome; try done; by apply update_other. Qed.

Lemma deliver_all (outcomes : N → sendOutcome * Z) rows : ∀ db,
  NoDup rows.*1 →
  (∀ id a, (id, a) ∈ rows → ∃ d, al_deliveries db !! id = Some d ∧ ad_Status d = DeliveryPENDING ∧ ad_Attempts d = a) →
  deliveriesStep db (foldl (λ db '(id, attempts), deliverOne db id (attempts + 1) (outcomes id).1 (outcomes id).2) db rows).
Proof.
  induction rows as [|[id a] rows IH]; intros db Hnd Hrows; cbn [foldl]; [apply deliveriesStep_refl|].
  cbn in Hnd. apply list.NoDup_cons in Hnd as [Hni Hnd].
  destruct (Hrows id a) as (d & Hd & Hs & Ha); [set_solver|].
  eapply deliveriesStep_trans; [by eapply deliver_step|]. apply IH; [done|].
  intros id' a' Hin. rewrite deliver_other; [apply Hrows; set_solver|].
  intros ->. apply Hni. exact (list_elem_of_fmap_2 fst rows (id, a') Hin).
Qed.

Lemma hide_all until (rows : list (N * AlertDelivery)) : ∀ db,
  (∀ x d, x ∈ rows → al_deliveries db !! x.1 = Some d → ad_Status d = DeliveryPENDING) →
  let db' := foldl (λ db (x : N * AlertDelivery), updateDelivery db x.1 (hideDelivery until)) db rows in
  deliveriesStep db db'
  ∧ ∀ n d, al_deliveries db !! n = Some d →
      ∃ d', al_deliveries db' !! n = Some d' ∧ ad_Status d' = ad_Status d ∧ ad_Attempts d' = ad_Attempts d.
Proof.
  induction rows as [|[id r] rows IH]; intros db Hp; cbn [foldl fst].
  { split; [apply deliveriesStep_refl|eauto]. }
  set (db1 := updateDelivery db id (hideDelivery until)).
  assert (∀ n d1, al_deliveries db1 !! n = Some d1 → ∃ d, al_deliveries db !! n = Some d
    ∧ ad_Status d1 = ad_Status d ∧ ad_Attempts d1 = ad_Attempts d) as Hback.
  { intros n d1 H. unfold db1 in H. cbn in H. apply lookup_alter_Some in H as [(-> & d & Hd & ->)|[_ H]]; eauto. }
  assert (∀ n d, al_deliveries db !! n = Some d → ∃ d1, al_deliveries db1 !! n = Some d1
    ∧ ad_Status d1 = ad_Status d ∧ ad_Attempts d1 = ad_Attempts d) as Hfwd.
  { intros n d H. unfold db1. cbn. destruct (decide (n = id)) as [->|Hne].
    - rewrite lookup_alter_eq, H. cbn. eauto.
    - rewrite lookup_alter_ne by done. eauto. }
  destruct (IH db1) as [Hs Hk].
  { intros x d1 Hx H1. destruct (Hback _ _ H1) as (d & Hd & -> & _). apply (Hp x d); [set_solver|done]. }
  split.
  - eapply deliveriesStep_trans; [|exact Hs]. apply update_step. intros d Hd.
    unfold deliveryStep. cbn. split_and!; try done. intros Hnp. destruct Hnp.
    apply (Hp (id, r) d); [set_solver|done].
  - intros n d Hd. destruct (Hfwd _ _ Hd) as (d1 & H1 & E1 & E2). destruct (Hk _ _ H1) as (d2 & H2 & E3 & E4).
    exists d2. split_and!; [done|congruence|congruence].
Qed.

Lemma claim_step db now :
  deliveriesStep db (claimDeliveries db now).1 ∧ NoDup (claimDeliveries db now).2.*1
  ∧ ∀ id a, (id, a) ∈ (claimDeliveries db now).2 → ∃ d, al_deliveries (claimDeliveries db now).1 !! id = Some d
      ∧ ad_Status d = DeliveryPENDING ∧ ad_Attempts d = a.
Proof.
  unfold claimDeliveries. set (due := filter _ (map_to_list _)). set (rows := take _ _). cbn [fst snd].
  assert (rows `sublist_of` merge_sort rowOrder due) as Hsub by apply sublist_take.
  assert (∀ x, x ∈ rows → al_deliveries db !! x.1 = Some x.2 ∧ ad_Status x.2 = DeliveryPENDING) as Hin.
  { intros [id d] H. apply (elem_of_sublist _ _ _ H) in Hsub as H'. clear H. rename H' into H. rewrite (merge_sort_Permutation rowOrder) in H.
    apply list_elem_of_filter in H as [[Hs _] H]. apply elem_of_map_to_list in H. done. }
  assert (NoDup rows.*1) as Hnd.
  { eapply sublist_NoDup; [|apply fmap_sublist, Hsub].
    rewrite (merge_sort_Permutation rowOrder). eapply sublist_NoDup; [apply (NoDup_fst_map_to_list (al_deliveries db))|].
    apply fmap_sublist, sublist_filter. }
  clearbody rows. destruct (hide_all (now + deliveryClaimWindow) rows db) as [Hs Hk].
  { intros x d Hx Hd. destruct (Hin x Hx) as [Hd' Hp]. congruence. }
  split_and!; [done| |].
  - rewrite <- list_fmap_compose. exact Hnd.
  - intros id a ([n d] & [= -> ->] & Hx)%list_elem_of_fmap. cbn. destruct (Hin _ Hx) as [Hd Hp].
    destruct (Hk _ _ Hd) as (d' & ? & ? & ?). exists d'. split_and!; [done|congruence|done].
Qed.

Lemma flush_step db now outcomes : deliveriesStep db (flushDeliveries db now outcomes).
Proof.
  unfold flushDeliveries. destruct (claim_step db now) as (Hs & Hnd & Hrows). destruct (claimDeliveries db now) as [db1 rows].
  eapply deliveriesStep_trans; [exact Hs|]. by apply deliver_all.
Qed.

(** ** The theorems *)

Section Consequences.
Context (rule : AlertRule) (channels : list string) (muted : bool) (now : Z) (seen : gset string) (db db' : alertDB).
Context (Hev : evaluation rule channels muted now seen db db').

Lemma evaluation_open fp :
  openFor (ar_Id rule) fp db' ↔ fp ∈ seen ∧ (openFor (ar_Id rule) fp db ∨ ~ silencedFor (ar_Id rule) fp db).
Proof.
  destruct Hev as [_ Hold Hnew Hmade _]. split.
  - intros (id & i' & Hi' & Hr & Hf & Hs). destruct (al_instances db !! id) as [i|] eqn:Hi.
    + destruct (Hold _ _ Hi) as (i2 & Hi2 & (_ & Er & _ & Ef & _) & _ & _ & Hst). rewrite Hi' in Hi2. apply (inj Some) in Hi2 as <-.
      rewrite Er in Hr. destruct (Hst Hr) as [Est _]. rewrite <- Hf, Ef. case_decide as Hin; [|by rewrite Est in Hs].
      split; [done|]. left. exists id, i. split; [done|]. split_and!; [done|done|]. intros E. apply Hs. rewrite Est.
      by apply decideObserved_resolved.
    + destruct (Hnew _ _ Hi' Hi) as (_ & _ & Hin & _ & Hns & _). rewrite <- Hf. auto.
  - intros [Hin Hor]. destruct (decide (map_Exists (λ _ i, activeFor (ar_Id rule) fp i) (al_instances db))) as [Hex|Hno].
    + destruct Hex as (id & i & Hi & Hr & Hf & Hs). destruct (Hold _ _ Hi) as (i' & Hi' & (_ & Er & _ & Ef & _) & _ & _ & Hst).
      exists id, i'. split; [done|]. destruct (Hst Hr) as [Est _]. split_and!; [congruence|congruence|].
      rewrite Est, Hf, decide_True by done. intros E. apply Hs. by apply decideObserved_resolved in E.
    + assert (~ openFor (ar_Id rule) fp db) as Hno'.
      { intros (id & i & Hi & Ha). apply Hno. by exists id, i. }
      destruct (Hmade fp Hin Hno') as (id & i' & Hi' & Hn & Hf); [tauto|].
      destruct (Hnew _ _ Hi' Hn) as (Hr & _ & _ & _ & _ & Hst & _). exists id, i'. split; [done|]. split_and!; [done|done|].
      rewrite Hst. unfold firstDecision. by intros E%decideObserved_resolved.
Qed.

Lemma evaluation_silenced fp : silencedFor (ar_Id rule) fp db' ↔ silencedFor (ar_Id rule) fp db ∧ fp ∈ seen.
Proof.
  destruct Hev as [_ Hold Hnew _ _]. split.
  - intros (id & i' & Hi' & Hr & Hf & Hs). destruct (al_instances db !! id) as [i|] eqn:Hi.
    + destruct (Hold _ _ Hi) as (i2 & Hi2 & (_ & Er & _ & Ef & _) & _ & _ & Hst). rewrite Hi' in Hi2. apply (inj Some) in Hi2 as <-.
      rewrite Er in Hr. destruct (Hst Hr) as [_ Esu]. rewrite Hs in Esu. symmetry in Esu.
      apply andb_true_iff in Esu as [E1 E2%bool_decide_eq_true]. split; [|congruence]. exists id, i. split_and!; congruence.
    + destruct (Hnew _ _ Hi' Hi) as (_ & _ & _ & _ & _ & _ & E & _). congruence.
  - intros [(id & i & Hi & Hr & Hf & Hs) Hin]. destruct (Hold _ _ Hi) as (i' & Hi' & (_ & Er & _ & Ef & _) & _ & _ & Hst).
    destruct (Hst Hr) as [_ Esu]. exists id, i'. split_and!; [done|congruence|congruence|].
    rewrite Esu, Hs, Hf. by apply bool_decide_eq_true_2.
Qed.
End Consequences.

(** The status of an alert that is seen for the first time. *)
Lemma firstDecision_status rule now :
  od_Next (firstDecision rule now) = (if 0 <? ar_ForSeconds rule then PENDING else FIRING).
Proof.
  unfold firstDecision, decideObserved, secondNs.
  destruct (Z.ltb_spec 0 (ar_ForSeconds rule)); destruct (Z.leb_spec (ar_ForSeconds rule * 10 ^ 9) (now - now));
    cbn [od_Next]; try done; lia.
Qed.

(** C6. Evaluating a rule succeeds, keeps the tables well formed, and makes the
    open alerts of the rule exactly the observed conditions, except those
    resolved by hand that were never seen to clear: as sets of fingerprints,
    open' = seen ∩ (open ∪ not silenced) and silenced' = silenced ∩ seen.  The
    rows of other rules, and alerts long closed, are untouched; each row of the
    rule moves as the decision tables say. *)
Theorem evaluate_tracks_conditions rule channels muted now clock observations db :
  dbOk db → ValidateRuleTimers (ar_ForSeconds rule) (ar_CooldownSeconds rule) = None →
  NoDup (map ob_Key observations) →
  ∃ db', evaluateRule rule channels muted now clock (Some (Ok observations)) db = Ok db'
    ∧ dbOk db'
    ∧ (∀ fp, openFor (ar_Id rule) fp db' ↔
         fp ∈ seenOf rule observations ∧ (openFor (ar_Id rule) fp db ∨ ~ silencedFor (ar_Id rule) fp db))
    ∧ (∀ fp, silencedFor (ar_Id rule) fp db' ↔ silencedFor (ar_Id rule) fp db ∧ fp ∈ seenOf rule observations)
    ∧ (∀ id i, al_instances db !! id = Some i →
         ∃ i', al_instances db' !! id = Some i' ∧ rowEvaluated rule now (seenOf rule observations) i i')
    ∧ (∀ id i', al_instances db' !! id = Some i' → al_instances db !! id = None →
         ai_RuleId i' = ar_Id rule ∧ ai_Status i' = (if 0 <? ar_ForSeconds rule then PENDING else FIRING)).
Proof.
  intros Hok Ht Hnd. destruct (evaluate_rule_spec rule channels muted now clock observations db Hok Ht Hnd) as (db' & He & Hev).
  exists db'. split_and!; [done|by apply (en_ok _ _ _ _ _ _ _ Hev)| | |by apply (en_old _ _ _ _ _ _ _ Hev)|].
  - by eapply evaluation_open.
  - by eapply evaluation_silenced.
  - intros id i' Hi' Hn. destruct (en_new _ _ _ _ _ _ _ Hev _ _ Hi' Hn) as (Hr & _ & _ & _ & _ & Hst & _).
    by rewrite Hst, firstDecision_status.
Qed.

(** Why a firing notification goes out: the condition has lasted long enough
    for the first time, or the cooldown since the last one is over. *)
Definition firingDue (rule : AlertRule) (now : Z) (before : option AlertInstance) : Prop :=
  match before with
  | None => ar_ForSeconds rule ≤ 0
  | Some i =>
      (ai_Status i = PENDING ∧ ar_ForSeconds rule * secondNs ≤ now - ai_FirstSeenAt i)
      ∨ (ai_Status i = FIRING
         ∧ match ai_LastNotifiedAt i with None => True | Some t => ar_CooldownSeconds rule * secondNs ≤ now - t end)
  end.

Lemma notify_due rule now i : od_Notify (decisionFor rule now i) = true →
  firingDue rule now (Some i) ∧ od_Next (decisionFor rule now i) = FIRING.
Proof.
  unfold decisionFor, decideObserved, firingDue. destruct (ai_Status i); cbn; try done.
  - destruct (Z.leb_spec (ar_ForSeconds rule * secondNs) (now - ai_FirstSeenAt i)); cbn; [auto|done].
  - intros H. split; [|done]. right. split; [done|]. destruct (ai_LastNotifiedAt i); [|done]. by apply Z.leb_le.
Qed.

Lemma first_due rule now : od_Notify (firstDecision rule now) = true →
  firingDue rule now None ∧ od_Next (firstDecision rule now) = FIRING.
Proof.
  unfold firstDecision, decideObserved, firingDue, secondNs.
  destruct (Z.leb_spec (ar_ForSeconds rule * 10 ^ 9) (now - now)); cbn; [|done]. intros _. split; [lia|done].
Qed.

(** Every delivery an evaluation adds is unsent, goes to a channel of the rule
    while the rule is not muted, and is either a firing notice for an alert of
    the rule that is FIRING afterwards and whose wait or cooldown is over, or a
    recovery notice for an alert that had fired and is RESOLVED afterwards
    because its condition is gone.  So silenced and acknowledged alerts cause
    no firing notice and alerts that never fired no recovery notice. *)
Theorem evaluate_notifies rule channels muted now clock observations db db' :
  dbOk db → ValidateRuleTimers (ar_ForSeconds rule) (ar_CooldownSeconds rule) = None →
  NoDup (map ob_Key observations) →
  evaluateRule rule channels muted now clock (Some (Ok observations)) db = Ok db' →
  ∀ n d, al_deliveries db' !! n = Some d → al_deliveries db !! n ≠ Some d →
    muted = false ∧ ad_ChannelId d ∈ channels ∧ ad_Status d = DeliveryPENDING ∧ ad_Attempts d = 0
    ∧ ∃ i', al_instances db' !! ad_InstanceId d = Some i' ∧ ai_RuleId i' = ar_Id rule
      ∧ ((ad_Kind d = "firing" ∧ ai_Status i' = FIRING ∧ ai_Fingerprint i' ∈ seenOf rule observations
          ∧ firingDue rule now (al_instances db !! ad_InstanceId d))
         ∨ (ad_Kind d = "recovery" ∧ ai_Status i' = RESOLVED ∧ ai_Fingerprint i' ∉ seenOf rule observations
            ∧ ∃ i, al_instances db !! ad_InstanceId d = Some i
              ∧ (ai_Status i = FIRING ∨ ai_Status i = ACKNOWLEDGED))).
Proof.
  intros Hok Ht Hnd He. destruct (evaluate_rule_spec rule channels muted now clock observations db Hok Ht Hnd) as (db2 & He2 & Hev).
  rewrite He in He2. injection He2 as <-. intros n d Hd Hnew.
  pose proof (dk_ref _ (en_ok _ _ _ _ _ _ _ Hev) _ _ Hd) as [i' Hi'].
  destruct (gr_new _ _ _ (en_grows _ _ _ _ _ _ _ Hev) _ _ Hd) as [?|[(Hm & (_ & Hk & Hc & Hs & Ha) & Hp)|Hrec]]; [done| |].
  - split_and!; [done..|]. exists i'. destruct (al_instances db !! ad_InstanceId d) as [i|] eqn:Hi.
    + destruct Hp as (Hr & Hin & Hn). destruct (en_old _ _ _ _ _ _ _ Hev _ _ Hi) as (i2 & Hi2 & (_ & Er & _ & Ef & _) & _ & _ & Hst).
      rewrite Hi' in Hi2. apply (inj Some) in Hi2 as <-. destruct (notify_due _ _ _ Hn) as [Hdue Hf].
      split_and!; [done|congruence|]. left. rewrite (proj1 (Hst Hr)), decide_True, Ef by done. done.
    + destruct (en_new _ _ _ _ _ _ _ Hev _ _ Hi' Hi) as (Hr & _ & Hin & _ & _ & Hst & _).
      destruct (first_due _ _ Hp) as [Hdue Hf]. split_and!; [done|done|]. left. rewrite Hst. done.
  - destruct Hrec as (i & Hi & Hr & Hm & (E & Hk & Hc & Hs & Ha) & Hin & Hfired). rewrite E in *.
    split_and!; [done..|]. exists i'. destruct (en_old _ _ _ _ _ _ _ Hev _ _ Hi) as (i2 & Hi2 & (_ & Er & _ & Ef & _) & _ & _ & Hst).
    rewrite Hi' in Hi2. apply (inj Some) in Hi2 as <-. split_and!; [done|congruence|]. right.
    rewrite (proj1 (Hst Hr)), decide_False, Ef by done. split_and!; [done..|]. by exists i.
Qed.

(** ** Runs *)

(** A transaction of the engine or of an operator. *)
Inductive alertStep (db : alertDB) : alertDB → Prop :=
| StepEvaluate rule channels muted now clock observations db' :
    NoDup (map ob_Key observations) →
    evaluateRule rule channels muted now clock (Some (Ok observations)) db = Ok db' → alertStep db db'
| StepAcknowledge cluster id user now db' : Acknowledge db cluster id user now = Ok db' → alertStep db db'
| StepResolve cluster id reason now db' : Resolve db cluster id reason now = Ok db' → alertStep db db'
| StepFlush now outcomes : alertStep db (flushDeliveries db now outcomes).

(** What every step does to the rows and to the deliveries. *)
Definition alertEffect (moves : AlertStatus → AlertStatus → Prop) (db db' : alertDB) : Prop :=
  dbOk db'
  ∧ (∀ id i, al_instances db !! id = Some i →
       ∃ i', al_instances db' !! id = Some i' ∧ sameRow i i' ∧ moves (ai_Status i) (ai_Status i'))
  ∧ (∀ n d, al_deliveries db !! n = Some d → ∃ d', al_deliveries db' !! n = Some d' ∧ deliveryStep d d')
  ∧ (∀ n d', al_deliveries db' !! n = Some d' → al_deliveries db !! n = None → deliveryOk d').

(** One step moves a status at most once. *)
Definition legalOnce (s s' : AlertStatus) : Prop := s = s' ∨ legal s s'.
Lemma alertEffect_runs db db' : alertEffect legalOnce db db' → alertEffect (rtc legal) db db'.
Proof.
  intros (A1 & A2 & A3). split_and!; [done| |apply A3|apply A3]. intros id i Hi. destruct (A2 _ _ Hi) as (i' & Hi' & Hs & [E|Hl]); exists i'.
  - split_and!; [done|done|]. rewrite E. apply rtc_refl.
  - split_and!; [done|done|by apply rtc_once].
Qed.
Lemma alertEffect_trans db1 db2 db3 :
  alertEffect legalOnce db1 db2 → alertEffect (rtc legal) db2 db3 → alertEffect (rtc legal) db1 db3.
Proof.
  intros (A1 & A2 & A3 & A4) (B1 & B2 & B3 & B4). split_and!; [done| | |].
  - intros id i1 H1. destruct (A2 _ _ H1) as (i2 & H2 & S2 & L2). destruct (B2 _ _ H2) as (i3 & H3 & S3 & L3).
    exists i3. split_and!; [done|by eapply sameRow_trans|]. destruct L2 as [->|L2]; [done|by eapply rtc_l].
  - intros n d1 H1. destruct (A3 _ _ H1) as (d2 & H2 & S2). destruct (B3 _ _ H2) as (d3 & H3 & S3).
    eauto using deliveryStep_trans.
  - intros n d3 H3 H1. destruct (al_deliveries db2 !! n) as [d2|] eqn:H2; [|eauto].
    destruct (B3 _ _ H2) as (d & Hd & (_ & _ & _ & _ & _ & Hk)). rewrite H3 in Hd. apply (inj Some) in Hd as <-. eauto.
Qed.

(** A manual operation that changes one row along a legal transition. *)
Lemma manual_effect db cluster id mutate event payload db' :
  dbOk db → mutateInstance db cluster id mutate event payload = Ok db' →
  (∀ i set next, mutate i = Ok (set, next) → sameRow i (set i) ∧ legalOnce (ai_Status i) (ai_Status (set i))
     ∧ ai_Status i ≠ RESOLVED ∧ (ai_SuppressedUntilClear (set i) = true →
         ai_SuppressedUntilClear i = true ∨ ai_Status (set i) = RESOLVED)) →
  alertEffect legalOnce db db'.
Proof.
  intros Hok H Hmut. unfold mutateInstance in H. destruct (al_instances db !! id) as [i|] eqn:Hi; [|done].
  case_bool_decide; [|done]. destruct (mutate i) as [[set next]|] eqn:Hm; [|done]. cbn in H. injection H as <-.
  destruct (Hmut _ _ _ Hm) as (Hsame & Hleg & Hact & Hsup).
  assert (alter set id (al_instances db) = <[id := set i]> (al_instances db)) as Hdb by by apply alter_known.
  split_and!; cbn.
  - eapply (dbOk_rows (λ _, False) db); [done|exact (grows_same _ db _ _)| | |done]; cbn; rewrite Hdb.
    + intros id' r [[<- <-]|[_ Hr]]%lookup_insert_Some; [by exists i|exists r; auto].
    + intros id' H'. apply lookup_insert_is_Some'. auto.
  - intros id' j Hj. rewrite Hdb. destruct (decide (id' = id)) as [->|Hne].
    + rewrite lookup_insert_eq. rewrite Hi in Hj. apply (inj Some) in Hj as <-. eauto.
    + rewrite lookup_insert_ne by done. exists j. split_and!; [done|done|by left].
  - eauto using deliveryStep_refl.
  - intros n d H1 H2. congruence.
Qed.

Lemma observed_legal rule now i : legalOnce (ai_Status i) (od_Next (decisionFor rule now i)).
Proof.
  unfold decisionFor, decideObserved. destruct (ai_Status i); cbn; try by left. case_match; cbn; [right; constructor|by left].
Qed.
Lemma closed_legal s : legalOnce s RESOLVED.
Proof. destruct s; try (right; constructor). by left. Qed.

Lemma evaluation_effect rule channels muted now seen db db' :
  evaluation rule channels muted now seen db db' → dbOk db → alertEffect legalOnce db db'.
Proof.
  intros Hev Hok. split_and!.
  - by apply (en_ok _ _ _ _ _ _ _ Hev).
  - intros id i Hi. destruct (en_old _ _ _ _ _ _ _ Hev _ _ Hi) as (i' & Hi' & Hsame & Hother & _ & Hst). exists i'.
    split_and!; [done..|]. destruct (decide (ai_RuleId i = ar_Id rule)) as [Hr|Hr].
    + destruct (Hst Hr) as [-> _]. case_decide; [apply observed_legal|apply closed_legal].
    + rewrite (Hother Hr). by left.
  - intros n d Hd. exists d. split; [|apply deliveryStep_refl]. apply (gr_kept _ _ _ (en_grows _ _ _ _ _ _ _ Hev)); [|done].
    exact (dk_dnext _ Hok _ _ Hd).
  - intros n d Hd Hn. unfold deliveryOk, deliveryMaxAttempts.
    destruct (gr_new _ _ _ (en_grows _ _ _ _ _ _ _ Hev) _ _ Hd) as [?|[(_ & (_ & _ & _ & _ & ->) & _)|Hrec]];
      [congruence|lia|]. destruct Hrec as (i & _ & _ & _ & (_ & _ & _ & _ & ->) & _). lia.
Qed.

Lemma evaluate_timers rule channels muted now clock o db db' :
  evaluateRule rule channels muted now clock o db = Ok db' →
  ValidateRuleTimers (ar_ForSeconds rule) (ar_CooldownSeconds rule) = None.
Proof. unfold evaluateRule. by destruct (ValidateRuleTimers _ _). Qed.

Lemma flush_effect db now outcomes : dbOk db → alertEffect legalOnce db (flushDeliveries db now outcomes).
Proof.
  intros [Hid Hnext Hdn Hone Hsup Href]. destruct (flush_step db now outcomes) as (Ei & En & Hback & Hfwd). split_and!.
  - split; rewrite ?Ei, ?En; auto.
    + intros n d (d0 & Hd0 & _)%Hback. eauto.
    + intros n d (d0 & Hd0 & (-> & _))%Hback. eauto.
  - intros id i Hi. rewrite Ei. exists i. split_and!; [done|done|by left].
  - done.
  - intros n d (d0 & Hd0 & _)%Hback Hn. congruence.
Qed.

Lemma step_effect db db' : dbOk db → alertStep db db' → alertEffect legalOnce db db'.
Proof.
  intros Hok Hstep. destruct Hstep as [rule chans muted now clock os db' Hnd He|cluster id user now db' He|cluster id reason now db' He|now outcomes].
  - destruct (evaluate_rule_spec rule chans muted now clock os db Hok (evaluate_timers _ _ _ _ _ _ _ _ He) Hnd) as (db2 & He2 & Hev).
    rewrite He in He2. injection He2 as <-. by eapply evaluation_effect.
  - eapply manual_effect; [done|exact He|]. intros i set next H. cbn beta in H. destruct (negb (CanAcknowledge (ai_Status i))) eqn:Hc; [done|].
    injection H as <- <-. split_and!; [done| | |auto]; cbn.
    + destruct (ai_Status i); try done; [right; constructor|by left].
    + by destruct (ai_Status i).
  - eapply manual_effect; [done|exact He|]. intros i set next H. cbn beta in H. destruct (negb (CanResolve (ai_Status i))) eqn:Hc; [done|].
    injection H as <- <-. split_and!; [done|apply closed_legal| |auto]. by destruct (ai_Status i).
  - by apply flush_effect.
Qed.

Lemma run_effect db db' : rtc alertStep db db' → dbOk db →
  dbOk db' ∧ (db' = db ∨ alertEffect (rtc legal) db db').
Proof.
  induction 1 as [db|db1 db2 db3 Hs _ IH]; intros Hok; [auto|].
  pose proof (step_effect _ _ Hok Hs) as He. destruct (IH (proj1 He)) as [Hok3 [->|He3]]; [split; [done|right; by apply alertEffect_runs]|].
  split; [done|]. right. by eapply alertEffect_trans.
Qed.

Definition emptyAlerts : alertDB := AlertDB ∅ [] ∅ 0.

Lemma emptyAlerts_ok : dbOk emptyAlerts.
Proof. by split. Qed.

(** C39. In every run from the empty tables the state stays well formed: at most one
    open alert per rule and condition, and only closed alerts are silenced.
    Each step (an evaluation, a manual action or a flush of the deliveries) keeps
    every alert with its rule, condition and first sighting, and moves its
    status at most once, from PENDING to FIRING or RESOLVED, from FIRING to
    ACKNOWLEDGED or RESOLVED, or from ACKNOWLEDGED to RESOLVED; so a closed alert
    stays closed to the end of the run. *)
Theorem alert_lifecycle db1 db2 db3 :
  rtc alertStep emptyAlerts db1 → alertStep db1 db2 → rtc alertStep db2 db3 →
  dbOk db1 ∧ dbOk db2
  ∧ (∀ id i, al_instances db1 !! id = Some i → ∃ i', al_instances db2 !! id = Some i' ∧ sameRow i i' ∧ legalOnce (ai_Status i) (ai_Status i'))
  ∧ (∀ id i, al_instances db2 !! id = Some i → ai_Status i = RESOLVED →
       ∃ i', al_instances db3 !! id = Some i' ∧ sameRow i i' ∧ ai_Status i' = RESOLVED).
Proof.
  intros H1 H2 H3. destruct (run_effect _ _ H1 emptyAlerts_ok) as [Hok1 _]. destruct (step_effect _ _ Hok1 H2) as (Hok2 & He & _).
  split_and!; [done..|]. intros id i Hi Hr. destruct (run_effect _ _ H3 Hok2) as [_ [->|(_ & Hrun & _)]]; [by exists i|].
  destruct (Hrun _ _ Hi) as (i' & Hi' & Hs & Hl). exists i'. split_and!; [done..|]. rewrite Hr in Hl. inversion Hl as [|? ? ? Hst]; [done|inversion Hst].
Qed.

(** Deliveries are retried a bounded number of times: in every run a delivery
    counts at most five attempts, one that counts five is no longer pending,
    the count never decreases, and a delivery that was sent or has failed is
    never touched again. *)
Theorem deliveries_bounded db1 db2 :
  rtc alertStep emptyAlerts db1 → rtc alertStep db1 db2 →
  (∀ n d, al_deliveries db1 !! n = Some d → deliveryOk d ∧ ∃ d', al_deliveries db2 !! n = Some d' ∧ deliveryOk d'
     ∧ ad_Attempts d ≤ ad_Attempts d' ∧ (ad_Status d ≠ DeliveryPENDING → d' = d)).
Proof.
  intros H1 H2 n d Hd. destruct (run_effect _ _ H1 emptyAlerts_ok) as [Hok1 He1]. destruct (run_effect _ _ H2 Hok1) as [_ He2].
  assert (deliveryOk d) as Hdok.
  { destruct He1 as [->|(_ & _ & _ & He1)]; [done|]. by apply (He1 n). }
  split; [done|]. destruct He2 as [->|(_ & _ & He2 & _)].
  - exists d. split_and!; [done|done|lia|done].
  - destruct (He2 _ _ Hd) as (d' & Hd' & (_ & _ & _ & Hle & Hfin & Hk)). exists d'. split_and!; auto.
Qed.

(** ** A run *)

Module AlertDemo.

Definition nodeRule : AlertRule := {|
  ar_Id := "r1"; ar_ClusterId := "c1"; ar_Kind := "node_offline"; ar_Severity := "CRITICAL";
  ar_ForSeconds := 60; ar_CooldownSeconds := 300 |}.
Definition seenNode (key : string) : Observation := {| ob_Key := key; ob_Title := "node offline"; ob_Detail := "{}" |}.
Definition evaluateAt (t : Z) (keys : list string) (db : alertDB) : alertDB :=
  match evaluateRule nodeRule ["ch1"; "ch2"] false (t * secondNs) (λ _, t * secondNs) (Some (Ok (map seenNode keys))) db with
  | Ok db' => db' | Err _ => db
  end.
Definition resolveAt (t : Z) (id : N) (db : alertDB) : alertDB :=
  match Resolve db "c1" id "" (t * secondNs) with Ok db' => db' | Err _ => db end.

(** Two nodes go offline, both fire; one is resolved by hand, the other
    recovers; the notifications are then sent. *)
Definition pendingDb : alertDB := evaluateAt 0 ["n1"; "n2"] emptyAlerts.
Definition firingDb : alertDB := evaluateAt 60 ["n1"; "n2"] pendingDb.
Definition resolvedDb : alertDB := resolveAt 70 0 firingDb.
Definition finalDb : alertDB := evaluateAt 90 ["n1"] resolvedDb.
Definition sentDb : alertDB := flushDeliveries finalDb (100 * secondNs) (λ id, (if (id =? 2)%N then SendFailed "timeout" else Sent, 100 * secondNs)).

(** The statuses and the deliveries of a state, in creation order. *)
Definition statuses (db : alertDB) : list (N * AlertStatus * bool) :=
  map (λ x, (x.1, ai_Status x.2, ai_SuppressedUntilClear x.2)) (merge_sort rowOrder (map_to_list (al_instances db))).
Definition notices (db : alertDB) : list (N * N * string * DeliveryStatus) :=
  map (λ x, (x.1, ad_InstanceId x.2, ad_Kind x.2, ad_Status x.2)) (merge_sort rowOrder (map_to_list (al_deliveries db))).

Example demo_statuses :
  map statuses [pendingDb; firingDb; finalDb]
  = [[(0%N, PENDING, false); (1%N, PENDING, false)]; [(0%N, FIRING, false); (1%N, FIRING, false)];
     [(0%N, RESOLVED, true); (1%N, RESOLVED, false)]].
Proof. vm_compute. reflexivity. Qed.

Example demo_notices :
  notices sentDb
  = [(2%N, 0%N, "firing", DeliveryPENDING); (3%N, 0%N, "firing", DeliverySENT); (4%N, 1%N, "firing", DeliverySENT);
     (5%N, 1%N, "firing", DeliverySENT); (6%N, 1%N, "recovery", DeliverySENT); (7%N, 1%N, "recovery", DeliverySENT)].
Proof. vm_compute. reflexivity. Qed.

Lemma evaluateAt_step t keys db :
  NoDup keys →
  match evaluateRule nodeRule ["ch1"; "ch2"] false (t * secondNs) (λ _, t * secondNs) (Some (Ok (map seenNode keys))) db with
  | Ok _ => True | Err _ => False end → alertStep db (evaluateAt t keys db).
Proof.
  intros Hnd Hok. unfold evaluateAt. destruct (evaluateRule _ _ _ _ _ _ db) as [db'|] eqn:E; [|done].
  eapply StepEvaluate; [|exact E]. rewrite map_map. cbn. by rewrite map_id.
Qed.

Lemma demo_firing_run : rtc alertStep emptyAlerts firingDb.
Proof.
  eapply rtc_l; [apply (evaluateAt_step 0 ["n1"; "n2"]); [apply (bool_decide_unpack _)|]; vm_compute; exact I|].
  eapply rtc_l; [|apply rtc_refl].
  apply (evaluateAt_step 60 ["n1"; "n2"]); [apply (bool_decide_unpack _)|]; vm_compute; exact I.
Qed.

Lemma demo_resolve_step : alertStep firingDb resolvedDb.
Proof. apply (StepResolve firingDb "c1" 0 "" (70 * secondNs) resolvedDb). vm_compute. reflexivity. Qed.
Lemma demo_last_run : rtc alertStep resolvedDb sentDb.
Proof.
  eapply rtc_l; [apply (evaluateAt_step 90 ["n1"]); [apply (bool_decide_unpack _)|]; vm_compute; exact I|].
  eapply rtc_l; [apply StepFlush|apply rtc_refl].
Qed.

Lemma demo_rest_run : rtc alertStep firingDb sentDb.
Proof. eapply rtc_l; [apply demo_resolve_step|apply demo_last_run]. Qed.

Lemma firingDb_ok : dbOk firingDb.
Proof. apply (run_effect _ _ demo_firing_run emptyAlerts_ok). Qed.

Lemma evaluate_tracks_conditions_witness : ∃ db',
  evaluateRule nodeRule ["ch1"; "ch2"] false (90 * secondNs) (λ _, 90 * secondNs) (Some (Ok [seenNode "n1"])) firingDb = Ok db'
  ∧ dbOk db'.
Proof.
  destruct (evaluate_tracks_conditions nodeRule ["ch1"; "ch2"] false (90 * secondNs) (λ _, 90 * secondNs) [seenNode "n1"] firingDb)
    as (db' & He & Hok & _).
  - exact firingDb_ok.
  - reflexivity.
  - apply (bool_decide_unpack _). vm_compute. exact I.
  - exists db'. split; [exact He|exact Hok].
Defined.

(** The delivery with identifier 6 is a recovery notice for a closed alert. *)
Lemma evaluate_notifies_witness : ∃ d, al_deliveries (evaluateAt 90 ["n1"] firingDb) !! 6%N = Some d
  ∧ ad_ChannelId d ∈ ["ch1"; "ch2"] ∧ ad_Attempts d = 0.
Proof.
  destruct (al_deliveries (evaluateAt 90 ["n1"] firingDb) !! 6%N) as [d|] eqn:Hd; [|vm_compute in Hd; discriminate Hd].
  exists d. split; [reflexivity|].
  destruct (evaluate_notifies nodeRule ["ch1"; "ch2"] false (90 * secondNs) (λ _, 90 * secondNs) [seenNode "n1"] firingDb
    (evaluateAt 90 ["n1"] firingDb)) with (n := 6%N) (d := d) as (_ & Hc & _ & Ha & _).
  - exact firingDb_ok.
  - reflexivity.
  - apply (bool_decide_unpack _). vm_compute. exact I.
  - vm_compute. reflexivity.
  - exact Hd.
  - replace (al_deliveries firingDb !! 6%N) with (@None AlertDelivery) by (vm_compute; reflexivity). discriminate.
  - split; [exact Hc|exact Ha].
Defined.

Lemma alert_lifecycle_witness : dbOk resolvedDb ∧ ∃ i, al_instances sentDb !! 0%N = Some i ∧ ai_Status i = RESOLVED.
Proof.
  destruct (alert_lifecycle firingDb resolvedDb sentDb demo_firing_run demo_resolve_step demo_last_run) as (_ & H2 & _ & H4). split; [exact H2|].
  destruct (al_instances resolvedDb !! 0%N) as [i|] eqn:Hi; [|vm_compute in Hi; discriminate Hi].
  destruct (H4 0%N i Hi) as (i' & Hi' & _ & Hr); [|exists i'; split; [exact Hi'|exact Hr]].
  assert (ai_Status <$> al_instances resolvedDb !! 0%N = Some RESOLVED) as E by (vm_compute; reflexivity). rewrite Hi in E. injection E as E. exact E.
Defined.

Lemma deliveries_bounded_witness : ∃ d, al_deliveries firingDb !! 2%N = Some d ∧ deliveryOk d.
Proof.
  destruct (al_deliveries firingDb !! 2%N) as [d|] eqn:Hd; [|vm_compute in Hd; discriminate Hd].
  exists d. split; [reflexivity|]. destruct (deliveries_bounded firingDb sentDb demo_firing_run demo_rest_run 2%N d Hd) as [H _].
  exact H.
Defined.

End AlertDemo.
