(* ===== verification/JobQueue.v ===== *)
(** * The job queue ([internal/jobqueue/jobqueue.go])

    The PostgreSQL lease protocol of the background jobs: claiming, sweeping,
    heartbeats, finishing, cancelling and replaying.  The database holds one
    table per job kind, a map from job identifiers, and the list of
    executions.  A statement is a function of the tables and of the time
    [now] at which it runs; a transaction that fails changes nothing.  The
    time stamps that nothing reads back ([heartbeat_at], [updated_at],
    [started_at], [finished_at]) are left out.  Durations and times are in
    nanoseconds.  The theorems are in [JobQueueTheorems]. *)
From Stdlib Require Import ZArith Lia Ascii String.
From stdpp Require Import base numbers list strings gmap sets option sorting.
From S2P Require Import Prelude.

Local Open Scope Z_scope.

(** ** Data *)

Abbreviation Kind := string.

Definition tables : gmap Kind string := list_to_map
  [("PUBLISH", "publish_jobs"); ("PURGE", "purge_jobs"); ("INSTALL", "install_jobs");
   ("AGENT_UPGRADE", "agent_upgrade_jobs"); ("DNS", "dns_sync_jobs"); ("CERTIFICATE", "certificate_jobs")].

Definition second : Z := 10 ^ 9.
Definition defaultLease : Z := 45 * second.
Definition heartbeatEvery : Z := 10 * second.
Definition sweepEvery : Z := 30 * second.
Definition maxBackoff : Z := 300 * second.
Definition maxIdempotencyKeyBytes : nat := 128.

Inductive JobStatus := Pending | Running | Succeeded | Failed | DeadLetter | Cancelled.
#[export] Instance JobStatus_eq_dec : EqDecision JobStatus.
Proof. solve_decision. Defined.

Record Job := {
  j_SiteID : string; j_Version : Z; j_MaxAttempts : Z; j_CreatedAt : Z;
  j_Status : JobStatus; j_Attempts : Z; j_NextAttemptAt : Z;
  j_LeaseOwner : option string; j_LeaseUntil : option Z; j_CancelRequestedAt : option Z; j_TimeoutAt : option Z;
  j_Result : option string; j_Compensation : option string; j_Error : option string;
}.

Record Execution := {
  x_Kind : Kind; x_JobID : string; x_Attempt : Z; x_WorkerID : string; x_Status : JobStatus;
  x_Result : option string; x_Error : option string;
}.

Record jobDB := JobDB { jq_tables : gmap string (gmap string Job); jq_executions : list Execution }.

Record Manager := { m_workerID : string; m_lease : Z; m_nextSweep : gmap Kind Z }.

(** The manager [New] makes; the worker identifier is a fresh UUID. *)
Definition New (workerID : string) : Manager := {| m_workerID := workerID; m_lease := defaultLease; m_nextSweep := ∅ |}.

Record Lease := {
  l_Kind : Kind; l_ID : string; l_WorkerID : string; l_Attempt : Z; l_MaxAttempts : Z;
  l_TimeoutAt : option Z; l_LeaseUntil : Z;
}.

(** A handler's outcome; the results are what they are encoded to, [None] for
    a value that is absent or cannot be encoded. *)
Record Outcome := {
  o_Result : option string; o_Compensation : option string; o_Err : option string; o_Retryable : bool;
  o_RetryAfter : Z; o_RequeueAfter : Z;
}.

Inductive jobError :=
| ErrLeaseLost | ErrLeaseUncertain (cause : jobError) | ErrNotCancellable | ErrNotReplayable
| ErrInvalidIdempotencyKey | ErrUnsupportedKind | ErrQuery (code : nat) | ErrContext.

Definition tableFor (kind : Kind) : result jobError string :=
  match tables !! kind with Some table => Ok table | None => Err ErrUnsupportedKind end.

Definition rowsOf (db : jobDB) (table : string) : gmap string Job := default ∅ (jq_tables db !! table).
Definition setRows (db : jobDB) (table : string) (rows : gmap string Job) : jobDB :=
  JobDB (<[table := rows]> (jq_tables db)) (jq_executions db).
Definition mapExecutions (db : jobDB) (f : Execution → Execution) : jobDB :=
  JobDB (jq_tables db) (map f (jq_executions db)).

(** The columns the queue writes. *)
Definition writeJob (j : Job) (status : JobStatus) (attempts next : Z) (owner : option string)
    (leaseUntil cancel timeout : option Z) (res comp err : option string) : Job := {|
  j_SiteID := j_SiteID j; j_Version := j_Version j; j_MaxAttempts := j_MaxAttempts j; j_CreatedAt := j_CreatedAt j;
  j_Status := status; j_Attempts := attempts; j_NextAttemptAt := next; j_LeaseOwner := owner;
  j_LeaseUntil := leaseUntil; j_CancelRequestedAt := cancel; j_TimeoutAt := timeout; j_Result := res;
  j_Compensation := comp; j_Error := err |}.

Definition coalesce {A} (a b : option A) : option A := match a with Some _ => a | None => b end.

Definition setExecution (e : Execution) (status : JobStatus) (res err : option string) : Execution := {|
  x_Kind := x_Kind e; x_JobID := x_JobID e; x_Attempt := x_Attempt e; x_WorkerID := x_WorkerID e; x_Status := status;
  x_Result := res; x_Error := err |}.

(** ** Claiming *)

(** [status='RUNNING' AND (lease_until IS NULL OR lease_until<=NOW())]. *)
Definition leaseExpired (now : Z) (j : Job) : bool :=
  bool_decide (j_Status j = Running) && match j_LeaseUntil j with None => true | Some t => t <=? now end.

Definition sweepableJob (now : Z) (j : Job) : bool := bool_decide (j_Status j = Pending) || leaseExpired now j.

(** The site order of [publish_jobs]. *)
Definition blocksSite (j older : Job) : Prop :=
  j_SiteID older = j_SiteID j ∧ j_Version older < j_Version j ∧ j_CancelRequestedAt older = None
  ∧ (j_Status older = Pending ∨ j_Status older = Running).
#[export] Instance blocksSite_dec j older : Decision (blocksSite j older).
Proof. unfold blocksSite. apply _. Defined.

(** The candidates of [claimSQL]. *)
Definition claimable (table : string) (now : Z) (rows : gmap string Job) (j : Job) : bool :=
  bool_decide (j_CancelRequestedAt j = None) && (j_Attempts j <? j_MaxAttempts j)
  && match j_TimeoutAt j with None => true | Some t => now <? t end
  && ((bool_decide (j_Status j = Pending) && (j_NextAttemptAt j <=? now)) || leaseExpired now j)
  && (if bool_decide (table = "publish_jobs") then negb (bool_decide (map_Exists (λ _ older, blocksSite j older) rows)) else true).

(** [ORDER BY next_attempt_at, created_at]. *)
Definition claimOrder (x y : string * Job) : Prop :=
  j_NextAttemptAt x.2 < j_NextAttemptAt y.2
  ∨ (j_NextAttemptAt x.2 = j_NextAttemptAt y.2 ∧ j_CreatedAt x.2 ≤ j_CreatedAt y.2).
#[export] Instance claimOrder_dec x y : Decision (claimOrder x y).
Proof. unfold claimOrder. apply _. Defined.

(** The [UPDATE] of the claimed row. *)
Definition claimedRow (worker : string) (lease timeout now : Z) (j : Job) : Job :=
  writeJob j Running (j_Attempts j + 1) (j_NextAttemptAt j) (Some worker) (Some (now + lease)) (j_CancelRequestedAt j)
    (coalesce (j_TimeoutAt j) (if 0 <? timeout then Some (now + timeout) else None))
    (j_Result j) (j_Compensation j) (j_Error j).

(** [claimSQL]: [locked] are the rows other transactions hold, which are
    skipped.  The result is the updated table and the claimed row. *)
Definition claimSQL (table : string) (worker : string) (lease timeout now : Z) (locked : gset string)
    (rows : gmap string Job) : option (string * Job * gmap string Job) :=
  match merge_sort claimOrder
          (filter (λ x, claimable table now rows x.2 = true ∧ x.1 ∉ locked) (map_to_list rows)) with
  | [] => None
  | (id, j) :: _ =>
      let j' := claimedRow worker lease timeout now j in
      Some (id, j', <[id := j']> rows)
  end.

(** ** Sweeping *)

(** One of the three pairs of updates of [sweep]. *)
Definition closeJob (status : JobStatus) (message : string) (j : Job) : Job :=
  writeJob j status (j_Attempts j) (j_NextAttemptAt j) None None (j_CancelRequestedAt j) (j_TimeoutAt j)
    (j_Result j) (j_Compensation j) (coalesce (j_Error j) (Some message)).

Definition sweepPass (kind : Kind) (table : string) (now : Z) (cond : Job → bool) (status : JobStatus) (message : string)
    (db : jobDB) : jobDB :=
  let rows := (λ j, if cond j && sweepableJob now j then closeJob status message j else j) <$> rowsOf db table in
  mapExecutions (setRows db table rows) (λ e,
    if bool_decide (x_Kind e = kind ∧ x_Status e = Running)
       && match rows !! x_JobID e with
          | Some j => bool_decide (j_Status j = status) && cond j && bool_decide (j_Attempts j = x_Attempt e)
          | None => false
          end
    then setExecution e status (x_Result e) (coalesce (x_Error e) (Some message))
    else e).

Definition sweepCancelled (j : Job) : bool := bool_decide (is_Some (j_CancelRequestedAt j)).
Definition sweepExpired (now : Z) (j : Job) : bool := match j_TimeoutAt j with Some t => t <=? now | None => false end.
Definition sweepExhausted (j : Job) : bool := j_MaxAttempts j <=? j_Attempts j.

(** [sweep]; [lock] is the answer of [pg_try_advisory_xact_lock]. *)
Definition sweep (kind : Kind) (table : string) (now : Z) (lock : result jobError bool) (db : jobDB)
    : result jobError jobDB :=
  locked ← lock;
  if negb locked then Ok db
  else Ok (sweepPass kind table now sweepExhausted DeadLetter "maximum delivery attempts exceeded"
        (sweepPass kind table now (sweepExpired now) DeadLetter "job execution deadline expired"
          (sweepPass kind table now sweepCancelled Cancelled "job cancellation requested" db))).

(** [sweepIfDue]; [clock] is the process's time, [now] the database's. *)
Definition sweepIfDue (m : Manager) (kind : Kind) (table : string) (clock now : Z) (lock : result jobError bool)
    (db : jobDB) : result jobError (Manager * jobDB) :=
  if match m_nextSweep m !! kind with Some t => clock <? t | None => false end then Ok (m, db)
  else
    db1 ← sweep kind table now lock db;
    Ok ({| m_workerID := m_workerID m; m_lease := m_lease m;
           m_nextSweep := <[kind := clock + sweepEvery]> (m_nextSweep m) |}, db1).

(** [claim]. *)
Definition claim (m : Manager) (kind : Kind) (defaultTimeout clock now : Z) (lock : result jobError bool)
    (locked : gset string) (db : jobDB) : result jobError (Manager * jobDB * option Lease) :=
  table ← tableFor kind;
  '(m1, db1) ← sweepIfDue m kind table clock now lock db;
  match claimSQL table (m_workerID m1) (m_lease m1) defaultTimeout now locked (rowsOf db1 table) with
  | None => Ok (m1, db1, None)
  | Some (id, row, rows) =>
      let db2 := mapExecutions (setRows db1 table rows) (λ e,
        if bool_decide (x_Kind e = kind ∧ x_JobID e = id ∧ x_Status e = Running) && (x_Attempt e <? j_Attempts row)
        then setExecution e Failed (x_Result e) (coalesce (x_Error e) (Some "worker lease expired")) else e) in
      let db3 := JobDB (jq_tables db2) (jq_executions db2 ++ [{|
        x_Kind := kind; x_JobID := id; x_Attempt := j_Attempts row; x_WorkerID := m_workerID m1; x_Status := Running;
        x_Result := None; x_Error := None |}]) in
      Ok (m1, db3, Some {|
        l_Kind := kind; l_ID := id; l_WorkerID := m_workerID m1; l_Attempt := j_Attempts row;
        l_MaxAttempts := j_MaxAttempts row; l_TimeoutAt := j_TimeoutAt row;
        l_LeaseUntil := default 0 (j_LeaseUntil row) |})
  end.

(** ** The lease *)

Definition leaseTable (lease : Lease) : string := match tableFor (l_Kind lease) with Ok t => t | Err _ => "" end.

(** [id=$1 AND status='RUNNING' AND lease_owner=$2 AND attempts=$3]. *)
Definition holds (db : jobDB) (lease : Lease) : option Job :=
  match rowsOf db (leaseTable lease) !! l_ID lease with
  | Some j =>
      if bool_decide (j_Status j = Running ∧ j_LeaseOwner j = Some (l_WorkerID lease) ∧ j_Attempts j = l_Attempt lease)
      then Some j else None
  | None => None
  end.

(** [renew] and [state]; [failure] is a database error. *)
Definition renew (m : Manager) (lease : Lease) (now : Z) (failure : option nat) (db : jobDB)
    : jobDB * result jobError (option Z * Z) :=
  match failure with
  | Some code => (db, Err (ErrQuery code))
  | None =>
      match holds db lease with
      | None => (db, Err ErrLeaseLost)
      | Some j =>
          let j' := writeJob j (j_Status j) (j_Attempts j) (j_NextAttemptAt j) (j_LeaseOwner j) (Some (now + m_lease m))
                      (j_CancelRequestedAt j) (j_TimeoutAt j) (j_Result j) (j_Compensation j) (j_Error j) in
          (setRows db (leaseTable lease) (<[l_ID lease := j']> (rowsOf db (leaseTable lease))),
           Ok (j_CancelRequestedAt j, now + m_lease m))
      end
  end.
Definition state (lease : Lease) (failure : option nat) (db : jobDB) : result jobError (option Z * Z) :=
  match failure with
  | Some code => Err (ErrQuery code)
  | None => match holds db lease with
            | None => Err ErrLeaseLost
            | Some j => Ok (j_CancelRequestedAt j, default 0 (j_LeaseUntil j))
            end
  end.

Definition leaseProbeFailure (err : jobError) (now leaseValidUntil : Z) : option jobError :=
  match err with
  | ErrLeaseLost => Some ErrLeaseLost
  | _ => if now <? leaseValidUntil then None else Some (ErrLeaseUncertain err)
  end.

(** The heartbeat goroutine: its variables, and what ends it. *)
Record heartbeatState := { hb_leaseValidUntil : Z; hb_renewPending : bool }.
Inductive probeVerdict := ProbeContinue | ProbeStop | ProbeCancelled | ProbeLost (e : jobError).

(** [probe]; [clock] is the process's time, [ctxDone] whether the run context
    is over. *)
Definition probe (m : Manager) (lease : Lease) (renewLease : bool) (now clock : Z) (failure : option nat) (ctxDone : bool)
    (hb : heartbeatState) (db : jobDB) : jobDB * heartbeatState * probeVerdict :=
  let '(db1, answer) := if renewLease then renew m lease now failure db else (db, state lease failure db) in
  match answer with
  | Err e =>
      if ctxDone then (db1, hb, ProbeStop)
      else
        let hb1 := {| hb_leaseValidUntil := hb_leaseValidUntil hb;
                      hb_renewPending := if renewLease then true else hb_renewPending hb |} in
        match leaseProbeFailure e clock (hb_leaseValidUntil hb) with
        | Some terminal => (db1, hb1, ProbeLost terminal)
        | None => (db1, hb1, ProbeContinue)
        end
  | Ok (cancelRequested, leaseUntil) =>
      let hb1 := if renewLease then {| hb_leaseValidUntil := leaseUntil; hb_renewPending := false |} else hb in
      (db1, hb1, if cancelRequested then ProbeCancelled else ProbeContinue)
  end.

(** The two tickers of [heartbeat]. *)
Inductive heartbeatEvent := HeartbeatTick | CancellationPoll.
Definition heartbeatRenews (ev : heartbeatEvent) (clock : Z) (hb : heartbeatState) : bool :=
  match ev with
  | HeartbeatTick => true
  | CancellationPoll => hb_renewPending hb || (hb_leaseValidUntil hb - clock <=? heartbeatEvery)
  end.
Definition heartbeat (m : Manager) (lease : Lease) (ev : heartbeatEvent) (now clock : Z) (failure : option nat)
    (ctxDone : bool) (hb : heartbeatState) (db : jobDB) : jobDB * heartbeatState * probeVerdict :=
  probe m lease (heartbeatRenews ev clock hb) now clock failure ctxDone hb db.
(** The goroutine's first values; [clock] is the process's time. *)
Definition heartbeatStart (m : Manager) (lease : Lease) (clock : Z) : heartbeatState :=
  {| hb_leaseValidUntil := if isZeroTime (l_LeaseUntil lease) then clock + m_lease m else l_LeaseUntil lease;
     hb_renewPending := false |}.

(** ** Retry delays *)

(** [time.Second << attempt], capped. *)
Definition backoff (attempt : Z) : Z :=
  if 9 <=? attempt then maxBackoff
  else let attempt := if attempt <? 0 then 0 else attempt in to_int64 (Z.shiftl second attempt).

(** [hash/fnv]'s 32-bit FNV-1a. *)
Definition fnvOffset32 : Z := 2166136261.
Definition fnvPrime32 : Z := 16777619.
Definition fnvStep (h b : Z) : Z := wrap32 (Z.lxor h b * fnvPrime32).
Definition bytesOf (s : string) : list Z := map (λ c, Z.of_N (N_of_ascii c)) (list_ascii_of_string s).

Definition jitterFactor (id : string) (attempt : Z) : Z :=
  80 + foldl fnvStep fnvOffset32 (bytesOf id ++ [attempt mod 256]) mod 41.

Definition retryDelay (lease : Lease) (override : Z) : Z :=
  let delay := if override <=? 0 then backoff (l_Attempt lease) else override in
  if bool_decide (l_ID lease = "") then delay
  else
    let jittered := Z.quot (to_int64 (delay * jitterFactor (l_ID lease) (l_Attempt lease))) 100 in
    if (override <=? 0) && (maxBackoff <? jittered) then maxBackoff else jittered.

(** ** Finishing *)

(** [outcomeDecision]: the status, the next attempt, the message and whether
    the attempt is given back. *)
Definition outcomeDecision (now : Z) (lease : Lease) (o : Outcome) : JobStatus * Z * string * bool :=
  let requeue := 0 <? o_RequeueAfter o in
  let status := if requeue then Pending else Succeeded in
  let nextAttempt := if requeue then now + o_RequeueAfter o else now in
  match o_Err o with
  | None => (status, nextAttempt, "", requeue)
  | Some message =>
      if match l_TimeoutAt lease with Some t => t <=? now | None => false end && (o_Retryable o || requeue)
      then (DeadLetter, nextAttempt, message, false)
      else if requeue then (status, nextAttempt, message, true)
      else if o_Retryable o && (l_Attempt lease <? l_MaxAttempts lease)
      then (Pending, nextAttempt + retryDelay lease (o_RetryAfter o), message, false)
      else if o_Retryable o then (DeadLetter, nextAttempt, message, false)
      else (Failed, nextAttempt, message, false)
  end.

Definition executionOutcomeStatus (jobStatus : JobStatus) (o : Outcome) : JobStatus :=
  if bool_decide (jobStatus = Pending) && bool_decide (is_Some (o_Err o)) then Failed else jobStatus.

Definition nullableString (s : string) : option string := if bool_decide (s = "") then None else Some s.

Definition finish (lease : Lease) (o : Outcome) (clock : Z) (failure : option nat) (db : jobDB)
    : jobDB * option jobError :=
  match failure with
  | Some code => (db, Some (ErrQuery code))
  | None =>
      match holds db lease with
      | None => (db, Some ErrLeaseLost)
      | Some j =>
          let '(status0, nextAttempt, message0, requeue0) := outcomeDecision clock lease o in
          let cancelled := bool_decide (is_Some (j_CancelRequestedAt j)) in
          let status := if cancelled then Cancelled else status0 in
          let requeue := if cancelled then false else requeue0 in
          let message := if cancelled && bool_decide (message0 = "") then "job cancellation requested" else message0 in
          let j' := writeJob j status (Z.max (j_Attempts j - (if requeue then 1 else 0)) 0) nextAttempt None None
                      (j_CancelRequestedAt j) (j_TimeoutAt j) (o_Result o) (coalesce (o_Compensation o) (j_Compensation j))
                      (nullableString message) in
          let db1 := setRows db (leaseTable lease) (<[l_ID lease := j']> (rowsOf db (leaseTable lease))) in
          (mapExecutions db1 (λ e,
             if bool_decide (x_Kind e = l_Kind lease ∧ x_JobID e = l_ID lease ∧ x_Attempt e = l_Attempt lease
                  ∧ x_WorkerID e = l_WorkerID lease ∧ x_Status e = Running)
             then setExecution e (executionOutcomeStatus status o) (o_Result o) (nullableString message) else e),
           None)
      end
  end.

(** [invokeHandler]: a handler returns an outcome or panics. *)
Definition invokeHandler (ran : result string Outcome) : Outcome :=
  match ran with
  | Ok o => o
  | Err panic => {| o_Result := None; o_Compensation := None; o_Err := Some ("job worker panic: " +:+ panic);
                    o_Retryable := true; o_RetryAfter := 0; o_RequeueAfter := 0 |}
  end.

(** The end of [RunOne], once the handler returned and the heartbeat stopped:
    [shutdown] is [ctx.Err() != nil], [lost] what the heartbeat reported. *)
Definition endRun (lease : Lease) (ran : result string Outcome) (shutdown : bool) (lost : option jobError) (clock : Z)
    (failure : option nat) (db : jobDB) : jobDB * option jobError :=
  if shutdown then (db, Some ErrContext)
  else match lost with
       | Some e => (db, Some e)
       | None => finish lease (invokeHandler ran) clock failure db
       end.

(** The deadline of the run context. *)
Definition runDeadline (lease : Lease) (defaultTimeout clock : Z) : option Z :=
  match l_TimeoutAt lease with
  | Some t => Some t
  | None => if 0 <? defaultTimeout then Some (clock + defaultTimeout) else None
  end.

(** ** Operators *)

Definition updateJobWhere (db : jobDB) (table id : string) (cond : Job → bool) (f : Job → Job) (none : jobError)
    : result jobError jobDB :=
  match rowsOf db table !! id with
  | Some j => if cond j then Ok (setRows db table (<[id := f j]> (rowsOf db table))) else Err none
  | None => Err none
  end.

Definition Cancel (db : jobDB) (kind : Kind) (id : string) (now : Z) : result jobError jobDB :=
  table ← tableFor kind;
  updateJobWhere db table id (λ j, bool_decide (j_Status j = Pending ∨ j_Status j = Running))
    (λ j, writeJob j (if bool_decide (j_Status j = Pending) then Cancelled else j_Status j) (j_Attempts j) (j_NextAttemptAt j)
            (j_LeaseOwner j) (j_LeaseUntil j) (Some now) (j_TimeoutAt j) (j_Result j) (j_Compensation j) (j_Error j))
    ErrNotCancellable.

Definition Replay (db : jobDB) (kind : Kind) (id : string) (now : Z) : result jobError jobDB :=
  table ← tableFor kind;
  updateJobWhere db table id (λ j, bool_decide (j_Status j = Failed ∨ j_Status j = DeadLetter ∨ j_Status j = Cancelled))
    (λ j, writeJob j Pending 0 now None None None None None None None) ErrNotReplayable.

(** [ValidateIdempotencyKey] on the bytes of the key. *)
Fixpoint visibleASCII (value : list Z) : bool :=
  match value with [] => true | b :: rest => if (b <? 33) || (126 <? b) then false else visibleASCII rest end.
Definition ValidateIdempotencyKey (value : string) : option jobError :=
  if (maxIdempotencyKeyBytes <? length (bytesOf value))%nat then Some ErrInvalidIdempotencyKey
  else if visibleASCII (bytesOf value) then None else Some ErrInvalidIdempotencyKey.
