(* ===== verification/JobQueueTheorems.v ===== *)
(** * Theorems about the job queue

    A system of workers around the tables: each worker runs one job at a time
    and a clock only moves forward.  Leases are exclusive, attempts are
    bounded, a sweep leaves only jobs that can still run, a claim takes the
    earliest one, and a run is recorded as its outcome says. *)
From Stdlib Require Import ZArith Lia Ascii String.
From stdpp Require Import base numbers list strings gmap sets option sorting relations.
From S2P Require Import Prelude JobQueue.

Local Open Scope Z_scope.

(** ** Tables *)

Lemma rowsOf_set db table rows t : rowsOf (setRows db table rows) t = if decide (t = table) then rows else rowsOf db t.
Proof.
  unfold rowsOf, setRows. cbn. destruct (decide (t = table)) as [->|Hne]; [by rewrite lookup_insert_eq|].
  by rewrite lookup_insert_ne.
Qed.
Lemma rowsOf_execs db f t : rowsOf (mapExecutions db f) t = rowsOf db t.
Proof. done. Qed.

(** What a row always satisfies: attempts within the budget; a running job, and
    only it, has an owner and a lease. *)
Definition jobOk (j : Job) : Prop :=
  0 ≤ j_Attempts j ≤ j_MaxAttempts j
  ∧ (j_Status j = Running → is_Some (j_LeaseOwner j) ∧ is_Some (j_LeaseUntil j) ∧ 1 ≤ j_Attempts j)
  ∧ (j_Status j ≠ Running → j_LeaseOwner j = None ∧ j_LeaseUntil j = None).
Definition tablesOk (db : jobDB) : Prop := ∀ table id j, rowsOf db table !! id = Some j → jobOk j.

(** A job nothing but a replay changes. *)
Definition terminal (j : Job) : Prop := j_Status j ≠ Pending ∧ j_Status j ≠ Running.

(** A statement that rewrites one row. *)
Lemma tablesOk_set db table id j :
  tablesOk db → jobOk j → tablesOk (setRows db table (<[id := j]> (rowsOf db table))).
Proof.
  intros Hok Hj t id' j'. rewrite rowsOf_set. destruct (decide (t = table)) as [->|]; [|by apply Hok].
  intros [[<- <-]|[_ H]]%lookup_insert_Some; [done|by eapply Hok].
Qed.

(** ** Sweeping *)

Lemma leaseExpired_spec now j : leaseExpired now j = true ↔
  j_Status j = Running ∧ ∀ u, j_LeaseUntil j = Some u → u ≤ now.
Proof.
  unfold leaseExpired. rewrite andb_true_iff, bool_decide_eq_true. destruct (j_LeaseUntil j) as [u|].
  - rewrite Z.leb_le. naive_solver.
  - naive_solver.
Qed.

Lemma sweepable_spec now j : sweepableJob now j = true ↔
  j_Status j = Pending ∨ (j_Status j = Running ∧ ∀ u, j_LeaseUntil j = Some u → u ≤ now).
Proof. unfold sweepableJob. by rewrite orb_true_iff, bool_decide_eq_true, leaseExpired_spec. Qed.

Definition swept (now : Z) (cond : Job → bool) (status : JobStatus) (message : string) (j : Job) : Job :=
  if cond j && sweepableJob now j then closeJob status message j else j.

Lemma sweepPass_rows kind table now cond status message db t :
  rowsOf (sweepPass kind table now cond status message db) t
  = if decide (t = table) then swept now cond status message <$> rowsOf db table else rowsOf db t.
Proof. unfold sweepPass. rewrite rowsOf_execs, rowsOf_set. done. Qed.

(** The three passes on one row. *)
Definition sweptRow (now : Z) (j : Job) : Job :=
  swept now sweepExhausted DeadLetter "maximum delivery attempts exceeded"
    (swept now (sweepExpired now) DeadLetter "job execution deadline expired"
      (swept now sweepCancelled Cancelled "job cancellation requested" j)).

Lemma sweep_rows kind table now db db' t :
  sweep kind table now (Ok true) db = Ok db' →
  rowsOf db' t = if decide (t = table) then sweptRow now <$> rowsOf db table else rowsOf db t.
Proof.
  intros H. cbn in H. injection H as <-. rewrite !sweepPass_rows. destruct (decide (t = table)) as [->|]; [|done].
  rewrite decide_True, decide_True by done. by rewrite <- !map_fmap_compose.
Qed.

Lemma swept_kept now cond status message j : sweepableJob now j = false → swept now cond status message j = j.
Proof. intros H. unfold swept. by rewrite H, andb_false_r. Qed.

Lemma sweptRow_kept now j : sweepableJob now j = false → sweptRow now j = j.
Proof. intros H. unfold sweptRow. rewrite (swept_kept now sweepCancelled), (swept_kept now (sweepExpired now)) by done. by apply swept_kept. Qed.

Lemma closed_not_sweepable now status message j :
  status ≠ Pending → status ≠ Running → sweepableJob now (closeJob status message j) = false.
Proof.
  intros H1 H2. apply not_true_is_false. rewrite sweepable_spec. cbn. naive_solver.
Qed.

(** What a pass may do. *)
Lemma swept_cases now cond status message j :
  (swept now cond status message j = j ∧ (cond j = false ∨ sweepableJob now j = false))
  ∨ (cond j = true ∧ sweepableJob now j = true ∧ swept now cond status message j = closeJob status message j).
Proof. unfold swept. destruct (cond j), (sweepableJob now j); cbn; tauto. Qed.

(** A swept row is unchanged and may still run, or is closed. *)
Lemma sweptRow_cases now j :
  (sweptRow now j = j ∧ (sweepableJob now j = true →
     j_CancelRequestedAt j = None ∧ sweepExpired now j = false ∧ j_Attempts j < j_MaxAttempts j))
  ∨ (sweepableJob now j = true ∧ ∃ status message, sweptRow now j = closeJob status message j
     ∧ status = (if decide (is_Some (j_CancelRequestedAt j)) then Cancelled else DeadLetter)).
Proof.
  unfold sweptRow.
  destruct (swept_cases now sweepCancelled Cancelled "job cancellation requested" j) as [[-> H1]|(H1 & Hs & ->)].
  2:{ right. split; [done|]. 
      rewrite (swept_kept now (sweepExpired now)), swept_kept by by apply closed_not_sweepable.
      apply bool_decide_eq_true in H1. do 2 eexists. split; [reflexivity|]. by rewrite decide_True. }
  assert (sweepableJob now j = true → j_CancelRequestedAt j = None) as Hnc.
  { intros Hs. destruct H1 as [H1%bool_decide_eq_false|]; [|congruence]. destruct (j_CancelRequestedAt j); [|done]. by destruct H1. }
  destruct (swept_cases now (sweepExpired now) DeadLetter "job execution deadline expired" j) as [[-> H2]|(H2 & Hs & ->)].
  2:{ right. split; [done|]. rewrite swept_kept by by apply closed_not_sweepable.
      do 2 eexists. split; [reflexivity|]. rewrite Hnc by done. by rewrite decide_False by apply is_Some_None. }
  destruct (swept_cases now sweepExhausted DeadLetter "maximum delivery attempts exceeded" j) as [[-> H3]|(H3 & Hs & ->)].
  - left. split; [done|]. intros Hs. destruct H2 as [H2|]; [|congruence].
    destruct H3 as [H3|]; [|congruence]. split_and!; [by apply Hnc|done|].
    unfold sweepExhausted in H3. apply Z.leb_gt in H3. lia.
  - right. split; [done|]. do 2 eexists. split; [reflexivity|]. rewrite Hnc by done. by rewrite decide_False by apply is_Some_None.
Qed.

Lemma sweptRow_ok now j : jobOk j → jobOk (sweptRow now j).
Proof.
  intros (Ha & Hr & Hn). destruct (sweptRow_cases now j) as [[-> _]|(Hs & status & message & -> & Hst)]; [done|].
  split_and!; cbn; [lia|lia| |done]. rewrite Hst. by case_decide.
Qed.

(** ** Claiming *)

#[export] Instance claimOrder_trans : Transitive claimOrder.
Proof. intros x y z. unfold claimOrder. lia. Qed.
#[export] Instance claimOrder_total : Total claimOrder.
Proof. intros x y. unfold claimOrder. lia. Qed.

(** The rows a claim may take. *)
Definition available (table : string) (now : Z) (locked : gset string) (rows : gmap string Job) (id : string) (j : Job) : Prop :=
  rows !! id = Some j ∧ claimable table now rows j = true ∧ id ∉ locked.

Lemma claimSQL_some table worker lease timeout now locked rows id j' rows' :
  claimSQL table worker lease timeout now locked rows = Some (id, j', rows') →
  ∃ j, available table now locked rows id j ∧ j' = claimedRow worker lease timeout now j ∧ rows' = <[id := j']> rows
    ∧ ∀ id2 j2, available table now locked rows id2 j2 → claimOrder (id, j) (id2, j2).
Proof.
  unfold claimSQL. set (l := filter _ _). pose proof (StronglySorted_merge_sort claimOrder l) as Hs.
  pose proof (merge_sort_Permutation claimOrder l) as Hp.
  assert (∀ x, x ∈ merge_sort claimOrder l ↔ available table now locked rows x.1 x.2) as Hin.
  { intros [i k]. rewrite Hp. unfold l, available. rewrite list_elem_of_filter, elem_of_map_to_list. cbn. tauto. }
  destruct (merge_sort claimOrder l) as [|[id0 j0] rest]; [done|]. intros [= -> <- <-]. exists j0.
  assert (available table now locked rows id j0) as Hav by (apply (Hin (id, j0)); set_solver).
  split_and!; [done..|]. intros id2 j2 H2. apply StronglySorted_inv in Hs as [_ Hall]. rewrite list.Forall_forall in Hall.
  apply (Hin (id2, j2)) in H2. apply elem_of_cons in H2 as [[= -> ->]|H2]; [|by apply Hall].
  unfold claimOrder. cbn. lia.
Qed.

Lemma claimSQL_none table worker lease timeout now locked rows :
  claimSQL table worker lease timeout now locked rows = None ↔ ∀ id j, ~ available table now locked rows id j.
Proof.
  unfold claimSQL. set (l := filter _ _). pose proof (merge_sort_Permutation claimOrder l) as Hp.
  assert (∀ x, x ∈ merge_sort claimOrder l ↔ available table now locked rows x.1 x.2) as Hin.
  { intros [i k]. rewrite Hp. unfold l, available. rewrite list_elem_of_filter, elem_of_map_to_list. cbn. tauto. }
  destruct (merge_sort claimOrder l) as [|[id0 j0] rest]; split; try done.
  - intros _ id j H. apply (Hin (id, j)) in H. by apply elem_of_nil in H.
  - intros H. destruct (H id0 j0). apply (Hin (id0, j0)). set_solver.
Qed.

Lemma claimable_spec table now rows j : claimable table now rows j = true →
  j_CancelRequestedAt j = None ∧ j_Attempts j < j_MaxAttempts j ∧ sweepExpired now j = false
  ∧ sweepableJob now j = true
  ∧ (j_Status j = Pending → j_NextAttemptAt j ≤ now)
  ∧ (table = "publish_jobs" → ∀ id older, rows !! id = Some older → ~ blocksSite j older).
Proof.
  unfold claimable, sweepableJob. intros H. b2p. split_and!; [done|done| | | |].
  - unfold sweepExpired. destruct (j_TimeoutAt j); [|done]. b2p. apply Z.leb_gt. lia.
  - match goal with H : _ || _ = true |- _ => apply orb_true_iff in H as [H|H] end; b2p.
    + apply orb_true_iff. left. by apply bool_decide_eq_true_2.
    + apply orb_true_iff. by right.
  - intros E. match goal with H : _ || _ = true |- _ => apply orb_true_iff in H as [H|H] end; b2p; [done|].
    match goal with H : leaseExpired _ _ = true |- _ => apply leaseExpired_spec in H as [? _] end. congruence.
  - intros E id older Ho Hb. match goal with H : (if _ then _ else _) = true |- _ => rewrite bool_decide_eq_true_2 in H by done end.
    b2p. match goal with H : ~ map_Exists _ _ |- _ => apply H end. by exists id, older.
Qed.

Lemma claimedRow_ok worker lease timeout now j : jobOk j → j_Attempts j < j_MaxAttempts j → jobOk (claimedRow worker lease timeout now j).
Proof. intros (Ha & _) Hlt. split_and!; cbn; [lia|lia| |done]. intros _. split_and!; [done|done|lia]. Qed.

(** The tables after the sweep a claim starts with. *)
Definition sweptTables (now : Z) (table : string) (db db1 : jobDB) : Prop :=
  (∀ t, rowsOf db1 t = rowsOf db t)
  ∨ (∀ t, rowsOf db1 t = if decide (t = table) then sweptRow now <$> rowsOf db table else rowsOf db t).

Lemma sweepIfDue_spec m kind table clock now lock db m1 db1 :
  sweepIfDue m kind table clock now lock db = Ok (m1, db1) →
  m_workerID m1 = m_workerID m ∧ m_lease m1 = m_lease m ∧ sweptTables now table db db1.
Proof.
  unfold sweepIfDue. destruct (match m_nextSweep m !! kind with Some t => clock <? t | None => false end).
  { intros [= <- <-]. split_and!; [done|done|]. by left. }
  intros (db2 & Hs & [= <- <-])%bind_Ok. cbn. split_and!; [done|done|].
  destruct lock as [[]|]; [|left; by cbn in Hs; injection Hs as <-|done]. right. intros t. by eapply sweep_rows.
Qed.

(** What a claim does to the tables and the lease it hands out. *)
Lemma claim_spec m kind timeout clock now lock locked db m' db' lease :
  claim m kind timeout clock now lock locked db = Ok (m', db', lease) →
  ∃ table db1, tableFor kind = Ok table ∧ sweptTables now table db db1
    ∧ match lease with
      | None => (∀ t, rowsOf db' t = rowsOf db1 t) ∧ ∀ id j, ~ available table now locked (rowsOf db1 table) id j
      | Some L => ∃ j, available table now locked (rowsOf db1 table) (l_ID L) j
          ∧ (∀ id2 j2, available table now locked (rowsOf db1 table) id2 j2 → claimOrder (l_ID L, j) (id2, j2))
          ∧ (∀ t, rowsOf db' t = if decide (t = table)
               then <[l_ID L := claimedRow (m_workerID m) (m_lease m) timeout now j]> (rowsOf db1 table) else rowsOf db1 t)
          ∧ l_Kind L = kind ∧ l_WorkerID L = m_workerID m ∧ l_Attempt L = j_Attempts j + 1
          ∧ l_MaxAttempts L = j_MaxAttempts j ∧ l_LeaseUntil L = now + m_lease m
          ∧ l_TimeoutAt L = j_TimeoutAt (claimedRow (m_workerID m) (m_lease m) timeout now j)
      end.
Proof.
  unfold claim. intros (table & Ht & ([m1 db1] & Hsw & H)%bind_Ok)%bind_Ok. exists table, db1.
  destruct (sweepIfDue_spec _ _ _ _ _ _ _ _ _ Hsw) as (Ew & El & Hst). rewrite Ew, El in H.
  destruct (claimSQL table (m_workerID m) (m_lease m) timeout now locked (rowsOf db1 table)) as [[[id row] rows]|] eqn:Hc.
  - injection H as _ <- <-. split_and!; [done|done|]. destruct (claimSQL_some _ _ _ _ _ _ _ _ _ _ Hc) as (j & Hav & -> & -> & Hmin).
    exists j. cbn. split_and!; try done. intros t. unfold rowsOf at 1. cbn. change (default ∅ _) with (rowsOf (setRows db1 table
      (<[id := claimedRow (m_workerID m) (m_lease m) timeout now j]> (rowsOf db1 table))) t). apply rowsOf_set.
  - injection H as _ <- <-. split_and!; [done|done|done|]. exact (proj1 (claimSQL_none _ _ _ _ _ _ _) Hc).
Qed.

(** ** The lease operations *)

Lemma holds_some db L j : holds db L = Some j →
  rowsOf db (leaseTable L) !! l_ID L = Some j ∧ j_Status j = Running ∧ j_LeaseOwner j = Some (l_WorkerID L)
  ∧ j_Attempts j = l_Attempt L.
Proof.
  unfold holds. destruct (rowsOf db (leaseTable L) !! l_ID L) as [k|] eqn:E; [|done]. case_bool_decide as H; [|done].
  intros [= ->]. tauto.
Qed.
Lemma holds_intro db L j : rowsOf db (leaseTable L) !! l_ID L = Some j → j_Status j = Running →
  j_LeaseOwner j = Some (l_WorkerID L) → j_Attempts j = l_Attempt L → holds db L = Some j.
Proof. intros H ? ? ?. unfold holds. rewrite H. by rewrite bool_decide_eq_true_2. Qed.

Definition renewedRow (until : Z) (j : Job) : Job :=
  writeJob j (j_Status j) (j_Attempts j) (j_NextAttemptAt j) (j_LeaseOwner j) (Some until) (j_CancelRequestedAt j)
    (j_TimeoutAt j) (j_Result j) (j_Compensation j) (j_Error j).

(** A probe changes nothing, or renews the lease it holds. *)
Lemma heartbeat_spec m L ev now clock failure ctxDone hb db db' hb' verdict :
  heartbeat m L ev now clock failure ctxDone hb db = (db', hb', verdict) →
  (db' = db ∧ hb_leaseValidUntil hb' = hb_leaseValidUntil hb)
  ∨ ∃ j, holds db L = Some j ∧ hb_leaseValidUntil hb' = now + m_lease m
      ∧ db' = setRows db (leaseTable L) (<[l_ID L := renewedRow (now + m_lease m) j]> (rowsOf db (leaseTable L))).
Proof.
  unfold heartbeat, probe. destruct (heartbeatRenews ev clock hb).
  - unfold renew. destruct failure as [code|].
    + destruct ctxDone; [intros [= <- <- _]; auto|]. destruct (leaseProbeFailure _ _ _); intros [= <- <- _]; auto.
    + destruct (holds db L) as [j|] eqn:Hj.
      * intros [= <- <- _]. right. by exists j.
      * destruct ctxDone; [intros [= <- <- _]; auto|]. destruct (leaseProbeFailure _ _ _); intros [= <- <- _]; auto.
  - destruct (state L failure db) as [[c u]|e]; [intros [= <- <- _]; auto|].
    destruct ctxDone; [intros [= <- <- _]; auto|]. destruct (leaseProbeFailure _ _ _); intros [= <- <- _]; auto.
Qed.

(** The row [finish] writes. *)
Definition finishedRow (L : Lease) (o : Outcome) (clock : Z) (j : Job) : Job :=
  let '(status0, nextAttempt, message0, requeue0) := outcomeDecision clock L o in
  let cancelled := bool_decide (is_Some (j_CancelRequestedAt j)) in
  writeJob j (if cancelled then Cancelled else status0)
    (Z.max (j_Attempts j - (if (if cancelled then false else requeue0) then 1 else 0)) 0) nextAttempt None None
    (j_CancelRequestedAt j) (j_TimeoutAt j) (o_Result o) (coalesce (o_Compensation o) (j_Compensation j))
    (nullableString (if cancelled && bool_decide (message0 = "") then "job cancellation requested" else message0)).

Lemma finish_spec L o clock failure db db' err :
  finish L o clock failure db = (db', err) →
  (db' = db ∧ is_Some err ∧ (failure = None → holds db L = None ∧ err = Some ErrLeaseLost))
  ∨ ∃ j, holds db L = Some j ∧ err = None
      ∧ (∀ t, rowsOf db' t = if decide (t = leaseTable L) then <[l_ID L := finishedRow L o clock j]> (rowsOf db t) else rowsOf db t).
Proof.
  unfold finish. destruct failure as [code|]; [intros [= <- <-]; by left|].
  destruct (holds db L) as [j|] eqn:Hj; [|intros [= <- <-]; by left].
  intros H. right. exists j. unfold finishedRow. destruct (outcomeDecision clock L o) as [[[st nx] msg] rq].
  injection H as <- <-. split_and!; [done|done|]. intros t. rewrite rowsOf_execs, rowsOf_set.
  destruct (decide (t = leaseTable L)) as [->|]; done.
Qed.

Lemma outcomeDecision_status clock L o : (outcomeDecision clock L o).1.1.1 ≠ Running.
Proof. unfold outcomeDecision. repeat case_match; cbn; by intros ?. Qed.

Lemma finishedRow_status L o clock j : j_Status (finishedRow L o clock j) ≠ Running.
Proof.
  unfold finishedRow. pose proof (outcomeDecision_status clock L o) as H.
  destruct (outcomeDecision clock L o) as [[[st nx] msg] rq]. cbn in *. by case_match.
Qed.

Lemma finishedRow_attempts L o clock j :
  j_Attempts (finishedRow L o clock j) ≤ Z.max (j_Attempts j) 0
  ∧ (o_RequeueAfter o ≤ 0 → 0 ≤ j_Attempts j → j_Attempts (finishedRow L o clock j) = j_Attempts j).
Proof.
  unfold finishedRow. destruct (outcomeDecision clock L o) as [[[st nx] msg] rq] eqn:E. cbn. split.
  - destruct (if bool_decide _ then false else rq); lia.
  - intros Hr Ha. assert (rq = false) as ->; [|case_bool_decide; lia].
    unfold outcomeDecision in E. assert ((0 <? o_RequeueAfter o) = false) as Hz by (apply Z.ltb_ge; lia). rewrite Hz in E.
    destruct (o_Err o); [|by injection E as _ _ _ <-].
    repeat case_match; by injection E as _ _ _ <-.
Qed.

Lemma finishedRow_ok L o clock j : jobOk j → jobOk (finishedRow L o clock j).
Proof.
  intros (Ha & _). pose proof (finishedRow_status L o clock j) as Hs. pose proof (finishedRow_attempts L o clock j) as [Hle _].
  assert (j_MaxAttempts (finishedRow L o clock j) = j_MaxAttempts j ∧ 0 ≤ j_Attempts (finishedRow L o clock j)
    ∧ j_LeaseOwner (finishedRow L o clock j) = None ∧ j_LeaseUntil (finishedRow L o clock j) = None) as (E & H0 & ? & ?).
  { unfold finishedRow. destruct (outcomeDecision clock L o) as [[[st nx] msg] rq]. cbn. split_and!; [done|lia|done|done]. }
  split_and!; [done|rewrite E; lia|done|done].
Qed.

(** ** The system *)

(** The tables, the run each worker is in with its heartbeat, and the time. *)
Record system := System { s_db : jobDB; s_held : gmap string (Lease * heartbeatState); s_now : Z }.

Inductive sysEvent :=
| EvClaim (kind : Kind) (id : string) | EvIdle | EvBeat (worker : string) | EvEnd (worker : string) (o : Outcome)
| EvCancel (kind : Kind) (id : string) | EvReplay (kind : Kind) (id : string) | EvCreate (kind : Kind) (id : string).

Definition newJob (j : Job) : Prop :=
  j_Status j = Pending ∧ j_Attempts j = 0 ∧ 0 ≤ j_MaxAttempts j ∧ j_LeaseOwner j = None ∧ j_LeaseUntil j = None.

(** One step, at a time not before the last one. *)
Inductive sysStep (s : system) : sysEvent → system → Prop :=
| SysClaim m kind timeout clock now lock locked m' db' L :
    s_now s ≤ now → 0 < m_lease m → s_held s !! m_workerID m = None →
    claim m kind timeout clock now lock locked (s_db s) = Ok (m', db', Some L) →
    sysStep s (EvClaim kind (l_ID L)) (System db' (<[m_workerID m := (L, heartbeatStart m L clock)]> (s_held s)) now)
| SysIdle m kind timeout clock now lock locked m' db' :
    s_now s ≤ now → claim m kind timeout clock now lock locked (s_db s) = Ok (m', db', None) →
    sysStep s EvIdle (System db' (s_held s) now)
| SysBeat m L hb ev now clock failure ctxDone db' hb' verdict :
    s_now s ≤ now → s_held s !! m_workerID m = Some (L, hb) →
    heartbeat m L ev now clock failure ctxDone hb (s_db s) = (db', hb', verdict) →
    sysStep s (EvBeat (m_workerID m)) (System db' (<[m_workerID m := (L, hb')]> (s_held s)) now)
| SysEnd w L hb ran shutdown lost now clock failure db' err :
    s_now s ≤ now → s_held s !! w = Some (L, hb) →
    endRun L ran shutdown lost clock failure (s_db s) = (db', err) →
    sysStep s (EvEnd w (invokeHandler ran)) (System db' (delete w (s_held s)) now)
| SysCancel kind id now db' :
    s_now s ≤ now → Cancel (s_db s) kind id now = Ok db' → sysStep s (EvCancel kind id) (System db' (s_held s) now)
| SysReplay kind id now db' :
    s_now s ≤ now → Replay (s_db s) kind id now = Ok db' → sysStep s (EvReplay kind id) (System db' (s_held s) now)
| SysCreate kind table id j now :
    s_now s ≤ now → tableFor kind = Ok table → rowsOf (s_db s) table !! id = None → newJob j →
    sysStep s (EvCreate kind id) (System (setRows (s_db s) table (<[id := j]> (rowsOf (s_db s) table))) (s_held s) now).

(** How one row moves; [t] and [id] name the row. *)
Inductive jobMove (now : Z) (t id : string) : sysEvent → Job → Job → Prop :=
| MoveNone ev j : (∀ kind, ev = EvClaim kind id → tableFor kind ≠ Ok t) → jobMove now t id ev j j
| MoveSwept ev status message j :
    sweepableJob now j = true → status = Cancelled ∨ status = DeadLetter →
    (∀ kind, ev = EvClaim kind id → tableFor kind ≠ Ok t) →
    jobMove now t id ev j (closeJob status message j)
| MoveClaim kind worker lease timeout j :
    tableFor kind = Ok t → sweepableJob now j = true → j_CancelRequestedAt j = None → j_Attempts j < j_MaxAttempts j →
    sweepExpired now j = false →
    jobMove now t id (EvClaim kind id) j (claimedRow worker lease timeout now j)
| MoveRenew w until j :
    j_Status j = Running → j_LeaseOwner j = Some w → jobMove now t id (EvBeat w) j (renewedRow until j)
| MoveFinish w L o clock j :
    j_Status j = Running → j_LeaseOwner j = Some w → jobMove now t id (EvEnd w o) j (finishedRow L o clock j)
| MoveCancel kind j :
    j_Status j = Pending ∨ j_Status j = Running →
    jobMove now t id (EvCancel kind id) j
      (writeJob j (if bool_decide (j_Status j = Pending) then Cancelled else j_Status j) (j_Attempts j) (j_NextAttemptAt j)
        (j_LeaseOwner j) (j_LeaseUntil j) (Some now) (j_TimeoutAt j) (j_Result j) (j_Compensation j) (j_Error j))
| MoveReplay kind j :
    tableFor kind = Ok t → j_Status j = Failed ∨ j_Status j = DeadLetter ∨ j_Status j = Cancelled →
    jobMove now t id (EvReplay kind id) j (writeJob j Pending 0 now None None None None None None None).

Lemma jobMove_ok now t id ev j j' : jobMove now t id ev j j' → jobOk j → jobOk j'.
Proof.
  intros Hm Hok. destruct Hm as [| ev status message j Hs Hst|kind worker lease timeout j ? Hs Hc Hlt|w until j Hr Ho|w L o clock j Hr Ho|kind j Hs|kind j Ht Hs].
  - done.
  - destruct Hok as (Ha & _). split_and!; cbn; [lia|lia| |done]. intros ->. by destruct Hst.
  - by apply claimedRow_ok.
  - destruct Hok as (Ha & Hrun & _). destruct (Hrun Hr) as (? & ? & ?). split_and!; cbn; [lia|lia| |done]. done.
  - by apply finishedRow_ok.
  - destruct Hok as (Ha & Hrun & Hn). split_and!; cbn; [lia|lia| |].
    + case_bool_decide; [done|]. auto.
    + case_bool_decide as E; [|done]. intros _. apply Hn. congruence.
  - destruct Hok as (Ha & _). split_and!; cbn; [lia|lia|done|done].
Qed.

(** The sweep of a claim, on one row. *)
Lemma sweptTables_row now table db db1 t id j :
  sweptTables now table db db1 → rowsOf db t !! id = Some j →
  ∃ j1, rowsOf db1 t !! id = Some j1
    ∧ (j1 = j ∨ (sweepableJob now j = true ∧ ∃ status message, j1 = closeJob status message j ∧ (status = Cancelled ∨ status = DeadLetter))).
Proof.
  intros [H|H] Hj; rewrite H; [eauto|]. destruct (decide (t = table)) as [->|]; [|eauto].
  rewrite lookup_fmap, Hj. eexists. split; [reflexivity|].
  destruct (sweptRow_cases now j) as [[-> _]|(Hs & status & message & -> & Hst)]; [auto|]. right. split; [done|].
  exists status, message. split; [done|]. rewrite Hst. case_decide; auto.
Qed.

(** A row that is available after the sweep was not swept. *)
Lemma available_unswept now table db db1 locked id j j1 :
  sweptTables now table db db1 → rowsOf db table !! id = Some j → available table now locked (rowsOf db1 table) id j1 → j1 = j.
Proof.
  intros Hsw Hj (Hj1 & Hc & _). destruct (sweptTables_row _ _ _ _ _ _ _ Hsw Hj) as (j2 & Hj2 & Hcase).
  rewrite Hj1 in Hj2. apply (inj Some) in Hj2 as <-. destruct Hcase as [|(_ & status & message & -> & Hst)]; [done|].
  apply claimable_spec in Hc as (_ & _ & _ & Hs & _). rewrite closed_not_sweepable in Hs; [done|by destruct Hst as [-> | ->]..].
Qed.

(** A statement that writes one row. *)
Lemma point_move db db' t0 id0 k' now ev t id j :
  (∀ u, rowsOf db' u = if decide (u = t0) then <[id0 := k']> (rowsOf db u) else rowsOf db u) →
  (∀ kind, ev ≠ EvClaim kind id) → rowsOf db t !! id = Some j →
  (t = t0 → id = id0 → jobMove now t id ev j k') →
  ∃ j', rowsOf db' t !! id = Some j' ∧ jobMove now t id ev j j'.
Proof.
  intros Hrows Hev Hj Hmove. rewrite Hrows. assert (jobMove now t id ev j j) as Hstay by (apply MoveNone; intros kind E; by destruct (Hev kind)).
  destruct (decide (t = t0)) as [->|]; [|eauto].
  destruct (decide (id = id0)) as [->|]; [rewrite lookup_insert_eq|rewrite lookup_insert_ne by done]; eauto.
Qed.
Lemma setRows_point db table id k' u :
  rowsOf (setRows db table (<[id := k']> (rowsOf db table))) u
  = if decide (u = table) then <[id := k']> (rowsOf db u) else rowsOf db u.
Proof. rewrite rowsOf_set. by destruct (decide (u = table)) as [->|]. Qed.

(** An operator's statement. *)
Lemma updateJobWhere_move db table i cond f none db' now ev t id j :
  updateJobWhere db table i cond f none = Ok db' → (∀ kind, ev ≠ EvClaim kind id) → rowsOf db t !! id = Some j →
  (t = table → id = i → cond j = true → jobMove now t id ev j (f j)) →
  ∃ j', rowsOf db' t !! id = Some j' ∧ jobMove now t id ev j j'.
Proof.
  unfold updateJobWhere. intros Hc Hev Hj Hmove. destruct (rowsOf db table !! i) as [k|] eqn:Hk; [|done].
  destruct (cond k) eqn:Hcond; [|done]. injection Hc as <-.
  eapply point_move; [apply setRows_point|done|done|]. intros -> ->.
  rewrite Hj in Hk. apply (inj Some) in Hk as <-. auto.
Qed.

(** The row of a lease that is held. *)
Lemma holds_row s w L hb k t id j :
  (∀ w L hb, s_held s !! w = Some (L, hb) → l_WorkerID L = w) → s_held s !! w = Some (L, hb) →
  holds (s_db s) L = Some k → rowsOf (s_db s) t !! id = Some j → t = leaseTable L → id = l_ID L →
  k = j ∧ j_Status j = Running ∧ j_LeaseOwner j = Some w.
Proof.
  intros Hheld Hh Hk Hj -> ->. apply holds_some in Hk as (Hk & Hr & Ho & _). rewrite (Hheld _ _ _ Hh) in Ho.
  rewrite Hj in Hk. apply (inj Some) in Hk as <-. done.
Qed.

(** A claim. *)
Lemma claim_move m kind timeout clock now lock locked db m' db' lease t id j :
  claim m kind timeout clock now lock locked db = Ok (m', db', lease) → rowsOf db t !! id = Some j →
  ∃ j', rowsOf db' t !! id = Some j'
    ∧ jobMove now t id (match lease with Some L => EvClaim kind (l_ID L) | None => EvIdle end) j j'.
Proof.
  intros Hc Hj. destruct (claim_spec _ _ _ _ _ _ _ _ _ _ _ Hc) as (table & db1 & Ht & Hsw & Hlease).
  destruct (sweptTables_row _ _ _ _ _ _ _ Hsw Hj) as (j1 & Hj1 & Hcase).
  assert (∀ ev, (∀ kind0, ev = EvClaim kind0 id → tableFor kind0 ≠ Ok t) → jobMove now t id ev j j1) as Hother.
  { intros ev Hev. destruct Hcase as [->|(Hs & status & message & -> & Hst)]; [by apply MoveNone|by apply MoveSwept]. }
  destruct lease as [L|]; [|destruct Hlease as [Hrows _]; rewrite Hrows; exists j1; auto].
  destruct Hlease as (k & Hav & _ & Hrows & _). rewrite Hrows.
  destruct (decide (t = table)) as [->|Hne]; [|exists j1; split; [done|]; apply Hother; intros ? [= <- _]; congruence].
  destruct (decide (id = l_ID L)) as [->|Hne].
  - rewrite lookup_insert_eq. pose proof (available_unswept _ _ _ _ _ _ _ _ Hsw Hj Hav) as ->.
    eexists. split; [reflexivity|]. destruct Hav as (_ & Hcl & _). apply claimable_spec in Hcl as (? & ? & ? & ? & _).
    by apply MoveClaim.
  - rewrite lookup_insert_ne by done. exists j1. split; [done|]. apply Hother. intros ? [= _ ?]. congruence.
Qed.

(** Every step moves every row along the state machine. *)
Lemma step_move s ev s' t id j :
  sysStep s ev s' → (∀ w L hb, s_held s !! w = Some (L, hb) → l_WorkerID L = w) → rowsOf (s_db s) t !! id = Some j →
  ∃ j', rowsOf (s_db s') t !! id = Some j' ∧ jobMove (s_now s') t id ev j j'.
Proof.
  intros Hstep Hheld Hj. destruct Hstep as [m kind timeout clock now lock locked m' db' L Hnow Hpos Hno Hc|m kind timeout clock now lock locked m' db' Hnow Hc|m L hb ev now clock failure ctxDone db' hb' verdict Hnow Hh Hb|w L hb ran shutdown lost now clock failure db' err Hnow Hh He|kind i now db' Hnow Hc|kind i now db' Hnow Hc|kind table i k now Hnow Ht Hn Hk]; cbn.
  - exact (claim_move _ _ _ _ _ _ _ _ _ _ _ _ _ _ Hc Hj).
  - exact (claim_move _ _ _ _ _ _ _ _ _ _ _ _ _ _ Hc Hj).
  - destruct (heartbeat_spec _ _ _ _ _ _ _ _ _ _ _ _ Hb) as [[-> _]|(k & Hk & _ & ->)]; [exists j; split; [done|by apply MoveNone]|].
    eapply point_move; [apply setRows_point|done|done|]. intros Et Ei.
    destruct (holds_row _ _ _ _ _ _ _ _ Hheld Hh Hk Hj Et Ei) as (-> & ? & ?). by apply MoveRenew.
  - unfold endRun in He. destruct shutdown; [injection He as <- _; exists j; split; [done|by apply MoveNone]|].
    destruct lost; [injection He as <- _; exists j; split; [done|by apply MoveNone]|].
    destruct (finish_spec _ _ _ _ _ _ _ He) as [[-> _]|(k & Hk & _ & Hrows)]; [exists j; split; [done|by apply MoveNone]|].
    eapply point_move; [exact Hrows|done|done|]. intros Et Ei.
    destruct (holds_row _ _ _ _ _ _ _ _ Hheld Hh Hk Hj Et Ei) as (-> & ? & ?). by apply MoveFinish.
  - unfold Cancel in Hc. apply bind_Ok in Hc as (table & Ht & Hc). eapply updateJobWhere_move; [exact Hc|done|done|].
    intros -> -> Hcond%bool_decide_eq_true. by apply MoveCancel.
  - unfold Replay in Hc. apply bind_Ok in Hc as (table & Ht & Hc). eapply updateJobWhere_move; [exact Hc|done|done|].
    intros -> -> Hcond%bool_decide_eq_true. by apply MoveReplay.
  - eapply point_move; [apply setRows_point|done|done|]. intros -> ->. congruence.
Qed.

(** Rows appear by creation only. *)
Lemma step_created s ev s' t id j' :
  sysStep s ev s' → rowsOf (s_db s') t !! id = Some j' → rowsOf (s_db s) t !! id = None → newJob j'.
Proof.
  assert (∀ db db' t0 id0 k k', (∀ u, rowsOf db' u = if decide (u = t0) then <[id0 := k']> (rowsOf db u) else rowsOf db u) →
    rowsOf db t0 !! id0 = Some k → rowsOf db' t !! id = Some j' → rowsOf db t !! id = None → False) as Hpoint.
  { intros db db' t0 id0 k k' Hrows Hk. rewrite Hrows. destruct (decide (t = t0)) as [->|]; [|congruence].
    intros [[<- _]|[_ ?]]%lookup_insert_Some; congruence. }
  assert (∀ now table db db1, sweptTables now table db db1 → rowsOf db1 t !! id = Some j' → is_Some (rowsOf db t !! id)) as Hswept.
  { intros now table db db1 [H|H]; rewrite H; [done|]. destruct (decide (t = table)) as [->|]; [|done].
    rewrite lookup_fmap. destruct (rowsOf db table !! id); done. }
  intros Hstep Hj' Hn. destruct Hstep as [m kind timeout clock now lock locked m' db' L Hnow Hpos Hno Hc|m kind timeout clock now lock locked m' db' Hnow Hc|m L hb ev now clock failure ctxDone db' hb' verdict Hnow Hh Hb|w L hb ran shutdown lost now clock failure db' err Hnow Hh He|kind i now db' Hnow Hc|kind i now db' Hnow Hc|kind table i k now Hnow Ht Hk0 Hk]; cbn in Hj'.
  - destruct (claim_spec _ _ _ _ _ _ _ _ _ _ _ Hc) as (table & db1 & Ht & Hsw & k & (Hk & _) & _ & Hrows & _). rewrite Hrows in Hj'.
    destruct (decide (t = table)) as [->|]; [|destruct (Hswept _ _ _ _ Hsw Hj'); congruence].
    apply lookup_insert_Some in Hj' as [[<- _]|[_ Hj']]; [|destruct (Hswept _ _ _ _ Hsw Hj'); congruence].
    exfalso. destruct Hsw as [H|H]; rewrite H in Hk; [congruence|]. rewrite decide_True, lookup_fmap, Hn in Hk by done. done.
  - destruct (claim_spec _ _ _ _ _ _ _ _ _ _ _ Hc) as (table & db1 & Ht & Hsw & Hrows & _). rewrite Hrows in Hj'.
    destruct (Hswept _ _ _ _ Hsw Hj'). congruence.
  - destruct (heartbeat_spec _ _ _ _ _ _ _ _ _ _ _ _ Hb) as [[-> _]|(k & Hk & _ & ->)]; [congruence|].
    apply holds_some in Hk as (Hk & _). by destruct (Hpoint _ _ _ _ k _ (setRows_point _ _ _ _) Hk Hj' Hn).
  - unfold endRun in He. destruct shutdown; [injection He as <- _; congruence|].
    destruct lost; [injection He as <- _; congruence|].
    destruct (finish_spec _ _ _ _ _ _ _ He) as [[-> _]|(k & Hk & _ & Hrows)]; [congruence|].
    apply holds_some in Hk as (Hk & _). by destruct (Hpoint _ _ _ _ k _ Hrows Hk Hj' Hn).
  - apply bind_Ok in Hc as (table & Ht & Hc). unfold updateJobWhere in Hc.
    destruct (rowsOf (s_db s) table !! i) as [k|] eqn:Hk; [|done]. destruct (bool_decide _); [|done]. injection Hc as <-.
    by destruct (Hpoint _ _ _ _ k _ (setRows_point _ _ _ _) Hk Hj' Hn).
  - apply bind_Ok in Hc as (table & Ht & Hc). unfold updateJobWhere in Hc.
    destruct (rowsOf (s_db s) table !! i) as [k|] eqn:Hk; [|done]. destruct (bool_decide _); [|done]. injection Hc as <-.
    by destruct (Hpoint _ _ _ _ k _ (setRows_point _ _ _ _) Hk Hj' Hn).
  - rewrite setRows_point in Hj'. destruct (decide (t = table)) as [->|]; [|congruence].
    apply lookup_insert_Some in Hj' as [[-> <-]|[_ ?]]; [done|congruence].
Qed.

(** ** The invariant *)

Record sysOk (s : system) : Prop := {
  so_tables : tablesOk (s_db s);
  so_time : 0 ≤ s_now s;
  so_worker : ∀ w L hb, s_held s !! w = Some (L, hb) → l_WorkerID L = w;
  so_lease : ∀ w L hb, s_held s !! w = Some (L, hb) → s_now s < hb_leaseValidUntil hb →
    ∃ j u, holds (s_db s) L = Some j ∧ j_LeaseUntil j = Some u ∧ hb_leaseValidUntil hb ≤ u;
}.

(** While a lease lasts, only its owner moves the job. *)
Lemma move_keeps now t id ev j j' w u :
  jobMove now t id ev j j' → j_Status j = Running → j_LeaseOwner j = Some w → j_LeaseUntil j = Some u → now < u →
  ev ≠ EvBeat w → (∀ o, ev ≠ EvEnd w o) →
  j_Status j' = Running ∧ j_LeaseOwner j' = Some w ∧ j_LeaseUntil j' = Some u ∧ j_Attempts j' = j_Attempts j.
Proof.
  intros Hm Hr Ho Hu Hlt Hb He.
  assert (sweepableJob now j = true → False) as Hns.
  { rewrite sweepable_spec. intros [?|[_ H]]; [congruence|]. specialize (H u Hu). lia. }
  destruct Hm as [|? ? ? ? Hs|? ? ? ? ? ? Hs|w' until ? ? Ho'|w' ? ? ? ? ? Ho'|kind ? Hs|kind ? ? Hs]; try by destruct (Hns Hs).
  - done.
  - congruence.
  - rewrite Ho in Ho'. injection Ho' as ->. by destruct (He o).
  - cbn. rewrite Hr. done.
  - rewrite Hr in Hs. by destruct Hs as [|[|]].
Qed.

Lemma step_time s ev s' : sysStep s ev s' → s_now s ≤ s_now s'.
Proof. by destruct 1. Qed.

(** The leases of the workers a step does not concern. *)
Lemma lease_kept s ev s' w L hb :
  sysOk s → sysStep s ev s' → s_held s !! w = Some (L, hb) → ev ≠ EvBeat w → (∀ o, ev ≠ EvEnd w o) →
  s_now s' < hb_leaseValidUntil hb →
  ∃ j u, holds (s_db s') L = Some j ∧ j_LeaseUntil j = Some u ∧ hb_leaseValidUntil hb ≤ u.
Proof.
  intros [Hok _ Hw Hl] Hstep Hh Hb He Hlt. pose proof (step_time _ _ _ Hstep).
  destruct (Hl _ _ _ Hh) as (j & u & Hj & Hu & Hle); [lia|]. apply holds_some in Hj as (Hj & Hr & Ho & Ha).
  rewrite (Hw _ _ _ Hh) in Ho. destruct (step_move _ _ _ _ _ _ Hstep Hw Hj) as (j' & Hj' & Hm).
  destruct (move_keeps _ _ _ _ _ _ w u Hm Hr Ho Hu) as (Hr' & Ho' & Hu' & Ha'); [lia|done|done|].
  exists j', u. split_and!; [|done|done]. apply holds_intro; [done|done| |congruence]. by rewrite (Hw _ _ _ Hh).
Qed.

Lemma sys_step_ok s ev s' : sysOk s → sysStep s ev s' → sysOk s'.
Proof.
  intros Hs Hstep. pose proof Hs as [Hok H0 Hw Hl]. pose proof (lease_kept s ev s') as Hkept. split.
  - intros t id j' Hj'. destruct (rowsOf (s_db s) t !! id) as [j|] eqn:Hj.
    + destruct (step_move _ _ _ _ _ _ Hstep Hw Hj) as (j2 & Hj2 & Hm). rewrite Hj' in Hj2. apply (inj Some) in Hj2 as <-.
      eapply jobMove_ok; [done|by eapply Hok].
    + destruct (step_created _ _ _ _ _ _ Hstep Hj' Hj) as (E1 & E2 & E3 & E4 & E5). split_and!; [lia|lia|congruence|done].
  - pose proof (step_time _ _ _ Hstep). lia.
  - destruct Hstep; cbn; try done; intros w' L' hb2; [intros [[<- [= <- <-]]|[_ ?]]%lookup_insert_Some|intros [[<- [= <- <-]]|[_ ?]]%lookup_insert_Some|intros [_ ?]%lookup_delete_Some]; eauto.
    match goal with H : claim _ _ _ _ _ _ _ _ = _ |- _ => destruct (claim_spec _ _ _ _ _ _ _ _ _ _ _ H) as (? & ? & _ & _ & ? & _ & _ & _ & _ & ? & _) end.
    done.
  - intros w L hb Hh Hlt. specialize (Hkept w L hb Hs Hstep).
    destruct Hstep as [m kind timeout clock now lock locked m' db' L0 Hnow Hpos Hno Hc|m kind timeout clock now lock locked m' db' Hnow Hc|m L0 hb0 ev now clock failure ctxDone db' hb' verdict Hnow Hh0 Hb|w0 L0 hb0 ran shutdown lost now clock failure db' err Hnow Hh0 He|kind i now db' Hnow Hc|kind i now db' Hnow Hc|kind table i k now Hnow Ht Hn Hk]; cbn in *.
    + apply lookup_insert_Some in Hh as [[<- [= <- <-]]|[Hne Hh]]; [|by apply Hkept].
      destruct (claim_spec _ _ _ _ _ _ _ _ _ _ _ Hc) as (table & db1 & Ht & _ & j & _ & _ & Hrows & Ek & Ew & Ea & _ & Eu & _).
      assert (leaseTable L0 = table) as Elt by (unfold leaseTable; by rewrite Ek, Ht).
      exists (claimedRow (m_workerID m) (m_lease m) timeout now j), (now + m_lease m). split_and!; [|done|cbn; rewrite Eu; unfold isZeroTime; destruct (Z.eqb_spec (now + m_lease m) zeroTime); unfold zeroTime in *; lia].
      apply holds_intro; cbn; [|done|congruence|congruence]. by rewrite Hrows, Elt, decide_True, lookup_insert_eq by done.
    + by apply Hkept.
    + apply lookup_insert_Some in Hh as [[<- [= <- <-]]|[Hne Hh]]; [|apply Hkept; [done|congruence|done|done]].
      destruct (heartbeat_spec _ _ _ _ _ _ _ _ _ _ _ _ Hb) as [[-> E]|(k & Hk & E & ->)].
      * rewrite E in *. apply (Hl _ _ _ Hh0). lia.
      * apply holds_some in Hk as (Hk & Hr & Ho & Ha). exists (renewedRow (now + m_lease m) k), (now + m_lease m). split_and!; [|done|lia].
        apply holds_intro; [rewrite setRows_point, decide_True, lookup_insert_eq by done; reflexivity|done..].
    + apply lookup_delete_Some in Hh as [Hne Hh]. apply Hkept; [done|done|congruence|done].
    + by apply Hkept.
    + by apply Hkept.
    + by apply Hkept.
Qed.

Definition sysAny (s s' : system) : Prop := ∃ ev, sysStep s ev s'.
Definition initialSystem : system := System (JobDB ∅ []) ∅ 0.

Lemma initial_ok : sysOk initialSystem.
Proof. split; cbn; try done. Qed.

Lemma reach_ok s s' : sysOk s → rtc sysAny s s' → sysOk s'.
Proof. intros Hok. induction 1 as [|s1 s2 s3 [ev Hs] _ IH]; [done|]. apply IH. by eapply sys_step_ok. Qed.

(** ** The theorems *)

(** C2. Leases are exclusive.  In every reachable state, a worker whose heartbeat
    still counts its lease as valid at the database's time owns the job: its
    writes are accepted, and every other run of the same job has lost its
    lease, by its own account too, and is refused with [ErrLeaseLost] without
    any change.  Every row has its attempts within its budget, and an owner
    exactly while it runs. *)
Theorem lease_exclusive s w L hb :
  rtc sysAny initialSystem s → s_held s !! w = Some (L, hb) → s_now s < hb_leaseValidUntil hb →
  tablesOk (s_db s)
  ∧ (∃ j, holds (s_db s) L = Some j)
  ∧ (∀ o clock, (finish L o clock None (s_db s)).2 = None)
  ∧ ∀ w' L' hb', s_held s !! w' = Some (L', hb') → w' ≠ w → l_Kind L' = l_Kind L → l_ID L' = l_ID L →
      hb_leaseValidUntil hb' ≤ s_now s ∧ ∀ o clock, finish L' o clock None (s_db s) = (s_db s, Some ErrLeaseLost).
Proof.
  intros Hreach Hh Hlt. destruct (reach_ok _ _ initial_ok Hreach) as [Hok _ Hw Hl].
  destruct (Hl _ _ _ Hh Hlt) as (j & u & Hj & _). split_and!; [done|by exists j| |].
  - intros o clock. destruct (finish L o clock None (s_db s)) as [db' err] eqn:E.
    destruct (finish_spec _ _ _ _ _ _ _ E) as [(_ & _ & H)|(k & _ & -> & _)]; [|done]. destruct (H eq_refl). congruence.
  - intros w' L' hb' Hh' Hne Ek Ei.
    assert (holds (s_db s) L' = None) as Hnone.
    { destruct (holds (s_db s) L') as [j'|] eqn:Hj'; [|done]. apply holds_some in Hj as (Hj & _ & Ho & _).
      apply holds_some in Hj' as (Hj' & _ & Ho' & _). unfold leaseTable in *. rewrite Ek, Ei in Hj'. rewrite Hj in Hj'.
      apply (inj Some) in Hj' as <-. rewrite (Hw _ _ _ Hh) in Ho. rewrite (Hw _ _ _ Hh') in Ho'. congruence. }
    split.
    + apply Z.nlt_ge. intros Hlt'. destruct (Hl _ _ _ Hh' Hlt') as (j' & _ & Hj' & _). congruence.
    + intros o clock. unfold finish. by rewrite Hnone.
Qed.

(** *** Attempts *)

(** Steps that neither replay the job nor give an attempt back. *)
Definition plainEvent (t id : string) (ev : sysEvent) : Prop :=
  match ev with
  | EvReplay kind id' => ~ (tableFor kind = Ok t ∧ id' = id)
  | EvEnd _ o => o_RequeueAfter o ≤ 0
  | _ => True
  end.
Definition claimsJob (t id : string) (ev : sysEvent) : nat :=
  match ev with
  | EvClaim kind id' => match tableFor kind with Ok t' => if bool_decide (t' = t ∧ id' = id) then 1 else 0 | Err _ => 0 end
  | _ => 0
  end%nat.

(** A run with the number of times the job was claimed. *)
Inductive runClaims (t id : string) : nat → system → system → Prop :=
| RunNil s : runClaims t id 0 s s
| RunStep s ev s1 n s2 :
    sysStep s ev s1 → plainEvent t id ev → runClaims t id n s1 s2 → runClaims t id (claimsJob t id ev + n) s s2.

Lemma move_attempts now t id ev j j' :
  jobMove now t id ev j j' → jobOk j → plainEvent t id ev →
  j_MaxAttempts j' = j_MaxAttempts j ∧ j_Attempts j + Z.of_nat (claimsJob t id ev) ≤ j_Attempts j'
  ∧ (terminal j → j' = j ∧ claimsJob t id ev = 0%nat).
Proof.
  assert (∀ ev', (∀ kind, ev' = EvClaim kind id → tableFor kind ≠ Ok t) → claimsJob t id ev' = 0%nat) as Hz.
  { intros ev' H. unfold claimsJob. destruct ev'; try done. destruct (tableFor kind) eqn:E; [|done].
    case_bool_decide as Hd; [|done]. destruct Hd as [-> ->]. by destruct (H kind). }
  intros Hm (Ha & _) Hp. destruct Hm as [|? ? ? ? Hs ? Hoth|? ? ? ? ? ? Hs|w' until ? Hr|w' L o clock j Hr|kind ? Hs|kind ? ? Hs].
  - rewrite Hz by done. split_and!; [done|lia|done].
  - rewrite Hz by done. split_and!; [done|cbn; lia|]. intros [? ?]. apply sweepable_spec in Hs as [?|[? _]]; congruence.
  - unfold claimsJob. split_and!; [done| |].
    + cbn. destruct (tableFor kind); [|lia]. case_bool_decide; lia.
    + intros [? ?]. apply sweepable_spec in Hs as [?|[? _]]; congruence.
  - split_and!; [done|cbn; lia|]. intros [_ ?]. congruence.
  - cbn in Hp. split_and!; [|cbn; destruct (finishedRow_attempts L o clock j) as [_ Hfa]; rewrite Hfa by lia; lia|].
    + unfold finishedRow. by destruct (outcomeDecision clock L o) as [[[? ?] ?] ?].
    + intros [_ ?]. congruence.
  - split_and!; [done|cbn; lia|]. intros [? ?]. by destruct Hs.
  - destruct Hp. done.
Qed.

(** C10. A job is tried a bounded number of times.  From any reachable state, in any
    run in which the job is not replayed and no handler gives its attempt
    back, the job is claimed at most as often as its remaining budget allows,
    and once it succeeded, failed, was cancelled or dead-lettered its row never
    changes and it is never claimed again. *)
Theorem claims_bounded s s' t id j n :
  rtc sysAny initialSystem s → rowsOf (s_db s) t !! id = Some j → runClaims t id n s s' →
  Z.of_nat n ≤ j_MaxAttempts j - j_Attempts j
  ∧ ∃ j', rowsOf (s_db s') t !! id = Some j' ∧ j_Attempts j + Z.of_nat n ≤ j_Attempts j' ≤ j_MaxAttempts j
    ∧ (terminal j → j' = j ∧ n = 0%nat).
Proof.
  intros Hreach Hj Hrun. pose proof (reach_ok _ _ initial_ok Hreach) as Hok. clear Hreach. revert j Hok Hj.
  induction Hrun as [s|s ev s1 n s2 Hs Hp Hrun IH]; intros j Hok Hj.
  - destruct (so_tables _ Hok _ _ _ Hj) as (Ha & _). split; [lia|]. exists j. split_and!; [done|lia|lia|done].
  - destruct (step_move _ _ _ _ _ _ Hs (so_worker _ Hok) Hj) as (j1 & Hj1 & Hm).
    destruct (move_attempts _ _ _ _ _ _ Hm (so_tables _ Hok _ _ _ Hj) Hp) as (Em & Ha & Ht).
    destruct (IH j1 (sys_step_ok _ _ _ Hok Hs) Hj1) as (Hn & j2 & Hj2 & [Hb1 Hb2] & Ht2). rewrite Em in *.
    split; [lia|]. exists j2. split_and!; [done|lia|lia|].
    intros Hterm. destruct (Ht Hterm) as [-> ->]. destruct (Ht2 Hterm) as [-> ->]. done.
Qed.

(** *** Sweeping and claiming *)

(** A sweep that gets the lock leaves no job stuck: afterwards every job that is
    waiting or whose lease ran out can still be claimed (it is not being
    cancelled, is within its deadline and has attempts left); jobs with a
    lease that lasts and finished jobs are untouched; jobs being cancelled end
    as CANCELLED, the others that cannot run again as DEAD_LETTER. *)
Theorem sweep_leaves_runnable kind table now db :
  ∃ db', sweep kind table now (Ok true) db = Ok db'
    ∧ ∀ id j, rowsOf db table !! id = Some j → ∃ j', rowsOf db' table !! id = Some j'
      ∧ (sweepableJob now j' = true → j_CancelRequestedAt j' = None ∧ sweepExpired now j' = false ∧ j_Attempts j' < j_MaxAttempts j')
      ∧ (sweepableJob now j = false → j' = j)
      ∧ (j' = j ∨ (j_Status j' = (if decide (is_Some (j_CancelRequestedAt j)) then Cancelled else DeadLetter)
                   ∧ j_LeaseOwner j' = None ∧ is_Some (j_Error j'))).
Proof.
  eexists. split; [reflexivity|]. intros id j Hj. exists (sweptRow now j). split.
  { rewrite (sweep_rows kind table now db _ table eq_refl), decide_True by done. by rewrite lookup_fmap, Hj. }
  destruct (sweptRow_cases now j) as [[E H]|(Hs & status & message & E & Hst)]; rewrite E.
  - split_and!; [done|done|auto].
  - split_and!.
    + rewrite closed_not_sweepable; [done|rewrite Hst; by case_decide..].
    + congruence.
    + right. cbn. split_and!; [done|done|]. by destruct (j_Error j).
Qed.

(** A job available before the sweep is available after it. *)
Lemma available_swept now table locked db db1 id j :
  sweptTables now table db db1 → available table now locked (rowsOf db table) id j →
  available table now locked (rowsOf db1 table) id j.
Proof.
  intros [H|H] Hav; rewrite H; [done|]. rewrite decide_True by done. destruct Hav as (Hj & Hc & Hl).
  pose proof (claimable_spec _ _ _ _ Hc) as (Hcr & Hat & Hex & Hs & _).
  assert (sweptRow now j = j) as Ej.
  { destruct (sweptRow_cases now j) as [[E _]|(_ & status & message & _ & _)]; [done|].
    unfold sweptRow, swept, sweepCancelled, sweepExhausted. rewrite Hcr, bool_decide_eq_false_2 by apply is_Some_None. cbn.
    rewrite Hex. cbn. destruct (Z.leb_spec (j_MaxAttempts j) (j_Attempts j)); [lia|done]. }
  split_and!; [by rewrite lookup_fmap, Hj; cbn; rewrite Ej| |done].
  unfold claimable in *. apply andb_true_iff in Hc as [Hc Hsite]. apply andb_true_iff. split; [done|].
  destruct (bool_decide (table = "publish_jobs")); [|done]. apply negb_true_iff, bool_decide_eq_false in Hsite.
  apply negb_true_iff, bool_decide_eq_false. intros (i & k & Hk & Hb). rewrite lookup_fmap in Hk.
  destruct (rowsOf db table !! i) as [k0|] eqn:Hk0; [|done]. apply (inj Some) in Hk as <-. apply Hsite. exists i, k0. split; [done|].
  destruct (sweptRow_cases now k0) as [[E _]|(_ & status & message & E & Hst)]; rewrite E in Hb; [done|].
  destruct Hb as (_ & _ & _ & Hb). cbn in Hb. rewrite Hst in Hb. by destruct (decide _), Hb.
Qed.

(** A claim takes the earliest runnable job, and always finds one if there is
    one: it never fails when the sweep lock could be asked for, returns no
    lease only when no job of the table is due, unlocked and within its
    limits, and otherwise hands the worker a valid lease on the earliest such
    job; for publish jobs no older version of the same site is still active. *)
Theorem claim_takes_earliest m kind table timeout clock now locked lock db :
  tableFor kind = Ok table →
  ∃ m' db' lease, claim m kind timeout clock now (Ok lock) locked db = Ok (m', db', lease)
    ∧ match lease with
      | None => ∀ id j, ~ available table now locked (rowsOf db table) id j
      | Some L => ∃ j, rowsOf db table !! l_ID L = Some j ∧ l_ID L ∉ locked
          ∧ j_CancelRequestedAt j = None ∧ j_Attempts j < j_MaxAttempts j ∧ sweepExpired now j = false
          ∧ (j_Status j = Pending ∧ j_NextAttemptAt j ≤ now ∨ leaseExpired now j = true)
          ∧ (∀ id2 j2, available table now locked (rowsOf db table) id2 j2 → claimOrder (l_ID L, j) (id2, j2))
          ∧ holds db' L = Some (claimedRow (m_workerID m) (m_lease m) timeout now j)
          ∧ l_WorkerID L = m_workerID m ∧ l_LeaseUntil L = now + m_lease m
          ∧ (table = "publish_jobs" → ∀ id older, rowsOf db' table !! id = Some older → ~ blocksSite j older)
      end.
Proof.
  intros Ht. destruct (claim m kind timeout clock now (Ok lock) locked db) as [[[m' db'] lease]|e] eqn:Hc.
  2:{ exfalso. unfold claim in Hc. rewrite Ht in Hc. cbn in Hc. unfold sweepIfDue in Hc.
      destruct (match m_nextSweep m !! kind with Some t => clock <? t | None => false end); cbn in Hc;
        [|destruct lock; cbn in Hc]; destruct (claimSQL _ _ _ _ _ _ _) as [[[? ?] ?]|]; done. }
  exists m', db', lease. split; [done|].
  destruct (claim_spec _ _ _ _ _ _ _ _ _ _ _ Hc) as (table' & db1 & Ht' & Hsw & Hl). rewrite Ht in Ht'. injection Ht' as <-.
  destruct lease as [L|].
  - destruct Hl as (j & Hav & Hmin & Hrows & Ek & Ew & Ea & Em & Eu & Et). exists j.
    assert (rowsOf db table !! l_ID L = Some j) as Hj.
    { destruct (rowsOf db table !! l_ID L) as [j0|] eqn:E; [by rewrite (available_unswept _ _ _ _ _ _ _ _ Hsw E Hav)|].
      destruct Hav as (Hav & _). destruct Hsw as [H|H]; rewrite H in Hav; [congruence|].
      rewrite decide_True, lookup_fmap, E in Hav by done. done. }
    destruct Hav as (Hj1 & Hcl & Hlk). pose proof (claimable_spec _ _ _ _ Hcl) as (? & ? & ? & Hs & Hp & Hsite).
    split_and!; [done..| | | |done|done|].
    + apply orb_true_iff in Hs as [Hs%bool_decide_eq_true|Hs]; auto.
    + intros id2 j2 Hav2. apply Hmin. by eapply available_swept.
    + apply holds_intro; cbn; [|done|congruence|congruence].
      unfold leaseTable. by rewrite Ek, Ht, Hrows, decide_True, lookup_insert_eq by done.
    + intros Epub id older. rewrite Hrows, decide_True by done. intros [[<- <-]|[_ Ho]]%lookup_insert_Some.
      * intros (_ & Hv & _). cbn in Hv. lia.
      * by eapply Hsite.
  - destruct Hl as [_ Hnone]. intros id j Hav. apply (Hnone id j). by eapply available_swept.
Qed.

(** *** Finishing *)

(** What a decision may be. *)
Lemma outcomeDecision_spec clock L o :
  let '(status, next, message, requeue) := outcomeDecision clock L o in
  (status = Succeeded ↔ o_Err o = None ∧ o_RequeueAfter o ≤ 0)
  ∧ (0 ≤ retryDelay L (o_RetryAfter o) → clock ≤ next)
  ∧ (status = Pending → requeue = true ∨ l_Attempt L < l_MaxAttempts L).
Proof.
  unfold outcomeDecision. destruct (Z.ltb_spec 0 (o_RequeueAfter o)) as [Hr|Hr].
  - destruct (o_Err o) as [message|]; [destruct (_ && _)|]; (split; [split; [done|intros [? ?]; first [done|lia]]|]);
      (split; [lia|intros ?; first [done|auto]]).
  - destruct (o_Err o) as [message|]; [destruct (match l_TimeoutAt L with Some t => t <=? clock | None => false end && _)|].
    + split_and!; [by split; [|intros [? _]]|lia|done].
    + destruct (o_Retryable o); cbn; [|split_and!; [by split; [|intros [? _]]|lia|done]].
      destruct (Z.ltb_spec (l_Attempt L) (l_MaxAttempts L)); split_and!; try lia; try done; try (by split; [|intros [? _]]); auto.
    + split_and!; [tauto|lia|done].
Qed.

(** The executions after a run. *)
Lemma finish_executions L o clock db e :
  e ∈ jq_executions (finish L o clock None db).1 → is_Some (holds db L) → x_Kind e = l_Kind L → x_JobID e = l_ID L →
  x_Attempt e = l_Attempt L → x_WorkerID e = l_WorkerID L → x_Status e ≠ Running.
Proof.
  unfold finish. intros He [j Hj]. rewrite Hj in He. pose proof (outcomeDecision_status clock L o) as Hst.
  destruct (outcomeDecision clock L o) as [[[status next] message] requeue]. cbn in *.
  apply list_elem_of_fmap in He as (e0 & -> & _). case_bool_decide as Hc; [|tauto]. cbn. intros _ _ _ _.
  unfold executionOutcomeStatus. repeat case_match; done.
Qed.

(** A run is recorded once, by the lease that owns the job.  The job is released
    and ends as CANCELLED when a cancellation was requested; otherwise it
    SUCCEEDED exactly when the handler returned no error and no requeue, and if
    it waits again it still has attempts left and is not due before now.  A
    persisted compensation survives an outcome without one, the execution of
    this run is closed, and no other row changes. *)
Theorem finish_records L o clock db j :
  holds db L = Some j → jobOk j → l_MaxAttempts L = j_MaxAttempts j → 0 ≤ retryDelay L (o_RetryAfter o) →
  ∃ db' j', finish L o clock None db = (db', None)
    ∧ rowsOf db' (leaseTable L) !! l_ID L = Some j' ∧ jobOk j' ∧ j_LeaseOwner j' = None
    ∧ (is_Some (j_CancelRequestedAt j) → j_Status j' = Cancelled)
    ∧ (j_CancelRequestedAt j = None → (j_Status j' = Succeeded ↔ o_Err o = None ∧ o_RequeueAfter o ≤ 0))
    ∧ (j_Status j' = Pending → j_CancelRequestedAt j = None ∧ j_Attempts j' < j_MaxAttempts j' ∧ clock ≤ j_NextAttemptAt j')
    ∧ (o_Compensation o = None → j_Compensation j' = j_Compensation j)
    ∧ (∀ e, e ∈ jq_executions db' → x_Kind e = l_Kind L → x_JobID e = l_ID L → x_Attempt e = l_Attempt L →
         x_WorkerID e = l_WorkerID L → x_Status e ≠ Running)
    ∧ (∀ t id, t ≠ leaseTable L ∨ id ≠ l_ID L → rowsOf db' t !! id = rowsOf db t !! id).
Proof.
  intros Hj Hok Em Hd. destruct (finish L o clock None db) as [db' err] eqn:Hf.
  destruct (finish_spec _ _ _ _ _ _ _ Hf) as [(_ & _ & H)|(k & Hk & -> & Hrows)]; [destruct (H eq_refl); congruence|].
  rewrite Hj in Hk. apply (inj Some) in Hk as <-. exists db', (finishedRow L o clock j).
  pose proof (finishedRow_ok L o clock j Hok) as Hok'. pose proof (finishedRow_status L o clock j) as Hnr.
  pose proof (proj2 (proj2 (proj2 (holds_some _ _ _ Hj)))) as Ea. pose proof Hok as (Ha & Hrun & _).
  destruct (Hrun (proj1 (proj2 (holds_some _ _ _ Hj)))) as (_ & _ & Hpos).
  pose proof (outcomeDecision_spec clock L o) as Hspec. split_and!.
  - done.
  - by rewrite Hrows, decide_True, lookup_insert_eq by done.
  - done.
  - by apply Hok'.
  - intros Hc. unfold finishedRow. destruct (outcomeDecision clock L o) as [[[st nx] msg] rq]. cbn. by rewrite bool_decide_eq_true_2.
  - intros Hc. unfold finishedRow. destruct (outcomeDecision clock L o) as [[[st nx] msg] rq]. cbn.
    rewrite Hc, bool_decide_eq_false_2 by apply is_Some_None. by destruct Hspec.
  - unfold finishedRow in *. destruct (outcomeDecision clock L o) as [[[st nx] msg] rq]. cbn in *.
    destruct Hspec as (_ & Hnx & Hp). destruct (j_CancelRequestedAt j); [done|].
    rewrite bool_decide_eq_false_2 by apply is_Some_None. intros ->. split_and!; [done| |auto].
    destruct (Hp eq_refl) as [-> | Hlt]; [lia|]. destruct rq; lia.
  - intros Hc. unfold finishedRow. destruct (outcomeDecision clock L o) as [[[st nx] msg] rq]. cbn. by rewrite Hc.
  - intros e He. apply (finish_executions L o clock db); [by rewrite Hf|by rewrite Hj].
  - intros t id Hne. rewrite Hrows. destruct (decide (t = leaseTable L)) as [->|]; [|done].
    rewrite lookup_insert_ne; [done|]. destruct Hne; congruence.
Qed.

(** *** Delays *)

Lemma backoff_min attempt : 0 ≤ attempt → backoff attempt = Z.min (2 ^ attempt * second) maxBackoff.
Proof.
  intros H. unfold backoff. destruct (Z.leb_spec 9 attempt) as [H9|H9].
  - assert (2 ^ 9 ≤ 2 ^ attempt) by (apply Z.pow_le_mono_r; lia). unfold maxBackoff, second. lia.
  - assert (attempt = 0 ∨ attempt = 1 ∨ attempt = 2 ∨ attempt = 3 ∨ attempt = 4 ∨ attempt = 5 ∨ attempt = 6 ∨ attempt = 7
      ∨ attempt = 8) as Hc by lia. repeat (destruct Hc as [-> |Hc]; [reflexivity|]). by subst.
Qed.

Lemma jitterFactor_range id attempt : 80 ≤ jitterFactor id attempt ≤ 120.
Proof. unfold jitterFactor. pose proof (Z.mod_pos_bound (foldl fnvStep fnvOffset32 (bytesOf id ++ [attempt mod 256])) 41). lia. Qed.

Lemma jittered_range delay id attempt : 0 ≤ delay → delay * 120 < 2 ^ 63 →
  delay * 80 / 100 ≤ Z.quot (to_int64 (delay * jitterFactor id attempt)) 100 ≤ delay * 120 / 100.
Proof.
  intros H0 H1. pose proof (jitterFactor_range id attempt). rewrite to_int64_small by nia.
  rewrite Z.quot_div_nonneg by nia. split; apply Z.div_le_mono; nia.
Qed.

(** Retries wait for an exponential backoff of 2^attempt seconds capped at five
    minutes, spread by at most a fifth either way and never above the cap; a
    delay the handler asks for is spread the same way.  The product with the
    spread factor fits its 64 bits as long as the delay is below 2^63/120 ns,
    about 2.4 years. *)
Theorem retry_delay_bounds L override :
  0 ≤ l_Attempt L → override * 120 < 2 ^ 63 →
  let base := if override <=? 0 then Z.min (2 ^ l_Attempt L * second) maxBackoff else override in
  base * 80 / 100 ≤ retryDelay L override ≤ base * 120 / 100
  ∧ (override ≤ 0 → second * 80 / 100 ≤ retryDelay L override ≤ maxBackoff).
Proof.
  intros Ha Ho. unfold retryDelay. rewrite (backoff_min _ Ha). cbn zeta.
  set (b := Z.min (2 ^ l_Attempt L * second) maxBackoff).
  assert (second ≤ b ≤ maxBackoff) as Hb.
  { assert (1 ≤ 2 ^ l_Attempt L) by (apply (Z.pow_le_mono_r 2 0); lia). unfold b, second, maxBackoff, second in *. lia. }
  set (base := if override <=? 0 then b else override).
  assert (0 ≤ base ∧ base * 120 < 2 ^ 63) as [Hb0 Hb1].
  { unfold base, second, maxBackoff, second in *. destruct (Z.leb_spec override 0); lia. }
  assert (base * 80 / 100 ≤ base ≤ base * 120 / 100) as Hself.
  { split; [apply Z.div_le_upper_bound; lia|apply Z.div_le_lower_bound; lia]. }
  assert (override ≤ 0 → second * 80 / 100 ≤ base * 80 / 100 ∧ base ≤ maxBackoff) as Hlow.
  { intros Hz. unfold base. destruct (Z.leb_spec override 0); [|lia]. split; [apply Z.div_le_mono; lia|lia]. }
  case_bool_decide; [split; [done|]; intros Hz; destruct (Hlow Hz); lia|].
  pose proof (jittered_range base (l_ID L) (l_Attempt L) Hb0 Hb1) as Hj. set (jit := Z.quot _ 100) in *.
  assert (maxBackoff * 80 / 100 = 240 * second) as Hcap by reflexivity.
  destruct (Z.leb_spec override 0) as [Hz|Hz]; destruct (Z.ltb_spec maxBackoff jit) as [Hm|Hm]; cbn [andb];
    try (split; [done|]; intros Hz'; try destruct (Hlow Hz'); lia).
  assert (base * 80 / 100 ≤ maxBackoff * 80 / 100) by (apply Z.div_le_mono; lia).
  assert (second * 80 / 100 ≤ maxBackoff) by (vm_compute; congruence).
  split; [split; [unfold maxBackoff in *; unfold second in *; lia|lia]|]. intros _. lia.
Qed.

(** ** A run *)

Module JobDemo.

Definition purgeJob : Job := {|
  j_SiteID := "s1"; j_Version := 0; j_MaxAttempts := 3; j_CreatedAt := 0; j_Status := Pending; j_Attempts := 0;
  j_NextAttemptAt := 0; j_LeaseOwner := None; j_LeaseUntil := None; j_CancelRequestedAt := None; j_TimeoutAt := None;
  j_Result := None; j_Compensation := Some "plan"; j_Error := None |}.
Definition created : system :=
  System (setRows (JobDB ∅ []) "purge_jobs" (<["j1" := purgeJob]> (rowsOf (JobDB ∅ []) "purge_jobs"))) ∅ 0.

Definition claimAt (w : string) (now : Z) (s : system) : system :=
  match claim (New w) "PURGE" 0 now now (Ok true) ∅ (s_db s) with
  | Ok (_, db', Some L) => System db' (<[w := (L, heartbeatStart (New w) L now)]> (s_held s)) now
  | _ => s
  end.
(** Worker w1 claims the job and stalls; after its lease ran out w2 takes it. *)
Definition first : system := claimAt "w1" (1 * second) created.
Definition both : system := claimAt "w2" (60 * second) first.
Definition leaseOf (w : string) (s : system) : Lease * heartbeatState :=
  default ({| l_Kind := ""; l_ID := ""; l_WorkerID := ""; l_Attempt := 0; l_MaxAttempts := 0; l_TimeoutAt := None; l_LeaseUntil := 0 |},
           {| hb_leaseValidUntil := 0; hb_renewPending := false |}) (s_held s !! w).

Lemma claimAt_step w now s L db' m' :
  s_now s ≤ now → s_held s !! w = None → claim (New w) "PURGE" 0 now now (Ok true) ∅ (s_db s) = Ok (m', db', Some L) →
  sysStep s (EvClaim "PURGE" (l_ID L)) (claimAt w now s).
Proof. intros Hn Hh Hc. unfold claimAt. rewrite Hc. by apply (SysClaim s (New w) "PURGE" 0 now now (Ok true) ∅ m'). Qed.

Lemma created_reached : rtc sysAny initialSystem created.
Proof.
  eapply rtc_l; [|apply rtc_refl]. exists (EvCreate "PURGE" "j1").
  apply (SysCreate initialSystem "PURGE" "purge_jobs" "j1" purgeJob 0); [done|reflexivity|reflexivity|]. split_and!; done.
Qed.

Lemma first_step : sysStep created (EvClaim "PURGE" "j1") first.
Proof.
  destruct (claim (New "w1") "PURGE" 0 (1 * second) (1 * second) (Ok true) ∅ (s_db created)) as [[[m' db'] [L|]]|e] eqn:E;
    [|vm_compute in E; discriminate E..].
  assert (l_ID L = "j1") as <- by (vm_compute in E; injection E as _ _ <-; reflexivity).
  by apply (claimAt_step "w1" (1 * second) created L db' m'); [vm_compute; discriminate|vm_compute|].
Qed.
Lemma both_step : sysStep first (EvClaim "PURGE" "j1") both.
Proof.
  destruct (claim (New "w2") "PURGE" 0 (60 * second) (60 * second) (Ok true) ∅ (s_db first)) as [[[m' db'] [L|]]|e] eqn:E;
    [|vm_compute in E; discriminate E..].
  assert (l_ID L = "j1") as <- by (vm_compute in E; injection E as _ _ <-; reflexivity).
  by apply (claimAt_step "w2" (60 * second) first L db' m'); [vm_compute; discriminate|vm_compute|].
Qed.
Lemma both_reached : rtc sysAny initialSystem both.
Proof.
  transitivity created; [exact created_reached|]. eapply rtc_l; [by eexists; exact first_step|].
  eapply rtc_l; [by eexists; exact both_step|apply rtc_refl].
Qed.

Definition succeeded : Outcome := {|
  o_Result := Some "{}"; o_Compensation := None; o_Err := None; o_Retryable := false; o_RetryAfter := 0; o_RequeueAfter := 0 |}.

(** The stalled worker w1 is refused. *)
Lemma lease_exclusive_witness :
  finish (leaseOf "w1" both).1 succeeded 0 None (s_db both) = (s_db both, Some ErrLeaseLost).
Proof.
  destruct (lease_exclusive both "w2" (leaseOf "w2" both).1 (leaseOf "w2" both).2 both_reached) as (_ & _ & _ & H).
  - vm_compute. reflexivity.
  - vm_compute. reflexivity.
  - destruct (H "w1" (leaseOf "w1" both).1 (leaseOf "w1" both).2) as [_ Hf].
    + vm_compute. reflexivity.
    + discriminate.
    + vm_compute. reflexivity.
    + vm_compute. reflexivity.
    + apply Hf.
Defined.

Lemma demo_run : runClaims "purge_jobs" "j1" 2 created both.
Proof.
  change 2%nat with (claimsJob "purge_jobs" "j1" (EvClaim "PURGE" "j1") + (claimsJob "purge_jobs" "j1" (EvClaim "PURGE" "j1") + 0))%nat.
  eapply RunStep; [exact first_step|exact I|]. eapply RunStep; [exact both_step|exact I|]. apply RunNil.
Qed.

Lemma claims_bounded_witness : Z.of_nat 2 ≤ j_MaxAttempts purgeJob - j_Attempts purgeJob.
Proof.
  destruct (claims_bounded created both "purge_jobs" "j1" purgeJob 2 created_reached) as [H _].
  - vm_compute. reflexivity.
  - exact demo_run.
  - exact H.
Defined.

Lemma claim_takes_earliest_witness : ∃ L, match claim (New "w1") "PURGE" 0 0 0 (Ok true) ∅ (s_db created) with
  | Ok (_, _, lease) => lease = Some L | Err _ => False end ∧ l_ID L = "j1".
Proof.
  destruct (claim_takes_earliest (New "w1") "PURGE" "purge_jobs" 0 0 0 ∅ true (s_db created)) as (m' & db' & lease & Hc & Hl).
  - reflexivity.
  - rewrite Hc. destruct lease as [L|].
    + exists L. split; [reflexivity|]. vm_compute in Hc. injection Hc as _ _ <-. reflexivity.
    + exfalso. apply (Hl "j1" purgeJob). split_and!; [reflexivity|vm_compute; reflexivity|set_solver].
Defined.

Lemma finish_records_witness : ∃ db' j', finish (leaseOf "w2" both).1 succeeded (61 * second) None (s_db both) = (db', None)
  ∧ rowsOf db' "purge_jobs" !! "j1" = Some j' ∧ j_Compensation j' = Some "plan".
Proof.
  destruct (holds (s_db both) (leaseOf "w2" both).1) as [j|] eqn:Hj; [|vm_compute in Hj; discriminate Hj].
  destruct (finish_records (leaseOf "w2" both).1 succeeded (61 * second) (s_db both) j Hj) as (db' & j' & Hf & Hr & _ & _ & _ & _ & _ & Hc & _).
  - vm_compute in Hj. injection Hj as <-. split_and!; [discriminate..| |].
    + intros _. split_and!; [eexists; reflexivity|eexists; reflexivity|discriminate].
    + intros H. destruct H. reflexivity.
  - vm_compute in Hj. injection Hj as <-. reflexivity.
  - vm_compute. discriminate.
  - exists db', j'. split; [exact Hf|]. split; [exact Hr|]. rewrite Hc; [|reflexivity]. vm_compute in Hj. injection Hj as <-. reflexivity.
Defined.

Definition retryLease : Lease := {|
  l_Kind := "PURGE"; l_ID := "job-1"; l_WorkerID := "w1"; l_Attempt := 3; l_MaxAttempts := 5; l_TimeoutAt := None; l_LeaseUntil := 0 |}.
Lemma retry_delay_bounds_witness : retryDelay retryLease 0 = 6640 * 10 ^ 6 ∧ second * 80 / 100 ≤ retryDelay retryLease 0 ≤ maxBackoff.
Proof.
  split; [vm_compute; reflexivity|].
  destruct (retry_delay_bounds retryLease 0) as [_ H]; [vm_compute; discriminate|vm_compute; reflexivity|]. apply H. lia.
Defined.

End JobDemo.
