(* ===== verification/DnsScheduler.v ===== *)
(** * DNS scheduling ([internal/dnssync/scheduler.go], [service.go])

    Which nodes a reconciliation publishes: the nodes the database calls
    eligible, the admission and placement of [Select], and the pacing of
    removals of [paceRemovals].  The tables are a record of what the queries
    read; a failing query ends the pass with its error and is not modelled.
    Building the provider's records from the selection is left out.  The
    theorems follow the definitions. *)
From Stdlib Require Import ZArith Lia Ascii String.
From stdpp Require Import base numbers list strings gmap sets option sorting.
From S2P Require Import Prelude.

Local Open Scope Z_scope.

(** ** Data *)

Inductive NodeStatus := ONLINE | OFFLINE | OtherNodeStatus.
#[export] Instance NodeStatus_eq_dec : EqDecision NodeStatus.
Proof. solve_decision. Defined.

Record Node := {
  n_Id : string; n_Status : NodeStatus; n_DnsPriority : Z; n_OnlineSince : option Z; n_HeartbeatAt : option Z;
  n_UpdatedAt : Z;
}.
Record DNSLine := { dl_Id : string; dl_ProviderCode : string }.
Record NodeCandidate := { c_Node : Node; c_Addresses : list string; c_Lines : list (option DNSLine) }.

Inductive DNSPlacement := PlacementUnset | ALL | PRIMARY_BACKUP.
#[export] Instance DNSPlacement_eq_dec : EqDecision DNSPlacement.
Proof. solve_decision. Defined.

(** A non-negative float64 [mant * 2^exp] with a mantissa of at most 53 bits. *)
Record float64 := Float64 { f_mant : Z; f_exp : Z }.

Record SchedulerPolicy := {
  p_Placement : DNSPlacement; p_MinPublished : Z; p_MinHealthyTime : option Z; p_MaxRemovalRatio : float64;
}.

Definition second : Z := 10 ^ 9.
Definition minute : Z := 60 * second.
Definition NodeDNSOfflineGracePeriod : Z := 5 * minute.

(** [0.34] is the double [6124895493223875 * 2^-54]. *)
Definition DefaultSchedulerPolicy : SchedulerPolicy := {|
  p_Placement := ALL; p_MinPublished := 2; p_MinHealthyTime := Some (2 * minute);
  p_MaxRemovalRatio := Float64 6124895493223875 (-54) |}.

(** [ratio > 1], for a positive ratio. *)
Definition aboveOne (r : float64) : bool :=
  if 0 <=? f_exp r then 1 <? f_mant r * 2 ^ f_exp r else 2 ^ (- f_exp r) <? f_mant r.

Definition WithDefaults (p : SchedulerPolicy) : SchedulerPolicy := {|
  p_Placement := if bool_decide (p_Placement p = PlacementUnset) then p_Placement DefaultSchedulerPolicy else p_Placement p;
  p_MinPublished := if p_MinPublished p <=? 0 then p_MinPublished DefaultSchedulerPolicy else p_MinPublished p;
  p_MinHealthyTime := match p_MinHealthyTime p with None => p_MinHealthyTime DefaultSchedulerPolicy | t => t end;
  p_MaxRemovalRatio := if (f_mant (p_MaxRemovalRatio p) <=? 0) || aboveOne (p_MaxRemovalRatio p)
                       then p_MaxRemovalRatio DefaultSchedulerPolicy else p_MaxRemovalRatio p |}.

(** ** Selection *)

Definition healthyLongEnough (node : Node) (minHealthy : option Z) (now : Z) : bool :=
  match minHealthy with
  | None => true
  | Some d =>
      if d <=? 0 then true
      else match n_OnlineSince node with None => true | Some t => t + d <=? now end
  end.

Definition tier (c : NodeCandidate) : Z := n_DnsPriority (c_Node c).

(** The tier the next round of the loop takes, -1 when there is none. *)
Definition bestTier (admitted : list NodeCandidate) (usedTiers : gset Z) : Z :=
  foldl (λ best c, if negb (bool_decide (tier c ∈ usedTiers)) && ((best =? -1) || (tier c <? best)) then tier c else best)
    (-1) admitted.

(** The loop of [selectByPlacement]; every round uses up a tier, so the number
    of candidates bounds the rounds. *)
Fixpoint placeTiers (fuel : nat) (admitted : list NodeCandidate) (minPublished : Z) (usedTiers : gset Z)
    (selected : list NodeCandidate) : option (list NodeCandidate) :=
  match fuel with
  | O => None
  | S fuel =>
      let best := bestTier admitted usedTiers in
      if best =? -1 then Some selected
      else
        let selected := selected ++ filter (λ c, tier c = best) admitted in
        if minPublished <=? zlen selected then Some selected
        else placeTiers fuel admitted minPublished ({[best]} ∪ usedTiers) selected
  end.

Definition selectByPlacement (admitted : list NodeCandidate) (policy : SchedulerPolicy) : list NodeCandidate :=
  if negb (bool_decide (p_Placement policy = PRIMARY_BACKUP)) then admitted
  else default [] (placeTiers (S (length admitted)) admitted (p_MinPublished policy) ∅ []).

Definition Select (candidates : list NodeCandidate) (published : gset string) (policy : SchedulerPolicy) (now : Z)
    : list NodeCandidate :=
  let policy := WithDefaults policy in
  selectByPlacement
    (filter (λ c, n_Id (c_Node c) ∈ published ∨ healthyLongEnough (c_Node c) (p_MinHealthyTime policy) now = true) candidates)
    policy.

(** ** Pacing *)

(** Rounding [p * 2^e] to 53 bits, to nearest, ties to even; the floor of it. *)
Definition roundShift (p k : Z) : Z :=
  let q := Z.shiftr p k in
  let r := p - Z.shiftl q k in
  let half := 2 ^ (k - 1) in
  if (half <? r) || ((r =? half) && Z.odd q) then q + 1 else q.
Definition mulFloor (r : float64) (n : Z) : Z :=
  let p := f_mant r * n in
  let k := Z.max 0 (Z.log2 p - 52) in
  let m := if k =? 0 then p else roundShift p k in
  Z.shiftl m (f_exp r + k).

(** [int(math.Floor(ratio * float64(published)))], at least one. *)
Definition allowedRemovals (published : Z) (ratio : float64) : Z :=
  let allowed := mulFloor ratio published in
  if allowed <? 1 then 1 else allowed.

(** Newest first. *)
Definition newerNode (a b : Node) : Prop := n_UpdatedAt b ≤ n_UpdatedAt a.
#[export] Instance newerNode_dec a b : Decision (newerNode a b).
Proof. unfold newerNode. apply _. Defined.

Definition deferredRemovals (dropped : list Node) (keep : Z) : list Node :=
  if keep <=? 0 then []
  else if zlen dropped <=? keep then dropped
  else take (Z.to_nat keep) (merge_sort newerNode dropped).

(** [sort.Strings]. *)
Definition stringLe (a b : string) : Prop := String.leb a b = true.
#[export] Instance stringLe_dec a b : Decision (stringLe a b).
Proof. unfold stringLe. apply _. Defined.

Definition idsOf (l : list NodeCandidate) : gset string := list_to_set (map (λ c, n_Id (c_Node c)) l).

Definition droppedFromSelection (published : gset string) (selected : list NodeCandidate) : list string :=
  merge_sort stringLe (elements (published ∖ idsOf selected)).

(** ** The tables *)

Record dnsDB := {
  dd_nodes : list Node;                          (* of every cluster *)
  dd_member : string → bool;                     (* whether a node is in the cluster *)
  dd_revoked : string → option bool;             (* a node's credential, and whether it is revoked *)
  dd_addresses : string → list string;           (* in creation order *)
  dd_links : string → list string;               (* DNS lines assigned to a node *)
  dd_lines : string → option DNSLine;
  dd_managed : list (option string);             (* the node of each managed record *)
}.

Inductive dnsError := ErrLineNotFound (line : string).

Definition nodeEligibleForDNS (node : Node) (now : Z) : bool :=
  if bool_decide (n_Status node = ONLINE) then true
  else bool_decide (n_Status node = OFFLINE) && bool_decide (is_Some (n_HeartbeatAt node))
       && (now - NodeDNSOfflineGracePeriod <? n_UpdatedAt node).

Definition dnsEligibleNodes (db : dnsDB) (now : Z) : list Node :=
  filter (λ node, nodeEligibleForDNS node now
      && (if bool_decide (n_Status node = OFFLINE)
          then match dd_revoked db (n_Id node) with Some revoked => negb revoked | None => false end else true) = true)
    (filter (λ node, dd_member db (n_Id node) = true ∧ (n_Status node = ONLINE ∨ n_Status node = OFFLINE)) (dd_nodes db)).

Fixpoint loadLines (db : dnsDB) (links : list string) : result dnsError (list (option DNSLine)) :=
  match links with
  | [] => Ok []
  | link :: rest =>
      match dd_lines db link with
      | None => Err (ErrLineNotFound link)
      | Some line => lines ← loadLines db rest; Ok (Some line :: lines)
      end
  end.
Definition nodeCandidate (db : dnsDB) (node : Node) (supportsLines : bool) : result dnsError NodeCandidate :=
  lines ← (if supportsLines then match dd_links db (n_Id node) with [] => Ok [None] | links => loadLines db links end else Ok [None]);
  Ok {| c_Node := node; c_Addresses := dd_addresses db (n_Id node); c_Lines := lines |}.

Fixpoint nodeCandidates (db : dnsDB) (nodes : list Node) (supportsLines : bool) : result dnsError (list NodeCandidate) :=
  match nodes with
  | [] => Ok []
  | node :: rest => c ← nodeCandidate db node supportsLines; cs ← nodeCandidates db rest supportsLines; Ok (c :: cs)
  end.
Definition dnsCandidates (db : dnsDB) (supportsLines : bool) (now : Z) : result dnsError (list NodeCandidate) :=
  nodeCandidates db (dnsEligibleNodes db now) supportsLines.

Definition publishedNodeIDs (db : dnsDB) : gset string := list_to_set (omap id (dd_managed db)).

(** Later candidates win, as in the loop that builds the map. *)
Definition candidateByID (candidates : list NodeCandidate) : gmap string NodeCandidate :=
  foldl (λ m c, <[n_Id (c_Node c) := c]> m) ∅ candidates.

(** The nodes that are not candidates are looked up by their identifiers alone. *)
Definition droppedNodes (db : dnsDB) (droppedIDs : list string) (byID : gmap string NodeCandidate) : list Node :=
  omap (λ id, c_Node <$> byID !! id) droppedIDs
  ++ filter (λ node, n_Id node ∈ droppedIDs ∧ byID !! n_Id node = None) (dd_nodes db).

(** The loop of [paceRemovals] over the deferred nodes. *)
Fixpoint keepDeferred (db : dnsDB) (byID : gmap string NodeCandidate) (supportsLines : bool) (deferred : list Node)
    : result dnsError (list NodeCandidate) :=
  match deferred with
  | [] => Ok []
  | node :: rest =>
      item ← (match byID !! n_Id node with Some c => Ok c | None => nodeCandidate db node supportsLines end);
      items ← keepDeferred db byID supportsLines rest;
      Ok (item :: items)
  end.

Definition paceRemovals (db : dnsDB) (candidates selected : list NodeCandidate) (published : gset string)
    (policy : SchedulerPolicy) (supportsLines : bool) : result dnsError (list NodeCandidate * bool) :=
  if (match selected with [] => true | _ => false end) || bool_decide (size published = 0%nat) then Ok (selected, false)
  else
    let policy := WithDefaults policy in
    let byID := candidateByID candidates in
    let droppedIDs := droppedFromSelection published selected in
    if bool_decide (droppedIDs = []) then Ok (selected, false)
    else
      let allowed := allowedRemovals (Z.of_nat (size published)) (p_MaxRemovalRatio policy) in
      if zlen droppedIDs <=? allowed then Ok (selected, false)
      else
        let dropped := droppedNodes db droppedIDs byID in
        let deferred := deferredRemovals dropped (zlen dropped - allowed) in
        match deferred with
        | [] => Ok (selected, false)
        | _ => items ← keepDeferred db byID supportsLines deferred; Ok (selected ++ items, true)
        end.

(** The selection of [scheduledRecords]. *)
Definition scheduledSelection (db : dnsDB) (policy : SchedulerPolicy) (placement : DNSPlacement) (supportsLines : bool)
    (now : Z) : result dnsError (list NodeCandidate * bool) :=
  candidates ← dnsCandidates db supportsLines now;
  let published := publishedNodeIDs db in
  let policy := {| p_Placement := placement; p_MinPublished := p_MinPublished policy;
                   p_MinHealthyTime := p_MinHealthyTime policy; p_MaxRemovalRatio := p_MaxRemovalRatio policy |} in
  let selected := Select candidates published policy now in
  paceRemovals db candidates selected published policy supportsLines.

(** ** Placement *)

(** What the search of a tier finds. *)
Lemma bestTier_spec admitted used :
  (∀ c, c ∈ admitted → 0 ≤ tier c) →
  (bestTier admitted used = -1 ∧ ∀ c, c ∈ admitted → tier c ∈ used)
  ∨ (0 ≤ bestTier admitted used ∧ (∃ c, c ∈ admitted ∧ tier c = bestTier admitted used)
     ∧ bestTier admitted used ∉ used ∧ ∀ c, c ∈ admitted → tier c ∉ used → bestTier admitted used ≤ tier c).
Proof.
  unfold bestTier. induction admitted as [|c l IH] using rev_ind; intros Hpos.
  { left. split; [done|]. intros c Hc. by apply elem_of_nil in Hc. }
  rewrite foldl_app. cbn [foldl]. set (b := foldl _ _ l) in *.
  assert (0 ≤ tier c) as Hc by (apply Hpos; set_solver).
  destruct IH as [[Hb Hall]|(Hb & (d & Hd & Ed) & Hnu & Hmin)]; [intros; apply Hpos; set_solver| |].
  - rewrite Hb. case_bool_decide as Hu; cbn.
    + left. split; [done|]. intros d [Hd|Hd]%elem_of_app; [auto|]. apply list_elem_of_singleton in Hd as ->. done.
    + right. split_and!; [done|exists c; set_solver|done|]. intros d [Hd|Hd]%elem_of_app Hdu; [by destruct Hdu; auto|].
      apply list_elem_of_singleton in Hd as ->. lia.
  - right. case_bool_decide as Hu; cbn [negb andb].
    + split_and!; [done|exists d; set_solver|done|]. intros x [Hx|Hx]%elem_of_app Hxu; [auto|].
      apply list_elem_of_singleton in Hx as ->. done.
    + destruct (Z.eqb_spec b (-1)); [lia|]. destruct (Z.ltb_spec (tier c) b); cbn [orb].
      * split_and!; [done|exists c; set_solver|done|]. intros x [Hx|Hx]%elem_of_app Hxu; [pose proof (Hmin x Hx Hxu); lia|].
        apply list_elem_of_singleton in Hx as ->. lia.
      * split_and!; [done|exists d; set_solver|done|]. intros x [Hx|Hx]%elem_of_app Hxu; [auto|].
        apply list_elem_of_singleton in Hx as ->. lia.
Qed.

Definition tierLe (a b : NodeCandidate) : Prop := tier a ≤ tier b.

(** Candidates up to a tier. *)
Definition upTo (T : Z) (l : list NodeCandidate) : list NodeCandidate := filter (λ c, tier c ≤ T) l.
Definition below (T : Z) (l : list NodeCandidate) : list NodeCandidate := filter (λ c, tier c < T) l.

(** One more tier, when no candidate lies between the two. *)
Lemma upTo_next T best l :
  T < best → (∀ c, c ∈ l → tier c ≤ T ∨ best ≤ tier c) →
  upTo best l ≡ₚ upTo T l ++ filter (λ c, tier c = best) l ∧ below best l = upTo T l.
Proof.
  intros HT. induction l as [|c l IH]; intros Hgap; [done|]. destruct IH as [IH1 IH2]; [intros d Hd; apply Hgap; set_solver|].
  unfold upTo, below in *. rewrite !filter_cons. destruct (Hgap c) as [H|H]; [set_solver| |].
  - repeat case_decide; try lia. cbn. by rewrite IH1, IH2.
  - repeat case_decide; try lia; [|done]. split; [|done]. rewrite IH1. apply Permutation_middle.
Qed.

(** A filter that keeps strictly less. *)
Lemma length_filter_le {A} (P Q : A → Prop) `{!∀ x, Decision (P x), !∀ x, Decision (Q x)} (l : list A) :
  (∀ x, P x → Q x) → (length (filter P l) ≤ length (filter Q l))%nat.
Proof.
  intros HPQ. induction l as [|y l IH]; [done|]. rewrite !filter_cons.
  destruct (decide (P y)) as [HP|]; [rewrite decide_True by auto; cbn; lia|]. destruct (decide (Q y)); cbn; lia.
Qed.
Lemma length_filter_lt {A} (P Q : A → Prop) `{!∀ x, Decision (P x), !∀ x, Decision (Q x)} (l : list A) x :
  (∀ x, P x → Q x) → x ∈ l → Q x → ~ P x → (length (filter P l) < length (filter Q l))%nat.
Proof.
  intros HPQ Hx HQ HP. apply list_elem_of_split in Hx as (l1 & l2 & ->). rewrite !list.filter_app, !length_app, !filter_cons.
  rewrite decide_False, (decide_True (P := Q x)) by done. cbn.
  pose proof (length_filter_le P Q l1 HPQ). pose proof (length_filter_le P Q l2 HPQ). lia.
Qed.

(** What a placement promises. *)
Definition placed (admitted : list NodeCandidate) (minPublished : Z) (selected : list NodeCandidate) : Prop :=
  StronglySorted tierLe selected
  ∧ ∃ T, selected ≡ₚ upTo T admitted ∧ (minPublished ≤ zlen selected ∨ selected ≡ₚ admitted)
    ∧ zlen (below T admitted) < minPublished.

Lemma sorted_app_tier l1 l2 best T :
  StronglySorted tierLe l1 → (∀ c, c ∈ l1 → tier c ≤ T) → T ≤ best → (∀ c, c ∈ l2 → tier c = best) →
  StronglySorted tierLe (l1 ++ l2).
Proof.
  intros H1 Hle HT H2. induction H1 as [|c l Hs IH Hall]; cbn.
  - induction l2 as [|d l2 IH]; constructor; [apply IH; set_solver|]. apply list.Forall_forall. intros x Hx. unfold tierLe.
    rewrite (H2 d), (H2 x) by set_solver. lia.
  - constructor; [apply IH; set_solver|]. apply list.Forall_forall. intros x [Hx|Hx]%elem_of_app.
    + rewrite list.Forall_forall in Hall. by apply Hall.
    + unfold tierLe. rewrite (H2 x) by done. assert (tier c ≤ T) by (apply Hle; set_solver). lia.
Qed.

Lemma placeTiers_spec admitted minPublished fuel : ∀ used selected T,
  (∀ c, c ∈ admitted → 0 ≤ tier c) →
  (length (filter (λ c, tier c ∉ used) admitted) < fuel)%nat →
  (∀ c, c ∈ admitted → tier c ∈ used ↔ tier c ≤ T) →
  selected ≡ₚ upTo T admitted → StronglySorted tierLe selected → zlen selected < minPublished →
  ∃ result, placeTiers fuel admitted minPublished used selected = Some result ∧ placed admitted minPublished result.
Proof.
  induction fuel as [|fuel IH]; intros used selected T Hpos Hfuel Hused Hsel Hsort Hlen; [lia|]. cbn [placeTiers].
  destruct (bestTier_spec admitted used Hpos) as [[-> Hall]|(Hb & (c & Hc & Ec) & Hnu & Hmin)].
  - cbn. exists selected. split; [done|]. split; [done|]. exists T. split_and!; [done| |].
    + right. rewrite Hsel. unfold upTo. rewrite filter_everything; [done|]. intros d Hd. apply Hused; auto.
    + rewrite Hsel in Hlen. unfold below, upTo in *.
      eapply Z.le_lt_trans; [|exact Hlen]. apply inj_le, length_filter_le. intros; lia.
  - set (best := bestTier admitted used) in *. destruct (Z.eqb_spec best (-1)); [lia|].
    assert (T < best) as HT.
    { apply Z.nle_gt. intros Hle. apply Hnu. rewrite <- Ec. apply Hused; [done|lia]. }
    destruct (upTo_next T best admitted HT) as [Hup Hbelow].
    { intros d Hd. destruct (decide (tier d ∈ used)) as [Hu|Hu]; [left; by apply Hused|right; auto]. }
    set (sel' := selected ++ filter (λ c, tier c = best) admitted).
    assert (sel' ≡ₚ upTo best admitted) as Hsel' by (unfold sel'; by rewrite Hup, Hsel).
    assert (StronglySorted tierLe sel') as Hsort'.
    { eapply (sorted_app_tier _ _ best T); [done| |lia|].
      - intros d Hd. rewrite Hsel in Hd. unfold upTo in Hd. by apply list_elem_of_filter in Hd as [? _].
      - intros d Hd. by apply list_elem_of_filter in Hd as [? _]. }
    destruct (Z.leb_spec minPublished (zlen sel')) as [Hm|Hm].
    + exists sel'. split; [done|]. split; [done|]. exists best. split_and!; [done|auto|]. rewrite Hbelow, <- Hsel. done.
    + apply (IH _ _ best); try done.
      * eapply Nat.lt_le_trans; [|apply Nat.lt_succ_r, Hfuel].
        apply (length_filter_lt _ _ _ c); [set_solver|done|by rewrite Ec|set_solver].
      * intros d Hd. rewrite elem_of_union, elem_of_singleton, Hused by done.
        assert (tier d ≤ T ∨ best ≤ tier d) as Hgap.
        { destruct (decide (tier d ∈ used)) as [Hu|Hu]; [left; by apply Hused|right; auto]. }
        lia.
Qed.

(** The default policy fields. *)
Lemma WithDefaults_min p : 0 < p_MinPublished (WithDefaults p).
Proof. cbn. destruct (Z.leb_spec (p_MinPublished p) 0); [done|lia]. Qed.

(** ** The pacing arithmetic *)

(** Rounding to nearest does not pass a bound that is itself representable. *)
Lemma roundShift_le p k B : 0 < k → 0 ≤ p → p ≤ B * 2 ^ k → roundShift p k ≤ B.
Proof.
  intros Hk Hp HB. unfold roundShift. rewrite Z.shiftr_div_pow2, Z.shiftl_mul_pow2 by lia.
  assert (0 < 2 ^ k) by (apply Z.pow_pos_nonneg; lia). set (q := p / 2 ^ k).
  pose proof (Z.div_mod p (2 ^ k) ltac:(lia)) as Hdm. pose proof (Z.mod_pos_bound p (2 ^ k) ltac:(lia)) as Hm.
  assert (q ≤ B) as Hq by (apply Z.div_le_upper_bound; lia).
  destruct (_ || _) eqn:E; [|done].
  assert (p - q * 2 ^ k ≠ 0) as Hr.
  { assert (1 ≤ 2 ^ (k - 1)) by (assert (0 < 2 ^ (k - 1)) by (apply Z.pow_pos_nonneg; lia); lia).
    apply orb_true_iff in E as [E|E]; b2p; lia. }
  fold q in Hdm. assert (q ≠ B); [|lia]. intros ->. nia.
Qed.

(** A ratio in (0, 1]. *)
Definition ratioOk (r : float64) : Prop := 0 < f_mant r < 2 ^ 53 ∧ aboveOne r = false.

Lemma mulFloor_range r n : ratioOk r → 0 ≤ n < 2 ^ 53 → 0 ≤ mulFloor r n ≤ n.
Proof.
  intros [Hm H1] Hn. unfold mulFloor, aboveOne in *. set (p := f_mant r * n). set (k := Z.max 0 (Z.log2 p - 52)).
  destruct (Z.leb_spec 0 (f_exp r)) as [He|He]; b2p.
  - assert (f_mant r = 1) as Em by (assert (0 < 2 ^ f_exp r) by (apply Z.pow_pos_nonneg; lia); nia).
    assert (f_exp r = 0) as Ee.
    { rewrite Em in H1. destruct (Z.eq_dec (f_exp r) 0); [done|]. assert (2 ^ 1 ≤ 2 ^ f_exp r) by (apply Z.pow_le_mono_r; lia). lia. }
    assert (p = n) as Ep by (unfold p; lia).
    assert (k = 0) as ->.
    { unfold k. rewrite Ep. destruct (Z.eq_dec n 0) as [->|]; [done|]. assert (Z.log2 n < 53) by (apply Z.log2_lt_pow2; lia). lia. }
    rewrite Z.eqb_refl, Ee, Ep, Z.shiftl_0_r. lia.
  - assert (p ≤ n * 2 ^ (- f_exp r)) as Hp by (unfold p; nia). assert (0 ≤ p) as Hp0 by (unfold p; nia).
    assert (k ≤ - f_exp r) as Hk.
    { unfold k. destruct (Z.eq_dec p 0) as [->|Hpn]; [cbn; lia|]. apply Z.max_lub; [lia|].
      assert (2 ^ Z.log2 p ≤ p) as Hlo by (apply Z.log2_spec; lia).
      assert (2 ^ Z.log2 p < 2 ^ (53 - f_exp r)) as Hlt.
      { replace (53 - f_exp r) with (53 + - f_exp r) by lia. rewrite Z.pow_add_r by lia.
        assert (0 < 2 ^ (- f_exp r)) by (apply Z.pow_pos_nonneg; lia). nia. }
      apply Z.pow_lt_mono_r_iff in Hlt; [lia|lia|lia]. }
    assert (0 ≤ k) as Hk0 by (unfold k; lia).
    set (m := if k =? 0 then p else roundShift p k).
    assert (0 ≤ m ≤ n * 2 ^ (- f_exp r - k)) as Hmb.
    { assert (n * 2 ^ (- f_exp r) = n * 2 ^ (- f_exp r - k) * 2 ^ k) as E
        by (rewrite <- Z.mul_assoc, <- Z.pow_add_r by lia; do 2 f_equal; lia).
      unfold m. destruct (Z.eqb_spec k 0) as [->|Hk1]; [rewrite Z.sub_0_r; lia|]. split; [|apply roundShift_le; lia].
      unfold roundShift. assert (0 ≤ Z.shiftr p k) by (apply Z.shiftr_nonneg; lia). case_match; lia. }
    rewrite Z.shiftl_div_pow2 by lia. replace (- (f_exp r + k)) with (- f_exp r - k) by lia.
    assert (0 < 2 ^ (- f_exp r - k)) by (apply Z.pow_pos_nonneg; lia).
    split; [apply Z.div_pos; lia|]. apply Z.div_le_upper_bound; lia.
Qed.

Lemma allowedRemovals_range r n : ratioOk r → 0 ≤ n < 2 ^ 53 → 1 ≤ allowedRemovals n r ≤ Z.max 1 n.
Proof.
  intros Hr Hn. pose proof (mulFloor_range r n Hr Hn). unfold allowedRemovals.
  destruct (Z.ltb_spec (mulFloor r n) 1); lia.
Qed.

Lemma allowedRemovals_pos r n : 1 ≤ allowedRemovals n r.
Proof. unfold allowedRemovals. destruct (Z.ltb_spec (mulFloor r n) 1); lia. Qed.

(** ** The nodes a pass drops *)

Lemma byID_sound cs id c : candidateByID cs !! id = Some c → c ∈ cs ∧ n_Id (c_Node c) = id.
Proof.
  unfold candidateByID. induction cs as [|d cs IH] using rev_ind; [done|].
  rewrite foldl_app. cbn. intros [[<- <-]|[_ H]]%lookup_insert_Some; [set_solver|]. set_solver.
Qed.

Section Pace.
Context (db : dnsDB) (candidates selected : list NodeCandidate) (published : gset string).
Let byID := candidateByID candidates.
Let droppedIDs := droppedFromSelection published selected.
Let dropped := droppedNodes db droppedIDs byID.

Lemma elem_droppedIDs id : id ∈ droppedIDs ↔ id ∈ published ∧ id ∉ idsOf selected.
Proof. unfold droppedIDs, droppedFromSelection. rewrite (merge_sort_Permutation stringLe). set_solver. Qed.

Lemma droppedIDs_nodup : NoDup droppedIDs.
Proof. unfold droppedIDs, droppedFromSelection. rewrite (merge_sort_Permutation stringLe). apply NoDup_elements. Qed.

(** A node that still exists. *)
Definition known (id : string) : Prop := is_Some (byID !! id) ∨ ∃ n, n ∈ dd_nodes db ∧ n_Id n = id.

Lemma elem_dropped n : n ∈ dropped → n_Id n ∈ droppedIDs ∧ known (n_Id n).
Proof.
  unfold dropped, droppedNodes. intros [H|H]%elem_of_app.
  - apply list_elem_of_omap in H as (id & Hid & Hc). destruct (byID !! id) as [c|] eqn:E; [|done]. cbn in Hc. injection Hc as <-.
    destruct (byID_sound _ _ _ E) as [_ Ei]. rewrite Ei. split; [done|]. left. by rewrite E.
  - apply list_elem_of_filter in H as [[Hid _] Hn]. split; [done|]. right. by exists n.
Qed.

Lemma dropped_complete id : id ∈ droppedIDs → known id → ∃ n, n ∈ dropped ∧ n_Id n = id.
Proof.
  unfold dropped, droppedNodes. intros Hid Hk. destruct (byID !! id) as [c|] eqn:E.
  - exists (c_Node c). split; [|by apply (byID_sound _ _ _ E)]. apply elem_of_app. left. apply list_elem_of_omap.
    exists id. by rewrite E.
  - destruct Hk as [[c Hc]|(n & Hn & <-)]; [congruence|]. exists n. split; [|done]. apply elem_of_app. right.
    by apply list_elem_of_filter.
Qed.

Lemma dropped_nodup : NoDup (map n_Id (dd_nodes db)) → NoDup (map n_Id dropped).
Proof.
  intros Hnd. unfold dropped, droppedNodes. rewrite map_app. apply list.NoDup_app. split_and!.
  - pose proof droppedIDs_nodup as Hd. clear Hnd. induction droppedIDs as [|id l IH]; [constructor|].
    apply list.NoDup_cons in Hd as [Hni Hd]. cbn. destruct (byID !! id) as [c|] eqn:E; cbn; [|auto].
    apply list.NoDup_cons. split; [|auto]. intros (n & En & Hn)%list_elem_of_fmap.
    apply list_elem_of_omap in Hn as (id' & Hid' & Hc). destruct (byID !! id') as [c'|] eqn:E'; [|done]. cbn in Hc. injection Hc as <-.
    apply Hni. destruct (byID_sound _ _ _ E) as [_ <-]. destruct (byID_sound _ _ _ E') as [_ <-]. by rewrite En.
  - intros id (n & -> & Hn)%list_elem_of_fmap (n' & En & Hn')%list_elem_of_fmap.
    apply list_elem_of_filter in Hn' as [[_ Hnone] _]. apply list_elem_of_omap in Hn as (id' & _ & Hc).
    destruct (byID !! id') as [c|] eqn:E; [|done]. cbn in Hc. injection Hc as <-. destruct (byID_sound _ _ _ E) as [_ Ei].
    rewrite <- En, Ei in Hnone. congruence.
  - eapply sublist_NoDup; [exact Hnd|]. apply (fmap_sublist n_Id), sublist_filter.
Qed.
End Pace.

(** ** Deferral *)

#[export] Instance newerNode_trans : Transitive newerNode.
Proof. intros a b c. unfold newerNode. lia. Qed.
#[export] Instance newerNode_total : Total newerNode.
Proof. intros a b. unfold newerNode. lia. Qed.

(** What is kept is part of what was dropped, as many as asked for, and nothing
    given up is newer than something kept. *)
Lemma deferred_spec dropped keep :
  ∃ rest, deferredRemovals dropped keep ++ rest ≡ₚ dropped
    ∧ zlen (deferredRemovals dropped keep) = Z.max 0 (Z.min keep (zlen dropped))
    ∧ ∀ a b, a ∈ deferredRemovals dropped keep → b ∈ rest → n_UpdatedAt b ≤ n_UpdatedAt a.
Proof.
  unfold deferredRemovals. destruct (Z.leb_spec keep 0) as [H|H].
  { exists dropped. split_and!; [done|cbn; lia|]. intros a b Ha. by apply elem_of_nil in Ha. }
  destruct (Z.leb_spec (zlen dropped) keep) as [H'|H'].
  { exists []. rewrite app_nil_r. split_and!; [done|lia|]. intros a b _ Hb. by apply elem_of_nil in Hb. }
  pose proof (merge_sort_Permutation newerNode dropped) as Hp. pose proof (StronglySorted_merge_sort newerNode dropped) as Hs.
  exists (drop (Z.to_nat keep) (merge_sort newerNode dropped)). rewrite take_drop. split_and!; [done| |].
  - rewrite length_take, Hp. lia.
  - intros a b Ha Hb. rewrite <- (take_drop (Z.to_nat keep) (merge_sort newerNode dropped)) in Hs.
    by apply (StronglySorted_app_1_elem_of newerNode _ _ _ _ Hs Ha Hb).
Qed.

Lemma keepDeferred_ids db cs sl deferred items :
  keepDeferred db (candidateByID cs) sl deferred = Ok items → map (λ c, n_Id (c_Node c)) items = map n_Id deferred.
Proof.
  revert items. induction deferred as [|n l IH]; intros items H; cbn in H; [by injection H as <-|].
  apply bind_Ok in H as (c & Hc & (cs' & Hcs & H)%bind_Ok). injection H as <-. cbn. rewrite (IH _ Hcs). f_equal.
  destruct (candidateByID cs !! n_Id n) as [c'|] eqn:E.
  - injection Hc as <-. by apply (byID_sound _ _ _ E).
  - unfold nodeCandidate in Hc. apply bind_Ok in Hc as (lines & _ & Hc). by injection Hc as <-.
Qed.

(** ** The theorems *)

Lemma size_within (R : gset string) (l : list string) : (∀ id, id ∈ R → id ∈ l) → (size R ≤ length l)%nat.
Proof.
  intros H. transitivity (size (list_to_set l : gset string)); [apply subseteq_size; set_solver|].
  clear. induction l as [|x l IH]; [done|]. cbn. rewrite size_union_alt, size_singleton.
  assert (size (list_to_set l ∖ {[x]} : gset string) ≤ size (list_to_set l : gset string))%nat by (apply subseteq_size; set_solver).
  lia.
Qed.

(** The candidates [Select] admits. *)
Definition admittedOf (candidates : list NodeCandidate) (published : gset string) (policy : SchedulerPolicy) (now : Z) :=
  filter (λ c, n_Id (c_Node c) ∈ published ∨ healthyLongEnough (c_Node c) (p_MinHealthyTime (WithDefaults policy)) now = true)
    candidates.

(** [Select] admits every published candidate and, of the others, exactly those
    healthy for long enough.  With placement ALL it publishes the admitted
    candidates as they are; with PRIMARY_BACKUP it publishes, lowest tier
    first, all admitted candidates up to some tier: enough to reach
    [MinPublished] or else all of them, and no tier more than needed. *)
Theorem select_placement candidates published policy now :
  (∀ c, c ∈ candidates → 0 ≤ tier c) →
  let admitted := admittedOf candidates published policy now in
  let selected := Select candidates published policy now in
  (∀ c, c ∈ selected → c ∈ candidates
     ∧ (n_Id (c_Node c) ∈ published ∨ healthyLongEnough (c_Node c) (p_MinHealthyTime (WithDefaults policy)) now = true))
  ∧ (p_Placement (WithDefaults policy) ≠ PRIMARY_BACKUP → selected = admitted)
  ∧ (p_Placement (WithDefaults policy) = PRIMARY_BACKUP → placed admitted (p_MinPublished (WithDefaults policy)) selected).
Proof.
  intros Hpos. cbn zeta. set (p := WithDefaults policy). set (admitted := admittedOf candidates published policy now).
  assert (∀ c, c ∈ admitted → c ∈ candidates ∧ (n_Id (c_Node c) ∈ published
    ∨ healthyLongEnough (c_Node c) (p_MinHealthyTime (WithDefaults policy)) now = true)) as Hadm.
  { intros c Hc. apply list_elem_of_filter in Hc. tauto. }
  assert (∃ result, placeTiers (S (length admitted)) admitted (p_MinPublished p) ∅ [] = Some result
    ∧ placed admitted (p_MinPublished p) result) as (result & Hr & Hpl).
  { assert (∀ c, c ∈ admitted → 0 ≤ tier c) as Hpos' by (intros c Hc; apply Hpos, Hadm, Hc).
    apply (placeTiers_spec admitted _ _ ∅ [] (-1)); [done| | | |constructor|apply WithDefaults_min].
    - apply Nat.lt_succ_r. rewrite length_filter. done.
    - intros c Hc. specialize (Hpos' c Hc). split; [set_solver|lia].
    - unfold upTo. clear - Hpos'. induction admitted as [|d l IH]; [done|]. rewrite filter_cons, decide_False; [apply IH; set_solver|].
      specialize (Hpos' d ltac:(set_solver)). lia. }
  unfold Select, selectByPlacement. fold p. change (filter _ candidates) with admitted. rewrite Hr. cbn [default].
  case_bool_decide as Hplc; cbn [negb].
  - split_and!; [|done|done]. intros c Hc. apply Hadm. destruct Hpl as (_ & T & Hperm & _). rewrite Hperm in Hc.
    unfold upTo in Hc. by apply list_elem_of_filter in Hc as [_ ?].
  - split_and!; done.
Qed.

(** What a pass promises, for a number of allowed removals. *)
Definition paced (db : dnsDB) (candidates selected : list NodeCandidate) (published : gset string) (allowed : Z)
    (result : list NodeCandidate) (deferred : bool) : Prop :=
  selected `prefix_of` result ∧ (deferred = true ↔ result ≠ selected)
  ∧ idsOf result ⊆ idsOf selected ∪ published
  ∧ (∀ R : gset string, R ⊆ published ∖ idsOf result → (∀ id, id ∈ R → known db candidates id) → Z.of_nat (size R) ≤ allowed)
  ∧ (published ⊆ idsOf selected ∨ ∃ id, id ∈ published ∧ id ∉ idsOf result).

(** Nothing is deferred when few enough nodes are dropped. *)
Lemma paced_none db candidates selected published allowed :
  (∀ R : gset string, R ⊆ published ∖ idsOf selected → (∀ id, id ∈ R → known db candidates id) → Z.of_nat (size R) ≤ allowed) →
  paced db candidates selected published allowed selected false.
Proof.
  intros HR. split_and!; [done|done|set_solver|done|].
  destruct (decide (published ⊆ idsOf selected)) as [|Hn]; [auto|]. right.
  destruct (set_choose_L (published ∖ idsOf selected)) as [id Hid]; [|set_solver].
  intros E. apply Hn. intros id Hid. destruct (decide (id ∈ idsOf selected)); [done|]. set_solver.
Qed.

(** Some are. *)
Lemma paced_some db candidates selected published allowed supportsLines items :
  let dropped := droppedNodes db (droppedFromSelection published selected) (candidateByID candidates) in
  NoDup (map n_Id (dd_nodes db)) → 1 ≤ allowed → allowed < zlen dropped →
  keepDeferred db (candidateByID candidates) supportsLines (deferredRemovals dropped (zlen dropped - allowed)) = Ok items →
  paced db candidates selected published allowed (selected ++ items) true.
Proof.
  intros dropped Hnd Ha Hlt Hk. pose proof (keepDeferred_ids _ _ _ _ _ Hk) as Hids.
  pose proof (dropped_nodup db candidates selected published Hnd) as Hdnd. fold dropped in Hdnd.
  destruct (deferred_spec dropped (zlen dropped - allowed)) as (rest & Hperm & Hlen & _).
  set (deferred := deferredRemovals dropped (zlen dropped - allowed)) in *.
  assert (zlen rest = allowed) as Hrest by (rewrite <- Hperm, length_app in Hlen, Hlt; lia).
  assert (∀ n, n ∈ dropped → n_Id n ∈ published ∧ n_Id n ∉ idsOf selected) as Hdr.
  { intros n Hn. apply (elem_droppedIDs selected published). by apply (elem_dropped db candidates). }
  assert (idsOf (selected ++ items) = idsOf selected ∪ list_to_set (map n_Id deferred)) as Eids.
  { unfold idsOf. rewrite map_app, Hids, list_to_set_app_L. done. }
  rewrite <- Hperm, map_app in Hdnd. apply list.NoDup_app in Hdnd as (_ & Hdis & _).
  split_and!.
  - by exists items.
  - split; [intros _|done]. destruct items as [|c items]; [|intros E; apply (f_equal length) in E; rewrite length_app in E; cbn in E; lia].
    cbn in Hids. destruct deferred; [cbn in Hlen; lia|done].
  - rewrite Eids. intros id [Hid|(n & -> & Hn)%elem_of_list_to_set%list_elem_of_fmap]%elem_of_union; [set_solver|].
    apply elem_of_union_r, Hdr. rewrite <- Hperm. set_solver.
  - intros R HR Hkn. rewrite <- Hrest, <- (length_map n_Id rest). apply inj_le, size_within. intros id Hid.
    rewrite Eids in HR. destruct (dropped_complete db candidates selected published id) as (n & Hn & <-); [|by apply Hkn|].
    + apply (elem_droppedIDs selected published). set_solver.
    + apply list_elem_of_fmap_2. fold dropped in Hn. rewrite <- Hperm in Hn. apply elem_of_app in Hn as [Hn|]; [|done].
      exfalso. apply HR in Hid. assert (n_Id n ∈ map n_Id deferred) by by apply list_elem_of_fmap_2. set_solver.
  - right. destruct rest as [|n rest]; [cbn in Hrest; lia|]. exists (n_Id n).
    assert (n ∈ dropped) as Hn by (rewrite <- Hperm; set_solver). destruct (Hdr n Hn) as [Hp Hs]. split; [done|].
    rewrite Eids. intros [?|Hd%elem_of_list_to_set]%elem_of_union; [done|]. apply (Hdis _ Hd). cbn. set_solver.
Qed.

(** C37. Removals are paced.  While at least one node is selected, a pass keeps the
    selection and only adds nodes that are published; of the published nodes
    that still exist, at most the allowed number leave; and if any
    published node is to leave, at least one does, so deferral always
    progresses.  The allowed number is between one and the number of published
    nodes. *)
Theorem removals_paced db candidates selected published policy supportsLines result deferred :
  NoDup (map n_Id (dd_nodes db)) → selected ≠ [] → ratioOk (p_MaxRemovalRatio (WithDefaults policy)) →
  Z.of_nat (size published) < 2 ^ 53 →
  paceRemovals db candidates selected published policy supportsLines = Ok (result, deferred) →
  let allowed := allowedRemovals (Z.of_nat (size published)) (p_MaxRemovalRatio (WithDefaults policy)) in
  (1 ≤ allowed ≤ Z.max 1 (Z.of_nat (size published)))
  ∧ paced db candidates selected published allowed result deferred.
Proof.
  intros Hnd Hsel Hratio Hsize H. cbn zeta. set (allowed := allowedRemovals _ _).
  assert (1 ≤ allowed ≤ Z.max 1 (Z.of_nat (size published))) as Ha by (apply allowedRemovals_range; [done|lia]).
  split; [done|]. unfold paceRemovals in H. fold allowed in H.
  assert (∀ (R : gset string) (l : list string), R ⊆ published ∖ idsOf selected →
    (∀ id, id ∈ droppedFromSelection published selected → known db candidates id → id ∈ l) → zlen l ≤ allowed →
    (∀ id, id ∈ R → known db candidates id) → Z.of_nat (size R) ≤ allowed) as Hcount.
  { intros R l HR Hl Hle Hk. transitivity (zlen l); [|done]. apply inj_le, size_within. intros id Hid.
    apply Hl; [apply elem_droppedIDs; set_solver|auto]. }
  destruct ((match selected with [] => true | _ => false end) || bool_decide (size published = 0%nat)) eqn:E0.
  { injection H as <- <-. apply paced_none. intros R HR Hk. apply orb_true_iff in E0 as [E0|E0%bool_decide_eq_true]; [by destruct selected|].
    apply size_empty_iff in E0. assert (R ≡ ∅) as ->%leibniz_equiv by set_solver. rewrite size_empty. lia. }
  case_bool_decide as E1.
  { injection H as <- <-. apply paced_none. intros R HR Hk. apply (Hcount R []); [done| |cbn; lia|done].
    intros id Hid. by rewrite E1 in Hid. }
  destruct (Z.leb_spec (zlen (droppedFromSelection published selected)) allowed) as [E2|E2].
  { injection H as <- <-. apply paced_none. intros R HR Hk. by apply (Hcount R (droppedFromSelection published selected)). }
  set (dropped := droppedNodes db _ _) in *.
  destruct (Z.leb_spec (zlen dropped) allowed) as [E3|E3].
  - assert (deferredRemovals dropped (zlen dropped - allowed) = []) as Hd.
    { unfold deferredRemovals. destruct (Z.leb_spec (zlen dropped - allowed) 0); [done|lia]. }
    rewrite Hd in H. injection H as <- <-. apply paced_none. intros R HR Hk.
    apply (Hcount R (map n_Id dropped)); [done| |by rewrite length_map|done].
    intros id Hid Hkn. destruct (dropped_complete db candidates selected published id Hid Hkn) as (n & Hn & <-).
    by apply list_elem_of_fmap_2.
  - destruct (deferredRemovals dropped (zlen dropped - allowed)) as [|n ns] eqn:Hd.
    + destruct (deferred_spec dropped (zlen dropped - allowed)) as (rest & _ & Hlen & _). rewrite Hd in Hlen. cbn in Hlen. lia.
    + apply bind_Ok in H as (items & Hk & H). injection H as <- <-. rewrite <- Hd in Hk.
      by eapply paced_some; [done|lia|done|exact Hk].
Qed.

(** ** Runs *)

Module DnsDemo.

Definition node (id : string) (status : NodeStatus) (prio : Z) (since : option Z) (updated : Z) : Node :=
  {| n_Id := id; n_Status := status; n_DnsPriority := prio; n_OnlineSince := since; n_HeartbeatAt := Some 0; n_UpdatedAt := updated |}.
Definition now : Z := 100 * minute.
Definition cluster (nodes : list Node) (managed : list string) : dnsDB := {|
  dd_nodes := nodes; dd_member := λ _, true; dd_revoked := λ _, Some false; dd_addresses := λ id, [id]; dd_links := λ _, []; dd_lines := λ _, None;
  dd_managed := map Some managed |}.
Definition plain (n : Node) : NodeCandidate := {| c_Node := n; c_Addresses := [n_Id n]; c_Lines := [None] |}.

(** A primary, two backups, and a node that has just come online. *)
Definition tiers : list NodeCandidate := map plain
  [node "backup2" ONLINE 20 None 0; node "primary" ONLINE 0 None 0; node "backup1" ONLINE 10 None 0;
   node "fresh" ONLINE 0 (Some (now - second)) 0].
Definition primaryBackup : SchedulerPolicy := {|
  p_Placement := PRIMARY_BACKUP; p_MinPublished := 2; p_MinHealthyTime := None; p_MaxRemovalRatio := Float64 0 0 |}.

Example demo_selected : map (λ c, n_Id (c_Node c)) (Select tiers ∅ primaryBackup now) = ["primary"; "backup1"].
Proof. vm_compute. reflexivity. Qed.

Lemma select_placement_witness : placed (admittedOf tiers ∅ primaryBackup now) 2 (Select tiers ∅ primaryBackup now).
Proof.
  destruct (select_placement tiers ∅ primaryBackup now) as (_ & _ & H).
  - assert (Forall (λ c, 0 ≤ tier c) tiers) as Hall by (apply (bool_decide_unpack _); vm_compute; exact I).
    apply list.Forall_forall. exact Hall.
  - apply H. vm_compute. reflexivity.
Defined.

(** Four published nodes go down at once; one is removed, three stay. *)
Definition outage : dnsDB := cluster
  [node "up" ONLINE 0 None 0; node "d1" OFFLINE 0 None 1; node "d2" OFFLINE 0 None 2; node "d3" OFFLINE 0 None 3;
   node "d4" OFFLINE 0 None 4] ["up"; "d1"; "d2"; "d3"; "d4"].
Definition allPolicy : SchedulerPolicy := {|
  p_Placement := ALL; p_MinPublished := 0; p_MinHealthyTime := None; p_MaxRemovalRatio := Float64 0 0 |}.
Definition outageSelected : list NodeCandidate := [plain (node "up" ONLINE 0 None 0)].

Definition outageResult : list NodeCandidate :=
  match paceRemovals outage outageSelected outageSelected (publishedNodeIDs outage) allPolicy false with Ok (r, _) => r | Err _ => [] end.
Example demo_paced : map (λ c, n_Id (c_Node c)) outageResult = ["up"; "d4"; "d3"; "d2"].
Proof. vm_compute. reflexivity. Qed.

Lemma removals_paced_witness :
  paced outage outageSelected outageSelected (publishedNodeIDs outage)
    (allowedRemovals (Z.of_nat (size (publishedNodeIDs outage))) (p_MaxRemovalRatio (WithDefaults allPolicy))) outageResult true.
Proof.
  destruct (removals_paced outage outageSelected outageSelected (publishedNodeIDs outage) allPolicy false outageResult true) as [_ H].
  - apply (bool_decide_unpack _). vm_compute. exact I.
  - discriminate.
  - split; [split; vm_compute; reflexivity|vm_compute; reflexivity].
  - vm_compute. reflexivity.
  - vm_compute. reflexivity.
  - exact H.
Defined.

(** The only published node is down and the only eligible one is too fresh. *)
Definition handover : dnsDB := cluster
  [node "old" OFFLINE 0 None 0; node "new" ONLINE 0 (Some (now - second)) (now - second)] ["old"].

End DnsDemo.

(** The cap on removals is skipped whenever nothing is selected, not only when
    no eligible node remains: with one published node gone and one eligible
    node still held back by the admission guard, a pass publishes nothing at
    all. *)
Theorem held_back_node_empties_dns :
  (∃ c, dnsCandidates DnsDemo.handover false DnsDemo.now = Ok [c])
  ∧ publishedNodeIDs DnsDemo.handover = {["old"]}
  ∧ scheduledSelection DnsDemo.handover DnsDemo.allPolicy ALL false DnsDemo.now = Ok ([], false).
Proof.
  split; [eexists; vm_compute; reflexivity|]. split; [vm_compute; reflexivity|]. vm_compute. reflexivity.
Qed.
