(* ===== verification/OriginSelect.v ===== *)
(** * Choosing an origin ([caddy/origingovernance/policy.go])

    The selection policy of the reverse proxy: provisioning from the site's
    backends, the candidates of the lowest priority tier with its panic mode,
    and the schedulers.  What the proxy knows of an upstream (whether it is
    available, its open requests) is part of the upstream; the host a client
    address splits to and the draw of the random scheduler are arguments.  The
    metrics are not modelled. *)
From Stdlib Require Import ZArith Lia Ascii String.
From stdpp Require Import base numbers list strings gmap sets option.
From S2P Require Import Prelude.

Local Open Scope Z_scope.

(** ** Data *)

Record Backend := { b_Dial : string; b_HostHeader : string; b_Weight : Z; b_Priority : Z }.
Record Upstream := { u_Dial : string; u_Available : bool; u_NumRequests : Z }.

#[export] Instance Upstream_eq_dec : EqDecision Upstream.
Proof. solve_decision. Defined.

Record SelectionPolicy := {
  sp_SiteID : string; sp_Scheduler : string; sp_Backends : list Backend;
  sp_index : Z; sp_byDial : gmap string Backend;
}.

Inductive originError := ErrRequired | ErrScheduler (name : string) | ErrBackend (b : Backend).

Definition schedulers : list string :=
  [""; "round_robin"; "weighted_round_robin"; "least_conn"; "random"; "first"; "ip_hash"; "client_ip_hash"].

(** [Provision]: the loop over the backends. *)
Fixpoint provisionBackends (byDial : gmap string Backend) (backends : list Backend) : result originError (gmap string Backend) :=
  match backends with
  | [] => Ok byDial
  | b :: rest =>
      if bool_decide (b_Dial b = "") || (b_Priority b <? 0) || (b_Weight b <? 0) then Err (ErrBackend b)
      else
        let b := if b_Weight b =? 0 then {| b_Dial := b_Dial b; b_HostHeader := b_HostHeader b; b_Weight := 1; b_Priority := b_Priority b |} else b in
        provisionBackends (<[b_Dial b := b]> byDial) rest
  end.
Definition Provision (p : SelectionPolicy) : result originError SelectionPolicy :=
  if bool_decide (sp_SiteID p = "") || bool_decide (length (sp_Backends p) = 0%nat) then Err ErrRequired
  else if negb (bool_decide (sp_Scheduler p ∈ schedulers)) then Err (ErrScheduler (sp_Scheduler p))
  else
    byDial ← provisionBackends ∅ (sp_Backends p);
    Ok {| sp_SiteID := sp_SiteID p; sp_Scheduler := sp_Scheduler p; sp_Backends := sp_Backends p;
          sp_index := sp_index p; sp_byDial := byDial |}.

(** ** Candidates *)

Definition zeroBackend : Backend := {| b_Dial := ""; b_HostHeader := ""; b_Weight := 0; b_Priority := 0 |}.
Definition backendOf (p : SelectionPolicy) (u : Upstream) : Backend :=
  default {| b_Dial := u_Dial u; b_HostHeader := ""; b_Weight := 1; b_Priority := 0 |} (sp_byDial p !! u_Dial u).

(** One round of the loop of [candidates]. *)
Definition candidateStep (p : SelectionPolicy) (requireAvailable : bool) (st : Z * list Upstream) (u : Upstream) : Z * list Upstream :=
  let '(lowest, cs) := st in
  if requireAvailable && negb (u_Available u) then (lowest, cs)
  else
    let prio := b_Priority (backendOf p u) in
    let '(lowest, cs) := if prio <? lowest then (prio, []) else (lowest, cs) in
    (lowest, if prio =? lowest then cs ++ [u] else cs).
Definition candidates (p : SelectionPolicy) (pool : list Upstream) (requireAvailable : bool) : list Upstream :=
  (foldl (candidateStep p requireAvailable) (max_int64, []) pool).2.

(** ** Schedulers *)

Definition weightOf (p : SelectionPolicy) (u : Upstream) : Z := b_Weight (default zeroBackend (sp_byDial p !! u_Dial u)).

(** The second loop of [chooseWeighted]: where the position falls. *)
Fixpoint weightedIndex (weights : list Z) (position : Z) : option nat :=
  match weights with
  | [] => None
  | w :: rest => if position - w <? 0 then Some 0%nat else S <$> weightedIndex rest (position - w)
  end.

(** [chooseWeighted]: the chosen candidate and the counter after it. *)
Definition chooseWeighted (p : SelectionPolicy) (cs : list Upstream) : option Upstream * SelectionPolicy :=
  let weights := map (weightOf p) cs in
  let total := foldl (λ acc w, to_int64 (acc + w)) 0 weights in
  if total <=? 0 then (cs !! 0%nat, p)
  else
    let next := wrap64 (sp_index p + 1) in
    let position := wrap64 (next - 1) mod total in
    let p' := {| sp_SiteID := sp_SiteID p; sp_Scheduler := sp_Scheduler p; sp_Backends := sp_Backends p;
                 sp_index := next; sp_byDial := sp_byDial p |} in
    (cs !! default (length cs - 1)%nat (weightedIndex weights position), p').

(** [hash/fnv]'s 64-bit FNV-1a. *)
Definition fnv64a (s : string) : Z :=
  foldl (λ h c, wrap64 (Z.lxor h (Z.of_N (N_of_ascii c)) * 1099511628211)) 14695981039346656037 (list_ascii_of_string s).

Definition leastConn (cs : list Upstream) : option Upstream :=
  match cs with
  | [] => None
  | c :: rest => Some (foldl (λ selected c, if u_NumRequests c <? u_NumRequests selected then c else selected) c rest)
  end.

(** [choose]; [host] is the client's host, [draw] a random number, which
    [rand.IntN] reduces to its range. *)
Definition choose (p : SelectionPolicy) (cs : list Upstream) (host : string) (draw : nat) : option Upstream * SelectionPolicy :=
  if bool_decide (sp_Scheduler p = "first") then (cs !! 0%nat, p)
  else if bool_decide (sp_Scheduler p = "least_conn") then (leastConn cs, p)
  else if bool_decide (sp_Scheduler p = "random") then (cs !! (draw mod length cs)%nat, p)
  else if bool_decide (sp_Scheduler p = "ip_hash") || bool_decide (sp_Scheduler p = "client_ip_hash")
  then (cs !! Z.to_nat (fnv64a host mod zlen cs), p)
  else chooseWeighted p cs.

Fixpoint afterSlash (s : string) : option string :=
  match s with
  | EmptyString => None
  | String c rest => if Ascii.eqb c "/"%char then Some rest else afterSlash rest
  end.
Definition dialHostPort (dial : string) : string := default dial (afterSlash dial).

(** [selectUpstream]: the upstream with the address and host the request is
    sent with. *)
Definition selectUpstream (p : SelectionPolicy) (u : Upstream) : Upstream * string * string :=
  let backend := default zeroBackend (sp_byDial p !! u_Dial u) in
  (u, b_Dial backend, if bool_decide (b_HostHeader backend = "") then dialHostPort (u_Dial u) else b_HostHeader backend).

Definition Select (p : SelectionPolicy) (pool : list Upstream) (host : string) (draw : nat)
    : option (Upstream * string * string) * SelectionPolicy :=
  match pool with
  | [] => (None, p)
  | [u] => (Some (selectUpstream p u), p)
  | _ =>
      let cs := candidates p pool true in
      let cs := match cs with [] => candidates p pool false | _ => cs end in
      match cs with
      | [] => (None, p)
      | _ => let '(chosen, p') := choose p cs host draw in (selectUpstream p <$> chosen, p')
      end
  end.

(** ** Provisioning *)

(** A provisioned policy: every backend is known under its address, with a
    positive weight. *)
Definition provisioned (p : SelectionPolicy) : Prop :=
  (∀ b, b ∈ sp_Backends p → is_Some (sp_byDial p !! b_Dial b))
  ∧ (∀ dial b, sp_byDial p !! dial = Some b → b_Dial b = dial ∧ 1 ≤ b_Weight b ∧ 0 ≤ b_Priority b).

Lemma provisionBackends_spec bs : ∀ m m',
  provisionBackends m bs = Ok m' →
  (∀ dial b, m !! dial = Some b → b_Dial b = dial ∧ 1 ≤ b_Weight b ∧ 0 ≤ b_Priority b) →
  (∀ dial b, m' !! dial = Some b → b_Dial b = dial ∧ 1 ≤ b_Weight b ∧ 0 ≤ b_Priority b)
  ∧ (∀ dial, is_Some (m !! dial) → is_Some (m' !! dial)) ∧ (∀ b, b ∈ bs → is_Some (m' !! b_Dial b)).
Proof.
  induction bs as [|b bs IH]; intros m m' H Hm; cbn in H.
  { injection H as <-. split_and!; [done|done|]. intros b Hb. by apply elem_of_nil in Hb. }
  destruct (bool_decide _ || _ || _) eqn:Hbad; [done|]. b2p.
  set (b' := if b_Weight b =? 0 then _ else _) in H.
  assert (b_Dial b' = b_Dial b ∧ 1 ≤ b_Weight b' ∧ 0 ≤ b_Priority b') as (Ed & Hw & Hp).
  { unfold b'. destruct (Z.eqb_spec (b_Weight b) 0); cbn; split_and!; try done; lia. }
  destruct (IH _ _ H) as (Hk1 & Hk2 & Hk3).
  { intros dial x [[<- <-]|[_ ?]]%lookup_insert_Some; [done|by apply Hm]. }
  split_and!; [done| |].
  - intros dial Hs. apply Hk2. apply lookup_insert_is_Some'. auto.
  - intros x [-> | Hx]%elem_of_cons; [|auto]. apply Hk2. rewrite Ed. by rewrite lookup_insert_eq.
Qed.

Lemma Provision_ok p p' : Provision p = Ok p' → provisioned p' ∧ sp_Backends p' = sp_Backends p.
Proof.
  unfold Provision. destruct (_ || _); [done|]. destruct (negb _); [done|]. intros (m & Hm & [= <-])%bind_Ok.
  destruct (provisionBackends_spec _ _ _ Hm) as (H1 & _ & H3); [done|]. by split; [split|].
Qed.

(** ** The candidates *)

Definition eligible (requireAvailable : bool) (u : Upstream) : Prop := requireAvailable = true → u_Available u = true.
#[export] Instance eligible_dec b u : Decision (eligible b u).
Proof. unfold eligible. apply _. Defined.
Definition prioOf (p : SelectionPolicy) (u : Upstream) : Z := b_Priority (backendOf p u).

(** Priorities are Go [int]s. *)
Definition intPriorities (p : SelectionPolicy) : Prop := ∀ dial b, sp_byDial p !! dial = Some b → b_Priority b ≤ max_int64.

Lemma prioOf_int p u : intPriorities p → prioOf p u ≤ max_int64.
Proof.
  intros H. unfold prioOf, backendOf. destruct (sp_byDial p !! u_Dial u) as [b|] eqn:E; cbn; [by apply (H _ _ E)|].
  unfold max_int64. lia.
Qed.

(** The candidates are the eligible upstreams of the lowest priority, in pool
    order. *)
Lemma candidates_spec p pool req : intPriorities p →
  ∃ lowest, candidates p pool req = filter (λ u, eligible req u ∧ prioOf p u = lowest) pool
    ∧ (∀ u, u ∈ pool → eligible req u → lowest ≤ prioOf p u)
    ∧ (candidates p pool req = [] → ∀ u, u ∈ pool → ~ eligible req u).
Proof.
  intros Hint. unfold candidates.
  assert (∃ lowest, foldl (candidateStep p req) (max_int64, []) pool
      = (lowest, filter (λ u, eligible req u ∧ prioOf p u = lowest) pool)
    ∧ lowest ≤ max_int64
    ∧ (∀ u, u ∈ pool → eligible req u → lowest ≤ prioOf p u)
    ∧ (lowest = max_int64 ∨ ∃ u, u ∈ pool ∧ eligible req u ∧ prioOf p u = lowest)) as (lowest & -> & Hle & Hlow & Hex).
  { induction pool as [|u pool IH] using rev_ind.
    { exists max_int64. split_and!; [done|done| |auto]. intros u Hu. by apply elem_of_nil in Hu. }
    destruct IH as (lo & Hf & Hle & Hlow & Hex). rewrite foldl_app, Hf. cbn [foldl candidateStep].
    assert (∀ v lo', v ∈ pool ++ [u] → eligible req v → (∀ v, v ∈ pool → eligible req v → lo' ≤ prioOf p v) →
      (eligible req u → lo' ≤ prioOf p u) → lo' ≤ prioOf p v) as Hcase.
    { intros v lo' [Hv|Hv]%elem_of_app Hev H1 H2; [auto|]. apply list_elem_of_singleton in Hv as ->. auto. }
    destruct (req && negb (u_Available u)) eqn:Hel.
    - assert (~ eligible req u) as Hne.
      { apply andb_true_iff in Hel as [-> Hav%negb_true_iff]. intros H. specialize (H eq_refl). congruence. }
      exists lo. split_and!; [|done| |].
      + rewrite list.filter_app, (filter_cons _ u), decide_False by tauto. by rewrite app_nil_r.
      + intros v Hv Hev. apply (Hcase v lo Hv Hev); [done|]. intros ?. by destruct Hne.
      + destruct Hex as [|(v & Hv & ?)]; [auto|]. right. exists v. set_solver.
    - assert (eligible req u) as Heu.
      { intros ->. cbn in Hel. by apply negb_false_iff. }
      change (b_Priority (backendOf p u)) with (prioOf p u). destruct (Z.ltb_spec (prioOf p u) lo) as [Hlt|Hge].
      + rewrite Z.eqb_refl. exists (prioOf p u). split_and!; [|lia| |].
        * f_equal. rewrite list.filter_app, (filter_cons _ u), decide_True by done. f_equal.
          symmetry. apply filter_nothing. intros v Hv [Hev Ev]. pose proof (Hlow v Hv Hev). lia.
        * intros v Hv Hev. apply (Hcase v _ Hv Hev); [|done]. intros w Hw Hew. pose proof (Hlow w Hw Hew). lia.
        * right. exists u. set_solver.
      + exists lo. split_and!; [|done| |].
        * f_equal. rewrite list.filter_app, (filter_cons _ u). destruct (Z.eqb_spec (prioOf p u) lo).
          -- by rewrite decide_True by done.
          -- rewrite decide_False by tauto. by rewrite app_nil_r.
        * intros v Hv Hev. apply (Hcase v _ Hv Hev); [done|]. lia.
        * destruct Hex as [|(v & Hv & ?)]; [auto|]. right. exists v. set_solver. }
  exists lowest. cbn. split_and!; [done|done|]. intros Hnil u Hu Heu.
  destruct Hex as [Emax|(v & Hv & Hev & Ev)].
  - pose proof (Hlow u Hu Heu). pose proof (prioOf_int p u Hint).
    by apply (filter_nil_not_elem_of _ _ u Hnil); [split; [done|lia]|].
  - by apply (filter_nil_not_elem_of _ _ v Hnil).
Qed.

(** ** Weighted choice *)

Definition total (weights : list Z) : Z := foldr Z.add 0 weights.

Lemma weightedIndex_bound weights pos i : weightedIndex weights pos = Some i → (i < length weights)%nat.
Proof.
  revert pos i. induction weights as [|w ws IH]; intros pos i H; cbn in H; [done|].
  destruct (pos - w <? 0); [injection H as <-; cbn; lia|].
  destruct (weightedIndex ws (pos - w)) as [k|] eqn:E; [|done]. injection H as <-. apply IH in E. cbn. lia.
Qed.

Lemma chooseWeighted_some p cs : cs ≠ [] → is_Some (chooseWeighted p cs).1.
Proof.
  intros Hne. unfold chooseWeighted. assert (0 < length cs)%nat as Hl by (destruct cs; [done|cbn; lia]).
  destruct (_ <=? 0); cbn; [by apply lookup_lt_is_Some|]. apply lookup_lt_is_Some.
  destruct (weightedIndex _ _) as [i|] eqn:E; cbn; [|lia]. apply weightedIndex_bound in E. by rewrite length_map in E.
Qed.

Lemma choose_some p cs host draw : cs ≠ [] → ∃ u, (choose p cs host draw).1 = Some u ∧ u ∈ cs.
Proof.
  intros Hne. assert (0 < length cs)%nat as Hl by (destruct cs; [done|cbn; lia]).
  assert (∀ k, (k < length cs)%nat → ∃ u, cs !! k = Some u ∧ u ∈ cs) as Hk.
  { intros k Hk. apply lookup_lt_is_Some in Hk as [u Hu]. exists u. split; [done|]. by eapply list_elem_of_lookup_2. }
  unfold choose. repeat case_bool_decide; cbn [orb fst].
  - by apply Hk.
  - destruct cs as [|c rest]; [done|]. cbn. eexists. split; [reflexivity|]. clear.
    assert (∀ l x (P : Upstream → Prop), P x → (∀ y, y ∈ l → P y) →
      P (foldl (λ selected c, if u_NumRequests c <? u_NumRequests selected then c else selected) x l)) as Hf.
    { induction l as [|y l IH]; intros x P Hx Hl; cbn; [done|]. apply IH; [case_match; [apply Hl; set_solver|done]|set_solver]. }
    apply (Hf rest c (λ u, u ∈ c :: rest)); set_solver.
  - apply Hk. by apply Nat.mod_upper_bound, Nat.neq_0_lt_0.
  - apply Hk. pose proof (Z.mod_pos_bound (fnv64a host) (zlen cs)). lia.
  - apply Hk. pose proof (Z.mod_pos_bound (fnv64a host) (zlen cs)). lia.
  - apply Hk. pose proof (Z.mod_pos_bound (fnv64a host) (zlen cs)). lia.
  - destruct (chooseWeighted_some p cs Hne) as [u Hu]. exists u. split; [done|].
    unfold chooseWeighted in Hu. destruct (_ <=? 0); cbn in Hu; by eapply list_elem_of_lookup_2.
Qed.

(** Positions of a whole cycle hit each candidate as often as it weighs. *)
Lemma weightedIndex_count weights i :
  Forall (λ w, 0 ≤ w) weights →
  Z.of_nat (length (filter (λ pos, weightedIndex weights pos = Some i) (seqZ 0 (total weights)))) = default 0 (weights !! i).
Proof.
  revert i. induction weights as [|w ws IH]; intros i Hpos; [done|].
  apply Forall_cons_1 in Hpos as [Hw Hpos]. cbn [total foldr]. fold (total ws).
  assert (0 ≤ total ws) as Ht by (clear - Hpos; induction Hpos as [|w ws Hw _ IH]; cbn; [done|]; fold (total ws); lia).
  assert (seqZ 0 (w + total ws) = seqZ 0 w ++ map (Z.add w) (seqZ 0 (total ws))) as ->.
  { rewrite seqZ_app by lia. f_equal. rewrite (fmap_add_seqZ w 0). f_equal. lia. }
  rewrite list.filter_app, length_app. destruct i as [|i].
  - rewrite (filter_everything _ (seqZ 0 w)), (filter_nothing _ (map _ _)).
    + rewrite length_seqZ. cbn. lia.
    + intros x (y & -> & Hy%elem_of_seqZ)%list_elem_of_fmap. cbn. destruct (Z.ltb_spec (w + y - w) 0); [lia|].
      by destruct (weightedIndex ws _).
    + intros x Hx%elem_of_seqZ. cbn. destruct (Z.ltb_spec (x - w) 0); [done|lia].
  - rewrite (filter_nothing _ (seqZ 0 w)).
    + change ((w :: ws) !! S i) with (ws !! i). rewrite <- (IH i Hpos). f_equal. cbn [length Nat.add].
      apply length_filter_map. intros x Hx%elem_of_seqZ. cbn. replace (w + x - w) with x by lia.
      destruct (Z.ltb_spec x 0); [lia|]. destruct (weightedIndex ws x); cbn; [|done]. split; congruence.
    + intros x Hx%elem_of_seqZ. cbn. destruct (Z.ltb_spec (x - w) 0); [done|lia].
Qed.

Lemma weightedIndex_some weights pos : 0 ≤ pos < total weights → is_Some (weightedIndex weights pos).
Proof.
  revert pos. induction weights as [|w ws IH]; intros pos Hp; cbn in *; [lia|]. fold (total ws) in Hp.
  destruct (Z.ltb_spec (pos - w) 0); [done|]. destruct (IH (pos - w)) as [k ->]; [lia|done].
Qed.

Lemma total_nonneg weights : Forall (λ w, 0 ≤ w) weights → 0 ≤ total weights.
Proof. induction 1 as [|w ws Hw _ IH]; cbn; [done|]. fold (total ws). lia. Qed.

(** The sum of the first loop does not overflow when the total fits. *)
Lemma total_int64 weights acc : 0 ≤ acc → Forall (λ w, 0 ≤ w) weights → acc + total weights ≤ max_int64 →
  foldl (λ acc w, to_int64 (acc + w)) acc weights = acc + total weights.
Proof.
  revert acc. induction weights as [|w ws IH]; intros acc Ha Hw Hm; cbn [foldl total foldr]; [lia|]. fold (total ws).
  cbn [total foldr] in Hm. fold (total ws) in Hm. apply Forall_cons_1 in Hw as [Hw Hws]. pose proof (total_nonneg ws Hws).
  unfold max_int64 in *. rewrite to_int64_small by lia. rewrite IH; [lia|lia|done|lia].
Qed.

(** A cycle of consecutive numbers has every remainder once. *)
Lemma mod_cycle k t : 0 < t → map (λ n, n mod t) (seqZ k t) ≡ₚ seqZ 0 t.
Proof.
  intros Ht. apply NoDup_Permutation; [|apply NoDup_seqZ|].
  - apply (NoDup_fmap_2_strong _); [|apply NoDup_seqZ]. intros x y Hx%elem_of_seqZ Hy%elem_of_seqZ E.
    pose proof (Z.div_mod x t ltac:(lia)). pose proof (Z.div_mod y t ltac:(lia)).
    assert (x / t = y / t); [nia|]. nia.
  - intros x. rewrite elem_of_seqZ. split.
    + intros (n & -> & _)%list_elem_of_fmap. pose proof (Z.mod_pos_bound n t Ht). lia.
    + intros Hx. apply list_elem_of_fmap. exists (k + (x - k) mod t). pose proof (Z.mod_pos_bound (x - k) t Ht). split.
      * rewrite Z.add_mod_idemp_r by lia. replace (k + (x - k)) with x by lia. symmetry. apply Z.mod_small. lia.
      * apply elem_of_seqZ. lia.
Qed.

(** Repeated choices from the same candidates. *)
Fixpoint chooseMany (n : nat) (p : SelectionPolicy) (cs : list Upstream) : list (option Upstream) :=
  match n with
  | O => []
  | S n => let '(c, p') := chooseWeighted p cs in c :: chooseMany n p' cs
  end.

Definition choiceAt (p : SelectionPolicy) (cs : list Upstream) (n : Z) : option Upstream :=
  cs !! default (length cs - 1)%nat (weightedIndex (map (weightOf p) cs) (n mod total (map (weightOf p) cs))).

Lemma chooseMany_map n : ∀ p cs,
  Forall (λ w, 0 ≤ w) (map (weightOf p) cs) → 0 < total (map (weightOf p) cs) ≤ max_int64 →
  0 ≤ sp_index p → sp_index p + Z.of_nat n ≤ 2 ^ 64 - 1 →
  chooseMany n p cs = map (choiceAt p cs) (seqZ (sp_index p) (Z.of_nat n)).
Proof.
  induction n as [|n IH]; intros p cs Hw Ht H0 H1; [done|]. cbn [chooseMany].
  rewrite seqZ_cons by lia. cbn [map]. unfold chooseWeighted at 1.
  rewrite total_int64 by (try done; lia). rewrite Z.add_0_l. destruct (Z.leb_spec (total (map (weightOf p) cs)) 0); [lia|].
  rewrite !wrap64_small by (rewrite ?wrap64_small; lia). f_equal.
  - unfold choiceAt. by replace (sp_index p + 1 - 1) with (sp_index p) by lia.
  - rewrite IH; cbn [sp_index]; [|done|done|lia|lia].
    replace (Z.pred (Z.of_nat (S n))) with (Z.of_nat n) by lia. replace (Z.succ (sp_index p)) with (sp_index p + 1) by lia. done.
Qed.

(** ** The theorems *)

(** A request is always routed: for a pool that is not empty an upstream of the
    pool is selected.  With several upstreams it has the lowest priority value
    among the available ones and is itself available; only when none is
    available does the policy fall back to the lowest priority value of the
    whole pool. *)
Theorem select_lowest_tier p pool host draw :
  intPriorities p → pool ≠ [] →
  ∃ u address hostHeader, (Select p pool host draw).1 = Some (u, address, hostHeader) ∧ u ∈ pool
    ∧ ((∃ v, v ∈ pool ∧ u_Available v = true) → (1 < length pool)%nat →
         u_Available u = true ∧ ∀ v, v ∈ pool → u_Available v = true → prioOf p u ≤ prioOf p v)
    ∧ ((∀ v, v ∈ pool → u_Available v = false) → ∀ v, v ∈ pool → prioOf p u ≤ prioOf p v).
Proof.
  intros Hint Hne. destruct pool as [|u1 [|u2 rest]]; [done| |].
  { eexists _, _, _. split; [reflexivity|]. split_and!; [set_solver|cbn; lia|]. intros _ v Hv%list_elem_of_singleton. subst. lia. }
  set (pool := u1 :: u2 :: rest) in *. destruct (candidates_spec p pool true Hint) as (lo & Ecs & Hlow & Hnil).
  destruct (candidates_spec p pool false Hint) as (lo' & Ecs' & Hlow' & Hnil').
  assert (Select p pool host draw = let cs := match candidates p pool true with [] => candidates p pool false | _ => candidates p pool true end in
      match cs with [] => (None, p) | _ => let '(chosen, p') := choose p cs host draw in (selectUpstream p <$> chosen, p') end) as ->.
  { unfold Select, pool. by destruct (candidates p (u1 :: u2 :: rest) true). }
  cbv zeta. destruct (candidates p pool true) as [|c cs] eqn:Ec.
  - destruct (candidates p pool false) as [|c' cs'] eqn:Ec'.
    { exfalso. apply (Hnil' eq_refl u1); [set_solver|done]. }
    destruct (choose_some p (c' :: cs') host draw) as (u & Hu & Hin); [done|]. rewrite Ecs' in Hin.
    apply list_elem_of_filter in Hin as [[_ Eu] Hin]. destruct (choose p (c' :: cs') host draw) as [chosen p']. cbn in Hu. subst chosen.
    eexists _, _, _. cbn. split; [reflexivity|]. split_and!; [done| |].
    + intros (v & Hv & Hav). exfalso. apply (Hnil eq_refl v Hv). by intros _.
    + intros _ v Hv. rewrite Eu. by apply Hlow'.
  - destruct (choose_some p (c :: cs) host draw) as (u & Hu & Hin); [done|]. rewrite Ecs in Hin.
    apply list_elem_of_filter in Hin as [[Heu Eu] Hin]. destruct (choose p (c :: cs) host draw) as [chosen p']. cbn in Hu. subst chosen.
    eexists _, _, _. cbn. split; [reflexivity|]. specialize (Heu eq_refl). split_and!; [done| |].
    + intros _ _. split; [done|]. intros v Hv Hav. rewrite Eu. apply Hlow; [done|]. by intros _.
    + intros Hno. rewrite (Hno u Hin) in Heu. done.
Qed.

(** C38. Weighted round robin is exact: over one cycle of consecutive requests (as
    many as the weights sum to) from the same candidates, every candidate is
    chosen exactly as often as its weight says. *)
Theorem weighted_round_robin_fair p cs u :
  provisioned p → NoDup cs → u ∈ cs →
  0 < total (map (weightOf p) cs) ≤ max_int64 → 0 ≤ sp_index p →
  sp_index p + total (map (weightOf p) cs) ≤ 2 ^ 64 - 1 →
  Z.of_nat (length (filter (λ c, c = Some u) (chooseMany (Z.to_nat (total (map (weightOf p) cs))) p cs))) = weightOf p u.
Proof.
  intros [_ Hw] Hnd Hu Ht H0 H1. set (ws := map (weightOf p) cs) in *.
  assert (Forall (λ w, 0 ≤ w) ws) as Hpos.
  { apply list.Forall_forall. intros w (c & -> & _)%list_elem_of_fmap. unfold weightOf.
    destruct (sp_byDial p !! u_Dial c) as [b|] eqn:E; cbn; [|done]. apply Hw in E. lia. }
  rewrite chooseMany_map by (try done; fold ws; lia). fold ws. rewrite Z2Nat.id by lia.
  apply list_elem_of_lookup in Hu as [i Hi].
  assert (ws !! i = Some (weightOf p u)) as Hwi by (unfold ws; by rewrite list_lookup_fmap, Hi).
  transitivity (default 0 (ws !! i)); [|by rewrite Hwi]. rewrite <- (weightedIndex_count ws i Hpos). f_equal.
  rewrite <- (mod_cycle (sp_index p) (total ws)) by lia. symmetry.
  rewrite (length_filter_map (λ n, n mod total ws) _ (λ n, choiceAt p cs n = Some u)).
  - symmetry. apply length_filter_map. done.
  - intros n Hn. unfold choiceAt. fold ws. destruct (weightedIndex_some ws (n mod total ws)) as [k Hk]; [apply Z.mod_pos_bound; lia|].
    rewrite Hk. cbn. split; [intros [= ->]; done|]. intros Hk'. f_equal. by eapply NoDup_lookup.
Qed.

(** ** A run *)

Module OriginDemo.

Definition backend (dial : string) (weight prio : Z) : Backend := {| b_Dial := dial; b_HostHeader := ""; b_Weight := weight; b_Priority := prio |}.
Definition site : SelectionPolicy := {|
  sp_SiteID := "s1"; sp_Scheduler := "weighted_round_robin";
  sp_Backends := [backend "10.0.0.1:80" 3 0; backend "10.0.0.2:80" 0 0; backend "10.0.0.3:80" 5 1]; sp_index := 0; sp_byDial := ∅ |}.
Definition ready : SelectionPolicy := match Provision site with Ok p => p | Err _ => site end.
Definition up (dial : string) (ok : bool) : Upstream := {| u_Dial := dial; u_Available := ok; u_NumRequests := 0 |}.
Definition pool : list Upstream := [up "10.0.0.1:80" false; up "10.0.0.2:80" true; up "10.0.0.3:80" true].
Definition primaries : list Upstream := [up "10.0.0.1:80" true; up "10.0.0.2:80" true].

Lemma ready_ok : provisioned ready.
Proof.
  destruct (Provision site) as [p'|e] eqn:E; [|vm_compute in E; discriminate E].
  unfold ready. rewrite E. exact (proj1 (Provision_ok _ _ E)).
Qed.

Example demo_cycle : map (fmap u_Dial) (chooseMany 4 ready primaries)
  = [Some "10.0.0.1:80"; Some "10.0.0.1:80"; Some "10.0.0.1:80"; Some "10.0.0.2:80"].
Proof. vm_compute. reflexivity. Qed.

Lemma ready_int : intPriorities ready.
Proof.
  assert (map_Forall (λ _ b, b_Priority b ≤ max_int64) (sp_byDial ready)) as H by (apply (bool_decide_unpack _); vm_compute; exact I).
  exact H.
Qed.

(** The first backend is down, so the second, of the same tier, is taken. *)
Lemma select_lowest_tier_witness : ∃ u address hostHeader,
  (Select ready pool "192.0.2.1" 0).1 = Some (u, address, hostHeader) ∧ u ∈ pool.
Proof.
  destruct (select_lowest_tier ready pool "192.0.2.1" 0 ready_int) as (u & a & h & Hs & Hin & _); [discriminate|].
  exists u, a, h. split; [exact Hs|exact Hin].
Defined.

Lemma weighted_round_robin_fair_witness :
  Z.of_nat (length (filter (λ c, c = Some (up "10.0.0.1:80" true)) (chooseMany 4 ready primaries))) = 3.
Proof.
  apply (weighted_round_robin_fair ready primaries (up "10.0.0.1:80" true) ready_ok).
  - apply list.NoDup_cons. split; [|apply NoDup_singleton]. intros H%list_elem_of_singleton. discriminate H.
  - apply list_elem_of_here.
  - split; [vm_compute; reflexivity|vm_compute; discriminate].
  - vm_compute. discriminate.
  - vm_compute. discriminate.
Defined.

End OriginDemo.
