(* ===== verification/LogQueue.v ===== *)
(** * The edge node's log queue ([internal/edgeagent/logqueue.go])

    Log records wait in a bolt database until the control plane acknowledges
    them.  A batch of records is encoded into chunks, one database value each,
    under the identifier of its first record; the oldest chunks make room when
    the queue exceeds its size.  This file models the byte format of records
    and chunks, opening the database, appending, reading a batch, dropping
    records that can never be sent, and acknowledging.  The bucket of chunks is
    its list of keys and values in key order, the other bucket a map of byte
    strings; a transaction that fails changes nothing.  Whether a payload is
    valid JSON is a parameter.  Times are nanoseconds of Unix time.  The
    theorems are in [LogQueueTheorems]. *)
From Stdlib Require Import ZArith Lia Ascii String.
From Stdlib.Strings Require Import Byte.
From stdpp Require Import base numbers list strings gmap sets option.
From S2P Require Import Prelude.

Local Open Scope Z_scope.

(** ** Data *)

Record LogRecord := {
  lr_ID : Z; lr_Type : list byte; lr_SiteID : list byte; lr_ConfigVersion : Z; lr_CreatedAt : Z; lr_Payload : list byte;
}.

Inductive logError :=
| ErrLogRecordTooLarge
| ErrText (message : string)
| ErrRecord (index : nat) (e : logError)
| ErrBolt (code : nat).

Definition logEnvelopeVersion : byte := x01.
Definition logQueueVersion : byte := x02.
Definition logChunkVersion : byte := x01.
Definition maxChunkRecords : nat := 1024.
Definition logHeaderSize : nat := 25.

(** The two buckets and the sequence number of the first. *)
Record logDB := LogDB {
  ld_logs : list (Z * list byte);
  ld_sequence : Z;
  ld_meta : gmap string (list byte);
}.

Record LogQueue := { lq_db : logDB; lq_maxBytes : Z }.

(** [bucket.Put] under an eight-byte key. *)
Fixpoint bucketPut (key : Z) (value : list byte) (logs : list (Z * list byte)) : list (Z * list byte) :=
  match logs with
  | [] => [(key, value)]
  | (k, v) :: rest =>
      if key <? k then (key, value) :: logs
      else if key =? k then (key, value) :: rest
      else (k, v) :: bucketPut key value rest
  end.

Definition putUint64 (meta : gmap string (list byte)) (key : string) (value : Z) : gmap string (list byte) :=
  <[key := be_put 8 value]> meta.
Definition readUint64 (value : option (list byte)) : Z :=
  match value with
  | Some bytes => if bool_decide (length bytes = 8%nat) then be_get bytes else 0
  | None => 0
  end.

(** ** Records as bytes *)

Definition logEnvelopeSize (record : LogRecord) : result logError Z :=
  if (2 ^ 16 - 1 <? zlen (lr_Type record)) || (2 ^ 16 - 1 <? zlen (lr_SiteID record))
     || (2 ^ 32 - 1 <? zlen (lr_Payload record))
  then Err (ErrText "log record metadata is too long")
  else Ok (Z.of_nat logHeaderSize + zlen (lr_Type record) + zlen (lr_SiteID record) + zlen (lr_Payload record)).

(** The bytes [encodeLogEnvelopeInto] writes into a slice of that size. *)
Definition encodeLogEnvelopeInto (record : LogRecord) (defaultTime : Z) : list byte :=
  let createdAt := if isZeroTime (lr_CreatedAt record) then defaultTime else lr_CreatedAt record in
  [logEnvelopeVersion] ++ be_put 2 (zlen (lr_Type record)) ++ be_put 2 (zlen (lr_SiteID record))
  ++ be_put 8 (lr_ConfigVersion record) ++ be_put 8 (wrap64 createdAt) ++ be_put 4 (zlen (lr_Payload record))
  ++ lr_Type record ++ lr_SiteID record ++ lr_Payload record.

Definition encodeLogEnvelope (record : LogRecord) (defaultTime : Z) : result logError (list byte) :=
  _ ← logEnvelopeSize record; Ok (encodeLogEnvelopeInto record defaultTime).

Section Queue.
(** [json.Valid]. *)
Variable jsonValid : list byte → bool.

Definition decodeLogEnvelope (data : list byte) (id : Z) : result logError LogRecord :=
  if bool_decide (length data < logHeaderSize)%nat || negb (bool_decide (head data = Some logEnvelopeVersion))
  then Err (ErrText "unsupported log queue record format")
  else
    let typeSize := Z.to_nat (be_get (slice 1 3 data)) in
    let siteSize := Z.to_nat (be_get (slice 3 5 data)) in
    let payloadSize := be_get (slice 21 25 data) in
    if negb (Z.of_nat logHeaderSize + Z.of_nat typeSize + Z.of_nat siteSize + payloadSize =? zlen data)
    then Err (ErrText "invalid log queue record length")
    else
      let offset := logHeaderSize in
      let record := {|
        lr_ID := id; lr_Type := slice offset (offset + typeSize) data;
        lr_SiteID := slice (offset + typeSize) (offset + typeSize + siteSize) data;
        lr_ConfigVersion := be_get (slice 5 13 data); lr_CreatedAt := to_int64 (be_get (slice 13 21 data));
        lr_Payload := drop (offset + typeSize + siteSize) data |} in
      if negb (jsonValid (lr_Payload record)) then Err (ErrText "invalid log queue JSON payload") else Ok record.

(** ** Chunks *)

Record encodedLogChunk := { ec_start : nat; ec_count : nat; ec_data : list byte }.

(** The inner loop of [buildLogChunks]: how many records the chunk takes and
    its size; [index] is the position of the first of [rest] in the batch. *)
Fixpoint chunkEnd (maxBytes : Z) (index taken : nat) (size : Z) (rest : list LogRecord) : result logError (nat * Z) :=
  match rest with
  | [] => Ok (taken, size)
  | record :: rest' =>
      if bool_decide (maxChunkRecords ≤ taken)%nat then Ok (taken, size)
      else if bool_decide (length (lr_Payload record) = 0%nat) then Err (ErrRecord index (ErrText "log payload is empty"))
      else if negb (jsonValid (lr_Payload record)) then Err (ErrRecord index (ErrText "log payload is invalid JSON"))
      else
        match logEnvelopeSize record with
        | Err e => Err (ErrRecord index e)
        | Ok recordSize =>
            if maxBytes <? 5 + 4 + recordSize then Err ErrLogRecordTooLarge
            else if bool_decide (0 < taken)%nat && (maxBytes <? size + 4 + recordSize) then Ok (taken, size)
            else chunkEnd maxBytes (S index) (S taken) (size + 4 + recordSize) rest'
        end
  end.

(** The bytes of a chunk of records. *)
Definition encodeRecord (defaultTime : Z) (record : LogRecord) : list byte :=
  let envelope := encodeLogEnvelopeInto record defaultTime in be_put 4 (zlen envelope) ++ envelope.
Definition chunkBytes (defaultTime : Z) (records : list LogRecord) : list byte :=
  [logChunkVersion] ++ be_put 4 (zlen records) ++ concat (map (encodeRecord defaultTime) records).

(** The outer loop; a round takes at least one record, so that the number of
    records is enough fuel. *)
Fixpoint buildFrom (fuel : nat) (defaultTime maxBytes : Z) (start : nat) (rest : list LogRecord)
    : result logError (list encodedLogChunk) :=
  match fuel, rest with
  | O, _ | _, [] => Ok []
  | S fuel', _ =>
      '(count, size) ← chunkEnd maxBytes start 0 5 rest;
      chunks ← buildFrom fuel' defaultTime maxBytes (start + count) (drop count rest);
      Ok ({| ec_start := start; ec_count := count; ec_data := chunkBytes defaultTime (take count rest) |} :: chunks)
  end.
Definition buildLogChunks (records : list LogRecord) (defaultTime maxBytes : Z) : result logError (list encodedLogChunk) :=
  buildFrom (length records) defaultTime maxBytes 0 records.

Definition logChunkCount (data : list byte) : result logError Z :=
  if bool_decide (length data < 5)%nat || negb (bool_decide (head data = Some logChunkVersion))
  then Err (ErrText "unsupported log queue chunk format")
  else
    let count := be_get (slice 1 5 data) in
    if count <? 1 then Err (ErrText "empty log queue chunk") else Ok count.

(** [visitLogChunk]; the closure's variables are its state [a], and its second
    result is whether to go on. *)
Fixpoint visitFrom {A} (visit : A → nat → list byte → A * bool) (todo index offset : nat) (data : list byte) (a : A)
    : A * option logError :=
  match todo with
  | O => if bool_decide (offset = length data) then (a, None) else (a, Some (ErrText "log queue chunk has trailing data"))
  | S todo' =>
      if bool_decide (length data < offset + 4)%nat then (a, Some (ErrText "truncated log queue chunk"))
      else
        let size := Z.to_nat (be_get (slice offset (offset + 4) data)) in
        if bool_decide (size < 1 ∨ length data < offset + 4 + size)%nat
        then (a, Some (ErrText "invalid log queue chunk record length"))
        else
          match visit a index (slice (offset + 4) (offset + 4 + size) data) with
          | (a', false) => (a', None)
          | (a', true) => visitFrom visit todo' (S index) (offset + 4 + size) data a'
          end
  end.
Definition visitLogChunk {A} (visit : A → nat → list byte → A * bool) (data : list byte) (a : A) : A * option logError :=
  match logChunkCount data with
  | Err e => (a, Some e)
  | Ok count => visitFrom visit (Z.to_nat count) 0 5 data a
  end.

(** The offset after [remove] records. *)
Fixpoint skipFrom (remove offset : nat) (data : list byte) : result logError nat :=
  match remove with
  | O => Ok offset
  | S remove' =>
      if bool_decide (length data < offset + 4)%nat then Err (ErrText "truncated log queue chunk")
      else
        let size := Z.to_nat (be_get (slice offset (offset + 4) data)) in
        if bool_decide (size < 1 ∨ length data < offset + 4 + size)%nat
        then Err (ErrText "invalid log queue chunk record length")
        else skipFrom remove' (offset + 4 + size) data
  end.

Definition trimLogChunk (data : list byte) (remove : Z) : result logError (list byte) :=
  count ← logChunkCount data;
  if (remove <? 0) || (count <? remove) then Err (ErrText "invalid log queue chunk trim")
  else if remove =? count then Ok []
  else
    offset ← skipFrom (Z.to_nat remove) 5 data;
    Ok ([logChunkVersion] ++ be_put 4 (wrap32 (count - remove)) ++ drop offset data).

Definition oversizedLogChunkHead (data : list byte) (maxBytes : Z) : Z * option logError :=
  visitLogChunk (λ oversized _ envelope,
    if zlen envelope + 4 <=? maxBytes then (oversized, false) else (oversized + 1, true)) data 0.

(** ** Opening *)

(** [OpenLogQueue] on a database file; a new file has empty buckets.  [fault]
    is the error of the transaction. *)
Definition OpenLogQueue (db : logDB) (maxBytes : option Z) (fault : option nat) : result logError LogQueue :=
  let limit := match maxBytes with Some m => if 0 <? m then m else 2 ^ 31 | None => 2 ^ 31 end in
  match fault with
  | Some code => Err (ErrBolt code)
  | None =>
      let db1 :=
        if bool_decide (ld_meta db !! "format_version" = Some [logQueueVersion]) then db
        else
          let '(logs, sequence) :=
            if bool_decide (ld_logs db = []) then (ld_logs db, ld_sequence db) else ([], 0) in
          LogDB logs sequence
            (delete "dropped_records" (delete "total_records" (delete "total_bytes" (ld_meta db)))) in
      Ok {| lq_db := LogDB (ld_logs db1) (ld_sequence db1) (<["format_version" := [logQueueVersion]]> (ld_meta db1));
            lq_maxBytes := limit |}
  end.

(** ** Appending *)

(** Making room: the oldest chunks go until [need] more bytes fit. *)
Fixpoint evictOldest (maxBytes need : Z) (logs : list (Z * list byte)) (total totalRecords dropped : Z)
    : result logError (list (Z * list byte) * Z * Z * Z) :=
  if wrap64 (total + need) <=? maxBytes then Ok (logs, total, totalRecords, dropped)
  else
    match logs with
    | [] => Ok (logs, total, totalRecords, dropped)
    | (_, value) :: rest =>
        count ← logChunkCount value;
        evictOldest maxBytes need rest (total - Z.min total (zlen value))
          (totalRecords - Z.min totalRecords count) (wrap64 (dropped + count))
    end.

Fixpoint appendChunks (maxBytes firstID : Z) (chunks : list encodedLogChunk) (logs : list (Z * list byte))
    (total totalRecords dropped : Z) : result logError (list (Z * list byte) * Z * Z * Z) :=
  match chunks with
  | [] => Ok (logs, total, totalRecords, dropped)
  | chunk :: rest =>
      '(logs1, total1, records1, dropped1) ← evictOldest maxBytes (zlen (ec_data chunk)) logs total totalRecords dropped;
      appendChunks maxBytes firstID rest
        (bucketPut (wrap64 (firstID + Z.of_nat (ec_start chunk))) (ec_data chunk) logs1)
        (wrap64 (total1 + zlen (ec_data chunk))) (wrap64 (records1 + Z.of_nat (ec_count chunk))) dropped1
  end.

(** [AppendBatch] at the time [now]; the identifiers it returns. *)
Definition AppendBatch (q : LogQueue) (records : list LogRecord) (now : Z) (fault : option nat)
    : result logError (LogQueue * list Z) :=
  if bool_decide (records = []) then Ok (q, [])
  else
    chunks ← buildLogChunks records now (lq_maxBytes q);
    let db := lq_db q in
    let firstID := wrap64 (ld_sequence db + 1) in
    '(logs, total, totalRecords, dropped) ←
      appendChunks (lq_maxBytes q) firstID chunks (ld_logs db) (readUint64 (ld_meta db !! "total_bytes"))
        (readUint64 (ld_meta db !! "total_records")) (readUint64 (ld_meta db !! "dropped_records"));
    match fault with
    | Some code => Err (ErrBolt code)
    | None =>
        let meta := putUint64 (putUint64 (putUint64 (ld_meta db) "dropped_records" dropped) "total_bytes" total)
                      "total_records" totalRecords in
        Ok ({| lq_db := LogDB logs (wrap64 (firstID + zlen records - 1)) meta; lq_maxBytes := lq_maxBytes q |},
            map (λ index, wrap64 (firstID + Z.of_nat index)) (seq 0 (length records)))
    end.

Definition Append (q : LogQueue) (record : LogRecord) (now : Z) (fault : option nat) : result logError (LogQueue * Z) :=
  '(q', ids) ← AppendBatch q [record] now fault; Ok (q', default 0 (head ids)).

(** ** Reading *)

(** The variables of the transaction: the records, their size, the closure's
    error, and whether it stopped at a limit. *)
Record batchAcc := BatchAcc {
  ba_result : list LogRecord; ba_size : Z; ba_error : option logError; ba_stopped : bool;
}.

Definition batchVisit (limit maxBytes firstID : Z) (st : batchAcc) (index : nat) (envelope : list byte) : batchAcc * bool :=
  let recordBytes := zlen envelope + 4 in
  if (limit <=? zlen (ba_result st)) || ((0 <? maxBytes) && (maxBytes <? wrap64 (ba_size st + recordBytes)))
  then (BatchAcc (ba_result st) (ba_size st) (ba_error st) true, false)
  else
    match decodeLogEnvelope envelope (wrap64 (firstID + Z.of_nat index)) with
    | Err e => (BatchAcc (ba_result st) (ba_size st) (Some e) (ba_stopped st), false)
    | Ok record =>
        (BatchAcc (ba_result st ++ [record]) (wrap64 (ba_size st + recordBytes)) (ba_error st) (ba_stopped st), true)
    end.

Fixpoint batchChunks (limit maxBytes : Z) (logs : list (Z * list byte)) (result : list LogRecord) (size : Z)
    : list LogRecord * Z * option logError :=
  match logs with
  | [] => (result, size, None)
  | (firstID, value) :: rest =>
      if limit <=? zlen result then (result, size, None)
      else
        let '(acc, visitErr) := visitLogChunk (batchVisit limit maxBytes firstID) value (BatchAcc result size None false) in
        match visitErr, ba_error acc with
        | Some e, _ => (ba_result acc, ba_size acc, Some e)
        | None, Some e => (ba_result acc, ba_size acc, Some e)
        | None, None =>
            if ba_stopped acc || (limit <=? zlen (ba_result acc)) then (ba_result acc, ba_size acc, None)
            else batchChunks limit maxBytes rest (ba_result acc) (ba_size acc)
        end
  end.

(** [BatchSized]; [sync] is the error of syncing the database. *)
Definition BatchSized (q : LogQueue) (limit maxBytes : Z) (sync : option nat) : list LogRecord * Z * option logError :=
  let limit := if limit <=? 0 then 1000 else limit in
  match sync with
  | Some code => ([], 0, Some (ErrBolt code))
  | None => batchChunks limit maxBytes (ld_logs (lq_db q)) [] 0
  end.

Definition Batch (q : LogQueue) (limit : Z) (sync : option nat) : list LogRecord * option logError :=
  let '(records, _, err) := BatchSized q limit 0 sync in (records, err).

(** ** Dropping and acknowledging *)

(** The loop of [DropOversizedHead]; [None] is a loop that ran out of fuel, and an
    error comes with what was dropped before it. *)
Fixpoint dropLoop (fuel : nat) (maxBytes : Z) (logs : list (Z * list byte)) (total totalRecords dropped : Z)
    : option (result (logError * Z) (list (Z * list byte) * Z * Z * Z)) :=
  match fuel with
  | O => None
  | S fuel' =>
      match logs with
      | [] => Some (Ok (logs, total, totalRecords, dropped))
      | (firstID, value) :: rest =>
          match oversizedLogChunkHead value maxBytes with
          | (_, Some e) => Some (Err (e, dropped))
          | (oversized, None) =>
              if oversized =? 0 then Some (Ok (logs, total, totalRecords, dropped))
              else
                match trimLogChunk value oversized with
                | Err e => Some (Err (e, dropped))
                | Ok trimmed =>
                    let total1 := total - Z.min total (zlen value) in
                    let records1 := totalRecords - Z.min totalRecords oversized in
                    let dropped1 := wrap64 (dropped + oversized) in
                    if bool_decide (trimmed = []) then dropLoop fuel' maxBytes rest total1 records1 dropped1
                    else dropLoop fuel' maxBytes (bucketPut (wrap64 (firstID + oversized)) trimmed rest)
                           (wrap64 (total1 + zlen trimmed)) records1 dropped1
                end
          end
      end
  end.

(** [DropOversizedHead]: the number of records it dropped, or the error with the
    number it had dropped in the transaction that was rolled back.  A round removes
    a chunk or leaves a trimmed one at which the next round stops. *)
Definition DropOversizedHead (q : LogQueue) (maxBytes : Z) (fault : option nat) : option (result (logError * Z) (LogQueue * Z)) :=
  if maxBytes =? 0 then Some (Ok (q, 0))
  else
    let db := lq_db q in
    match dropLoop (S (S (length (ld_logs db)))) maxBytes (ld_logs db) (readUint64 (ld_meta db !! "total_bytes"))
            (readUint64 (ld_meta db !! "total_records")) 0 with
    | None => None
    | Some (Err e) => Some (Err e)
    | Some (Ok (logs, total, totalRecords, dropped)) =>
        match fault with
        | Some code => Some (Err (ErrBolt code, dropped))
        | None =>
            if dropped =? 0 then Some (Ok (q, 0))
            else
              let meta := putUint64 (putUint64 (putUint64 (ld_meta db) "total_bytes" total) "total_records" totalRecords)
                            "dropped_records" (wrap64 (readUint64 (ld_meta db !! "dropped_records") + dropped)) in
              Some (Ok ({| lq_db := LogDB logs (ld_sequence db) meta; lq_maxBytes := lq_maxBytes q |}, dropped))
        end
    end.

Fixpoint ackLoop (through : Z) (logs : list (Z * list byte)) (total totalRecords : Z)
    : result logError (list (Z * list byte) * Z * Z) :=
  match logs with
  | [] => Ok (logs, total, totalRecords)
  | (firstID, value) :: rest =>
      if through <? firstID then Ok (logs, total, totalRecords)
      else
        count ← logChunkCount value;
        let remove := Z.min count (to_int64 (through - firstID + 1)) in
        trimmed ← trimLogChunk value remove;
        let total1 := total - Z.min total (zlen value) in
        let records1 := totalRecords - Z.min totalRecords (wrap64 remove) in
        if bool_decide (trimmed = []) then ackLoop through rest total1 records1
        else Ok (bucketPut (wrap64 (firstID + remove)) trimmed rest, wrap64 (total1 + zlen trimmed), records1)
  end.

Definition Ack (q : LogQueue) (through : Z) (fault : option nat) : result logError LogQueue :=
  let db := lq_db q in
  '(logs, total, totalRecords) ←
    ackLoop through (ld_logs db) (readUint64 (ld_meta db !! "total_bytes")) (readUint64 (ld_meta db !! "total_records"));
  match fault with
  | Some code => Err (ErrBolt code)
  | None =>
      Ok {| lq_db := LogDB logs (ld_sequence db)
              (putUint64 (putUint64 (ld_meta db) "total_bytes" total) "total_records" totalRecords);
            lq_maxBytes := lq_maxBytes q |}
  end.

End Queue.
