(* ===== verification/LogQueueTheorems.v ===== *)
(** * Theorems about the log queue

    The chunks of the database are the encoding of a first-in first-out queue
    of records with consecutive identifiers, and the operations of [LogQueue]
    are the operations of that queue: nothing is reordered, duplicated or lost
    without being counted. *)
From Stdlib Require Import ZArith Lia Ascii String.
From Stdlib.Strings Require Import Byte.
From stdpp Require Import base numbers list strings gmap sets option.
From S2P Require Import Prelude LogQueue.

Local Open Scope Z_scope.

(** ** Slices *)

Lemma slice_mid {A} (a b c : list A) lo hi :
  length a = lo → (lo + length b = hi)%nat → slice lo hi (a ++ b ++ c) = b.
Proof. intros <- <-. unfold slice. rewrite drop_app_length. by rewrite Nat.add_comm, Nat.add_sub, take_app_length. Qed.

(** ** Envelopes *)

(** A record as its time is resolved when it is stored, and its number. *)
Definition resolve (now : Z) (r : LogRecord) : LogRecord := {|
  lr_ID := lr_ID r; lr_Type := lr_Type r; lr_SiteID := lr_SiteID r; lr_ConfigVersion := lr_ConfigVersion r;
  lr_CreatedAt := if isZeroTime (lr_CreatedAt r) then now else lr_CreatedAt r; lr_Payload := lr_Payload r |}.
Definition setID (id : Z) (r : LogRecord) : LogRecord := {|
  lr_ID := id; lr_Type := lr_Type r; lr_SiteID := lr_SiteID r; lr_ConfigVersion := lr_ConfigVersion r;
  lr_CreatedAt := lr_CreatedAt r; lr_Payload := lr_Payload r |}.

(** What Go's types say of a record stored at [now]. *)
Definition typed (now : Z) (r : LogRecord) : Prop :=
  0 ≤ lr_ConfigVersion r < 2 ^ 64 ∧ - 2 ^ 63 ≤ lr_CreatedAt (resolve now r) < 2 ^ 63.

(** The stored bytes of a resolved record. *)
Definition sealed (r : LogRecord) : list byte := encodeLogEnvelopeInto r 0.

Lemma sealed_length r :
  zlen (sealed r) = 25 + zlen (lr_Type r) + zlen (lr_SiteID r) + zlen (lr_Payload r).
Proof. unfold sealed, encodeLogEnvelopeInto. rewrite !length_app, !length_be_put. simpl length. lia. Qed.

Lemma typed_nonzero now r : typed now r → isZeroTime (lr_CreatedAt (resolve now r)) = false.
Proof. intros [_ H]. unfold isZeroTime. apply Z.eqb_neq. unfold zeroTime. lia. Qed.

Lemma encode_resolved now r : typed now r → encodeLogEnvelopeInto r now = sealed (resolve now r).
Proof. intros H. unfold sealed, encodeLogEnvelopeInto. rewrite (typed_nonzero now r H). done. Qed.

Lemma int64_wrap z : - 2 ^ 63 ≤ z < 2 ^ 63 → to_int64 (wrap64 z) = z.
Proof.
  intros Hz. unfold to_int64. rewrite (wrap64_small (wrap64 z)) by apply wrap64_range. unfold wrap64.
  destruct (decide (0 ≤ z)).
  - rewrite Z.mod_small by lia. destruct (z <? 2 ^ 63) eqn:E; [done|]. apply Z.ltb_ge in E. lia.
  - replace (z mod 2 ^ 64) with (z + 2 ^ 64). { destruct (z + 2 ^ 64 <? 2 ^ 63) eqn:E; [apply Z.ltb_lt in E; lia|lia]. }
    rewrite <- (Z.mod_small (z + 2 ^ 64) (2 ^ 64)) by lia. rewrite <- Z.add_mod_idemp_r, Z.mod_same, Z.add_0_r by lia. done.
Qed.

Section Theorems.
Variable jsonValid : list byte → bool.

(** A stored record: its fields fit the format. *)
Record storable (r : LogRecord) : Prop := {
  sr_type : zlen (lr_Type r) ≤ 2 ^ 16 - 1;
  sr_site : zlen (lr_SiteID r) ≤ 2 ^ 16 - 1;
  sr_payload : zlen (lr_Payload r) ≤ 2 ^ 32 - 1;
  sr_json : jsonValid (lr_Payload r) = true;
  sr_version : 0 ≤ lr_ConfigVersion r < 2 ^ 64;
  sr_time : - 2 ^ 63 ≤ lr_CreatedAt r < 2 ^ 63;
}.

(** Decoding an envelope gives the record back, with its identifier. *)
Lemma decode_sealed r id : storable r → decodeLogEnvelope jsonValid (sealed r) id = Ok (setID id r).
Proof.
  intros [Ht Hs Hp Hj Hv Hc]. pose proof (sealed_length r) as Hlen.
  assert (isZeroTime (lr_CreatedAt r) = false) as Hz by (apply Z.eqb_neq; unfold zeroTime; lia).
  assert (drop 25 (sealed r) = lr_Type r ++ lr_SiteID r ++ lr_Payload r) as Hbody by reflexivity.
  assert (be_get (slice 1 3 (sealed r)) = zlen (lr_Type r)) as E1.
  { change (slice 1 3 (sealed r)) with (be_put 2 (zlen (lr_Type r))). apply be_get_put. simpl. lia. }
  assert (be_get (slice 3 5 (sealed r)) = zlen (lr_SiteID r)) as E2.
  { change (slice 3 5 (sealed r)) with (be_put 2 (zlen (lr_SiteID r))). apply be_get_put. simpl. lia. }
  assert (be_get (slice 5 13 (sealed r)) = lr_ConfigVersion r) as E3.
  { change (slice 5 13 (sealed r)) with (be_put 8 (lr_ConfigVersion r)). apply be_get_put. simpl. lia. }
  assert (to_int64 (be_get (slice 13 21 (sealed r))) = lr_CreatedAt r) as E4.
  { transitivity (to_int64 (be_get (be_put 8 (wrap64 (lr_CreatedAt r))))).
    - unfold sealed, encodeLogEnvelopeInto. rewrite Hz. reflexivity.
    - rewrite be_get_put by apply wrap64_range. by apply int64_wrap. }
  assert (be_get (slice 21 25 (sealed r)) = zlen (lr_Payload r)) as E5.
  { change (slice 21 25 (sealed r)) with (be_put 4 (zlen (lr_Payload r))). apply be_get_put. simpl. lia. }
  unfold decodeLogEnvelope. rewrite E1, E2, E3, E4, E5, !Nat2Z.id. unfold logHeaderSize.
  rewrite bool_decide_eq_false_2 by lia. change (head (sealed r)) with (Some logEnvelopeVersion).
  rewrite bool_decide_eq_true_2 by done. cbn [orb negb].
  replace (Z.of_nat 25 + zlen (lr_Type r) + zlen (lr_SiteID r) + zlen (lr_Payload r) =? zlen (sealed r)) with true
    by (symmetry; apply Z.eqb_eq; lia). cbn [negb lr_Payload].
  assert (drop (25 + length (lr_Type r) + length (lr_SiteID r)) (sealed r) = lr_Payload r) as E6.
  { rewrite <- !drop_drop, Hbody, drop_app_length, drop_app_length. done. }
  assert (slice 25 (25 + length (lr_Type r)) (sealed r) = lr_Type r) as E7.
  { unfold slice. rewrite Hbody, Nat.add_comm, Nat.add_sub. apply take_app_length. }
  assert (slice (25 + length (lr_Type r)) (25 + length (lr_Type r) + length (lr_SiteID r)) (sealed r) = lr_SiteID r) as E8.
  { unfold slice. rewrite <- drop_drop, Hbody, drop_app_length, (Nat.add_comm _ (length (lr_SiteID r))), Nat.add_sub.
    apply take_app_length. }
  rewrite E6, E7, E8, Hj. done.
Qed.

(** ** Chunks *)

(** A chunk of envelopes. *)
Definition framed (e : list byte) : list byte := be_put 4 (zlen e) ++ e.
Definition chunkOf (es : list (list byte)) : list byte := [logChunkVersion] ++ be_put 4 (zlen es) ++ concat (map framed es).

Definition fits (e : list byte) : Prop := 1 ≤ zlen e < 2 ^ 32.

Lemma framed_length e : length (framed e) = (4 + length e)%nat.
Proof. unfold framed. by rewrite length_app, length_be_put. Qed.

Lemma framed_size (pre e post : list byte) : fits e →
  Z.to_nat (be_get (slice (length pre) (length pre + 4) (pre ++ framed e ++ post))) = length e.
Proof.
  intros He. unfold framed. rewrite <- app_assoc, slice_mid by (by rewrite ?length_be_put).
  rewrite be_get_put; [lia|]. destruct He. change (2 ^ (8 * Z.of_nat 4)) with (2 ^ 32). lia.
Qed.

Lemma framed_slice (pre e post : list byte) :
  slice (length pre + 4) (length pre + 4 + length e) (pre ++ framed e ++ post) = e.
Proof.
  unfold framed. rewrite <- app_assoc, (app_assoc pre). apply slice_mid; [|lia]. by rewrite length_app, length_be_put.
Qed.

Lemma chunkOf_length es : length (chunkOf es) = (5 + length (concat (map framed es)))%nat.
Proof. unfold chunkOf. rewrite !length_app, length_be_put. simpl. lia. Qed.

Lemma logChunkCount_chunk es : (1 ≤ length es)%nat → zlen es < 2 ^ 32 → logChunkCount (chunkOf es) = Ok (zlen es).
Proof.
  intros H1 H2. unfold logChunkCount. pose proof (chunkOf_length es).
  rewrite bool_decide_eq_false_2 by lia. change (head (chunkOf es)) with (Some logChunkVersion).
  rewrite bool_decide_eq_true_2 by done. cbn [orb negb].
  change (slice 1 5 (chunkOf es)) with (be_put 4 (zlen es)). rewrite be_get_put.
  - destruct (zlen es <? 1) eqn:E; [apply Z.ltb_lt in E; lia|done].
  - change (2 ^ (8 * Z.of_nat 4)) with (2 ^ 32). lia.
Qed.

(** A visit of the envelopes in order, until the visitor stops it. *)
Fixpoint visitAll {A} (visit : A → nat → list byte → A * bool) (index : nat) (es : list (list byte)) (a : A) : A :=
  match es with
  | [] => a
  | e :: rest => match visit a index e with (a', false) => a' | (a', true) => visitAll visit (S index) rest a' end
  end.

Lemma visitFrom_spec {A} (visit : A → nat → list byte → A * bool) es : ∀ pre index a,
  Forall fits es →
  visitFrom visit (length es) index (length pre) (pre ++ concat (map framed es)) a = (visitAll visit index es a, None).
Proof.
  induction es as [|e es IH]; intros pre index a Hall; cbn [visitFrom map concat visitAll length].
  - rewrite app_nil_r. by rewrite bool_decide_eq_true_2.
  - apply Forall_cons_1 in Hall as [He Hall].
    rewrite bool_decide_eq_false_2 by (rewrite !length_app, framed_length; lia).
    rewrite framed_size by done.
    rewrite bool_decide_eq_false_2 by (rewrite !length_app, framed_length; destruct He; lia).
    rewrite framed_slice. destruct (visit a index e) as [a' []]; [|done].
    rewrite (app_assoc pre). replace (length pre + 4 + length e)%nat with (length (pre ++ framed e)).
    + by apply IH.
    + rewrite length_app, framed_length. lia.
Qed.

Lemma visit_chunk {A} (visit : A → nat → list byte → A * bool) es a :
  (1 ≤ length es)%nat → zlen es < 2 ^ 32 → Forall fits es → visitLogChunk visit (chunkOf es) a = (visitAll visit 0 es a, None).
Proof.
  intros H1 H2 Hall. unfold visitLogChunk. rewrite logChunkCount_chunk, Nat2Z.id by done.
  exact (visitFrom_spec visit es ([logChunkVersion] ++ be_put 4 (zlen es)) 0 a Hall).
Qed.

Lemma skipFrom_spec es : ∀ k pre, (k ≤ length es)%nat → Forall fits es →
  skipFrom k (length pre) (pre ++ concat (map framed es)) = Ok (length pre + length (concat (map framed (take k es))))%nat.
Proof.
  induction es as [|e es IH]; intros [|k] pre Hk Hall; cbn [skipFrom]; try (simpl in *; f_equal; lia).
  apply Forall_cons_1 in Hall as [He Hall]. cbn [map concat take].
  rewrite bool_decide_eq_false_2 by (rewrite !length_app, framed_length; lia).
  rewrite framed_size by done.
  rewrite bool_decide_eq_false_2 by (rewrite !length_app, framed_length; destruct He; lia).
  rewrite (app_assoc pre). replace (length pre + 4 + length e)%nat with (length (pre ++ framed e)).
  - rewrite IH by (done || (simpl in Hk; lia)). f_equal. rewrite !length_app, framed_length. lia.
  - rewrite length_app, framed_length. lia.
Qed.

Lemma trim_chunk es k : (1 ≤ length es)%nat → zlen es < 2 ^ 32 → Forall fits es → 0 ≤ k ≤ zlen es →
  trimLogChunk (chunkOf es) k = Ok (if decide (k = zlen es) then [] else chunkOf (drop (Z.to_nat k) es)).
Proof.
  intros H1 H2 Hall Hk. unfold trimLogChunk. rewrite logChunkCount_chunk by done. simpl.
  replace (k <? 0) with false by (symmetry; apply Z.ltb_ge; lia).
  replace (zlen es <? k) with false by (symmetry; apply Z.ltb_ge; lia). cbn [orb].
  case_decide as Hd; [by rewrite Hd, Z.eqb_refl|].
  replace (k =? zlen es) with false by (symmetry; by apply Z.eqb_neq).
  set (pre := [logChunkVersion] ++ be_put 4 (zlen es)).
  change (chunkOf es) with (pre ++ concat (map framed es)). change 5%nat with (length pre).
  rewrite (skipFrom_spec es (Z.to_nat k) pre) by (done || lia). cbn [mbind result_bind].
  assert (drop (length pre + length (concat (map framed (take (Z.to_nat k) es)))) (pre ++ concat (map framed es))
    = concat (map framed (drop (Z.to_nat k) es))) as ->.
  { rewrite <- drop_drop, drop_app_length. rewrite <- (take_drop (Z.to_nat k) es) at 2.
    rewrite map_app, concat_app. apply drop_app_length. }
  unfold chunkOf. rewrite wrap32_small, length_drop by lia.
  by replace (zlen es - k) with (Z.of_nat (length es - Z.to_nat k)) by lia.
Qed.

(** ** Numbered records *)

Fixpoint numbered (id : Z) (rs : list LogRecord) : list LogRecord :=
  match rs with [] => [] | r :: rest => setID id r :: numbered (id + 1) rest end.

Lemma numbered_length rs : ∀ id, length (numbered id rs) = length rs.
Proof. induction rs as [|r rs IH]; intros id; cbn [numbered length]; [done|]. by rewrite IH. Qed.
Lemma numbered_app rs1 rs2 : ∀ id, numbered id (rs1 ++ rs2) = numbered id rs1 ++ numbered (id + zlen rs1) rs2.
Proof.
  induction rs1 as [|r rs1 IH]; intros id; cbn [numbered app length]; [by rewrite Z.add_0_r|].
  rewrite IH. do 3 f_equal. lia.
Qed.
Lemma numbered_drop rs : ∀ k id, (k ≤ length rs)%nat → drop k (numbered id rs) = numbered (id + Z.of_nat k) (drop k rs).
Proof.
  induction rs as [|r rs IH]; intros [|k] id Hk; cbn [numbered drop length] in *; try (by rewrite ?Z.add_0_r).
  rewrite IH by lia. f_equal. lia.
Qed.
Lemma numbered_take rs : ∀ k id, take k (numbered id rs) = numbered id (take k rs).
Proof. induction rs as [|r rs IH]; intros [|k] id; cbn [numbered take]; [done..|]. by rewrite IH. Qed.
Lemma numbered_sealed rs : ∀ id, map sealed (numbered id rs) = map sealed rs.
Proof. induction rs as [|r rs IH]; intros id; cbn [numbered map]; [done|]. by rewrite IH. Qed.

Lemma numbered_ids rs : ∀ k r, r ∈ numbered k rs → k ≤ lr_ID r < k + zlen rs.
Proof.
  induction rs as [|x rs IH]; intros k r; cbn [numbered length]; [set_solver|].
  intros [->|Hr%IH]%elem_of_cons; [cbn; lia|]. lia.
Qed.

(** The bytes a record takes in a batch, and an upper bound of those it takes
    in the database. *)
Definition recordBytes (r : LogRecord) : Z := zlen (sealed r) + 4.
Definition sumBytes (rs : list LogRecord) : Z := foldr (λ r n, recordBytes r + n) 0 rs.

Lemma recordBytes_pos r : 29 ≤ recordBytes r.
Proof. unfold recordBytes. rewrite sealed_length. lia. Qed.
Lemma sumBytes_app rs1 rs2 : sumBytes (rs1 ++ rs2) = sumBytes rs1 + sumBytes rs2.
Proof. unfold sumBytes. induction rs1 as [|r rs1 IH]; cbn [app foldr]; lia. Qed.
Lemma sumBytes_pos rs : 0 ≤ sumBytes rs.
Proof. unfold sumBytes. induction rs as [|r rs IH]; cbn [foldr]; [lia|]. pose proof (recordBytes_pos r). lia. Qed.
Lemma sumBytes_numbered rs : ∀ id, sumBytes (numbered id rs) = sumBytes rs.
Proof. unfold sumBytes. induction rs as [|r rs IH]; intros id; cbn [numbered foldr]; [done|]. by rewrite IH. Qed.
Lemma sumBytes_take n rs : sumBytes (take n rs) ≤ sumBytes rs.
Proof. rewrite <- (take_drop n rs) at 2. rewrite sumBytes_app. pose proof (sumBytes_pos (drop n rs)). lia. Qed.

Definition recordChunk (rs : list LogRecord) : list byte := chunkOf (map sealed rs).

Lemma recordChunk_length rs : zlen (recordChunk rs) = 5 + sumBytes rs.
Proof.
  unfold recordChunk. rewrite chunkOf_length.
  assert (zlen (concat (map framed (map sealed rs))) = sumBytes rs) as E; [|lia].
  unfold sumBytes, recordBytes. induction rs as [|r rs IH]; cbn [map concat foldr]; [done|]. rewrite length_app, framed_length. lia.
Qed.

(** ** Reading a batch *)

(** How many of the records a batch with [limit] more of them and [size] bytes
    so far takes. *)
Fixpoint fitting (limit maxBytes size : Z) (rs : list LogRecord) : nat :=
  match rs with
  | [] => 0
  | r :: rest =>
      if (limit <=? 0) || ((0 <? maxBytes) && (maxBytes <? size + recordBytes r)) then 0
      else S (fitting (limit - 1) maxBytes (size + recordBytes r) rest)
  end.

(** The longest prefix within both limits; [maxBytes] 0 is no limit. *)
Definition longestPrefix (limit maxBytes : Z) (rs : list LogRecord) (n : nat) : Prop :=
  (n ≤ length rs)%nat ∧ Z.of_nat n ≤ limit ∧ (0 < maxBytes → sumBytes (take n rs) ≤ maxBytes)
  ∧ (n = length rs ∨ Z.of_nat n = limit ∨ 0 < maxBytes ∧ maxBytes < sumBytes (take (S n) rs)).

Lemma fitting_le rs : ∀ limit maxBytes size, (fitting limit maxBytes size rs ≤ length rs)%nat.
Proof. induction rs as [|r rs IH]; intros; cbn [fitting length]; [done|]. destruct (_ || _); [lia|]. specialize (IH (limit - 1) maxBytes (size + recordBytes r)). lia. Qed.

Lemma fitting_app rs1 rs2 : ∀ limit maxBytes size,
  fitting limit maxBytes size (rs1 ++ rs2)
  = if bool_decide (fitting limit maxBytes size rs1 = length rs1)
    then (length rs1 + fitting (limit - zlen rs1) maxBytes (size + sumBytes rs1) rs2)%nat
    else fitting limit maxBytes size rs1.
Proof.
  unfold sumBytes. induction rs1 as [|r rs1 IH]; intros limit maxBytes size; cbn [fitting app length foldr].
  - rewrite bool_decide_eq_true_2 by done. by rewrite Z.sub_0_r, Z.add_0_r.
  - destruct (_ || _) eqn:E; [by rewrite bool_decide_eq_false_2 by lia|]. rewrite IH.
    case_bool_decide as H; case_bool_decide as H'; try lia.
    rewrite <- Z.add_assoc. replace (limit - 1 - zlen rs1) with (limit - Z.of_nat (S (length rs1))) by lia. done.
Qed.

Lemma fitting_longest rs : ∀ limit maxBytes size, 0 ≤ limit → (0 < maxBytes → size ≤ maxBytes) →
  let n := fitting limit maxBytes size rs in
  (n ≤ length rs)%nat ∧ Z.of_nat n ≤ limit ∧ (0 < maxBytes → size + sumBytes (take n rs) ≤ maxBytes)
  ∧ (n = length rs ∨ Z.of_nat n = limit ∨ 0 < maxBytes ∧ maxBytes < size + sumBytes (take (S n) rs)).
Proof.
  unfold sumBytes. induction rs as [|r rs IH]; intros limit maxBytes size Hl Hs; cbn [fitting length take foldr].
  - split_and!; [lia|lia| |by left]. intros H. specialize (Hs H). lia.
  - destruct (_ || _) eqn:E; cbn [take foldr].
    + split_and!; [lia|lia|intros H; specialize (Hs H); lia|]. right. apply orb_true_iff in E as [E|E]; b2p; [left; lia|right].
      rewrite take_0. cbn [foldr]. lia.
    + b2p. assert (maxBytes ≤ 0 ∨ size + recordBytes r ≤ maxBytes) as Hcase.
      { destruct (0 <? maxBytes) eqn:E1; b2p; [|left; lia]. cbn [andb] in *. b2p. right. lia. }
      specialize (IH (limit - 1) maxBytes (size + recordBytes r) ltac:(lia) ltac:(lia)) as (I1 & I2 & I3 & I4).
      split_and!; [lia|lia|intros Hm; specialize (I3 Hm); lia|]. destruct I4 as [I4|[I4|[I4 I5]]]; [left; lia|right; left; lia|].
      right. right. lia.
Qed.

Lemma batch_visit limit maxBytes firstID rs : ∀ index result size,
  Forall storable rs → 0 ≤ firstID → firstID + Z.of_nat index + zlen rs < 2 ^ 64 → 0 ≤ size → size + sumBytes rs < 2 ^ 64 →
  let n := fitting (limit - zlen result) maxBytes size rs in
  visitAll (batchVisit jsonValid limit maxBytes firstID) index (map sealed rs) (BatchAcc result size None false)
  = BatchAcc (result ++ numbered (firstID + Z.of_nat index) (take n rs)) (size + sumBytes (take n rs)) None
      (bool_decide (n ≠ length rs)).
Proof.
  unfold sumBytes. induction rs as [|r rs IH]; intros index result size Hall Hf Hid Hs Hsum; cbn [map visitAll fitting take foldr numbered length].
  - by rewrite app_nil_r, Z.add_0_r, bool_decide_eq_false_2 by lia.
  - apply Forall_cons_1 in Hall as [Hr Hall]. cbn [foldr length] in Hid, Hsum. pose proof (recordBytes_pos r).
    pose proof (sumBytes_pos rs) as Hpos. unfold sumBytes in Hpos.
    unfold batchVisit at 1. cbn [ba_result ba_size ba_error ba_stopped]. fold (recordBytes r).
    rewrite (wrap64_small (size + recordBytes r)) by lia.
    replace (limit <=? zlen result) with (limit - zlen result <=? 0) by lia.
    destruct (_ || _) eqn:E; cbn [take numbered foldr].
    + by rewrite app_nil_r, Z.add_0_r, bool_decide_eq_true_2 by lia.
    + rewrite wrap64_small, decode_sealed by (done || lia).
      specialize (IH (S index) (result ++ [setID (firstID + Z.of_nat index) r]) (size + recordBytes r) Hall Hf ltac:(lia) ltac:(lia) ltac:(lia)).
      cbn zeta in IH. rewrite IH, length_app. cbn [length].
      replace (limit - Z.of_nat (length result + 1)) with (limit - zlen result - 1) by lia.
      replace (firstID + Z.of_nat (S index)) with (firstID + Z.of_nat index + 1) by lia.
      rewrite <- app_assoc. f_equal; [lia|]. apply bool_decide_ext. lia.
Qed.

Lemma fitting_none limit maxBytes size rs : limit ≤ 0 → fitting limit maxBytes size rs = 0%nat.
Proof. destruct rs; cbn [fitting]; [done|]. intros H. by replace (limit <=? 0) with true by lia. Qed.
Lemma fitting_numbered rs : ∀ id limit maxBytes size,
  fitting limit maxBytes size (numbered id rs) = fitting limit maxBytes size rs.
Proof.
  induction rs as [|r rs IH]; intros id limit maxBytes size; cbn [numbered fitting]; [done|].
  change (recordBytes (setID id r)) with (recordBytes r). by rewrite IH.
Qed.

(** ** The bucket *)

Context (maxBytes : Z) (Hmax : 0 < maxBytes ≤ 2 ^ 32).

(** The records of the chunks, and the chunks as they are stored. *)
Definition stored (cs : list (Z * list LogRecord)) : list (Z * list byte) := map (λ '(k, rs), (k, recordChunk rs)) cs.
Definition contents (cs : list (Z * list LogRecord)) : list LogRecord := concat (map (λ '(k, rs), numbered k rs) cs).
Definition bytesOf (cs : list (Z * list LogRecord)) : Z := foldr (λ '(_, rs) n, zlen (recordChunk rs) + n) 0 cs.

Record chunkOk (rs : list LogRecord) : Prop := {
  ck_some : rs ≠ [];
  ck_count : (length rs ≤ 1024)%nat;
  ck_records : Forall storable rs;
  ck_small : Forall (λ r, recordBytes r + 5 ≤ maxBytes) rs;
}.

(** The keys are the identifiers of the first records, in order, from [lo] up
    to before [hi]. *)
Fixpoint ordered (lo : Z) (cs : list (Z * list LogRecord)) (hi : Z) : Prop :=
  match cs with
  | [] => lo ≤ hi
  | (k, rs) :: rest => lo ≤ k ∧ ordered (k + zlen rs) rest hi
  end.

Lemma chunk_facts rs : chunkOk rs →
  (1 ≤ length (map sealed rs))%nat ∧ zlen (map sealed rs) < 2 ^ 32 ∧ Forall fits (map sealed rs) ∧ (1 ≤ length rs)%nat.
Proof.
  intros [H1 H2 _ H4]. rewrite length_map. assert (1 ≤ length rs)%nat by (destruct rs; simpl; [done|lia]).
  split_and!; [done|lia| |done]. rewrite list.Forall_forall in H4. apply list.Forall_forall. intros e (r & -> & Hr)%list_elem_of_fmap.
  specialize (H4 r Hr). unfold fits. pose proof (recordBytes_pos r). unfold recordBytes in *. lia.
Qed.

Lemma contents_cons k rs cs : contents ((k, rs) :: cs) = numbered k rs ++ contents cs.
Proof. done. Qed.

Lemma ordered_le cs : ∀ lo hi, ordered lo cs hi → lo ≤ hi.
Proof. induction cs as [|[k rs] cs IH]; intros lo hi; cbn [ordered]; [done|]. intros [H1 H2%IH]. lia. Qed.

Lemma batch_chunks limit max cs : ∀ lo hi result size,
  Forall (λ c, chunkOk c.2) cs → ordered lo cs hi → 0 ≤ lo → hi < 2 ^ 64 → 0 ≤ size → size + sumBytes (contents cs) < 2 ^ 64 →
  let n := fitting (limit - zlen result) max size (contents cs) in
  batchChunks jsonValid limit max (stored cs) result size
  = (result ++ take n (contents cs), size + sumBytes (take n (contents cs)), None).
Proof.
  induction cs as [|[k rs] cs IH]; intros lo hi result size Hok Hord Hlo Hhi Hs Hsum.
  { cbn. by rewrite app_nil_r, Z.add_0_r. }
  cbn zeta. apply Forall_cons_1 in Hok as [Hrs Hok]. cbn [snd] in Hrs. destruct Hord as [Hk Hord].
  pose proof (ordered_le _ _ _ Hord). rewrite contents_cons in *. rewrite sumBytes_app, sumBytes_numbered in Hsum.
  pose proof (sumBytes_pos (contents cs)). pose proof (sumBytes_pos rs).
  cbn [stored map batchChunks]. fold (stored cs). destruct (limit <=? zlen result) eqn:El; b2p.
  { by rewrite fitting_none, take_0, app_nil_r, Z.add_0_r by lia. }
  destruct (chunk_facts rs Hrs) as (F1 & F2 & F3 & F4). unfold recordChunk. rewrite visit_chunk by done.
  rewrite (batch_visit limit max k rs 0 result size) by (apply Hrs || lia). cbn [ba_error ba_stopped ba_result ba_size].
  rewrite Z.add_0_r, fitting_app, fitting_numbered, numbered_length. set (n := fitting (limit - zlen result) max size rs).
  pose proof (fitting_le rs (limit - zlen result) max size) as Hn. fold n in Hn.
  rewrite bool_decide_not, sumBytes_numbered.
  case_bool_decide as Hall; cbn [negb orb].
  - rewrite Hall, firstn_all, length_app, numbered_length, take_app_add' by (by rewrite numbered_length).
    rewrite sumBytes_app, sumBytes_numbered.
    destruct (limit <=? Z.of_nat (length result + length rs)) eqn:E; b2p.
    + rewrite fitting_none, take_0, app_nil_r by lia. cbn. by rewrite Z.add_0_r.
    + rewrite (IH _ _ _ _ Hok Hord) by lia. cbn zeta. rewrite length_app, numbered_length, <- app_assoc.
      replace (limit - Z.of_nat (length result + length rs)) with (limit - zlen result - zlen rs) by lia.
      by rewrite Z.add_assoc.
  - rewrite take_app_le by (rewrite numbered_length; lia). rewrite numbered_take, sumBytes_numbered. done.
Qed.

(** ** Appending *)

Lemma bucketPut_last key value logs : Forall (λ c, c.1 < key) logs → bucketPut key value logs = logs ++ [(key, value)].
Proof.
  induction 1 as [|[k v] logs Hk _ IH]; cbn [bucketPut app]; [done|]. cbn [fst] in Hk.
  replace (key <? k) with false by lia. replace (key =? k) with false by lia. by rewrite IH.
Qed.
Lemma bucketPut_first key value logs : (∀ c, c ∈ logs → key < c.1) → bucketPut key value logs = (key, value) :: logs.
Proof.
  destruct logs as [|[k v] logs]; cbn [bucketPut]; [done|]. intros H. specialize (H (k, v) ltac:(set_solver)). cbn [fst] in H.
  by replace (key <? k) with true by lia.
Qed.

Lemma stored_app cs1 cs2 : stored (cs1 ++ cs2) = stored cs1 ++ stored cs2.
Proof. apply map_app. Qed.
Lemma contents_app cs1 cs2 : contents (cs1 ++ cs2) = contents cs1 ++ contents cs2.
Proof. unfold contents. by rewrite map_app, concat_app. Qed.
Lemma bytesOf_app cs1 cs2 : bytesOf (cs1 ++ cs2) = bytesOf cs1 + bytesOf cs2.
Proof. unfold bytesOf. induction cs1 as [|[k rs] cs1 IH]; cbn [app foldr]; lia. Qed.
Lemma bytesOf_pos cs : 0 ≤ bytesOf cs.
Proof. unfold bytesOf. induction cs as [|[k rs] cs IH]; cbn [foldr]; lia. Qed.

Lemma ordered_drop cs : ∀ j lo hi, ordered lo cs hi → ordered lo (drop j cs) hi.
Proof.
  induction cs as [|[k rs] cs IH]; intros [|j] lo hi H; try done. cbn [drop]. destruct H as [H1 H2]. apply (IH j) in H2.
  destruct (drop j cs) as [|[k' rs'] rest]; cbn [ordered] in *; [lia|]. destruct H2 as [H2 H3]. split; [lia|done].
Qed.
Lemma ordered_keys cs : ∀ lo hi, ordered lo cs hi → Forall (λ c, chunkOk c.2) cs → Forall (λ c, c.1 < hi) (stored cs).
Proof.
  induction cs as [|[k rs] cs IH]; intros lo hi H Hok; cbn [stored map]; [constructor|]. destruct H as [H1 H2].
  apply Forall_cons_1 in Hok as [Hrs Hok]. constructor; [|by apply (IH _ _ H2)].
  cbn [fst snd] in *. destruct (chunk_facts rs Hrs) as (_ & _ & _ & ?). apply ordered_le in H2. lia.
Qed.
Lemma ordered_snoc cs rs : ∀ lo mid, ordered lo cs mid → ordered lo (cs ++ [(mid, rs)]) (mid + zlen rs).
Proof.
  induction cs as [|[k rs'] cs IH]; intros lo mid H; cbn [app ordered] in *; [lia|]. destruct H as [H1 H2]. split; [done|by apply IH].
Qed.

Lemma count_chunk rs : chunkOk rs → logChunkCount (recordChunk rs) = Ok (zlen rs).
Proof.
  intros H. destruct (chunk_facts rs H) as (F1 & F2 & _ & _). unfold recordChunk. rewrite logChunkCount_chunk by done.
  by rewrite length_map.
Qed.

Lemma evict_oldest need cs : ∀ dropped,
  0 ≤ need ≤ maxBytes → Forall (λ c, chunkOk c.2) cs → bytesOf cs ≤ maxBytes → 0 ≤ dropped →
  dropped + zlen (contents cs) < 2 ^ 64 →
  ∃ j, evictOldest maxBytes need (stored cs) (bytesOf cs) (zlen (contents cs)) dropped
       = Ok (stored (drop j cs), bytesOf (drop j cs), zlen (contents (drop j cs)), dropped + zlen (contents (take j cs)))
    ∧ bytesOf (drop j cs) + need ≤ maxBytes ∧ (bytesOf cs + need ≤ maxBytes → j = 0%nat).
Proof.
  induction cs as [|[k rs] cs IH]; intros dropped Hneed Hok Hb Hd Hlt.
  - exists 0%nat. cbn. rewrite wrap64_small, Z.add_0_r by lia. split_and!; [by destruct (_ <=? maxBytes)|lia|done].
  - pose proof (bytesOf_pos cs). pose proof (bytesOf_pos ((k, rs) :: cs)).
    assert (bytesOf ((k, rs) :: cs) = zlen (recordChunk rs) + bytesOf cs) as Eb by done.
    rewrite contents_cons, length_app, numbered_length in Hlt.
    cbn [stored map evictOldest]. fold (stored cs). rewrite wrap64_small by lia.
    destruct (_ <=? maxBytes) eqn:E; b2p.
    + exists 0%nat. cbn [take drop]. cbn [contents concat map length]. rewrite Z.add_0_r. split_and!; [done|done|done].
    + apply Forall_cons_1 in Hok as [Hrs Hok]. cbn [snd] in Hrs. rewrite count_chunk by done. cbn [mbind result_bind].
      destruct (IH (dropped + zlen rs) Hneed Hok ltac:(lia) ltac:(lia) ltac:(lia)) as (j & Hj & Hj1 & _).
      exists (S j). cbn [drop take]. split_and!; [|done|intros; lia].
      rewrite wrap64_small, Eb, contents_cons, length_app, numbered_length, contents_cons, length_app, numbered_length by lia.
      rewrite !Z.min_r by lia.
      replace (zlen (recordChunk rs) + bytesOf cs - zlen (recordChunk rs)) with (bytesOf cs) by lia.
      replace (Z.of_nat (length rs + length (contents cs)) - zlen rs) with (zlen (contents cs)) by lia.
      rewrite Hj. do 2 f_equal. lia.
Qed.

(** The chunks of groups of records that are already resolved. *)
Fixpoint chunksAt (start : nat) (gs : list (list LogRecord)) : list encodedLogChunk :=
  match gs with
  | [] => []
  | g :: rest => {| ec_start := start; ec_count := length g; ec_data := recordChunk g |} :: chunksAt (start + length g) rest
  end.
Definition groupBytes (gs : list (list LogRecord)) : Z := foldr (λ g n, zlen (recordChunk g) + n) 0 gs.

Lemma append_chunks firstID gs : ∀ start cs dropped,
  0 ≤ firstID → Forall chunkOk gs → Forall (λ g, zlen (recordChunk g) ≤ maxBytes) gs →
  Forall (λ c, chunkOk c.2) cs → ordered 1 cs (firstID + Z.of_nat start) → bytesOf cs ≤ maxBytes → 0 ≤ dropped →
  dropped + zlen (contents cs) + zlen (concat gs) < 2 ^ 64 → firstID + Z.of_nat start + zlen (concat gs) < 2 ^ 64 →
  ∃ cs' k, appendChunks maxBytes firstID (chunksAt start gs) (stored cs) (bytesOf cs) (zlen (contents cs)) dropped
      = Ok (stored cs', bytesOf cs', zlen (contents cs'), dropped + Z.of_nat k)
    ∧ Forall (λ c, chunkOk c.2) cs' ∧ ordered 1 cs' (firstID + Z.of_nat start + zlen (concat gs)) ∧ bytesOf cs' ≤ maxBytes
    ∧ (k ≤ length (contents cs) + length (concat gs))%nat
    ∧ contents cs' = drop k (contents cs ++ numbered (firstID + Z.of_nat start) (concat gs))
    ∧ (bytesOf cs + groupBytes gs ≤ maxBytes → k = 0%nat).
Proof.
  induction gs as [|g gs IH]; intros start cs dropped Hf Hg Hgb Hok Hord Hb Hd Hlt Hid.
  - exists cs, 0%nat. cbn. rewrite !Z.add_0_r, app_nil_r, drop_0. split_and!; done || lia.
  - apply Forall_cons_1 in Hg as [Hg Hgs]. apply Forall_cons_1 in Hgb as [Hgb Hgbs]. cbn [concat] in Hlt, Hid. rewrite length_app in Hlt, Hid.
    destruct (chunk_facts g Hg) as (_ & _ & _ & Hlg).
    destruct (evict_oldest (zlen (recordChunk g)) cs dropped ltac:(lia) Hok Hb Hd ltac:(lia)) as (j & Hev & Hj & Hj0).
    set (k1 := length (contents (take j cs))).
    assert (contents cs = contents (take j cs) ++ contents (drop j cs)) as Esplit by (by rewrite <- contents_app, take_drop).
    assert (length (contents cs) = k1 + length (contents (drop j cs)))%nat as Ek1 by (rewrite Esplit; apply length_app).
    assert (contents (drop j cs) = drop k1 (contents cs)) as Edrop by (rewrite Esplit; symmetry; apply drop_app_length).
    pose proof (ordered_drop cs j _ _ Hord) as Hord1. pose proof (ordered_le _ _ _ Hord1).
    set (id := firstID + Z.of_nat start). set (cs2 := drop j cs ++ [(id, g)]).
    assert (Forall (λ c, chunkOk c.2) (drop j cs)) as Hok1 by (by apply Forall_drop).
    assert (contents cs2 = drop k1 (contents cs) ++ numbered id g) as Ec2.
    { unfold cs2. rewrite contents_app, Edrop. cbn [contents map concat]. by rewrite app_nil_r. }
    assert (bytesOf cs2 = bytesOf (drop j cs) + zlen (recordChunk g)) as Eb2.
    { unfold cs2. rewrite bytesOf_app. cbn. lia. }
    destruct (IH (start + length g)%nat cs2 (dropped + Z.of_nat k1)) as (cs' & k2 & Ha & H1 & H2 & H3 & H4 & H5 & H6); try done.
    + apply Forall_app. split; [done|]. constructor; [done|constructor].
    + replace (firstID + Z.of_nat (start + length g)) with (id + zlen g) by lia. by apply ordered_snoc.
    + lia.
    + lia.
    + rewrite Ec2, length_app, length_drop, numbered_length. lia.
    + lia.
    + exists cs', (k1 + k2)%nat. cbn [chunksAt appendChunks ec_data ec_start ec_count]. rewrite Hev. cbn [mbind result_bind].
      fold id. rewrite wrap64_small, bucketPut_last by (lia || by eapply ordered_keys).
      rewrite !wrap64_small by (pose proof (bytesOf_pos (drop j cs)); lia).
      replace (stored (drop j cs) ++ [(id, recordChunk g)]) with (stored cs2) by (unfold cs2; by rewrite stored_app).
      rewrite <- Eb2. replace (zlen (contents (drop j cs)) + zlen g) with (zlen (contents cs2))
        by (rewrite Ec2, Edrop, length_app, numbered_length; lia).
      fold k1. rewrite Ha. cbn [concat]. rewrite length_app.
      replace (firstID + Z.of_nat (start + length g)) with (id + zlen g) in * by lia.
      split_and!; [do 2 f_equal; lia|done| |done| | |].
      * by replace (id + Z.of_nat (length g + length (concat gs))) with (id + zlen g + zlen (concat gs)) by lia.
      * rewrite Ec2, length_app, length_drop, numbered_length in H4. lia.
      * rewrite H5, Ec2, numbered_app, <- app_assoc, <- drop_drop. f_equal.
        rewrite drop_app_le by lia. done.
      * intros Hfit. cbn [groupBytes foldr] in Hfit. fold (groupBytes gs) in Hfit.
        assert (0 ≤ groupBytes gs) by (clear; unfold groupBytes; induction gs; cbn [foldr]; lia).
        specialize (Hj0 ltac:(lia)). subst j. rewrite drop_0 in *. rewrite H6 by lia. unfold k1. by rewrite take_0.
Qed.

(** ** Building chunks *)

(** The records a queue of this size takes. *)
Record acceptable (r : LogRecord) : Prop := {
  ac_some : lr_Payload r ≠ [];
  ac_json : jsonValid (lr_Payload r) = true;
  ac_type : zlen (lr_Type r) ≤ 2 ^ 16 - 1;
  ac_site : zlen (lr_SiteID r) ≤ 2 ^ 16 - 1;
  ac_payload : zlen (lr_Payload r) ≤ 2 ^ 32 - 1;
  ac_small : recordBytes r + 5 ≤ maxBytes;
}.

Lemma envelope_size r :
  logEnvelopeSize r = if decide (zlen (lr_Type r) ≤ 2 ^ 16 - 1 ∧ zlen (lr_SiteID r) ≤ 2 ^ 16 - 1 ∧ zlen (lr_Payload r) ≤ 2 ^ 32 - 1)
    then Ok (zlen (sealed r)) else Err (ErrText "log record metadata is too long").
Proof.
  unfold logEnvelopeSize. rewrite sealed_length.
  destruct (_ || _) eqn:E; case_decide as H; try done.
  - exfalso. lia.
  - exfalso. apply H. lia.
Qed.

Lemma chunk_end_step index taken size r rest : acceptable r → (taken < 1024)%nat →
  chunkEnd jsonValid maxBytes index taken size (r :: rest)
  = if bool_decide (0 < taken)%nat && (maxBytes <? size + recordBytes r) then Ok (taken, size)
    else chunkEnd jsonValid maxBytes (S index) (S taken) (size + recordBytes r) rest.
Proof.
  intros [A1 A2 A3 A4 A5 A6] Ht. cbn [chunkEnd]. rewrite bool_decide_eq_false_2 by (unfold maxChunkRecords; lia).
  rewrite bool_decide_eq_false_2 by (by destruct (lr_Payload r)). rewrite A2, envelope_size, decide_True by done. cbn [negb].
  unfold recordBytes in *. replace (maxBytes <? 5 + 4 + zlen (sealed r)) with false by lia.
  by replace (size + 4 + zlen (sealed r)) with (size + (zlen (sealed r) + 4)) by lia.
Qed.

Lemma chunk_end_accepts index taken size r rest x :
  chunkEnd jsonValid maxBytes index taken size (r :: rest) = Ok x → (1024 ≤ taken)%nat ∧ x = (taken, size) ∨ (taken < 1024)%nat ∧ acceptable r.
Proof.
  cbn [chunkEnd]. case_bool_decide as H1; [intros [= <-]; left; split; [unfold maxChunkRecords in H1; lia|done]|]. case_bool_decide as H2; [done|].
  destruct (jsonValid _) eqn:H3; [|done]. cbn [negb]. rewrite envelope_size. case_decide as H4; [|done].
  destruct (maxBytes <? _) eqn:H5; [done|]. intros _. right. split; [unfold maxChunkRecords in H1; lia|].
  destruct H4 as (? & ? & ?). split; try done; [by destruct (lr_Payload r)|]. unfold recordBytes. lia.
Qed.

Lemma chunk_end rest : ∀ index taken size t' s',
  (taken = 0%nat → size = 5) → (taken ≤ 1024)%nat → chunkEnd jsonValid maxBytes index taken size rest = Ok (t', s') →
  ∃ n, t' = (taken + n)%nat ∧ (n ≤ length rest)%nat ∧ Forall acceptable (take n rest) ∧ s' = size + sumBytes (take n rest)
    ∧ (t' ≤ 1024)%nat ∧ (n = 0%nat ∨ s' ≤ maxBytes) ∧ (taken = 0%nat → rest ≠ [] → (1 ≤ n)%nat).
Proof.
  induction rest as [|r rest IH]; intros index taken size t' s' Hsz Ht Hc.
  - injection Hc as <- <-. exists 0%nat. cbn. rewrite Nat.add_0_r, Z.add_0_r. split_and!; solve [done|lia|constructor|by left].
  - destruct (chunk_end_accepts _ _ _ _ _ _ Hc) as [[Hge [= -> ->]]|[Hlt Hr]].
    + exists 0%nat. cbn. rewrite Nat.add_0_r, Z.add_0_r. split_and!; solve [done|lia|constructor|by left].
    + rewrite chunk_end_step in Hc by done. destruct (_ && _) eqn:E.
      * injection Hc as <- <-. exists 0%nat. cbn. rewrite Nat.add_0_r, Z.add_0_r. b2p. split_and!; solve [done|lia|constructor|by left].
      * apply IH in Hc as (n & -> & Hn & Hall & -> & Hle & Hs & _); [|lia|lia]. exists (S n). cbn [take length].
        pose proof (ac_small r Hr). pose proof (recordBytes_pos r).
        assert (sumBytes (r :: take n rest) = recordBytes r + sumBytes (take n rest)) as -> by done.
        split_and!; [lia|lia|by constructor|lia|lia| |lia]. right. destruct Hs as [->|Hs]; [|lia]. rewrite take_0.
        change (sumBytes []) with 0. destruct (decide (taken = 0%nat)) as [E0|E0]; [rewrite (Hsz E0); lia|].
        rewrite bool_decide_eq_true_2 in E by lia. cbn [andb] in E. lia.
Qed.

Lemma chunk_end_total rest : ∀ index taken size, Forall acceptable rest →
  ∃ x, chunkEnd jsonValid maxBytes index taken size rest = Ok x.
Proof.
  induction rest as [|r rest IH]; intros index taken size Hall; [by eexists|]. apply Forall_cons_1 in Hall as [Hr Hall].
  destruct (decide (taken < 1024)%nat) as [Ht|Ht].
  - rewrite chunk_end_step by done. destruct (_ && _); [by eexists|by apply IH].
  - cbn [chunkEnd]. rewrite bool_decide_eq_true_2 by (unfold maxChunkRecords; lia). by eexists.
Qed.

Lemma chunkBytes_resolved now rs : Forall (typed now) rs → chunkBytes now rs = recordChunk (map (resolve now) rs).
Proof.
  intros Hall. unfold chunkBytes, recordChunk, chunkOf. rewrite !length_map. do 3 f_equal.
  induction Hall as [|r rs Hr _ IH]; cbn [map]; [done|]. rewrite IH. f_equal. unfold encodeRecord, framed.
  by rewrite (encode_resolved now r Hr).
Qed.

Lemma build_chunks fuel now : ∀ start rest chunks,
  (length rest ≤ fuel)%nat → Forall (typed now) rest → buildFrom jsonValid fuel now maxBytes start rest = Ok chunks →
  ∃ gs, concat gs = rest ∧ chunks = chunksAt start (map (map (resolve now)) gs) ∧ Forall acceptable rest
    ∧ Forall (λ g, g ≠ [] ∧ (length g ≤ 1024)%nat ∧ 5 + sumBytes g ≤ maxBytes) gs.
Proof.
  induction fuel as [|fuel IH]; intros start rest chunks Hf Hty Hb.
  { destruct rest; [|simpl in Hf; lia]. injection Hb as <-. exists []. by split_and!; try constructor. }
  destruct rest as [|r rest]; [injection Hb as <-; exists []; by split_and!; try constructor|].
  cbn [buildFrom] in Hb. apply bind_Ok in Hb as ([count size] & Hc & Hb). apply bind_Ok in Hb as (chunks' & Hb & [= <-]).
  apply chunk_end in Hc as (n & -> & Hn & Hacc & -> & Hle & Hs & Hpos); [|done|lia].
  cbn [Nat.add] in *. specialize (Hpos eq_refl ltac:(done)).
  set (g := take n (r :: rest)) in *. set (tail := drop n (r :: rest)) in *.
  assert (g ++ tail = r :: rest) as Egt by apply take_drop.
  assert (length g = n) as Hlg by (unfold g; rewrite length_take; lia).
  rewrite <- Egt in Hty |- *. apply Forall_app in Hty as [Htg Htt].
  apply IH in Hb as (gs & Hgs & -> & Hall & Hok); [|unfold tail; rewrite length_drop; simpl in *; lia|done].
  exists (g :: gs). cbn [concat map chunksAt]. rewrite chunkBytes_resolved, length_map, Hlg by done.
  split_and!; [by rewrite Hgs|done|by apply Forall_app|]. constructor; [|done]. split_and!; [|lia|lia].
  intros ->. simpl in Hlg. lia.
Qed.

Lemma build_total fuel now : ∀ start rest, Forall acceptable rest →
  ∃ chunks, buildFrom jsonValid fuel now maxBytes start rest = Ok chunks.
Proof.
  induction fuel as [|fuel IH]; intros start rest Hall; [by eexists|]. destruct rest as [|r rest]; [by eexists|].
  destruct (chunk_end_total (r :: rest) start 0 5 Hall) as [[count size] Hc]. cbn [buildFrom]. rewrite Hc. cbn [mbind result_bind].
  destruct (IH (start + count)%nat (drop count (r :: rest)) (Forall_drop _ _ _ Hall)) as [chunks ->]. by eexists.
Qed.

(** ** Dropping the oversized head *)

(** How many leading records a batch of [max] bytes can never hold. *)
Fixpoint oversizedHead (max : Z) (rs : list LogRecord) : nat :=
  match rs with [] => 0 | r :: rest => if recordBytes r <=? max then 0 else S (oversizedHead max rest) end.

Lemma oversizedHead_le max rs : (oversizedHead max rs ≤ length rs)%nat.
Proof. induction rs as [|r rs IH]; cbn [oversizedHead length]; [done|]. destruct (_ <=? _); lia. Qed.
Lemma oversizedHead_numbered max rs : ∀ id, oversizedHead max (numbered id rs) = oversizedHead max rs.
Proof.
  induction rs as [|r rs IH]; intros id; cbn [oversizedHead numbered]; [done|].
  change (recordBytes (setID id r)) with (recordBytes r). by rewrite IH.
Qed.
Lemma oversizedHead_app max rs1 rs2 : oversizedHead max (rs1 ++ rs2)
  = if decide (oversizedHead max rs1 = length rs1) then (length rs1 + oversizedHead max rs2)%nat else oversizedHead max rs1.
Proof.
  induction rs1 as [|r rs1 IH]; cbn [oversizedHead app length]; [done|]. destruct (_ <=? _); [by rewrite decide_False by lia|].
  rewrite IH. case_decide; case_decide; lia.
Qed.
Lemma oversizedHead_drop max rs : oversizedHead max (drop (oversizedHead max rs) rs) = 0%nat.
Proof. induction rs as [|r rs IH]; cbn [oversizedHead]; [done|]. destruct (_ <=? _) eqn:E; cbn [drop oversizedHead]; [by rewrite E|done]. Qed.

Lemma oversized_visit max rs : ∀ index n,
  visitAll (λ oversized _ envelope, if zlen envelope + 4 <=? max then (oversized, false) else (oversized + 1, true)) index
    (map sealed rs) n = n + Z.of_nat (oversizedHead max rs).
Proof.
  induction rs as [|r rs IH]; intros index n; cbn [map visitAll oversizedHead]; [lia|].
  fold (recordBytes r). destruct (_ <=? _); [lia|]. rewrite IH. lia.
Qed.
Lemma oversized_chunk max rs : chunkOk rs →
  oversizedLogChunkHead (recordChunk rs) max = (Z.of_nat (oversizedHead max rs), None).
Proof.
  intros H. destruct (chunk_facts rs H) as (F1 & F2 & F3 & _). unfold oversizedLogChunkHead, recordChunk.
  rewrite visit_chunk by done. by rewrite oversized_visit.
Qed.

(** Removing the first records of a chunk. *)
Lemma trim_records rs m : chunkOk rs → (m ≤ length rs)%nat →
  trimLogChunk (recordChunk rs) (Z.of_nat m)
  = Ok (if decide (m = length rs) then [] else recordChunk (drop m rs)).
Proof.
  intros H Hm. destruct (chunk_facts rs H) as (F1 & F2 & F3 & _). unfold recordChunk.
  rewrite trim_chunk by (done || (rewrite length_map; lia)). rewrite length_map, Nat2Z.id, skipn_map.
  case_decide; case_decide; done || lia.
Qed.
Lemma chunkOk_drop rs m : chunkOk rs → (m < length rs)%nat → chunkOk (drop m rs).
Proof.
  intros [H1 H2 H3 H4] Hm. split; [|rewrite length_drop; lia|by apply Forall_drop..].
  intros E. apply (f_equal length) in E. rewrite length_drop in E. simpl in E. lia.
Qed.
Lemma recordChunk_some rs : recordChunk rs ≠ [].
Proof. done. Qed.
Lemma ordered_head cs : ∀ lo hi c, ordered lo cs hi → c ∈ stored cs → lo ≤ c.1.
Proof.
  induction cs as [|[k rs] cs IH]; intros lo hi c H; [set_solver|]. destruct H as [H1 H2].
  cbn [stored map]. intros [->|Hc]%elem_of_cons; [done|]. specialize (IH _ _ c H2 Hc). lia.
Qed.

(** A chunk whose first [m] records are gone, in front of the others. *)
Lemma replace_head k rs cs lo hi m : chunkOk rs → (m < length rs)%nat → ordered lo ((k, rs) :: cs) hi →
  bucketPut (k + Z.of_nat m) (recordChunk (drop m rs)) (stored cs) = stored ((k + Z.of_nat m, drop m rs) :: cs)
  ∧ ordered lo ((k + Z.of_nat m, drop m rs) :: cs) hi.
Proof.
  intros Hrs Hm [H1 H2]. split.
  - apply bucketPut_first. intros c Hc. pose proof (ordered_head _ _ _ _ H2 Hc). lia.
  - split; [lia|]. rewrite length_drop. by replace (k + Z.of_nat m + Z.of_nat (length rs - m)) with (k + zlen rs) by lia.
Qed.

Lemma drop_loop max fuel : ∀ cs lo hi d,
  (length cs + 2 ≤ fuel)%nat → Forall (λ c, chunkOk c.2) cs → ordered lo cs hi → 0 ≤ lo → hi < 2 ^ 64 → bytesOf cs ≤ maxBytes →
  0 ≤ d → d + zlen (contents cs) < 2 ^ 64 →
  ∃ cs', dropLoop fuel max (stored cs) (bytesOf cs) (zlen (contents cs)) d
      = Some (Ok (stored cs', bytesOf cs', zlen (contents cs'), d + Z.of_nat (oversizedHead max (contents cs))))
    ∧ Forall (λ c, chunkOk c.2) cs' ∧ ordered lo cs' hi ∧ bytesOf cs' ≤ bytesOf cs
    ∧ contents cs' = drop (oversizedHead max (contents cs)) (contents cs).
Proof.
  induction fuel as [|fuel IH]; intros cs lo hi d Hfuel Hok Hord Hlo Hhi Hb Hd Hlt; [lia|].
  destruct cs as [|[k rs] cs].
  { exists []. cbn. rewrite Z.add_0_r. split_and!; done. }
  pose proof Hok as Hok0. apply Forall_cons_1 in Hok as [Hrs Hok]. cbn [snd] in Hrs. pose proof (oversizedHead_le max rs) as Hm.
  destruct (chunk_facts rs Hrs) as (_ & _ & _ & Hl). set (m := oversizedHead max rs) in *.
  assert (bytesOf ((k, rs) :: cs) = zlen (recordChunk rs) + bytesOf cs) as Eb by done. pose proof (bytesOf_pos cs).
  rewrite contents_cons in *. rewrite length_app, numbered_length in Hlt |- *. rewrite oversizedHead_app, oversizedHead_numbered, numbered_length.
  fold m. cbn [stored map dropLoop]. fold (stored cs). rewrite oversized_chunk by done. fold m.
  destruct (decide (m = 0%nat)) as [E0|E0].
  { rewrite E0. cbn [Z.of_nat Z.eqb]. rewrite decide_False by lia. exists ((k, rs) :: cs).
    rewrite Z.add_0_r, drop_0, contents_cons, length_app, numbered_length. split_and!; done. }
  replace (Z.of_nat m =? 0) with false by lia. rewrite trim_records by done. pose proof Hord as [Hk Hord1].
  pose proof (ordered_le _ _ _ Hord1). rewrite !Z.min_r by lia. rewrite (wrap64_small (d + _)) by lia. rewrite Eb.
  replace (zlen (recordChunk rs) + bytesOf cs - zlen (recordChunk rs)) with (bytesOf cs) by lia.
  case_decide as Ed.
  - rewrite bool_decide_eq_true_2 by done.
    replace (Z.of_nat (length rs + length (contents cs)) - Z.of_nat m) with (zlen (contents cs)) by lia.
    destruct (IH cs (k + zlen rs) hi (d + Z.of_nat m)) as (cs' & H1 & H2 & H3 & H4 & H5); [simpl in *; lia|done|done|lia|lia|lia|lia|lia|].
    exists cs'. rewrite H1. split_and!; [do 3 f_equal; lia|done| |lia|].
    + destruct cs' as [|[k' rs'] cs']; cbn [ordered] in *; [lia|]. destruct H3. split; [lia|done].
    + rewrite H5. rewrite <- (numbered_length rs k), <- drop_drop, drop_app_length. done.
  - rewrite bool_decide_eq_false_2 by apply recordChunk_some. rewrite (wrap64_small (k + _)) by lia.
    destruct (replace_head k rs cs lo hi m Hrs ltac:(lia) Hord) as [Hput Hord'].
    rewrite Hput. pose proof (recordChunk_length rs). pose proof (recordChunk_length (drop m rs)).
    assert (sumBytes (drop m rs) ≤ sumBytes rs) as Hsb.
    { rewrite <- (take_drop m rs) at 2. rewrite sumBytes_app. pose proof (sumBytes_pos (take m rs)). lia. }
    rewrite (wrap64_small (bytesOf cs + _)) by lia.
    destruct fuel as [|fuel]; [simpl in Hfuel; lia|]. cbn [stored map dropLoop]. fold (stored cs).
    rewrite oversized_chunk by (apply chunkOk_drop; [done|lia]). replace (oversizedHead max (drop m rs)) with 0%nat by (symmetry; apply oversizedHead_drop). cbn [Z.of_nat Z.eqb].
    exists ((k + Z.of_nat m, drop m rs) :: cs).
    assert (contents ((k + Z.of_nat m, drop m rs) :: cs) = drop m (numbered k rs ++ contents cs)) as Ec.
    { rewrite contents_cons, drop_app_le, numbered_drop by (rewrite ?numbered_length; lia). done. }
    split_and!; [|constructor; [by apply chunkOk_drop; [|lia]|done]|done| |done].
    + do 2 f_equal. rewrite Ec, length_drop, length_app, numbered_length. cbn [bytesOf foldr]. fold (bytesOf cs).
      apply pair_eq; split; [|done]. apply pair_eq; split; [|lia]. apply pair_eq; split; [done|lia].
    + change (zlen (recordChunk (drop m rs)) + bytesOf cs ≤ zlen (recordChunk rs) + bytesOf cs). lia.
Qed.

(** ** Acknowledging *)

Lemma contents_ids cs : ∀ lo hi r, ordered lo cs hi → r ∈ contents cs → lo ≤ lr_ID r < hi.
Proof using Type.
  clear Hmax.
  induction cs as [|[k rs] cs IH]; intros lo hi r H; [set_solver|]. destruct H as [H1 H2]. rewrite contents_cons.
  pose proof (ordered_le _ _ _ H2). intros [Hr%numbered_ids|Hr]%elem_of_app; [lia|]. specialize (IH _ _ r H2 Hr). lia.
Qed.

Lemma ack_loop through cs : ∀ lo hi,
  Forall (λ c, chunkOk c.2) cs → ordered lo cs hi → 1 ≤ lo → hi ≤ 2 ^ 63 → through < 2 ^ 63 → bytesOf cs ≤ maxBytes →
  ∃ cs', ackLoop through (stored cs) (bytesOf cs) (zlen (contents cs)) = Ok (stored cs', bytesOf cs', zlen (contents cs'))
    ∧ Forall (λ c, chunkOk c.2) cs' ∧ ordered lo cs' hi ∧ bytesOf cs' ≤ bytesOf cs
    ∧ contents cs' = filter (λ r, through < lr_ID r) (contents cs).
Proof.
  induction cs as [|[k rs] cs IH]; intros lo hi Hok Hord Hlo Hhi Hth Hb; [by exists []|].
  pose proof Hok as Hok0. apply Forall_cons_1 in Hok as [Hrs Hok]. cbn [snd] in Hrs. pose proof Hord as [Hk Hord1].
  destruct (chunk_facts rs Hrs) as (_ & _ & _ & Hl). pose proof (ordered_le _ _ _ Hord1). pose proof (bytesOf_pos cs).
  assert (bytesOf ((k, rs) :: cs) = zlen (recordChunk rs) + bytesOf cs) as Eb by done.
  cbn [stored map ackLoop]. fold (stored cs). destruct (through <? k) eqn:E; b2p.
  { exists ((k, rs) :: cs). split_and!; try done. symmetry. apply filter_everything. intros r Hr.
    assert (ordered k ((k, rs) :: cs) hi) as Hord2 by (split; [lia|done]). pose proof (contents_ids _ _ _ _ Hord2 Hr). lia. }
  rewrite count_chunk by done. cbn [mbind result_bind]. rewrite to_int64_small by lia.
  set (m := Z.to_nat (Z.min (zlen rs) (through - k + 1))). replace (Z.min (zlen rs) (through - k + 1)) with (Z.of_nat m) by lia.
  rewrite trim_records by (done || lia). cbn [mbind result_bind]. rewrite contents_cons, length_app, numbered_length.
  rewrite Eb, (wrap64_small (Z.of_nat m)), !Z.min_r by lia.
  replace (zlen (recordChunk rs) + bytesOf cs - zlen (recordChunk rs)) with (bytesOf cs) by lia.
  rewrite list.filter_app. case_decide as Ed.
  - rewrite bool_decide_eq_true_2 by done.
    replace (Z.of_nat (length rs + length (contents cs)) - Z.of_nat m) with (zlen (contents cs)) by lia.
    destruct (IH (k + zlen rs) hi) as (cs' & H1 & H2 & H3 & H4 & H5); [done|done|lia|lia|lia|lia|].
    exists cs'. rewrite H1, H5. split_and!; [done|done| |lia|].
    + destruct cs' as [|[k' rs'] cs']; cbn [ordered] in *; [lia|]. destruct H3. split; [lia|done].
    + rewrite (filter_nothing _ (numbered k rs)); [done|]. intros r Hr%numbered_ids. lia.
  - rewrite bool_decide_eq_false_2 by apply recordChunk_some. rewrite (wrap64_small (k + _)) by lia.
    destruct (replace_head k rs cs lo hi m Hrs ltac:(lia) Hord) as [Hput Hord'].
    rewrite Hput. pose proof (recordChunk_length rs). pose proof (recordChunk_length (drop m rs)).
    assert (sumBytes (drop m rs) ≤ sumBytes rs) as Hsb.
    { rewrite <- (take_drop m rs) at 2. rewrite sumBytes_app. pose proof (sumBytes_pos (take m rs)). lia. }
    rewrite (wrap64_small (bytesOf cs + _)) by lia.
    exists ((k + Z.of_nat m, drop m rs) :: cs).
    assert (bytesOf ((k + Z.of_nat m, drop m rs) :: cs) = zlen (recordChunk (drop m rs)) + bytesOf cs) as Eb' by done.
    split_and!; [|constructor; [by apply chunkOk_drop; [|lia]|done]|done|lia|].
    + do 2 f_equal; [|rewrite contents_cons, length_app, numbered_length, length_drop; lia]. f_equal. lia.
    + rewrite contents_cons. f_equal.
      * rewrite <- (take_drop m rs) at 2. rewrite numbered_app, list.filter_app, length_take, Nat.min_l by lia.
        rewrite (filter_nothing _ (numbered k _)), (filter_everything _ (numbered (k + _) _)); [done|..].
        -- intros r Hr%numbered_ids. lia.
        -- intros r Hr%numbered_ids. rewrite length_take in Hr. lia.
      * symmetry. apply filter_everything. intros r Hr. pose proof (contents_ids _ _ _ _ Hord1 Hr). lia.
Qed.

End Theorems.
