(* ===== verification/LogQueueSpec.v ===== *)
(** * The log queue as a first-in first-out queue

    The abstract queue the operations of [LogQueue] implement, the simulation
    between the two, and the delivery cycle of the agent's channel
    ([internal/edgeagent/channel.go]): drop what can never be sent, send a
    batch, acknowledge it. *)
From Stdlib Require Import ZArith Lia Ascii String.
From Stdlib.Strings Require Import Byte.
From stdpp Require Import base numbers list strings gmap sets option sorting.
From S2P Require Import Prelude LogQueue LogQueueTheorems.

Local Open Scope Z_scope.

(** What a caller sees of an operation: its arguments, the fault of its
    transaction, and its answer, [None] for an error. *)
Inductive logEvent :=
| EvAppend (records : list LogRecord) (now : Z) (fault : option nat) (ids : option (list Z))
| EvBatch (limit max : Z) (sync : option nat) (answer : option (list LogRecord * Z))
| EvAck (through : Z) (fault : option nat) (ok : bool)
| EvDrop (max : Z) (fault : option nat) (dropped : option Z)
| EvReopen.

(** The abstract queue: the records that wait, with their identifiers, the
    next identifier, and how many records were dropped and acknowledged. *)
Record fifo := Fifo { ff_queue : list LogRecord; ff_next : Z; ff_dropped : Z; ff_acked : Z }.

Inductive steps {S E} (step : S → E → S → Prop) : S → list E → S → Prop :=
| steps_nil s : steps step s [] s
| steps_snoc s evs s1 ev s2 : steps step s evs s1 → step s1 ev s2 → steps step s (evs ++ [ev]) s2.

Section Spec.
Variable jsonValid : list byte → bool.
Context (maxBytes : Z) (Hmax : 0 < maxBytes ≤ 2 ^ 32).

Inductive specStep (s : fifo) : logEvent → fifo → Prop :=
| SpecAppend records now fault k :
    Forall (acceptable jsonValid maxBytes) records → fault = None ∨ records = [] →
    let all := ff_queue s ++ numbered (ff_next s) (map (resolve now) records) in
    (k ≤ length all)%nat → (sumBytes all + 5 * zlen all ≤ maxBytes → k = 0%nat) →
    specStep s (EvAppend records now fault (Some (lr_ID <$> numbered (ff_next s) records)))
      (Fifo (drop k all) (ff_next s + zlen records) (ff_dropped s + Z.of_nat k) (ff_acked s))
| SpecReject records now fault :
    is_Some fault ∨ ¬ Forall (acceptable jsonValid maxBytes) records → specStep s (EvAppend records now fault None) s
| SpecBatch limit max n :
    longestPrefix (if limit <=? 0 then 1000 else limit) max (ff_queue s) n →
    specStep s (EvBatch limit max None (Some (take n (ff_queue s), sumBytes (take n (ff_queue s))))) s
| SpecBatchFails limit max code : specStep s (EvBatch limit max (Some code) None) s
| SpecAck through :
    let rest := filter (λ r, through < lr_ID r) (ff_queue s) in
    specStep s (EvAck through None true)
      (Fifo rest (ff_next s) (ff_dropped s) (ff_acked s + (zlen (ff_queue s) - zlen rest)))
| SpecAckFails through code : specStep s (EvAck through (Some code) false) s
| SpecDrop max fault :
    fault = None ∨ max = 0 →
    let n := if max =? 0 then 0%nat else oversizedHead max (ff_queue s) in
    specStep s (EvDrop max fault (Some (Z.of_nat n)))
      (Fifo (drop n (ff_queue s)) (ff_next s) (ff_dropped s + Z.of_nat n) (ff_acked s))
| SpecDropFails max code : specStep s (EvDrop max (Some code) None) s
| SpecReopen : specStep s EvReopen s.

(** The operations of the code.  The premises are what Go's types say of the
    arguments, and that the identifiers do not run out. *)
Inductive logStep (q : LogQueue) : logEvent → LogQueue → Prop :=
| LogAppend records now fault q' ids :
    Forall (typed now) records → ld_sequence (lq_db q) + zlen records < 2 ^ 63 →
    AppendBatch jsonValid q records now fault = Ok (q', ids) → logStep q (EvAppend records now fault (Some ids)) q'
| LogReject records now fault e :
    Forall (typed now) records → ld_sequence (lq_db q) + zlen records < 2 ^ 63 →
    AppendBatch jsonValid q records now fault = Err e → logStep q (EvAppend records now fault None) q
| LogBatch limit max sync records size :
    0 ≤ max → BatchSized jsonValid q limit max sync = (records, size, None) →
    logStep q (EvBatch limit max sync (Some (records, size))) q
| LogBatchFails limit max sync records size e :
    0 ≤ max → BatchSized jsonValid q limit max sync = (records, size, Some e) → logStep q (EvBatch limit max sync None) q
| LogAck through fault q' :
    0 ≤ through < 2 ^ 63 → Ack q through fault = Ok q' → logStep q (EvAck through fault true) q'
| LogAckFails through fault e :
    0 ≤ through < 2 ^ 63 → Ack q through fault = Err e → logStep q (EvAck through fault false) q
| LogDrop max fault q' n :
    0 ≤ max → DropOversizedHead q max fault = Some (Ok (q', n)) → logStep q (EvDrop max fault (Some n)) q'
| LogDropFails max fault e :
    0 ≤ max → DropOversizedHead q max fault = Some (Err e) → logStep q (EvDrop max fault None) q
| LogReopen q' : OpenLogQueue (lq_db q) (Some maxBytes) None = Ok q' → logStep q EvReopen q'.

(** ** The simulation relation *)

Definition metaOf (q : LogQueue) (key : string) : Z := readUint64 (ld_meta (lq_db q) !! key).

Record rep (q : LogQueue) (s : fifo) : Prop := {
  rp_chunks : ∃ cs, ld_logs (lq_db q) = stored cs ∧ Forall (λ c, chunkOk jsonValid maxBytes c.2) cs
    ∧ ordered 1 cs (ff_next s) ∧ contents cs = ff_queue s ∧ metaOf q "total_bytes" = bytesOf cs ∧ bytesOf cs ≤ maxBytes;
  rp_records : metaOf q "total_records" = zlen (ff_queue s);
  rp_dropped : metaOf q "dropped_records" = ff_dropped s;
  rp_next : ld_sequence (lq_db q) + 1 = ff_next s;
  rp_ids : 1 ≤ ff_next s ≤ 2 ^ 63;
  rp_sign : 0 ≤ ff_dropped s ∧ 0 ≤ ff_acked s;
  rp_sum : zlen (ff_queue s) + ff_dropped s + ff_acked s = ff_next s - 1;
  rp_limit : lq_maxBytes q = maxBytes;
  rp_version : ld_meta (lq_db q) !! "format_version" = Some [logQueueVersion];
}.

Lemma read_put v : 0 ≤ v < 2 ^ 64 → readUint64 (Some (be_put 8 v)) = v.
Proof.
  intros Hv. unfold readUint64. rewrite bool_decide_eq_true_2 by apply length_be_put. by apply be_get_put.
Qed.

Lemma numbered_map_ids f rs : (∀ r, lr_ID (f r) = lr_ID r) → ∀ id, lr_ID <$> numbered id (map f rs) = lr_ID <$> numbered id rs.
Proof. intros _. induction rs as [|r rs IH]; intros id; cbn [map numbered fmap list_fmap]; [done|]. f_equal. apply IH. Qed.
Lemma numbered_seq rs : ∀ id start, 0 ≤ id → id + Z.of_nat start + zlen rs ≤ 2 ^ 63 →
  map (λ index, wrap64 (id + Z.of_nat index)) (seq start (length rs)) = lr_ID <$> numbered (id + Z.of_nat start) rs.
Proof.
  induction rs as [|r rs IH]; intros id start Hid Hle; cbn [length seq map numbered fmap list_fmap] in *; [done|].
  rewrite wrap64_small by lia. f_equal. rewrite IH by lia. f_equal. f_equal. lia.
Qed.
Lemma sumBytes_resolve now rs : sumBytes (map (resolve now) rs) = sumBytes rs.
Proof.
  unfold sumBytes. induction rs as [|r rs IH]; cbn [map foldr]; [done|]. by rewrite IH.
Qed.
Lemma bytesOf_weight cs : Forall (λ c, chunkOk jsonValid maxBytes c.2) cs →
  bytesOf cs ≤ sumBytes (contents cs) + 5 * zlen (contents cs).
Proof.
  induction 1 as [|[k rs] cs Hrs _ IH]; [done|]. rewrite contents_cons, sumBytes_app, sumBytes_numbered, length_app, numbered_length.
  change (bytesOf ((k, rs) :: cs)) with (zlen (recordChunk rs) + bytesOf cs). rewrite recordChunk_length.
  cbn [snd] in Hrs. destruct rs; [by destruct (ck_some _ _ _ Hrs)|]. simpl length. lia.
Qed.
Lemma groupBytes_weight gs : Forall (λ g, g ≠ []) gs → groupBytes gs ≤ sumBytes (concat gs) + 5 * zlen (concat gs).
Proof.
  induction 1 as [|g gs Hg _ IH]; [done|]. cbn [concat]. rewrite sumBytes_app, length_app.
  change (groupBytes (g :: gs)) with (zlen (recordChunk g) + groupBytes gs). rewrite recordChunk_length.
  destruct g; [done|]. simpl length. lia.
Qed.

Lemma resolved_ok now r : typed now r → acceptable jsonValid maxBytes r →
  storable jsonValid (resolve now r) ∧ recordBytes (resolve now r) + 5 ≤ maxBytes.
Proof.
  intros [Hv Ht] [A1 A2 A3 A4 A5 A6]. split; [by split|]. revert A6. unfold recordBytes. by rewrite !sealed_length.
Qed.
Lemma group_ok now g : Forall (typed now) g → Forall (acceptable jsonValid maxBytes) g →
  g ≠ [] ∧ (length g ≤ 1024)%nat ∧ 5 + sumBytes g ≤ maxBytes →
  chunkOk jsonValid maxBytes (map (resolve now) g) ∧ zlen (recordChunk (map (resolve now) g)) ≤ maxBytes.
Proof.
  intros Hty Hacc (H1 & H2 & H3). split; [|by rewrite recordChunk_length, sumBytes_resolve].
  assert (Forall (λ r, storable jsonValid (resolve now r) ∧ recordBytes (resolve now r) + 5 ≤ maxBytes) g) as Hall.
  { rewrite list.Forall_forall in Hty, Hacc |- *. intros r Hr. apply resolved_ok; auto. }
  split; [by destruct g|by rewrite length_map| |]; apply Forall_map; eapply list.Forall_impl; try exact Hall; intros r []; done.
Qed.

(** The database a transaction left, and the counters it wrote. *)
Lemma meta_other m key1 key2 v : key1 ≠ key2 → putUint64 m key1 v !! key2 = m !! key2.
Proof. intros H. unfold putUint64. by rewrite lookup_insert_ne. Qed.
Lemma meta_same m key v : 0 ≤ v < 2 ^ 64 → readUint64 (putUint64 m key v !! key) = v.
Proof. intros H. unfold putUint64. rewrite lookup_insert_eq. by apply read_put. Qed.

Lemma sim_append q s records now fault :
  rep q s → Forall (typed now) records → ld_sequence (lq_db q) + zlen records < 2 ^ 63 →
  match AppendBatch jsonValid q records now fault with
  | Ok (q', ids) => ∃ s', specStep s (EvAppend records now fault (Some ids)) s' ∧ rep q' s'
  | Err _ => specStep s (EvAppend records now fault None) s
  end.
Proof.
  intros [(cs & Hlogs & Hok & Hord & Hcont & Htot & Hb) Hrec Hdrop Hnext Hids Hsign Hsum Hlim Hver] Hty Hseq.
  unfold AppendBatch. case_bool_decide as He.
  { subst records. exists (Fifo (drop 0 (ff_queue s ++ [])) (ff_next s + 0) (ff_dropped s + 0) (ff_acked s)).
    split; [by apply (SpecAppend s [] now fault 0); [constructor|right|lia|]|].
    rewrite drop_0, app_nil_r, !Z.add_0_r. split; try done. by exists cs. }
  destruct (buildLogChunks jsonValid records now (lq_maxBytes q)) as [chunks|e] eqn:Hbuild; cbn [mbind result_bind].
  2:{ apply SpecReject. right. intros Hacc. rewrite Hlim in Hbuild.
      destruct (build_total jsonValid maxBytes (length records) now 0 records Hacc) as [chunks Hc].
      unfold buildLogChunks in Hbuild. congruence. }
  rewrite Hlim in Hbuild |- *. apply build_chunks in Hbuild as (gs & Hgs & -> & Hacc & Hgok); [|done|done].
  rewrite Hlogs. fold (metaOf q "total_bytes") (metaOf q "total_records") (metaOf q "dropped_records").
  rewrite Htot, Hrec, Hdrop, <- Hcont. rewrite (wrap64_small (ld_sequence (lq_db q) + 1)), Hnext by lia.
  assert (Forall (λ g, chunkOk jsonValid maxBytes g ∧ zlen (recordChunk g) ≤ maxBytes) (map (map (resolve now)) gs)) as Hchunks.
  { apply Forall_map. rewrite list.Forall_forall in Hgok |- *. intros g Hg. subst records.
    rewrite list.Forall_forall in Hty, Hacc.
    apply group_ok; [| |by apply Hgok]; apply list.Forall_forall; intros r Hr; [apply Hty|apply Hacc]; apply list_elem_of_In, in_concat; exists g; by rewrite <- !list_elem_of_In. }
  apply list.Forall_and in Hchunks as [Hc1 Hc2].
  assert (concat (map (map (resolve now)) gs) = map (resolve now) records) as Econc by (by rewrite <- Hgs, concat_map).
  destruct (append_chunks jsonValid maxBytes Hmax (ff_next s) (map (map (resolve now)) gs) 0 cs (ff_dropped s))
    as (cs' & k & Happ & Hok' & Hord' & Hb' & Hk & Hcont' & Hk0); try done.
  - lia.
  - by rewrite Z.add_0_r.
  - lia.
  - rewrite Hcont, Econc, length_map. lia.
  - rewrite Econc, length_map. lia.
  - rewrite Happ. cbn [mbind result_bind]. rewrite Z.add_0_r, Econc, ?length_map in *. rewrite Hcont in *.
    destruct fault as [code|]; [apply SpecReject; left; by eexists|].
    set (all := ff_queue s ++ numbered (ff_next s) (map (resolve now) records)) in *.
    assert (length all = length (ff_queue s) + length records)%nat as Hall
      by (unfold all; by rewrite length_app, numbered_length, length_map).
    exists (Fifo (drop k all) (ff_next s + zlen records) (ff_dropped s + Z.of_nat k) (ff_acked s)). split.
    + replace (map _ (seq 0 (length records))) with (lr_ID <$> numbered (ff_next s) records).
      * apply SpecAppend; [done|by left|fold all; lia|]. fold all. intros Hfit. apply Hk0.
        pose proof (bytesOf_weight cs Hok) as Hw. rewrite Hcont in Hw.
        assert (groupBytes (map (map (resolve now)) gs) ≤ sumBytes (map (resolve now) records) + 5 * zlen records) as Hg.
        { rewrite <- Econc, <- (length_map (resolve now) records), <- Econc. apply groupBytes_weight.
          eapply list.Forall_impl; [exact Hc1|]. by intros g []. }
        unfold all in Hfit. rewrite sumBytes_app, sumBytes_numbered, length_app, numbered_length, length_map in Hfit. lia.
      * rewrite numbered_seq by lia. by rewrite Z.add_0_r.
    + pose proof (bytesOf_pos cs'). rewrite Hcont' in *.
      split; cbn [ff_queue ff_next ff_dropped ff_acked lq_db lq_maxBytes ld_sequence ld_meta ld_logs]; unfold metaOf; cbn [lq_db ld_meta].
      * exists cs'. split_and!; try done. rewrite meta_other, meta_same by (done || lia). done.
      * rewrite meta_same by (rewrite length_drop; lia). done.
      * rewrite !meta_other, meta_same by (done || lia). done.
      * rewrite wrap64_small by lia. lia.
      * lia.
      * lia.
      * rewrite length_drop. lia.
      * done.
      * by rewrite !meta_other.
Qed.

Lemma sim_batch q s limit max : rep q s → 0 ≤ max →
  ∃ n, BatchSized jsonValid q limit max None = (take n (ff_queue s), sumBytes (take n (ff_queue s)), None)
    ∧ longestPrefix (if limit <=? 0 then 1000 else limit) max (ff_queue s) n.
Proof.
  intros [(cs & Hlogs & Hok & Hord & Hcont & Htot & Hb) Hrec Hdrop Hnext Hids Hsign Hsum Hlim Hver] Hm.
  unfold BatchSized. set (l := if limit <=? 0 then 1000 else limit).
  assert (0 ≤ l) as Hl by (unfold l; destruct (limit <=? 0) eqn:E; b2p; lia).
  assert (sumBytes (contents cs) ≤ bytesOf cs) as Hs.
  { clear -Hok. induction Hok as [|[k rs] cs _ _ IH]; [done|]. rewrite contents_cons, sumBytes_app, sumBytes_numbered.
    change (bytesOf ((k, rs) :: cs)) with (zlen (recordChunk rs) + bytesOf cs). rewrite recordChunk_length. lia. }
  rewrite Hlogs, (batch_chunks jsonValid maxBytes Hmax l max cs 1 (ff_next s) [] 0) by (done || lia).
  cbn [app length]. rewrite Z.sub_0_r, Hcont, Z.add_0_l. eexists. split; [done|].
  destruct (fitting_longest (ff_queue s) l max 0 Hl ltac:(lia)) as (H1 & H2 & H3 & H4).
  rewrite !Z.add_0_l in *. by split_and!.
Qed.

Lemma sim_ack q s through fault : rep q s → 0 ≤ through < 2 ^ 63 →
  match Ack q through fault with
  | Ok q' => ∃ s', specStep s (EvAck through fault true) s' ∧ rep q' s'
      ∧ ff_queue s' = filter (λ r, through < lr_ID r) (ff_queue s)
  | Err _ => is_Some fault
  end.
Proof.
  intros [(cs & Hlogs & Hok & Hord & Hcont & Htot & Hb) Hrec Hdrop Hnext Hids Hsign Hsum Hlim Hver] Hth. unfold Ack.
  fold (metaOf q "total_bytes") (metaOf q "total_records"). rewrite Hlogs, Htot, Hrec, <- Hcont.
  destruct (ack_loop jsonValid maxBytes Hmax through cs 1 (ff_next s) Hok Hord ltac:(lia) ltac:(lia) ltac:(lia) Hb)
    as (cs' & -> & Hok' & Hord' & Hb' & Hcont'). cbn [mbind result_bind]. destruct fault as [code|]; [by eexists|].
  rewrite Hcont in *. pose proof (bytesOf_pos cs'). pose proof (length_filter (λ r, through < lr_ID r) (ff_queue s)) as Hlen.
  eexists. split; [apply SpecAck|]. split; [|done]. rewrite Hcont' in *.
  split; cbn [ff_queue ff_next ff_dropped ff_acked lq_db lq_maxBytes ld_sequence ld_meta ld_logs]; unfold metaOf; cbn [lq_db ld_meta].
  - exists cs'. split_and!; try done; [|lia]. rewrite meta_other, meta_same by (done || lia). done.
  - rewrite meta_same by lia. done.
  - rewrite !meta_other by done. done.
  - done.
  - done.
  - lia.
  - lia.
  - done.
  - by rewrite !meta_other.
Qed.

Lemma sim_drop q s max fault : rep q s → 0 ≤ max →
  match DropOversizedHead q max fault with
  | Some (Ok (q', n)) => ∃ s', specStep s (EvDrop max fault (Some n)) s' ∧ rep q' s'
      ∧ ff_queue s' = drop (Z.to_nat n) (ff_queue s) ∧ n = Z.of_nat (if max =? 0 then 0 else oversizedHead max (ff_queue s))
  | Some (Err _) => is_Some fault
  | None => False
  end.
Proof.
  intros Hrep Hm. pose proof Hrep as [(cs & Hlogs & Hok & Hord & Hcont & Htot & Hb) Hrec Hdrop Hnext Hids Hsign Hsum Hlim Hver].
  assert (∀ n, n = (if max =? 0 then 0%nat else oversizedHead max (ff_queue s)) → n = 0%nat → fault = None ∨ max = 0 →
    ∃ s', specStep s (EvDrop max fault (Some 0)) s' ∧ rep q s' ∧ ff_queue s' = drop (Z.to_nat 0) (ff_queue s)
      ∧ 0 = Z.of_nat n) as Hnone.
  { intros n En -> Hf. exists s. split_and!; try done. pose proof (SpecDrop s max fault Hf) as Hs. cbn zeta in Hs.
    rewrite <- En, drop_0, Z.add_0_r in Hs. by destruct s. }
  unfold DropOversizedHead. destruct (max =? 0) eqn:E0; b2p; [by apply (Hnone 0%nat); [..|right]|].
  fold (metaOf q "total_bytes") (metaOf q "total_records") (metaOf q "dropped_records"). rewrite Hlogs, Htot, Hrec.
  destruct (drop_loop jsonValid maxBytes Hmax max (S (S (length (stored cs)))) cs 1 (ff_next s) 0)
    as (cs' & Hd & Hok' & Hord' & Hb' & Hcont'); try done; try lia.
  { unfold stored. rewrite length_map. lia. }
  { rewrite Hcont. lia. }
  rewrite Hcont in Hd, Hcont'. rewrite Hd, Z.add_0_l.
  pose proof (oversizedHead_le max (ff_queue s)) as Hle. set (n := oversizedHead max (ff_queue s)) in *.
  destruct fault as [code|]; [by eexists|]. destruct (Z.of_nat n =? 0) eqn:En; b2p.
  { apply (Hnone n); [done|lia|by left]. }
  pose proof (SpecDrop s max None (or_introl eq_refl)) as Hs. cbn zeta in Hs. rewrite (proj2 (Z.eqb_neq max 0)) in Hs by done. fold n in Hs.
  eexists. split; [exact Hs|]. cbn [ff_queue]. rewrite Nat2Z.id. split; [|done]. pose proof (bytesOf_pos cs').
  rewrite Hcont', Hdrop in *.
  split; cbn [ff_queue ff_next ff_dropped ff_acked lq_db lq_maxBytes ld_sequence ld_meta ld_logs]; unfold metaOf; cbn [lq_db ld_meta].
  - exists cs'. split_and!; try done; [|lia]. rewrite !meta_other, meta_same by (done || lia). done.
  - rewrite meta_other, meta_same by (done || rewrite length_drop; lia). done.
  - rewrite wrap64_small, meta_same by lia. done.
  - done.
  - done.
  - lia.
  - rewrite length_drop. lia.
  - done.
  - by rewrite !meta_other.
Qed.

Lemma sim_reopen q s q' : rep q s → OpenLogQueue (lq_db q) (Some maxBytes) None = Ok q' → rep q' s.
Proof.
  intros [(cs & Hlogs & Hok & Hord & Hcont & Htot & Hb) Hrec Hdrop Hnext Hids Hsign Hsum Hlim Hver] Ho. unfold OpenLogQueue in Ho.
  rewrite Hver, bool_decide_eq_true_2 in Ho by done. replace (0 <? maxBytes) with true in Ho by lia. injection Ho as <-.
  assert (<["format_version" := [logQueueVersion]]> (ld_meta (lq_db q)) = ld_meta (lq_db q)) as E by (by apply insert_id).
  rewrite E. split; unfold metaOf; cbn; try done. by exists cs.
Qed.

(** Every operation of the code is one of the abstract queue. *)
Lemma simulation q s ev q' : rep q s → logStep q ev q' → ∃ s', specStep s ev s' ∧ rep q' s'.
Proof.
  intros Hrep Hstep.
  destruct Hstep as [records now fault q' ids Hty Hseq Ha|records now fault e Hty Hseq Ha|limit max sync records size Hm Hb
    |limit max sync records size e Hm Hb|through fault q' Hth Ha|through fault e Hth Ha|max fault q' n Hm Hd|max fault e Hm Hd|q' Ho].
  - pose proof (sim_append q s records now fault Hrep Hty Hseq) as H. by rewrite Ha in H.
  - pose proof (sim_append q s records now fault Hrep Hty Hseq) as H. rewrite Ha in H. eauto.
  - destruct sync as [code|]; [done|]. destruct (sim_batch q s limit max Hrep Hm) as (n & Hn & Hlong).
    rewrite Hb in Hn. injection Hn as -> ->. exists s. split; [by apply SpecBatch|done].
  - destruct sync as [code|]; [exists s; split; [apply SpecBatchFails|done]|].
    destruct (sim_batch q s limit max Hrep Hm) as (n & Hn & _). congruence.
  - pose proof (sim_ack q s through fault Hrep Hth) as H. rewrite Ha in H. destruct H as (s' & H1 & H2 & _). eauto.
  - pose proof (sim_ack q s through fault Hrep Hth) as H. rewrite Ha in H. destruct H as [code ->]. exists s. split; [apply SpecAckFails|done].
  - pose proof (sim_drop q s max fault Hrep Hm) as H. rewrite Hd in H. destruct H as (s' & H1 & H2 & _). eauto.
  - pose proof (sim_drop q s max fault Hrep Hm) as H. rewrite Hd in H. destruct H as [code ->]. exists s. split; [apply SpecDropFails|done].
  - exists s. split; [apply SpecReopen|by eapply sim_reopen].
Qed.

(** The queue of a new file. *)
Definition newQueue : LogQueue :=
  {| lq_db := LogDB [] 0 {["format_version" := [logQueueVersion]]}; lq_maxBytes := maxBytes |}.
Definition emptyFifo : fifo := Fifo [] 1 0 0.

Lemma new_rep : rep newQueue emptyFifo.
Proof. split; try done. exists []. split_and!; try done. cbn. lia. Qed.

Lemma run_rep evs q : steps logStep newQueue evs q → ∃ s, steps specStep emptyFifo evs s ∧ rep q s.
Proof.
  intros H. remember newQueue as q0 eqn:E. induction H as [q|q evs q1 ev q2 _ IH Hstep]; subst.
  - exists emptyFifo. split; [constructor|apply new_rep].
  - destruct (IH eq_refl) as (s1 & Hs & Hrep). destruct (simulation q1 s1 ev q2 Hrep Hstep) as (s2 & Hs2 & Hrep2).
    exists s2. split; [by eapply steps_snoc|done].
Qed.

Lemma numbered_sorted rs : ∀ id, StronglySorted (λ a b, lr_ID a < lr_ID b) (numbered id rs).
Proof.
  induction rs as [|r rs IH]; intros id; cbn [numbered]; constructor; [done|].
  apply list.Forall_forall. intros x Hx%numbered_ids. cbn. lia.
Qed.
Lemma contents_sorted cs : ∀ lo hi, ordered lo cs hi → StronglySorted (λ a b, lr_ID a < lr_ID b) (contents cs).
Proof.
  induction cs as [|[k rs] cs IH]; intros lo hi H; [constructor|]. destruct H as [_ H]. rewrite contents_cons.
  apply StronglySorted_app_2; [|apply numbered_sorted|by eapply IH].
  intros x y Hx%numbered_ids Hy. pose proof (contents_ids _ _ _ _ H Hy). lia.
Qed.

(** ** The theorems *)

(** C31. The log queue is a first-in first-out queue that loses nothing silently.
    Every run of the operations on a new queue (appends, batches,
    acknowledgements, drops and reopening the file, each of which may fail) is
    a run of the abstract queue with the same answers: records keep their order
    and their consecutive identifiers, an append drops only the oldest records
    and none while the queue has room, a batch is the longest prefix within its
    limits, an acknowledgement removes exactly the records up to it.  The bytes
    stored are counted exactly and stay within the limit, and every identifier
    given out is that of a record that waits, was counted as dropped, or was
    acknowledged. *)
Theorem log_queue_refines evs q :
  steps logStep newQueue evs q →
  ∃ s, steps specStep emptyFifo evs s
    ∧ metaOf q "total_bytes" = foldr (λ c n, zlen c.2 + n) 0 (ld_logs (lq_db q)) ∧ metaOf q "total_bytes" ≤ maxBytes
    ∧ metaOf q "total_records" = zlen (ff_queue s) ∧ metaOf q "dropped_records" = ff_dropped s
    ∧ ld_sequence (lq_db q) = zlen (ff_queue s) + ff_dropped s + ff_acked s.
Proof.
  intros (s & Hs & [(cs & Hlogs & Hok & Hord & Hcont & Htot & Hb) Hrec Hdrop Hnext Hids Hsign Hsum Hlim Hver])%run_rep.
  exists s. split_and!; try done; [|lia|lia]. rewrite Htot, Hlogs. clear. unfold bytesOf, stored.
  induction cs as [|[k rs] cs IH]; cbn [map foldr]; [done|]. by rewrite IH.
Qed.

(** The delivery cycle makes progress.  In every reachable queue, dropping what
    exceeds the message size and reading a batch of that size gives records
    whenever some are left, within the size, and acknowledging the last of them
    removes exactly that batch: a cycle ends with an empty queue or with fewer
    records. *)
Theorem log_delivery_progress evs q limit max :
  steps logStep newQueue evs q → 0 < max →
  ∃ q1 n, DropOversizedHead q max None = Some (Ok (q1, n))
    ∧ metaOf q1 "total_records" = metaOf q "total_records" - n ∧ 0 ≤ n
    ∧ ∃ batch size, BatchSized jsonValid q1 limit max None = (batch, size, None) ∧ size ≤ max
        ∧ (batch = [] ↔ metaOf q1 "total_records" = 0)
        ∧ ∀ r, last batch = Some r → ∃ q2, Ack q1 (lr_ID r) None = Ok q2
            ∧ metaOf q2 "total_records" = metaOf q1 "total_records" - zlen batch.
Proof.
  intros (s & _ & Hrep)%run_rep Hm. pose proof (sim_drop q s max None Hrep ltac:(lia)) as Hd.
  destruct (DropOversizedHead q max None) as [[[q1 n]|e]|]; [|by destruct Hd|done].
  destruct Hd as (s1 & _ & Hrep1 & Eq & En). rewrite (proj2 (Z.eqb_neq max 0)) in En by lia. exists q1, n.
  pose proof (oversizedHead_le max (ff_queue s)) as Hle. split; [done|].
  assert (zlen (ff_queue s1) = zlen (ff_queue s) - n) as Elen by (rewrite Eq, length_drop; lia).
  rewrite (rp_records _ _ Hrep1), (rp_records _ _ Hrep). split; [done|]. split; [lia|].
  destruct (sim_batch q1 s1 limit max Hrep1 ltac:(lia)) as (m & Hb & Hlong). destruct Hlong as (L1 & L2 & L3 & L4).
  exists (take m (ff_queue s1)), (sumBytes (take m (ff_queue s1))). split; [done|]. split; [by apply L3|].
  assert (ff_queue s1 ≠ [] → (1 ≤ m)%nat) as Hpos.
  { intros Hne. destruct m as [|m]; [exfalso|lia]. pose proof (oversizedHead_drop max (ff_queue s)) as Hhead.
    replace (oversizedHead max (ff_queue s)) with (Z.to_nat n) in Hhead at 1 by lia. rewrite <- Eq in Hhead.
    destruct (ff_queue s1) as [|r rest]; [done|]. cbn [oversizedHead] in Hhead. destruct (recordBytes r <=? max) eqn:E; [|done]. b2p.
    destruct L4 as [L4|[L4|[_ L4]]]; [done|destruct (limit <=? 0) eqn:El; b2p; lia|].
    cbn [take] in L4. change (sumBytes [r]) with (recordBytes r + 0) in L4. rewrite take_0 in L4.
    change (sumBytes [r]) with (recordBytes r + 0) in L4. lia. }
  split.
  { split; intros H.
    - destruct (ff_queue s1) as [|r rest]; [done|]. specialize (Hpos ltac:(done)). destruct m; [lia|done].
    - destruct (ff_queue s1); [by rewrite take_nil|simpl in H; lia]. }
  intros r Hr. destruct (rp_chunks _ _ Hrep1) as (cs & _ & _ & Hord & Hcont & _).
  assert (r ∈ ff_queue s1) as Hin.
  { apply last_Some in Hr as (l & Hl). rewrite <- (take_drop m (ff_queue s1)), Hl. set_solver. }
  assert (1 ≤ lr_ID r < ff_next s1) as Hid by (rewrite <- Hcont in Hin; by eapply contents_ids).
  pose proof (rp_ids _ _ Hrep1). pose proof (sim_ack q1 s1 (lr_ID r) None Hrep1 ltac:(lia)) as Ha.
  destruct (Ack q1 (lr_ID r) None) as [q2|]; [|by destruct Ha]. destruct Ha as (s2 & _ & Hrep2 & Eq2).
  exists q2. split; [done|]. rewrite (rp_records _ _ Hrep2), Eq2. apply last_Some in Hr as (l & Hl).
  assert (StronglySorted (λ a b, lr_ID a < lr_ID b) (ff_queue s1)) as Hsort by (rewrite <- Hcont; by eapply contents_sorted).
  rewrite Hl. assert (ff_queue s1 = (l ++ [r]) ++ drop m (ff_queue s1)) as E by (by rewrite <- Hl, take_drop).
  set (tail := drop m (ff_queue s1)) in E. clearbody tail. rewrite E in Hsort |- *.
  rewrite list.filter_app, (filter_nothing _ (l ++ [r])), (filter_everything _ tail).
  - rewrite !length_app. cbn [length]. lia.
  - intros x Hx. by eapply (StronglySorted_app_1_elem_of _ _ _ r x Hsort); [set_solver|].
  - intros x Hx%elem_of_app. destruct Hx as [Hx|Hx]; [|apply list_elem_of_singleton in Hx as ->; lia].
    apply StronglySorted_app_1_l in Hsort.
    pose proof (StronglySorted_app_1_elem_of _ _ _ x r Hsort Hx ltac:(set_solver)) as Hlt. cbn in Hlt. lia.
Qed.

End Spec.

(** ** A run *)

Module LogDemo.

Definition anyJson (_ : list byte) : bool := true.
Definition demoRecord (at_ : Z) : LogRecord := {|
  lr_ID := 0; lr_Type := [x61]; lr_SiteID := []; lr_ConfigVersion := 7; lr_CreatedAt := at_; lr_Payload := [x7b; x7d] |}.

(** A queue of 80 bytes, in which two records fit: the third drops the oldest
    chunk; then the batch is read and acknowledged. *)
Definition queueAfter (r : result logError (LogQueue * list Z)) : LogQueue :=
  match r with Ok (q, _) => q | Err _ => newQueue 0 end.
Definition two : LogQueue := queueAfter (AppendBatch anyJson (newQueue 80) [demoRecord zeroTime; demoRecord 5] 100 None).
Definition three : LogQueue := queueAfter (AppendBatch anyJson two [demoRecord 9] 101 None).
Definition acked : LogQueue := match Ack three 3 None with Ok q => q | Err _ => newQueue 0 end.
Definition demoEvents : list logEvent :=
  [EvAppend [demoRecord zeroTime; demoRecord 5] 100 None (Some [1; 2]); EvAppend [demoRecord 9] 101 None (Some [3]);
   EvBatch 10 0 None (Some ([setID 3 (demoRecord 9)], 32)); EvAck 3 None true].

Lemma demo_bound : 0 < 80 ≤ 2 ^ 32.
Proof. lia. Qed.

Lemma three_run : steps (logStep anyJson 80) (newQueue 80) (take 2 demoEvents) three.
Proof.
  apply (steps_snoc _ _ [EvAppend [demoRecord zeroTime; demoRecord 5] 100 None (Some [1; 2])] two).
  - apply (steps_snoc _ _ [] (newQueue 80)); [constructor|]. apply LogAppend; [|vm_compute; reflexivity..].
    apply list.Forall_forall. intros r [->|[->|[]%elem_of_nil]%elem_of_cons]%elem_of_cons; by split; vm_compute.
  - apply LogAppend; [|vm_compute; reflexivity..].
    apply list.Forall_forall. intros r [->|[]%elem_of_nil]%elem_of_cons; by split; vm_compute.
Qed.
Lemma demo_log_run : steps (logStep anyJson 80) (newQueue 80) demoEvents acked.
Proof.
  apply (steps_snoc _ _ (take 3 demoEvents) three).
  - apply (steps_snoc _ _ (take 2 demoEvents) three); [exact three_run|]. apply LogBatch; [lia|vm_compute; reflexivity].
  - apply LogAck; [lia|vm_compute; reflexivity].
Qed.

(** Three records: two dropped for the third, which was acknowledged. *)
Lemma log_queue_refines_witness :
  ∃ s, steps (specStep anyJson 80) emptyFifo demoEvents s ∧ ff_queue s = [] ∧ ff_dropped s = 2 ∧ ff_acked s = 1.
Proof.
  destruct (log_queue_refines anyJson 80 demo_bound demoEvents acked demo_log_run) as (s & Hs & _ & _ & Hr & Hd & Hseq).
  change (metaOf acked "total_records") with 0 in Hr. change (metaOf acked "dropped_records") with 2 in Hd.
  change (ld_sequence (lq_db acked)) with 3 in Hseq. exists s. split; [exact Hs|].
  destruct (ff_queue s); [|cbn [length] in Hr; lia]. split; [reflexivity|]. cbn [length] in Hseq. lia.
Defined.

Lemma log_delivery_progress_witness :
  ∃ q1 n, DropOversizedHead three 40 None = Some (Ok (q1, n)) ∧ metaOf q1 "total_records" = 1 - n.
Proof.
  destruct (log_delivery_progress anyJson 80 demo_bound (take 2 demoEvents) three 10 40 three_run) as (q1 & n & Hd & Hr & _); [lia|].
  exists q1, n. split; [exact Hd|]. exact Hr.
Defined.

End LogDemo.
