(* ===== verification/AccessLog.v ===== *)
(** * The access log pipeline ([internal/edgeagent/accesslog.go])

    Access records are put into a ring buffer without waiting for the disk; a
    worker takes batches from the buffer, applies the log policy and appends
    them to the log queue of [LogQueue], retrying until the append succeeds or
    it is cancelled.  The batch the worker holds is a slice of the buffer, so
    the model reads the buffer when the code reads the slice.  Enqueuers, the
    worker and the shutdown interleave between the sections that hold
    [accessMu].  Payloads are copied when a record is enqueued, so they are
    values here; the pool a payload's buffer comes from and goes back to is
    computed from its size.  The decision of the policy about a payload and its
    rewriting ([logpolicy.go]) are parameters.  The last error and the time of
    the last success, which are only shown, are left out. *)
From Stdlib Require Import ZArith Lia Ascii String.
From Stdlib.Strings Require Import Byte.
From stdpp Require Import base numbers list strings gmap sets option.
From S2P Require Import Prelude LogQueue LogQueueTheorems LogQueueSpec.

Local Open Scope Z_scope.

(** ** Configuration *)

Record AccessLogConfig := {
  ac_BufferBytes : Z; ac_BufferRecords : Z; ac_BatchBytes : Z; ac_BatchRecords : Z; ac_FlushInterval : Z;
}.

Definition defaultAccessLogConfig : AccessLogConfig := {|
  ac_BufferBytes := 16 * 2 ^ 20; ac_BufferRecords := 16384; ac_BatchBytes := 2 ^ 20; ac_BatchRecords := 512;
  ac_FlushInterval := 100 * 10 ^ 6 |}.

Definition normalizeAccessLogConfig (config : AccessLogConfig) : AccessLogConfig :=
  let defaults := defaultAccessLogConfig in {|
  ac_BufferBytes := if ac_BufferBytes config =? 0 then ac_BufferBytes defaults else ac_BufferBytes config;
  ac_BufferRecords := if ac_BufferRecords config <=? 0 then ac_BufferRecords defaults else ac_BufferRecords config;
  ac_BatchBytes := if ac_BatchBytes config =? 0 then ac_BatchBytes defaults else ac_BatchBytes config;
  ac_BatchRecords := if ac_BatchRecords config <=? 0 then ac_BatchRecords defaults else ac_BatchRecords config;
  ac_FlushInterval := if ac_FlushInterval config <=? 0 then ac_FlushInterval defaults else ac_FlushInterval config |}.

(** ** The ring buffer *)

Record queuedAccessRecord := { qa_record : LogRecord; qa_sanitized : bool }.

(** The fields of [LogQueue] of the access pipeline; a cleared slot is [None]. *)
Record accessBuffer := AccessBuffer {
  ab_buffer : list (option queuedAccessRecord);
  ab_head : nat;
  ab_count : nat;
  ab_bytes : Z;
  ab_config : AccessLogConfig;
  ab_started : bool;
  ab_accepting : bool;
  ab_memoryDropped : Z;
  ab_reportedDropped : Z;
  ab_batches : Z;
  ab_records : Z;
}.

(** Assignments to the fields. *)
Definition setRing (b : accessBuffer) (buffer : list (option queuedAccessRecord)) (head count : nat) (bytes : Z) : accessBuffer :=
  AccessBuffer buffer head count bytes (ab_config b) (ab_started b) (ab_accepting b) (ab_memoryDropped b)
    (ab_reportedDropped b) (ab_batches b) (ab_records b).
Definition setAccepting (b : accessBuffer) (accepting : bool) : accessBuffer :=
  AccessBuffer (ab_buffer b) (ab_head b) (ab_count b) (ab_bytes b) (ab_config b) (ab_started b) accepting (ab_memoryDropped b)
    (ab_reportedDropped b) (ab_batches b) (ab_records b).
Definition setCounters (b : accessBuffer) (memoryDropped reportedDropped batches records : Z) : accessBuffer :=
  AccessBuffer (ab_buffer b) (ab_head b) (ab_count b) (ab_bytes b) (ab_config b) (ab_started b) (ab_accepting b) memoryDropped
    reportedDropped batches records.

Definition payloadSize (r : queuedAccessRecord) : Z := zlen (lr_Payload (qa_record r)).
Definition slotSize (slot : option queuedAccessRecord) : Z := match slot with Some r => payloadSize r | None => 0 end.

(** [None] when the pipeline was started before. *)
Definition StartAccessPipeline (b : accessBuffer) (config : AccessLogConfig) : option accessBuffer :=
  if ab_started b then None
  else
    let config := normalizeAccessLogConfig config in
    Some (AccessBuffer (replicate (Z.to_nat (ac_BufferRecords config)) None) 0 0 (ab_bytes b) config true true
      (ab_memoryDropped b) (ab_reportedDropped b) (ab_batches b) (ab_records b)).

(** What [enqueueAccess] puts into the buffer at the time [now]. *)
Definition queuedRecord (record : LogRecord) (sanitized : bool) (now : Z) : queuedAccessRecord := {|
  qa_record := {|
    lr_ID := lr_ID record; lr_Type := lr_Type record; lr_SiteID := lr_SiteID record;
    lr_ConfigVersion := lr_ConfigVersion record;
    lr_CreatedAt := if isZeroTime (lr_CreatedAt record) then now else lr_CreatedAt record;
    lr_Payload := lr_Payload record |};
  qa_sanitized := sanitized |}.

Definition enqueueAccess (b : accessBuffer) (record : LogRecord) (sanitized : bool) (now : Z) : accessBuffer * bool :=
  if bool_decide (length (lr_Payload record) = 0%nat) then (b, false)
  else
    let size := zlen (lr_Payload record) in
    if negb (ab_accepting b) || bool_decide (length (ab_buffer b) ≤ ab_count b)%nat
       || (ac_BufferBytes (ab_config b) <? wrap64 (ab_bytes b + size))
    then (setCounters b (wrap64 (ab_memoryDropped b + 1)) (ab_reportedDropped b) (ab_batches b) (ab_records b), false)
    else
      let position := ((ab_head b + ab_count b) mod length (ab_buffer b))%nat in
      (setRing b (<[position := Some (queuedRecord record sanitized now)]> (ab_buffer b)) (ab_head b) (S (ab_count b))
         (wrap64 (ab_bytes b + size)), true).

(** The loop of [peekAccessBatch] over the slots of the batch. *)
Fixpoint peekLimit (batchBytes : Z) (index : nat) (bytes : Z) (slots : list (option queuedAccessRecord)) : nat * Z :=
  match slots with
  | [] => (index, bytes)
  | slot :: rest =>
      let size := slotSize slot in
      if bool_decide (0 < index)%nat && (batchBytes <? wrap64 (bytes + size)) then (index, bytes)
      else peekLimit batchBytes (S index) (wrap64 (bytes + size)) rest
  end.
(** The length of the batch, which starts at the head, and its bytes. *)
Definition peekAccessBatch (b : accessBuffer) : nat * Z :=
  let limit := Nat.min (ab_count b)
    (Nat.min (Z.to_nat (ac_BatchRecords (ab_config b))) (length (ab_buffer b) - ab_head b)) in
  peekLimit (ac_BatchBytes (ab_config b)) 0 0 (take limit (drop (ab_head b) (ab_buffer b))).
Definition batchSlots (b : accessBuffer) (n : nat) : list queuedAccessRecord :=
  omap id (take n (drop (ab_head b) (ab_buffer b))).

Definition accessBatchReady (b : accessBuffer) : bool :=
  (ac_BatchRecords (ab_config b) <=? Z.of_nat (ab_count b)) || (ac_BatchBytes (ab_config b) <=? ab_bytes b).

Definition completeAccessBatch (b : accessBuffer) (records : nat) (bytes : Z) : accessBuffer :=
  setRing b (list_inserts (ab_head b) (replicate records None) (ab_buffer b))
    ((ab_head b + records) mod length (ab_buffer b))%nat (ab_count b - records) (ab_bytes b - Z.min bytes (ab_bytes b)).

(** The number of drops since the last report, which the code logs. *)
Definition reportAccessDrops (b : accessBuffer) : accessBuffer * Z :=
  (setCounters b (ab_memoryDropped b) (ab_memoryDropped b) (ab_batches b) (ab_records b),
   wrap64 (ab_memoryDropped b - ab_reportedDropped b)).

(** The loop of [releaseAccessBuffer], from the slot [index] on. *)
Fixpoint clearSlots (head index todo : nat) (buffer : list (option queuedAccessRecord)) : list (option queuedAccessRecord) :=
  match todo with
  | O => buffer
  | S todo => clearSlots head (S index) todo (<[((head + index) mod length buffer)%nat := None]> buffer)
  end.
Definition releaseAccessBuffer (b : accessBuffer) : accessBuffer :=
  setRing b (clearSlots (ab_head b) 0 (ab_count b) (ab_buffer b)) 0 0 0.

(** ** The pools of payload buffers *)

Definition accessPayloadPools : nat := 7.

(** The loop of [acquireAccessPayload]: the pool of a payload and the capacity
    of its buffers, or [None] for a payload too large to be pooled. *)
Fixpoint acquireFrom (index todo : nat) (len : Z) : option (nat * Z) :=
  match todo with
  | O => None
  | S todo =>
      let size := Z.shiftl 1 (10 + Z.of_nat index) in
      if len <=? size then Some (index, size) else acquireFrom (S index) todo len
  end.
Definition acquireAccessPayload (len : Z) : option (nat * Z) := acquireFrom 0 accessPayloadPools len.

(** The loop that searches the pool; it ends because [size] is at most
    [64 << 10]. *)
Fixpoint releaseIndex (fuel index : nat) (size : Z) : nat :=
  match fuel with
  | O => index
  | S fuel => if Z.shiftl 1 (10 + Z.of_nat index) <? size then releaseIndex fuel (S index) size else index
  end.
(** The pool a buffer of the capacity [size] goes back to. *)
Definition releaseAccessPayload (pooled : bool) (size : Z) : option nat :=
  if negb pooled || (size <? Z.shiftl 1 10) || (Z.shiftl 64 10 <? size) then None
  else
    let index := releaseIndex accessPayloadPools 0 size in
    if bool_decide (index < accessPayloadPools)%nat && (Z.shiftl 1 (10 + Z.of_nat index) =? size) then Some index else None.

(** ** The worker *)

Section Pipeline.
Variable jsonValid : list byte → bool.
Variable maxBytes : Z.
(** [LogPolicy.Keep], and [LogPolicy.Apply]: the rewritten payload, or [None]
    for a record that is not kept. *)
Variable keep : list byte → bool.
Variable apply : list byte → option (list byte).

Definition EnqueueAccess (b : accessBuffer) (record : LogRecord) (now : Z) : accessBuffer * bool :=
  enqueueAccess b record false now.
(** [enabled] is [benchmarkAccessLogs]. *)
Definition EnqueueSanitizedAccess (b : accessBuffer) (enabled : bool) (record : LogRecord) (now : Z) : accessBuffer * bool :=
  if negb enabled then (b, false)
  else if negb (keep (lr_Payload record)) then (b, false)
  else enqueueAccess b record true now.

(** The records of a batch that are kept, rewritten by the policy. *)
Definition processOne (queued : queuedAccessRecord) : option LogRecord :=
  let record := qa_record queued in
  if qa_sanitized queued then Some record
  else match apply (lr_Payload record) with
       | Some payload => Some {|
           lr_ID := lr_ID record; lr_Type := lr_Type record; lr_SiteID := lr_SiteID record;
           lr_ConfigVersion := lr_ConfigVersion record; lr_CreatedAt := lr_CreatedAt record; lr_Payload := payload |}
       | None => None
       end.
Definition process (raw : list queuedAccessRecord) : list LogRecord := omap processOne raw.

(** Where [runAccessPipeline] is; the flag is [shuttingDown]. *)
Inductive workerPhase :=
| Selecting (shuttingDown : bool)
| Peeking (shuttingDown : bool)
| Peeked (shuttingDown : bool) (n : nat) (bytes : Z)
| Persisting (shuttingDown : bool) (n : nat) (bytes : Z) (processed : list LogRecord)
| Persisted (shuttingDown : bool) (n : nat) (bytes : Z)
| Completed (shuttingDown : bool)
| Done.

(** The pipeline, with what was accepted, completed and appended so far and the
    operations on the log queue, the worker's and those of others. *)
Record pipeline := Pipeline {
  pl_buffer : accessBuffer;
  pl_disk : LogQueue;
  pl_worker : workerPhase;
  pl_shutdown : bool;
  pl_cancelled : bool;
  pl_accepted : list queuedAccessRecord;
  pl_completed : list queuedAccessRecord;
  pl_appended : list LogRecord;
  pl_events : list logEvent;
}.

Definition setWorker (p : pipeline) (b : accessBuffer) (w : workerPhase) : pipeline :=
  Pipeline b (pl_disk p) w (pl_shutdown p) (pl_cancelled p) (pl_accepted p) (pl_completed p) (pl_appended p) (pl_events p).

(** A step of an enqueuer, of [ShutdownAccess] and its cancellation, or of
    another user of the log queue.  A payload's length is a Go [int]. *)
Inductive clientStep (p : pipeline) : pipeline → Prop :=
| ClientEnqueue record sanitized now b accepted :
    zlen (lr_Payload record) < 2 ^ 63 → enqueueAccess (pl_buffer p) record sanitized now = (b, accepted) →
    clientStep p (Pipeline b (pl_disk p) (pl_worker p) (pl_shutdown p) (pl_cancelled p)
      (if accepted then pl_accepted p ++ [queuedRecord record sanitized now] else pl_accepted p)
      (pl_completed p) (pl_appended p) (pl_events p))
| ClientShutdown :
    clientStep p (Pipeline (setAccepting (pl_buffer p) false) (pl_disk p) (pl_worker p) true (pl_cancelled p)
      (pl_accepted p) (pl_completed p) (pl_appended p) (pl_events p))
| ClientCancel :
    pl_shutdown p = true →
    clientStep p (Pipeline (pl_buffer p) (pl_disk p) (pl_worker p) true true
      (pl_accepted p) (pl_completed p) (pl_appended p) (pl_events p))
| ClientDisk ev disk :
    logStep jsonValid maxBytes (pl_disk p) ev disk →
    clientStep p (Pipeline (pl_buffer p) disk (pl_worker p) (pl_shutdown p) (pl_cancelled p)
      (pl_accepted p) (pl_completed p) (pl_appended p) (pl_events p ++ [ev])).

(** A step of [runAccessPipeline]: the [select], [peekAccessBatch], the two
    parts of [persistAccessBatch], [completeAccessBatch], and the end of the
    inner loop. *)
Inductive workerStep (p : pipeline) : pipeline → Prop :=
| WorkerWake : pl_worker p = Selecting false → workerStep p (setWorker p (pl_buffer p) (Peeking false))
| WorkerReport :
    pl_worker p = Selecting false → workerStep p (setWorker p (reportAccessDrops (pl_buffer p)).1 (Peeking false))
| WorkerShutdown :
    pl_worker p = Selecting false → pl_shutdown p = true → workerStep p (setWorker p (pl_buffer p) (Peeking true))
| WorkerSkip : pl_worker p = Selecting true → workerStep p (setWorker p (pl_buffer p) (Peeking true))
| WorkerCancelled :
    pl_worker p = Selecting false → pl_cancelled p = true → workerStep p (setWorker p (pl_buffer p) Done)
| WorkerPeek sd n bytes :
    pl_worker p = Peeking sd → peekAccessBatch (pl_buffer p) = (n, bytes) →
    workerStep p (setWorker p (pl_buffer p)
      (if bool_decide (n = 0%nat) then (if sd then Done else Selecting sd) else Peeked sd n bytes))
| WorkerProcess sd n bytes :
    pl_worker p = Peeked sd n bytes →
    let processed := process (batchSlots (pl_buffer p) n) in
    workerStep p (setWorker p (pl_buffer p)
      (if bool_decide (length processed = 0%nat) then Persisted sd n bytes else Persisting sd n bytes processed))
| WorkerPersist sd n bytes processed now fault disk ids :
    pl_worker p = Persisting sd n bytes processed →
    logStep jsonValid maxBytes (pl_disk p) (EvAppend processed now fault (Some ids)) disk →
    workerStep p (Pipeline
      (let b := pl_buffer p in
       setCounters b (ab_memoryDropped b) (ab_reportedDropped b) (wrap64 (ab_batches b + 1)) (wrap64 (ab_records b + zlen ids)))
      disk (Persisted sd n bytes) (pl_shutdown p) (pl_cancelled p) (pl_accepted p) (pl_completed p)
      (pl_appended p ++ processed) (pl_events p ++ [EvAppend processed now fault (Some ids)]))
| WorkerRetry sd n bytes processed now fault :
    pl_worker p = Persisting sd n bytes processed →
    logStep jsonValid maxBytes (pl_disk p) (EvAppend processed now fault None) (pl_disk p) →
    workerStep p p
| WorkerGiveUp sd n bytes processed now fault :
    pl_worker p = Persisting sd n bytes processed →
    logStep jsonValid maxBytes (pl_disk p) (EvAppend processed now fault None) (pl_disk p) →
    pl_cancelled p = true → workerStep p (setWorker p (pl_buffer p) Done)
| WorkerComplete sd n bytes :
    pl_worker p = Persisted sd n bytes →
    workerStep p (Pipeline (completeAccessBatch (pl_buffer p) n bytes) (pl_disk p) (Completed sd) (pl_shutdown p)
      (pl_cancelled p) (pl_accepted p) (pl_completed p ++ batchSlots (pl_buffer p) n) (pl_appended p) (pl_events p))
| WorkerNext sd :
    pl_worker p = Completed sd →
    workerStep p (setWorker p (pl_buffer p)
      (if negb sd && negb (accessBatchReady (pl_buffer p)) then Selecting sd else Peeking sd)).

End Pipeline.
