(* ===== verification/AccessLogTheorems.v ===== *)
(** * Theorems on the access log pipeline

    The ring buffer holds the accepted records that are not completed yet, in
    order, from its head on; the worker's batch stays the first of them while
    records are enqueued; what reaches the log queue is the policy applied to
    the accepted records, in order and once; a shutdown drains the buffer. *)
From Stdlib Require Import ZArith Lia Ascii String.
From Stdlib.Strings Require Import Byte.
From stdpp Require Import base numbers list strings gmap sets option relations.
From S2P Require Import Prelude LogQueue LogQueueTheorems LogQueueSpec AccessLog.

Local Open Scope Z_scope.

(** ** The ring *)

Definition sumSizes (l : list queuedAccessRecord) : Z := foldr (λ r n, payloadSize r + n) 0 l.

Lemma sumSizes_app l1 l2 : sumSizes (l1 ++ l2) = sumSizes l1 + sumSizes l2.
Proof. unfold sumSizes. induction l1 as [|r l1 IH]; cbn [app foldr]; [done|]. rewrite IH. lia. Qed.
Lemma sumSizes_pos l : 0 ≤ sumSizes l.
Proof. unfold sumSizes. induction l as [|r l IH]; cbn [foldr]; unfold payloadSize in *; lia. Qed.
Lemma sumSizes_take n l : sumSizes (take n l) ≤ sumSizes l.
Proof. rewrite <- (take_drop n l) at 2. rewrite sumSizes_app. pose proof (sumSizes_pos (drop n l)). lia. Qed.

(** What the widths of Go's types and the size of memory say of a
    configuration. *)
Definition configOk (c : AccessLogConfig) : Prop :=
  0 < ac_BufferBytes c ≤ 2 ^ 63 ∧ 0 < ac_BufferRecords c ∧ 0 < ac_BatchBytes c < 2 ^ 64 ∧ 0 < ac_BatchRecords c.

(** Every value that is not positive is replaced by its default. *)
Lemma normalize_ok config : 0 ≤ ac_BufferBytes config ≤ 2 ^ 63 → 0 ≤ ac_BatchBytes config < 2 ^ 64 →
  configOk (normalizeAccessLogConfig config).
Proof.
  intros H1 H2. unfold configOk, normalizeAccessLogConfig. cbn [ac_BufferBytes ac_BufferRecords ac_BatchBytes ac_BatchRecords].
  repeat (case_match; b2p); cbn; lia.
Qed.

(** The buffer holds the records [l]. *)
Record ringOk (b : accessBuffer) (l : list queuedAccessRecord) : Prop := {
  ro_count : ab_count b = length l;
  ro_head : (ab_head b < length (ab_buffer b))%nat;
  ro_slots : drop (ab_head b) (ab_buffer b) ++ take (ab_head b) (ab_buffer b)
    = (Some <$> l) ++ replicate (length (ab_buffer b) - length l) None;
  ro_bytes : ab_bytes b = sumSizes l;
  ro_limit : sumSizes l ≤ ac_BufferBytes (ab_config b);
  ro_config : configOk (ab_config b);
  ro_size : length (ab_buffer b) = Z.to_nat (ac_BufferRecords (ab_config b));
}.

Lemma ring_length b l : ringOk b l → (length l ≤ length (ab_buffer b))%nat.
Proof.
  intros H. pose proof (f_equal length (ro_slots _ _ H)) as E.
  rewrite !length_app, length_drop, length_take, length_fmap, length_replicate in E. pose proof (ro_head _ _ H). lia.
Qed.

(** Writing a slot of the ring writes the list read from the head. *)
Lemma ring_insert {A} (buf : list A) h i x : (h < length buf)%nat → (i < length buf)%nat →
  drop h (<[((h + i) mod length buf)%nat := x]> buf) ++ take h (<[((h + i) mod length buf)%nat := x]> buf)
  = <[i := x]> (drop h buf ++ take h buf).
Proof.
  intros Hh Hi. destruct (decide (h + i < length buf)%nat) as [Hlt|Hge].
  - rewrite Nat.mod_small by lia. rewrite take_insert_ge by lia.
    rewrite insert_app_l by (rewrite length_drop; lia). f_equal.
    rewrite drop_insert_ge by lia. f_equal. lia.
  - assert ((h + i) mod length buf = h + i - length buf)%nat as ->.
    { symmetry. apply (Nat.mod_unique _ _ 1); lia. }
    rewrite drop_insert_lt by lia. rewrite insert_app_r_alt by (rewrite length_drop; lia). f_equal.
    rewrite take_insert_lt by lia. f_equal. rewrite length_drop. lia.
Qed.

Lemma enqueue_ring b l record sanitized now b' ok :
  ringOk b l → zlen (lr_Payload record) < 2 ^ 63 → enqueueAccess b record sanitized now = (b', ok) →
  ringOk b' (if ok then l ++ [queuedRecord record sanitized now] else l)
  ∧ ab_accepting b' = ab_accepting b ∧ ab_config b' = ab_config b ∧ (ok = true → ab_accepting b = true)
  ∧ ab_head b' = ab_head b ∧ length (ab_buffer b') = length (ab_buffer b).
Proof.
  intros H Hlen. pose proof (ring_length _ _ H) as Hl. destruct H as [Hc Hh Hs Hb Hlim Hcfg Hsz].
  unfold enqueueAccess. case_bool_decide as E0; [intros [= <- <-]; by split_and!|].
  destruct (negb (ab_accepting b) || _ || _) eqn:E; intros [= <- <-].
  { split_and!; try done. }
  apply orb_false_iff in E as [[E1 E2]%orb_false_iff E3]. apply bool_decide_eq_false in E2. b2p.
  destruct Hcfg as (Hbuf & Hcfg). pose proof (sumSizes_pos l). rewrite wrap64_small in E3 by lia.
  cbn [setRing ab_accepting ab_config ab_head ab_buffer]. rewrite length_insert. split_and!; try done.
  split; cbn [setRing ab_count ab_head ab_buffer ab_bytes ab_config]; rewrite ?length_insert, ?length_app, ?sumSizes_app; cbn [length]; try done; try lia.
  - rewrite ring_insert by lia. rewrite Hs, Hc.
    rewrite insert_app_r_alt by (by rewrite length_fmap). rewrite length_fmap, Nat.sub_diag, fmap_app, <- app_assoc. f_equal.
    replace (length (ab_buffer b) - length l)%nat with (S (length (ab_buffer b) - (length l + 1))) by lia. done.
  - rewrite wrap64_small by lia. rewrite Hb. cbn. unfold payloadSize. cbn. lia.
  - cbn. unfold payloadSize. cbn. lia.
Qed.

(** The loop of [peekAccessBatch] takes the longest prefix within the limits,
    but at least one record. *)
Lemma peek_limit batch slots : ∀ index bytes, 0 ≤ bytes → bytes + sumSizes slots < 2 ^ 64 →
  ∃ k, peekLimit batch index bytes (Some <$> slots) = ((index + k)%nat, bytes + sumSizes (take k slots))
    ∧ (k ≤ length slots)%nat ∧ (index = 0%nat → slots ≠ [] → 0 < k)%nat
    ∧ (bytes + sumSizes (take k slots) ≤ batch ∨ k = 0%nat ∨ (index = 0 ∧ k = 1)%nat).
Proof.
  induction slots as [|r slots IH]; intros index bytes Hb Hsum; cbn [fmap list_fmap peekLimit].
  { exists 0%nat. rewrite Nat.add_0_r. cbn. rewrite Z.add_0_r. split_and!; auto; done. }
  cbn [slotSize]. change (sumSizes (r :: slots)) with (payloadSize r + sumSizes slots) in Hsum.
  assert (0 ≤ payloadSize r) by (unfold payloadSize; lia). pose proof (sumSizes_pos slots).
  rewrite wrap64_small by lia. destruct (bool_decide (0 < index)%nat && _) eqn:E.
  { apply andb_true_iff in E as [E%bool_decide_eq_true _]. exists 0%nat. rewrite Nat.add_0_r. cbn. rewrite Z.add_0_r.
    split_and!; auto; lia. }
  destruct (IH (S index) (bytes + payloadSize r)) as (k & Hk & Hle & _ & Hfit); [lia|lia|].
  exists (S k). rewrite Hk. cbn [take]. change (sumSizes (r :: take k slots)) with (payloadSize r + sumSizes (take k slots)).
  split; [f_equal; lia|]. cbn [length]. split_and!; [lia|lia|].
  destruct Hfit as [Hfit|[->|[? _]]]; [left; lia| |lia].
  apply andb_false_iff in E as [E%bool_decide_eq_false|E]; [right; right; lia|left; b2p]. rewrite take_0. change (sumSizes []) with 0. lia.
Qed.

(** The slots from the head on are the first records of the ring. *)
Lemma ring_front b l n : ringOk b l → (n ≤ length l)%nat → (ab_head b + n ≤ length (ab_buffer b))%nat →
  take n (drop (ab_head b) (ab_buffer b)) = Some <$> take n l.
Proof.
  intros H Hn Hfit. pose proof (f_equal (take n) (ro_slots _ _ H)) as E.
  rewrite !take_app_le in E by (rewrite ?length_drop, ?length_fmap; lia). by rewrite E, fmap_take.
Qed.

Lemma omap_Some {A} (l : list A) : omap id (Some <$> l) = l.
Proof. induction l as [|x l IH]; cbn; [done|]. f_equal. exact IH. Qed.
Lemma batch_slots b l n : ringOk b l → (n ≤ length l)%nat → (ab_head b + n ≤ length (ab_buffer b))%nat →
  batchSlots b n = take n l.
Proof. intros H Hn Hfit. unfold batchSlots. rewrite (ring_front b l n) by done. apply omap_Some. Qed.

(** The batch the worker holds: the first [n] records of the buffer. *)
Definition batchOk (b : accessBuffer) (l : list queuedAccessRecord) (n : nat) (bytes : Z) : Prop :=
  (0 < n ≤ length l)%nat ∧ (ab_head b + n ≤ length (ab_buffer b))%nat ∧ bytes = sumSizes (take n l)
  ∧ Z.of_nat n ≤ ac_BatchRecords (ab_config b) ∧ (bytes ≤ ac_BatchBytes (ab_config b) ∨ n = 1%nat).

Lemma peek_ring b l n bytes : ringOk b l → peekAccessBatch b = (n, bytes) →
  if bool_decide (n = 0%nat) then l = [] else batchOk b l n bytes.
Proof.
  intros H. unfold peekAccessBatch. destruct (ro_config _ _ H) as (H1 & H2 & H3 & H4).
  rewrite (ro_count _ _ H). set (limit := (length l `min` _)%nat). pose proof (ro_head _ _ H).
  rewrite (ring_front b l limit) by (done || lia).
  destruct (peek_limit (ac_BatchBytes (ab_config b)) (take limit l) 0 0) as (k & -> & Hk & Hpos & Hfit); [done| |].
  { pose proof (sumSizes_take limit l). pose proof (ro_limit _ _ H). lia. }
  intros [= <- <-]. rewrite length_take in Hk. cbn [Nat.add]. case_bool_decide as E.
  - destruct l as [|r l]; [done|]. exfalso. destruct limit eqn:El; [cbn [length] in *; lia|].
    specialize (Hpos eq_refl ltac:(done)). lia.
  - rewrite take_take in *. replace (k `min` limit)%nat with k in * by lia. rewrite Z.add_0_l in *.
    split_and!; (done || lia).
Qed.

Lemma complete_ring b l n bytes : ringOk b l → batchOk b l n bytes → ringOk (completeAccessBatch b n bytes) (drop n l).
Proof.
  intros H (Hn & Hfit & -> & _). pose proof (ring_length _ _ H) as Hlen.
  pose proof (ring_front b l n H ltac:(lia) Hfit) as Hfront. destruct H as [Hc Hh Hs Hb Hlim Hcfg Hsz].
  assert (list_inserts (ab_head b) (replicate n None) (ab_buffer b)
    = take (ab_head b) (ab_buffer b) ++ replicate n None ++ drop (ab_head b + n) (ab_buffer b)) as E.
  { pose proof (list_inserts_app_r (replicate n None) (take (ab_head b) (ab_buffer b)) (drop (ab_head b) (ab_buffer b)) 0) as E.
    rewrite take_drop, length_take, Nat.add_0_r, Nat.min_l in E by lia. rewrite E. f_equal.
    rewrite <- (take_drop n (drop (ab_head b) (ab_buffer b))) at 1. rewrite drop_drop. apply list_inserts_0_r.
    rewrite length_replicate, length_take, length_drop. lia. }
  assert (drop (ab_head b + n) (ab_buffer b) ++ take (ab_head b) (ab_buffer b)
    = (Some <$> drop n l) ++ replicate (length (ab_buffer b) - length l) None) as Erest.
  { pose proof (f_equal (drop n) Hs) as Ed. rewrite !drop_app_le in Ed by (rewrite ?length_drop, ?length_fmap; lia).
    by rewrite drop_drop, <- fmap_drop in Ed. }
  unfold completeAccessBatch. rewrite E. split; cbn [setRing ab_count ab_head ab_buffer ab_bytes ab_config]; try done;
    rewrite ?length_app, ?length_replicate, ?length_take, ?length_drop, ?Nat.min_l by lia; try lia.
  - pose proof (Nat.mod_upper_bound (ab_head b + n) (length (ab_buffer b))). lia.
  - replace (ab_head b + (n + (length (ab_buffer b) - (ab_head b + n))))%nat with (length (ab_buffer b)) by lia.
    replace (length (ab_buffer b) - (length l - n))%nat with ((length (ab_buffer b) - length l) + n)%nat by lia.
    rewrite replicate_add, (app_assoc (Some <$> _)), <- Erest. clear Erest E Hfront Hs.
    destruct (decide (ab_head b + n = length (ab_buffer b))%nat) as [Ee|Ene].
    + rewrite Ee, Nat.Div0.mod_same, drop_all, drop_0, take_0, !app_nil_r. done.
    + rewrite Nat.mod_small by lia.
      rewrite (app_assoc (take _ _)), drop_app_length', take_app_length', app_assoc; [done|..]; rewrite length_app, length_take, length_replicate; lia.
  - rewrite <- (take_drop n l), sumSizes_app in Hb. pose proof (sumSizes_pos (drop n l)). lia.
  - rewrite <- (take_drop n l), sumSizes_app in Hlim. pose proof (sumSizes_pos (take n l)). lia.
Qed.

(** The pools: a buffer goes back to the pool it came from. *)
Lemma acquire_from len : ∀ todo index i size, acquireFrom index todo len = Some (i, size) →
  (index ≤ i < index + todo)%nat ∧ size = 2 ^ (10 + Z.of_nat i) ∧ len ≤ size.
Proof.
  induction todo as [|todo IH]; intros index i size; cbn [acquireFrom]; [done|].
  rewrite Z.shiftl_1_l. destruct (len <=? _) eqn:E.
  - intros [= <- <-]. b2p. split_and!; (done || lia).
  - intros (H1 & H2 & H3)%IH. split_and!; (done || lia).
Qed.
Lemma release_index i : ∀ fuel index, (index ≤ i < index + fuel)%nat → releaseIndex fuel index (2 ^ (10 + Z.of_nat i)) = i.
Proof.
  induction fuel as [|fuel IH]; intros index H; [lia|]. cbn [releaseIndex]. rewrite Z.shiftl_1_l.
  destruct (_ <? _) eqn:E; b2p.
  - apply Z.pow_lt_mono_r_iff in E; [|lia|lia]. apply IH. lia.
  - apply Z.pow_le_mono_r_iff in E; [|lia|lia]. lia.
Qed.
Lemma release_acquired len i size : acquireAccessPayload len = Some (i, size) → releaseAccessPayload true size = Some i.
Proof.
  intros (Hi & -> & _)%acquire_from. change accessPayloadPools with 7%nat in Hi. unfold releaseAccessPayload.
  rewrite release_index by (change accessPayloadPools with 7%nat; lia). rewrite !Z.shiftl_1_l.
  rewrite (bool_decide_eq_true_2 (i < accessPayloadPools)%nat), Z.eqb_refl by (change accessPayloadPools with 7%nat; lia).
  pose proof (Z.pow_le_mono_r 2 10 (10 + Z.of_nat i) ltac:(lia) ltac:(lia)).
  pose proof (Z.pow_le_mono_r 2 (10 + Z.of_nat i) 16 ltac:(lia) ltac:(lia)).
  change (Z.shiftl 64 10) with (2 ^ 16). rewrite (proj2 (Z.ltb_ge _ _)), (proj2 (Z.ltb_ge _ _)) by lia. done.
Qed.

(** ** The pipeline *)

Section Pipeline.
Variable jsonValid : list byte → bool.
Context (maxBytes : Z) (Hmax : 0 < maxBytes ≤ 2 ^ 32).
Variable apply : list byte → option (list byte).

Notation process := (process apply).
Notation clientStep := (clientStep jsonValid maxBytes).
Notation workerStep := (workerStep jsonValid maxBytes apply).

(** A pipeline just started, after [dropped] records were refused. *)
Inductive started : pipeline → Prop :=
| Started config0 config dropped b :
    StartAccessPipeline (AccessBuffer [] 0 0 0 config0 false false dropped 0 0 0) config = Some b →
    0 ≤ ac_BufferBytes config ≤ 2 ^ 63 → 0 ≤ ac_BatchBytes config < 2 ^ 64 →
    started (Pipeline b (newQueue maxBytes) (Selecting false) false false [] [] [] []).

Inductive reachable : pipeline → Prop :=
| reach_start p : started p → reachable p
| reach_client p p' : reachable p → clientStep p p' → reachable p'
| reach_worker p p' : reachable p → workerStep p p' → reachable p'.

(** The records of the worker's batch that were already appended. *)
Definition inFlight (w : workerPhase) (l : list queuedAccessRecord) : list queuedAccessRecord :=
  match w with Persisted _ n _ => take n l | _ => [] end.

Definition phaseOk (p : pipeline) (l : list queuedAccessRecord) : Prop :=
  match pl_worker p with
  | Peeked _ n bytes | Persisted _ n bytes => batchOk (pl_buffer p) l n bytes
  | Persisting _ n bytes processed => batchOk (pl_buffer p) l n bytes ∧ processed = process (take n l)
  | Done => pl_cancelled p = false → l = []
  | _ => True
  end.
Definition draining (w : workerPhase) : bool :=
  match w with
  | Selecting sd | Peeking sd | Peeked sd _ _ | Persisting sd _ _ _ | Persisted sd _ _ | Completed sd => sd
  | Done => true
  end.

Record inv (p : pipeline) (l : list queuedAccessRecord) : Prop := {
  in_ring : ringOk (pl_buffer p) l;
  in_fifo : pl_accepted p = pl_completed p ++ l;
  in_appended : pl_appended p = process (pl_completed p ++ inFlight (pl_worker p) l);
  in_phase : phaseOk p l;
  in_shutdown : pl_shutdown p = true → ab_accepting (pl_buffer p) = false;
  in_draining : draining (pl_worker p) = true → pl_shutdown p = true;
  in_cancelled : pl_cancelled p = true → pl_shutdown p = true;
  in_disk : steps (logStep jsonValid maxBytes) (newQueue maxBytes) (pl_events p) (pl_disk p);
}.

Ltac pcbn := cbn [pl_buffer pl_disk pl_worker pl_shutdown pl_cancelled pl_accepted pl_completed pl_appended pl_events setWorker].

Lemma process_app l1 l2 : process (l1 ++ l2) = process l1 ++ process l2.
Proof. apply omap_app. Qed.

(** The batch does not change while a record is appended to the buffer. *)
Lemma batch_enqueue b b' l r n bytes : batchOk b l n bytes → ab_head b' = ab_head b → ab_config b' = ab_config b →
  length (ab_buffer b') = length (ab_buffer b) → batchOk b' (l ++ r) n bytes ∧ take n (l ++ r) = take n l.
Proof.
  intros (H1 & H2 & -> & H4 & H5) Hh Hc Hl. assert (take n (l ++ r) = take n l) as E by (apply take_app_le; lia).
  unfold batchOk. rewrite E, Hh, Hc, Hl, length_app. split_and!; (done || lia).
Qed.

Lemma inv_client p p' l : inv p l → clientStep p p' → ∃ l', inv p' l'.
Proof.
  intros [Hr Hf Ha Hp Hs Hd Hc Hq]. destruct 1 as [record sanitized now b ok Hlen He| |Hsd|ev disk Hstep].
  - destruct (enqueue_ring _ _ _ _ _ _ _ Hr Hlen He) as (Hr' & Hacc & Hcfg & Hok & Hhd & Hbl).
    set (r := if ok then [queuedRecord record sanitized now] else []).
    assert ((if ok then l ++ [queuedRecord record sanitized now] else l) = l ++ r) as El.
    { unfold r. destruct ok; [done|by rewrite app_nil_r]. }
    rewrite El in Hr'. exists (l ++ r).
    assert (inFlight (pl_worker p) (l ++ r) = inFlight (pl_worker p) l) as Efl.
    { unfold phaseOk in Hp. destruct (pl_worker p); cbn [inFlight]; try done. by eapply batch_enqueue. }
    split; pcbn; try done; [|by rewrite Efl| |by rewrite Hacc].
    + unfold r. destruct ok; [by rewrite Hf, app_assoc|by rewrite Hf, app_nil_r].
    + unfold phaseOk in *. pcbn. destruct (pl_worker p) as [| | | | | |] eqn:Ew; try done.
      * by eapply batch_enqueue.
      * destruct Hp as [Hb ->]. destruct (batch_enqueue _ b _ r _ _ Hb Hhd Hcfg Hbl) as [H ->]. by split.
      * by eapply batch_enqueue.
      * intros Hnc. unfold r. destruct ok; [|by rewrite Hp]. exfalso.
        specialize (Hs (Hd eq_refl)). specialize (Hok eq_refl). congruence.
  - exists l. split; pcbn; try done. by destruct Hr.
  - exists l. split; pcbn; try done; [|auto]. unfold phaseOk in *. cbn. by destruct (pl_worker p).
  - exists l. split; pcbn; try done. by econstructor.
Qed.

(** The records that wait after a step of the worker. *)
Definition afterStep (w : workerPhase) (l : list queuedAccessRecord) : list queuedAccessRecord :=
  match w with Persisted _ n _ => drop n l | _ => l end.

Lemma inv_worker p p' l : inv p l → workerStep p p' → inv p' (afterStep (pl_worker p) l).
Proof.
  intros [Hr Hf Ha Hp Hs Hd Hc Hq]. unfold phaseOk in Hp.
  destruct 1 as [Hw|Hw|Hw Hsd|Hw|Hw Hcn|sd n bytes Hw Hpk|sd n bytes Hw processed|sd n bytes processed now fault disk ids Hw Hst
    |sd n bytes processed now fault Hw _|sd n bytes processed now fault Hw _ Hcn|sd n bytes Hw|sd Hw];
    rewrite Hw in Ha, Hp, Hd |- *; cbn [inFlight draining afterStep] in *; try (split; pcbn; done).
  - split; pcbn; try done. by destruct Hr.
  - split; pcbn; try done; [|auto]. unfold phaseOk. pcbn. congruence.
  - pose proof (peek_ring _ _ _ _ Hr Hpk) as Hb.
    split; pcbn; try done; unfold phaseOk; case_bool_decide; destruct sd; try done; intros _; auto.
  - destruct Hp as (Hn & Hfit & Hp).
    assert (processed = process (take n l)) as E by (unfold processed; rewrite (batch_slots _ l) by (done || lia); done).
    case_bool_decide as E0; split; pcbn; try done. cbn [inFlight].
    rewrite process_app, <- E. by rewrite (nil_length_inv _ E0), app_nil_r, Ha, app_nil_r.
  - destruct Hp as [Hb ->]. split; pcbn; try done; [by destruct Hr| |by econstructor].
    cbn [inFlight]. by rewrite Ha, app_nil_r, process_app.
  - split; pcbn; try done; [by rewrite Hw|unfold phaseOk; by rewrite Hw|by rewrite Hw].
  - split; pcbn; try done; [|auto]. unfold phaseOk. pcbn. congruence.
  - pose proof Hp as (Hn & Hfit & _). rewrite (batch_slots _ l) by (done || lia). split; pcbn; try done.
    + by apply complete_ring.
    + by rewrite <- app_assoc, take_drop.
    + cbn [inFlight]. by rewrite app_nil_r.
  - split; pcbn; try done; destruct (negb sd && _); try done; by destruct sd.
Qed.

Lemma reachable_inv p : reachable p → ∃ l, inv p l.
Proof.
  induction 1 as [p [config0 config dropped b Hb Hc1 Hc2]|p p' _ [l IH] H|p p' _ [l IH] H];
    [|by eapply inv_client|eexists; by eapply inv_worker].
  unfold StartAccessPipeline in Hb. cbn [ab_started ab_bytes] in Hb.
  pose proof (normalize_ok config Hc1 Hc2) as Hcfg. set (c := normalizeAccessLogConfig config) in *. clearbody c.
  injection Hb as <-. pose proof Hcfg as (H1 & H2 & H3 & H4). exists [].
  split; pcbn; try done; [|constructor]. split; cbn [ab_count ab_head ab_buffer ab_bytes ab_config]; rewrite ?length_replicate; try done.
  - lia.
  - rewrite drop_0, take_0, app_nil_r. cbn. by rewrite Nat.sub_0_r.
  - cbn; lia.
Qed.

(** ** Draining *)

(** A record the log queue takes. *)
Definition deliverable (r : LogRecord) : Prop := acceptable jsonValid maxBytes r ∧ typed 0 r.

Record drainable (p : pipeline) (l : list queuedAccessRecord) : Prop := {
  dr_inv : inv p l;
  dr_shutdown : pl_shutdown p = true;
  dr_records : Forall deliverable (process l);
  dr_ids : ld_sequence (lq_db (pl_disk p)) + (zlen l - zlen (inFlight (pl_worker p) l)) < 2 ^ 63;
}.

(** The chosen steps of the worker decrease this. *)
Definition remaining (w : workerPhase) (l : list queuedAccessRecord) : nat :=
  (10 * length l + match w with
    | Done => 0 | Persisted _ _ _ => 1 | Persisting _ _ _ _ => 2 | Peeked _ _ _ => 3
    | Peeking true => 4 | Selecting _ => 5 | Peeking false => 6 | Completed _ => 7 end)%nat.

Lemma process_length l : (length (process l) ≤ length l)%nat.
Proof. unfold AccessLog.process. induction l as [|r l IH]; cbn; [done|]. destruct (processOne apply r); cbn; lia. Qed.

Lemma deliverable_split n l : Forall deliverable (process l) →
  Forall deliverable (process (take n l)) ∧ Forall deliverable (process (drop n l)).
Proof. intros H. apply Forall_app. by rewrite <- process_app, take_drop. Qed.

(** An append of deliverable records succeeds and numbers them. *)
Lemma append_deliverable evs q records :
  steps (logStep jsonValid maxBytes) (newQueue maxBytes) evs q → Forall deliverable records →
  ld_sequence (lq_db q) + zlen records < 2 ^ 63 →
  ∃ q' ids, logStep jsonValid maxBytes q (EvAppend records 0 None (Some ids)) q'
    ∧ ld_sequence (lq_db q') = ld_sequence (lq_db q) + zlen records.
Proof.
  intros (s & _ & Hrep)%(run_rep jsonValid maxBytes Hmax) Hd Hseq. apply list.Forall_and in Hd as [Hacc Hty].
  pose proof (sim_append jsonValid maxBytes Hmax q s records 0 None Hrep Hty Hseq) as H.
  destruct (AppendBatch jsonValid q records 0 None) as [[q' ids]|e] eqn:E.
  - destruct H as (s' & Hst & Hrep'). exists q', ids. split; [by apply LogAppend|].
    pose proof (rp_next _ _ _ _ Hrep). pose proof (rp_next _ _ _ _ Hrep'). inversion Hst; subst. cbn in *. lia.
  - inversion H as [| ? ? ? Hbad | | | | | | |]; subst. destruct Hbad as [[? ?]|Hbad]; done.
Qed.

(** A successful append takes as many identifiers as it has records. *)
Lemma append_sequence evs q records now fault ids q' :
  steps (logStep jsonValid maxBytes) (newQueue maxBytes) evs q → logStep jsonValid maxBytes q (EvAppend records now fault (Some ids)) q' →
  ld_sequence (lq_db q') = ld_sequence (lq_db q) + zlen records.
Proof.
  intros (s & _ & Hrep)%(run_rep jsonValid maxBytes Hmax) Hst. inversion Hst as [? ? ? ? ? Hty Hseq E| | | | | | | |]; subst.
  pose proof (sim_append jsonValid maxBytes Hmax q s records now fault Hrep Hty Hseq) as H. rewrite E in H. destruct H as (s' & Hsp & Hrep').
  pose proof (rp_next _ _ _ _ Hrep). pose proof (rp_next _ _ _ _ Hrep'). inversion Hsp; subst. cbn in *. lia.
Qed.
(** Whatever the worker does, a pipeline that can be drained stays so. *)
Lemma drainable_step p p' l : drainable p l → pl_cancelled p = false → workerStep p p' →
  drainable p' (afterStep (pl_worker p) l) ∧ pl_accepted p' = pl_accepted p ∧ pl_cancelled p' = false.
Proof.
  intros [Hi Hsd Hrec Hids] Hcn Hst. split; [|by destruct Hst]. split; [by eapply inv_worker|by destruct Hst| |].
  { destruct (pl_worker p); cbn [afterStep]; try done. by apply (deliverable_split n l). }
  pose proof (in_phase _ _ Hi) as Hph. unfold phaseOk in Hph.
  destruct Hst as [Hw|Hw|Hw Hx|Hw|Hw Hx|sd n bytes Hw Hpk|sd n bytes Hw processed|sd n bytes processed now fault disk ids Hw Hst
    |sd n bytes processed now fault Hw _|sd n bytes processed now fault Hw _ Hx|sd n bytes Hw|sd Hw];
    try congruence; pcbn; rewrite Hw in *; cbn [inFlight afterStep length] in *; try lia.
  - destruct Hph as [(Hn & _) ->]. rewrite (append_sequence _ _ _ _ _ _ _ (in_disk _ _ Hi) Hst). pose proof (process_length (take n l)). rewrite !length_take in *. lia.
  - destruct Hph as (Hn & _). rewrite length_drop, length_take in *. lia.
Qed.
Lemma drainable_run p p' l : rtc workerStep p p' → drainable p l → pl_cancelled p = false →
  ∃ l', drainable p' l' ∧ pl_accepted p' = pl_accepted p ∧ pl_cancelled p' = false.
Proof.
  intros Hrun. revert l. induction Hrun as [p|p p1 p' Hst _ IH]; intros l Hd Hcn; [by exists l|].
  destruct (drainable_step p p1 l Hd Hcn Hst) as (Hd1 & Hacc & Hcn1). destruct (IH _ Hd1 Hcn1) as (l' & Hd' & Hacc' & Hcn'). exists l'. split_and!; try done. congruence.
Qed.

(** The step the worker takes when it need not wait. *)
Lemma drain_step p l : drainable p l → pl_worker p ≠ Done →
  ∃ p', workerStep p p' ∧ pl_accepted p' = pl_accepted p ∧ drainable p' (afterStep (pl_worker p) l)
    ∧ (remaining (pl_worker p') (afterStep (pl_worker p) l) < remaining (pl_worker p) l)%nat.
Proof.
  intros [Hi Hsd Hrec Hids] Hnd.
  assert (∀ p', workerStep p p' → pl_accepted p' = pl_accepted p → pl_shutdown p' = true →
    ld_sequence (lq_db (pl_disk p')) + (zlen (afterStep (pl_worker p) l) - zlen (inFlight (pl_worker p') (afterStep (pl_worker p) l))) < 2 ^ 63 →
    (remaining (pl_worker p') (afterStep (pl_worker p) l) < remaining (pl_worker p) l)%nat →
    ∃ p', workerStep p p' ∧ pl_accepted p' = pl_accepted p ∧ drainable p' (afterStep (pl_worker p) l)
      ∧ (remaining (pl_worker p') (afterStep (pl_worker p) l) < remaining (pl_worker p) l)%nat) as Hgo.
  { intros p' Hst Hacc Hsd' Hids' Hlt. exists p'. split_and!; try done. split; try done; [by eapply inv_worker|].
    destruct (pl_worker p); cbn [afterStep]; try done. by apply (deliverable_split n l). }
  pose proof (in_phase _ _ Hi) as Hph. unfold phaseOk in Hph.
  destruct (pl_worker p) as [sd|sd|sd n bytes|sd n bytes processed|sd n bytes|sd|] eqn:Hw; cbn [afterStep inFlight] in *.
  - destruct sd; [eapply Hgo; [by apply WorkerSkip|..]|eapply Hgo; [by apply WorkerShutdown|..]]; pcbn; cbn [inFlight]; try done; unfold remaining; cbn [length] in *; lia.
  - destruct (peekAccessBatch (pl_buffer p)) as [n bytes] eqn:Hpk. pose proof (peek_ring _ _ _ _ (in_ring _ _ Hi) Hpk) as Hb.
    eapply Hgo; [by eapply WorkerPeek|..]; pcbn; try done; case_bool_decide; destruct sd; cbn [inFlight]; try done; unfold remaining; cbn [length] in *; lia.
  - eapply Hgo; [by apply (WorkerProcess _ _ _ _ _ _ _ Hw)|..]; pcbn; try done; case_bool_decide; cbn [inFlight]; try done; unfold remaining; cbn [length] in *; try lia.
  - destruct Hph as [Hb ->]. destruct Hb as (Hn & _). pose proof (process_length (take n l)) as Hpl. rewrite length_take in Hpl.
    destruct (append_deliverable (pl_events p) (pl_disk p) (process (take n l))) as (q' & ids & Hst & Hq');
      [apply Hi|by apply (deliverable_split n l)|cbn [length] in *; lia|].
    eapply Hgo; [by eapply WorkerPersist|..]; pcbn; try done; cbn [inFlight]; unfold remaining; rewrite ?length_take; cbn [length] in *; lia.
  - destruct Hph as (Hn & _). eapply Hgo; [by eapply WorkerComplete|..]; pcbn; try done; cbn [inFlight];
      unfold remaining; rewrite ?length_drop, ?length_take in *; cbn [length] in *; lia.
  - eapply Hgo; [by eapply WorkerNext|..]; pcbn; try done; destruct (negb sd && _); destruct sd; cbn [inFlight]; try done; unfold remaining; cbn [length] in *; lia.
  - done.
Qed.

Lemma worker_cancelled p p' : workerStep p p' → pl_cancelled p' = pl_cancelled p.
Proof. by destruct 1. Qed.

Lemma drain_all p l : drainable p l →
  ∃ p', rtc workerStep p p' ∧ pl_worker p' = Done ∧ pl_accepted p' = pl_accepted p ∧ pl_cancelled p' = pl_cancelled p ∧ ∃ l', inv p' l'.
Proof.
  remember (remaining (pl_worker p) l) as m eqn:Hm. revert p l Hm.
  induction m as [m IH] using lt_wf_ind. intros p l -> Hd.
  assert (pl_worker p = Done ∨ pl_worker p ≠ Done) as [Hw|Hw] by (destruct (pl_worker p); auto).
  { exists p. split_and!; try done. exists l. apply Hd. }
  destruct (drain_step p l Hd Hw) as (p1 & Hst & Hacc & Hd1 & Hlt).
  destruct (IH _ Hlt _ _ eq_refl Hd1) as (p' & Hrun & Hdone & Hacc' & Hcn & Hinv).
  exists p'. split_and!; try done; [by eapply rtc_l|congruence|]. rewrite Hcn. by apply worker_cancelled.
Qed.

(** ** The theorems *)

(** C32. The access pipeline delivers every accepted record once and in order.  In
    every reachable state of the enqueuers, the worker, the shutdown and the
    other users of the log queue, the accepted records are those completed,
    followed by those the ring buffer holds from its head on; the buffer stays
    within its records and bytes and its other slots are cleared; what was
    appended to the log queue is the policy's output for the completed records
    and for the batch that is appended but not completed; the batch the worker
    reads from the shared buffer is still its first records and within the
    batch limits; and the log queue is a run of the abstract queue.  A worker
    that ends without a cancellation leaves nothing behind. *)
Theorem access_pipeline_fifo p : reachable p →
  ∃ buffered s, pl_accepted p = pl_completed p ++ buffered
    ∧ ringOk (pl_buffer p) buffered
    ∧ pl_appended p = process (pl_completed p ++ inFlight (pl_worker p) buffered)
    ∧ phaseOk p buffered
    ∧ (pl_worker p = Done → pl_cancelled p = false → pl_appended p = process (pl_accepted p))
    ∧ steps (specStep jsonValid maxBytes) emptyFifo (pl_events p) s ∧ rep jsonValid maxBytes (pl_disk p) s.
Proof.
  intros (l & [Hr Hf Ha Hp Hs Hd Hc Hq])%reachable_inv. destruct (run_rep jsonValid maxBytes Hmax _ _ Hq) as (s & Hs1 & Hs2).
  exists l, s. split_and!; try done. intros Hw Hcn. unfold phaseOk in Hp. rewrite Hw in Hp, Ha.
  by rewrite Ha, Hf, (Hp Hcn).
Qed.

(** C33. A shutdown can always be drained.  In every reachable state after
    [ShutdownAccess] that was not cancelled, provided the policy's output for the
    accepted records is such that the log queue takes it: however the worker has run
    on from there, also through appends that failed, it can still reach its end once
    the database does not fail, and then the buffer is empty and the log queue got
    the policy's output for every accepted record, in order.  (A record the queue
    always rejects is retried for ever.) *)
Theorem access_shutdown_drains p :
  reachable p → pl_shutdown p = true → pl_cancelled p = false →
  Forall deliverable (process (pl_accepted p)) →
  ld_sequence (lq_db (pl_disk p)) + zlen (pl_accepted p) < 2 ^ 63 →
  ∀ q, rtc workerStep p q → ∃ p', rtc workerStep q p' ∧ pl_worker p' = Done ∧ pl_accepted p' = pl_accepted p
    ∧ ab_count (pl_buffer p') = 0%nat ∧ pl_appended p' = process (pl_accepted p).
Proof.
  intros (l & Hi)%reachable_inv Hsd Hcn Hrec Hids q Hq.
  rewrite (in_fifo _ _ Hi), process_app in Hrec. apply Forall_app in Hrec as [_ Hrec].
  destruct (drainable_run p q l Hq) as (lq & Hdq & Haccq & Hcnq); [|done|].
  { split; try done. rewrite (in_fifo _ _ Hi), length_app in Hids. lia. }
  destruct (drain_all q lq Hdq) as (p' & Hrun & Hdone & Hacc & Hcn' & l' & [Hr Hf Ha Hp _ _ _ _]).
  rewrite Hcnq in Hcn'. unfold phaseOk in Hp. rewrite Hdone in Hp, Ha. rewrite (Hp Hcn') in *.
  exists p'. split_and!; try done; [congruence|by rewrite (ro_count _ _ Hr)|]. by rewrite Ha, <- Haccq, <- Hacc, Hf.
Qed.

End Pipeline.

(** ** Runs *)

Module AccessDemo.
Import LogDemo.

Definition demoConfig : AccessLogConfig := {|
  ac_BufferBytes := 0; ac_BufferRecords := 2; ac_BatchBytes := 0; ac_BatchRecords := 1; ac_FlushInterval := 0 |}.
Definition before : accessBuffer := AccessBuffer [] 0 0 0 demoConfig false false 3 0 0 0.
Definition keepAll (payload : list byte) : option (list byte) := Some payload.

Definition demoBuffer : accessBuffer := default before (StartAccessPipeline before demoConfig).
Definition demoStart : pipeline := Pipeline demoBuffer (newQueue 80) (Selecting false) false false [] [] [] [].
Definition enqueued (p : pipeline) (record : LogRecord) : pipeline :=
  Pipeline (enqueueAccess (pl_buffer p) record false 7).1 (pl_disk p) (pl_worker p) (pl_shutdown p) (pl_cancelled p)
    (pl_accepted p ++ [queuedRecord record false 7]) (pl_completed p) (pl_appended p) (pl_events p).
Definition waiting : pipeline := enqueued (enqueued demoStart (demoRecord zeroTime)) (demoRecord 5).
(** A third record does not fit while the worker holds its batch of one. *)
Definition peeked : pipeline := setWorker (setWorker waiting (pl_buffer waiting) (Peeking false)) (pl_buffer waiting) (Peeked false 1 2).
Definition closed : pipeline := Pipeline (setAccepting (pl_buffer waiting) false) (pl_disk waiting) (pl_worker waiting) true false
  (pl_accepted waiting) (pl_completed waiting) (pl_appended waiting) (pl_events waiting).

Lemma enqueued_step p record : zlen (lr_Payload record) < 2 ^ 63 → (enqueueAccess (pl_buffer p) record false 7).2 = true →
  clientStep anyJson 80 p (enqueued p record).
Proof.
  intros Hlen Hok. unfold enqueued. pose proof (ClientEnqueue anyJson 80 p record false 7 (enqueueAccess (pl_buffer p) record false 7).1 true Hlen) as H.
  destruct (enqueueAccess (pl_buffer p) record false 7) as [b ok]. cbn [fst snd] in *. subst ok. by apply H.
Qed.
Lemma waiting_reachable : reachable anyJson 80 keepAll waiting.
Proof.
  apply (reach_client _ _ _ (enqueued demoStart (demoRecord zeroTime))); [|apply enqueued_step; by vm_compute].
  apply (reach_client _ _ _ demoStart); [|apply enqueued_step; by vm_compute].
  apply reach_start. by apply (Started 80 demoConfig demoConfig 3 demoBuffer).
Qed.
Lemma peeked_reachable : reachable anyJson 80 keepAll peeked.
Proof.
  apply (reach_worker _ _ _ (setWorker waiting (pl_buffer waiting) (Peeking false))).
  - apply (reach_worker _ _ _ waiting); [exact waiting_reachable|]. by apply WorkerWake.
  - apply (WorkerPeek _ _ _ (setWorker waiting (pl_buffer waiting) (Peeking false)) false 1 2); by vm_compute.
Qed.
Lemma closed_reachable : reachable anyJson 80 keepAll closed.
Proof. apply (reach_client _ _ _ waiting); [exact waiting_reachable|]. apply ClientShutdown. Qed.

(** The worker holds a batch of one of the two buffered records. *)
Lemma access_pipeline_fifo_witness :
  ∃ buffered, pl_accepted peeked = pl_completed peeked ++ buffered ∧ batchOk (pl_buffer peeked) buffered 1 2.
Proof.
  destruct (access_pipeline_fifo anyJson 80 demo_bound keepAll peeked peeked_reachable)
    as (buffered & s & Hf & _ & _ & Hp & _).
  exists buffered. split; [exact Hf|exact Hp].
Defined.

Lemma demo_deliverable : Forall (deliverable anyJson 80) (process keepAll (pl_accepted closed)).
Proof.
  assert (process keepAll (pl_accepted closed) = [demoRecord 7; demoRecord 5]) as -> by (by vm_compute).
  apply list.Forall_forall. intros r [->|[->|[]%elem_of_nil]%elem_of_cons]%elem_of_cons; (split; [by split; vm_compute|by split; vm_compute]).
Qed.

(** Two records wait when the pipeline is shut down. *)
Lemma access_shutdown_drains_witness :
  ∃ p', rtc (workerStep anyJson 80 keepAll) closed p' ∧ pl_worker p' = Done ∧ length (pl_appended p') = 2%nat.
Proof.
  destruct (access_shutdown_drains anyJson 80 demo_bound keepAll closed closed_reachable eq_refl eq_refl demo_deliverable eq_refl closed (rtc_refl _ _))
    as (p' & Hrun & Hdone & _ & _ & Happ).
  exists p'. rewrite Happ. split; [exact Hrun|]. split; [exact Hdone|reflexivity].
Defined.

End AccessDemo.
