(* ===== verification/WafPolicy.v ===== *)
(** * Firewall policies ([internal/policy/security.go])

    The policy of a site's firewall and [NormalizeAndValidate], which every
    policy passes before it is stored or provisioned: it trims and canonicalises
    the fields, fills in identifiers and defaults, and rejects what the firewall
    cannot run.  The string functions of Go's library that depend on Unicode
    tables, and what parses addresses, URLs, JSON and regular expressions, are
    parameters.  A missing list of rule sets is [None]. *)
From Stdlib Require Import ZArith Lia Ascii String.
From stdpp Require Import base numbers list strings gmap sets option.
From S2P Require Import Prelude.

Local Open Scope Z_scope.

(** ** Data *)

Record WAFResponse := { wp_Type : string; wp_Body : string }.
Record WAFAction := {
  wa_Type : string; wa_StatusCode : Z; wa_Response : WAFResponse;
  wa_RedirectURL : string; wa_RedirectStatus : Z; wa_Tag : string;
}.
Record WAFCondition := {
  wc_ID : string; wc_Field : string; wc_FieldName : string; wc_Operator : string; wc_Value : string;
  wc_Values : list string; wc_Negate : bool; wc_CaseSensitive : bool;
}.
Record WAFConditionGroup := { wg_ID : string; wg_Operator : string; wg_Conditions : list WAFCondition }.
Record WAFConditions := { wn_Operator : string; wn_Groups : list WAFConditionGroup }.
Record WAFRule := {
  wr_ID : string; wr_Name : string; wr_Enabled : bool; wr_Type : string; wr_Conditions : WAFConditions;
  wr_Key : string; wr_KeyName : string; wr_Requests : Z; wr_WindowSeconds : Z; wr_Burst : Z;
  wr_Backend : string; wr_FailureMode : string; wr_Action : WAFAction;
}.
Record WAFRuleSet := { ws_ID : string; ws_Name : string; ws_Enabled : bool; ws_Rules : list WAFRule }.
Record WAFPolicy := {
  wf_Enabled : bool; wf_TrustedProxyChain : bool; wf_TrustedProxies : list string;
  wf_RuleSets : option (list WAFRuleSet); wf_BodyInspectLimitBytes : Z; wf_BodyOverLimitAction : string;
  wf_GeoIPDatabase : string;
}.

#[export] Instance WAFResponse_eq_dec : EqDecision WAFResponse.
Proof. solve_decision. Defined.
#[export] Instance WAFAction_eq_dec : EqDecision WAFAction.
Proof. solve_decision. Defined.
#[export] Instance WAFCondition_eq_dec : EqDecision WAFCondition.
Proof. solve_decision. Defined.
#[export] Instance WAFConditionGroup_eq_dec : EqDecision WAFConditionGroup.
Proof. solve_decision. Defined.

(** An error and the index path it is reported at. *)
Inductive wafError := WafError (location : list (string * nat)) (message : string).

Definition WAFRuleTypeMatch : string := "MATCH".
Definition WAFRuleTypeRateLimit : string := "RATE_LIMIT".
Definition DefaultWAFBodyInspectLimitBytes : Z := Z.shiftl 64 10.
Definition MaxWAFBodyInspectLimitBytes : Z := Z.shiftl 64 20.

(** ** The default policy *)

Definition quote : string := String (Ascii.ascii_of_nat 34) EmptyString.
Definition defaultXSSPattern : string :=
  "(?i)(?:<\s*script\b|javascript\s*:|on(?:error|load|click|mouseover)\s*=|<\s*(?:iframe|object|embed|svg)\b)".
Definition defaultPathTraversalPattern : string := "((\.+)(/+)){2,}".
Definition defaultSensitiveDirectoryPattern : string := "(?i)(?:^|/)\.(?:git|svn|htaccess|idea|env|vscode)(?:/|$)".
Definition defaultSQLInjectionPattern : string :=
  "(?i)(?:\bunion\b.{0,24}\bselect\b|\bselect\b.{0,24}\bfrom\b|\bor\b\s+['" +:+ quote +:+ "]?\d+['" +:+ quote +:+ "]?\s*=\s*['"
  +:+ quote +:+ "]?\d+|(?:--|#|/\*)\s*$|\bsleep\s*\(|\bbenchmark\s*\()".

Definition singleWAFCondition (condition : WAFCondition) : WAFConditions :=
  {| wn_Operator := "AND"; wn_Groups := [{| wg_ID := ""; wg_Operator := "AND"; wg_Conditions := [condition] |}] |}.

(** The functions [block] and [match] of [DefaultWAFPolicy]. *)
Definition defaultBlock (status : Z) : WAFAction := {|
  wa_Type := "SHOW_PAGE"; wa_StatusCode := status; wa_Response := {| wp_Type := "DEFAULT"; wp_Body := "" |};
  wa_RedirectURL := ""; wa_RedirectStatus := 0; wa_Tag := "" |}.
Definition defaultMatch (id name field pattern : string) (action : WAFAction) : WAFRule := {|
  wr_ID := id; wr_Name := name; wr_Enabled := true; wr_Type := WAFRuleTypeMatch;
  wr_Conditions := singleWAFCondition {|
    wc_ID := ""; wc_Field := field; wc_FieldName := ""; wc_Operator := "REGEX"; wc_Value := pattern; wc_Values := [];
    wc_Negate := false; wc_CaseSensitive := true |};
  wr_Key := ""; wr_KeyName := ""; wr_Requests := 0; wr_WindowSeconds := 0; wr_Burst := 0; wr_Backend := ""; wr_FailureMode := "";
  wr_Action := action |}.

Definition DefaultWAFPolicy : WAFPolicy := {|
  wf_Enabled := true; wf_TrustedProxyChain := false; wf_TrustedProxies := [];
  wf_RuleSets := Some [
    {| ws_ID := "builtin-xss"; ws_Name := "Cross-site scripting"; ws_Enabled := true; ws_Rules := [
         defaultMatch "builtin-xss-query" "XSS in query values" "QUERY_VALUES" defaultXSSPattern (defaultBlock 403);
         defaultMatch "builtin-xss-body" "XSS in request body" "BODY" defaultXSSPattern (defaultBlock 403)] |};
    {| ws_ID := "builtin-path-traversal"; ws_Name := "Path traversal"; ws_Enabled := true; ws_Rules := [
         defaultMatch "builtin-path-traversal-target" "Repeated parent traversal" "REQUEST_TARGET" defaultPathTraversalPattern (defaultBlock 403)] |};
    {| ws_ID := "builtin-sensitive-directories"; ws_Name := "Sensitive directories"; ws_Enabled := true; ws_Rules := [
         defaultMatch "builtin-sensitive-directories-path" "Repository and environment files" "PATH" defaultSensitiveDirectoryPattern (defaultBlock 403)] |};
    {| ws_ID := "builtin-sql-injection"; ws_Name := "SQL injection"; ws_Enabled := true; ws_Rules := [
         defaultMatch "builtin-sql-query" "SQL injection in query values" "QUERY_VALUES" defaultSQLInjectionPattern (defaultBlock 403);
         defaultMatch "builtin-sql-body" "SQL injection in request body" "BODY" defaultSQLInjectionPattern (defaultBlock 403)] |};
    {| ws_ID := "builtin-cc"; ws_Name := "CC attack"; ws_Enabled := true; ws_Rules := [{|
         wr_ID := "builtin-cc-ip-path"; wr_Name := "Requests per client and path"; wr_Enabled := true;
         wr_Type := WAFRuleTypeRateLimit; wr_Conditions := {| wn_Operator := "AND"; wn_Groups := [] |};
         wr_Key := "CLIENT_IP_PATH"; wr_KeyName := ""; wr_Requests := 60; wr_WindowSeconds := 60; wr_Burst := 20;
         wr_Backend := "REDIS"; wr_FailureMode := "LOCAL"; wr_Action := defaultBlock 429 |}] |}];
  wf_BodyInspectLimitBytes := 0; wf_BodyOverLimitAction := ""; wf_GeoIPDatabase := "" |}.

(** ** Strings and loops *)

Definition slen (s : string) : Z := Z.of_nat (String.length s).
Definition isEmpty (s : string) : bool := bool_decide (s = "").
Definition oneOf (s : string) (l : list string) : bool := bool_decide (s ∈ l).
Fixpoint anyChar (f : ascii → bool) (s : string) : bool :=
  match s with EmptyString => false | String c s => f c || anyChar f s end.

(** [for index := range xs { x := &xs[index]; ... }] with a set of names that
    the rounds extend; it stops at the first error. *)
Fixpoint forEach {St A E} (f : nat → St → A → result E (St * A)) (index : nat) (s : St) (xs : list A) : result E (St * list A) :=
  match xs with
  | [] => Ok (s, [])
  | x :: xs =>
      '(s, x) ← f index s x;
      '(s, xs) ← forEach f (S index) s xs;
      Ok (s, x :: xs)
  end.

(** ** Normalisation *)

Section Normalize.
(** [strings.TrimSpace], [strings.ToUpper], [http.CanonicalHeaderKey],
    [strconv.Itoa] on indexes. *)
Variable trimSpace toUpper canonicalHeader : string → string.
Variable itoa : nat → string.
(** [netip]: addresses and prefixes. *)
Variable Addr Prefix : Type.
Variable parseAddr : string → option Addr.
Variable unmapAddr : Addr → Addr.
Variable is4 is4In6 : Addr → bool.
Variable parsePrefix : string → option Prefix.
Variable prefixFrom : Addr → Z → Prefix.
Variable prefixAddr : Prefix → Addr.
Variable prefixBits : Prefix → Z.
Variable maskedPrefix : Prefix → Prefix.
Variable prefixString : Prefix → string.
(** [regexp.Compile], [json.Valid], and [url.Parse] with [IsAbs] and the
    scheme; the digest of [generatedWAFChildID]. *)
Variable regexValid jsonValid : string → bool.
Variable urlParse : string → option (bool * string).
Variable digestHex : string → string.

Definition upperTrim (s : string) : string := toUpper (trimSpace s).

Definition uniqueWAFID (seen : gset string) (id : string) : result string (gset string) :=
  if 128 <? slen id then Err "id cannot exceed 128 characters"
  else if bool_decide (id ∈ seen) then Err "duplicate id"
  else Ok ({[id]} ∪ seen).
Definition uniqueAt (location : list (string * nat)) (seen : gset string) (id : string) : result wafError (gset string) :=
  match uniqueWAFID seen id with Ok seen => Ok seen | Err e => Err (WafError location e) end.

Definition generatedWAFChildID (kind parent : string) (index : nat) : string :=
  kind +:+ "-" +:+ digestHex parent +:+ "-" +:+ itoa (index + 1).

(** One address or prefix of [normalizeWAFPrefixes]. *)
Definition normalizeWAFPrefix (value : string) : result string string :=
  match parseAddr value with
  | Some address =>
      let address := unmapAddr address in
      Ok (prefixString (prefixFrom address (if is4 address then 32 else 128)))
  | None =>
      match parsePrefix value with
      | Some prefix =>
          let prefix := maskedPrefix prefix in
          let prefix :=
            if is4In6 (prefixAddr prefix) && (96 <=? prefixBits prefix)
            then maskedPrefix (prefixFrom (unmapAddr (prefixAddr prefix)) (prefixBits prefix - 96)) else prefix in
          Ok (prefixString prefix)
      | None => Err "invalid IP or CIDR"
      end
  end.
Fixpoint normalizeWAFPrefixes (seen : list string) (values : list string) : result string (list string) :=
  match values with
  | [] => Ok []
  | value :: values =>
      let value := trimSpace value in
      if isEmpty value then normalizeWAFPrefixes seen values
      else
        value ← normalizeWAFPrefix value;
        if oneOf value seen then normalizeWAFPrefixes seen values
        else rest ← normalizeWAFPrefixes (value :: seen) values; Ok (value :: rest)
  end.

Definition plainFields : list string :=
  ["METHOD"; "HOST"; "PATH"; "RAW_QUERY"; "QUERY_VALUES"; "REQUEST_TARGET"; "CLIENT_IP"; "USER_AGENT"; "COUNTRY"; "REGION"].
Definition valueOperators : list string := ["EQUALS"; "CONTAINS"; "PREFIX"; "SUFFIX"; "REGEX"].

(** The field's switch of [normalizeWAFCondition]: the field's name. *)
Definition conditionFieldName (location : list (string * nat)) (field name : string) : result wafError string :=
  if oneOf field plainFields then Ok ""
  else if bool_decide (field = "BODY") then Ok name
  else if oneOf field ["QUERY"; "COOKIE"] then
    if isEmpty name then Err (WafError location "field_name is required") else Ok name
  else if bool_decide (field = "HEADER") then
    let name := canonicalHeader name in
    if isEmpty name then Err (WafError location "field_name is required for HEADER") else Ok name
  else Err (WafError location "field is unsupported").
(** The operator's switch: the value and the values. *)
Definition conditionValues (location : list (string * nat)) (field operator value : string) (values : list string) (caseSensitive : bool)
  : result wafError (string * list string) :=
  if bool_decide (operator = "EXISTS") then Ok ("", [])
  else if oneOf operator valueOperators then
    if isEmpty value then Err (WafError location "value is required")
    else if bool_decide (operator = "REGEX") && negb (regexValid (if caseSensitive then value else "(?i)" +:+ value))
    then Err (WafError location "has invalid regex")
    else Ok (value, values)
  else if bool_decide (operator = "IN") then
    if bool_decide (values = []) then Err (WafError location "values is required for IN") else Ok (value, values)
  else if bool_decide (operator = "CIDR") then
    if negb (bool_decide (field = "CLIENT_IP")) || bool_decide (values = [])
    then Err (WafError location "CIDR requires CLIENT_IP and at least one value")
    else if forallb (λ v, bool_decide (is_Some (parsePrefix v))) values then Ok (value, values)
    else Err (WafError location "contains invalid CIDR")
  else Err (WafError location "operator is unsupported").
Definition normalizeWAFCondition (location : list (string * nat)) (c : WAFCondition) : result wafError WAFCondition :=
  let field := upperTrim (wc_Field c) in
  let operator := upperTrim (wc_Operator c) in
  name ← conditionFieldName location field (trimSpace (wc_FieldName c));
  '(value, values) ←
    conditionValues location field operator (trimSpace (wc_Value c)) (map trimSpace (wc_Values c)) (wc_CaseSensitive c);
  Ok {| wc_ID := wc_ID c; wc_Field := field; wc_FieldName := name; wc_Operator := operator; wc_Value := value; wc_Values := values;
        wc_Negate := wc_Negate c; wc_CaseSensitive := wc_CaseSensitive c |}.

(** The operator of a group or of the groups. *)
Definition normalizeOperator (location : list (string * nat)) (operator : string) : result wafError string :=
  let operator := upperTrim operator in
  let operator := if isEmpty operator then "AND" else operator in
  if oneOf operator ["AND"; "OR"] then Ok operator else Err (WafError location "operator must be AND or OR").

(** The rounds of the loops of [normalizeWAFConditions]. *)
Definition conditionRound (location : list (string * nat)) (groupID : string) (index : nat) (seen : gset string) (c : WAFCondition)
  : result wafError (gset string * WAFCondition) :=
  let location := location ++ [("conditions", index)] in
  let id := trimSpace (wc_ID c) in
  let id := if isEmpty id then generatedWAFChildID "condition" groupID index else id in
  seen ← uniqueAt location seen id;
  c ← normalizeWAFCondition location {|
    wc_ID := id; wc_Field := wc_Field c; wc_FieldName := wc_FieldName c; wc_Operator := wc_Operator c; wc_Value := wc_Value c;
    wc_Values := wc_Values c; wc_Negate := wc_Negate c; wc_CaseSensitive := wc_CaseSensitive c |};
  Ok (seen, c).
Definition groupRound (location : list (string * nat)) (idPrefix : string) (index : nat) (seen : gset string) (g : WAFConditionGroup)
  : result wafError (gset string * WAFConditionGroup) :=
  let location := location ++ [("groups", index)] in
  let id := trimSpace (wg_ID g) in
  let id := if isEmpty id then generatedWAFChildID "group" idPrefix index else id in
  seen ← uniqueAt location seen id;
  operator ← normalizeOperator location (wg_Operator g);
  if bool_decide (length (wg_Conditions g) = 0%nat) || bool_decide (16 < length (wg_Conditions g))%nat
  then Err (WafError location "conditions must contain between 1 and 16 conditions")
  else
    '(seen, conditions) ← forEach (conditionRound location id) 0 seen (wg_Conditions g);
    Ok (seen, {| wg_ID := id; wg_Operator := operator; wg_Conditions := conditions |}).
Definition normalizeWAFConditions (location : list (string * nat)) (idPrefix : string) (required : bool) (seen : gset string) (cs : WAFConditions)
  : result wafError (gset string * WAFConditions) :=
  operator ← normalizeOperator location (wn_Operator cs);
  if bool_decide (length (wn_Groups cs) = 0%nat) then
    if required then Err (WafError location "groups must contain at least one group")
    else Ok (seen, {| wn_Operator := operator; wn_Groups := [] |})
  else if bool_decide (16 < length (wn_Groups cs))%nat then Err (WafError location "cannot contain more than 16 groups")
  else
    '(seen, groups) ← forEach (groupRound location idPrefix) 0 seen (wn_Groups cs);
    Ok (seen, {| wn_Operator := operator; wn_Groups := groups |}).

(** What [normalizeRateRule] assigns. *)
Definition rateKeyName (location : list (string * nat)) (key name : string) : result wafError string :=
  if oneOf key ["CLIENT_IP"; "CLIENT_IP_PATH"; "PATH"; "GLOBAL"] then Ok ""
  else if bool_decide (key = "HEADER") then
    let name := canonicalHeader name in
    if isEmpty name then Err (WafError location "key_name is required for HEADER") else Ok name
  else if bool_decide (key = "COOKIE") then
    if isEmpty name then Err (WafError location "key_name is required for COOKIE") else Ok name
  else Err (WafError location "key is unsupported").
Definition normalizeRateRule (location : list (string * nat)) (r : WAFRule) : result wafError WAFRule :=
  let key := upperTrim (wr_Key r) in
  name ← rateKeyName location key (trimSpace (wr_KeyName r));
  guard_err ((wr_Requests r <? 1) || (1000000 <? wr_Requests r)) (WafError location "requests must be between 1 and 1000000");;
  guard_err ((wr_WindowSeconds r <? 1) || (3600 <? wr_WindowSeconds r)) (WafError location "window_seconds must be between 1 and 3600");;
  guard_err ((wr_Burst r <? 0) || (wr_Requests r * 10 <? wr_Burst r)) (WafError location "burst must be between 0 and requests*10");;
  let backend := upperTrim (wr_Backend r) in
  let backend := if isEmpty backend then "LOCAL" else backend in
  guard_err (negb (oneOf backend ["LOCAL"; "REDIS"])) (WafError location "backend must be LOCAL or REDIS");;
  let mode := upperTrim (wr_FailureMode r) in
  let mode := if isEmpty mode then "LOCAL" else mode in
  guard_err (negb (oneOf mode ["OPEN"; "CLOSED"; "LOCAL"])) (WafError location "failure_mode must be OPEN, CLOSED or LOCAL");;
  let mode := if bool_decide (backend = "LOCAL") then "LOCAL" else mode in
  Ok {| wr_ID := wr_ID r; wr_Name := wr_Name r; wr_Enabled := wr_Enabled r; wr_Type := wr_Type r; wr_Conditions := wr_Conditions r;
        wr_Key := key; wr_KeyName := name; wr_Requests := wr_Requests r; wr_WindowSeconds := wr_WindowSeconds r; wr_Burst := wr_Burst r;
        wr_Backend := backend; wr_FailureMode := mode; wr_Action := wr_Action r |}.

Definition normalizeWAFResponse (location : list (string * nat)) (r : WAFResponse) : result wafError WAFResponse :=
  let type := upperTrim (wp_Type r) in
  let type := if isEmpty type then "DEFAULT" else type in
  guard_err (Z.shiftl 128 10 <? slen (wp_Body r)) (WafError location "body cannot exceed 131072 bytes");;
  if bool_decide (type = "DEFAULT") then Ok {| wp_Type := type; wp_Body := "" |}
  else if oneOf type ["HTML"; "TEXT"] then
    if isEmpty (wp_Body r) then Err (WafError location "body is required") else Ok {| wp_Type := type; wp_Body := wp_Body r |}
  else if bool_decide (type = "JSON") then
    if jsonValid (wp_Body r) then Ok {| wp_Type := type; wp_Body := wp_Body r |}
    else Err (WafError location "body must contain valid JSON")
  else Err (WafError location "type must be DEFAULT, HTML, TEXT or JSON").

(** The pattern of a tag: 1 to 64 characters of the class, the first one a
    letter or digit. *)
Definition alnum (c : ascii) : bool :=
  let n := Ascii.nat_of_ascii c in
  ((48 <=? n) && (n <=? 57))%nat || ((65 <=? n) && (n <=? 90))%nat || ((97 <=? n) && (n <=? 122))%nat.
Definition tagChar (c : ascii) : bool := alnum c || bool_decide (c ∈ ["."; "_"; ":"; "-"]%char).
Definition safeTag (tag : string) : bool :=
  match tag with
  | EmptyString => false
  | String c rest => alnum c && negb (anyChar (λ c, negb (tagChar c)) rest) && (slen rest <=? 63)
  end.

Definition setStatus (a : WAFAction) (type : string) (status : Z) (response : WAFResponse) : WAFAction := {|
  wa_Type := type; wa_StatusCode := status; wa_Response := response; wa_RedirectURL := wa_RedirectURL a;
  wa_RedirectStatus := wa_RedirectStatus a; wa_Tag := wa_Tag a |}.
Definition lineBreak (c : ascii) : bool := bool_decide (Ascii.nat_of_ascii c ∈ [10; 13]%nat).
Definition redirectAllowed (target : string) : bool :=
  match urlParse target with
  | Some (isAbs, scheme) =>
      if isAbs then oneOf scheme ["http"; "https"] else String.prefix "/" target
  | None => false
  end.
Definition normalizeWAFAction (location : list (string * nat)) (ruleType : string) (a : WAFAction) : result wafError WAFAction :=
  let type := upperTrim (wa_Type a) in
  let type := if isEmpty type then "SHOW_PAGE" else type in
  if oneOf type ["SHOW_PAGE"; "BLOCK"] then
    let status := if wa_StatusCode a =? 0 then (if bool_decide (ruleType = WAFRuleTypeRateLimit) then 429 else 403) else wa_StatusCode a in
    guard_err ((status <? 400) || (599 <? status)) (WafError location "status_code must be between 400 and 599");;
    response ← (if bool_decide (type = "SHOW_PAGE") then normalizeWAFResponse (location ++ [("response", 0%nat)]) (wa_Response a)
                else Ok (wa_Response a));
    Ok (setStatus a type status response)
  else if oneOf type ["CAPTCHA"; "ALLOW"; "MONITOR"] then Ok (setStatus a type (wa_StatusCode a) (wa_Response a))
  else if bool_decide (type = "REDIRECT") then
    let target := trimSpace (wa_RedirectURL a) in
    guard_err (anyChar lineBreak target || isEmpty target) (WafError location "redirect_url is invalid");;
    guard_err (negb (redirectAllowed target)) (WafError location "redirect_url must be an HTTP(S) URL or absolute path");;
    let status := if wa_RedirectStatus a =? 0 then 302 else wa_RedirectStatus a in
    guard_err (negb (bool_decide (status ∈ [301; 302; 303; 307; 308]))) (WafError location "redirect_status is unsupported");;
    Ok {| wa_Type := type; wa_StatusCode := wa_StatusCode a; wa_Response := wa_Response a; wa_RedirectURL := target;
          wa_RedirectStatus := status; wa_Tag := wa_Tag a |}
  else if bool_decide (type = "TAG") then
    let tag := trimSpace (wa_Tag a) in
    guard_err (negb (safeTag tag)) (WafError location "tag must be 1-64 safe characters");;
    Ok {| wa_Type := type; wa_StatusCode := wa_StatusCode a; wa_Response := wa_Response a; wa_RedirectURL := wa_RedirectURL a;
          wa_RedirectStatus := wa_RedirectStatus a; wa_Tag := tag |}
  else Err (WafError location "type is unsupported").

(** The rounds of the loops of [NormalizeAndValidate] over rules and sets. *)
Definition clearedRate (r : WAFRule) (id name : string) (cs : WAFConditions) : WAFRule := {|
  wr_ID := id; wr_Name := name; wr_Enabled := wr_Enabled r; wr_Type := WAFRuleTypeMatch; wr_Conditions := cs;
  wr_Key := ""; wr_KeyName := ""; wr_Requests := 0; wr_WindowSeconds := 0; wr_Burst := 0; wr_Backend := ""; wr_FailureMode := "";
  wr_Action := wr_Action r |}.
Definition setConditions (r : WAFRule) (id name type : string) (cs : WAFConditions) : WAFRule := {|
  wr_ID := id; wr_Name := name; wr_Enabled := wr_Enabled r; wr_Type := type; wr_Conditions := cs;
  wr_Key := wr_Key r; wr_KeyName := wr_KeyName r; wr_Requests := wr_Requests r; wr_WindowSeconds := wr_WindowSeconds r;
  wr_Burst := wr_Burst r; wr_Backend := wr_Backend r; wr_FailureMode := wr_FailureMode r; wr_Action := wr_Action r |}.
Definition setAction (r : WAFRule) (a : WAFAction) : WAFRule := {|
  wr_ID := wr_ID r; wr_Name := wr_Name r; wr_Enabled := wr_Enabled r; wr_Type := wr_Type r; wr_Conditions := wr_Conditions r;
  wr_Key := wr_Key r; wr_KeyName := wr_KeyName r; wr_Requests := wr_Requests r; wr_WindowSeconds := wr_WindowSeconds r;
  wr_Burst := wr_Burst r; wr_Backend := wr_Backend r; wr_FailureMode := wr_FailureMode r; wr_Action := a |}.

Definition ruleRound (location : list (string * nat)) (setID : string) (index : nat) (seen : gset string) (r : WAFRule)
  : result wafError (gset string * WAFRule) :=
  let location := location ++ [("rules", index)] in
  let id := trimSpace (wr_ID r) in
  let id := if isEmpty id then setID +:+ "-rule-" +:+ itoa (index + 1) else id in
  seen ← uniqueAt location seen id;
  let name := trimSpace (wr_Name r) in
  let name := if isEmpty name then "Rule " +:+ itoa (index + 1) else name in
  guard_err (128 <? slen name) (WafError location "name cannot exceed 128 characters");;
  let type := upperTrim (wr_Type r) in
  let type := if isEmpty type then WAFRuleTypeMatch else type in
  '(seen, r) ←
    (if bool_decide (type = WAFRuleTypeMatch) then
       '(seen, cs) ← normalizeWAFConditions location id true seen (wr_Conditions r);
       Ok (seen, clearedRate r id name cs)
     else if bool_decide (type = WAFRuleTypeRateLimit) then
       r ← normalizeRateRule location r;
       '(seen, cs) ← normalizeWAFConditions location id false seen (wr_Conditions r);
       Ok (seen, setConditions r id name type cs)
     else Err (WafError location "type must be MATCH or RATE_LIMIT"));
  action ← normalizeWAFAction location (wr_Type r) (wr_Action r);
  Ok (seen, setAction r action).

Definition setRound (index : nat) (seen : gset string) (s : WAFRuleSet) : result wafError (gset string * WAFRuleSet) :=
  let location := [("rule_sets", index)] in
  let id := trimSpace (ws_ID s) in
  let id := if isEmpty id then "rule-set-" +:+ itoa (index + 1) else id in
  seen ← uniqueAt location seen id;
  let name := trimSpace (ws_Name s) in
  let name := if isEmpty name then "Rule set " +:+ itoa (index + 1) else name in
  guard_err (128 <? slen name) (WafError location "name cannot exceed 128 characters");;
  guard_err (bool_decide (64 < length (ws_Rules s))%nat) (WafError location "cannot contain more than 64 rules");;
  '(seen, rules) ← forEach (ruleRound location id) 0 seen (ws_Rules s);
  Ok (seen, {| ws_ID := id; ws_Name := name; ws_Enabled := ws_Enabled s; ws_Rules := rules |}).

Definition NormalizeAndValidate (p : WAFPolicy) : result wafError WAFPolicy :=
  let geo := trimSpace (wf_GeoIPDatabase p) in
  let over := upperTrim (wf_BodyOverLimitAction p) in
  let over := if isEmpty over then "PARTIAL" else over in
  guard_err (negb (oneOf over ["BLOCK"; "PARTIAL"])) (WafError [] "body_over_limit_action must be BLOCK or PARTIAL");;
  guard_err (wf_BodyInspectLimitBytes p <? 0) (WafError [] "body_inspect_limit_bytes cannot be negative");;
  let limit := if wf_BodyInspectLimitBytes p =? 0 then DefaultWAFBodyInspectLimitBytes else wf_BodyInspectLimitBytes p in
  guard_err (MaxWAFBodyInspectLimitBytes <? limit) (WafError [] "body_inspect_limit_bytes is too large");;
  proxies ← match normalizeWAFPrefixes [] (wf_TrustedProxies p) with
            | Ok proxies => Ok proxies
            | Err e => Err (WafError [("trusted_proxies", 0%nat)] e)
            end;
  guard_err (wf_TrustedProxyChain p && bool_decide (proxies = [])) (WafError [] "trusted_proxies must contain at least one IP or CIDR");;
  let sets := match wf_RuleSets p with Some sets => sets | None => default [] (wf_RuleSets DefaultWAFPolicy) end in
  guard_err (bool_decide (64 < length sets)%nat) (WafError [] "WAF policy cannot contain more than 64 rule sets");;
  '(_, sets) ← forEach setRound 0 ∅ sets;
  Ok {| wf_Enabled := wf_Enabled p; wf_TrustedProxyChain := wf_TrustedProxyChain p; wf_TrustedProxies := proxies;
        wf_RuleSets := Some sets; wf_BodyInspectLimitBytes := limit; wf_BodyOverLimitAction := over; wf_GeoIPDatabase := geo |}.

Definition NormalizeAndValidatePublic (p : WAFPolicy) : result wafError WAFPolicy :=
  NormalizeAndValidate {| wf_Enabled := wf_Enabled p; wf_TrustedProxyChain := wf_TrustedProxyChain p;
    wf_TrustedProxies := wf_TrustedProxies p; wf_RuleSets := wf_RuleSets p;
    wf_BodyInspectLimitBytes := wf_BodyInspectLimitBytes p; wf_BodyOverLimitAction := wf_BodyOverLimitAction p;
    wf_GeoIPDatabase := "" |}.

End Normalize.

Definition NeedsGeoIP (p : WAFPolicy) : bool :=
  existsb (λ s, existsb (λ r, existsb (λ g, existsb (λ c, oneOf (wc_Field c) ["COUNTRY"; "REGION"])
    (wg_Conditions g)) (wn_Groups (wr_Conditions r))) (ws_Rules s)) (default [] (wf_RuleSets p)).
