(* ===== verification/WafPolicyTheorems.v ===== *)
(** * Theorems on firewall policies

    What [NormalizeAndValidate] accepts is a valid policy (identifiers unique
    over all levels, limits, operators and fields the firewall knows), and
    normalising it again changes nothing. *)
From Stdlib Require Import ZArith Lia Ascii String.
From stdpp Require Import base numbers strings gmap sets option sorting.
From S2P Require Import Prelude WafPolicy.

Local Open Scope Z_scope.

(** ** What the code relies on of Go's library *)

Definition graphic (c : ascii) : bool := let n := Ascii.nat_of_ascii c in ((33 <=? n) && (n <=? 126))%nat.
Fixpoint graphicEnd (s : string) : bool :=
  match s with EmptyString => false | String c EmptyString => graphic c | String _ s => graphicEnd s end.

(** [TrimSpace] leaves a trimmed string alone, also when a graphic character
    follows it; upper case and canonical header names are fixed points. *)
Class StringLaws (trimSpace toUpper canonicalHeader : string → string) (itoa : nat → string) (digestHex : string → string) : Prop := {
  sl_empty : trimSpace "" = "";
  sl_trim s : trimSpace (trimSpace s) = trimSpace s;
  sl_char c : graphic c = true → trimSpace (String c EmptyString) = String c EmptyString;
  sl_app a b : trimSpace a = a → a ≠ "" → graphicEnd b = true → trimSpace (a +:+ b) = a +:+ b;
  sl_upper s : upperTrim trimSpace toUpper (upperTrim trimSpace toUpper s) = upperTrim trimSpace toUpper s;
  sl_const s : s ∈ ["AND"; "PARTIAL"; "SHOW_PAGE"; "MATCH"; "LOCAL"; "DEFAULT"] → upperTrim trimSpace toUpper s = s;
  sl_header s : trimSpace (canonicalHeader (trimSpace s)) = canonicalHeader (trimSpace s);
  sl_header2 s : canonicalHeader (canonicalHeader s) = canonicalHeader s;
  sl_itoa n : graphicEnd (itoa n) = true;
}.

(** [netip]: printing and parsing prefixes, masking, and IPv4 in IPv6. *)
Class NetLaws {Addr Prefix : Type} (trimSpace : string → string) (parseAddr : string → option Addr) (unmapAddr : Addr → Addr)
    (is4 is4In6 : Addr → bool) (parsePrefix : string → option Prefix) (prefixFrom : Addr → Z → Prefix) (prefixAddr : Prefix → Addr)
    (maskedPrefix : Prefix → Prefix) (prefixString : Prefix → string) : Prop := {
  nl_addr p : parseAddr (prefixString p) = None;
  nl_prefix p : parsePrefix (prefixString p) = Some p;
  nl_string p : trimSpace (prefixString p) = prefixString p ∧ prefixString p ≠ "";
  nl_masked p : maskedPrefix (maskedPrefix p) = maskedPrefix p;
  nl_host a : maskedPrefix (prefixFrom a (if is4 a then 32 else 128)) = prefixFrom a (if is4 a then 32 else 128);
  nl_unmap a : is4In6 (unmapAddr a) = false;
  nl_from a b : prefixAddr (prefixFrom a b) = a;
  nl_in6 a b : is4In6 a = false → is4In6 (prefixAddr (maskedPrefix (prefixFrom a b))) = false;
}.

Lemma graphicEnd_app a b : graphicEnd b = true → graphicEnd (a +:+ b) = true.
Proof.
  intros Hb. induction a as [|c a IH]; [done|]. change (String c a +:+ b) with (String c (a +:+ b)). cbn [graphicEnd].
  by destruct (a +:+ b).
Qed.
Lemma graphicEnd_cons c b : graphicEnd b = true → graphicEnd (String c b) = true.
Proof. apply (graphicEnd_app (String c EmptyString)). Qed.

(** ** Identifiers *)

Definition conditionIDs (c : WAFCondition) : list string := [wc_ID c].
Definition groupIDs (g : WAFConditionGroup) : list string := wg_ID g :: concat (map conditionIDs (wg_Conditions g)).
Definition ruleIDs (r : WAFRule) : list string := wr_ID r :: concat (map groupIDs (wn_Groups (wr_Conditions r))).
Definition setIDs (s : WAFRuleSet) : list string := ws_ID s :: concat (map ruleIDs (ws_Rules s)).
Definition policyIDs (p : WAFPolicy) : list string := concat (map setIDs (default [] (wf_RuleSets p))).

(** [s'] has the new identifiers [ids] in addition to those of [s]. *)
Definition extends (s : gset string) (ids : list string) (s' : gset string) : Prop :=
  s' = s ∪ list_to_set ids ∧ NoDup ids ∧ (∀ z, z ∈ ids → z ∉ s) ∧ Forall (λ z, slen z ≤ 128) ids.

Lemma extends_nil s : extends s [] s.
Proof. split_and!; [set_solver|constructor|set_solver|constructor]. Qed.
Lemma extends_app s ids1 s1 ids2 s2 : extends s ids1 s1 → extends s1 ids2 s2 → extends s (ids1 ++ ids2) s2.
Proof.
  intros (-> & H1 & H2 & H3) (-> & H4 & H5 & H6). split_and!.
  - rewrite list_to_set_app_L. set_solver.
  - apply list.NoDup_app. set_solver.
  - intros z [Hz|Hz]%elem_of_app; set_solver.
  - by apply Forall_app.
Qed.
Lemma unique_extends loc s id s' : uniqueAt loc s id = Ok s' → extends s [id] s'.
Proof.
  unfold uniqueAt, uniqueWAFID. destruct (128 <? slen id) eqn:E; [done|]. case_bool_decide as Hin; [done|]. intros [= <-]. b2p.
  split_and!; [set_solver|apply NoDup_singleton|set_solver|by constructor; [lia|constructor]].
Qed.

(** ** The loops *)

Section Loops.
Context {A : Type} (f : nat → gset string → A → result wafError (gset string * A)).

Lemma forEach_cons i s x xs s' ys : forEach f i s (x :: xs) = Ok (s', ys) →
  ∃ s1 y ys', f i s x = Ok (s1, y) ∧ forEach f (S i) s1 xs = Ok (s', ys') ∧ ys = y :: ys'.
Proof.
  cbn [forEach]. intros ([s1 y] & H1 & H)%bind_Ok. apply bind_Ok in H as ([s2 ys'] & H2 & H). injection H as <- <-. eauto 6.
Qed.

Lemma forEach_valid (ids : A → list string) (V : A → Prop) :
  (∀ i s x s' y, f i s x = Ok (s', y) → V y ∧ extends s (ids y) s') →
  ∀ xs i s s' ys, forEach f i s xs = Ok (s', ys) → Forall V ys ∧ extends s (concat (map ids ys)) s' ∧ length ys = length xs.
Proof.
  intros Hf. induction xs as [|x xs IH]; intros i s s' ys H.
  { injection H as <- <-. split_and!; [constructor|apply extends_nil|done]. }
  apply forEach_cons in H as (s1 & y & ys' & H1 & H2 & ->).
  apply Hf in H1 as [Hv He]. apply IH in H2 as (Hvs & Hes & Hl). cbn [map concat length].
  split_and!; [by constructor|by eapply extends_app|lia].
Qed.
Lemma forEach_again :
  (∀ i s x s' y, f i s x = Ok (s', y) → f i s y = Ok (s', y)) →
  ∀ xs i s s' ys, forEach f i s xs = Ok (s', ys) → forEach f i s ys = Ok (s', ys).
Proof.
  intros Hf. induction xs as [|x xs IH]; intros i s s' ys H.
  { by injection H as <- <-. }
  apply forEach_cons in H as (s1 & y & ys' & H1 & H2 & ->).
  cbn [forEach]. rewrite (Hf _ _ _ _ _ H1). cbn [mbind result_bind]. by rewrite (IH _ _ _ _ H2).
Qed.
End Loops.

(** ** Valid policies *)

Section Valid.
Variable regexValid jsonValid : string → bool.
Variable isPrefix : string → Prop.
Variable redirectOk : string → Prop.

Definition namedField (field name : string) : Prop :=
  (field ∈ plainFields ∧ name = "") ∨ field = "BODY" ∨ (field ∈ ["QUERY"; "COOKIE"; "HEADER"] ∧ name ≠ "").
Definition operands (c : WAFCondition) : Prop :=
  (wc_Operator c = "EXISTS" ∧ wc_Value c = "" ∧ wc_Values c = [])
  ∨ (wc_Operator c ∈ ["EQUALS"; "CONTAINS"; "PREFIX"; "SUFFIX"] ∧ wc_Value c ≠ "")
  ∨ (wc_Operator c = "REGEX" ∧ wc_Value c ≠ ""
     ∧ regexValid (if wc_CaseSensitive c then wc_Value c else "(?i)" +:+ wc_Value c) = true)
  ∨ (wc_Operator c = "IN" ∧ wc_Values c ≠ [])
  ∨ (wc_Operator c = "CIDR" ∧ wc_Field c = "CLIENT_IP" ∧ wc_Values c ≠ [] ∧ Forall isPrefix (wc_Values c)).
Definition validCondition (c : WAFCondition) : Prop := namedField (wc_Field c) (wc_FieldName c) ∧ operands c.
Definition validGroup (g : WAFConditionGroup) : Prop :=
  wg_Operator g ∈ ["AND"; "OR"] ∧ (1 ≤ length (wg_Conditions g) ≤ 16)%nat ∧ Forall validCondition (wg_Conditions g).
Definition validConditions (cs : WAFConditions) : Prop :=
  wn_Operator cs ∈ ["AND"; "OR"] ∧ (length (wn_Groups cs) ≤ 16)%nat ∧ Forall validGroup (wn_Groups cs).
Definition validRate (r : WAFRule) : Prop :=
  (wr_Key r ∈ ["CLIENT_IP"; "CLIENT_IP_PATH"; "PATH"; "GLOBAL"] ∧ wr_KeyName r = "" ∨ wr_Key r ∈ ["HEADER"; "COOKIE"] ∧ wr_KeyName r ≠ "")
  ∧ 1 ≤ wr_Requests r ≤ 1000000 ∧ 1 ≤ wr_WindowSeconds r ≤ 3600 ∧ 0 ≤ wr_Burst r ≤ wr_Requests r * 10
  ∧ (wr_Backend r = "LOCAL" ∧ wr_FailureMode r = "LOCAL" ∨ wr_Backend r = "REDIS" ∧ wr_FailureMode r ∈ ["OPEN"; "CLOSED"; "LOCAL"]).
Definition validResponse (r : WAFResponse) : Prop :=
  slen (wp_Body r) ≤ 2 ^ 17
  ∧ (wp_Type r = "DEFAULT" ∧ wp_Body r = "" ∨ wp_Type r ∈ ["HTML"; "TEXT"] ∧ wp_Body r ≠ ""
     ∨ wp_Type r = "JSON" ∧ jsonValid (wp_Body r) = true).
Definition validAction (a : WAFAction) : Prop :=
  (wa_Type a = "SHOW_PAGE" ∧ 400 ≤ wa_StatusCode a ≤ 599 ∧ validResponse (wa_Response a))
  ∨ (wa_Type a = "BLOCK" ∧ 400 ≤ wa_StatusCode a ≤ 599)
  ∨ wa_Type a ∈ ["CAPTCHA"; "ALLOW"; "MONITOR"]
  ∨ (wa_Type a = "REDIRECT" ∧ redirectOk (wa_RedirectURL a) ∧ wa_RedirectStatus a ∈ [301; 302; 303; 307; 308])
  ∨ (wa_Type a = "TAG" ∧ safeTag (wa_Tag a) = true).
Definition validRule (r : WAFRule) : Prop :=
  slen (wr_Name r) ≤ 128 ∧ validConditions (wr_Conditions r) ∧ validAction (wr_Action r)
  ∧ (wr_Type r = WAFRuleTypeMatch ∧ wn_Groups (wr_Conditions r) ≠ [] ∨ wr_Type r = WAFRuleTypeRateLimit ∧ validRate r).
Definition validSet (s : WAFRuleSet) : Prop :=
  slen (ws_Name s) ≤ 128 ∧ (length (ws_Rules s) ≤ 64)%nat ∧ Forall validRule (ws_Rules s).
Definition validPolicy (p : WAFPolicy) : Prop :=
  1 ≤ wf_BodyInspectLimitBytes p ≤ 2 ^ 26 ∧ wf_BodyOverLimitAction p ∈ ["BLOCK"; "PARTIAL"]
  ∧ (wf_TrustedProxyChain p = true → wf_TrustedProxies p ≠ []) ∧ NoDup (wf_TrustedProxies p)
  ∧ ∃ sets, wf_RuleSets p = Some sets ∧ (length sets ≤ 64)%nat ∧ Forall validSet sets
    ∧ NoDup (policyIDs p) ∧ Forall (λ id, slen id ≤ 128) (policyIDs p).
End Valid.

Section Normalized.
Context (trimSpace toUpper canonicalHeader : string → string) (itoa : nat → string).
Context (Addr Prefix : Type) (parseAddr : string → option Addr) (unmapAddr : Addr → Addr) (is4 is4In6 : Addr → bool).
Context (parsePrefix : string → option Prefix) (prefixFrom : Addr → Z → Prefix) (prefixAddr : Prefix → Addr).
Context (prefixBits : Prefix → Z) (maskedPrefix : Prefix → Prefix) (prefixString : Prefix → string).
Context (regexValid jsonValid : string → bool) (urlParse : string → option (bool * string)) (digestHex : string → string).

Notation upperTrim := (upperTrim trimSpace toUpper).
Notation conditionFieldName := (conditionFieldName canonicalHeader).
Notation conditionValues := (conditionValues Prefix parsePrefix regexValid).
Notation normalizeWAFCondition := (normalizeWAFCondition trimSpace toUpper canonicalHeader Prefix parsePrefix regexValid).
Notation normalizeOperator := (normalizeOperator trimSpace toUpper).
Notation conditionRound := (conditionRound trimSpace toUpper canonicalHeader itoa Prefix parsePrefix regexValid digestHex).
Notation groupRound := (groupRound trimSpace toUpper canonicalHeader itoa Prefix parsePrefix regexValid digestHex).
Notation normalizeWAFConditions := (normalizeWAFConditions trimSpace toUpper canonicalHeader itoa Prefix parsePrefix regexValid digestHex).
Notation rateKeyName := (rateKeyName canonicalHeader).
Notation normalizeRateRule := (normalizeRateRule trimSpace toUpper canonicalHeader).
Notation normalizeWAFResponse := (normalizeWAFResponse trimSpace toUpper jsonValid).
Notation redirectAllowed := (redirectAllowed urlParse).
Notation normalizeWAFAction := (normalizeWAFAction trimSpace toUpper jsonValid urlParse).
Notation ruleRound := (ruleRound trimSpace toUpper canonicalHeader itoa Prefix parsePrefix regexValid jsonValid urlParse digestHex).
Notation setRound := (setRound trimSpace toUpper canonicalHeader itoa Prefix parsePrefix regexValid jsonValid urlParse digestHex).
Notation normalizeWAFPrefix :=
  (normalizeWAFPrefix Addr Prefix parseAddr unmapAddr is4 is4In6 parsePrefix prefixFrom prefixAddr prefixBits maskedPrefix prefixString).
Notation normalizeWAFPrefixes :=
  (normalizeWAFPrefixes trimSpace Addr Prefix parseAddr unmapAddr is4 is4In6 parsePrefix prefixFrom prefixAddr prefixBits maskedPrefix prefixString).
Notation NormalizeAndValidate :=
  (NormalizeAndValidate trimSpace toUpper canonicalHeader itoa Addr Prefix parseAddr unmapAddr is4 is4In6 parsePrefix prefixFrom
     prefixAddr prefixBits maskedPrefix prefixString regexValid jsonValid urlParse digestHex).

Definition prefixText (s : string) : Prop := is_Some (parsePrefix s).
Definition redirectText (s : string) : Prop := redirectAllowed s = true ∧ s ≠ "" ∧ anyChar lineBreak s = false.
Notation validCondition := (validCondition regexValid prefixText).
Notation validGroup := (validGroup regexValid prefixText).
Notation validConditions := (validConditions regexValid prefixText).
Notation validRule := (validRule regexValid jsonValid prefixText redirectText).
Notation validSet := (validSet regexValid jsonValid prefixText redirectText).
Notation validPolicy := (validPolicy regexValid jsonValid prefixText redirectText).

(** Case analysis on the switches of the code. *)
Ltac switch H :=
  repeat match type of H with
  | (if ?b then _ else _) = _ => let E := fresh "E" in destruct b eqn:E; unfold oneOf, isEmpty in E; b2p
  end.

(** Membership in a list of literals. *)
Ltac member :=
  repeat match goal with H : _ ∈ _ :: _ |- _ => apply elem_of_cons in H as [H|H] | H : _ ∈ [] |- _ => by apply elem_of_nil in H end;
  try done; repeat first [by apply list_elem_of_here | apply elem_of_cons; left; assumption | apply list_elem_of_further].

(** *** Validity *)

Lemma field_valid loc field name name' : conditionFieldName loc field name = Ok name' → namedField field name'.
Proof.
  unfold WafPolicy.conditionFieldName, namedField. intros H.
  switch H; try discriminate H; injection H as <-; [by left|by right; left|right; right; split; [member|done]..].
Qed.
Lemma values_valid loc field operator value values cs value' values' :
  conditionValues loc field operator value values cs = Ok (value', values') →
  operands regexValid prefixText
    {| wc_ID := ""; wc_Field := field; wc_FieldName := ""; wc_Operator := operator; wc_Value := value'; wc_Values := values';
       wc_Negate := false; wc_CaseSensitive := cs |}.
Proof.
  unfold WafPolicy.conditionValues, operands. cbn [wc_Field wc_Operator wc_Value wc_Values wc_CaseSensitive]. intros H.
  destruct (bool_decide (operator = "EXISTS")) eqn:E1; b2p; [by injection H as <- <-; left|right].
  destruct (oneOf operator valueOperators) eqn:E2; unfold oneOf in E2; b2p.
  { destruct (isEmpty value) eqn:E3; [done|]. unfold isEmpty in E3. b2p.
    destruct (decide (operator = "REGEX")) as [->|Hne].
    - rewrite bool_decide_eq_true_2 in H by done. destruct (regexValid _) eqn:E4; [|done]. injection H as <- <-.
      right. left. by split_and!.
    - rewrite (bool_decide_eq_false_2 (operator = "REGEX")) in H by done. injection H as <- <-. left. split; [|done].
      unfold valueOperators in E2. clear -E2 Hne. member. }
  right. right. destruct (bool_decide (operator = "IN")) eqn:E3; b2p.
  { case_bool_decide; [done|]. injection H as <- <-. by left. }
  right. case_bool_decide; [|done]. destruct (_ || _) eqn:E5; [done|]. b2p.
  destruct (forallb _ _) eqn:E6; [|done]. injection H as <- <-. split_and!; try done.
  apply list.Forall_forall. intros v Hv. rewrite forallb_forall in E6. by apply list_elem_of_In, E6, bool_decide_eq_true in Hv.
Qed.
Lemma condition_valid loc c c' : normalizeWAFCondition loc c = Ok c' → validCondition c' ∧ wc_ID c' = wc_ID c.
Proof.
  unfold WafPolicy.normalizeWAFCondition. intros (name & Hn & H)%bind_Ok. apply bind_Ok in H as ([value values] & Hv & H).
  injection H as <-. split; [|done]. split; cbn [wc_Field wc_FieldName]; [by eapply field_valid|]. by apply values_valid in Hv.
Qed.
Lemma operator_valid loc operator operator' : normalizeOperator loc operator = Ok operator' → operator' ∈ ["AND"; "OR"].
Proof. unfold WafPolicy.normalizeOperator. destruct (oneOf _ _) eqn:E; [|done]. intros [= <-]. unfold oneOf in E. by b2p. Qed.

Lemma conditionRound_valid loc gid i s c s' c' : conditionRound loc gid i s c = Ok (s', c') → validCondition c' ∧ extends s (conditionIDs c') s'.
Proof.
  unfold WafPolicy.conditionRound. intros (s1 & Hu%unique_extends & H)%bind_Ok. apply bind_Ok in H as (c1 & Hc & H).
  injection H as <- <-. apply condition_valid in Hc as [Hv Hid]. split; [done|]. unfold conditionIDs. by rewrite Hid.
Qed.
Lemma groupRound_valid loc gid i s g s' g' : groupRound loc gid i s g = Ok (s', g') → validGroup g' ∧ extends s (groupIDs g') s'.
Proof.
  unfold WafPolicy.groupRound. intros (s1 & Hu%unique_extends & H)%bind_Ok. apply bind_Ok in H as (op & Hop%operator_valid & H).
  destruct (_ || _) eqn:E; [done|]. b2p. apply bind_Ok in H as ([s2 cs] & Hcs & H). injection H as <- <-.
  apply (forEach_valid _ conditionIDs validCondition) in Hcs as (Hv & He & Hl); [|apply conditionRound_valid]. split.
  - split_and!; cbn [wg_Conditions wg_Operator]; try done; lia.
  - unfold groupIDs. cbn [wg_ID wg_Conditions]. by eapply (extends_app _ [_]).
Qed.
Lemma conditions_valid loc pre required s cs s' cs' : normalizeWAFConditions loc pre required s cs = Ok (s', cs') →
  validConditions cs' ∧ extends s (concat (map groupIDs (wn_Groups cs'))) s' ∧ (required = true → wn_Groups cs' ≠ []).
Proof.
  unfold WafPolicy.normalizeWAFConditions. intros (op & Hop%operator_valid & H)%bind_Ok. case_bool_decide as E1.
  { destruct required; [done|]. injection H as <- <-. split_and!; try done; [split_and!; cbn; [done|lia|constructor]|apply extends_nil]. }
  case_bool_decide as E2; [done|]. apply bind_Ok in H as ([s2 gs] & Hgs & H). injection H as <- <-.
  apply (forEach_valid _ groupIDs validGroup) in Hgs as (Hv & He & Hl); [|apply groupRound_valid].
  split_and!; try done; [split_and!; cbn; [done|lia|done]|]. cbn. intros _ ->. done.
Qed.

(** The optional default of a field that may be empty. *)
Lemma rate_valid loc r r' : normalizeRateRule loc r = Ok r' →
  validRate r' ∧ wr_Conditions r' = wr_Conditions r ∧ wr_Action r' = wr_Action r.
Proof.
  unfold WafPolicy.normalizeRateRule. intros (name & Hn & H)%bind_Ok.
  apply guard_then_Ok in H as [E1 H]. apply guard_then_Ok in H as [E2 H]. apply guard_then_Ok in H as [E3 H].
  apply guard_then_Ok in H as [E4 H]. apply guard_then_Ok in H as [E5 H]. injection H as <-. split; [|done].
  unfold oneOf in E4, E5. b2p. split_and!; cbn [wr_Key wr_KeyName wr_Requests wr_WindowSeconds wr_Burst wr_Backend wr_FailureMode]; try lia.
  - unfold WafPolicy.rateKeyName in Hn. switch Hn; try discriminate Hn; injection Hn as <-; [by left|right; split; [member|done]..].
  - case_bool_decide as E6; [by left|right]. split; [|done].
    apply elem_of_cons in E4 as [?|E4]; [done|]. by apply list_elem_of_singleton in E4.
Qed.
Lemma response_valid loc r r' : normalizeWAFResponse loc r = Ok r' → validResponse jsonValid r'.
Proof.
  unfold WafPolicy.normalizeWAFResponse, validResponse. intros [E H]%guard_then_Ok. b2p. change (Z.shiftl 128 10) with (2 ^ 17) in E.
  switch H; try discriminate H; injection H as <-; cbn [wp_Type wp_Body]; (split; [first [lia|by vm_compute]|]).
  - by left.
  - right. left. by split.
  - right. right. by split.
Qed.
Lemma action_valid loc type a a' : normalizeWAFAction loc type a = Ok a' → validAction jsonValid redirectText a'.
Proof.
  unfold WafPolicy.normalizeWAFAction, validAction. set (t := if isEmpty (upperTrim (wa_Type a)) then _ else _). intros H.
  switch H; try discriminate H.
  - apply guard_then_Ok in H as [E1 H]. b2p. apply bind_Ok in H as (r & Hr & H). injection H as <-.
    cbn [setStatus wa_Type wa_StatusCode wa_Response]. case_bool_decide as E3.
    + left. split_and!; try done. by eapply response_valid.
    + right. left. apply elem_of_cons in E as [?|E]; [done|]. apply list_elem_of_singleton in E. split; [done|lia].
  - injection H as <-. right. right. by left.
  - apply guard_then_Ok in H as [E3 H]. apply guard_then_Ok in H as [E4 H]. apply guard_then_Ok in H as [E5 H]. injection H as <-.
    unfold isEmpty in E3. b2p. right. right. right. left. by split_and!.
  - apply guard_then_Ok in H as [E4 H]. injection H as <-. b2p. right. right. right. right. by split.
Qed.
Lemma ruleRound_valid loc sid i s r s' r' : ruleRound loc sid i s r = Ok (s', r') → validRule r' ∧ extends s (ruleIDs r') s'.
Proof.
  unfold WafPolicy.ruleRound. intros (s1 & Hu%unique_extends & H)%bind_Ok. apply guard_then_Ok in H as [E H]. b2p.
  apply bind_Ok in H as ([s2 r1] & Hr & H). apply bind_Ok in H as (a & Ha%action_valid & H). injection H as <- <-.
  set (t := if isEmpty (upperTrim (wr_Type r)) then _ else _) in Hr. switch Hr; try discriminate Hr.
  - apply bind_Ok in Hr as ([s3 cs] & Hc & Hr). injection Hr as <- <-. apply conditions_valid in Hc as (Hv & He & Hne).
    split; [|by eapply (extends_app _ [_])]. split_and!; try done. left. split; [done|by apply Hne].
  - apply bind_Ok in Hr as (r2 & Hrate & Hr). apply bind_Ok in Hr as ([s3 cs] & Hc & Hr). injection Hr as <- <-.
    apply conditions_valid in Hc as (Hv & He & _). apply rate_valid in Hrate as (Hrate & _).
    split; [|by eapply (extends_app _ [_])]. split_and!; try done. right. by split.
Qed.
Lemma setRound_valid i s x s' y : setRound i s x = Ok (s', y) → validSet y ∧ extends s (setIDs y) s'.
Proof.
  unfold WafPolicy.setRound. intros (s1 & Hu%unique_extends & H)%bind_Ok. apply guard_then_Ok in H as [E1 H].
  apply guard_then_Ok in H as [E2 H]. b2p. apply bind_Ok in H as ([s2 rs] & Hr & H). injection H as <- <-.
  apply (forEach_valid _ ruleIDs validRule) in Hr as (Hv & He & Hl); [|apply ruleRound_valid].
  split; [split_and!; cbn; try done; lia|]. by eapply (extends_app _ [_]).
Qed.
Lemma prefixes_nodup values : ∀ seen l, normalizeWAFPrefixes seen values = Ok l → NoDup l ∧ ∀ v, v ∈ l → v ∉ seen.
Proof.
  induction values as [|v values IH]; intros seen l H; cbn [WafPolicy.normalizeWAFPrefixes] in H.
  { injection H as <-. split; [constructor|set_solver]. }
  destruct (isEmpty _); [by apply IH|]. apply bind_Ok in H as (v' & _ & H).
  destruct (oneOf v' seen) eqn:E; [by apply IH|]. unfold oneOf in E. b2p. apply bind_Ok in H as (rest & Hr & H). injection H as <-.
  apply IH in Hr as [Hn Hs]. split; [constructor; [set_solver|done]|set_solver].
Qed.

(** C28. A policy that [NormalizeAndValidate] accepts is valid: the identifiers of
    rule sets, rules, groups and conditions are unique over the whole policy
    and at most 128 bytes, every rule's type, conditions, rate limit and action
    are among those the firewall runs and within their limits, and the body
    limit and the proxies are in range. *)
Theorem normalized_policy_valid p p' : NormalizeAndValidate p = Ok p' → validPolicy p'.
Proof.
  unfold WafPolicy.NormalizeAndValidate. intros [E1 H]%guard_then_Ok. apply guard_then_Ok in H as [E2 H].
  apply guard_then_Ok in H as [E3 H]. apply bind_Ok in H as (proxies & Hp & H). apply guard_then_Ok in H as [E4 H].
  apply guard_then_Ok in H as [E5 H]. apply bind_Ok in H as ([s sets] & Hs & H). injection H as <-. unfold oneOf in E1. b2p.
  apply (forEach_valid _ setIDs validSet) in Hs as (Hv & (_ & Hn & _ & Hlen) & Hl); [|apply setRound_valid].
  destruct (normalizeWAFPrefixes [] (wf_TrustedProxies p)) as [l|e] eqn:El; [|done]. injection Hp as <-.
  split_and!; cbn [wf_BodyInspectLimitBytes wf_BodyOverLimitAction wf_TrustedProxyChain wf_TrustedProxies wf_RuleSets]; try done.
  - destruct (wf_BodyInspectLimitBytes p =? 0) eqn:E; b2p; [by vm_compute|lia].
  - intros Ht Hnil. rewrite Ht, bool_decide_eq_true_2 in E4 by done. done.
  - by eapply prefixes_nodup.
  - exists sets. split_and!; try done. lia.
Qed.

(** *** Normalising again *)

Context `{!StringLaws trimSpace toUpper canonicalHeader itoa digestHex}.
Context `{!NetLaws trimSpace parseAddr unmapAddr is4 is4In6 parsePrefix prefixFrom prefixAddr maskedPrefix prefixString}.

(** A field with a default: trimming and filling in twice is as once. *)
Lemma trim_default g x (t := if isEmpty (trimSpace x) then g else trimSpace x) : trimSpace g = g →
  (if isEmpty (trimSpace t) then g else trimSpace t) = t.
Proof. intros Hg. unfold t. destruct (isEmpty (trimSpace x)) eqn:E; rewrite ?Hg, ?sl_trim, ?E; [by destruct (isEmpty g)|done]. Qed.
Lemma upper_default g x (t := if isEmpty (upperTrim x) then g else upperTrim x) :
  g ∈ ["AND"; "PARTIAL"; "SHOW_PAGE"; "MATCH"; "LOCAL"; "DEFAULT"] → (if isEmpty (upperTrim t) then g else upperTrim t) = t.
Proof.
  intros Hg. unfold t. destruct (isEmpty (upperTrim x)) eqn:E; [rewrite sl_const by done; by destruct (isEmpty g)|by rewrite sl_upper, E].
Qed.

(** Generated names are trimmed. *)
Lemma trimmed_start c b : graphic c = true → graphicEnd b = true → trimSpace (String c b) = String c b.
Proof. intros Hc Hb. apply (sl_app (String c EmptyString) b); [by apply sl_char|done|done]. Qed.
Lemma trimmed_child kind parent index : kind ∈ ["condition"; "group"] →
  trimSpace (generatedWAFChildID itoa digestHex kind parent index) = generatedWAFChildID itoa digestHex kind parent index.
Proof.
  intros Hk. unfold generatedWAFChildID.
  apply elem_of_cons in Hk as [->|Hk]; [|apply list_elem_of_singleton in Hk as ->]; (apply trimmed_start; [done|]); repeat apply graphicEnd_cons; apply graphicEnd_app, graphicEnd_cons, sl_itoa.
Qed.

Lemma field_again loc field name name' : conditionFieldName loc field (trimSpace name) = Ok name' →
  trimSpace name' = name' ∧ conditionFieldName loc field name' = Ok name'.
Proof.
  unfold WafPolicy.conditionFieldName. intros H. switch H; try discriminate H; injection H as <-.
  - split; [apply sl_empty|done].
  - split; [apply sl_trim|done].
  - split; [apply sl_trim|]. unfold isEmpty. by rewrite (bool_decide_eq_false_2 _ E2).
  - split; [apply sl_header|]. unfold isEmpty. by rewrite sl_header2, (bool_decide_eq_false_2 _ E3).
Qed.
Lemma values_again loc field operator value values cs value' values' :
  conditionValues loc field operator (trimSpace value) (map trimSpace values) cs = Ok (value', values') →
  trimSpace value' = value' ∧ map trimSpace values' = values' ∧ conditionValues loc field operator value' values' cs = Ok (value', values').
Proof.
  assert (map trimSpace (map trimSpace values) = map trimSpace values) as Hm.
  { rewrite map_map. apply map_ext. intros s. apply sl_trim. }
  unfold WafPolicy.conditionValues. intros H. destruct (bool_decide (operator = "EXISTS")) eqn:E.
  { injection H as <- <-. split_and!; [apply sl_empty|done|done]. }
  assert (value' = trimSpace value ∧ values' = map trimSpace values) as [-> ->] by (switch H; try discriminate H; by injection H as <- <-).
  split_and!; [apply sl_trim|exact Hm|exact H].
Qed.
Lemma condition_again loc c c' : normalizeWAFCondition loc c = Ok c' → normalizeWAFCondition loc c' = Ok c'.
Proof.
  unfold WafPolicy.normalizeWAFCondition. intros (name & Hn & H)%bind_Ok. apply bind_Ok in H as ([value values] & Hv & H).
  injection H as <-. cbn [wc_ID wc_Field wc_FieldName wc_Operator wc_Value wc_Values wc_Negate wc_CaseSensitive].
  apply field_again in Hn as [T1 Hn]. apply values_again in Hv as (T2 & T3 & Hv).
  rewrite !sl_upper, T1, T2, T3, Hn. cbn [mbind result_bind]. by rewrite Hv.
Qed.
Lemma operator_again loc operator operator' : normalizeOperator loc operator = Ok operator' → normalizeOperator loc operator' = Ok operator'.
Proof.
  unfold WafPolicy.normalizeOperator. set (t := if isEmpty (upperTrim operator) then _ else _). destruct (oneOf t _) eqn:E; [|done].
  intros [= <-]. unfold t. rewrite upper_default by member. fold t. by rewrite E.
Qed.
Lemma conditionRound_again loc gid i s c s' c' : conditionRound loc gid i s c = Ok (s', c') → conditionRound loc gid i s c' = Ok (s', c').
Proof.
  unfold WafPolicy.conditionRound. set (id := if isEmpty (trimSpace (wc_ID c)) then _ else _).
  intros (s1 & Hu & H)%bind_Ok. apply bind_Ok in H as (c1 & Hc & H). injection H as <- <-.
  pose proof (condition_valid _ _ _ Hc) as [_ Hid]. cbn [wc_ID] in Hid. rewrite Hid.
  unfold id. rewrite trim_default by (apply trimmed_child; member). fold id. rewrite Hu. cbn [mbind result_bind].
  apply condition_again in Hc. clearbody id. subst id. destruct c1 as [x1 x2 x3 x4 x5 x6 x7 x8]. cbn [wc_ID wc_Field wc_FieldName wc_Operator wc_Value wc_Values wc_Negate wc_CaseSensitive].
  by rewrite Hc.
Qed.
Lemma groupRound_again loc gid i s g s' g' : groupRound loc gid i s g = Ok (s', g') → groupRound loc gid i s g' = Ok (s', g').
Proof.
  unfold WafPolicy.groupRound. set (id := if isEmpty (trimSpace (wg_ID g)) then _ else _).
  intros (s1 & Hu & H)%bind_Ok. apply bind_Ok in H as (op & Hop & H).
  destruct (_ || _) eqn:E; [done|]. apply bind_Ok in H as ([s2 cs] & Hcs & H). injection H as <- <-. cbn [wg_ID wg_Operator wg_Conditions].
  assert ((if isEmpty (trimSpace id) then generatedWAFChildID itoa digestHex "group" gid i else trimSpace id) = id) as Hid
    by (apply trim_default, trimmed_child; member).
  rewrite !Hid, Hu. cbn [mbind result_bind]. apply operator_again in Hop. rewrite Hop. cbn [mbind result_bind].
  assert (length cs = length (wg_Conditions g)) as Hl.
  { by apply (forEach_valid _ conditionIDs validCondition) in Hcs as (_ & _ & Hl); [|apply conditionRound_valid]. }
  rewrite Hl, E. apply forEach_again in Hcs; [|apply conditionRound_again]. by rewrite Hcs.
Qed.
Lemma conditions_again loc pre required s cs s' cs' : normalizeWAFConditions loc pre required s cs = Ok (s', cs') →
  normalizeWAFConditions loc pre required s cs' = Ok (s', cs').
Proof.
  unfold WafPolicy.normalizeWAFConditions. intros (op & Hop & H)%bind_Ok.
  destruct (bool_decide (length (wn_Groups cs) = 0%nat)) eqn:E1.
  { destruct required; [done|]. injection H as <- <-. cbn [wn_Operator wn_Groups]. apply operator_again in Hop. by rewrite Hop. }
  destruct (bool_decide (16 < _)%nat) eqn:E2; [done|]. apply bind_Ok in H as ([s2 gs] & Hgs & H). injection H as <- <-.
  cbn [wn_Operator wn_Groups]. apply operator_again in Hop. rewrite Hop. cbn [mbind result_bind].
  assert (length gs = length (wn_Groups cs)) as Hl.
  { by apply (forEach_valid _ groupIDs validGroup) in Hgs as (_ & _ & Hl); [|apply groupRound_valid]. }
  rewrite Hl, E1, E2. apply forEach_again in Hgs; [|apply groupRound_again]. by rewrite Hgs.
Qed.

Lemma keyName_again loc key name name' : rateKeyName loc key (trimSpace name) = Ok name' →
  trimSpace name' = name' ∧ rateKeyName loc key name' = Ok name'.
Proof.
  unfold WafPolicy.rateKeyName. intros H. switch H; try discriminate H; injection H as <-.
  - split; [apply sl_empty|done].
  - split; [apply sl_header|]. unfold isEmpty. by rewrite sl_header2, (bool_decide_eq_false_2 _ E1).
  - split; [apply sl_trim|]. unfold isEmpty. by rewrite (bool_decide_eq_false_2 _ E2).
Qed.
Lemma rate_again loc r r' : normalizeRateRule loc r = Ok r' → normalizeRateRule loc r' = Ok r'.
Proof.
  unfold WafPolicy.normalizeRateRule. set (backend := if isEmpty (upperTrim (wr_Backend r)) then _ else _).
  set (mode := if isEmpty (upperTrim (wr_FailureMode r)) then _ else _). intros (name & Hn & H)%bind_Ok.
  apply guard_then_Ok in H as [E1 H]. apply guard_then_Ok in H as [E2 H]. apply guard_then_Ok in H as [E3 H].
  apply guard_then_Ok in H as [E4 H]. apply guard_then_Ok in H as [E5 H]. injection H as <-.
  cbn [wr_ID wr_Name wr_Enabled wr_Type wr_Conditions wr_Key wr_KeyName wr_Requests wr_WindowSeconds wr_Burst wr_Backend wr_FailureMode wr_Action].
  apply keyName_again in Hn as [T Hn]. rewrite sl_upper, T, Hn. cbn [mbind result_bind]. rewrite !guard_pass by done.
  assert ((if isEmpty (upperTrim backend) then "LOCAL" else upperTrim backend) = backend) as -> by (apply upper_default; member).
  set (mode' := if bool_decide (backend = "LOCAL") then "LOCAL" else mode).
  assert ((if isEmpty (upperTrim mode') then "LOCAL" else upperTrim mode') = mode') as ->.
  { unfold mode'. case_bool_decide; [rewrite sl_const by member; done|]. unfold mode. apply upper_default. member. }
  rewrite guard_pass by done. rewrite guard_pass; [by destruct (bool_decide (backend = "LOCAL")) eqn:E|].
  unfold mode'. by destruct (bool_decide (backend = "LOCAL")).
Qed.
(** The rate part of a rule does not depend on the other fields. *)
Lemma rate_fields loc r id name t cs a : normalizeRateRule loc r = Ok r →
  normalizeRateRule loc (setAction (setConditions r id name t cs) a) = Ok (setAction (setConditions r id name t cs) a).
Proof.
  unfold WafPolicy.normalizeRateRule, setAction, setConditions.
  cbn [wr_ID wr_Name wr_Enabled wr_Type wr_Conditions wr_Key wr_KeyName wr_Requests wr_WindowSeconds wr_Burst wr_Backend wr_FailureMode wr_Action].
  intros (n & Hn & H)%bind_Ok. rewrite Hn. cbn [mbind result_bind].
  apply guard_then_Ok in H as [E1 H]. apply guard_then_Ok in H as [E2 H]. apply guard_then_Ok in H as [E3 H].
  apply guard_then_Ok in H as [E4 H]. apply guard_then_Ok in H as [E5 H]. rewrite !guard_pass by done.
  destruct r as [x1 x2 x3 x4 x5 x6 x7 x8 x9 x10 x11 x12 x13]. cbn in H. injection H as F1 F2 F3 F4. cbn. by rewrite F4, F1, F2, F3.
Qed.
Lemma response_again loc r r' : normalizeWAFResponse loc r = Ok r' → normalizeWAFResponse loc r' = Ok r'.
Proof.
  unfold WafPolicy.normalizeWAFResponse. set (t := if isEmpty (upperTrim (wp_Type r)) then _ else _). intros [E H]%guard_then_Ok.
  assert ((if isEmpty (upperTrim t) then "DEFAULT" else upperTrim t) = t) as Ht by (apply upper_default; member).
  clearbody t. destruct (bool_decide (t = "DEFAULT")) eqn:E1.
  { injection H as <-. cbn [wp_Type wp_Body]. by rewrite Ht, guard_pass, E1. }
  destruct (oneOf t ["HTML"; "TEXT"]) eqn:E2.
  { destruct (isEmpty (wp_Body r)) eqn:E3; [done|]. injection H as <-. cbn [wp_Type wp_Body]. by rewrite Ht, guard_pass, E1, E2, E3. }
  destruct (bool_decide (t = "JSON")) eqn:E3; [|done]. destruct (jsonValid (wp_Body r)) eqn:E4; [|done]. injection H as <-.
  cbn [wp_Type wp_Body]. by rewrite Ht, guard_pass, E1, E2, E3, E4.
Qed.
Lemma action_again loc type a a' : normalizeWAFAction loc type a = Ok a' → normalizeWAFAction loc type a' = Ok a'.
Proof.
  unfold WafPolicy.normalizeWAFAction. set (t := if isEmpty (upperTrim (wa_Type a)) then _ else _). intros H.
  assert ((if isEmpty (upperTrim t) then "SHOW_PAGE" else upperTrim t) = t) as Ht by (apply upper_default; member). clearbody t.
  destruct (oneOf t ["SHOW_PAGE"; "BLOCK"]) eqn:E1.
  { set (st := if wa_StatusCode a =? 0 then _ else _) in H. apply guard_then_Ok in H as [E2 H]. apply bind_Ok in H as (r & Hr & H).
    injection H as <-. cbn [setStatus wa_Type wa_StatusCode wa_Response]. rewrite Ht, E1.
    assert (st =? 0 = false) as -> by (b2p; apply Z.eqb_neq; lia). rewrite guard_pass by done.
    destruct (bool_decide (t = "SHOW_PAGE")); [apply response_again in Hr; by rewrite Hr|done]. }
  destruct (oneOf t ["CAPTCHA"; "ALLOW"; "MONITOR"]) eqn:E2.
  { injection H as <-. cbn [setStatus wa_Type wa_StatusCode wa_Response]. by rewrite Ht, E1, E2. }
  destruct (bool_decide (t = "REDIRECT")) eqn:E3.
  { set (st := if wa_RedirectStatus a =? 0 then _ else _) in H. apply guard_then_Ok in H as [E4 H]. apply guard_then_Ok in H as [E5 H].
    apply guard_then_Ok in H as [E6 H]. injection H as <-. cbn [wa_Type wa_StatusCode wa_Response wa_RedirectURL wa_RedirectStatus wa_Tag].
    rewrite Ht, E1, E2, E3, sl_trim, guard_pass, guard_pass by done.
    assert (st =? 0 = false) as ->; [|by rewrite guard_pass]. apply Z.eqb_neq. intros ->. by vm_compute in E6. }
  destruct (bool_decide (t = "TAG")) eqn:E4; [|done]. apply guard_then_Ok in H as [E5 H]. injection H as <-.
  cbn [wa_Type wa_Tag]. by rewrite Ht, E1, E2, E3, E4, sl_trim, guard_pass.
Qed.

Lemma trimmed_indexed s : graphicEnd s = true → ∀ a, trimSpace a = a → a ≠ "" → trimSpace (a +:+ s) = a +:+ s.
Proof. intros Hs a Ha Hne. by apply sl_app. Qed.

Lemma ruleRound_again loc sid i s r s' r' : trimSpace sid = sid → sid ≠ "" →
  ruleRound loc sid i s r = Ok (s', r') → ruleRound loc sid i s r' = Ok (s', r').
Proof.
  intros Hsid Hne. unfold WafPolicy.ruleRound. set (gid := sid +:+ "-rule-" +:+ itoa (i + 1)). set (gname := "Rule " +:+ itoa (i + 1)).
  set (id := if isEmpty (trimSpace (wr_ID r)) then gid else _). set (name := if isEmpty (trimSpace (wr_Name r)) then gname else _).
  set (t := if isEmpty (upperTrim (wr_Type r)) then _ else _). intros (s1 & Hu & H)%bind_Ok. apply guard_then_Ok in H as [E H].
  apply bind_Ok in H as ([s2 r1] & Hr & H). apply bind_Ok in H as (a & Ha & H). injection H as <- <-.
  assert ((if isEmpty (trimSpace id) then gid else trimSpace id) = id) as Hid.
  { apply trim_default, sl_app; [done|done|]. repeat apply graphicEnd_cons. apply sl_itoa. }
  assert ((if isEmpty (trimSpace name) then gname else trimSpace name) = name) as Hname.
  { apply trim_default, trimmed_start; [done|]. repeat apply graphicEnd_cons. apply sl_itoa. }
  assert ((if isEmpty (upperTrim t) then WAFRuleTypeMatch else upperTrim t) = t) as Ht by (apply upper_default; member).
  clearbody id name t. apply action_again in Ha. destruct (bool_decide (t = WAFRuleTypeMatch)) eqn:E1.
  - apply bind_Ok in Hr as ([s3 cs] & Hc%conditions_again & Hr). injection Hr as <- <-. apply bool_decide_eq_true in E1. subst t.
    cbn [setAction clearedRate wr_ID wr_Name wr_Type wr_Conditions wr_Action] in Ha |- *.
    rewrite !Hid, Hu. cbn [mbind result_bind]. rewrite !Hname, (guard_pass (128 <? slen name)), !Ht by done.
    rewrite (bool_decide_eq_true_2 (WAFRuleTypeMatch = WAFRuleTypeMatch)), Hc by done.
    cbn [mbind result_bind clearedRate wr_Type wr_Action setAction]. by rewrite Ha.
  - destruct (bool_decide (t = WAFRuleTypeRateLimit)) eqn:E2; [|done].
    apply bind_Ok in Hr as (r2 & Hrate & Hr). apply bind_Ok in Hr as ([s3 cs] & Hc%conditions_again & Hr). injection Hr as <- <-.
    assert (normalizeRateRule (loc ++ [("rules", i)]) (setAction (setConditions r2 id name t cs) a) = Ok (setAction (setConditions r2 id name t cs) a)) as Hrate'.
    { apply rate_again in Hrate. by apply rate_fields. }
    cbn [setAction setConditions wr_ID wr_Name wr_Type wr_Conditions wr_Action] in Ha |- *.
    rewrite !Hid, Hu. cbn [mbind result_bind]. rewrite !Hname, (guard_pass (128 <? slen name)), !Ht, E1, E2 by done.
    rewrite Hrate'. cbn [mbind result_bind setAction setConditions wr_Conditions]. rewrite Hc. cbn [mbind result_bind].
    change (wr_Type _) with t. change (wr_Action _) with a. by rewrite Ha.
Qed.
Lemma setRound_again i s x s' y : setRound i s x = Ok (s', y) → setRound i s y = Ok (s', y).
Proof.
  unfold WafPolicy.setRound. set (gid := "rule-set-" +:+ itoa (i + 1)). set (gname := "Rule set " +:+ itoa (i + 1)).
  set (id := if isEmpty (trimSpace (ws_ID x)) then gid else _). set (name := if isEmpty (trimSpace (ws_Name x)) then gname else _).
  intros (s1 & Hu & H)%bind_Ok. apply guard_then_Ok in H as [E1 H]. apply guard_then_Ok in H as [E2 H].
  apply bind_Ok in H as ([s2 rs] & Hr & H). injection H as <- <-. cbn [ws_ID ws_Name ws_Enabled ws_Rules].
  assert (trimSpace gid = gid) as Hg.
  { apply trimmed_start; [done|]. repeat apply graphicEnd_cons. apply sl_itoa. }
  assert ((if isEmpty (trimSpace id) then gid else trimSpace id) = id) as Hid by (by apply trim_default).
  assert ((if isEmpty (trimSpace name) then gname else trimSpace name) = name) as Hname.
  { apply trim_default, trimmed_start; [done|]. repeat apply graphicEnd_cons. apply sl_itoa. }
  assert (trimSpace id = id ∧ id ≠ "") as [Ht Hne].
  { unfold id. destruct (isEmpty (trimSpace (ws_ID x))) eqn:E; [split; [done|discriminate]|]. unfold isEmpty in E. b2p. split; [apply sl_trim|done]. }
  clearbody id name. rewrite !Hid, Hu. cbn [mbind result_bind]. rewrite !Hname, (guard_pass (128 <? slen name)) by done.
  assert (length rs = length (ws_Rules x)) as Hl.
  { by apply (forEach_valid _ ruleIDs validRule) in Hr as (_ & _ & Hl); [|apply ruleRound_valid]. }
  rewrite Hl, guard_pass by done. apply forEach_again in Hr; [by rewrite Hr|]. intros j s3 x' s4 y'. by apply ruleRound_again.
Qed.

Lemma prefix_again v v' : normalizeWAFPrefix v = Ok v' → normalizeWAFPrefix v' = Ok v' ∧ trimSpace v' = v' ∧ v' ≠ "".
Proof.
  unfold WafPolicy.normalizeWAFPrefix. intros H.
  assert (∃ p, v' = prefixString p ∧ maskedPrefix p = p ∧ (is4In6 (prefixAddr p) && (96 <=? prefixBits p)) = false) as (p & -> & Hm & H6).
  { destruct (parseAddr v) as [a|].
    - injection H as <-. eexists. split; [done|]. split; [apply nl_host|]. by rewrite nl_from, nl_unmap.
    - destruct (parsePrefix v) as [p|]; [|done]. injection H as <-. destruct (_ && _) eqn:E; eexists; (split; [done|]); rewrite nl_masked.
      + split; [done|]. by rewrite nl_in6 by apply nl_unmap.
      + split; [done|exact E]. }
  rewrite nl_addr, nl_prefix, Hm, H6. split; [done|]. apply nl_string.
Qed.
Lemma prefixes_stable values : ∀ seen l, normalizeWAFPrefixes seen values = Ok l →
  Forall (λ v, normalizeWAFPrefix v = Ok v ∧ trimSpace v = v ∧ v ≠ "") l.
Proof.
  induction values as [|v values IH]; intros seen l H; cbn [WafPolicy.normalizeWAFPrefixes] in H.
  { injection H as <-. constructor. }
  destruct (isEmpty _); [by eapply IH|]. apply bind_Ok in H as (v' & Hv%prefix_again & H).
  destruct (oneOf v' seen); [by eapply IH|]. apply bind_Ok in H as (rest & Hr & H). injection H as <-. constructor; [done|by eapply IH].
Qed.
Lemma prefixes_again l : Forall (λ v, normalizeWAFPrefix v = Ok v ∧ trimSpace v = v ∧ v ≠ "") l →
  ∀ seen, NoDup l → (∀ v, v ∈ l → v ∉ seen) → normalizeWAFPrefixes seen l = Ok l.
Proof.
  induction 1 as [|v l (Hv & Ht & Hne) _ IH]; intros seen Hn Hs; cbn [WafPolicy.normalizeWAFPrefixes]; [done|].
  apply list.NoDup_cons in Hn as [Hv' Hn]. rewrite Ht. unfold isEmpty. rewrite bool_decide_eq_false_2 by done.
  rewrite Hv. cbn [mbind result_bind]. unfold oneOf. rewrite bool_decide_eq_false_2 by set_solver. rewrite IH; [done|done|set_solver].
Qed.

(** Normalising a policy again changes nothing: what [NormalizeAndValidate]
    accepted is a fixed point of it, with the generated identifiers and names,
    the canonical prefixes and the defaults kept. *)
Theorem normalize_idempotent p p' : NormalizeAndValidate p = Ok p' → NormalizeAndValidate p' = Ok p'.
Proof.
  unfold WafPolicy.NormalizeAndValidate. set (over := if isEmpty (upperTrim (wf_BodyOverLimitAction p)) then _ else _).
  set (limit := if wf_BodyInspectLimitBytes p =? 0 then _ else _).
  intros [E1 H]%guard_then_Ok. apply guard_then_Ok in H as [E2 H].
  apply guard_then_Ok in H as [E3 H]. apply bind_Ok in H as (proxies & Hp & H). apply guard_then_Ok in H as [E4 H].
  apply guard_then_Ok in H as [E5 H]. apply bind_Ok in H as ([s sets] & Hs & H). injection H as <-.
  cbn [wf_Enabled wf_TrustedProxyChain wf_TrustedProxies wf_RuleSets wf_BodyInspectLimitBytes wf_BodyOverLimitAction wf_GeoIPDatabase].
  assert ((if isEmpty (upperTrim over) then "PARTIAL" else upperTrim over) = over) as -> by (apply upper_default; member).
  assert (0 < limit) as Hl by (unfold limit; destruct (wf_BodyInspectLimitBytes p =? 0) eqn:E; b2p; [by vm_compute|lia]).
  clearbody over limit. rewrite guard_pass by done. rewrite guard_pass by (apply Z.ltb_ge; lia).
  rewrite (proj2 (Z.eqb_neq limit 0)), guard_pass by (done || lia).
  destruct (normalizeWAFPrefixes [] (wf_TrustedProxies p)) as [l|e] eqn:El; [|done]. injection Hp as <-.
  pose proof (prefixes_nodup _ _ _ El) as [Hn Hd]. rewrite (prefixes_again l) by (done || by eapply prefixes_stable).
  cbn [mbind result_bind]. rewrite guard_pass by done.
  assert (length sets = length (match wf_RuleSets p with Some sets => sets | None => default [] (wf_RuleSets DefaultWAFPolicy) end)) as Hlen.
  { by apply (forEach_valid _ setIDs validSet) in Hs as (_ & _ & Hlen); [|apply setRound_valid]. }
  rewrite Hlen, guard_pass by done. apply forEach_again in Hs; [|apply setRound_again]. rewrite Hs. cbn [mbind result_bind]. by rewrite sl_trim.
Qed.
End Normalized.

(** ** An instance *)

Module PolicyDemo.

(** [TrimSpace] and [ToUpper] on ASCII, as operations on lists of characters. *)
Definition space (c : ascii) : bool := bool_decide (Ascii.nat_of_ascii c ∈ [9; 10; 11; 12; 13; 32]%nat).
Fixpoint trimLeft (l : list ascii) : list ascii := match l with c :: l' => if space c then trimLeft l' else l | [] => [] end.
Definition trimChars (l : list ascii) : list ascii := reverse (trimLeft (reverse (trimLeft l))).
Definition asciiTrim (s : string) : string := string_of_list_ascii (trimChars (list_ascii_of_string s)).
Definition upperChar (c : ascii) : ascii :=
  let n := Ascii.nat_of_ascii c in if ((97 <=? n) && (n <=? 122))%nat then Ascii.ascii_of_nat (n - 32) else c.
Definition asciiUpper (s : string) : string := string_of_list_ascii (upperChar <$> list_ascii_of_string s).

(** A trimmed list has no space at its ends. *)
Definition bare (l : list ascii) : Prop := (∀ c, head l = Some c → space c = false) ∧ ∀ c, last l = Some c → space c = false.

Lemma trimLeft_head l : ∀ c, head (trimLeft l) = Some c → space c = false.
Proof. induction l as [|d l IH]; cbn; [done|]. destruct (space d) eqn:E; [done|]. intros c [= <-]. done. Qed.
Lemma trimLeft_suffix l : ∃ k, l = k ++ trimLeft l.
Proof.
  induction l as [|d l [k IH]]; cbn; [by exists []|]. destruct (space d); [|by exists []]. exists (d :: k). cbn. by rewrite <- IH.
Qed.
Lemma trimLeft_id l : (∀ c, head l = Some c → space c = false) → trimLeft l = l.
Proof. destruct l as [|d l]; [done|]. cbn. intros H. by rewrite (H d eq_refl). Qed.
Lemma bare_id l : bare l → trimChars l = l.
Proof.
  intros [H1 H2]. unfold trimChars. rewrite (trimLeft_id l) by done. rewrite trimLeft_id; [apply reverse_involutive|].
  intros c Hc. apply H2. by rewrite head_reverse in Hc.
Qed.
Lemma trim_bare l : bare (trimChars l).
Proof.
  unfold trimChars. set (m := trimLeft l). split.
  - intros c Hc. rewrite head_reverse in Hc. destruct (trimLeft_suffix (reverse m)) as [k Hk].
    apply (trimLeft_head l). fold m. rewrite <- (reverse_involutive m), head_reverse, Hk. by apply last_app_Some; left.
  - intros c Hc. rewrite last_reverse in Hc. by apply trimLeft_head in Hc.
Qed.
Lemma trim_iff s : asciiTrim s = s ↔ bare (list_ascii_of_string s).
Proof.
  unfold asciiTrim. split; intros H.
  - rewrite <- H, list_ascii_of_string_of_list_ascii. apply trim_bare.
  - rewrite bare_id by done. apply string_of_list_ascii_of_string.
Qed.
Lemma space_graphic c : graphic c = true → space c = false.
Proof.
  unfold graphic, space. intros [H1 H2]%andb_true_iff. apply Nat.leb_le in H1. apply bool_decide_eq_false. rewrite !elem_of_cons, elem_of_nil. lia.
Qed.
Lemma upper_space c : space (upperChar c) = space c.
Proof. destruct c as [[] [] [] [] [] [] [] []]; vm_compute; reflexivity. Qed.
Lemma upper_again c : upperChar (upperChar c) = upperChar c.
Proof. destruct c as [[] [] [] [] [] [] [] []]; vm_compute; reflexivity. Qed.

Lemma graphicEnd_last s : graphicEnd s = true → ∃ c, last (list_ascii_of_string s) = Some c ∧ graphic c = true.
Proof.
  induction s as [|d s IH]; [done|]. destruct s as [|e s]; [intros H; by exists d|]. intros H. destruct IH as (c & Hc & Hg); [done|].
  exists c. split; [|done]. cbn in *. by rewrite Hc.
Qed.
Lemma list_ascii_app a b : list_ascii_of_string (a +:+ b) = list_ascii_of_string a ++ list_ascii_of_string b.
Proof. induction a as [|c a IH]; [done|]. change (String c a +:+ b) with (String c (a +:+ b)). cbn. by rewrite IH. Qed.

Definition digit (n : nat) : ascii := Ascii.ascii_of_nat (48 + n mod 10).
Fixpoint decimal (fuel n : nat) : string :=
  match fuel with
  | O => String (digit n) EmptyString
  | S fuel => if (n <? 10)%nat then String (digit n) EmptyString else decimal fuel (n / 10) +:+ String (digit n) EmptyString
  end.
Definition asciiItoa (n : nat) : string := decimal n n.
Definition someDigest (s : string) : string := "e3b0c44298fc1c14".

Lemma digit_graphic n : graphic (digit n) = true.
Proof.
  unfold digit. pose proof (Nat.mod_upper_bound n 10 ltac:(lia)) as H. set (k := (n mod 10)%nat) in *. clearbody k.
  do 10 (destruct k as [|k]; [done|]). lia.
Qed.
Lemma itoa_graphic n : graphicEnd (asciiItoa n) = true.
Proof.
  unfold asciiItoa. destruct n; cbn [decimal]; [apply digit_graphic|]. destruct (_ <? _)%nat; [apply digit_graphic|].
  apply graphicEnd_app, digit_graphic.
Qed.

#[local] Instance ascii_laws : StringLaws asciiTrim asciiUpper (λ s, s) asciiItoa someDigest.
Proof.
  assert (∀ s, asciiTrim (asciiTrim s) = asciiTrim s) as Htrim.
  { intros s. apply trim_iff. unfold asciiTrim. rewrite list_ascii_of_string_of_list_ascii. apply trim_bare. }
  split; try done.
  - intros c Hc. apply trim_iff. split; intros d [= <-]; by apply space_graphic.
  - intros a b Ha Hne (c & Hc & Hg)%graphicEnd_last. apply trim_iff in Ha as [H1 H2]. apply trim_iff. rewrite list_ascii_app. split.
    + intros d Hd. apply H1. destruct a; [done|]. exact Hd.
    + intros d Hd. rewrite last_app, Hc in Hd. injection Hd as <-. by apply space_graphic.
  - intros s. unfold upperTrim.
    assert (bare (upperChar <$> trimChars (list_ascii_of_string s))) as Hb.
    { destruct (trim_bare (list_ascii_of_string s)) as [H1 H2]. split; intros c Hc.
      - destruct (trimChars (list_ascii_of_string s)) as [|d l]; [done|]. injection Hc as <-. rewrite upper_space. by apply H1.
      - rewrite fmap_last in Hc. destruct (last (trimChars (list_ascii_of_string s))) as [d|]; [|done]. injection Hc as <-.
        rewrite upper_space. by apply H2. }
    unfold asciiUpper, asciiTrim. rewrite !list_ascii_of_string_of_list_ascii, bare_id by done.
    f_equal. rewrite <- list_fmap_compose. apply list_fmap_ext. intros i c _. apply upper_again.
  - intros s Hs. rewrite !elem_of_cons, elem_of_nil in Hs. repeat destruct Hs as [->|Hs]; [vm_compute; reflexivity..|done].
  - apply itoa_graphic.
Qed.

(** One prefix that parses and prints. *)
Definition everywhere : string := "0.0.0.0/0".
Definition oneAddr (s : string) : option unit := None.
Definition onePrefix (s : string) : option unit := if bool_decide (s = everywhere) then Some tt else None.
#[local] Instance net_laws :
  NetLaws asciiTrim oneAddr (λ a, a) (λ _, true) (λ _, false) onePrefix (λ _ _, tt) (λ _, tt) (λ p, p) (λ _, everywhere).
Proof. split; try done; by intros []. Qed.

Definition demoRule (id : string) : WAFRule := {|
  wr_ID := id; wr_Name := ""; wr_Enabled := true; wr_Type := "rate_limit"; wr_Conditions := {| wn_Operator := ""; wn_Groups := [] |};
  wr_Key := "client_ip"; wr_KeyName := "x"; wr_Requests := 10; wr_WindowSeconds := 60; wr_Burst := 5; wr_Backend := ""; wr_FailureMode := "";
  wr_Action := defaultBlock 0 |}.
Definition demoPolicy : WAFPolicy := {|
  wf_Enabled := true; wf_TrustedProxyChain := true; wf_TrustedProxies := [" 0.0.0.0/0"; "0.0.0.0/0"];
  wf_RuleSets := Some [{| ws_ID := ""; ws_Name := " set"; ws_Enabled := true; ws_Rules := [demoRule "a "; demoRule ""] |}];
  wf_BodyInspectLimitBytes := 0; wf_BodyOverLimitAction := " block"; wf_GeoIPDatabase := "" |}.

Definition demoNormalize : WAFPolicy → result wafError WAFPolicy :=
  NormalizeAndValidate asciiTrim asciiUpper (λ s, s) asciiItoa unit unit oneAddr (λ a, a) (λ _, true) (λ _, false) onePrefix
    (λ _ _, tt) (λ _, tt) (λ _, 0) (λ p, p) (λ _, everywhere) (λ _, true) (λ _, true) (λ _, None) someDigest.
Definition demoNormalized : WAFPolicy := match demoNormalize demoPolicy with Ok p => p | Err _ => demoPolicy end.

Lemma normalized_policy_valid_witness :
  NoDup (policyIDs demoNormalized) ∧ policyIDs demoNormalized = ["rule-set-1"; "a"; "rule-set-1-rule-2"].
Proof.
  split; [|vm_compute; reflexivity].
  destruct (normalized_policy_valid asciiTrim asciiUpper (λ s, s) asciiItoa unit unit oneAddr (λ a, a) (λ _, true) (λ _, false) onePrefix
    (λ _ _, tt) (λ _, tt) (λ _, 0) (λ p, p) (λ _, everywhere) (λ _, true) (λ _, true) (λ _, None) someDigest demoPolicy demoNormalized)
    as (_ & _ & _ & _ & sets & _ & _ & _ & Hn & _); [vm_compute; reflexivity|exact Hn].
Defined.
Lemma normalize_idempotent_witness : demoNormalize demoNormalized = Ok demoNormalized.
Proof.
  apply (normalize_idempotent asciiTrim asciiUpper (λ s, s) asciiItoa unit unit oneAddr (λ a, a) (λ _, true) (λ _, false) onePrefix
    (λ _ _, tt) (λ _, tt) (λ _, 0) (λ p, p) (λ _, everywhere) (λ _, true) (λ _, true) (λ _, None) someDigest demoPolicy demoNormalized).
  vm_compute. reflexivity.
Defined.

End PolicyDemo.
