(* ===== verification/RateLimit.v ===== *)
(** * Rate limits of the firewall ([caddy/waf/handler.go], [caddy/waf/pow.go])

    The local limiter of a rule (a fixed window per key, at most 4096 keys, the
    key seen longest ago makes room), the circuit breaker in front of the Redis
    limiter, the choice between the two, and the limits on the generation of
    CAPTCHA challenges.  Times are nanoseconds of Unix time; [time.Sub]
    saturates only beyond 292 years.  The order in which Go visits a map is an
    argument.  The theorems are in [RateLimitTheorems]. *)
From Stdlib Require Import ZArith Lia Ascii String.
From stdpp Require Import base numbers strings gmap sets option list.
From S2P Require Import Prelude WafPolicy.

Local Open Scope Z_scope.

Definition second : Z := 10 ^ 9.

(** ** The local limiter *)

Definition maxLocalRateKeys : nat := 4096.

Record counter := { ct_windowStart : Z; ct_count : Z; ct_lastSeen : Z }.
Record counterStore := CounterStore { cs_entries : gmap string counter; cs_operations : Z }.

Definition zeroCounter : counter := {| ct_windowStart := zeroTime; ct_count := 0; ct_lastSeen := zeroTime |}.
Definition emptyStore : counterStore := CounterStore ∅ 0.

(** The loop of [allow] that searches the key seen longest ago. *)
Fixpoint oldestKey (key : string) (time : Z) (visited : list (string * counter)) : string :=
  match visited with
  | [] => key
  | (candidate, value) :: rest =>
      if bool_decide (key = "") || (ct_lastSeen value <? time) then oldestKey candidate (ct_lastSeen value) rest
      else oldestKey key time rest
  end.

(** [allow]; [visited] is the map in the order the search visits it. *)
Definition allow (s : counterStore) (key : string) (now : Z) (rule : WAFRule) (visited : list (string * counter))
  : counterStore * (bool * Z) :=
  let window := wr_WindowSeconds rule * second in
  let entries :=
    match cs_entries s !! key with
    | Some _ => cs_entries s
    | None =>
        if bool_decide (maxLocalRateKeys ≤ size (cs_entries s))%nat
        then delete (oldestKey "" zeroTime visited) (cs_entries s) else cs_entries s
    end in
  let entry := default zeroCounter (cs_entries s !! key) in
  let entry :=
    if isZeroTime (ct_windowStart entry) || (window <=? now - ct_windowStart entry)
    then {| ct_windowStart := now; ct_count := 0; ct_lastSeen := now |}
    else {| ct_windowStart := ct_windowStart entry; ct_count := ct_count entry; ct_lastSeen := now |} in
  if wr_Requests rule + wr_Burst rule <=? ct_count entry
  then (CounterStore (<[key := entry]> entries) (cs_operations s), (false, window - (now - ct_windowStart entry)))
  else
    let entry := {| ct_windowStart := ct_windowStart entry; ct_count := ct_count entry + 1; ct_lastSeen := ct_lastSeen entry |} in
    let entries := <[key := entry]> entries in
    let operations := wrap64 (cs_operations s + 1) in
    let entries :=
      if operations mod 1024 =? 0 then filter (λ kv, ¬ (2 * window < now - ct_lastSeen kv.2)) entries else entries in
    (CounterStore entries operations, (true, 0)).

(** ** The circuit breaker *)

Definition rateBackendInitialBackoff : Z := second.
Definition rateBackendMaxBackoff : Z := 30 * second.

(** The loop of [rateBackendBackoff]; its fuel is the number of failures. *)
Fixpoint backoffLoop (fuel : nat) (attempt failures delay : Z) : Z :=
  match fuel with
  | O => delay
  | S fuel =>
      if (attempt <? failures) && (delay <? rateBackendMaxBackoff) then backoffLoop fuel (attempt + 1) failures (delay * 2) else delay
  end.
Definition rateBackendBackoff (failures : Z) : Z :=
  Z.min (backoffLoop (Z.to_nat failures) 1 failures rateBackendInitialBackoff) rateBackendMaxBackoff.

Section Breaker.
(** The stores and errors of the Redis client. *)
Variable Store Error : Type.

Record rateBackendState := {
  rb_store : option Store; rb_err : option Error; rb_retryAt : Z; rb_failures : Z; rb_probing : bool; rb_generation : Z;
}.

(** The part of [Provision] that creates the breaker. *)
Definition newRateBackend (configured : result Error Store) (now : Z) : rateBackendState :=
  match configured with
  | Ok store => {| rb_store := Some store; rb_err := None; rb_retryAt := zeroTime; rb_failures := 0; rb_probing := false; rb_generation := 0 |}
  | Err e => {| rb_store := None; rb_err := Some e; rb_retryAt := now + rateBackendInitialBackoff; rb_failures := 1; rb_probing := false; rb_generation := 0 |}
  end.

Record ticket := { tk_store : option Store; tk_err : option Error; tk_probe : bool; tk_generation : Z }.

Definition acquireRateBackend (state : rateBackendState) (now : Z) : rateBackendState * ticket :=
  match rb_err state with
  | None => (state, {| tk_store := rb_store state; tk_err := None; tk_probe := false; tk_generation := rb_generation state |})
  | Some e =>
      if rb_probing state || (now <? rb_retryAt state)
      then (state, {| tk_store := None; tk_err := Some e; tk_probe := false; tk_generation := rb_generation state |})
      else ({| rb_store := rb_store state; rb_err := rb_err state; rb_retryAt := rb_retryAt state; rb_failures := rb_failures state;
               rb_probing := true; rb_generation := rb_generation state |},
            {| tk_store := rb_store state; tk_err := Some e; tk_probe := true; tk_generation := rb_generation state |})
  end.

Definition failRateBackend (state : rateBackendState) (e : Error) (now generation : Z) (probe : bool) : rateBackendState :=
  if negb (rb_generation state =? generation) || (negb probe && bool_decide (is_Some (rb_err state))) then state
  else
    let failures := rb_failures state + 1 in
    {| rb_store := rb_store state; rb_err := Some e; rb_retryAt := now + rateBackendBackoff failures; rb_failures := failures;
       rb_probing := false; rb_generation := wrap64 (rb_generation state + 1) |}.

Definition recoverRateBackend (state : rateBackendState) (store : Store) (generation : Z) : rateBackendState :=
  if negb (rb_generation state =? generation) || negb (rb_probing state) then state
  else {| rb_store := Some store; rb_err := None; rb_retryAt := zeroTime; rb_failures := 0; rb_probing := false;
          rb_generation := wrap64 (rb_generation state + 1) |}.

(** The middle of [allowRate]: the ticket's call to Redis, with the store made
    by [configuredRedisStore] when there is none.  [None] when the breaker does
    not let the call through. *)
Definition callBackend (t : ticket) (configured : result Error Store) (redisAllow : Store → result Error (bool * Z))
  : option (result Error (Store * (bool * Z))) :=
  if bool_decide (tk_err t = None) || tk_probe t then
    Some (
      store ← match tk_store t with Some store => Ok store | None => configured end;
      answer ← redisAllow store;
      Ok (store, answer))
  else None.
(** What the call's outcome does to the breaker. *)
Definition settleBackend (state : rateBackendState) (t : ticket) (now : Z) (outcome : result Error (Store * (bool * Z))) : rateBackendState :=
  match outcome with
  | Ok (store, _) => if tk_probe t then recoverRateBackend state store (tk_generation t) else state
  | Err e => failRateBackend state e now (tk_generation t) (tk_probe t)
  end.

(** How a rule answers when the backend is unavailable. *)
Definition fallback (limiter : counterStore) (rule : WAFRule) (key : string) (now : Z) (visited : list (string * counter))
  : counterStore * option (bool * Z) :=
  if bool_decide (wr_FailureMode rule = "OPEN") then (limiter, Some (true, 0))
  else if bool_decide (wr_FailureMode rule = "LOCAL") then
    let '(limiter, answer) := allow limiter key now rule visited in (limiter, Some answer)
  else (limiter, None).

(** [allowRate] without other requests in between: [None] is an error, and so is
    a handler without a breaker. *)
Definition allowRate (state : option rateBackendState) (limiter : counterStore) (rule : WAFRule) (key : string) (now : Z)
    (visited : list (string * counter)) (configured : result Error Store) (redisAllow : Store → result Error (bool * Z))
  : option rateBackendState * (counterStore * option (bool * Z)) :=
  if negb (bool_decide (wr_Backend rule = "REDIS")) then
    let '(limiter, answer) := allow limiter key now rule visited in (state, (limiter, Some answer))
  else
    match state with
    | None => (None, fallback limiter rule key now visited)
    | Some state =>
        let '(state, t) := acquireRateBackend state now in
        match callBackend t configured redisAllow with
        | None => (Some state, fallback limiter rule key now visited)
        | Some outcome =>
            let state := settleBackend state t now outcome in
            match outcome with
            | Ok (_, answer) => (Some state, (limiter, Some answer))
            | Err _ => (Some state, fallback limiter rule key now visited)
            end
        end
    end.

(** Requests in flight: a request takes a ticket, and later settles it; other
    requests run in between. *)
Inductive breakerStep : rateBackendState * list ticket → rateBackendState * list ticket → Prop :=
| BreakerAcquire state flight now state' t :
    acquireRateBackend state now = (state', t) →
    breakerStep (state, flight) (state', if bool_decide (tk_err t = None) || tk_probe t then t :: flight else flight)
| BreakerSettle state before t after now outcome :
    breakerStep (state, before ++ t :: after) (settleBackend state t now outcome, before ++ after).

End Breaker.

Arguments rb_store {_ _} _. Arguments rb_err {_ _} _. Arguments rb_retryAt {_ _} _. Arguments rb_failures {_ _} _.
Arguments rb_probing {_ _} _. Arguments rb_generation {_ _} _.
Arguments tk_store {_ _} _. Arguments tk_err {_ _} _. Arguments tk_probe {_ _} _. Arguments tk_generation {_ _} _.

(** ** Limits on CAPTCHA challenges *)

Definition rateOf (requests burst window : Z) : WAFRule := {|
  wr_ID := ""; wr_Name := ""; wr_Enabled := false; wr_Type := ""; wr_Conditions := {| wn_Operator := ""; wn_Groups := [] |};
  wr_Key := ""; wr_KeyName := ""; wr_Requests := requests; wr_WindowSeconds := window; wr_Burst := burst; wr_Backend := "";
  wr_FailureMode := ""; wr_Action := {| wa_Type := ""; wa_StatusCode := 0; wa_Response := {| wp_Type := ""; wp_Body := "" |};
  wa_RedirectURL := ""; wa_RedirectStatus := 0; wa_Tag := "" |} |}.
Definition powGlobalGenerationRate : WAFRule := rateOf 8 4 1.
Definition powSiteGenerationRate : WAFRule := rateOf 4 2 1.
Definition powIPGenerationRate : WAFRule := rateOf 1 1 1.

Record generationLimiters := { gl_ip : counterStore; gl_site : counterStore; gl_global : counterStore }.
Definition zeroByte : string := String Ascii.zero EmptyString.

(** [allowChallengeGeneration]: the time to wait, zero when allowed. *)
Definition allowChallengeGeneration (l : generationLimiters) (siteID ip : string) (now : Z)
    (visited : counterStore → list (string * counter)) : generationLimiters * Z :=
  let '(ipLimiter, (allowed, retry)) := allow (gl_ip l) (siteID +:+ zeroByte +:+ ip) now powIPGenerationRate (visited (gl_ip l)) in
  let l := {| gl_ip := ipLimiter; gl_site := gl_site l; gl_global := gl_global l |} in
  if negb allowed then (l, retry)
  else
    let '(siteLimiter, (allowed, retry)) := allow (gl_site l) siteID now powSiteGenerationRate (visited (gl_site l)) in
    let l := {| gl_ip := gl_ip l; gl_site := siteLimiter; gl_global := gl_global l |} in
    if negb allowed then (l, retry)
    else
      let '(globalLimiter, (allowed, retry)) := allow (gl_global l) "global" now powGlobalGenerationRate (visited (gl_global l)) in
      let l := {| gl_ip := gl_ip l; gl_site := gl_site l; gl_global := globalLimiter |} in
      if negb allowed then (l, retry) else (l, 0).

(** ** The slots for challenge generation *)

Definition powGenerationQueueSize : nat := 16.
Definition powGenerationSlots : nat := 2.

(** How many tokens are in the two channels, and what each generation is at:
    it waits for a slot, or it holds one. *)
Inductive generation := Waiting | Holding.
Record powState := PowState { pw_queue : nat; pw_slots : nat; pw_running : list generation }.

(** The steps of [acquirePoWGeneration] and of the function it returns. *)
Inductive powStep : powState → powState → Prop :=
| PowBusy s : (powGenerationQueueSize ≤ pw_queue s)%nat → powStep s s
| PowEnter s :
    (pw_queue s < powGenerationQueueSize)%nat → powStep s (PowState (S (pw_queue s)) (pw_slots s) (Waiting :: pw_running s))
| PowAcquire s before after :
    pw_running s = before ++ Waiting :: after → (pw_slots s < powGenerationSlots)%nat →
    powStep s (PowState (pw_queue s) (S (pw_slots s)) (before ++ Holding :: after))
| PowGiveUp s before after :
    pw_running s = before ++ Waiting :: after → powStep s (PowState (pred (pw_queue s)) (pw_slots s) (before ++ after))
| PowRelease s before after :
    pw_running s = before ++ Holding :: after → powStep s (PowState (pred (pw_queue s)) (pred (pw_slots s)) (before ++ after)).
