(* ===== verification/RateLimitTheorems.v ===== *)
(** * Theorems on the rate limits

    The local limiter is a fixed window per key: as long as the keys fit, its
    answers for a key are those of a counter for that key alone, it allows at
    most twice the limit in any interval of the window's length, and the time
    it tells a refused client to wait is exact.  The breaker lets at most one
    probe through, never loses its outcome and never stays open forever. *)
From Stdlib Require Import ZArith Lia Ascii String.
From stdpp Require Import base numbers strings gmap sets option relations list sorting.
From S2P Require Import Prelude WafPolicy RateLimit.

Local Open Scope Z_scope.

(** ** The number of keys *)

Lemma oldestKey_in visited : ∀ key time, oldestKey key time visited ∈ key :: visited.*1.
Proof.
  induction visited as [|[c v] rest IH]; intros key time; cbn [oldestKey fmap list_fmap fst].
  - apply list_elem_of_here.
  - destruct (_ || _).
    + apply list_elem_of_further, IH.
    + specialize (IH key time). apply elem_of_cons in IH as [->|IH]; [apply list_elem_of_here|by do 2 apply list_elem_of_further].
Qed.
Lemma oldestKey_visited visited : visited ≠ [] → oldestKey "" zeroTime visited ∈ visited.*1.
Proof. destruct visited as [|[c v] rest]; [done|]. intros _. cbn [oldestKey]. rewrite bool_decide_eq_true_2 by done. apply oldestKey_in. Qed.

Lemma size_insert_le {A} (m : gmap string A) k x n : (size (delete k m) < n)%nat → (size (<[k := x]> m) ≤ n)%nat.
Proof. intros H. rewrite <- insert_delete_eq, map_size_insert_None by apply lookup_delete_eq. lia. Qed.
Lemma size_filter_le {A} (P : string * A → Prop) `{!∀ x, Decision (P x)} (m : gmap string A) : (size (filter P m) ≤ size m)%nat.
Proof. rewrite <- !size_dom. apply subseteq_size, dom_filter_subseteq. Qed.

(** The limiter keeps at most 4096 keys. *)
Lemma allow_size s key now rule visited s' answer : visited ≡ₚ map_to_list (cs_entries s) →
  (size (cs_entries s) ≤ maxLocalRateKeys)%nat → allow s key now rule visited = (s', answer) →
  (size (cs_entries s') ≤ maxLocalRateKeys)%nat.
Proof.
  intros Hv Hs. unfold allow. set (entries := match cs_entries s !! key with Some _ => _ | None => _ end).
  assert (size (delete key entries) < maxLocalRateKeys)%nat as Hsize.
  { unfold entries. destruct (cs_entries s !! key) as [c|] eqn:Hk.
    - rewrite map_size_delete, Hk. assert (size (cs_entries s) ≠ 0%nat); [|lia].
      intros E%map_size_empty_inv. rewrite E, lookup_empty in Hk. done.
    - case_bool_decide as E.
      + assert (oldestKey "" zeroTime visited ∈ visited.*1) as Hin.
        { apply oldestKey_visited. intros ->. apply Permutation_nil_l in Hv. symmetry in Hv. apply map_to_list_empty_iff in Hv. rewrite Hv, map_size_empty in E. unfold maxLocalRateKeys in E. lia. }
        apply list_elem_of_fmap in Hin as ([k c] & Ek & Hin). cbn in Ek. rewrite Hv in Hin. apply elem_of_map_to_list in Hin. rewrite Ek.
        rewrite delete_id by (rewrite lookup_delete_None; by right).
        rewrite map_size_delete, Hin. assert (size (cs_entries s) ≠ 0%nat); [|lia].
        intros E'%map_size_empty_inv. rewrite E', lookup_empty in Hin. done.
      + rewrite delete_id by done. lia. }
  clearbody entries. destruct (_ <=? _); intros [= <- _]; cbn [cs_entries]; [by apply size_insert_le|].
  case_match; [etrans; [apply size_filter_le|]|]; by apply size_insert_le.
Qed.

(** ** A counter for one key *)

Section Window.
Context (limit window : Z) (Hl : 0 ≤ limit) (Hw : 0 < window).

(** The reference: the start of the window and the requests allowed in it. *)
Definition windowStep (st : option (Z * Z)) (now : Z) : (Z * Z) * bool :=
  let '(start, count) :=
    match st with
    | Some (start, count) => if window <=? now - start then (now, 0) else (start, count)
    | None => (now, 0)
    end in
  if limit <=? count then ((start, count), false) else ((start, count + 1), true).
Fixpoint windowRun (st : option (Z * Z)) (times : list Z) : list bool :=
  match times with
  | [] => []
  | now :: times => let '(st, ok) := windowStep st now in ok :: windowRun (Some st) times
  end.

(** The allowed requests of the interval of the window's length from [t]. *)
Fixpoint allowedIn (t : Z) (times : list Z) (answers : list bool) : Z :=
  match times, answers with
  | now :: times, ok :: answers => (if ok && (t <=? now) && (now <? t + window) then 1 else 0) + allowedIn t times answers
  | _, _ => 0
  end.

(** How many more requests the interval can get after a state. *)
Definition room (t : Z) (st : option (Z * Z)) : Z :=
  match st with
  | Some (start, count) =>
      if t + window <=? start then 0 else if t <=? start then limit - count else if t <? start + window then 2 * limit - count else 2 * limit
  | None => 2 * limit
  end.
Definition stateOk (now : Z) (st : option (Z * Z)) : Prop :=
  match st with Some (start, count) => start ≤ now ∧ 0 ≤ count ≤ limit | None => True end.

Lemma windowStep_room t st now : stateOk now st →
  let '(st', ok) := windowStep st now in
  stateOk now (Some st') ∧ (if ok && (t <=? now) && (now <? t + window) then 1 else 0) + room t (Some st') ≤ room t st.
Proof.
  unfold stateOk, windowStep, room. intros H. destruct st as [[start count]|].
  - destruct (window <=? now - start) eqn:E1.
    + destruct (limit <=? 0) eqn:E2; (split; [lia|]); repeat case_match; b2p; cbn in *; lia.
    + destruct (limit <=? count) eqn:E2; (split; [lia|]); repeat case_match; b2p; cbn in *; lia.
  - destruct (limit <=? 0) eqn:E2; (split; [lia|]); repeat case_match; b2p; cbn in *; lia.
Qed.

Lemma windowRun_bound t times : ∀ now st, stateOk now st → (∀ x, x ∈ times → now ≤ x) → StronglySorted Z.le times →
  allowedIn t times (windowRun st times) ≤ room t st.
Proof.
  induction times as [|x times IH]; intros now st Hst Hge Hs; cbn [windowRun allowedIn].
  { unfold room. destruct st as [[start count]|]; cbn in Hst; repeat case_match; lia. }
  assert (now ≤ x) as Hx by (apply Hge, list_elem_of_here).
  assert (stateOk x st) as Hst' by (destruct st as [[start count]|]; cbn in *; lia).
  pose proof (windowStep_room t st x Hst') as H. destruct (windowStep st x) as [st' ok]. destruct H as [Hok Hle].
  assert (allowedIn t times (windowRun (Some st') times) ≤ room t (Some st')); [|lia].
  apply StronglySorted_inv in Hs as [Hs Hall]. apply (IH x); [done| |done]. intros y Hy.
  rewrite list.Forall_forall in Hall. by apply Hall.
Qed.
End Window.

(** ** The limiter against the reference *)

Section Limiter.
Context (rule : WAFRule).
Let limit : Z := wr_Requests rule + wr_Burst rule.
Let window : Z := wr_WindowSeconds rule * second.
Context (Hl : 0 ≤ limit) (Hw : 0 < window).

(** A run: each request with its key, time and answer. *)
Inductive limiterRun : counterStore → list (string * Z * bool) → counterStore → Prop :=
| limiter_nil s : limiterRun s [] s
| limiter_cons s key now visited s1 ok retry evs s2 :
    visited ≡ₚ map_to_list (cs_entries s) → allow s key now rule visited = (s1, (ok, retry)) → limiterRun s1 evs s2 →
    limiterRun s ((key, now, ok) :: evs) s2.

Definition keyOf (ev : string * Z * bool) : string := ev.1.1.
Definition timeOf (ev : string * Z * bool) : Z := ev.1.2.
Definition forKey (k : string) (evs : list (string * Z * bool)) : list (string * Z * bool) := filter (λ ev, keyOf ev = k) evs.

(** What the limiter stores for a key, at a time, is what the reference has,
    unless that window is over. *)
Definition matches (now : Z) (stored : option counter) (st : option (Z * Z)) : Prop :=
  match stored, st with
  | Some c, Some (start, count) => ct_windowStart c = start ∧ ct_count c = count ∧ zeroTime < start ≤ ct_lastSeen c ∧ ct_lastSeen c ≤ now
  | None, Some (start, count) => window ≤ now - start
  | None, None => True
  | Some _, None => False
  end.

Lemma matches_later now later stored st : matches now stored st → now ≤ later → matches later stored st.
Proof. unfold matches. destruct stored, st as [[start count]|]; intros H Hle; try done; lia. Qed.

(** One request, when the keys fit. *)
Lemma allow_matches s key now visited s' ok retry (st : string → option (Z * Z)) :
  (cs_entries s !! key = None → (size (cs_entries s) < maxLocalRateKeys)%nat) → zeroTime < now →
  (∀ k, matches now (cs_entries s !! k) (st k)) → allow s key now rule visited = (s', (ok, retry)) →
  let '(st', ok') := windowStep limit window (st key) now in
  ok = ok' ∧ ∀ k, matches now (cs_entries s' !! k) (if decide (k = key) then Some st' else st k).
Proof.
  intros Hfit Hz Hm. unfold allow.
  assert (match cs_entries s !! key with Some _ => cs_entries s | None =>
      if bool_decide (maxLocalRateKeys ≤ size (cs_entries s))%nat then delete (oldestKey "" zeroTime visited) (cs_entries s) else cs_entries s end
    = cs_entries s) as ->.
  { destruct (cs_entries s !! key); [done|]. rewrite bool_decide_eq_false_2; [done|]. specialize (Hfit eq_refl). lia. }
  fold limit window. set (entry := if isZeroTime _ || _ then _ else _).
  assert (windowStep limit window (st key) now
    = (if limit <=? ct_count entry then ((ct_windowStart entry, ct_count entry), false) else ((ct_windowStart entry, ct_count entry + 1), true))
    ∧ ct_lastSeen entry = now ∧ zeroTime < ct_windowStart entry ≤ now) as (Hstep & Hseen & Hstart).
  { specialize (Hm key). unfold windowStep, entry. destruct (cs_entries s !! key) as [c|], (st key) as [[start count]|]; cbn [default from_option id matches] in *; try done.
    - destruct Hm as (<- & <- & Hc). unfold isZeroTime. rewrite (proj2 (Z.eqb_neq (ct_windowStart c) zeroTime)) by lia. cbn [orb].
      destruct (window <=? now - ct_windowStart c); cbn [ct_windowStart ct_count ct_lastSeen]; split_and!; try done; lia.
    - rewrite (proj2 (Z.leb_le window (now - start))) by lia. cbn [zeroCounter ct_windowStart isZeroTime]. unfold isZeroTime. rewrite Z.eqb_refl. cbn. split_and!; try done; lia. }
  rewrite Hstep. clearbody entry. clear Hstep.
  assert (∀ c k, ct_windowStart c = ct_windowStart entry → ct_lastSeen c = now →
    matches now ((<[key := c]> (cs_entries s)) !! k) (if decide (k = key) then Some (ct_windowStart c, ct_count c) else st k)) as Hins.
  { intros c k Es El. destruct (decide (k = key)) as [->|Hne].
    - rewrite lookup_insert_eq. cbn. split_and!; try done; lia.
    - rewrite lookup_insert_ne by done. apply Hm. }
  destruct (limit <=? ct_count entry); intros [= <- <- <-]; (split; [done|]); cbn [cs_entries]; intros k.
  - by apply Hins.
  - set (c := {| ct_windowStart := ct_windowStart entry; ct_count := ct_count entry + 1; ct_lastSeen := ct_lastSeen entry |}).
    specialize (Hins c k eq_refl Hseen). cbn [c ct_windowStart ct_count] in Hins. destruct (_ =? 0); [|exact Hins].
    rewrite map_lookup_filter. destruct ((<[key := c]> (cs_entries s)) !! k) as [c'|]; [|exact Hins]. cbn [mbind option_bind].
    case_guard as Hg; cbn [mbind option_bind snd] in *; [exact Hins|].
    destruct (if decide (k = key) then _ else _) as [[start count]|]; [|done]. cbn in Hins |- *. lia.
Qed.
Lemma allow_dom s key now visited s' answer : allow s key now rule visited = (s', answer) →
  dom (cs_entries s') ⊆ {[key]} ∪ dom (cs_entries s).
Proof.
  unfold allow. set (entries := match cs_entries s !! key with Some _ => _ | None => _ end).
  assert (dom entries ⊆ dom (cs_entries s)) as He.
  { unfold entries. destruct (cs_entries s !! key); [done|]. case_bool_decide; [|done]. rewrite dom_delete_L. set_solver. }
  clearbody entries. destruct (_ <=? _); intros [= <- _]; cbn [cs_entries]; [rewrite dom_insert_L; set_solver|].
  destruct (_ =? 0); [etrans; [apply dom_filter_subseteq|]|]; rewrite dom_insert_L; set_solver.
Qed.

Lemma run_reference s evs s' : limiterRun s evs s' → ∀ now (st : string → option (Z * Z)) (keys : gset string),
  (∀ k, matches now (cs_entries s !! k) (st k)) → dom (cs_entries s) ⊆ keys → (∀ ev, ev ∈ evs → keyOf ev ∈ keys) →
  (size keys ≤ maxLocalRateKeys)%nat → StronglySorted Z.le (timeOf <$> evs) → (∀ ev, ev ∈ evs → zeroTime < timeOf ev ∧ now ≤ timeOf ev) →
  ∀ k, (forKey k evs).*2 = windowRun limit window (st k) (timeOf <$> forKey k evs).
Proof.
  induction 1 as [s|s key t visited s1 ok retry evs s2 Hv Ha _ IH]; intros now st keys Hm Hd Hk Hsz Hs Ht k; [done|].
  assert (zeroTime < t ∧ now ≤ t) as [Hz Hle] by (apply (Ht (key, t, ok)), list_elem_of_here).
  assert (key ∈ keys) as Hkey by (apply (Hk (key, t, ok)), list_elem_of_here).
  pose proof (allow_matches s key t visited s1 ok retry st) as Hstep.
  cbn [fmap list_fmap] in Hs. apply StronglySorted_inv in Hs as [Hs Hall].
  specialize (Hstep ltac:(intros E; apply (Nat.lt_le_trans _ (size keys)); [|done];
    rewrite <- size_dom; apply subset_size; apply not_elem_of_dom in E; set_solver) Hz
    ltac:(intros k'; by eapply matches_later) Ha).
  destruct (windowStep limit window (st key) t) as [st' ok'] eqn:E. destruct Hstep as [-> Hm'].
  assert ((forKey k evs).*2 = windowRun limit window (if decide (k = key) then Some st' else st k) (timeOf <$> forKey k evs)) as Hrest.
  { refine (IH t (λ k, if decide (k = key) then Some st' else st k) keys _ _ _ _ _ _ k); try done.
    - apply allow_dom in Ha. set_solver.
    - intros ev Hev. by apply Hk, list_elem_of_further.
    - intros ev Hev. split; [by apply Ht, list_elem_of_further|]. rewrite list.Forall_forall in Hall. by apply Hall, list_elem_of_fmap_2. }
  unfold forKey in Hrest |- *. rewrite filter_cons. cbn [keyOf fst]. destruct (decide (key = k)) as [->|Hne].
  - rewrite decide_True in Hrest by done. cbn [fmap list_fmap windowRun timeOf fst snd]. rewrite E. by f_equal.
  - rewrite decide_False in Hrest by congruence. exact Hrest.
Qed.

Lemma run_size s evs s' : limiterRun s evs s' → (size (cs_entries s) ≤ maxLocalRateKeys)%nat → (size (cs_entries s') ≤ maxLocalRateKeys)%nat.
Proof. induction 1; intros Hs; [done|]. by eauto using allow_size. Qed.

(** The requests of a run: times after the zero time that do not go back, and
    at most 4096 keys. *)
Record requestsOk (evs : list (string * Z * bool)) : Prop := {
  rq_times : StronglySorted Z.le (timeOf <$> evs);
  rq_zero : ∀ ev, ev ∈ evs → zeroTime < timeOf ev;
  rq_keys : (size (list_to_set (keyOf <$> evs) : gset string) ≤ maxLocalRateKeys)%nat;
}.

Lemma fresh_reference evs s' : limiterRun emptyStore evs s' → requestsOk evs →
  ∀ k, (forKey k evs).*2 = windowRun limit window None (timeOf <$> forKey k evs).
Proof.
  intros Hrun [H1 H2 H3] k. destruct evs as [|ev evs]; [done|].
  apply (run_reference _ _ _ Hrun (timeOf ev) (λ _, None) (list_to_set (keyOf <$> ev :: evs))); try done.
  - intros x Hx. apply elem_of_list_to_set. by apply list_elem_of_fmap_2.
  - intros x Hx. split; [by apply H2|]. cbn [fmap list_fmap] in H1. apply StronglySorted_inv in H1 as [_ Hall].
    apply elem_of_cons in Hx as [->|Hx]; [lia|]. rewrite list.Forall_forall in Hall. by apply Hall, list_elem_of_fmap_2.
Qed.

Lemma forKey_sorted k evs : StronglySorted Z.le (timeOf <$> evs) → StronglySorted Z.le (timeOf <$> forKey k evs).
Proof.
  induction evs as [|ev evs IH]; [done|]. cbn [fmap list_fmap]. intros [H1 Hall]%StronglySorted_inv.
  unfold forKey. rewrite filter_cons. destruct (decide _); [|by apply IH]. cbn [fmap list_fmap]. constructor; [by apply IH|].
  rewrite list.Forall_forall in Hall |- *. intros x (y & -> & Hy)%list_elem_of_fmap. apply list_elem_of_filter in Hy as [_ Hy].
  by apply Hall, list_elem_of_fmap_2.
Qed.

(** C29. The local limiter.  In every run, with any number of keys and any times,
    the store never exceeds 4096 keys: a new key evicts an old one.  In a run of
    at most 4096 distinct keys whose times do not go back it is a fixed window per
    key: the answers a key gets are those of a counter for that key alone (other
    keys and the removal of old entries change nothing), and in every interval of
    the window's length at most twice the limit of requests are allowed for it. *)
Theorem local_limiter_window evs s' : limiterRun emptyStore evs s' →
  (size (cs_entries s') ≤ maxLocalRateKeys)%nat
  ∧ (requestsOk evs → ∀ k, (forKey k evs).*2 = windowRun limit window None (timeOf <$> forKey k evs)
      ∧ ∀ t, allowedIn window t (timeOf <$> forKey k evs) ((forKey k evs).*2) ≤ 2 * limit).
Proof.
  intros Hrun. split; [eapply run_size; [exact Hrun|unfold emptyStore; cbn [cs_entries]; rewrite map_size_empty; unfold maxLocalRateKeys; lia]|].
  intros Hok k. pose proof (fresh_reference _ _ Hrun Hok k) as E. split; [exact E|]. intros t. rewrite E. destruct Hok as [H1 H2 _].
  apply (windowRun_bound limit window Hl Hw t _ zeroTime None); [done| |by apply forKey_sorted].
  intros x (y & -> & Hy)%list_elem_of_fmap. apply list_elem_of_filter in Hy as [_ Hy]. specialize (H2 y Hy). lia.
Qed.

(** The time a refused client is told to wait is exact: it is positive and at
    most the window, and the next request of the key is allowed if and only if
    it comes that much later or more. *)
Theorem retry_after_exact s key now visited s' retry :
  (∀ c, cs_entries s !! key = Some c → ct_windowStart c ≤ now) → zeroTime < now → 1 ≤ limit →
  allow s key now rule visited = (s', (false, retry)) →
  0 < retry ≤ window
  ∧ ∀ later visited', now ≤ later → (allow s' key later rule visited').2.1 = (now + retry <=? later).
Proof.
  clear Hl Hw. intros Hpast Hz Hlim. unfold allow at 1. set (entries := match cs_entries s !! key with Some _ => _ | None => _ end). clearbody entries.
  fold limit window. set (entry := if isZeroTime _ || _ then _ else _).
  assert ((ct_windowStart entry ≠ zeroTime ∧ now - ct_windowStart entry < window ∧ ct_windowStart entry ≤ now) ∨ ct_count entry = 0) as Hentry.
  { unfold entry. destruct (isZeroTime _ || _) eqn:E; [by right|left]. unfold isZeroTime in E. b2p. cbn [ct_windowStart].
    split_and!; try lia. destruct (cs_entries s !! key) as [c|] eqn:Hc; [by apply Hpast|]. cbn in *. lia. }
  destruct (limit <=? ct_count entry) eqn:El; [|done]. intros [= <- <-]. b2p. clearbody entry.
  destruct Hentry as [(H1 & H2 & H3)|H]; [|lia]. split; [lia|]. intros later visited' Hle.
  unfold allow. cbn [cs_entries]. rewrite lookup_insert_eq. cbn [default from_option id]. fold limit window.
  unfold isZeroTime. rewrite (proj2 (Z.eqb_neq _ _) H1). cbn [orb].
  destruct (window <=? later - ct_windowStart entry) eqn:E; cbn [ct_windowStart ct_count ct_lastSeen]; b2p.
  - rewrite (proj2 (Z.leb_gt _ _)) by lia. cbn. symmetry. apply Z.leb_le. lia.
  - rewrite (proj2 (Z.leb_le _ _)) by lia. cbn. symmetry. apply Z.leb_gt. lia.
Qed.
End Limiter.

(** ** The breaker *)

(** The delay doubles from one second and stops at thirty. *)
Lemma backoffLoop_spec fuel : ∀ attempt failures delay, 1 ≤ delay → 1 ≤ attempt → failures - attempt ≤ Z.of_nat fuel →
  Z.min (backoffLoop fuel attempt failures delay) rateBackendMaxBackoff
  = Z.min (delay * 2 ^ Z.max 0 (failures - attempt)) rateBackendMaxBackoff.
Proof.
  induction fuel as [|fuel IH]; intros attempt failures delay Hd Ha Hf; cbn [backoffLoop].
  { rewrite Z.max_l by lia. rewrite Z.pow_0_r. by rewrite Z.mul_1_r. }
  destruct (attempt <? failures) eqn:E1; b2p; cbn [andb].
  - rewrite Z.max_r by lia. destruct (delay <? rateBackendMaxBackoff) eqn:E2; b2p.
    + rewrite IH by lia. rewrite Z.max_r by lia. f_equal. replace (failures - attempt) with (1 + (failures - (attempt + 1))) by lia.
      rewrite Z.pow_add_r by lia. lia.
    + assert (0 < 2 ^ (failures - attempt)) by (apply Z.pow_pos_nonneg; lia). rewrite !Z.min_r; [done|nia|lia].
  - rewrite Z.max_l by lia. rewrite Z.pow_0_r. by rewrite Z.mul_1_r.
Qed.
Lemma rateBackendBackoff_spec failures : 1 ≤ failures →
  rateBackendBackoff failures = Z.min (second * 2 ^ (failures - 1)) (30 * second).
Proof.
  intros Hf. unfold rateBackendBackoff, rateBackendInitialBackoff. rewrite backoffLoop_spec; [by rewrite Z.max_r by lia| |lia|lia].
  by vm_compute.
Qed.
Lemma rateBackendBackoff_range failures : 1 ≤ failures → second ≤ rateBackendBackoff failures ≤ 30 * second.
Proof.
  intros Hf. rewrite rateBackendBackoff_spec by done. assert (0 < 2 ^ (failures - 1)) by (apply Z.pow_pos_nonneg; lia).
  change second with 1000000000. lia.
Qed.

Section Breaker.
Context {Store Error : Type}.
Notation rateBackendState := (rateBackendState Store Error).
Notation ticket := (ticket Store Error).
Notation breakerStep := (breakerStep Store Error).

Definition probes (flight : list ticket) : list ticket := filter (λ t, tk_probe t = true) flight.

(** A probe in flight belongs to the current generation, there is one exactly
    while the state says so, and only while the circuit is open. *)
Record breakerOk (st : rateBackendState * list ticket) : Prop := {
  bk_probe : if rb_probing st.1 then ∃ t, probes st.2 = [t] ∧ tk_generation t = rb_generation st.1 else probes st.2 = [];
  bk_closed : rb_err st.1 = None → rb_probing st.1 = false ∧ rb_failures st.1 = 0;
  bk_open e : rb_err st.1 = Some e → 1 ≤ rb_failures st.1;
}.

Lemma probes_app l1 l2 : probes (l1 ++ l2) = probes l1 ++ probes l2.
Proof. apply list.filter_app. Qed.
Lemma probes_cons t l : probes (t :: l) = if tk_probe t then t :: probes l else probes l.
Proof. unfold probes. rewrite filter_cons. destruct (tk_probe t); [by rewrite decide_True|by rewrite decide_False]. Qed.

Lemma breaker_step st st' : breakerOk st → breakerStep st st' → breakerOk st'.
Proof.
  intros [H1 H2 H3] Hstep. destruct Hstep as [state flight now state' t Ha|state before t after now outcome]; cbn [fst snd] in *.
  - unfold acquireRateBackend in Ha. destruct (rb_err state) as [e|] eqn:Ee.
    + destruct (rb_probing state || (now <? rb_retryAt state)) eqn:E; injection Ha as <- <-; cbn [tk_err tk_probe];
        rewrite bool_decide_eq_false_2 by done; cbn [orb].
      * split; cbn [fst snd]; [done|congruence|by intros e' _; eapply H3].
      * apply orb_false_iff in E as [E _]. rewrite E in H1. split; cbn [fst snd rb_probing rb_err rb_failures rb_generation]; [|congruence|by intros e' _; eapply H3].
        eexists. by rewrite probes_cons; cbn [tk_probe]; rewrite H1.
    + injection Ha as <- <-. cbn [tk_err]. rewrite bool_decide_eq_true_2 by done. cbn [orb].
      split; cbn [fst snd]; [by rewrite probes_cons|by intros _; apply H2|congruence].
  - rewrite probes_app, probes_cons in H1.
    assert (tk_probe t = false → probes (before ++ after) = probes before ++ (if tk_probe t then t :: probes after else probes after)) as Hplain.
    { intros ->. apply probes_app. }
    assert (tk_probe t = true → rb_probing state = true ∧ tk_generation t = rb_generation state ∧ probes (before ++ after) = []) as Hprobe.
    { intros Hp. rewrite Hp in H1. destruct (rb_probing state); [|by destruct (probes before)].
      destruct H1 as (t' & E & Hg). rewrite probes_app. destruct (probes before) as [|x l]; cbn in E; [|by destruct l]. by injection E as -> ->. }
    destruct outcome as [[store answer]|e]; cbn [settleBackend].
    + destruct (tk_probe t) eqn:Hp.
      * destruct (Hprobe eq_refl) as (Hpr & Hg & Hnil). unfold recoverRateBackend. rewrite Hg, Z.eqb_refl, Hpr. cbn [negb orb].
        split; cbn [fst snd rb_probing rb_err rb_failures]; [by rewrite Hnil|done|congruence].
      * split; cbn [fst snd]; [|done|done]. by rewrite Hplain.
    + unfold failRateBackend. destruct (negb (rb_generation state =? tk_generation t) || _) eqn:E.
      * split; cbn [fst snd]; [|done|done]. destruct (tk_probe t) eqn:Hp; [|by rewrite Hplain].
        destruct (Hprobe eq_refl) as (_ & Hg & _). rewrite Hg, Z.eqb_refl in E. done.
      * assert (probes (before ++ after) = []) as Hnil.
        { destruct (tk_probe t) eqn:Hp; [by apply Hprobe|]. apply orb_false_iff in E as [_ E]. cbn [negb andb] in E. b2p.
          destruct (rb_err state) as [e'|] eqn:Ee; [by destruct E|]. destruct (H2 eq_refl) as [Hpr _]. rewrite Hpr in H1. by rewrite Hplain. }
        split; cbn [fst snd rb_probing rb_err rb_failures]; [by rewrite Hnil|congruence|].
        intros e' _. destruct (rb_err state) as [e''|] eqn:Ee; [specialize (H3 _ eq_refl); lia|destruct (H2 eq_refl); lia].
Qed.

Lemma breaker_reachable configured start st : rtc breakerStep (newRateBackend Store Error configured start, []) st → breakerOk st.
Proof.
  intros H. remember (newRateBackend Store Error configured start, []) as st0 eqn:E0.
  assert (breakerOk st0) as H0.
  { subst st0. destruct configured; split; cbn; try done. }
  clear E0. induction H as [|x y z Hxy _ IH]; [done|]. by eapply IH, breaker_step.
Qed.

(** An outcome changes nothing or starts a new generation, and one of another
    generation changes nothing. *)
Lemma settle_generation (state : rateBackendState) t now outcome : let settled := settleBackend Store Error state t now outcome in
  settled = state ∨ rb_generation settled = wrap64 (rb_generation state + 1).
Proof.
  destruct outcome as [[store answer]|e]; cbn [settleBackend].
  - destruct (tk_probe t); [|by left]. unfold recoverRateBackend. destruct (_ || _); [by left|by right].
  - unfold failRateBackend. destruct (_ || _); [by left|by right].
Qed.
Lemma settle_ignored (state : rateBackendState) t now outcome : tk_generation t ≠ rb_generation state
    ∨ (tk_probe t = false ∧ ((∃ store answer, outcome = Ok (store, answer)) ∨ rb_err state ≠ None)) →
  settleBackend Store Error state t now outcome = state.
Proof.
  assert (tk_generation t ≠ rb_generation state → (rb_generation state =? tk_generation t) = false) as Hg by (intros Hne; apply Z.eqb_neq; congruence).
  destruct outcome as [[store answer]|e]; cbn [settleBackend].
  - intros [Hne|[-> _]]; [|done]. destruct (tk_probe t); [|done]. unfold recoverRateBackend. by rewrite Hg.
  - unfold failRateBackend. intros [Hne|[-> [(store & answer & ?)|He]]]; [by rewrite Hg|done|]. rewrite bool_decide_eq_true_2 by (by apply not_eq_None_Some). by rewrite orb_true_r.
Qed.

(** C30. The breaker in front of Redis.  In every interleaving of requests: at most
    one probe is in flight, its outcome always counts, and there is one exactly
    while the breaker says it probes; a request reaches Redis only if the
    circuit was closed or if it is the probe, which starts only after the
    retry time; and the circuit never stays open: once no probe is in flight,
    the first request after the retry time is let through, its success closes
    the circuit and its failure opens it for one to thirty seconds.  A request
    carries the generation it started in, every change of the circuit by an
    outcome starts a new generation, and the outcome of a request from another
    generation changes nothing, nor does a success that is not the probe's or a
    failure that is not the probe's while the circuit is open. *)
Theorem breaker_safe configured start state flight :
  rtc breakerStep (newRateBackend Store Error configured start, []) (state, flight) →
  (length (probes flight) ≤ 1)%nat ∧ (rb_probing state = true ↔ probes flight ≠ [])
  ∧ (∀ t, t ∈ probes flight → tk_generation t = rb_generation state)
  ∧ (∀ now e, rb_err state = Some e → now < rb_retryAt state →
      bool_decide (tk_err (acquireRateBackend Store Error state now).2 = None) || tk_probe (acquireRateBackend Store Error state now).2 = false)
  ∧ (∀ now e, rb_err state = Some e → probes flight = [] → rb_retryAt state ≤ now →
      ∃ opened t, acquireRateBackend Store Error state now = (opened, t) ∧ tk_probe t = true
        ∧ (∀ store answer later, rb_err (settleBackend Store Error opened t later (Ok (store, answer))) = None)
        ∧ ∀ e' later, let failed := settleBackend Store Error opened t later (Err e') in
            rb_err failed = Some e' ∧ rb_probing failed = false ∧ later + second ≤ rb_retryAt failed ≤ later + 30 * second)
  ∧ (∀ now, tk_generation (acquireRateBackend Store Error state now).2 = rb_generation state
       ∧ rb_generation (acquireRateBackend Store Error state now).1 = rb_generation state)
  ∧ (∀ t now outcome, let settled := settleBackend Store Error state t now outcome in
       settled = state ∨ rb_generation settled = wrap64 (rb_generation state + 1))
  ∧ (∀ t now outcome, tk_generation t ≠ rb_generation state
       ∨ (tk_probe t = false ∧ ((∃ store answer, outcome = Ok (store, answer)) ∨ rb_err state ≠ None)) →
       settleBackend Store Error state t now outcome = state).
Proof.
  intros [H1 H2 H3]%breaker_reachable. cbn [fst snd] in *. split_and!.
  - destruct (rb_probing state); [destruct H1 as (t & -> & _); done|rewrite H1; cbn; lia].
  - destruct (rb_probing state); [destruct H1 as (t & -> & _); done|by rewrite H1].
  - intros t Ht. destruct (rb_probing state); [destruct H1 as (t' & E & Hg)|rewrite H1 in Ht; by apply elem_of_nil in Ht].
    rewrite E in Ht. by apply list_elem_of_singleton in Ht as ->.
  - intros now e He Hnow. unfold acquireRateBackend. rewrite He. rewrite (proj2 (Z.ltb_lt _ _) Hnow), orb_true_r. done.
  - intros now e He Hnone Hnow. unfold acquireRateBackend. rewrite He. rewrite (proj2 (Z.ltb_ge _ _) Hnow), orb_false_r.
    destruct (rb_probing state) eqn:Hp; [destruct H1 as (t & E & _); congruence|].
    eexists _, _. split; [done|]. split; [done|]. split; intros; cbn [settleBackend tk_probe tk_generation].
    + unfold recoverRateBackend. cbn [rb_generation rb_probing]. by rewrite Z.eqb_refl.
    + unfold failRateBackend. cbn [rb_generation rb_failures]. rewrite Z.eqb_refl. cbn [negb orb andb rb_err rb_probing rb_retryAt].
      pose proof (rateBackendBackoff_range (rb_failures state + 1) ltac:(specialize (H3 _ He); lia)). split_and!; try done; lia.
  - intros now. unfold acquireRateBackend. destruct (rb_err state); [destruct (_ || _)|]; done.
  - intros t now outcome. apply settle_generation.
  - intros t now outcome. apply settle_ignored.
Qed.
End Breaker.

(** ** Slots for challenge generation *)

#[local] Instance generation_eq_dec : EqDecision generation.
Proof. solve_decision. Defined.
Definition holding (l : list generation) : nat := length (filter (λ g, g = Holding) l).

Lemma holding_app l1 l2 : holding (l1 ++ l2) = (holding l1 + holding l2)%nat.
Proof. unfold holding. by rewrite list.filter_app, length_app. Qed.
Lemma holding_cons g l : holding (g :: l) = (match g with Holding => 1 | Waiting => 0 end + holding l)%nat.
Proof. unfold holding. rewrite filter_cons. by destruct g. Qed.

(** In every interleaving of challenge generations the two channels hold exactly
    one token for each generation that runs and one slot for each that derives
    a key, so that at most 16 run and at most 2 derive at a time. *)
Theorem pow_slots_bounded s : rtc powStep (PowState 0 0 []) s →
  pw_queue s = length (pw_running s) ∧ pw_slots s = holding (pw_running s)
  ∧ (length (pw_running s) ≤ powGenerationQueueSize)%nat ∧ (holding (pw_running s) ≤ powGenerationSlots)%nat.
Proof.
  intros H. remember (PowState 0 0 []) as s0 eqn:E0.
  assert (∀ s, pw_queue s = length (pw_running s) ∧ pw_slots s = holding (pw_running s)
    ∧ (length (pw_running s) ≤ powGenerationQueueSize)%nat ∧ (holding (pw_running s) ≤ powGenerationSlots)%nat →
    ∀ s', powStep s s' → pw_queue s' = length (pw_running s') ∧ pw_slots s' = holding (pw_running s')
    ∧ (length (pw_running s') ≤ powGenerationQueueSize)%nat ∧ (holding (pw_running s') ≤ powGenerationSlots)%nat) as Hstep.
  { clear. intros s (H1 & H2 & H3 & H4) s' Hstep.
    destruct Hstep as [s Hq|s Hq|s before after E Hs|s before after E|s before after E]; cbn [pw_queue pw_slots pw_running]; [done|..];
      rewrite ?E, ?length_app, ?holding_app, ?length_cons, ?holding_cons in *; lia. }
  assert (pw_queue s0 = length (pw_running s0) ∧ pw_slots s0 = holding (pw_running s0)
    ∧ (length (pw_running s0) ≤ powGenerationQueueSize)%nat ∧ (holding (pw_running s0) ≤ powGenerationSlots)%nat) as H0.
  { subst s0. cbn. unfold holding. cbn. lia. }
  clear E0. induction H as [|x y z Hxy _ IH]; [done|]. by eapply IH, Hstep.
Qed.

(** ** Runs *)

Module RateDemo.

Definition demoRate : WAFRule := rateOf 1 1 10.

(** Three requests of one client and one of another: the third is refused. *)
Definition askAt (s : counterStore) (key : string) (now : Z) : counterStore := (allow s key now demoRate (map_to_list (cs_entries s))).1.
Definition one : counterStore := askAt emptyStore "a" (5 * second).
Definition two : counterStore := askAt one "a" (6 * second).
Definition three : counterStore := askAt two "b" (7 * second).
Definition four : counterStore := askAt three "a" (9 * second).
Definition demoRequests : list (string * Z * bool) :=
  [("a", 5 * second, true); ("a", 6 * second, true); ("b", 7 * second, true); ("a", 9 * second, false)].

Lemma demo_requests_run : limiterRun demoRate emptyStore demoRequests four.
Proof.
  apply (limiter_cons _ _ _ _ (map_to_list (cs_entries emptyStore)) one _ 0); [done|vm_compute; reflexivity|].
  apply (limiter_cons _ _ _ _ (map_to_list (cs_entries one)) two _ 0); [done|vm_compute; reflexivity|].
  apply (limiter_cons _ _ _ _ (map_to_list (cs_entries two)) three _ 0); [done|vm_compute; reflexivity|].
  apply (limiter_cons _ _ _ _ (map_to_list (cs_entries three)) four _ (6 * second)); [done|vm_compute; reflexivity|].
  constructor.
Qed.
Lemma demo_requests_ok : requestsOk demoRequests.
Proof.
  split.
  - repeat constructor; by vm_compute.
  - intros ev Hev. unfold demoRequests in Hev. rewrite !elem_of_cons, elem_of_nil in Hev.
    repeat destruct Hev as [->|Hev]; [vm_compute; reflexivity..|done].
  - apply Nat.leb_le. vm_compute. reflexivity.
Qed.

Lemma local_limiter_window_witness :
  (forKey "a" demoRequests).*2 = windowRun 2 (10 * second) None [5 * second; 6 * second; 9 * second]
  ∧ windowRun 2 (10 * second) None [5 * second; 6 * second; 9 * second] = [true; true; false].
Proof.
  split; [|vm_compute; reflexivity].
  destruct (local_limiter_window demoRate ltac:(vm_compute; discriminate) ltac:(vm_compute; reflexivity) demoRequests four
    demo_requests_run) as [_ H].
  apply (H demo_requests_ok "a").
Defined.
Lemma retry_after_exact_witness :
  (allow four "a" (14 * second) demoRate []).2.1 = false ∧ (allow four "a" (15 * second) demoRate []).2.1 = true.
Proof.
  destruct (retry_after_exact demoRate three "a" (9 * second) (map_to_list (cs_entries three)) four (6 * second))
    as [_ H].
  - intros c Hc. vm_compute in Hc. injection Hc as <-. vm_compute. discriminate.
  - vm_compute. reflexivity.
  - vm_compute. discriminate.
  - vm_compute. reflexivity.
  - split; rewrite H; [vm_compute; reflexivity|vm_compute; discriminate|vm_compute; reflexivity|vm_compute; discriminate].
Defined.

(** Redis is down at the start; the first request after a second probes it. *)
Definition downState : rateBackendState unit string := newRateBackend unit string (Err "down") 0.
Lemma breaker_safe_witness :
  (length (probes [(acquireRateBackend unit string downState second).2]) ≤ 1)%nat
  ∧ tk_probe (acquireRateBackend unit string downState second).2 = true.
Proof.
  split; [|reflexivity].
  refine (proj1 (breaker_safe (Err "down") 0 (acquireRateBackend unit string downState second).1
    [(acquireRateBackend unit string downState second).2] _)).
  eapply rtc_l; [|apply rtc_refl]. apply (BreakerAcquire unit string downState [] second _ (acquireRateBackend unit string downState second).2). reflexivity.
Defined.

Lemma pow_slots_bounded_witness : holding [Holding; Waiting] = 1%nat ∧ (holding [Holding; Waiting] ≤ powGenerationSlots)%nat.
Proof.
  split; [reflexivity|]. refine (proj2 (proj2 (proj2 (pow_slots_bounded (PowState 2 1 [Holding; Waiting]) _)))).
  eapply rtc_l; [apply PowEnter; cbn; unfold powGenerationQueueSize; lia|].
  eapply rtc_l; [apply PowEnter; cbn; unfold powGenerationQueueSize; lia|].
  eapply rtc_l; [|apply rtc_refl]. apply (PowAcquire (PowState 2 0 [Waiting; Waiting]) [] [Waiting]); [reflexivity|cbn; unfold powGenerationSlots; lia].
Defined.

End RateDemo.
