(* ===== verification/Http.v ===== *)
(** * Requests, headers and strings

    What the edge modules use of Go's [net/http], [strings] and [strconv]: a
    request as the server parsed it, header maps, splitting and joining,
    trimming, case folding, canonical header names and decimal numbers.  Header
    maps have canonical names. *)
From Stdlib Require Import ZArith NArith Lia Ascii String.
From stdpp Require Import base numbers strings gmap sets option list.
From S2P Require Import Prelude.

Local Open Scope Z_scope.

(** ** Requests *)

Notation HttpHeader := (gmap string (list string)).

(** A request; [rq_Path] is the decoded path and [rq_EscapedPath] its text. *)
Record request := Request {
  rq_Method : string; rq_Host : string; rq_Path : string; rq_RawQuery : string; rq_RequestURI : string;
  rq_Query : gmap string (list string); rq_Header : HttpHeader; rq_Cookies : list (string * string);
  rq_RemoteAddr : string; rq_Body : option string; rq_Scheme : string; rq_TLS : bool; rq_EscapedPath : string;
}.

(** [Header.Get], [Header.Values] and [Request.Cookie]. *)
Definition headerValues (h : HttpHeader) (name : string) : list string := default [] (h !! name).
Definition headerGet (h : HttpHeader) (name : string) : string := default "" (head (headerValues h name)).
Fixpoint cookieOf (cookies : list (string * string)) (name : string) : option string :=
  match cookies with
  | [] => None
  | (n, v) :: rest => if bool_decide (n = name) then Some v else cookieOf rest name
  end.
Definition queryGet (q : gmap string (list string)) (name : string) : string := default "" (head (default [] (q !! name))).

Definition setHeader (h : HttpHeader) (name : string) (values : list string) : HttpHeader := <[name := values]> h.
Definition withHeader (r : request) (h : HttpHeader) : request :=
  Request (rq_Method r) (rq_Host r) (rq_Path r) (rq_RawQuery r) (rq_RequestURI r) (rq_Query r) h (rq_Cookies r) (rq_RemoteAddr r) (rq_Body r)
    (rq_Scheme r) (rq_TLS r) (rq_EscapedPath r).
Definition withBody (r : request) (body : string) : request :=
  Request (rq_Method r) (rq_Host r) (rq_Path r) (rq_RawQuery r) (rq_RequestURI r) (rq_Query r) (rq_Header r) (rq_Cookies r) (rq_RemoteAddr r)
    (Some body) (rq_Scheme r) (rq_TLS r) (rq_EscapedPath r).

(** ** Strings *)

(** [strings.Split] at a character, and [strings.Join] with a comma. *)
Definition comma : ascii := ","%char.
Fixpoint splitOn (separator : ascii) (s : string) : list string :=
  match s with
  | EmptyString => [EmptyString]
  | String c rest =>
      if bool_decide (c = separator) then EmptyString :: splitOn separator rest
      else match splitOn separator rest with
           | part :: parts => String c part :: parts
           | [] => [String c EmptyString]
           end
  end.
Notation splitComma := (splitOn comma).
Fixpoint joinComma (values : list string) : string :=
  match values with
  | [] => EmptyString
  | [v] => v
  | v :: rest => v +:+ String comma (joinComma rest)
  end.

Fixpoint contains (sub s : string) : bool :=
  String.prefix sub s || match s with EmptyString => false | String _ rest => contains sub rest end.
Fixpoint hasSuffix (suffix s : string) : bool :=
  bool_decide (s = suffix) || match s with EmptyString => false | String _ rest => hasSuffix suffix rest end.

Definition lowerChar (c : ascii) : ascii :=
  let n := Ascii.nat_of_ascii c in if ((65 <=? n) && (n <=? 90))%nat then Ascii.ascii_of_nat (n + 32) else c.
Fixpoint asciiLower (s : string) : string :=
  match s with EmptyString => EmptyString | String c s => String (lowerChar c) (asciiLower s) end.

(** Folding the case of a text for the comparison with an ASCII text: besides
    the ASCII letters, the long s and the Kelvin sign fold to one. *)
Fixpoint foldCase (s : string) : string :=
  match s with
  | EmptyString => EmptyString
  | String c rest =>
      match Ascii.nat_of_ascii c, rest with
      | 197%nat, String d rest' => if bool_decide (Ascii.nat_of_ascii d = 191%nat) then String "s" (foldCase rest') else String c (foldCase rest)
      | 226%nat, String d (String e rest') =>
          if bool_decide (Ascii.nat_of_ascii d = 132%nat) && bool_decide (Ascii.nat_of_ascii e = 170%nat) then String "k" (foldCase rest')
          else String c (foldCase rest)
      | _, _ => String (lowerChar c) (foldCase rest)
      end
  end.
Definition equalFold (s lower : string) : bool := bool_decide (foldCase s = lower).

(** [strings.Cut] at a character. *)
Fixpoint cutOn (separator : ascii) (s : string) : option (string * string) :=
  match s with
  | EmptyString => None
  | String c rest =>
      if bool_decide (c = separator) then Some (EmptyString, rest)
      else match cutOn separator rest with Some (before, after) => Some (String c before, after) | None => None end
  end.
(** [strings.Join]. *)
Fixpoint joinWith (separator : string) (values : list string) : string :=
  match values with
  | [] => EmptyString
  | [v] => v
  | v :: rest => v +:+ separator +:+ joinWith separator rest
  end.

(** [strings.TrimSpace]: the white space of Unicode, as the bytes of its runes. *)
Definition code (c : ascii) : nat := Ascii.nat_of_ascii c.
Definition space1 (a : ascii) : bool := bool_decide (code a ∈ [9; 10; 11; 12; 13; 32]%nat).
Definition space2 (a b : ascii) : bool := bool_decide (code a = 194%nat) && bool_decide (code b ∈ [133; 160]%nat).
Definition space3 (a b c : ascii) : bool :=
  (bool_decide (code a = 225%nat) && bool_decide (code b = 154%nat) && bool_decide (code c = 128%nat))
  || (bool_decide (code a = 226%nat) && bool_decide (code b = 128%nat)
      && (((128 <=? code c) && (code c <=? 138))%nat || bool_decide (code c ∈ [168; 169; 175]%nat)))
  || (bool_decide (code a = 226%nat) && bool_decide (code b = 129%nat) && bool_decide (code c = 159%nat))
  || (bool_decide (code a = 227%nat) && bool_decide (code b = 128%nat) && bool_decide (code c = 128%nat)).
Fixpoint trimFront (s : string) : string :=
  match s with
  | String a rest1 =>
      if space1 a then trimFront rest1
      else match rest1 with
           | String b rest2 =>
               if space2 a b then trimFront rest2
               else match rest2 with String c rest3 => if space3 a b c then trimFront rest3 else s | EmptyString => s end
           | EmptyString => s
           end
  | EmptyString => EmptyString
  end.
(** The same on the reversed text. *)
Fixpoint trimBack (s : string) : string :=
  match s with
  | String c rest1 =>
      if space1 c then trimBack rest1
      else match rest1 with
           | String b rest2 =>
               if space2 b c then trimBack rest2
               else match rest2 with String a rest3 => if space3 a b c then trimBack rest3 else s | EmptyString => s end
           | EmptyString => s
           end
  | EmptyString => EmptyString
  end.
Fixpoint reverseOnto (tail s : string) : string :=
  match s with EmptyString => tail | String c s => reverseOnto (String c tail) s end.
Definition trimSpaces (s : string) : string := reverseOnto EmptyString (trimBack (reverseOnto EmptyString (trimFront s))).

(** [http.CanonicalHeaderKey]: a name with a character that no name has is left
    as it is. *)
Definition headerChar (c : ascii) : bool :=
  let n := code c in
  ((48 <=? n) && (n <=? 57))%nat || ((65 <=? n) && (n <=? 90))%nat || ((94 <=? n) && (n <=? 122))%nat
  || bool_decide (n ∈ [33; 35; 36; 37; 38; 39; 42; 43; 45; 46; 124; 126]%nat).
Definition upperChar (c : ascii) : ascii := if ((97 <=? code c) && (code c <=? 122))%nat then Ascii.ascii_of_nat (code c - 32) else c.
Fixpoint capitalise (upper : bool) (s : string) : string :=
  match s with
  | EmptyString => EmptyString
  | String c s => String (if upper then upperChar c else lowerChar c) (capitalise (bool_decide (c = "-"%char)) s)
  end.
Fixpoint allChars (f : ascii → bool) (s : string) : bool :=
  match s with EmptyString => true | String c s => f c && allChars f s end.
Definition CanonicalHeaderKey (name : string) : string := if allChars headerChar name then capitalise true name else name.

(** ** Decimal numbers ([strconv]) *)

Definition digitChar (n : N) : ascii := ascii_of_N (48 + n mod 10).
Fixpoint decimalFrom (fuel : nat) (n : N) (tail : string) : string :=
  match fuel with
  | O => tail
  | S fuel =>
      let tail := String (digitChar n) tail in
      if (n <? 10)%N then tail else decimalFrom fuel (n / 10)%N tail
  end.
(** The decimal text of a number; it has at most one more digit than its binary
    logarithm. *)
Definition decimalText (n : N) : string := decimalFrom (S (N.to_nat (N.log2 n))) n EmptyString.
(** [strconv.Itoa]. *)
Definition itoa (n : Z) : string := if n <? 0 then String "-" (decimalText (Z.to_N (- n))) else decimalText (Z.to_N n).
Definition digitValue (c : ascii) : option N :=
  let n := N_of_ascii c in if ((48 <=? n) && (n <=? 57))%N then Some (n - 48)%N else None.
Fixpoint parseDigits (acc : N) (s : string) : option N :=
  match s with
  | EmptyString => Some acc
  | String c s => match digitValue c with Some d => parseDigits (acc * 10 + d)%N s | None => None end
  end.
(** [strconv.ParseUint] in base ten and 64 bits: the value, also of a failed
    call, and whether it succeeded.  It stops at the first digit that overflows. *)
Fixpoint parseUintFrom (acc : N) (s : string) : Z * bool :=
  match s with
  | EmptyString => (Z.of_N acc, true)
  | String c s =>
      match digitValue c with
      | Some d => let n := (acc * 10 + d)%N in if Z.of_N n <? 2 ^ 64 then parseUintFrom n s else (max_uint64, false)
      | None => (0, false)
      end
  end.
Definition parseUint (s : string) : Z * bool := match s with EmptyString => (0, false) | _ => parseUintFrom 0 s end.
(** [strconv.ParseInt] and [strconv.Atoi]: the digits are parsed first, and a
    range error is the only one that leaves a value. *)
Definition parseInt (s : string) : Z * bool :=
  let '(negative, digits) :=
    match s with
    | String c rest => if bool_decide (c = "-"%char) then (true, rest) else if bool_decide (c = "+"%char) then (false, rest) else (false, s)
    | EmptyString => (false, s)
    end in
  let '(n, ok) := parseUint digits in
  if negb ok && (n =? 0) then (0, false)
  else if negative then (if 2 ^ 63 <? n then (- 2 ^ 63, false) else (- n, true))
  else if max_int64 <? n then (max_int64, false) else (n, true).

(** ** Lemmas *)

(** Every character of a string. *)
Fixpoint everyChar (P : ascii → Prop) (s : string) : Prop :=
  match s with EmptyString => True | String c s => P c ∧ everyChar P s end.
Lemma everyChar_impl (P Q : ascii → Prop) s : (∀ c, P c → Q c) → everyChar P s → everyChar Q s.
Proof. intros H. induction s as [|c s IH]; [done|]. intros [? ?]. split; [by apply H|by apply IH]. Qed.
Lemma append_assoc a b c : a +:+ (b +:+ c) = (a +:+ b) +:+ c.
Proof. induction a as [|x a IH]; [done|]. exact (f_equal (String x) IH). Qed.
Lemma split_nonempty c s : splitOn c s ≠ [].
Proof. destruct s as [|d s]; cbn [splitOn]; [done|]. case_bool_decide; [done|]. by destruct (splitOn c s). Qed.
Lemma split_app c a b : splitOn c (a +:+ String c b) = splitOn c a ++ splitOn c b.
Proof.
  induction a as [|d a IH].
  { change (EmptyString +:+ String c b) with (String c b). cbn [splitOn]. by rewrite bool_decide_eq_true_2. }
  change (String d a +:+ String c b) with (String d (a +:+ String c b)). cbn [splitOn]. rewrite IH.
  case_bool_decide; [done|]. pose proof (split_nonempty c a). by destruct (splitOn c a).
Qed.
Lemma join_app l1 l2 : l1 ≠ [] → l2 ≠ [] → joinComma (l1 ++ l2) = joinComma l1 +:+ String comma (joinComma l2).
Proof.
  intros H1 H2. induction l1 as [|v l1 IH]; [done|]. destruct l1 as [|w l1].
  - cbn [app joinComma]. by destruct l2.
  - cbn [app] in *. change (joinComma (v :: w :: l1 ++ l2)) with (v +:+ String comma (joinComma (w :: l1 ++ l2))).
    rewrite IH by done. change (joinComma (v :: w :: l1)) with (v +:+ String comma (joinComma (w :: l1))).
    by rewrite <- append_assoc.
Qed.

Lemma substring_split body : ∀ n, String.substring 0 n body
  +:+ String.substring (String.length (String.substring 0 n body)) (String.length body - String.length (String.substring 0 n body)) body = body.
Proof.
  assert (∀ s, String.substring 0 (String.length s) s = s) as Hall.
  { induction s as [|c s IH]; [done|]. cbn. by rewrite IH. }
  induction body as [|c body IH]; intros n; [by destruct n|]. destruct n as [|n].
  - cbn. change (EmptyString +:+ String c (String.substring 0 (String.length body) body)) with (String c (String.substring 0 (String.length body) body)).
    by rewrite Hall.
  - cbn. change (String c (String.substring 0 n body) +:+ ?x) with (String c (String.substring 0 n body +:+ x)). f_equal. apply IH.
Qed.
Lemma substring_short body n : (String.length (String.substring 0 (S n) body) ≤ n)%nat → String.substring 0 (S n) body = body.
Proof.
  revert n. induction body as [|c body IH]; intros n H; [done|]. cbn in *. f_equal. destruct n as [|n]; [lia|]. apply IH. lia.
Qed.
Lemma append_inj_l a b c : a +:+ b = a +:+ c → b = c.
Proof. induction a as [|x a IH]; [done|]. intros H. apply IH. by injection H. Qed.
Lemma split_none c s : everyChar (λ d, d ≠ c) s → splitOn c s = [s].
Proof. induction s as [|d s IH]; [done|]. intros [Hd Hs]. cbn [splitOn]. by rewrite bool_decide_eq_false_2, IH. Qed.
Lemma split_one c s a : splitOn c s = [a] → s = a.
Proof.
  revert a. induction s as [|d s IH]; intros a; cbn [splitOn]; [by intros [= <-]|]. case_bool_decide.
  - intros [= _ H']. by apply split_nonempty in H'.
  - destruct (splitOn c s) as [|v [|? ?]] eqn:E; [by apply split_nonempty in E|intros [= <-]; f_equal; by apply IH|done].
Qed.
Lemma split_two c s a b : splitOn c s = [a; b] → s = a +:+ String c b.
Proof.
  revert a. induction s as [|d s IH]; intros a; cbn [splitOn]; [done|]. case_bool_decide as Hd.
  - intros [= <- H]. subst d. change (EmptyString +:+ String c b) with (String c b). f_equal. by eapply split_one.
  - destruct (splitOn c s) as [|v l] eqn:E; [by apply split_nonempty in E|]. intros [= <- ->].
    change (String d v +:+ String c b) with (String d (v +:+ String c b)). f_equal. by apply IH.
Qed.

(** ** Decimal round trips *)

Lemma digit_value n : digitValue (digitChar n) = Some (n mod 10)%N.
Proof.
  unfold digitValue, digitChar. assert (n mod 10 < 10)%N as H by by apply N.mod_lt. revert H. generalize (n mod 10)%N. intros m H.
  rewrite N_ascii_embedding by lia. assert ((48 <=? 48 + m)%N = true) as -> by (apply N.leb_le; lia).
  assert ((48 + m <=? 57)%N = true) as -> by (apply N.leb_le; lia). cbn [andb]. f_equal. lia.
Qed.
Lemma parse_decimalFrom fuel : ∀ n tail, (n < 10 ^ N.of_nat fuel)%N → fuel ≠ O → parseDigits 0 (decimalFrom fuel n tail) = parseDigits n tail.
Proof.
  induction fuel as [|fuel IH]; intros n tail H H0; [done|]. cbn [decimalFrom]. destruct (n <? 10)%N eqn:E.
  - apply N.ltb_lt in E. cbn [parseDigits]. rewrite digit_value, N.mod_small by done. done.
  - apply N.ltb_ge in E. destruct fuel as [|fuel]; [cbn in H; lia|]. rewrite IH; [|apply N.Div0.div_lt_upper_bound|done].
    + cbn [parseDigits]. rewrite digit_value. f_equal. rewrite (N.div_mod n 10) at 3 by done. lia.
    + rewrite <- N.pow_succ_r by lia. by rewrite <- Nat2N.inj_succ.
Qed.
Lemma decimal_fuel n : (n < 10 ^ N.of_nat (S (N.to_nat (N.log2 n))))%N.
Proof.
  destruct (decide (n = 0)%N) as [->|Hn]; [done|]. pose proof (N.log2_spec n ltac:(lia)) as [_ H]. eapply N.lt_le_trans; [exact H|].
  replace (N.of_nat (S (N.to_nat (N.log2 n)))) with (N.succ (N.log2 n)) by lia. apply N.pow_le_mono_l. lia.
Qed.
Lemma parse_decimal n : parseDigits 0 (decimalText n) = Some n.
Proof. unfold decimalText. rewrite parse_decimalFrom; [done|apply decimal_fuel|done]. Qed.
Lemma decimal_digits fuel : ∀ n tail, everyChar (λ c, digitValue c ≠ None) tail → everyChar (λ c, digitValue c ≠ None) (decimalFrom fuel n tail).
Proof.
  induction fuel as [|fuel IH]; intros n tail H; cbn [decimalFrom]; [done|].
  assert (everyChar (λ c, digitValue c ≠ None) (String (digitChar n) tail)) by (split; [by rewrite digit_value|done]).
  destruct (n <? 10)%N; [done|]. by apply IH.
Qed.
Lemma decimalText_digits n : everyChar (λ c, digitValue c ≠ None) (decimalText n).
Proof. by apply decimal_digits. Qed.
Lemma decimalText_nonempty n : decimalText n ≠ EmptyString.
Proof.
  intros H. pose proof (decimalText_digits n). unfold decimalText in H. cbn [decimalFrom] in H. destruct (n <? 10)%N; [done|].
  assert (∀ fuel m c tail, decimalFrom fuel m (String c tail) ≠ EmptyString) as Hne.
  { induction fuel as [|fuel IH]; intros m c tail; cbn [decimalFrom]; [done|]. destruct (m <? 10)%N; [done|]. apply IH. }
  by apply Hne in H.
Qed.
Lemma decimalText_inj n m : decimalText n = decimalText m → n = m.
Proof. intros H. apply (inj Some). by rewrite <- (parse_decimal n), H, parse_decimal. Qed.
Lemma parse_grows s : ∀ acc n, parseDigits acc s = Some n → (acc ≤ n)%N.
Proof.
  induction s as [|c s IH]; intros acc n; cbn [parseDigits]; [intros [= <-]; lia|].
  destruct (digitValue c); [|done]. intros H%IH. lia.
Qed.
Lemma parse_uint_from s : ∀ acc n, parseDigits acc s = Some n → (n < 2 ^ 64)%N → parseUintFrom acc s = (Z.of_N n, true).
Proof.
  induction s as [|c s IH]; intros acc n; cbn [parseDigits parseUintFrom]; [by intros [= <-]|].
  destruct (digitValue c) as [d|]; [|done]. intros H Hn. pose proof (parse_grows _ _ _ H).
  rewrite (proj2 (Z.ltb_lt _ _)) by lia. by apply IH.
Qed.
Lemma parseUint_decimal n : (n < 2 ^ 64)%N → parseUint (decimalText n) = (Z.of_N n, true).
Proof.
  intros H. unfold parseUint. rewrite (parse_uint_from _ _ _ (parse_decimal n) H).
  pose proof (decimalText_nonempty n). by destruct (decimalText n).
Qed.
Lemma itoa_inj n m : 0 ≤ n → 0 ≤ m → itoa n = itoa m → n = m.
Proof. unfold itoa. intros Hn Hm. rewrite !(proj2 (Z.ltb_ge _ _)) by lia. intros H%decimalText_inj. lia. Qed.

(** ** Texts without white space *)

Definition plainChar (c : ascii) : Prop := (33 ≤ code c ≤ 126)%nat.
Lemma space1_plain c : plainChar c → space1 c = false.
Proof. unfold plainChar, space1. intros H. apply bool_decide_eq_false_2. rewrite !elem_of_cons, elem_of_nil. lia. Qed.
Lemma high_plain c n : plainChar c → (126 < n)%nat → bool_decide (code c = n) = false.
Proof. unfold plainChar. intros H Hn. apply bool_decide_eq_false_2. lia. Qed.
Lemma space2_plain a b : plainChar a → space2 a b = false.
Proof. intros H. unfold space2. by rewrite high_plain by (done || lia). Qed.
Lemma space3_plain a b c : plainChar a → space3 a b c = false.
Proof. intros H. unfold space3. by rewrite (high_plain a 225), (high_plain a 226), (high_plain a 227) by (done || lia). Qed.
Lemma trimFront_plain s : everyChar plainChar s → trimFront s = s.
Proof.
  destruct s as [|a s]; [done|]. intros [Ha Hs]. cbn [trimFront]. rewrite space1_plain by done.
  destruct s as [|b s]; [done|]. rewrite space2_plain by done. destruct s as [|c s]; [done|]. by rewrite space3_plain.
Qed.
Lemma trimBack_plain s : everyChar plainChar s → trimBack s = s.
Proof.
  destruct s as [|c s]; [done|]. intros [Hc Hs]. cbn [trimBack]. rewrite space1_plain by done.
  destruct s as [|b s]; [done|]. destruct Hs as [Hb Hs]. rewrite space2_plain by done.
  destruct s as [|a s]; [done|]. destruct Hs as [Ha Hs]. by rewrite space3_plain.
Qed.
Lemma everyChar_reverse (P : ascii → Prop) s : ∀ tail, everyChar P (reverseOnto tail s) ↔ everyChar P tail ∧ everyChar P s.
Proof. induction s as [|c s IH]; intros tail; cbn; [tauto|]. rewrite IH. cbn. tauto. Qed.
Lemma reverse_reverse s : ∀ tail back, reverseOnto back (reverseOnto tail s) = reverseOnto (s +:+ back) tail.
Proof. induction s as [|c s IH]; intros tail back; [done|]. cbn [reverseOnto]. rewrite IH. done. Qed.
Lemma append_nil_r s : s +:+ EmptyString = s.
Proof. induction s as [|c s IH]; [done|]. exact (f_equal (String c) IH). Qed.
Lemma trim_plain s : everyChar plainChar s → trimSpaces s = s.
Proof.
  intros H. unfold trimSpaces. rewrite (trimFront_plain s H), trimBack_plain by (by apply everyChar_reverse).
  rewrite reverse_reverse. cbn [reverseOnto]. apply append_nil_r.
Qed.
Lemma digits_plain s : everyChar (λ c, digitValue c ≠ None) s → everyChar plainChar s.
Proof.
  apply everyChar_impl. intros c H. unfold digitValue in H. unfold plainChar, code, Ascii.nat_of_ascii.
  destruct (_ && _)%N eqn:E; [|done]. apply andb_true_iff in E as [E1%N.leb_le E2%N.leb_le]. lia.
Qed.
Lemma cons_append c a b : String c a +:+ b = String c (a +:+ b).
Proof. done. Qed.
Lemma length_append a b : String.length (a +:+ b) = (String.length a + String.length b)%nat.
Proof. induction a as [|c a IH]; [done|]. rewrite cons_append. cbn. by rewrite IH. Qed.
Lemma everyChar_append (P : ascii → Prop) a b : everyChar P (a +:+ b) ↔ everyChar P a ∧ everyChar P b.
Proof. induction a as [|c a IH]; [cbn; tauto|]. rewrite cons_append. cbn. rewrite IH. tauto. Qed.
Lemma cut_found c a b : everyChar (λ d, d ≠ c) a → cutOn c (a +:+ String c b) = Some (a, b).
Proof.
  induction a as [|d a IH]; intros H.
  - change (EmptyString +:+ String c b) with (String c b). cbn. by rewrite bool_decide_eq_true_2.
  - destruct H as [Hd Ha]. rewrite cons_append. cbn. by rewrite bool_decide_eq_false_2, IH.
Qed.
Lemma contains_char c s : everyChar (λ d, d ≠ c) s → contains (String c EmptyString) s = false.
Proof.
  induction s as [|d s IH]; [done|]. intros [Hd Hs]. cbn [contains String.prefix]. rewrite IH by done.
  destruct (ascii_dec c d) as [->|_]; done.
Qed.
Lemma not_digit c d : digitValue c ≠ None → digitValue d = None → c ≠ d.
Proof. congruence. Qed.
Lemma digits_without d n : digitValue d = None → everyChar (λ c, c ≠ d) (decimalText n).
Proof. intros H. eapply everyChar_impl; [|apply decimalText_digits]. cbn. intros c Hc. by eapply not_digit. Qed.

(** White space around a text is trimmed. *)
Lemma reverse_tail s : ∀ tail, reverseOnto tail s = reverseOnto EmptyString s +:+ tail.
Proof. induction s as [|c s IH]; intros tail; [done|]. cbn [reverseOnto]. by rewrite IH, (IH (String c EmptyString)), <- append_assoc. Qed.
Lemma reverse_append a b tail : reverseOnto tail (a +:+ b) = reverseOnto (reverseOnto tail a) b.
Proof. revert tail. induction a as [|c a IH]; intros tail; [done|]. rewrite cons_append. cbn [reverseOnto]. apply IH. Qed.
Lemma trimFront_spaces pad s : everyChar (λ c, space1 c = true) pad → trimFront (pad +:+ s) = trimFront s.
Proof. induction pad as [|c pad IH]; [done|]. intros [Hc Hp]. rewrite cons_append. cbn [trimFront]. rewrite Hc. by apply IH. Qed.
Lemma trimBack_spaces pad s : everyChar (λ c, space1 c = true) pad → trimBack (pad +:+ s) = trimBack s.
Proof. induction pad as [|c pad IH]; [done|]. intros [Hc Hp]. rewrite cons_append. cbn [trimBack]. rewrite Hc. by apply IH. Qed.
Lemma trimFront_leading c s t : plainChar c → trimFront (String c s +:+ t) = String c s +:+ t.
Proof.
  intros Hc. rewrite cons_append. cbn [trimFront]. rewrite space1_plain by done. destruct (s +:+ t) as [|b u]; [done|].
  rewrite space2_plain by done. destruct u as [|d u]; [done|]. by rewrite space3_plain.
Qed.
Lemma trim_padded pad s pad' : everyChar (λ c, space1 c = true) pad → everyChar (λ c, space1 c = true) pad' → everyChar plainChar s →
  trimSpaces (pad +:+ s +:+ pad') = s.
Proof.
  intros H1 H2 Hs. unfold trimSpaces. rewrite trimFront_spaces by done. destruct s as [|c s].
  - change ("" +:+ pad') with pad'. rewrite <- (append_nil_r pad'), trimFront_spaces by done. done.
  - rewrite trimFront_leading by apply Hs. rewrite reverse_append, (reverse_tail pad' (reverseOnto EmptyString (String c s))), trimBack_spaces by (by apply everyChar_reverse).
    rewrite trimBack_plain by (by apply everyChar_reverse). rewrite reverse_reverse. cbn [reverseOnto]. apply append_nil_r.
Qed.
Lemma cut_missing c s : everyChar (λ d, d ≠ c) s → cutOn c s = None.
Proof. induction s as [|d s IH]; [done|]. intros [Hd Hs]. cbn. by rewrite bool_decide_eq_false_2, IH. Qed.
