(* ===== verification/WafHandler.v ===== *)
(** * The firewall handler ([caddy/waf/handler.go])

    Provisioning a policy into compiled rules, matching a request against
    conditions, evaluating the rules in order, the client's address behind
    trusted proxies, and [ServeHTTP]: what a request is forwarded with or
    answered with.  Regular expressions, addresses, GeoIP, Unicode and the
    parsers of bodies are parameters; the CAPTCHA of [pow.go] is an interface
    here that [WafChallenge] implements.  A request's query and cookies are what
    Go's library parsed.  Header names are canonical. *)
From Stdlib Require Import ZArith Lia Ascii String.
From stdpp Require Import base numbers strings gmap sets option sorting.
From S2P Require Import Prelude Http WafPolicy RateLimit.

Local Open Scope Z_scope.

(** ** Requests *)

Record requestCandidate := { cd_name : string; cd_value : string; cd_sensitive : bool }.
Record requestData := {
  dt_request : request; dt_body : string; dt_bodyValues : list requestCandidate; dt_ip : string; dt_country : string; dt_region : string;
}.

(** [stripReservedWAFHeaders]: none of the letters of the reserved names has
    another case variant than the ASCII ones. *)
Definition reservedHeader (name : string) : bool :=
  bool_decide (asciiLower name = "x-goveto-waf") || String.prefix "x-goveto-waf-" (asciiLower name).
Definition stripReservedWAFHeaders (h : gmap string (list string)) : gmap string (list string) :=
  filter (λ kv, reservedHeader kv.1 = false) h.

Definition stringLe (a b : string) : Prop := String.leb a b = true.
#[export] Instance stringLe_dec a b : Decision (stringLe a b).
Proof. unfold stringLe. apply _. Defined.
Definition sortedQueryNames (q : gmap string (list string)) : list string := merge_sort stringLe (elements (dom q)).

(** ** What a match shows *)

Definition secretMatchKey : list string :=
  ["authorization"; "cookie"; "password"; "passwd"; "secret"; "token"; "apikey"; "api-key"; "api_key"; "session"; "credential"].
Definition sensitiveMatchKey (value : string) : bool := existsb (λ word, contains word (foldCase value)) secretMatchKey.

(** Go's view of a string as runes, and two of its Unicode classes. *)
Record unicodeText := {
  ut_runes : string → list Z; ut_string : list Z → string; ut_isControl : Z → bool; ut_isSpace : Z → bool;
}.

(** [strings.Fields]: the words, [word] being the one that is read. *)
Fixpoint fieldsFrom (isSpace : Z → bool) (word : list Z) (runes : list Z) : list (list Z) :=
  match runes with
  | [] => if bool_decide (word = []) then [] else [word]
  | r :: runes =>
      if isSpace r then (if bool_decide (word = []) then fieldsFrom isSpace [] runes else word :: fieldsFrom isSpace [] runes)
      else fieldsFrom isSpace (word ++ [r]) runes
  end.
Fixpoint joinSpace (words : list (list Z)) : list Z :=
  match words with
  | [] => []
  | [w] => w
  | w :: rest => w ++ 32 :: joinSpace rest
  end.

(** [longOpaqueValue.ReplaceAllString]: a longest run of at least 24 letters of
    the class is replaced; [run] is the one that is read. *)
Definition opaqueRune (r : Z) : bool :=
  ((65 <=? r) && (r <=? 90)) || ((97 <=? r) && (r <=? 122)) || ((48 <=? r) && (r <=? 57))
  || bool_decide (r ∈ [95; 43; 47; 61; 45]).
Definition redacted : list Z := [91; 82; 69; 68; 65; 67; 84; 69; 68; 93].
Definition closeRun (run : list Z) : list Z := if bool_decide (24 ≤ length run)%nat then redacted else run.
Fixpoint replaceOpaque (run : list Z) (runes : list Z) : list Z :=
  match runes with
  | [] => closeRun run
  | r :: runes => if opaqueRune r then replaceOpaque (run ++ [r]) runes else closeRun run ++ r :: replaceOpaque [] runes
  end.

Definition sanitizeMatchText (t : unicodeText) (value : string) (sensitive : bool) : string :=
  if sensitive then "[REDACTED]"
  else
    let runes := map (λ r, if ut_isControl t r || (r =? 59) then 32 else r) (ut_runes t value) in
    let runes := joinSpace (fieldsFrom (ut_isSpace t) [] runes) in
    let runes := replaceOpaque [] runes in
    if bool_decide (96 < length runes)%nat then ut_string t (take 96 runes) +:+ "..." else ut_string t runes.

(** ** Bodies ([body.go]) *)

(** The parsers of the library: a media type and its parameters, a form, the
    string tokens of a JSON text up to the first error, and the parts of a
    multipart body, each with its name, its file name and its content. *)
Record bodyParsers := {
  bp_mediaType : string → option (string * gmap string string); bp_form : string → gmap string (list string);
  bp_jsonStrings : string → list string; bp_parts : string → string → list (string * string * string);
}.
Definition bodyCandidate (name value : string) : requestCandidate :=
  {| cd_name := "BODY:" +:+ name; cd_value := value; cd_sensitive := sensitiveMatchKey name |}.
Definition decodedBodyCandidates (parsers : bodyParsers) (contentType body : string) : list requestCandidate :=
  match bp_mediaType parsers contentType with
  | None => []
  | Some (mediaType, parameters) =>
      if bool_decide (mediaType = "application/x-www-form-urlencoded") then
        let values := bp_form parsers body in
        concat (map (λ name, bodyCandidate name name :: map (bodyCandidate name) (default [] (values !! name))) (sortedQueryNames values))
      else if bool_decide (mediaType = "application/json") || hasSuffix "+json" mediaType then
        map (bodyCandidate "json") (bp_jsonStrings parsers body)
      else if bool_decide (mediaType = "multipart/form-data") then
        concat (map (λ '(name, file, value),
          [bodyCandidate name value; bodyCandidate name name] ++ if bool_decide (file = "") then [] else [bodyCandidate name file])
          (bp_parts parsers (default "" (parameters !! "boundary")) body))
      else []
  end.

(** ** Compiled rules *)

Section Handler.
Variable Regex Prefix Addr Store Error World : Type.
Variable compileRegex : string → option Regex.
Variable regexMatch : Regex → string → bool.
Variable regexFind : Regex → string → string.
Variable parsePrefix : string → option Prefix.
Variable prefixContains : Prefix → Addr → bool.
Variable parseAddr : string → option Addr.
Variable unmapAddr : Addr → Addr.
Variable addrString : Addr → string.
Variable splitHostPort : string → option string.
Variable trimSpace trimBrackets toLower toUpper : string → string.
Variable text : unicodeText.

Record compiledCondition := { cc_condition : WAFCondition; cc_regex : option Regex; cc_cidrs : list Prefix }.
Record compiledConditionGroup := { cg_operator : string; cg_conditions : list compiledCondition }.
Record compiledConditions := { cn_operator : string; cn_groups : list compiledConditionGroup }.
Record compiledRule := { cr_rule : WAFRule; cr_conditions : compiledConditions }.
Record compiledRuleSet := { rs_ID : string; rs_Name : string; rs_rules : list compiledRule }.

(** [for ... { y, err := f(x); if err != nil { return err } ... }]. *)
Fixpoint mapResult {A B E} (f : A → result E B) (l : list A) : result E (list B) :=
  match l with
  | [] => Ok []
  | x :: l => y ← f x; l ← mapResult f l; Ok (y :: l)
  end.
Definition orError {A} (message : string) (o : option A) : result string A := match o with Some a => Ok a | None => Err message end.

Definition compileCondition (c : WAFCondition) : result string compiledCondition :=
  regex ← (if bool_decide (wc_Operator c = "REGEX")
           then r ← orError "regexp" (compileRegex (if wc_CaseSensitive c then wc_Value c else "(?i)" +:+ wc_Value c)); Ok (Some r)
           else Ok None);
  cidrs ← (if bool_decide (wc_Operator c = "CIDR") then mapResult (λ v, orError "prefix" (parsePrefix v)) (wc_Values c) else Ok []);
  Ok {| cc_condition := c; cc_regex := regex; cc_cidrs := cidrs |}.
Definition compileConditions (cs : WAFConditions) : result string compiledConditions :=
  groups ← mapResult (λ g,
    conditions ← mapResult compileCondition (wg_Conditions g);
    Ok {| cg_operator := wg_Operator g; cg_conditions := conditions |}) (wn_Groups cs);
  Ok {| cn_operator := wn_Operator cs; cn_groups := groups |}.
Definition compileRule (r : WAFRule) : result string compiledRule :=
  conditions ← compileConditions (wr_Conditions r);
  Ok {| cr_rule := r; cr_conditions := conditions |}.

(** ** The handler *)

Record Handler := {
  hd_SiteID : string; hd_WAF : WAFPolicy; hd_ruleSets : list compiledRuleSet; hd_inspectBody : bool; hd_trustedProxies : list Prefix;
  hd_geo : option (Addr → option (string * option string)); hd_needsRedis : bool;
}.

Definition hasCaptchaRule (p : WAFPolicy) : bool :=
  wf_Enabled p && existsb (λ s, ws_Enabled s && existsb (λ r, wr_Enabled r && bool_decide (wa_Type (wr_Action r) = "CAPTCHA")) (ws_Rules s))
    (default [] (wf_RuleSets p)).

(** The loop of [Provision] over the rule sets. *)
Definition inspectsBody (r : WAFRule) : bool :=
  existsb (λ g, existsb (λ c, bool_decide (wc_Field c = "BODY")) (wg_Conditions g)) (wn_Groups (wr_Conditions r)).
Definition usesRedis (r : WAFRule) : bool :=
  bool_decide (wr_Type r = WAFRuleTypeRateLimit) && bool_decide (wr_Backend r = "REDIS").
Definition enabledRules (s : WAFRuleSet) : list WAFRule := filter (λ r, wr_Enabled r = true) (ws_Rules s).
Definition enabledSets (p : WAFPolicy) : list WAFRuleSet := filter (λ s, ws_Enabled s = true) (default [] (wf_RuleSets p)).
Definition compileSet (s : WAFRuleSet) : result string compiledRuleSet :=
  rules ← mapResult compileRule (enabledRules s);
  Ok {| rs_ID := ws_ID s; rs_Name := ws_Name s; rs_rules := rules |}.

(** [Provision], after the policy was normalised; [openGeo] is the GeoIP
    database and [secretOk] whether the challenge secret decodes. *)
Definition Provision (siteID : string) (normalized : result wafError WAFPolicy) (openGeo : result string (Addr → option (string * option string)))
    (secretOk : bool) : result string Handler :=
  guard_err (bool_decide (siteID = "")) "site_id is required";;
  p ← match normalized with Ok p => Ok p | Err _ => Err "invalid WAF policy" end;
  proxies ← (if wf_TrustedProxyChain p then mapResult (λ v, orError "compile trusted proxy" (parsePrefix v)) (wf_TrustedProxies p) else Ok []);
  geo ← (if NeedsGeoIP p then
           guard_err (bool_decide (wf_GeoIPDatabase p = "")) "GeoIP database is required for COUNTRY or REGION rules";;
           g ← openGeo; Ok (Some g)
         else Ok None);
  guard_err (hasCaptchaRule p && negb secretOk) "challenge_secret must be a base64url-encoded 32-byte secret when CAPTCHA is enabled";;
  sets ← mapResult compileSet (enabledSets p);
  Ok {| hd_SiteID := siteID; hd_WAF := p; hd_ruleSets := sets;
        hd_inspectBody := existsb (λ s, existsb inspectsBody (enabledRules s)) (enabledSets p);
        hd_trustedProxies := proxies; hd_geo := geo;
        hd_needsRedis := existsb (λ s, existsb usesRedis (enabledRules s)) (enabledSets p) |}.

(** ** The client's address *)

Definition remoteHost (address : string) : string :=
  match splitHostPort address with Some host => host | None => trimBrackets (trimSpace address) end.
Definition parseAddress (value : string) : option Addr := unmapAddr <$> parseAddr (trimSpace (remoteHost value)).
Definition containsPrefix (prefixes : list Prefix) (address : Addr) : bool := existsb (λ p, prefixContains p address) prefixes.

(** The loop of [clientIP] over the forwarded addresses, last one first. *)
Fixpoint forwardedIP (trusted : list Prefix) (direct current : Addr) (chain : list string) : Addr :=
  match chain with
  | [] => current
  | value :: chain =>
      match parseAddress value with
      | None => direct
      | Some candidate => if containsPrefix trusted candidate then forwardedIP trusted direct candidate chain else candidate
      end
  end.
Definition clientIP (h : Handler) (r : request) : string :=
  match parseAddress (rq_RemoteAddr r) with
  | None => remoteHost (rq_RemoteAddr r)
  | Some direct =>
      if negb (wf_TrustedProxyChain (hd_WAF h)) || negb (containsPrefix (hd_trustedProxies h) direct) then addrString direct
      else
        let chain := splitComma (joinComma (headerValues (rq_Header r) "X-Forwarded-For")) in
        addrString (forwardedIP (hd_trustedProxies h) direct direct (reverse chain))
  end.

(** ** Matching *)

Definition single (name value : string) : list requestCandidate :=
  [{| cd_name := name; cd_value := value; cd_sensitive := sensitiveMatchKey name |}].
Definition queryCandidates (q : gmap string (list string)) : list requestCandidate :=
  concat (map (λ name, map (λ v, {| cd_name := "QUERY:" +:+ name; cd_value := v; cd_sensitive := sensitiveMatchKey name |})
    (default [] (q !! name))) (sortedQueryNames q)).
Definition requestValues (c : WAFCondition) (data : requestData) : list requestCandidate :=
  let r := dt_request data in
  let field := wc_Field c in
  if bool_decide (field = "METHOD") then single "METHOD" (rq_Method r)
  else if bool_decide (field = "HOST") then single "HOST" (rq_Host r)
  else if bool_decide (field = "PATH") then single "PATH" (rq_Path r)
  else if bool_decide (field = "RAW_QUERY") then single "RAW_QUERY" (rq_RawQuery r)
  else if bool_decide (field = "QUERY") then single ("QUERY:" +:+ wc_FieldName c) (queryGet (rq_Query r) (wc_FieldName c))
  else if bool_decide (field = "QUERY_VALUES") then queryCandidates (rq_Query r)
  else if bool_decide (field = "REQUEST_TARGET") then
    {| cd_name := "REQUEST_TARGET"; cd_value := rq_RequestURI r; cd_sensitive := false |}
    :: {| cd_name := "PATH"; cd_value := rq_Path r; cd_sensitive := false |} :: queryCandidates (rq_Query r)
  else if bool_decide (field = "HEADER") then single ("HEADER:" +:+ wc_FieldName c) (headerGet (rq_Header r) (wc_FieldName c))
  else if bool_decide (field = "COOKIE") then
    single ("COOKIE:" +:+ wc_FieldName c) (default "" (cookieOf (rq_Cookies r) (wc_FieldName c)))
  else if bool_decide (field = "BODY") then
    if bool_decide (wc_FieldName c = "") then single "BODY" (dt_body data) ++ dt_bodyValues data
    else filter (λ cd, cd_name cd = "BODY:" +:+ wc_FieldName c) (dt_bodyValues data)
  else if bool_decide (field = "CLIENT_IP") then single "CLIENT_IP" (dt_ip data)
  else if bool_decide (field = "USER_AGENT") then single "USER_AGENT" (headerGet (rq_Header r) "User-Agent")
  else if bool_decide (field = "COUNTRY") then single "COUNTRY" (dt_country data)
  else if bool_decide (field = "REGION") then single "REGION" (dt_region data)
  else [].

Definition matchValue (cc : compiledCondition) (actual : string) : bool :=
  let c := cc_condition cc in
  let operator := wc_Operator c in
  let fold := negb (wc_CaseSensitive c) && negb (bool_decide (operator = "REGEX")) && negb (bool_decide (operator = "CIDR")) in
  let expected := if fold then toLower (wc_Value c) else wc_Value c in
  let actual := if fold then toLower actual else actual in
  if bool_decide (operator = "EXISTS") then negb (bool_decide (actual = ""))
  else if bool_decide (operator = "EQUALS") then bool_decide (actual = expected)
  else if bool_decide (operator = "CONTAINS") then contains expected actual
  else if bool_decide (operator = "PREFIX") then String.prefix expected actual
  else if bool_decide (operator = "SUFFIX") then hasSuffix expected actual
  else if bool_decide (operator = "REGEX") then match cc_regex cc with Some re => regexMatch re actual | None => false end
  else if bool_decide (operator = "IN") then
    existsb (λ candidate, bool_decide (actual = if wc_CaseSensitive c then candidate else toLower candidate)) (wc_Values c)
  else if bool_decide (operator = "CIDR") then
    match parseAddr actual with Some address => containsPrefix (cc_cidrs cc) address | None => false end
  else false.

(** The loop of [compiledCondition.match]: the first candidate that matches. *)
Fixpoint firstMatch (cc : compiledCondition) (candidates : list requestCandidate) : option requestCandidate :=
  match candidates with
  | [] => None
  | cd :: rest => if matchValue cc (cd_value cd) then Some cd else firstMatch cc rest
  end.
Definition matchCondition (cc : compiledCondition) (data : requestData) : bool * string :=
  let c := cc_condition cc in
  match firstMatch cc (requestValues c data) with
  | Some cd =>
      if wc_Negate c then (false, "")
      else
        let matched :=
          if bool_decide (wc_Operator c = "REGEX")
          then match cc_regex cc with Some re => regexFind re (cd_value cd) | None => cd_value cd end else cd_value cd in
        (true, "variable=" +:+ cd_name cd +:+ ";match=" +:+ sanitizeMatchText text matched (cd_sensitive cd))
  | None => if wc_Negate c then (true, "negated=" +:+ wc_Field c) else (false, "")
  end.

(** [evaluateExpression] on the results it asks for, in order. *)
Fixpoint evaluateFrom (operator firstDetail : string) (evaluate : list (bool * string)) : bool * string :=
  match evaluate with
  | [] => (bool_decide (operator = "AND"), firstDetail)
  | (matched, detail) :: rest =>
      let firstDetail := if matched && bool_decide (firstDetail = "") then detail else firstDetail in
      if bool_decide (operator = "OR") && matched then (true, detail)
      else if bool_decide (operator = "AND") && negb matched then (false, "")
      else evaluateFrom operator firstDetail rest
  end.
Definition evaluateExpression (operator : string) (evaluate : list (bool * string)) : bool * string := evaluateFrom operator "" evaluate.
Definition matchGroup (data : requestData) (g : compiledConditionGroup) : bool * string :=
  evaluateExpression (cg_operator g) (map (λ c, matchCondition c data) (cg_conditions g)).
Definition matchConditions (cs : compiledConditions) (data : requestData) : bool * string :=
  evaluateExpression (cn_operator cs) (map (matchGroup data) (cn_groups cs)).

Definition rateKey (rule : WAFRule) (data : requestData) : string :=
  let key := wr_Key rule in
  let r := dt_request data in
  if bool_decide (key = "CLIENT_IP") then dt_ip data
  else if bool_decide (key = "CLIENT_IP_PATH") then dt_ip data +:+ zeroByte +:+ rq_Path r
  else if bool_decide (key = "PATH") then rq_Path r
  else if bool_decide (key = "HEADER") then
    let value := headerGet (rq_Header r) (wr_KeyName rule) in
    if bool_decide (value = "") then "missing:" +:+ dt_ip data else value
  else if bool_decide (key = "COOKIE") then
    match cookieOf (rq_Cookies r) (wr_KeyName rule) with Some value => value | None => "missing:" +:+ dt_ip data end
  else if bool_decide (key = "GLOBAL") then "global"
  else "".

(** ** Evaluation *)

(** The limiters of the site's rules and the breaker. *)
Record wafState := { st_limiters : gmap string counterStore; st_backend : option (rateBackendState Store Error) }.

(** What a rule's evaluation sees of the clock, of Go's map order, of the
    Redis configuration and of Redis. *)
Record wafEnv := {
  ev_now : string → Z; ev_visited : string → list (string * counter);
  ev_configured : result Error Store; ev_redis : string → string → Store → result Error (bool * Z);
}.

(** [matchRule]: whether the rule matches, the detail and the time to retry;
    [None] when the rate backend is unavailable. *)
Definition matchRule (env : wafEnv) (s : wafState) (data : requestData) (cr : compiledRule) : wafState * option (bool * string * Z) :=
  let rule := cr_rule cr in
  if bool_decide (wr_Type rule = WAFRuleTypeRateLimit) then
    if bool_decide (cn_groups (cr_conditions cr) ≠ []) && negb (matchConditions (cr_conditions cr) data).1 then (s, Some (false, "", 0))
    else
      let key := rateKey rule data in
      let limiter := default emptyStore (st_limiters s !! wr_ID rule) in
      let '(backend, (limiter, answer)) :=
        allowRate Store Error (st_backend s) limiter rule key (ev_now env (wr_ID rule)) (ev_visited env (wr_ID rule)) (ev_configured env)
          (ev_redis env (wr_ID rule) key) in
      ({| st_limiters := <[wr_ID rule := limiter]> (st_limiters s); st_backend := backend |},
       match answer with Some (allowed, retry) => Some (negb allowed, "rate=" +:+ wr_Key rule, retry) | None => None end)
  else
    let '(matched, detail) := matchConditions (cr_conditions cr) data in
    (s, Some (matched, detail, 0)).

Record wafDecision := {
  dc_id : string; dc_action : string; dc_status : Z; dc_response : WAFResponse; dc_redirectURL : string; dc_redirectStatus : Z;
  dc_tag : string; dc_source : string; dc_match : string; dc_retry : Z;
}.
Definition decisionForRule (setID : string) (rule : WAFRule) (detail : string) (retry : Z) : wafDecision :=
  let a := wr_Action rule in {|
  dc_id := wr_ID rule; dc_action := wa_Type a; dc_status := wa_StatusCode a; dc_response := wa_Response a;
  dc_redirectURL := wa_RedirectURL a; dc_redirectStatus := wa_RedirectStatus a; dc_tag := wa_Tag a;
  dc_source := "ruleset:" +:+ setID; dc_match := detail; dc_retry := retry |}.
Definition isSoft (d : wafDecision) : bool := bool_decide (dc_action d = "MONITOR") || bool_decide (dc_action d = "TAG").

(** The two loops of [evaluateWAF]: the state, and the decisions or the rule
    whose backend failed. *)
Fixpoint evaluateRules (env : wafEnv) (s : wafState) (data : requestData) (setID : string) (rules : list compiledRule) (soft : list wafDecision)
  : wafState * result string (list wafDecision * option wafDecision) :=
  match rules with
  | [] => (s, Ok (soft, None))
  | cr :: rest =>
      let '(s, answer) := matchRule env s data cr in
      match answer with
      | None => (s, Err (wr_ID (cr_rule cr)))
      | Some (matched, detail, retry) =>
          if negb matched then evaluateRules env s data setID rest soft
          else
            let decision := decisionForRule setID (cr_rule cr) detail retry in
            if isSoft decision then evaluateRules env s data setID rest (soft ++ [decision])
            else (s, Ok (soft, Some decision))
      end
  end.
Fixpoint evaluateSets (env : wafEnv) (s : wafState) (data : requestData) (sets : list compiledRuleSet) (soft : list wafDecision)
  : wafState * result string (list wafDecision * option wafDecision) :=
  match sets with
  | [] => (s, Ok (soft, None))
  | set :: rest =>
      let '(s, answer) := evaluateRules env s data (rs_ID set) (rs_rules set) soft in
      match answer with
      | Err e => (s, Err e)
      | Ok (soft, Some terminal) => (s, Ok (soft, Some terminal))
      | Ok (soft, None) => evaluateSets env s data rest soft
      end
  end.
Definition evaluateWAF (env : wafEnv) (s : wafState) (data : requestData) (h : Handler)
  : wafState * result string (list wafDecision * option wafDecision) :=
  evaluateSets env s data (hd_ruleSets h) [].

(** ** Serving a request *)

(** The answer to the client, or the request handed to the next handler; both
    with the response headers set so far. *)
Inductive outcome :=
| Forward (r : request) (headers : gmap string (list string))
| Respond (status : Z) (headers : gmap string (list string)) (body : string)
| Failed.

(** The CAPTCHA: whether a request has a clearance for a rule, and what it is
    answered with otherwise; [World] is the state the challenges keep. *)
Record captchaService := {
  cp_hasClearance : request → string → string → bool;
  cp_challenge : World → request → string → string → gmap string (list string) → World * outcome;
}.

Definition setSecurityEvent (h : gmap string (list string)) (action ruleID source detail : string) : gmap string (list string) :=
  setHeader (setHeader (setHeader (setHeader h "X-Goveto-Waf" [action]) "X-Goveto-Waf-Rule" [ruleID])
    "X-Goveto-Waf-Source" [source]) "X-Goveto-Waf-Match" [detail].
Definition protect (h : gmap string (list string)) : gmap string (list string) :=
  setHeader (setHeader h "Cache-Control" ["private, no-store"]) "X-Content-Type-Options" ["nosniff"].

Definition hasTag (values : list string) (tag : string) : bool :=
  existsb (λ value, existsb (λ existing, bool_decide (trimSpace existing = tag)) (splitComma value)) values.
Definition appendTag (h : gmap string (list string)) (name tag : string) : gmap string (list string) :=
  if hasTag (headerValues h name) tag then h else setHeader h name (headerValues h name ++ [tag]).
Definition softHeaders (h : gmap string (list string)) (soft : list wafDecision) : gmap string (list string) :=
  foldl (λ h d, if bool_decide (dc_action d = "TAG") then appendTag h "X-Goveto-Waf-Tags" (dc_tag d) else h) h soft.

(** [renderPage "block.html"], the target and the text of [http.Redirect], and
    [strconv.Itoa]. *)
Variable blockPage : Z → string → string.
Variable redirectTarget : request → string → string.
Variable redirectText : string → Z → string.
Variable itoa : Z → string.

Definition newline : string := String (Ascii.ascii_of_nat 10) EmptyString.

(** [http.Error] and [http.Redirect]. *)
Definition httpError (headers : gmap string (list string)) (status : Z) (message : string) : outcome :=
  let headers := delete "Content-Length" headers in
  let headers := setHeader headers "Content-Type" ["text/plain; charset=utf-8"] in
  Respond status (setHeader headers "X-Content-Type-Options" ["nosniff"]) (message +:+ newline).
Definition httpRedirect (headers : gmap string (list string)) (r : request) (url : string) (status : Z) : outcome :=
  let hadContentType := bool_decide (is_Some (headers !! "Content-Type")) in
  let target := redirectTarget r url in
  let headers := setHeader headers "Location" [target] in
  let get := bool_decide (rq_Method r = "GET") in
  let headers := if negb hadContentType && (get || bool_decide (rq_Method r = "HEAD"))
    then setHeader headers "Content-Type" ["text/html; charset=utf-8"] else headers in
  Respond status headers (if negb hadContentType && get then redirectText target status else "").

Definition writeWAFResponse (headers : gmap string (list string)) (status : Z) (ruleID : string) (response : WAFResponse) : outcome :=
  let type := wp_Type response in
  if bool_decide (type = "HTML") then Respond status (setHeader headers "Content-Type" ["text/html; charset=utf-8"]) (wp_Body response)
  else if bool_decide (type = "TEXT") then Respond status (setHeader headers "Content-Type" ["text/plain; charset=utf-8"]) (wp_Body response)
  else if bool_decide (type = "JSON") then Respond status (setHeader headers "Content-Type" ["application/json; charset=utf-8"]) (wp_Body response)
  else
    let headers := setHeader headers "Content-Security-Policy" ["default-src 'none'; style-src 'unsafe-inline'"] in
    Respond status (setHeader headers "Content-Type" ["text/html; charset=utf-8"]) (blockPage status ruleID).

Definition executeDecision (captcha : captchaService) (w : World) (headers : gmap string (list string)) (r : request) (ip : string) (d : wafDecision) : World * outcome :=
  let headers := setSecurityEvent (protect headers) (dc_action d) (dc_id d) (dc_source d) (dc_match d) in
  if bool_decide (dc_action d = "SHOW_PAGE") then
    (w, writeWAFResponse (setHeader headers "X-Goveto-Waf" ["BLOCK"]) (dc_status d) (dc_id d) (dc_response d))
  else if bool_decide (dc_action d = "BLOCK") then (w, Respond (dc_status d) (setHeader headers "X-Goveto-Waf" ["BLOCK"]) "")
  else if bool_decide (dc_action d = "REDIRECT") then
    (w, httpRedirect (setHeader headers "X-Goveto-Waf" ["REDIRECT"]) r (dc_redirectURL d) (dc_redirectStatus d))
  else if bool_decide (dc_action d = "CAPTCHA") then cp_challenge captcha w r (dc_id d) ip (setHeader headers "X-Goveto-Waf" ["CAPTCHA"])
  else (w, Respond 200 headers "").

(** Seconds of a duration, rounded: [max(1, int(d.Seconds()+0.5))]. *)
Definition retrySeconds (retry : Z) : Z := Z.max 1 ((2 * retry + second) / (2 * second)).

Variable parsers : bodyParsers.
(** [uuid.Parse] and its text. *)
Variable uuidParse : string → option string.

(** [normalizedRequestID]; [fresh] is what [uuid.NewString] returns. *)
Definition normalizedRequestID (fresh value : string) : string :=
  match uuidParse (trimSpace value) with Some id => id | None => fresh end.

(** Whether reading the inspected part of the body and closing it succeed. *)
Record bodyIO := { io_readOk : bool; io_closeOk : bool }.

(** The body part of [ServeHTTP]: the request to continue with and what is
    inspected, or an answer. *)
Definition inspectBody (io : bodyIO) (h : Handler) (r : request) (headers : gmap string (list string)) : outcome + (request * string * list requestCandidate) :=
  match rq_Body r with
  | Some body =>
      if wf_Enabled (hd_WAF h) && hd_inspectBody h then
        let encoding := trimSpace (headerGet (rq_Header r) "Content-Encoding") in
        if negb (bool_decide (encoding = "")) && negb (bool_decide (asciiLower encoding = "identity"))
        then inl (httpError
          (setSecurityEvent (protect headers) "BLOCK" "request-body-encoding" "body_inspection" "unsupported_content_encoding")
          415 "unsupported request body encoding")
        else if negb (io_readOk io) then inl Failed
        else
          let limit := wf_BodyInspectLimitBytes (hd_WAF h) in
          let read := String.substring 0 (Z.to_nat (limit + 1)) body in
          if limit <? slen read then
            if bool_decide (wf_BodyOverLimitAction (hd_WAF h) = "BLOCK")
            then inl (httpError (setSecurityEvent (protect headers) "BLOCK" "request-body-limit" "body_inspection" "body_too_large")
              413 "Request Entity Too Large")
            else
              let seen := String.substring 0 (Z.to_nat limit) read in
              let unread := String.substring (String.length read) (String.length body - String.length read) body in
              inr (withBody r (read +:+ unread), seen, decodedBodyCandidates parsers (headerGet (rq_Header r) "Content-Type") seen)
          else if negb (io_closeOk io) then inl Failed
          else inr (withBody r read, read, decodedBodyCandidates parsers (headerGet (rq_Header r) "Content-Type") read)
      else inr (r, "", [])
  | None => inr (r, "", [])
  end.

(** [fresh] is a new identifier for the request. *)
Definition ServeHTTP (captcha : captchaService) (io : bodyIO) (env : wafEnv) (s : wafState) (w : World) (h : Handler) (r : request)
    (fresh : string) : wafState * World * outcome :=
  let stripped := stripReservedWAFHeaders (rq_Header r) in
  let requestID := normalizedRequestID fresh (headerGet stripped "X-Request-Id") in
  let r := withHeader r (setHeader stripped "X-Request-Id" [requestID]) in
  let headers : gmap string (list string) := {["X-Request-Id" := [requestID]]} in
  let ip := clientIP h r in
  let '(country, region) :=
    match hd_geo h with
    | Some lookup =>
        match parseAddress ip ≫= lookup with
        | Some (country, subdivision) =>
            let country := toUpper country in
            match subdivision with
            | Some region =>
                let region := toUpper region in
                (country, if bool_decide (country ≠ "") && bool_decide (region ≠ "") then country +:+ "-" +:+ region else region)
            | None => (country, "")
            end
        | None => ("", "")
        end
    | None => ("", "")
    end in
  match inspectBody io h r headers with
  | inl answer => (s, w, answer)
  | inr (r, body, bodyValues) =>
      if negb (wf_Enabled (hd_WAF h)) then (s, w, Forward r headers)
      else
        let data := {| dt_request := r; dt_body := body; dt_bodyValues := bodyValues; dt_ip := ip; dt_country := country; dt_region := region |} in
        let '(s, answer) := evaluateWAF env s data h in
        match answer with
        | Err ruleID => (s, w, httpError (setSecurityEvent headers "ERROR" ruleID "rate_limit" "backend_unavailable") 503 "Service Unavailable")
        | Ok (soft, terminal) =>
            let r := withHeader r (softHeaders (rq_Header r) soft) in
            match terminal with
            | Some d =>
                let headers := if 0 <? dc_retry d then setHeader headers "Retry-After" [itoa (retrySeconds (dc_retry d))] else headers in
                if bool_decide (dc_action d = "ALLOW") then
                  (s, w, Forward r (setSecurityEvent headers "ALLOW" (dc_id d) (dc_source d) (dc_match d)))
                else if bool_decide (dc_action d = "CAPTCHA") && cp_hasClearance captcha r (dc_id d) ip then
                  (s, w, Forward r (setSecurityEvent headers "CAPTCHA-PASS" (dc_id d) (dc_source d) (dc_match d)))
                else
                  let '(w, answer) := executeDecision captcha w headers r ip d in
                  (s, w, answer)
            | None =>
                (s, w, Forward r match soft with
                              | d :: _ => setSecurityEvent headers (dc_action d) (dc_id d) (dc_source d) (dc_match d)
                              | [] => headers
                              end)
            end
        end
  end.

End Handler.
