(* ===== verification/WafHandlerTheorems.v ===== *)
(** * Theorems on the firewall handler

    What a rule's conditions mean, the order of the rules, the client's address
    behind trusted proxies, and what can reach the next handler. *)
From Stdlib Require Import ZArith Lia Ascii String.
From stdpp Require Import base numbers strings gmap sets option list sorting.
From S2P Require Import Prelude Http WafPolicy RateLimit WafHandler.

Local Open Scope Z_scope.

Section Handler.
Context {Regex Prefix Addr Store Error World : Type}.
Context (compileRegex : string → option Regex) (regexMatch : Regex → string → bool) (regexFind : Regex → string → string).
Context (parsePrefix : string → option Prefix) (prefixContains : Prefix → Addr → bool).
Context (parseAddr : string → option Addr) (unmapAddr : Addr → Addr) (addrString : Addr → string) (splitHostPort : string → option string).
Context (trimSpace trimBrackets toLower toUpper : string → string) (text : unicodeText).
Context (blockPage : Z → string → string) (redirectTarget : request → string → string) (redirectText : string → Z → string) (itoa : Z → string).
Context (parsers : bodyParsers) (uuidParse : string → option string).

Notation parseAddress := (parseAddress Addr parseAddr unmapAddr splitHostPort trimSpace trimBrackets).
Notation containsPrefix := (containsPrefix Prefix Addr prefixContains).
Notation forwardedIP := (forwardedIP Prefix Addr prefixContains parseAddr unmapAddr splitHostPort trimSpace trimBrackets).
Notation clientIP := (clientIP Regex Prefix Addr prefixContains parseAddr unmapAddr addrString splitHostPort trimSpace trimBrackets).
Notation matchValue := (matchValue Regex Prefix Addr regexMatch prefixContains parseAddr toLower).
Notation matchCondition := (matchCondition Regex Prefix Addr regexMatch regexFind prefixContains parseAddr toLower text).
Notation matchGroup := (matchGroup Regex Prefix Addr regexMatch regexFind prefixContains parseAddr toLower text).
Notation matchConditions := (matchConditions Regex Prefix Addr regexMatch regexFind prefixContains parseAddr toLower text).
Notation matchRule := (matchRule Regex Prefix Addr Store Error regexMatch regexFind prefixContains parseAddr toLower text).
Notation evaluateRules := (evaluateRules Regex Prefix Addr Store Error regexMatch regexFind prefixContains parseAddr toLower text).
Notation evaluateSets := (evaluateSets Regex Prefix Addr Store Error regexMatch regexFind prefixContains parseAddr toLower text).
Notation evaluateWAF := (evaluateWAF Regex Prefix Addr Store Error regexMatch regexFind prefixContains parseAddr toLower text).
Notation ServeHTTP := (ServeHTTP Regex Prefix Addr Store Error World regexMatch regexFind prefixContains parseAddr unmapAddr addrString splitHostPort
  trimSpace trimBrackets toLower toUpper text blockPage redirectTarget redirectText itoa parsers uuidParse).
Notation inspectBody := (inspectBody Regex Prefix Addr trimSpace parsers).
Notation captchaService := (captchaService World).
Notation Handler := (Handler Regex Prefix Addr).
Notation compiledRule := (compiledRule Regex Prefix).
Notation wafState := (wafState Store Error).
Notation wafEnv := (wafEnv Store Error).
Notation compileCondition := (compileCondition Regex Prefix compileRegex parsePrefix).
Notation compileConditions := (compileConditions Regex Prefix compileRegex parsePrefix).
Notation compileRule := (compileRule Regex Prefix compileRegex parsePrefix).

(** ** What conditions mean *)

(** A condition compiled, its meaning, and that of a rule's conditions. *)
Definition compiledOf (c : WAFCondition) : compiledCondition Regex Prefix := {|
  cc_condition := c;
  cc_regex := if bool_decide (wc_Operator c = "REGEX") then compileRegex (if wc_CaseSensitive c then wc_Value c else "(?i)" +:+ wc_Value c) else None;
  cc_cidrs := if bool_decide (wc_Operator c = "CIDR") then omap parsePrefix (wc_Values c) else [] |}.
Definition conditionHolds (data : requestData) (c : WAFCondition) : bool :=
  xorb (wc_Negate c) (existsb (λ cd, matchValue (compiledOf c) (cd_value cd)) (requestValues c data)).
Definition combine {A} (operator : string) (f : A → bool) (l : list A) : bool :=
  if bool_decide (operator = "AND") then forallb f l else existsb f l.
Definition conditionsHold (data : requestData) (cs : WAFConditions) : bool :=
  combine (wn_Operator cs) (λ g, combine (wg_Operator g) (conditionHolds data) (wg_Conditions g)) (wn_Groups cs).

Lemma mapResult_map {A B E} (f : A → result E B) (g : A → B) l l' : (∀ x y, f x = Ok y → y = g x) → mapResult f l = Ok l' → l' = map g l.
Proof.
  intros Hf. revert l'. induction l as [|x l IH]; intros l' H; cbn [mapResult] in H; [by injection H as <-|].
  apply bind_Ok in H as (y & Hy & H). apply bind_Ok in H as (l1 & Hl & H). injection H as <-. cbn. f_equal; [by apply Hf|by apply IH].
Qed.
Lemma mapResult_omap {A B} message (f : A → option B) l l' : mapResult (λ x, orError message (f x)) l = Ok l' → l' = omap f l.
Proof.
  revert l'. induction l as [|x l IH]; intros l' H; cbn [mapResult] in H; [by injection H as <-|].
  apply bind_Ok in H as (y & Hy & H). apply bind_Ok in H as (l1 & Hl & H). injection H as <-. cbn.
  destruct (f x) as [y'|]; [|done]. injection Hy as ->. f_equal. by apply IH.
Qed.
Lemma compile_condition c cc : compileCondition c = Ok cc → cc = compiledOf c.
Proof.
  unfold WafHandler.compileCondition, compiledOf. intros (re & Hre & H)%bind_Ok. apply bind_Ok in H as (cidrs & Hc & H). injection H as <-. f_equal.
  - destruct (bool_decide (wc_Operator c = "REGEX")); [|by apply Ok_inj in Hre].
    apply bind_Ok in Hre as (r & Hr & Hre). apply Ok_inj in Hre as <-. unfold orError in Hr. destruct (compileRegex _); [|done]. by apply Ok_inj in Hr as ->.
  - destruct (bool_decide (wc_Operator c = "CIDR")); [|by apply Ok_inj in Hc]. by apply mapResult_omap in Hc.
Qed.

Lemma evaluate_combine operator l d : operator ∈ ["AND"; "OR"] → (evaluateFrom operator d l).1 = combine operator fst l.
Proof.
  intros Hop. assert (operator = "AND" ∨ operator = "OR") as [-> | ->].
  { apply elem_of_cons in Hop as [->|Hop]; [by left|]. apply list_elem_of_singleton in Hop as ->. by right. }
  - unfold combine. rewrite bool_decide_eq_true_2 by done. revert d. induction l as [|[m x] l IH]; intros d; cbn [evaluateFrom forallb fst].
    + by rewrite bool_decide_eq_true_2.
    + rewrite (bool_decide_eq_false_2 ("AND" = "OR")), (bool_decide_eq_true_2 ("AND" = "AND")) by done. destruct m; cbn [andb negb fst]; [apply IH|done].
  - unfold combine. rewrite bool_decide_eq_false_2 by done. revert d. induction l as [|[m x] l IH]; intros d; cbn [evaluateFrom existsb fst].
    + by rewrite bool_decide_eq_false_2.
    + rewrite (bool_decide_eq_true_2 ("OR" = "OR")), (bool_decide_eq_false_2 ("OR" = "AND")) by done. destruct m; cbn [andb negb orb fst]; [done|apply IH].
Qed.
Lemma combine_map {A B} operator (f : B → bool) (g : A → B) l : combine operator f (map g l) = combine operator (λ x, f (g x)) l.
Proof. unfold combine. case_bool_decide; induction l as [|x l IH]; cbn; try done; by rewrite IH. Qed.
Lemma combine_ext {A} operator (f g : A → bool) l : (∀ x, x ∈ l → f x = g x) → combine operator f l = combine operator g l.
Proof.
  unfold combine. case_bool_decide; induction l as [|x l IH]; cbn; intros H'; try done;
    (rewrite H' by apply list_elem_of_here; f_equal; apply IH; intros y Hy; by apply H', list_elem_of_further).
Qed.

Lemma match_holds c data : (matchCondition (compiledOf c) data).1 = conditionHolds data c.
Proof.
  unfold WafHandler.matchCondition, conditionHolds. cbn [cc_condition compiledOf].
  assert (∀ l, existsb (λ cd, matchValue (compiledOf c) (cd_value cd)) l
    = bool_decide (is_Some (firstMatch Regex Prefix Addr regexMatch prefixContains parseAddr toLower (compiledOf c) l))) as ->.
  { induction l as [|cd l IH]; cbn [existsb firstMatch]; [done|]. destruct (WafHandler.matchValue _ _ _ _ _ _ _ _ _); [|exact IH].
    by rewrite bool_decide_eq_true_2. }
  destruct (firstMatch _ _ _ _ _ _ _ _ _) as [cd|]; destruct (wc_Negate c); done.
Qed.

(** C23. What a compiled rule matches is what its policy says: the groups combined
    with the outer operator, the conditions of a group with the group's, and a
    condition holds when one of the request's values for its field matches,
    or, negated, when none does. *)
Theorem rule_conditions_meaning r cr data :
  wn_Operator (wr_Conditions r) ∈ ["AND"; "OR"] → Forall (λ g, wg_Operator g ∈ ["AND"; "OR"]) (wn_Groups (wr_Conditions r)) →
  compileRule r = Ok cr → (matchConditions (cr_conditions _ _ cr) data).1 = conditionsHold data (wr_Conditions r).
Proof.
  intros Ho Hg. unfold WafHandler.compileRule. intros (cs & Hc & H)%bind_Ok. injection H as <-. cbn [cr_conditions].
  unfold WafHandler.compileConditions in Hc. apply bind_Ok in Hc as (groups & Hgr & H). injection H as <-.
  apply (mapResult_map _ (λ g, {| cg_operator := wg_Operator g; cg_conditions := map compiledOf (wg_Conditions g) |})) in Hgr as ->.
  2:{ intros g y (conds & Hcs & Hy)%bind_Ok. injection Hy as <-. f_equal. eapply mapResult_map; [|exact Hcs]. intros; by apply compile_condition. }
  unfold WafHandler.matchConditions, conditionsHold, evaluateExpression. cbn [cn_operator cn_groups].
  rewrite evaluate_combine, !combine_map by done. apply combine_ext. intros g Hin. rewrite list.Forall_forall in Hg. specialize (Hg g Hin).
  unfold WafHandler.matchGroup, evaluateExpression. cbn [cg_operator cg_conditions].
  rewrite evaluate_combine, !combine_map by done. apply combine_ext. intros c _. apply match_holds.
Qed.

(** ** The order of the rules *)

Notation wafDecision := WafHandler.wafDecision.
Definition flatRules (sets : list (compiledRuleSet Regex Prefix)) : list (string * compiledRule) :=
  concat (map (λ set, (λ cr, (rs_ID _ _ set, cr)) <$> rs_rules _ _ set) sets).

(** Rules evaluated one after the other, none of which ends the evaluation. *)
Inductive passed (env : wafEnv) (data : requestData) : wafState → list (string * compiledRule) → wafState → list wafDecision → Prop :=
| passed_nil s : passed env data s [] s []
| passed_skip s id cr rules s1 s2 detail retry soft :
    matchRule env s data cr = (s1, Some (false, detail, retry)) → passed env data s1 rules s2 soft →
    passed env data s ((id, cr) :: rules) s2 soft
| passed_soft s id cr rules s1 s2 detail retry soft :
    matchRule env s data cr = (s1, Some (true, detail, retry)) → wa_Type (wr_Action (cr_rule _ _ cr)) ∈ ["MONITOR"; "TAG"] →
    passed env data s1 rules s2 soft →
    passed env data s ((id, cr) :: rules) s2 (decisionForRule id (cr_rule _ _ cr) detail retry :: soft).

(** How an evaluation ends: with the first matching rule of another action, with
    a rule whose backend is unavailable, or after the last rule. *)
Definition ends (env : wafEnv) (data : requestData) (s : wafState) (rules : list (string * compiledRule)) (s' : wafState)
    (answer : result string (list wafDecision * option wafDecision)) (soft : list wafDecision) : Prop :=
  match answer with
  | Ok (soft', None) => soft' = soft ∧ rules = [] ∧ s' = s
  | Ok (soft', Some d) => soft' = soft ∧ ∃ id cr rest detail retry, rules = (id, cr) :: rest
      ∧ matchRule env s data cr = (s', Some (true, detail, retry)) ∧ d = decisionForRule id (cr_rule _ _ cr) detail retry
      ∧ wa_Type (wr_Action (cr_rule _ _ cr)) ∉ ["MONITOR"; "TAG"]
  | Err ruleID => ∃ id cr rest, rules = (id, cr) :: rest ∧ ruleID = wr_ID (cr_rule _ _ cr) ∧ matchRule env s data cr = (s', None)
  end.

Lemma passed_app env data s r1 s1 soft1 r2 s2 soft2 :
  passed env data s r1 s1 soft1 → passed env data s1 r2 s2 soft2 → passed env data s (r1 ++ r2) s2 (soft1 ++ soft2).
Proof. induction 1; intros H2; cbn [app]; [done|eapply passed_skip; eauto|eapply passed_soft; eauto]. Qed.

Lemma soft_iff id rule detail retry : isSoft (decisionForRule id rule detail retry) = true ↔ wa_Type (wr_Action rule) ∈ ["MONITOR"; "TAG"].
Proof.
  unfold isSoft. cbn [dc_action decisionForRule]. rewrite orb_true_iff, !bool_decide_eq_true, elem_of_cons, list_elem_of_singleton. done.
Qed.

Lemma evaluateRules_spec env data id rules : ∀ s soft s' answer, evaluateRules env s data id rules soft = (s', answer) →
  ∃ pre rest s1 soft1, rules = pre ++ rest ∧ passed env data s ((λ cr, (id, cr)) <$> pre) s1 soft1
    ∧ ends env data s1 ((λ cr, (id, cr)) <$> rest) s' answer (soft ++ soft1).
Proof.
  induction rules as [|cr rules IH]; intros s soft s' answer H; cbn [WafHandler.evaluateRules] in H.
  { injection H as <- <-. exists [], [], s, []. split; [done|]. split; [apply passed_nil|]. repeat split. symmetry. apply app_nil_r. }
  destruct (matchRule env s data cr) as [s1 [[[matched detail] retry]|]] eqn:Hm.
  2:{ injection H as <- <-. exists [], (cr :: rules), s, []. split; [done|]. split; [apply passed_nil|]. cbn. eauto 6. }
  destruct matched; cbn [negb] in H.
  - destruct (isSoft _) eqn:Hs.
    + apply IH in H as (pre & rest & s2 & soft1 & -> & Hp & He). apply soft_iff in Hs.
      exists (cr :: pre), rest, s2, (decisionForRule id (cr_rule _ _ cr) detail retry :: soft1). split; [done|]. split; [by econstructor|].
      by rewrite <- app_assoc in He.
    + injection H as <- <-. exists [], (cr :: rules), s, []. split; [done|]. split; [apply passed_nil|]. cbn. rewrite app_nil_r. split; [done|].
      eexists _, _, _, _, _. split_and!; [done|done|done|]. rewrite <- soft_iff. by rewrite Hs.
  - apply IH in H as (pre & rest & s2 & soft1 & -> & Hp & He). exists (cr :: pre), rest, s2, soft1. split; [done|]. split; [by econstructor|done].
Qed.
Lemma evaluateSets_spec env data sets : ∀ s soft s' answer, evaluateSets env s data sets soft = (s', answer) →
  ∃ pre rest s1 soft1, flatRules sets = pre ++ rest ∧ passed env data s pre s1 soft1 ∧ ends env data s1 rest s' answer (soft ++ soft1).
Proof.
  induction sets as [|set sets IH]; intros s soft s' answer H; cbn [WafHandler.evaluateSets] in H.
  { injection H as <- <-. exists [], [], s, []. split; [done|]. split; [apply passed_nil|]. repeat split. symmetry. apply app_nil_r. }
  destruct (evaluateRules env s data (rs_ID _ _ set) (rs_rules _ _ set) soft) as [s1 answer1] eqn:E.
  apply evaluateRules_spec in E as (pre & rest & s2 & soft1 & Er & Hp & He).
  change (flatRules (set :: sets)) with (((λ cr, (rs_ID _ _ set, cr)) <$> rs_rules _ _ set) ++ flatRules sets). rewrite Er, fmap_app.
  destruct answer1 as [[soft2 [d|]]|e].
  - injection H as <- <-. eexists _, _, s2, soft1. split; [by rewrite <- app_assoc|]. split; [done|].
    destruct He as (-> & id & cr & rest' & detail & retry & Hr & Hm & Hd & Hns). split; [done|]. rewrite Hr. cbn. eauto 10.
  - destruct He as (-> & Hnil & ->). apply fmap_nil_inv in Hnil as ->. cbn [fmap list_fmap]. rewrite app_nil_r.
    apply IH in H as (pre' & rest' & s3 & soft3 & -> & Hp' & He'). eexists _, _, s3, (soft1 ++ soft3).
    split; [by rewrite app_assoc|]. split; [by eapply passed_app|by rewrite app_assoc].
  - injection H as <- <-. eexists _, _, s2, soft1. split; [by rewrite <- app_assoc|]. split; [done|].
    destruct He as (id & cr & rest' & Hr & -> & Hm). rewrite Hr. cbn. eauto 6.
Qed.

(** C22. The rules are evaluated in order, set by set, and the first match decides.
    The evaluation passes over rules that do not match and rules that only
    monitor or tag, collecting the latter, and ends with the first matching
    rule of any other action, with the first rule whose rate backend is
    unavailable, or after the last rule; the counters of later rules do not
    change. *)
Theorem first_match_decides env s data (h : Handler) s' answer :
  evaluateWAF env s data h = (s', answer) →
  ∃ pre rest s1 soft, flatRules (hd_ruleSets _ _ _ h) = pre ++ rest ∧ passed env data s pre s1 soft ∧ ends env data s1 rest s' answer soft.
Proof.
  unfold WafHandler.evaluateWAF. intros (pre & rest & s1 & soft & H1 & H2 & H3)%evaluateSets_spec. by exists pre, rest, s1, soft.
Qed.

(** ** The client's address *)

Lemma forwardedIP_trusted trusted direct later earlier : ∀ current,
  Forall (λ v, ∃ a, parseAddress v = Some a ∧ containsPrefix trusted a = true) later →
  ∃ current', forwardedIP trusted direct current (later ++ earlier) = forwardedIP trusted direct current' earlier.
Proof.
  induction later as [|v later IH]; intros current H; [by exists current|]. inversion H as [|? ? (a & Ha & Ht) H']; subst.
  cbn [app WafHandler.forwardedIP]. rewrite Ha, Ht. by apply IH.
Qed.

(** C24. The addresses that the trusted proxies appended decide, whatever the client
    put in front of them, in the same line of the header or in lines of its own.
    Without a trusted direct peer no header is read; with one, the appended address
    nearest to the last trusted proxy that is not itself trusted is the client's,
    and a malformed one there falls back to the peer. *)
Theorem client_address_not_spoofed (h : Handler) r direct :
  parseAddress (rq_RemoteAddr r) = Some direct →
  (wf_TrustedProxyChain (hd_WAF _ _ _ h) && containsPrefix (hd_trustedProxies _ _ _ h) direct = false → clientIP h r = addrString direct)
  ∧ (∀ appended x later, wf_TrustedProxyChain (hd_WAF _ _ _ h) = true → containsPrefix (hd_trustedProxies _ _ _ h) direct = true →
      (joinComma (headerValues (rq_Header r) "X-Forwarded-For") = appended
       ∨ ∃ forged, joinComma (headerValues (rq_Header r) "X-Forwarded-For") = forged +:+ String comma appended) →
      splitComma appended = x :: later →
      Forall (λ v, ∃ a, parseAddress v = Some a ∧ containsPrefix (hd_trustedProxies _ _ _ h) a = true) later →
      (parseAddress x = None → clientIP h r = addrString direct)
      ∧ (∀ candidate, parseAddress x = Some candidate → containsPrefix (hd_trustedProxies _ _ _ h) candidate = false →
          clientIP h r = addrString candidate)).
Proof.
  intros Hd. unfold WafHandler.clientIP. rewrite Hd. split.
  { intros Hno. rewrite <- negb_andb, Hno. done. }
  intros appended x later Hchain Htrust Hv Hsplit Hlater. rewrite Hchain, Htrust. cbn [negb orb].
  assert (∃ earlier, splitComma (joinComma (headerValues (rq_Header r) "X-Forwarded-For")) = earlier ++ x :: later) as [earlier ->].
  { rewrite <- Hsplit. destruct Hv as [->|[forged ->]]; [by exists []|]. unfold splitComma. rewrite split_app. by eexists. }
  assert (reverse (earlier ++ x :: later) = reverse later ++ x :: reverse earlier) as ->.
  { rewrite reverse_app, reverse_cons, <- app_assoc. done. }
  apply Forall_reverse in Hlater. destruct (forwardedIP_trusted (hd_trustedProxies _ _ _ h) direct (reverse later) (x :: reverse earlier) direct Hlater) as [current ->].
  cbn [WafHandler.forwardedIP]. split; [by intros ->|]. by intros candidate -> ->.
Qed.

(** ** What reaches the next handler *)

(** The challenge answers the client itself. *)
Definition answersItself (captcha : captchaService) : Prop :=
  ∀ w r id ip headers r' headers', (cp_challenge _ captcha w r id ip headers).2 ≠ Forward r' headers'.

Lemma substring_nested body : ∀ n m, (n ≤ m)%nat → String.substring 0 n (String.substring 0 m body) = String.substring 0 n body.
Proof.
  induction body as [|c body IH]; intros [|n] [|m] Hnm; cbn; try done; [lia|]. f_equal. apply IH. lia.
Qed.
Lemma substring_whole body : ∀ n, (String.length body ≤ n)%nat → String.substring 0 n body = body.
Proof. induction body as [|c body IH]; intros [|n] Hn; cbn in *; try done; [lia|]. f_equal. apply IH. lia. Qed.

(** What the rules see of a body: its first bytes when the handler inspects
    bodies, and the values its content type makes of them.  Only a body that is
    not encoded is inspected. *)
Record seesBody (h : Handler) (r : request) (seen : string) (values : list requestCandidate) : Prop := {
  sb_seen : seen = match rq_Body r with
    | Some body => if hd_inspectBody _ _ _ h then String.substring 0 (Z.to_nat (wf_BodyInspectLimitBytes (hd_WAF _ _ _ h))) body else ""
    | None => "" end;
  sb_values : values = match rq_Body r with
    | Some _ => if hd_inspectBody _ _ _ h then decodedBodyCandidates parsers (headerGet (rq_Header r) "Content-Type") seen else []
    | None => [] end;
  sb_plain : rq_Body r ≠ None → hd_inspectBody _ _ _ h = true →
    trimSpace (headerGet (rq_Header r) "Content-Encoding") = "" ∨ asciiLower (trimSpace (headerGet (rq_Header r) "Content-Encoding")) = "identity";
}.

Lemma inspectBody_body io h r headers r' seen values :
  inspectBody io h r headers = inr (r', seen, values) → r' = r ∧ (wf_Enabled (hd_WAF _ _ _ h) = true → seesBody h r seen values).
Proof.
  unfold WafHandler.inspectBody. destruct (rq_Body r) as [body|] eqn:Hb; [|by intros [= <- <- <-]; split; [done|]; intros _; constructor; rewrite ?Hb].
  destruct (wf_Enabled _) eqn:He; [|by intros [= <- <- <-]]. destruct (hd_inspectBody _ _ _ h) eqn:Hi; cbn [andb];
    [|by intros [= <- <- <-]; split; [done|]; intros _; constructor; rewrite ?Hb, ?Hi].
  destruct (_ && _) eqn:Hplain; [done|]. destruct (io_readOk io); [|done]. cbn [negb].
  assert (∀ b, b = body → withBody r b = r) as Hw. { intros b ->. unfold withBody. rewrite <- Hb. by destruct r. }
  assert (∀ shown, shown = String.substring 0 (Z.to_nat (wf_BodyInspectLimitBytes (hd_WAF _ _ _ h))) body →
    seesBody h r shown (decodedBodyCandidates parsers (headerGet (rq_Header r) "Content-Type") shown)) as Hsees.
  { intros shown ->. constructor; rewrite ?Hb, ?Hi; [done..|]. intros _ _. apply andb_false_iff in Hplain as [Hp|Hp]; [left|right];
      apply negb_false_iff, bool_decide_eq_true in Hp; exact Hp. }
  set (limit := wf_BodyInspectLimitBytes _) in *. destruct (limit <? _) eqn:Hlt.
  - destruct (bool_decide (wf_BodyOverLimitAction _ = _)); [done|]. intros [= <- <- <-]. split; [apply Hw, substring_split|]. intros _. apply Hsees, substring_nested. lia.
  - destruct (io_closeOk io); [|done]. cbn [negb]. apply Z.ltb_ge in Hlt. unfold slen in Hlt. assert (0 ≤ limit) as Hl by lia.
    assert (String.substring 0 (Z.to_nat (limit + 1)) body = body) as E.
    { replace (Z.to_nat (limit + 1)) with (S (Z.to_nat limit)) in * by lia. apply substring_short. lia. }
    rewrite E in *. intros [= <- <- <-]. split; [by apply Hw|]. intros _. apply Hsees. symmetry. apply substring_whole. lia.
Qed.

Lemma strip_lookup hs name : stripReservedWAFHeaders hs !! name = if reservedHeader name then None else hs !! name.
Proof.
  unfold stripReservedWAFHeaders. destruct (reservedHeader name) eqn:E.
  - apply map_lookup_filter_None. right. intros x _. cbn. by rewrite E.
  - destruct (hs !! name) as [v|] eqn:Ev.
    + by apply map_lookup_filter_Some.
    + apply map_lookup_filter_None. by left.
Qed.
Notation tagsName := "X-Goveto-Waf-Tags".
Lemma softHeaders_other hs soft name : name ≠ tagsName → softHeaders trimSpace hs soft !! name = hs !! name.
Proof.
  intros Hn. unfold softHeaders. revert hs. induction soft as [|d soft IH]; intros hs; cbn [foldl]; [done|]. rewrite IH.
  case_bool_decide; [|done]. unfold appendTag, setHeader. destruct (hasTag _ _ _); [done|]. by rewrite lookup_insert_ne.
Qed.
(** The tags a header holds after the decisions: those it had, and theirs. *)
Lemma softHeaders_tags hs soft : let values := headerValues (softHeaders trimSpace hs soft) tagsName in
  (∃ added, values = headerValues hs tagsName ++ added ∧ Forall (λ v, ∃ d, d ∈ soft ∧ dc_action d = "TAG" ∧ dc_tag d = v) added)
  ∧ ∀ d, d ∈ soft → dc_action d = "TAG" → dc_tag d ∈ values ∨ hasTag trimSpace values (dc_tag d) = true.
Proof.
  unfold softHeaders. revert hs. induction soft as [|d soft IH]; intros hs; cbn [foldl].
  { split; [exists []; by rewrite app_nil_r|]. intros d Hd. by apply elem_of_nil in Hd. }
  set (hs1 := if bool_decide _ then _ else _). destruct (IH hs1) as [(added & -> & Ha) Hin]. cbn zeta.
  assert (∃ add1, headerValues hs1 tagsName = headerValues hs tagsName ++ add1 ∧ Forall (λ v, dc_action d = "TAG" ∧ dc_tag d = v) add1
    ∧ (dc_action d = "TAG" → dc_tag d ∈ add1 ∨ hasTag trimSpace (headerValues hs tagsName) (dc_tag d) = true)) as (add1 & E1 & F1 & T1).
  { subst hs1. case_bool_decide as Ht; [|exists []; by rewrite app_nil_r]. unfold appendTag. destruct (hasTag _ _ _) eqn:Eh.
    - exists []. rewrite app_nil_r. split_and!; [done|constructor|]. by right.
    - exists [dc_tag d]. unfold headerValues at 1, setHeader. rewrite lookup_insert_eq. split_and!; [done|by repeat constructor|]. left. by apply list_elem_of_singleton. }
  rewrite E1 in *. split.
  - exists (add1 ++ added). rewrite app_assoc. split; [done|]. apply Forall_app. split.
    + eapply Forall_impl; [exact F1|]. intros v [? ?]. exists d. split_and!; [apply list_elem_of_here|done|done].
    + eapply Forall_impl; [exact Ha|]. intros v (d' & ? & ? & ?). exists d'. split_and!; [by apply list_elem_of_further|done|done].
  - intros d' Hd' Ht. apply elem_of_cons in Hd' as [->|Hd']; [|by apply Hin].
    destruct (T1 Ht) as [Hi|Hi]; [left; set_solver|right]. unfold hasTag in *. rewrite !existsb_app. by rewrite Hi.
Qed.

(** Why a request goes on: the firewall is off, no rule ended the evaluation,
    the rule that did allows it, or its challenge was passed. *)
Definition mayPass (captcha : captchaService) (r : request) (ip : string) (terminal : option WafHandler.wafDecision) : Prop :=
  match terminal with
  | None => True
  | Some d => dc_action d = "ALLOW" ∨ (dc_action d = "CAPTCHA" ∧ cp_hasClearance _ captcha r (dc_id d) ip = true)
  end.

Lemma executeDecision_answers captcha w headers r ip d r' headers' : answersItself captcha →
  (executeDecision World blockPage redirectTarget redirectText captcha w headers r ip d).2 ≠ Forward r' headers'.
Proof.
  intros Hc. unfold executeDecision, writeWAFResponse, httpRedirect. repeat case_bool_decide; done.
Qed.

(** A request as it goes on, with the decisions that tagged it. *)
Definition forwardedAs (id : string) (r : request) (soft : list WafHandler.wafDecision) (rf : request) : Prop :=
  rq_Body rf = rq_Body r ∧ rq_Method rf = rq_Method r ∧ rq_Host rf = rq_Host r ∧ rq_RequestURI rf = rq_RequestURI r
  ∧ headerValues (rq_Header rf) "X-Request-Id" = [id]
  ∧ (∀ name, name ≠ "X-Request-Id" → reservedHeader name = false → rq_Header rf !! name = rq_Header r !! name)
  ∧ (∀ name, name ≠ tagsName → reservedHeader name = true → rq_Header rf !! name = None)
  ∧ (∀ v, v ∈ headerValues (rq_Header rf) tagsName → ∃ d, d ∈ soft ∧ dc_action d = "TAG" ∧ dc_tag d = v)
  ∧ ∀ d, d ∈ soft → dc_action d = "TAG" →
      dc_tag d ∈ headerValues (rq_Header rf) tagsName ∨ hasTag trimSpace (headerValues (rq_Header rf) tagsName) (dc_tag d) = true.

Lemma forwardedAs_soft id r soft : let r0 := withHeader r (setHeader (stripReservedWAFHeaders (rq_Header r)) "X-Request-Id" [id]) in
  forwardedAs id r soft (withHeader r0 (softHeaders trimSpace (rq_Header r0) soft)).
Proof.
  intros r0. unfold forwardedAs. cbn [withHeader rq_Body rq_Method rq_Host rq_RequestURI rq_Header]. subst r0. cbn [withHeader rq_Header]. unfold setHeader.
  assert (reservedHeader tagsName = true) as Ht by reflexivity. assert (reservedHeader "X-Request-Id" = false) as Hx by reflexivity.
  destruct (softHeaders_tags (<["X-Request-Id":=[id]]> (stripReservedWAFHeaders (rq_Header r))) soft) as [(added & E & Ha) Hin].
  split_and!; try done.
  - unfold headerValues. by rewrite softHeaders_other, lookup_insert_eq.
  - intros name Hn Hr. rewrite softHeaders_other by congruence. rewrite lookup_insert_ne, strip_lookup by congruence. by rewrite Hr.
  - intros name Hn Hr. rewrite softHeaders_other by done. rewrite lookup_insert_ne, strip_lookup by congruence. by rewrite Hr.
  - intros v. rewrite E. unfold headerValues at 1. rewrite lookup_insert_ne, strip_lookup, Ht by done. rewrite list.Forall_forall in Ha. apply Ha.
Qed.

(** The identifier a request goes on with: its own if it is a UUID, or a new one. *)
Notation requestIDOf fresh r :=
  (normalizedRequestID trimSpace uuidParse fresh (headerGet (stripReservedWAFHeaders (rq_Header r)) "X-Request-Id")).

(** The data the rules are evaluated on is that of the request: the request
    itself, the client's address, its place and the head of the body. *)
Record inspects (h : Handler) (r : request) (data : requestData) : Prop := {
  in_request : dt_request data = r;
  in_ip : dt_ip data = clientIP h r;
  in_place : ∀ lookup country subdivision, hd_geo _ _ _ h = Some lookup → parseAddress (clientIP h r) ≫= lookup = Some (country, subdivision) →
    dt_country data = toUpper country ∧ dt_region data = match subdivision with
      | Some region => if bool_decide (toUpper country ≠ "" ∧ toUpper region ≠ "") then toUpper country +:+ "-" +:+ toUpper region else toUpper region
      | None => "" end;
  in_nowhere : match hd_geo _ _ _ h with Some lookup => parseAddress (clientIP h r) ≫= lookup = None | None => True end →
    dt_country data = "" ∧ dt_region data = "";
  in_body : seesBody h r (dt_body data) (dt_bodyValues data);
}.

Lemma serve_forwards captcha io env s w (h : Handler) r fresh s' w' r' headers :
  answersItself captcha → ServeHTTP captcha io env s w h r fresh = (s', w', Forward r' headers) →
  let r0 := withHeader r (setHeader (stripReservedWAFHeaders (rq_Header r)) "X-Request-Id" [requestIDOf fresh r]) in
  w' = w ∧ ∃ soft, r' = withHeader r0 (softHeaders trimSpace (rq_Header r0) soft) ∧
    (wf_Enabled (hd_WAF _ _ _ h) = false ∧ soft = [] ∧ s' = s
     ∨ wf_Enabled (hd_WAF _ _ _ h) = true ∧ ∃ data terminal, evaluateWAF env s data h = (s', Ok (soft, terminal))
         ∧ inspects h r0 data ∧ mayPass captcha r' (dt_ip data) terminal).
Proof.
  intros Hc. unfold WafHandler.ServeHTTP. set (r0 := withHeader r _). set (cr := match hd_geo _ _ _ h with Some _ => _ | None => _ end).
  destruct cr as [country region] eqn:Hcr. subst cr. destruct (inspectBody io h r0 _) as [o|[[r1 seen] values]] eqn:Hi.
  { intros [= <- <- ->]. exfalso. revert Hi. unfold WafHandler.inspectBody. repeat (case_match; try done). }
  apply inspectBody_body in Hi as [-> Hsees]. destruct (wf_Enabled (hd_WAF _ _ _ h)) eqn:He; cbn [negb].
  2:{ intros [= <- <- <- _]. split; [done|]. exists []. split; [by destruct r|by left]. }
  destruct (evaluateWAF env s _ h) as [s1 [[soft terminal]|e]] eqn:Hw; [|done]. intros H.
  assert (s' = s1 ∧ w' = w ∧ r' = withHeader r0 (softHeaders trimSpace (rq_Header r0) soft)
    ∧ mayPass captcha r' (clientIP h r0) terminal) as (-> & -> & -> & Hp).
  { destruct terminal as [d|]; [|by injection H as <- <- <- _]. revert H. case_bool_decide as Ha; [intros [= <- <- <- _]; split_and!; [done..|by left]|].
    match goal with |- context [executeDecision ?a ?b ?c ?d ?e ?f ?g ?h ?i ?j] =>
      pose proof (executeDecision_answers e f g h i j) as Hx; destruct (executeDecision a b c d e f g h i j) as [w1 answer] end.
    case_bool_decide as Hk; cbn [andb]; [destruct (cp_hasClearance _ _ _ _ _) eqn:Hcl|]; intros [= <- <- H];
      [subst r'; split_and!; [done..|by right]|exfalso; by eapply Hx|exfalso; by eapply Hx]. }
  split; [done|]. exists soft. split; [done|]. right. split; [done|]. eexists _, terminal. split; [exact Hw|]. split; [|done].
  constructor; cbn [dt_request dt_ip dt_country dt_region dt_body dt_bodyValues]; [done|done| | |by apply Hsees].
  - intros lookup c sub Hg Hl. rewrite Hg, Hl in Hcr. destruct sub as [region0|]; injection Hcr as <- <-; [|done].
    rewrite bool_decide_and. done.
  - intros Hn. destruct (hd_geo _ _ _ h) as [lookup|]; [rewrite Hn in Hcr|]; by injection Hcr as <- <-.
Qed.

(** C21. Only a request the rules let through reaches the next handler, and it does
    unchanged but for the headers the firewall owns.  The rules were evaluated
    on this request: its address, place and headers, and the head of its body
    when the handler inspects bodies.  Its body goes on as received, whole, also when
    only the head was inspected; a client cannot forge the firewall's headers,
    and the tags it goes on with are those of the rules that tagged it. *)
Theorem forwarded_request captcha io env s w (h : Handler) r fresh s' w' r' headers :
  answersItself captcha → ServeHTTP captcha io env s w h r fresh = (s', w', Forward r' headers) →
  ∃ soft, forwardedAs (requestIDOf fresh r) r soft r' ∧
    (wf_Enabled (hd_WAF _ _ _ h) = false ∧ soft = [] ∧ s' = s
     ∨ wf_Enabled (hd_WAF _ _ _ h) = true ∧ ∃ data terminal, evaluateWAF env s data h = (s', Ok (soft, terminal))
         ∧ inspects h (withHeader r (setHeader (stripReservedWAFHeaders (rq_Header r)) "X-Request-Id" [requestIDOf fresh r])) data
         ∧ mayPass captcha r' (dt_ip data) terminal).
Proof.
  intros Hc (_ & soft & -> & H)%serve_forwards; [|done]. exists soft. split; [apply forwardedAs_soft|]. exact H.
Qed.
End Handler.

(** ** Runs on concrete inputs *)

Module HandlerDemo.

(** Addresses are texts that do not start with [?], prefixes are prefixes of
    texts, and a regular expression matches what contains it. *)
Definition parse (s : string) : option string := if bool_decide (s = "") || String.prefix "?" s then None else Some s.
Definition inside (p a : string) : bool := String.prefix p a.
Definition same (s : string) : string := s.
Definition noPort (s : string) : option string := None.
Definition whole (re s : string) : string := re.
Definition plain : unicodeText := {|
  ut_runes := λ s, (λ c, Z.of_nat (Ascii.nat_of_ascii c)) <$> list_ascii_of_string s;
  ut_string := λ l, string_of_list_ascii ((λ r, Ascii.ascii_of_nat (Z.to_nat r)) <$> l);
  ut_isControl := λ r, r <? 32; ut_isSpace := λ r, bool_decide (r ∈ [9; 10; 13; 32]) |}.
Definition noBodies : bodyParsers := {|
  bp_mediaType := λ _, None; bp_form := λ _, ∅; bp_jsonStrings := λ _, []; bp_parts := λ _ _, [] |}.
Definition noUUID (s : string) : option string := None.
Definition page (status : Z) (id : string) : string := "blocked by " +:+ id.
Definition target (r : request) (url : string) : string := url.
Definition redirectPage (url : string) (status : Z) : string := url.
Definition number (n : Z) : string := "1".

Definition action (type tag : string) : WAFAction := {|
  wa_Type := type; wa_StatusCode := 403; wa_Response := {| wp_Type := "DEFAULT"; wp_Body := "" |};
  wa_RedirectURL := ""; wa_RedirectStatus := 0; wa_Tag := tag |}.
Definition condition (field operator value : string) (values : list string) : WAFCondition := {|
  wc_ID := "c"; wc_Field := field; wc_FieldName := ""; wc_Operator := operator; wc_Value := value; wc_Values := values;
  wc_Negate := false; wc_CaseSensitive := true |}.
Definition rule (id : string) (c : WAFCondition) (a : WAFAction) : WAFRule := {|
  wr_ID := id; wr_Name := id; wr_Enabled := true; wr_Type := WAFRuleTypeMatch; wr_Conditions := singleWAFCondition c;
  wr_Key := ""; wr_KeyName := ""; wr_Requests := 0; wr_WindowSeconds := 0; wr_Burst := 0; wr_Backend := ""; wr_FailureMode := "";
  wr_Action := a |}.
Definition tagRule := rule "tag" (condition "PATH" "PREFIX" "/api" []) (action "TAG" "api").
Definition blockRule := rule "block" (condition "CLIENT_IP" "CIDR" "" ["66."]) (action "BLOCK" "").
Definition compiled (r : WAFRule) : compiledRule string string := {|
  cr_rule := r; cr_conditions := {| cn_operator := "AND"; cn_groups := map (λ g,
    {| cg_operator := wg_Operator g; cg_conditions := map (compiledOf (@Some string) (@Some string)) (wg_Conditions g) |})
    (wn_Groups (wr_Conditions r)) |} |}.
Definition policy : WAFPolicy := {|
  wf_Enabled := true; wf_TrustedProxyChain := true; wf_TrustedProxies := ["10."]; wf_RuleSets := Some [];
  wf_BodyInspectLimitBytes := 4; wf_BodyOverLimitAction := "PARTIAL"; wf_GeoIPDatabase := "" |}.
Definition handler : Handler string string string := {|
  hd_SiteID := "site"; hd_WAF := policy;
  hd_ruleSets := [{| rs_ID := "set"; rs_Name := "set"; rs_rules := [compiled tagRule; compiled blockRule] |}];
  hd_inspectBody := true; hd_trustedProxies := ["10."]; hd_geo := None; hd_needsRedis := false |}.
Definition from (forwarded : list string) : request := {|
  rq_Method := "POST"; rq_Host := "example.org"; rq_Path := "/api/x"; rq_RawQuery := ""; rq_RequestURI := "/api/x"; rq_Query := ∅;
  rq_Header := {["X-Forwarded-For" := forwarded; "X-Goveto-Waf-Tags" := ["admin"]]}; rq_Cookies := []; rq_RemoteAddr := "10.0.0.1";
  rq_Body := Some "0123456789"; rq_Scheme := ""; rq_TLS := false; rq_EscapedPath := "/api/x" |}.
Definition dataOf (r : request) (ip : string) : requestData := {|
  dt_request := r; dt_body := "0123"; dt_bodyValues := []; dt_ip := ip; dt_country := ""; dt_region := "" |}.
Definition env : wafEnv unit unit := {|
  ev_now := λ _, 0; ev_visited := λ _, []; ev_configured := Err tt; ev_redis := λ _ _ _, Err tt |}.
Definition idle : wafState unit unit := {| st_limiters := ∅; st_backend := None |}.
Definition captcha : captchaService unit := {|
  cp_hasClearance := λ _ _ _, false; cp_challenge := λ w _ id _ headers, (w, Respond 503 headers ("challenge " +:+ id)) |}.
Definition io : bodyIO := {| io_readOk := true; io_closeOk := true |}.

Notation serve := (ServeHTTP string string string unit unit unit contains whole inside parse same same noPort same same same same plain
  page target redirectPage number noBodies noUUID captcha io env idle tt handler).

(** The rule on the path matches the request as its condition says. *)
Lemma rule_conditions_meaning_witness :
  (matchConditions string string string contains whole inside parse same plain (cr_conditions _ _ (compiled tagRule)) (dataOf (from []) "66.1")).1 = true.
Proof.
  etransitivity; [apply (rule_conditions_meaning (@Some string) contains whole (@Some string) inside parse same plain tagRule)|].
  - apply list_elem_of_here.
  - apply Forall_singleton, list_elem_of_here.
  - vm_compute. reflexivity.
  - vm_compute. reflexivity.
Defined.

(** A request the first rule tags is blocked by the second. *)
Lemma first_match_decides_witness : ∃ pre rest s1 soft, flatRules (hd_ruleSets _ _ _ handler) = pre ++ rest
  ∧ passed contains whole inside parse same plain env (dataOf (from []) "66.1") idle pre s1 soft
  ∧ ends contains whole inside parse same plain env (dataOf (from []) "66.1") s1 rest idle
      (Ok ([decisionForRule "set" tagRule "variable=PATH;match=/api/x" 0], Some (decisionForRule "set" blockRule "variable=CLIENT_IP;match=66.1" 0))) soft.
Proof. apply (first_match_decides contains whole inside parse same plain). vm_compute. reflexivity. Defined.

(** The client claims to be [77.1], the proxies saw [66.1]. *)
Lemma client_address_not_spoofed_witness :
  clientIP string string string inside parse same same noPort same same handler (from ["77.1,66.1,10.0.0.2"]) = "66.1".
Proof.
  refine (proj2 (proj2 (client_address_not_spoofed (Regex:=string) inside parse same same noPort same same handler (from ["77.1,66.1,10.0.0.2"])
    "10.0.0.1" _) "66.1,10.0.0.2" "66.1" ["10.0.0.2"] _ _ _ _ _) "66.1" _ _); try (vm_compute; reflexivity).
  { right. exists "77.1". vm_compute. reflexivity. }
  apply Forall_singleton. exists "10.0.0.2". vm_compute. by split.
Defined.

Lemma forwarded_run : ∃ s' r' headers, serve (from ["77.1"]) "id" = (s', tt, Forward r' headers).
Proof. vm_compute. eexists _, _, _. reflexivity. Qed.

(** A request no rule ends goes on, with its body and the tag of the rule, not
    the tag it came with. *)
Lemma forwarded_request_witness : ∃ r' soft, forwardedAs same "id" (from ["77.1"]) soft r' ∧ rq_Body r' = Some "0123456789".
Proof.
  destruct forwarded_run as (s' & r' & headers & H).
  destruct (forwarded_request contains whole inside parse same same noPort same same same same plain page target redirectPage number noBodies noUUID
    captcha io env idle tt handler (from ["77.1"]) "id" s' tt r' headers) as (soft & Hf & _); [done|exact H|].
  exists r', soft. split; [exact Hf|]. by destruct Hf.
Defined.
End HandlerDemo.
