(* ===== verification/Base64.v ===== *)
(** * Unpadded base64url ([base64.RawURLEncoding])

    What the tokens of the firewall use of Go's [encoding/base64]: three bytes
    become four letters, a rest of one or two bytes becomes two or three, and the
    decoder skips line breaks and ignores the low bits of a rest. *)
From Stdlib Require Import NArith ZArith Lia Ascii String.
From stdpp Require Import base numbers strings option list.
From S2P Require Import Http.

Local Open Scope N_scope.

Definition letter (n : N) : ascii :=
  ascii_of_N (if n <? 26 then 65 + n else if n <? 52 then 71 + n else if n <? 62 then n - 4 else if n =? 62 then 45 else 95).
Definition letterValue (c : ascii) : option N :=
  let n := N_of_ascii c in
  if (65 <=? n) && (n <=? 90) then Some (n - 65)
  else if (97 <=? n) && (n <=? 122) then Some (n - 71)
  else if (48 <=? n) && (n <=? 57) then Some (n + 4)
  else if n =? 45 then Some 62
  else if n =? 95 then Some 63
  else None.

Fixpoint EncodeToString (s : string) : string :=
  match s with
  | EmptyString => EmptyString
  | String a EmptyString =>
      let a := N_of_ascii a in
      String (letter (a / 4)) (String (letter (a mod 4 * 16)) EmptyString)
  | String a (String b EmptyString) =>
      let a := N_of_ascii a in let b := N_of_ascii b in
      String (letter (a / 4)) (String (letter (a mod 4 * 16 + b / 16)) (String (letter (b mod 16 * 4)) EmptyString))
  | String a (String b (String c rest)) =>
      let a := N_of_ascii a in let b := N_of_ascii b in let c := N_of_ascii c in
      String (letter (a / 4)) (String (letter (a mod 4 * 16 + b / 16))
        (String (letter (b mod 16 * 4 + c / 64)) (String (letter (c mod 64)) (EncodeToString rest))))
  end.

Definition lineBreakByte (c : ascii) : bool := (N_of_ascii c =? 10) || (N_of_ascii c =? 13).
Fixpoint dropLineBreaks (s : string) : string :=
  match s with
  | EmptyString => EmptyString
  | String c s => if lineBreakByte c then dropLineBreaks s else String c (dropLineBreaks s)
  end.
Fixpoint decodeQuanta (s : string) : option string :=
  match s with
  | EmptyString => Some EmptyString
  | String _ EmptyString => None
  | String p (String q EmptyString) =>
      p ← letterValue p; q ← letterValue q; Some (String (ascii_of_N (p * 4 + q / 16)) EmptyString)
  | String p (String q (String r EmptyString)) =>
      p ← letterValue p; q ← letterValue q; r ← letterValue r;
      Some (String (ascii_of_N (p * 4 + q / 16)) (String (ascii_of_N (q mod 16 * 16 + r / 4)) EmptyString))
  | String p (String q (String r (String t rest))) =>
      p ← letterValue p; q ← letterValue q; r ← letterValue r; t ← letterValue t; rest ← decodeQuanta rest;
      Some (String (ascii_of_N (p * 4 + q / 16)) (String (ascii_of_N (q mod 16 * 16 + r / 4)) (String (ascii_of_N (r mod 4 * 64 + t)) rest)))
  end.
Definition DecodeString (s : string) : option string := decodeQuanta (dropLineBreaks s).

(** ** Round trip *)

Lemma N_below (k : nat) (P : N → Prop) : Forall P (N.of_nat <$> seq 0 k) → ∀ n, n < N.of_nat k → P n.
Proof.
  intros H n Hn. rewrite list.Forall_forall in H. apply H. apply list_elem_of_fmap. exists (N.to_nat n). split; [lia|]. apply elem_of_seq. lia.
Qed.
Lemma letter_value n : n < 64 → letterValue (letter n) = Some n.
Proof. revert n. apply (N_below 64). repeat constructor. Qed.
Lemma letter_text n : n < 64 → lineBreakByte (letter n) = false ∧ letter n ≠ "."%char.
Proof. revert n. apply (N_below 64). repeat constructor; done. Qed.

Lemma byte_range c : N_of_ascii c < 256.
Proof. apply N_ascii_bounded. Qed.

Lemma string_ind3 (P : string → Prop) :
  P EmptyString → (∀ a, P (String a EmptyString)) → (∀ a b, P (String a (String b EmptyString))) →
  (∀ a b c s, P s → P (String a (String b (String c s)))) → ∀ s, P s.
Proof.
  intros H0 H1 H2 H3 s. enough (P s ∧ (∀ a, P (String a s)) ∧ ∀ a b, P (String a (String b s))) by tauto.
  induction s as [|c s (I0 & I1 & I2)]; [done|]. split_and!; [apply I1|intros; apply I2|intros; by apply H3].
Qed.

Ltac bytes := repeat match goal with c : ascii |- _ => lazymatch goal with _ : N_of_ascii c < 256 |- _ => fail | _ => pose proof (byte_range c) end end.
Ltac divisions := bytes; zify; Z.to_euclidean_division_equations; lia.

Lemma encode_letters s : everyChar (λ c, ∃ n, n < 64 ∧ c = letter n) (EncodeToString s).
Proof.
  induction s as [|a|a b|a b c s IH] using string_ind3; cbn [EncodeToString everyChar];
    repeat split; try done; (eexists; split; [|reflexivity]; divisions).
Qed.
Lemma encode_no_breaks s : dropLineBreaks (EncodeToString s) = EncodeToString s.
Proof.
  pose proof (encode_letters s) as H. induction (EncodeToString s) as [|c t IH]; [done|]. destruct H as [(n & Hn & ->) H].
  cbn [dropLineBreaks]. rewrite (proj1 (letter_text n Hn)). by rewrite IH.
Qed.
Lemma encode_no_dot s : everyChar (λ c, c ≠ "."%char) (EncodeToString s).
Proof. eapply everyChar_impl; [|apply encode_letters]. intros c (n & Hn & ->). by apply letter_text. Qed.

Lemma ascii_again n c : n = N_of_ascii c → ascii_of_N n = c.
Proof. intros ->. apply ascii_N_embedding. Qed.

(** Decoding undoes encoding. *)
Lemma decode_encode s : DecodeString (EncodeToString s) = Some s.
Proof.
  unfold DecodeString. rewrite encode_no_breaks.
  induction s as [|a|a b|a b c s IH] using string_ind3; cbn [EncodeToString decodeQuanta]; [done|..];
    rewrite !letter_value by divisions; cbn [mbind option_bind]; [..|rewrite IH; cbn [mbind option_bind]];
    repeat f_equal; apply ascii_again; divisions.
Qed.
Lemma EncodeToString_inj s t : EncodeToString s = EncodeToString t → s = t.
Proof. intros H. apply (inj Some). by rewrite <- (decode_encode s), <- (decode_encode t), H. Qed.
