(* ===== verification/WafChallenge.v ===== *)
(** * CAPTCHA challenges ([caddy/waf/pow.go], [environment.go], [distributed.go])

    The signed claims of challenges and clearances, the challenge a client gets,
    the check of its solution, the single use of a challenge through Redis, and
    the clearance cookie: the CAPTCHA behind [WafHandler.captchaService].  The
    cryptographic functions and the JSON codec are parameters (their laws are in
    [WafChallengeTheorems]).  Times are nanoseconds of Unix time; every call of
    [time.Now] is an argument of its own.  A solution's environment is without
    its device memory, a float nothing reads. *)
From Stdlib Require Import ZArith NArith Lia Ascii String.
From stdpp Require Import base numbers strings gmap sets option.
From S2P Require Import Prelude Http WafPolicy RateLimit WafHandler Base64.

Local Open Scope Z_scope.

(** ** Claims *)

Definition powVersion : Z := 3.
Definition powAlgorithm : string := "SCRYPT-HMAC".
Definition powCounterMinimum : Z := 24.
Definition powCounterMaximum : Z := 40.
Definition powScryptN : Z := 16384.
Definition powScryptR : Z := 8.
Definition powScryptP : Z := 1.
Definition powKeyLength : Z := 32.
Definition powTargetLength : Z := 16.
Definition challengeTTL : Z := 120 * second.
Definition clearanceTTL : Z := 1800 * second.
Definition powDomain : string := "goveto-edge/waf-scrypt/v3" +:+ zeroByte.

Record challengeClaim := {
  cl_Version : Z; cl_Kind : string; cl_SiteID : string; cl_RuleID : string; cl_Binding : string; cl_IssuedAt : Z; cl_ExpiresAt : Z;
  cl_Algorithm : string; cl_Nonce : string; cl_Salt : string; cl_Target : string; cl_KeySignature : string; cl_MaxCounter : Z;
  cl_ScryptN : Z; cl_ScryptR : Z; cl_ScryptP : Z; cl_Environment : string; cl_Stateful : bool;
}.
Definition setStateful (c : challengeClaim) (stateful : bool) : challengeClaim := {|
  cl_Version := cl_Version c; cl_Kind := cl_Kind c; cl_SiteID := cl_SiteID c; cl_RuleID := cl_RuleID c; cl_Binding := cl_Binding c;
  cl_IssuedAt := cl_IssuedAt c; cl_ExpiresAt := cl_ExpiresAt c; cl_Algorithm := cl_Algorithm c; cl_Nonce := cl_Nonce c; cl_Salt := cl_Salt c;
  cl_Target := cl_Target c; cl_KeySignature := cl_KeySignature c; cl_MaxCounter := cl_MaxCounter c; cl_ScryptN := cl_ScryptN c;
  cl_ScryptR := cl_ScryptR c; cl_ScryptP := cl_ScryptP c; cl_Environment := cl_Environment c; cl_Stateful := stateful |}.

(** ** The client's environment ([environment.go]) *)

Definition browserEnvironmentVersion : Z := 1.
Record browserEnvironment := {
  be_Version : Z; be_UserAgent : string; be_Platform : string; be_Vendor : string; be_Languages : list string; be_Timezone : string;
  be_Webdriver : bool; be_Cookies : bool; be_Worker : bool; be_WebAssembly : bool; be_Crypto : bool; be_Canvas : bool; be_WebGL : bool;
  be_WebGLVendor : string; be_WebGLRenderer : string; be_LocalStorage : bool; be_SessionStorage : bool; be_IndexedDB : bool;
  be_HardwareConcurrency : Z; be_TouchPoints : Z; be_ScreenWidth : Z; be_ScreenHeight : Z; be_ColorDepth : Z; be_OuterWidth : Z;
  be_OuterHeight : Z; be_AutomationSignals : list string; be_NativeTampering : list string;
}.
Record environmentAssessment := { ea_Accepted : bool; ea_Score : Z; ea_Reasons : list string }.
Record challengeSolution := { so_Counter : Z; so_Key : string; so_Environment : browserEnvironment }.

(** [if condition { hard(reason) }] and [if condition { soft(score, reason) }]. *)
Definition hard (condition : bool) (reason : string) (a : environmentAssessment) : environmentAssessment :=
  if condition then {| ea_Accepted := false; ea_Score := ea_Score a; ea_Reasons := ea_Reasons a ++ [reason] |} else a.
Definition soft (condition : bool) (score : Z) (reason : string) (a : environmentAssessment) : environmentAssessment :=
  if condition then {| ea_Accepted := ea_Accepted a; ea_Score := ea_Score a + score; ea_Reasons := ea_Reasons a ++ [reason] |} else a.
Definition userAgentOf (r : request) : string := headerGet (rq_Header r) "User-Agent".

Section Challenge.
Variable trimSpace toLower : string → string.

Definition assessBrowserEnvironment (r : request) (e : browserEnvironment) : environmentAssessment :=
  let a := {| ea_Accepted := true; ea_Score := 0; ea_Reasons := [] |} in
  let a := hard (negb (be_Version e =? browserEnvironmentVersion)) "unsupported-environment-version" a in
  let a := hard (bool_decide (be_UserAgent e = "") || negb (bool_decide (be_UserAgent e = userAgentOf r))) "user-agent-mismatch" a in
  let userAgent := toLower (be_UserAgent e) in
  let a := hard (be_Webdriver e) "webdriver" a in
  let a := hard (negb (bool_decide (be_AutomationSignals e = []))) "automation-global" a in
  let a := hard (contains "headlesschrome" userAgent || contains "phantomjs" userAgent || contains "slimerjs" userAgent) "headless-user-agent" a in
  let a := hard (negb (be_Cookies e)) "cookies-disabled" a in
  let a := soft (negb (be_Worker e) || negb (be_WebAssembly e)) 1 "limited-runtime" a in
  let a := soft (negb (be_Crypto e)) 1 "missing-webcrypto" a in
  let a := soft (negb (be_Canvas e)) 1 "missing-canvas" a in
  let a := soft (negb (be_WebGL e)) 1 "missing-webgl" a in
  let renderer := toLower (be_WebGLRenderer e) in
  let a := soft (contains "swiftshader" renderer || contains "llvmpipe" renderer || contains "software" renderer) 1 "software-renderer" a in
  let a := soft (negb (be_LocalStorage e) && negb (be_SessionStorage e) && negb (be_IndexedDB e)) 1 "storage-unavailable" a in
  let a := soft (be_HardwareConcurrency e <? 1) 1 "missing-hardware-concurrency" a in
  let a := soft ((be_ScreenWidth e <? 1) || (be_ScreenHeight e <? 1) || (be_ColorDepth e <? 1)) 2 "invalid-screen" a in
  let a := soft ((be_OuterWidth e <? 1) || (be_OuterHeight e <? 1)) 1 "zero-window-size" a in
  let a := soft (bool_decide (be_Languages e = [])) 1 "missing-languages" a in
  let a := soft (bool_decide (be_Platform e = "")) 1 "missing-platform" a in
  let a := soft (bool_decide (be_Timezone e = "")) 1 "missing-timezone" a in
  let a := soft (contains "chrome/" userAgent && negb (contains "edg/" userAgent) && negb (contains "opr/" userAgent)
                 && negb (bool_decide (be_Vendor e = "Google Inc."))) 1 "chromium-vendor-mismatch" a in
  let a := soft (contains "safari/" userAgent && negb (contains "chrome/" userAgent)
                 && negb (bool_decide (be_Vendor e = "Apple Computer, Inc."))) 1 "safari-vendor-mismatch" a in
  let a := soft (contains "mobile" userAgent && (be_TouchPoints e <? 1)) 1 "mobile-touch-mismatch" a in
  let a := soft (negb (bool_decide (be_NativeTampering e = []))) 2 "native-api-tampering" a in
  let a := soft (negb (bool_decide (trimSpace (headerGet (rq_Header r) "Accept-Language") = "")) && bool_decide (be_Languages e = []))
             1 "accept-language-mismatch" a in
  hard (6 <=? ea_Score a) "risk-threshold" a.

(** ** Signatures *)

Variable hmac : string → string → string.
Variable sha256 : string → string.
Variable scrypt : string → string → Z → Z → Z → Z → option string.
Variable marshalClaim : challengeClaim → string.
Variable unmarshalClaim : string → option challengeClaim.
Variable unmarshalSolution : string → option challengeSolution.
Variable marshalAssessment : environmentAssessment → string.

(** [binary.BigEndian.PutUint32]. *)
Definition bigEndian32 (n : Z) : string :=
  let octet shift := ascii_of_N (Z.to_N (Z.land (Z.shiftr n shift) 255)) in
  String (octet 24) (String (octet 16) (String (octet 8) (String (octet 0) EmptyString))).
Definition unix (t : Z) : Z := t / second.

Record challengeHandler := { ch_SiteID : string; ch_challengeKey : string; ch_distributed : bool }.

Definition decodeChallengeSecret (encoded : string) : option string :=
  match DecodeString encoded with Some secret => if slen secret <? 32 then None else Some secret | None => None end.
Definition challengeCacheKey (h : challengeHandler) (ruleID ip : string) : string :=
  EncodeToString (hmac (ch_challengeKey h)
    ("challenge-cache" +:+ zeroByte +:+ ch_SiteID h +:+ zeroByte +:+ ruleID +:+ zeroByte +:+ ip)).
Definition requestBinding (key : string) (r : request) (ip : string) : string :=
  EncodeToString (String.substring 0 16 (hmac key
    ("request-binding" +:+ zeroByte +:+ ip +:+ zeroByte +:+ userAgentOf r +:+ zeroByte
     +:+ trimSpace (headerGet (rq_Header r) "Accept-Language")))).
Definition captchaCookieName (siteID ruleID : string) : string :=
  "__goveto_waf_" +:+ EncodeToString (String.substring 0 9 (sha256 (siteID +:+ zeroByte +:+ ruleID))).
Definition deriveScryptKey (nonce salt : string) (counter n r p : Z) : option string :=
  scrypt (powDomain +:+ nonce +:+ bigEndian32 counter) salt n r p powKeyLength.
Definition keySignature (secret : string) (counter : Z) (key : string) : string :=
  EncodeToString (hmac secret ("derived-key" +:+ zeroByte +:+ bigEndian32 counter +:+ key)).

Definition dot : ascii := "."%char.
Definition signClaim (h : challengeHandler) (claim : challengeClaim) : option string :=
  if slen (ch_challengeKey h) <? 32 then None
  else
    let encoded := EncodeToString (marshalClaim claim) in
    Some (encoded +:+ String dot (EncodeToString (hmac (ch_challengeKey h) encoded))).
Definition verifyClaim (h : challengeHandler) (now : Z) (token : string) : option challengeClaim :=
  match splitOn dot token with
  | [encoded; tag] =>
      if slen (ch_challengeKey h) <? 32 then None
      else
        signature ← DecodeString tag;
        if negb (bool_decide (EncodeToString signature = tag)) || negb (bool_decide (signature = hmac (ch_challengeKey h) encoded)) then None
        else
          payload ← DecodeString encoded;
          if negb (bool_decide (EncodeToString payload = encoded)) then None
          else
            claim ← unmarshalClaim payload;
            let now := unix now in
            if negb (cl_Version claim =? powVersion) || (now + 30 <? cl_IssuedAt claim) || (cl_ExpiresAt claim <? now)
               || (cl_ExpiresAt claim <? cl_IssuedAt claim)
               || (clearanceTTL / second + 30 <? to_int64 (cl_ExpiresAt claim - cl_IssuedAt claim)) then None
            else Some claim
  | _ => None
  end.

Definition decodeChallengeSolution (encoded : string) : option challengeSolution := DecodeString encoded ≫= unmarshalSolution.

(** The assessment of a valid solution. *)
Definition validChallengeClaim (h : challengeHandler) (claim : challengeClaim) (r : request) (ruleID ip encodedProof : string)
  : option environmentAssessment :=
  if negb (cl_Version claim =? powVersion) || negb (bool_decide (cl_Kind claim = "challenge"))
     || negb (bool_decide (cl_Algorithm claim = powAlgorithm)) || negb (bool_decide (cl_SiteID claim = ch_SiteID h))
     || negb (bool_decide (cl_RuleID claim = ruleID)) || negb (bool_decide (cl_Binding claim = requestBinding (ch_challengeKey h) r ip))
     || negb (cl_MaxCounter claim =? powCounterMaximum) || negb (cl_ScryptN claim =? powScryptN) || negb (cl_ScryptR claim =? powScryptR)
     || negb (cl_ScryptP claim =? powScryptP) then None
  else
    proof ← decodeChallengeSolution encodedProof;
    if cl_MaxCounter claim <? so_Counter proof then None
    else
      key ← DecodeString (so_Key proof);
      if negb (slen key =? powKeyLength) then None
      else
        target ← DecodeString (cl_Target claim);
        if negb (slen target =? powTargetLength) || negb (bool_decide (String.substring 0 (Z.to_nat powTargetLength) key = target)) then None
        else if negb (bool_decide (keySignature (ch_challengeKey h) (so_Counter proof) key = cl_KeySignature claim)) then None
        else Some (assessBrowserEnvironment r (so_Environment proof)).

Definition hasClearance (h : challengeHandler) (now : Z) (r : request) (ruleID ip : string) : bool :=
  match cookieOf (rq_Cookies r) (captchaCookieName (ch_SiteID h) ruleID) with
  | None => false
  | Some value =>
      if 4096 <? slen value then false
      else
        match verifyClaim h now value with
        | None => false
        | Some claim =>
            (cl_Version claim =? powVersion) && bool_decide (cl_Kind claim = "clearance") && bool_decide (cl_SiteID claim = ch_SiteID h)
            && bool_decide (cl_RuleID claim = ruleID) && bool_decide (cl_Binding claim = requestBinding (ch_challengeKey h) r ip)
        end
  end.

(** ** Redis ([distributed.go], [internal/securitystate/keys.go]) *)

Definition hexDigit (n : N) : ascii := ascii_of_N (if n <? 10 then 48 + n else 87 + n)%N.
Fixpoint hexString (s : string) : string :=
  match s with
  | EmptyString => EmptyString
  | String c s => String (hexDigit (N_of_ascii c / 16)) (String (hexDigit (N_of_ascii c mod 16)) (hexString s))
  end.
Definition digest (value : string) : string := hexString (String.substring 0 16 (sha256 value)).
Definition ChallengeKey (token : string) : string := "challenge:" +:+ digest token.
Definition RateCounterKey (siteID ruleID value : string) : string := "rl:" +:+ siteID +:+ ":" +:+ ruleID +:+ ":" +:+ digest value.

(** Keys, and when each expires. *)
Record redisState := { rd_challenges : gmap string Z; rd_counters : gmap string (Z * Z) }.

(** A command is answered, or its answer is lost; it may have run all the same. *)
Inductive reply := Answered | Lost (executed : bool).
Definition runs (p : reply) : bool := match p with Answered => true | Lost executed => executed end.
Definition answered (p : reply) : bool := match p with Answered => true | Lost _ => false end.

(** The error is [true] when the answer was lost. *)
Definition PutChallenge (rd : redisState) (token : string) (now ttl : Z) (p : reply) : redisState * bool :=
  let rd' := {| rd_challenges := <[ChallengeKey token := now + ttl]> (rd_challenges rd); rd_counters := rd_counters rd |} in
  (if runs p then rd' else rd, negb (answered p)).
Definition ConsumeChallenge (rd : redisState) (token : string) (now : Z) (p : reply) : redisState * option bool :=
  let issued := match rd_challenges rd !! ChallengeKey token with Some expiry => now <? expiry | None => false end in
  let rd' := {| rd_challenges := delete (ChallengeKey token) (rd_challenges rd); rd_counters := rd_counters rd |} in
  (if runs p then rd' else rd, if answered p then Some issued else None).
(** [redisStore.Allow] and its script; a counter whose time is over is gone. *)
Definition redisAllow (rd : redisState) (siteID ruleID value : string) (rule : WAFRule) (now : Z) (p : reply) : redisState * option (bool * Z) :=
  let window := wr_WindowSeconds rule * second in
  let key := RateCounterKey siteID ruleID value in
  let '(count, expiry) :=
    match rd_counters rd !! key with
    | Some (count, expiry) => if now <? expiry then (count + 1, expiry) else (1, now + window)
    | None => (1, now + window)
    end in
  let rd' := {| rd_challenges := rd_challenges rd; rd_counters := <[key := (count, expiry)]> (rd_counters rd) |} in
  (if runs p then rd' else rd,
   if answered p then Some (if wr_Requests rule + wr_Burst rule <? count then (false, Z.max (expiry - now) 0) else (true, 0)) else None).

(** ** Issuing a challenge *)

Record cachedChallenge := { cc_token : string; cc_binding : string; cc_expiresAt : Z }.
(** The state the challenges of all requests share. *)
Record challengeWorld := {
  cw_cache : gmap string cachedChallenge; cw_operations : Z; cw_limiters : generationLimiters; cw_redis : redisState;
}.
Definition setCache (w : challengeWorld) (cache : gmap string cachedChallenge) : challengeWorld :=
  {| cw_cache := cache; cw_operations := cw_operations w; cw_limiters := cw_limiters w; cw_redis := cw_redis w |}.
Definition setLimiters (w : challengeWorld) (limiters : generationLimiters) : challengeWorld :=
  {| cw_cache := cw_cache w; cw_operations := cw_operations w; cw_limiters := limiters; cw_redis := cw_redis w |}.
Definition setRedis (w : challengeWorld) (rd : redisState) : challengeWorld :=
  {| cw_cache := cw_cache w; cw_operations := cw_operations w; cw_limiters := cw_limiters w; cw_redis := rd |}.

Inductive challengeError := GenerationLimited (retryAfter : Z) | GenerationBusy | RequestCancelled | GenerationFailed.

(** What generating a challenge draws and waits for: random bytes, and a slot of
    [acquirePoWGeneration] ([RateLimit.powStep]). *)
Record generationInput := {
  gi_nonce : option string; gi_salt : option string; gi_offset : option Z; gi_slot : result challengeError unit;
  gi_visited : counterStore → list (string * counter); gi_put : reply;
}.

Definition pruneChallengeCache (w : challengeWorld) (now : Z) : challengeWorld :=
  let operations := wrap64 (cw_operations w + 1) in
  let cache := if operations mod 256 =? 0 then filter (λ kv, ¬ cc_expiresAt kv.2 ≤ unix now) (cw_cache w) else cw_cache w in
  {| cw_cache := cache; cw_operations := operations; cw_limiters := cw_limiters w; cw_redis := cw_redis w |}.

Definition challengeOf (h : challengeHandler) (ruleID binding : string) (now : Z) (nonce salt : string) (counter : Z) (key : string)
  : challengeClaim := {|
  cl_Version := powVersion; cl_Kind := "challenge"; cl_SiteID := ch_SiteID h; cl_RuleID := ruleID; cl_Binding := binding;
  cl_IssuedAt := unix now; cl_ExpiresAt := unix (now + challengeTTL); cl_Algorithm := powAlgorithm; cl_Nonce := EncodeToString nonce;
  cl_Salt := EncodeToString salt; cl_Target := EncodeToString (String.substring 0 (Z.to_nat powTargetLength) key);
  cl_KeySignature := keySignature (ch_challengeKey h) counter key; cl_MaxCounter := powCounterMaximum; cl_ScryptN := powScryptN;
  cl_ScryptR := powScryptR; cl_ScryptP := powScryptP; cl_Environment := ""; cl_Stateful := true |}.

Definition orFail {A} (o : option A) : result challengeError A := match o with Some a => Ok a | None => Err GenerationFailed end.

(** The cached token, if it can be used, and the cache without a stale one. *)
Definition cachedToken (w : challengeWorld) (cacheKey binding : string) (now : Z) : challengeWorld * option string :=
  match cw_cache w !! cacheKey with
  | None => (w, None)
  | Some cached =>
      if (unix now + 5 <? cc_expiresAt cached) && bool_decide (cc_binding cached = binding) then (w, Some (cc_token cached))
      else (if cc_expiresAt cached <=? unix now + 5 then setCache w (delete cacheKey (cw_cache w)) else w, None)
  end.

(** The claim before it is signed. *)
Definition generateClaim (h : challengeHandler) (ruleID binding : string) (now : Z) (gi : generationInput) : result challengeError challengeClaim :=
  nonce ← orFail (gi_nonce gi);
  salt ← orFail (gi_salt gi);
  offset ← orFail (gi_offset gi);
  let counter := powCounterMinimum + offset in
  _ ← gi_slot gi;
  key ← orFail (deriveScryptKey nonce salt counter powScryptN powScryptR powScryptP);
  Ok (challengeOf h ruleID binding now nonce salt counter key).

(** The token of a claim: recorded in Redis, or else stateless. *)
Definition storeClaim (h : challengeHandler) (w : challengeWorld) (claim : challengeClaim) (now : Z) (p : reply)
  : challengeWorld * result challengeError string :=
  match signClaim h claim with
  | None => (w, Err GenerationFailed)
  | Some token =>
      if negb (ch_distributed h) then (w, orFail (signClaim h (setStateful claim false)))
      else
        let '(rd, err) := PutChallenge (cw_redis w) token now challengeTTL p in
        (setRedis w rd, if err then orFail (signClaim h (setStateful claim false)) else Ok token)
  end.

Definition challengeToken (h : challengeHandler) (w : challengeWorld) (ruleID : string) (r : request) (ip : string) (now : Z)
    (gi : generationInput) : challengeWorld * result challengeError string :=
  let cacheKey := challengeCacheKey h ruleID ip in
  let binding := requestBinding (ch_challengeKey h) r ip in
  let '(w, cached) := cachedToken w cacheKey binding now in
  match cached with
  | Some token => (w, Ok token)
  | None =>
      let '(limiters, retryAfter) := allowChallengeGeneration (cw_limiters w) (ch_SiteID h) ip now (gi_visited gi) in
      let w := setLimiters w limiters in
      if 0 <? retryAfter then (w, Err (GenerationLimited retryAfter))
      else
        match generateClaim h ruleID binding now gi with
        | Err e => (w, Err e)
        | Ok claim =>
            let '(w, token) := storeClaim h w claim now (gi_put gi) in
            match token with
            | Err e => (w, Err e)
            | Ok token =>
                let entry := {| cc_token := token; cc_binding := binding; cc_expiresAt := unix (now + challengeTTL) |} in
                (pruneChallengeCache (setCache w (<[cacheKey := entry]> (cw_cache w))) now, Ok token)
            end
        end
  end.

(** ** Completing a challenge *)

Record Cookie := { ck_Name : string; ck_Value : string; ck_MaxAge : Z; ck_Secure : bool }.
(** [Cookie.String], and the request's URL with another query. *)
Variable cookieString : Cookie → string.
Variable urlString : request → gmap string (list string) → string.
Variable redirectTarget : request → string → string.
Variable redirectText : string → Z → string.

(** A challenge that was not completed, with the headers set so far, or the
    clearance and the answer. *)
Inductive completion := NotCompleted (headers : gmap string (list string)) | Completed (clearance : Cookie) (answer : outcome).

Definition clearanceOf (h : challengeHandler) (ruleID binding : string) (now : Z) (a : environmentAssessment) : challengeClaim := {|
  cl_Version := powVersion; cl_Kind := "clearance"; cl_SiteID := ch_SiteID h; cl_RuleID := ruleID; cl_Binding := binding;
  cl_IssuedAt := unix now; cl_ExpiresAt := unix (now + clearanceTTL); cl_Algorithm := ""; cl_Nonce := ""; cl_Salt := ""; cl_Target := "";
  cl_KeySignature := ""; cl_MaxCounter := 0; cl_ScryptN := 0; cl_ScryptR := 0; cl_ScryptP := 0;
  cl_Environment := EncodeToString (String.substring 0 16 (sha256 (marshalAssessment a))); cl_Stateful := false |}.

Definition challengeParameter : string := "__goveto_challenge".
Definition proofParameter : string := "__goveto_proof".
Definition challengeHeader (headers : gmap string (list string)) (value : string) : gmap string (list string) :=
  setHeader headers "X-Goveto-Waf-Challenge" [value].

(** The part of [completeChallenge] that uses a stateful challenge up: the
    reason it cannot, if any. *)
Definition consume (h : challengeHandler) (w : challengeWorld) (claim : challengeClaim) (token ruleID ip : string) (now : Z) (p : reply)
  : challengeWorld * option string :=
  if cl_Stateful claim then
    if negb (ch_distributed h) then (w, Some "backend_unavailable")
    else
      let '(rd, consumed) := ConsumeChallenge (cw_redis w) token now p in
      let w := setRedis w rd in
      match consumed with
      | None => (w, Some "backend_unavailable")
      | Some consumed =>
          (setCache w (delete (challengeCacheKey h ruleID ip) (cw_cache w)), if consumed then None else Some "replayed")
      end
  else (w, None).

(** [verified], [consumed] and [now] are the times of the check, of Redis and of
    the clearance. *)
Definition completeChallenge (h : challengeHandler) (w : challengeWorld) (r : request) (ruleID ip : string) (headers : gmap string (list string))
    (verified consumed now : Z) (p : reply) : challengeWorld * completion :=
  let token := queryGet (rq_Query r) challengeParameter in
  let proof := queryGet (rq_Query r) proofParameter in
  if bool_decide (token = "") || bool_decide (proof = "") || (4096 <? slen token) || (8192 <? slen proof) then (w, NotCompleted headers)
  else
    match (claim ← verifyClaim h verified token; a ← validChallengeClaim h claim r ruleID ip proof; Some (claim, a)) with
    | None => (w, NotCompleted (challengeHeader headers "rejected"))
    | Some (claim, assessment) =>
        if negb (ea_Accepted assessment) then (w, NotCompleted (challengeHeader headers "rejected"))
        else
          let '(w, refused) := consume h w claim token ruleID ip consumed p in
          match refused with
          | Some reason => (w, NotCompleted (challengeHeader headers reason))
          | None =>
              match signClaim h (clearanceOf h ruleID (requestBinding (ch_challengeKey h) r ip) now assessment) with
              | None => (w, NotCompleted headers)
              | Some clearance =>
                  let cookie := {| ck_Name := captchaCookieName (ch_SiteID h) ruleID; ck_Value := clearance;
                                   ck_MaxAge := clearanceTTL / second; ck_Secure := rq_TLS r |} in
                  let headers := setHeader headers "Set-Cookie" (headerValues headers "Set-Cookie" ++ [cookieString cookie]) in
                  let url := urlString r (delete proofParameter (delete challengeParameter (rq_Query r))) in
                  (w, Completed cookie (httpRedirect redirectTarget redirectText headers r url 303))
              end
          end
    end.

(** ** The CAPTCHA of [executeDecision] *)

Variable itoa : Z → string.
Variable captchaPage : string → option string.

(** Everything a request's challenge sees of the outside. *)
Record challengeInput := {
  ci_clearanceAt : Z; ci_verified : Z; ci_consumed : Z; ci_now : Z; ci_generated : Z; ci_consume : reply;
  ci_generation : generationInput;
}.

Definition captchaChallenge (h : challengeHandler) (ci : challengeInput) (w : challengeWorld) (r : request) (ruleID ip : string)
    (headers : gmap string (list string)) : challengeWorld * outcome :=
  match completeChallenge h w r ruleID ip headers (ci_verified ci) (ci_consumed ci) (ci_now ci) (ci_consume ci) with
  | (w, Completed _ answer) => (w, answer)
  | (w, NotCompleted headers) =>
      let '(w, token) := challengeToken h w ruleID r ip (ci_generated ci) (ci_generation ci) in
      (w, match token with
          | Err (GenerationLimited retryAfter) =>
              httpError (challengeHeader (setHeader headers "Retry-After" [itoa (retrySeconds retryAfter)]) "rate_limited") 429 "Too Many Requests"
          | Err GenerationBusy => httpError (challengeHeader (setHeader headers "Retry-After" ["1"]) "busy") 503 "Service Unavailable"
          | Err RequestCancelled => Respond 200 headers ""
          | Err GenerationFailed => Failed
          | Ok token =>
              let headers := setHeader headers "Content-Security-Policy"
                ["default-src 'none'; img-src data:; style-src 'unsafe-inline'; script-src 'unsafe-inline'; worker-src blob:"] in
              match captchaPage token with
              | None => Failed
              | Some page => Respond 503 (setHeader headers "Content-Type" ["text/html; charset=utf-8"]) page
              end
          end)
  end.

Definition challengeService (h : challengeHandler) (ci : challengeInput) : captchaService challengeWorld := {|
  cp_hasClearance := λ r ruleID ip, hasClearance h (ci_clearanceAt ci) r ruleID ip;
  cp_challenge := λ w r ruleID ip headers, captchaChallenge h ci w r ruleID ip headers |}.

End Challenge.
