(* ===== verification/WafChallengeTheorems.v ===== *)
(** * Theorems on CAPTCHA challenges

    Which tokens are accepted, that a solved challenge lets the client through,
    that a recorded challenge is used once, and that a rule with a challenge lets
    nobody pass without a clearance of its own. *)
From Stdlib Require Import ZArith NArith Lia Ascii String.
From stdpp Require Import base numbers strings gmap sets option list sorting.
From S2P Require Import Prelude Http WafPolicy RateLimit WafHandler Base64 WafChallenge WafHandlerTheorems.

Local Open Scope Z_scope.

Definition asciiText (s : string) : Prop := everyChar (λ c, (N_of_ascii c < 128)%N) s.
Definition int64Range (z : Z) : Prop := - 2 ^ 63 ≤ z < 2 ^ 63.

(** A claim JSON keeps: its identifiers are UTF-8, its other texts ASCII, and its
    numbers fit. *)
Definition claimText (utf8 : string → bool) (c : challengeClaim) : Prop :=
  utf8 (cl_SiteID c) = true ∧ utf8 (cl_RuleID c) = true
  ∧ Forall asciiText [cl_Kind c; cl_Binding c; cl_Algorithm c; cl_Nonce c; cl_Salt c; cl_Target c; cl_KeySignature c; cl_Environment c]
  ∧ Forall int64Range [cl_Version c; cl_IssuedAt c; cl_ExpiresAt c; cl_ScryptN c; cl_ScryptR c; cl_ScryptP c]
  ∧ 0 ≤ cl_MaxCounter c < 2 ^ 32.

(** What the JSON codec and scrypt promise. *)
Class ChallengeLaws (marshalClaim : challengeClaim → string) (unmarshalClaim : string → option challengeClaim) (utf8 : string → bool)
    (scrypt : string → string → Z → Z → Z → Z → option string) : Prop := {
  codec_roundtrip : ∀ c, claimText utf8 c → unmarshalClaim (marshalClaim c) = Some c;
  scrypt_length : ∀ password salt n r p len key, scrypt password salt n r p len = Some key → slen key = len;
}.

Lemma letters_ascii s : asciiText (EncodeToString s).
Proof.
  eapply everyChar_impl; [|apply encode_letters]. intros c (n & Hn & ->). cbn beta. revert n Hn. apply (N_below 64). repeat constructor.
Qed.
Section Challenge.
Context (trimSpace toLower : string → string) (hmac : string → string → string) (sha256 : string → string).
Context (scrypt : string → string → Z → Z → Z → Z → option string).
Context (marshalClaim : challengeClaim → string) (unmarshalClaim : string → option challengeClaim).
Context (unmarshalSolution : string → option challengeSolution) (marshalAssessment : environmentAssessment → string).
Context (cookieString : Cookie → string) (urlString : request → gmap string (list string) → string).
Context (redirectTarget : request → string → string) (redirectText : string → Z → string).

Notation verifyClaim := (verifyClaim hmac unmarshalClaim).
Notation signClaim := (signClaim hmac marshalClaim).
Notation requestBinding := (requestBinding trimSpace hmac).
Notation hasClearance := (hasClearance trimSpace hmac sha256 unmarshalClaim).
Notation challengeToken := (challengeToken trimSpace hmac sha256 scrypt marshalClaim).
Notation generateClaim := (generateClaim hmac scrypt).
Notation storeClaim := (storeClaim hmac sha256 marshalClaim).
Notation deriveScryptKey := (deriveScryptKey scrypt).
Notation ChallengeKey := (ChallengeKey sha256).
Notation decodeChallengeSolution := (decodeChallengeSolution unmarshalSolution).
Notation validChallengeClaim := (validChallengeClaim trimSpace toLower hmac unmarshalSolution).
Notation completeChallenge := (completeChallenge trimSpace toLower hmac sha256 marshalClaim unmarshalClaim unmarshalSolution marshalAssessment
  cookieString urlString redirectTarget redirectText).

(** ** Tokens *)

(** The token of a payload, and the claims accepted at a time. *)
Definition sealed (key payload : string) : string :=
  EncodeToString payload +:+ String dot (EncodeToString (hmac key (EncodeToString payload))).
Definition current (now : Z) (c : challengeClaim) : Prop :=
  cl_Version c = powVersion ∧ cl_IssuedAt c ≤ unix now + 30 ∧ unix now ≤ cl_ExpiresAt c ∧ cl_IssuedAt c ≤ cl_ExpiresAt c
  ∧ to_int64 (cl_ExpiresAt c - cl_IssuedAt c) ≤ 1830.

Lemma split_sealed key payload : splitOn dot (sealed key payload) = [EncodeToString payload; EncodeToString (hmac key (EncodeToString payload))].
Proof. unfold sealed. rewrite split_app, !split_none by apply encode_no_dot. done. Qed.

Lemma verify_sound h now token c : verifyClaim h now token = Some c →
  32 ≤ slen (ch_challengeKey h) ∧ ∃ payload, token = sealed (ch_challengeKey h) payload ∧ unmarshalClaim payload = Some c ∧ current now c.
Proof.
  unfold WafChallenge.verifyClaim, current. change (clearanceTTL / second + 30) with 1830.
  destruct (splitOn dot token) as [|encoded [|tag [|? ?]]] eqn:Hs; try done. apply split_two in Hs as ->.
  destruct (slen _ <? 32) eqn:Hk; [done|]. apply Z.ltb_ge in Hk. destruct (DecodeString tag) as [signature|]; cbn [mbind option_bind]; [|done].
  case_bool_decide as Ht; [|done]. case_bool_decide as Hsig; [|done]. cbn [negb orb].
  destruct (DecodeString encoded) as [payload|]; cbn [mbind option_bind]; [|done]. case_bool_decide as He; [|done]. cbn [negb].
  destruct (unmarshalClaim payload) as [c'|] eqn:Hu; cbn [mbind option_bind]; [|done].
  destruct (_ || _) eqn:Hg; [done|]. intros [= ->]. rewrite !orb_false_iff, negb_false_iff, Z.eqb_eq, !Z.ltb_ge in Hg. split; [done|].
  exists payload. split; [|split; [done|tauto]]. unfold sealed. by rewrite He, <- Hsig, Ht.
Qed.
Lemma verify_complete h now payload c : 32 ≤ slen (ch_challengeKey h) → unmarshalClaim payload = Some c → current now c →
  verifyClaim h now (sealed (ch_challengeKey h) payload) = Some c.
Proof.
  unfold WafChallenge.verifyClaim, current. change (clearanceTTL / second + 30) with 1830.
  intros Hk Hu (Hv & Hi & He & Hie & Hl). rewrite split_sealed.
  rewrite (proj2 (Z.ltb_ge _ _) Hk), !decode_encode. cbn [mbind option_bind]. rewrite !bool_decide_eq_true_2 by done. cbn [negb orb].
  rewrite Hu. cbn [mbind option_bind]. rewrite Hv, Z.eqb_refl. cbn [negb orb]. by rewrite !(proj2 (Z.ltb_ge _ _)) by done.
Qed.

(** The accepted tokens are the sealed payloads of current claims, and nothing
    else: a token has a valid signature under the site's key, and no other
    spelling of it is accepted, so a payload has one token. *)
Theorem verified_token_iff h now token c : verifyClaim h now token = Some c ↔
  32 ≤ slen (ch_challengeKey h) ∧ ∃ payload, token = sealed (ch_challengeKey h) payload ∧ unmarshalClaim payload = Some c ∧ current now c.
Proof. split; [apply verify_sound|]. intros (Hk & payload & -> & Hu & Hc). by apply verify_complete. Qed.

(** ** Clearances *)

(** The request carries a clearance sealed for the site, the rule and this
    client, which is still current. *)
Definition cleared (h : challengeHandler) (now : Z) (r : request) (ruleID ip : string) : Prop :=
  32 ≤ slen (ch_challengeKey h) ∧ ∃ payload c,
    cookieOf (rq_Cookies r) (captchaCookieName sha256 (ch_SiteID h) ruleID) = Some (sealed (ch_challengeKey h) payload)
    ∧ slen (sealed (ch_challengeKey h) payload) ≤ 4096 ∧ unmarshalClaim payload = Some c ∧ current now c ∧ cl_Kind c = "clearance"
    ∧ cl_SiteID c = ch_SiteID h ∧ cl_RuleID c = ruleID ∧ cl_Binding c = requestBinding (ch_challengeKey h) r ip.

Lemma hasClearance_iff h now r ruleID ip : hasClearance h now r ruleID ip = true ↔ cleared h now r ruleID ip.
Proof.
  unfold WafChallenge.hasClearance, cleared. split.
  - destruct (cookieOf _ _) as [token|] eqn:Hc; [|done]. destruct (4096 <? slen token) eqn:Hl; [done|]. apply Z.ltb_ge in Hl.
    destruct (verifyClaim h now token) as [c|] eqn:Hv; [|done]. apply verify_sound in Hv as (Hk & payload & -> & Hu & Hcur).
    rewrite !andb_true_iff, !bool_decide_eq_true. intros [[[[_ H1] H2] H3] H4]. split; [done|]. by exists payload, c.
  - intros (Hk & payload & c & -> & Hl & Hu & Hcur & H1 & H2 & H3 & H4). rewrite (proj2 (Z.ltb_ge _ _) Hl).
    rewrite (verify_complete h now payload c) by done. rewrite H1, H2, H3, H4, !bool_decide_eq_true_2 by done.
    destruct Hcur as [-> _]. done.
Qed.

(** ** Single use *)

Notation live w := (rd_challenges (cw_redis w)).

(** The key a call of [challengeToken] records in Redis, if it records one. *)
Definition issuedBy (h : challengeHandler) (w w' : challengeWorld) (ruleID : string) (r : request) (ip : string) (now : Z) (gi : generationInput)
  : list string :=
  if bool_decide (live w' = live w) then []
  else match generateClaim h ruleID (requestBinding (ch_challengeKey h) r ip) now gi with
       | Ok claim => match signClaim h claim with Some token => [ChallengeKey token] | None => [] end
       | Err _ => []
       end.
(** The key of the recorded challenge a clearance was granted for. *)
Definition grantedBy (h : challengeHandler) (verified : Z) (r : request) (c : completion) : list string :=
  let token := queryGet (rq_Query r) challengeParameter in
  match c, verifyClaim h verified token with
  | Completed _ _, Some claim => if cl_Stateful claim then [ChallengeKey token] else []
  | _, _ => []
  end.

(** What the requests of any sites do to the shared state, in any order: issue
    a challenge, complete one, count a request; and keys expire. *)
Inductive challengeStep : challengeWorld → list string → list string → challengeWorld → Prop :=
| StepToken h w ruleID r ip now gi w' answer :
    challengeToken h w ruleID r ip now gi = (w', answer) → challengeStep w (issuedBy h w w' ruleID r ip now gi) [] w'
| StepComplete h w r ruleID ip headers verified consumed now p w' c :
    completeChallenge h w r ruleID ip headers verified consumed now p = (w', c) → challengeStep w [] (grantedBy h verified r c) w'
| StepRate w siteID ruleID value rule now p rd answer :
    redisAllow sha256 (cw_redis w) siteID ruleID value rule now p = (rd, answer) → challengeStep w [] [] (setRedis w rd)
| StepExpire w key expiry now :
    live w !! key = Some expiry → expiry ≤ now →
    challengeStep w [] [] (setRedis w {| rd_challenges := delete key (live w); rd_counters := rd_counters (cw_redis w) |}).
Inductive challengeRun : challengeWorld → list string → list string → challengeWorld → Prop :=
| RunDone w : challengeRun w [] [] w
| RunStep w i1 g1 w1 i2 g2 w2 : challengeStep w i1 g1 w1 → challengeRun w1 i2 g2 w2 → challengeRun w (i1 ++ i2) (g1 ++ g2) w2.

Definition times (key : string) (l : list string) : nat := length (filter (λ k, k = key) l).
Definition alive (key : string) (w : challengeWorld) : nat := if bool_decide (is_Some (live w !! key)) then 1 else 0.

Lemma times_app key l1 l2 : times key (l1 ++ l2) = (times key l1 + times key l2)%nat.
Proof. unfold times. by rewrite list.filter_app, length_app. Qed.
Lemma times_single key k : times key [k] = if bool_decide (k = key) then 1%nat else 0%nat.
Proof. unfold times. rewrite filter_cons, filter_nil. case_bool_decide; by case_decide. Qed.

(** Issuing a challenge changes what Redis holds only by recording its token. *)
Lemma challengeToken_live h w ruleID r ip now gi w' answer : challengeToken h w ruleID r ip now gi = (w', answer) →
  live w' = live w ∨ ∃ claim token, generateClaim h ruleID (requestBinding (ch_challengeKey h) r ip) now gi = Ok claim ∧ signClaim h claim = Some token
    ∧ live w' = <[ChallengeKey token := now + challengeTTL]> (live w).
Proof.
  unfold WafChallenge.challengeToken.
  assert (∀ k b, live (cachedToken w k b now).1 = live w) as Hcache.
  { intros k b. unfold cachedToken. repeat (case_match; try done). }
  specialize (Hcache (challengeCacheKey hmac h ruleID ip) (requestBinding (ch_challengeKey h) r ip)).
  destruct (cachedToken w _ _ now) as [w0 [token|]]; cbn [fst] in Hcache; [intros [= <- _]; by left|].
  destruct (allowChallengeGeneration _ _ _ _ _) as [limiters retry]. destruct (0 <? retry); [intros [= <- _]; by left|].
  destruct (generateClaim _ _ _ _ _) as [claim|e] eqn:Hg; [|intros [= <- _]; by left].
  unfold WafChallenge.storeClaim. destruct (signClaim h claim) as [token|] eqn:Hs; [|intros [= <- _]; by left].
  assert (∀ w1 t, live w1 = live w ∨ live w1 = <[ChallengeKey token := now + challengeTTL]> (live w) →
    (match t with Err e => (w1, Err e) | Ok t => (pruneChallengeCache (setCache w1 (<[challengeCacheKey hmac h ruleID ip := {|
       cc_token := t; cc_binding := requestBinding (ch_challengeKey h) r ip; cc_expiresAt := unix (now + challengeTTL) |}]> (cw_cache w1))) now, Ok t) end)
      = (w', answer) →
    live w' = live w ∨ ∃ claim0 token0, Ok claim = Ok (E:=challengeError) claim0 ∧ signClaim h claim0 = Some token0
      ∧ live w' = <[ChallengeKey token0 := now + challengeTTL]> (live w)) as Hend.
  { intros w1 t Hl H. assert (live w' = live w1) as ->. { destruct t; by injection H as <- _. }
    destruct Hl as [->| ->]; [by left|]. right. by exists claim, token. }
  destruct (ch_distributed h); cbn [negb]; [|apply Hend; by left].
  destruct (PutChallenge _ _ _ _ _ _) as [rd err] eqn:Hp. apply Hend. unfold PutChallenge in Hp.
  destruct (runs (gi_put gi)); injection Hp as <- <-; cbn [setRedis cw_redis rd_challenges setLimiters]; rewrite Hcache; [by right|by left].
Qed.
Lemma completeChallenge_live h w r ruleID ip headers verified consumed now p w' c :
  completeChallenge h w r ruleID ip headers verified consumed now p = (w', c) →
  let key := ChallengeKey (queryGet (rq_Query r) challengeParameter) in
  (live w' = live w ∨ live w' = delete key (live w)) ∧ (grantedBy h verified r c ≠ [] → is_Some (live w !! key) ∧ live w' = delete key (live w)).
Proof.
  unfold WafChallenge.completeChallenge, grantedBy. set (token := queryGet _ challengeParameter). cbn zeta.
  destruct (_ || _); [intros [= <- <-]; by split; [left|]|].
  destruct (verifyClaim h verified token) as [claim|]; cbn [mbind option_bind]; [|intros [= <- <-]; by split; [left|]].
  destruct (validChallengeClaim _ _ _ _ _ _) as [a|]; cbn [mbind option_bind]; [|intros [= <- <-]; by split; [left|]].
  destruct (ea_Accepted a); cbn [negb]; [|intros [= <- <-]; by split; [left|]].
  destruct (consume _ _ _ _ _ _ _ _ _ _) as [w1 refused] eqn:Hc. intros H.
  assert (w' = w1 ∧ match c with Completed _ _ => refused = None | _ => True end) as [-> Hr].
  { destruct refused; [by injection H as <- <-|]. destruct (signClaim _ _); by injection H as <- <-. }
  revert Hc. unfold consume. destruct (cl_Stateful claim); [|intros [= <- <-]; split; [by left|by destruct c]].
  destruct (ch_distributed h); cbn [negb]; [|intros [= <- <-]; split; [by left|by destruct c]].
  unfold ConsumeChallenge. destruct (answered p) eqn:Ha.
  - assert (runs p = true) as -> by by destruct p. intros [= <- <-]. split; [by right|]. destruct c; [done|]. intros _. split; [|done].
    clear H. by destruct (live w !! _).
  - intros [= <- <-]. split; [destruct (runs p); [by right|by left]|by destruct c].
Qed.
Lemma step_counts key w issued granted w' : challengeStep w issued granted w' →
  (times key granted + alive key w' ≤ alive key w + times key issued)%nat.
Proof.
  intros H. destruct H as [h w ruleID r ip now gi w' answer H|h w r ruleID ip headers verified consumed now p w' c H|w siteID ruleID value rule now p rd answer H|w k expiry now Hk He].
  - unfold issuedBy, alive. apply challengeToken_live in H as [->|(claim & token & -> & -> & Hl)];
      [rewrite (bool_decide_eq_true_2 (live w = live w)) by done; cbn; lia|].
    destruct (bool_decide (live w' = live w)) eqn:Heq; [apply bool_decide_eq_true in Heq; rewrite Heq; cbn; lia|]. rewrite times_single, Hl. destruct (decide (ChallengeKey token = key)) as [<-|Hne].
    + rewrite (bool_decide_eq_true_2 (ChallengeKey token = ChallengeKey token)) by done. destruct (bool_decide _), (bool_decide _); cbn; lia.
    + rewrite lookup_insert_ne by done. cbn. lia.
  - apply completeChallenge_live in H as [Hl Hg]. unfold alive. set (token := queryGet _ _) in *.
    assert (grantedBy h verified r c = [] ∨ grantedBy h verified r c = [ChallengeKey token]) as [E|E].
    { unfold grantedBy. repeat (case_match; try (by left); try (by right)). }
    + rewrite E. cbn. destruct Hl as [->| ->]; [lia|]. destruct (decide (ChallengeKey token = key)) as [<-|Hne].
      * rewrite lookup_delete_eq. cbn. lia.
      * rewrite lookup_delete_ne by done. lia.
    + rewrite E in *. destruct Hg as [Hs ->]; [done|]. rewrite times_single. case_bool_decide as Hk.
      * subst key. rewrite lookup_delete_eq, (bool_decide_eq_true_2 _ Hs). cbn. lia.
      * rewrite lookup_delete_ne by done. cbn. lia.
  - unfold alive. cbn. assert (rd_challenges rd = live w) as -> by (unfold redisAllow in H; destruct (runs p); repeat case_match; by simplify_eq). lia.
  - unfold alive. cbn. destruct (decide (k = key)) as [->|Hne].
    + rewrite lookup_delete_eq. cbn. lia.
    + rewrite lookup_delete_ne by done. lia.
Qed.

(** C26. A recorded challenge is used once.  Whatever the requests of all sites do, in
    any order, and whatever answers of Redis are lost, the clearances granted for
    a recorded challenge are never more than the times it was recorded; so a
    solution sent again gets no clearance. *)
Theorem challenge_single_use key w issued granted w' :
  challengeRun w issued granted w' → live w !! key = None → (times key granted ≤ times key issued)%nat.
Proof.
  intros Hrun Hk. enough (times key granted + alive key w' ≤ alive key w + times key issued)%nat as H.
  { unfold alive in H. rewrite Hk in H. cbn in H. lia. }
  clear Hk. induction Hrun as [w|w i1 g1 w1 i2 g2 w2 Hs Hr IH]; [cbn; lia|]. apply (step_counts key) in Hs. rewrite !times_app. lia.
Qed.

(** ** A solved challenge *)

Lemma sign_sealed h c token : signClaim h c = Some token → 32 ≤ slen (ch_challengeKey h) ∧ token = sealed (ch_challengeKey h) (marshalClaim c).
Proof. unfold WafChallenge.signClaim. destruct (slen _ <? 32) eqn:E; [done|]. apply Z.ltb_ge in E. by intros [= <-]. Qed.

Section Solved.
Context (utf8 : string → bool) `{!ChallengeLaws marshalClaim unmarshalClaim utf8 scrypt}.

Lemma sign_verify h c token now : claimText utf8 c → signClaim h c = Some token → current now c → verifyClaim h now token = Some c.
Proof. intros Ht [Hk ->]%sign_sealed Hc. apply verify_complete; [done| |done]. by apply codec_roundtrip. Qed.

(** Times that fit the clock. *)
Definition clockTime (t : Z) : Prop := 0 ≤ t < 2 ^ 62 * second.

Lemma unix_add t n : unix (t + n * second) = unix t + n.
Proof. unfold unix. apply Z.div_add. done. Qed.
Lemma unix_range t : clockTime t → 0 ≤ unix t < 2 ^ 62.
Proof. unfold clockTime, unix, second. intros H. split; [apply Z.div_pos; lia|apply Z.div_lt_upper_bound; lia]. Qed.

Lemma challengeOf_text h ruleID r ip now nonce salt counter key stateful :
  utf8 (ch_SiteID h) = true → utf8 ruleID = true → clockTime now →
  claimText utf8 (setStateful (challengeOf hmac h ruleID (requestBinding (ch_challengeKey h) r ip) now nonce salt counter key) stateful).
Proof.
  intros Hs Hr Hn%unix_range. unfold claimText, challengeTTL. cbn [challengeOf setStateful cl_SiteID cl_RuleID cl_Kind cl_Binding cl_Algorithm cl_Nonce cl_Salt
    cl_Target cl_KeySignature cl_Environment cl_Version cl_IssuedAt cl_ExpiresAt cl_ScryptN cl_ScryptR cl_ScryptP cl_MaxCounter].
  split; [done|]. split; [done|]. unfold challengeTTL. rewrite unix_add. split; [|split; [|done]].
  - repeat constructor; try apply letters_ascii; done.
  - unfold int64Range, powVersion, powScryptN, powScryptR, powScryptP. repeat constructor; lia.
Qed.
Lemma clearanceOf_text h ruleID r ip now a : utf8 (ch_SiteID h) = true → utf8 ruleID = true → clockTime now →
  claimText utf8 (clearanceOf sha256 marshalAssessment h ruleID (requestBinding (ch_challengeKey h) r ip) now a).
Proof.
  intros Hs Hr Hn%unix_range. unfold claimText. cbn [clearanceOf cl_SiteID cl_RuleID cl_Kind cl_Binding cl_Algorithm cl_Nonce cl_Salt
    cl_Target cl_KeySignature cl_Environment cl_Version cl_IssuedAt cl_ExpiresAt cl_ScryptN cl_ScryptR cl_ScryptP cl_MaxCounter].
  split; [done|]. split; [done|]. unfold clearanceTTL. rewrite unix_add. split; [|split; [|done]].
  - repeat constructor; try apply letters_ascii; done.
  - unfold int64Range, powVersion. repeat constructor; lia.
Qed.
Lemma lifetime_current c start now n : cl_Version c = powVersion → cl_IssuedAt c = unix start → cl_ExpiresAt c = unix start + n → 0 ≤ n ≤ 1830 →
  unix start ≤ unix now + 30 → unix now ≤ unix start + n → current now c.
Proof. intros Hv Hi He Hn H1 H2. unfold current. rewrite Hi, He. replace (unix start + n - unix start) with n by lia. rewrite to_int64_small by lia. lia. Qed.

Lemma substring_length n : ∀ s, String.length (String.substring 0 n s) = Nat.min n (String.length s).
Proof. induction n as [|n IH]; intros [|c s]; cbn; try done. by rewrite IH. Qed.

(** A solution with the key the server derived is valid. *)
Lemma solution_valid h ruleID r ip now nonce salt counter key stateful r2 proof e :
  deriveScryptKey nonce salt counter powScryptN powScryptR powScryptP = Some key → counter ≤ powCounterMaximum →
  requestBinding (ch_challengeKey h) r2 ip = requestBinding (ch_challengeKey h) r ip →
  decodeChallengeSolution proof = Some {| so_Counter := counter; so_Key := EncodeToString key; so_Environment := e |} →
  validChallengeClaim h (setStateful (challengeOf hmac h ruleID (requestBinding (ch_challengeKey h) r ip) now nonce salt counter key) stateful)
    r2 ruleID ip proof = Some (assessBrowserEnvironment trimSpace toLower r2 e).
Proof.
  intros Hkey Hc Hb Hp. unfold WafChallenge.deriveScryptKey in Hkey. apply scrypt_length in Hkey. unfold WafChallenge.validChallengeClaim. cbn [challengeOf setStateful cl_Version cl_Kind
    cl_Algorithm cl_SiteID cl_RuleID cl_Binding cl_MaxCounter cl_ScryptN cl_ScryptR cl_ScryptP cl_Target cl_KeySignature].
  rewrite Hb, !bool_decide_eq_true_2, !Z.eqb_refl by done. cbn [negb orb]. rewrite Hp. cbn [mbind option_bind so_Counter so_Key so_Environment].
  rewrite (proj2 (Z.ltb_ge _ _) Hc), !decode_encode. cbn [mbind option_bind]. rewrite Hkey, Z.eqb_refl. cbn [negb].
  assert (slen (String.substring 0 (Z.to_nat powTargetLength) key) = powTargetLength) as ->.
  { unfold slen. rewrite substring_length. unfold slen, powKeyLength in Hkey. unfold powTargetLength. lia. }
  by rewrite Z.eqb_refl, !bool_decide_eq_true_2 by done.
Qed.

(** A token issued on a cache miss is the signed challenge of fresh random
    bytes, recorded in Redis when it says so. *)
Lemma challengeToken_fresh h w ruleID r ip now gi w1 token :
  cw_cache w !! challengeCacheKey hmac h ruleID ip = None → challengeToken h w ruleID r ip now gi = (w1, Ok token) →
  ∃ nonce salt offset key stateful, gi_nonce gi = Some nonce ∧ gi_salt gi = Some salt ∧ gi_offset gi = Some offset
    ∧ deriveScryptKey nonce salt (powCounterMinimum + offset) powScryptN powScryptR powScryptP = Some key
    ∧ signClaim h (setStateful (challengeOf hmac h ruleID (requestBinding (ch_challengeKey h) r ip) now nonce salt (powCounterMinimum + offset) key) stateful)
      = Some token
    ∧ (stateful = true → ch_distributed h = true ∧ live w1 !! ChallengeKey token = Some (now + challengeTTL)).
Proof.
  intros Hmiss. unfold WafChallenge.challengeToken, cachedToken. rewrite Hmiss. cbn beta iota zeta.
  destruct (allowChallengeGeneration _ _ _ _ _) as [limiters retry]. destruct (0 <? retry); [done|].
  destruct (generateClaim _ _ _ _ _) as [claim|e] eqn:Hg; [|done]. unfold WafChallenge.generateClaim in Hg.
  apply bind_Ok in Hg as (nonce & Hn & Hg). apply bind_Ok in Hg as (salt & Hs & Hg). apply bind_Ok in Hg as (offset & Ho & Hg).
  apply bind_Ok in Hg as ([] & _ & Hg). apply bind_Ok in Hg as (key & Hk & Hg). apply Ok_inj in Hg as <-.
  assert (∀ A (o : option A) a, orFail o = Ok a → o = Some a) as Hof. { intros A [a'|] a; [|done]. by intros [= ->]. }
  apply Hof in Hn, Hs, Ho, Hk. destruct (storeClaim _ _ _ _ _) as [w2 [t|e]] eqn:Hst; [|done]. intros [= <- ->].
  unfold WafChallenge.storeClaim in Hst. destruct (signClaim h _) as [t|] eqn:Hsign; [|done].
  exists nonce, salt, offset, key. destruct (ch_distributed h); cbn [negb] in Hst.
  2:{ exists false. injection Hst as _ Hst. apply Hof in Hst. done. }
  destruct (PutChallenge _ _ _ _ _ _) as [rd []] eqn:Hp; injection Hst as <- Hst; [exists false; apply Hof in Hst; done|].
  subst t. exists true. split_and!; try done. intros _. split; [done|].
  unfold PutChallenge in Hp. destruct (gi_put gi); [|done]. injection Hp as <-. apply lookup_insert_eq.
Qed.

Lemma completes h w r ruleID ip headers verified consumed now p claim a w' :
  let token := queryGet (rq_Query r) challengeParameter in let proof := queryGet (rq_Query r) proofParameter in
  token ≠ "" → proof ≠ "" → slen token ≤ 4096 → slen proof ≤ 8192 → 32 ≤ slen (ch_challengeKey h) →
  verifyClaim h verified token = Some claim → validChallengeClaim h claim r ruleID ip proof = Some a → ea_Accepted a = true →
  consume hmac sha256 h w claim token ruleID ip consumed p = (w', None) →
  ∃ answer, completeChallenge h w r ruleID ip headers verified consumed now p = (w', Completed {|
    ck_Name := captchaCookieName sha256 (ch_SiteID h) ruleID;
    ck_Value := sealed (ch_challengeKey h) (marshalClaim (clearanceOf sha256 marshalAssessment h ruleID (requestBinding (ch_challengeKey h) r ip) now a));
    ck_MaxAge := clearanceTTL / second; ck_Secure := rq_TLS r |} answer).
Proof.
  intros token proof Ht Hp Hl1 Hl2 Hkey Hv Ha Hacc Hc. eexists. unfold WafChallenge.completeChallenge. fold token. fold proof.
  rewrite !bool_decide_eq_false_2, (proj2 (Z.ltb_ge _ _) Hl1), (proj2 (Z.ltb_ge _ _) Hl2) by done. cbn [orb].
  rewrite Hv. cbn [mbind option_bind]. rewrite Ha. cbn [mbind option_bind]. rewrite Hacc. cbn [negb]. rewrite Hc.
  unfold WafChallenge.signClaim. rewrite (proj2 (Z.ltb_ge _ _) Hkey). reflexivity.
Qed.

(** C27. The client solves the challenge it was given and comes back.  A token
    [challengeToken] newly generated (none was cached for the client) is accepted
    with the key scrypt derives for its counter, within two minutes, from the same
    client and an acceptable browser, if Redis answers and, when the challenge was
    recorded there, still holds it; the recorded challenge is used up, and the
    cookie the client gets is a clearance for the rule for the next thirty
    minutes. *)
Theorem solved_challenge_passes h w ruleID r ip now gi w1 token :
  utf8 (ch_SiteID h) = true → utf8 ruleID = true → clockTime now →
  cw_cache w !! challengeCacheKey hmac h ruleID ip = None → challengeToken h w ruleID r ip now gi = (w1, Ok token) →
  ∃ nonce salt offset key, gi_nonce gi = Some nonce ∧ gi_salt gi = Some salt ∧ gi_offset gi = Some offset
    ∧ deriveScryptKey nonce salt (powCounterMinimum + offset) powScryptN powScryptR powScryptP = Some key
    ∧ (offset ≤ powCounterMaximum - powCounterMinimum →
       ∀ w2 r2 proof e headers verified consumed later,
         requestBinding (ch_challengeKey h) r2 ip = requestBinding (ch_challengeKey h) r ip →
         queryGet (rq_Query r2) challengeParameter = token → queryGet (rq_Query r2) proofParameter = proof →
         token ≠ "" → proof ≠ "" → slen token ≤ 4096 → slen proof ≤ 8192 →
         decodeChallengeSolution proof = Some {| so_Counter := powCounterMinimum + offset; so_Key := EncodeToString key; so_Environment := e |} →
         ea_Accepted (assessBrowserEnvironment trimSpace toLower r2 e) = true →
         unix now ≤ unix verified ≤ unix now + 120 → consumed < now + challengeTTL → clockTime later →
         live w2 !! ChallengeKey token = live w1 !! ChallengeKey token →
         ∃ w3 cookie answer, completeChallenge h w2 r2 ruleID ip headers verified consumed later Answered = (w3, Completed cookie answer)
           ∧ (grantedBy h verified r2 (Completed cookie answer) ≠ [] → live w3 !! ChallengeKey token = None)
           ∧ ∀ r3 t, requestBinding (ch_challengeKey h) r3 ip = requestBinding (ch_challengeKey h) r ip →
               cookieOf (rq_Cookies r3) (ck_Name cookie) = Some (ck_Value cookie) → slen (ck_Value cookie) ≤ 4096 →
               unix later ≤ unix t ≤ unix later + 1800 → hasClearance h t r3 ruleID ip = true).
Proof.
  intros Hu1 Hu2 Hnow Hmiss H. destruct (challengeToken_fresh _ _ _ _ _ _ _ _ _ Hmiss H) as (nonce & salt & offset & key & stateful & Hn & Hs & Ho & Hk & Hsign & Hlive).
  exists nonce, salt, offset, key. do 4 (split; [done|]). intros Hoff w2 r2 proof e headers verified consumed later Hb Hq1 Hq2 Ht Hp Hl1 Hl2 Hsol Hacc Hv Hc Hlat Hw2.
  pose proof (challengeOf_text h ruleID r ip now nonce salt (powCounterMinimum + offset) key stateful Hu1 Hu2 Hnow) as Htext.
  set (claim := setStateful _ stateful) in *.
  assert (verifyClaim h verified token = Some claim) as Hver.
  { apply (sign_verify h claim token verified Htext Hsign). eapply (lifetime_current _ now _ 120); [done|done| |lia..]. apply unix_add. }
  assert (∃ w3, consume hmac sha256 h w2 claim token ruleID ip consumed Answered = (w3, None)) as [w3 Hcon].
  { unfold consume, claim. cbn [setStateful cl_Stateful]. destruct stateful; [|by eexists]. destruct (Hlive eq_refl) as [-> El]. cbn [negb].
    unfold ConsumeChallenge. cbn [answered runs]. rewrite Hw2, El, (proj2 (Z.ltb_lt _ _) Hc). by eexists. }
  pose proof (proj1 (sign_sealed _ _ _ Hsign)) as Hkey. subst token proof.
  edestruct (completes h w2 r2 ruleID ip headers verified consumed later Answered claim) as [answer Hrun]; try done.
  { apply solution_valid; (done || lia). }
  eexists w3, _, answer. split; [exact Hrun|]. split.
  { intros Hne. apply completeChallenge_live in Hrun as [_ Hgr]. destruct (Hgr Hne) as [_ ->]. apply lookup_delete_eq. }
  intros r3 t Hb3 Hcook Hlen Ht3. apply hasClearance_iff. split; [done|]. eexists (marshalClaim _), _. split; [exact Hcook|]. split; [exact Hlen|].
  split; [apply codec_roundtrip, clearanceOf_text; done|]. split; [|by rewrite Hb3, Hb].
  eapply (lifetime_current _ later _ 1800); [done|done| |lia..]. apply unix_add.
Qed.
End Solved.

(** What lets a request pass a decision. *)
Definition passes (h : challengeHandler) (now : Z) (r : request) (ip : string) (terminal : option wafDecision) : Prop :=
  match terminal with
  | None => True
  | Some d => dc_action d = "ALLOW" ∨ (dc_action d = "CAPTCHA" ∧ cleared h now r (dc_id d) ip)
  end.

Section Serve.
Context {Regex Prefix Addr Store Error : Type}.
Context (regexMatch : Regex → string → bool) (regexFind : Regex → string → string) (prefixContains : Prefix → Addr → bool).
Context (parseAddr : string → option Addr) (unmapAddr : Addr → Addr) (addrString : Addr → string) (splitHostPort : string → option string).
Context (trimBrackets toUpper : string → string) (text : unicodeText).
Context (blockPage : Z → string → string) (parsers : bodyParsers) (uuidParse : string → option string).
Context (itoa : Z → string) (captchaPage : string → option string).
Notation challengeService := (challengeService trimSpace toLower hmac sha256 scrypt marshalClaim unmarshalClaim unmarshalSolution marshalAssessment
  cookieString urlString redirectTarget redirectText itoa captchaPage).

Lemma challenge_answers h ci : answersItself (challengeService h ci).
Proof.
  intros w r id ip headers r' headers'. cbn [cp_challenge WafChallenge.challengeService]. unfold captchaChallenge.
  destruct (completeChallenge _ _ _ _ _ _ _ _ _ _) as [w1 [hs|cookie answer]] eqn:Hc.
  - destruct (challengeToken _ _ _ _ _ _ _) as [w2 [token|[]]]; cbn [snd]; try done. by destruct (captchaPage token).
  - cbn [snd]. intros ->. revert Hc. unfold WafChallenge.completeChallenge, httpRedirect. repeat (case_match; try done).
Qed.

(** C25. A rule that asks for a challenge lets a request pass only with a clearance:
    a cookie signed for this site, this rule and this client, not expired.  The
    rules were evaluated on this request, the cookie is the one the client sent,
    and the client's address is the one the rules were evaluated for; passing
    changes no state of the challenges. *)
Theorem captcha_gate h ci io env s w (hd : Handler Regex Prefix Addr) r id s' w' r' headers :
  ServeHTTP Regex Prefix Addr Store Error challengeWorld regexMatch regexFind prefixContains parseAddr unmapAddr addrString splitHostPort trimSpace
    trimBrackets toLower toUpper text blockPage redirectTarget redirectText itoa parsers uuidParse
    (challengeService h ci) io env s w hd r id = (s', w', Forward r' headers) →
  w' = w ∧ rq_Cookies r' = rq_Cookies r ∧
  (wf_Enabled (hd_WAF _ _ _ hd) = false ∨ ∃ data soft terminal,
    evaluateWAF Regex Prefix Addr Store Error regexMatch regexFind prefixContains parseAddr toLower text env s data hd
      = (s', Ok (soft, terminal))
    ∧ inspects prefixContains parseAddr unmapAddr addrString splitHostPort trimSpace trimBrackets toUpper parsers hd
        (withHeader r (setHeader (stripReservedWAFHeaders (rq_Header r)) "X-Request-Id"
          [normalizedRequestID trimSpace uuidParse id (headerGet (stripReservedWAFHeaders (rq_Header r)) "X-Request-Id")])) data
    ∧ passes h (ci_clearanceAt ci) r' (dt_ip data) terminal).
Proof.
  intros H. apply serve_forwards in H as (-> & soft & -> & H); [|apply challenge_answers]. split; [done|]. split; [done|].
  destruct H as [(He & _)|(_ & data & terminal & Hw & Hin & Hp)]; [by left|]. right. exists data, soft, terminal. split; [done|]. split; [done|].
  destruct terminal as [d|]; [|done]. destruct Hp as [Hp|[Ha Hp]]; [by left|]. right. split; [done|]. by apply hasClearance_iff in Hp.
Qed.
End Serve.
End Challenge.

(** ** Runs on concrete inputs *)

Module ChallengeDemo.

(** A codec for claims: the fields, each in base64, with commas between. *)
Fixpoint bits (p : positive) : string :=
  match p with xH => EmptyString | xO p => String "0" (bits p) | xI p => String "1" (bits p) end.
Fixpoint ofBits (s : string) : positive :=
  match s with EmptyString => xH | String c s => if bool_decide (c = "0"%char) then xO (ofBits s) else xI (ofBits s) end.
Definition zText (z : Z) : string := match z with Z0 => EmptyString | Zpos p => String "+" (bits p) | Zneg p => String "-" (bits p) end.
Definition ofZText (s : string) : Z :=
  match s with EmptyString => 0 | String c s => if bool_decide (c = "+"%char) then Zpos (ofBits s) else Zneg (ofBits s) end.
Lemma zText_roundtrip z : ofZText (zText z) = z.
Proof.
  assert (∀ p, ofBits (bits p) = p) as H. { induction p as [p IH|p IH|]; cbn; [by rewrite IH..|done]. }
  destruct z; cbn; by rewrite ?H.
Qed.

Definition fieldsOf (c : challengeClaim) : list string :=
  [zText (cl_Version c); cl_Kind c; cl_SiteID c; cl_RuleID c; cl_Binding c; zText (cl_IssuedAt c); zText (cl_ExpiresAt c); cl_Algorithm c;
   cl_Nonce c; cl_Salt c; cl_Target c; cl_KeySignature c; zText (cl_MaxCounter c); zText (cl_ScryptN c); zText (cl_ScryptR c);
   zText (cl_ScryptP c); cl_Environment c; if cl_Stateful c then "y" else "n"].
Definition ofFields (l : list string) : option challengeClaim :=
  match l with
  | [v; kind; site; rule; binding; issued; expires; algorithm; nonce; salt; target; signature; max; n; r; p; environment; stateful] =>
      Some {| cl_Version := ofZText v; cl_Kind := kind; cl_SiteID := site; cl_RuleID := rule; cl_Binding := binding;
              cl_IssuedAt := ofZText issued; cl_ExpiresAt := ofZText expires; cl_Algorithm := algorithm; cl_Nonce := nonce; cl_Salt := salt;
              cl_Target := target; cl_KeySignature := signature; cl_MaxCounter := ofZText max; cl_ScryptN := ofZText n; cl_ScryptR := ofZText r;
              cl_ScryptP := ofZText p; cl_Environment := environment; cl_Stateful := bool_decide (stateful = "y") |}
  | _ => None
  end.
Definition marshal (c : challengeClaim) : string := joinComma (EncodeToString <$> fieldsOf c).
Definition unmarshal (s : string) : option challengeClaim := mapM DecodeString (splitComma s) ≫= ofFields.

Lemma letters_no_comma s : everyChar (λ c, c ≠ comma) (EncodeToString s).
Proof. eapply everyChar_impl; [|apply encode_letters]. intros c (n & Hn & ->). cbn beta. revert n Hn. apply (N_below 64). repeat constructor; done. Qed.
Lemma split_join l : l ≠ [] → splitComma (joinComma (EncodeToString <$> l)) = EncodeToString <$> l.
Proof.
  intros Hl. induction l as [|s l IH]; [done|]. destruct l as [|t l]; [apply split_none, letters_no_comma|].
  change (joinComma (EncodeToString <$> s :: t :: l)) with (EncodeToString s +:+ String comma (joinComma (EncodeToString <$> t :: l))).
  rewrite split_app, split_none, IH by (done || apply letters_no_comma). done.
Qed.
Lemma decode_all l : mapM DecodeString (EncodeToString <$> l) = Some l.
Proof. induction l as [|s l IH]; [done|]. cbn. rewrite decode_encode. cbn. cbn in IH. by rewrite IH. Qed.
Lemma marshal_roundtrip c : unmarshal (marshal c) = Some c.
Proof.
  unfold unmarshal, marshal. rewrite split_join, decode_all by done. cbn [mbind option_bind]. destruct c as [? ? ? ? ? ? ? ? ? ? ? ? ? ? ? ? ? st].
  unfold fieldsOf, ofFields. rewrite !zText_roundtrip. by destruct st.
Qed.

Fixpoint zeros (n : nat) : string := match n with O => EmptyString | S n => String "0" (zeros n) end.
Lemma zeros_length n : String.length (zeros n) = n.
Proof. induction n as [|n IH]; cbn; [done|by rewrite IH]. Qed.
Definition hash (password salt : string) (n r p len : Z) : option string := if len <? 0 then None else Some (zeros (Z.to_nat len)).
Definition yes (s : string) : bool := true.
#[export] Instance demo_laws : ChallengeLaws marshal unmarshal yes hash.
Proof.
  split; [intros c _; apply marshal_roundtrip|]. unfold hash. intros ? ? ? ? ? len key. destruct (len <? 0) eqn:E; [done|]. apply Z.ltb_ge in E.
  intros [= <-]. unfold slen. rewrite zeros_length. lia.
Qed.

Definition same (s : string) : string := s.
Definition mac (key message : string) : string := String.substring 0 4 message +:+ "mac".
Definition sum (message : string) : string := "sum".
Definition browser : browserEnvironment := {|
  be_Version := 1; be_UserAgent := "agent"; be_Platform := "p"; be_Vendor := "v"; be_Languages := ["en"]; be_Timezone := "UTC";
  be_Webdriver := false; be_Cookies := true; be_Worker := true; be_WebAssembly := true; be_Crypto := true; be_Canvas := true; be_WebGL := true;
  be_WebGLVendor := ""; be_WebGLRenderer := ""; be_LocalStorage := true; be_SessionStorage := true; be_IndexedDB := true;
  be_HardwareConcurrency := 4; be_TouchPoints := 0; be_ScreenWidth := 800; be_ScreenHeight := 600; be_ColorDepth := 24; be_OuterWidth := 800;
  be_OuterHeight := 600; be_AutomationSignals := []; be_NativeTampering := [] |}.
Definition solve (payload : string) : option challengeSolution :=
  Some {| so_Counter := 30; so_Key := EncodeToString (zeros 32); so_Environment := browser |}.
Definition record (a : environmentAssessment) : string := "".
Definition cookieText (c : Cookie) : string := ck_Value c.
Definition url (r : request) (q : gmap string (list string)) : string := rq_Path r.
Definition page (token : string) : option string := Some token.

Definition site : challengeHandler := {| ch_SiteID := "site"; ch_challengeKey := zeros 32; ch_distributed := true |}.
Definition world : challengeWorld := {|
  cw_cache := ∅; cw_operations := 0; cw_limiters := {| gl_ip := emptyStore; gl_site := emptyStore; gl_global := emptyStore |};
  cw_redis := {| rd_challenges := ∅; rd_counters := ∅ |} |}.
Definition visit (query : gmap string (list string)) (cookies : list (string * string)) : request := {|
  rq_Method := "GET"; rq_Host := "example.org"; rq_Path := "/"; rq_RawQuery := ""; rq_RequestURI := "/"; rq_Query := query;
  rq_Header := {["User-Agent" := ["agent"]]}; rq_Cookies := cookies; rq_RemoteAddr := "66.1"; rq_Body := None; rq_Scheme := ""; rq_TLS := false; rq_EscapedPath := "/" |}.
Definition start : Z := 100 * second.
Definition drawn : generationInput := {|
  gi_nonce := Some "nonce"; gi_salt := Some "salt"; gi_offset := Some 6; gi_slot := Ok tt; gi_visited := λ _, []; gi_put := Answered |}.

Notation issue w := (challengeToken same mac sum hash marshal site w "rule" (visit ∅ []) "66.1" start drawn).
Notation complete w r := (completeChallenge same same mac sum marshal unmarshal solve record cookieText url HandlerDemo.target HandlerDemo.redirectPage
  site w r "rule" "66.1" ∅ (start + second) (start + second) (start + second) Answered).
Definition after : challengeWorld := (issue world).1.
Definition token : string := match (issue world).2 with Ok t => t | Err _ => "" end.
Definition answer : request := visit {[challengeParameter := [token]; proofParameter := ["AAAA"]]} [].

Lemma issued : issue world = (after, Ok token).
Proof. vm_compute. reflexivity. Qed.
Lemma token_length : slen token <= 4096 ∧ token ≠ "".
Proof. vm_compute. done. Qed.
Lemma query_token : queryGet (rq_Query answer) challengeParameter = token.
Proof. vm_compute. reflexivity. Qed.

(** The client solves its challenge and comes back ten minutes later. *)
Lemma solved_challenge_passes_witness : ∃ w3 cookie a, complete after answer = (w3, Completed cookie a)
  ∧ (slen (ck_Value cookie) ≤ 4096 →
     hasClearance same mac sum unmarshal site (start + 600 * second) (visit ∅ [(ck_Name cookie, ck_Value cookie)]) "rule" "66.1" = true).
Proof.
  destruct (solved_challenge_passes same same mac sum hash marshal unmarshal solve record cookieText url HandlerDemo.target HandlerDemo.redirectPage
    yes site world "rule" (visit ∅ []) "66.1" start drawn after token) as (nonce & salt & offset & key & [= <-] & [= <-] & [= <-] & Hk & H);
    [done|done|done|apply lookup_empty|apply issued|].
  injection Hk as <-.
  destruct (H ltac:(done) after answer "AAAA" browser ∅ (start + second) (start + second) (start + second)) as (w3 & cookie & a & Hrun & _ & Hclear);
    [reflexivity|apply query_token|reflexivity|apply token_length|discriminate|apply token_length|vm_compute; discriminate|reflexivity|reflexivity
    |split; vm_compute; discriminate|reflexivity|split; vm_compute; [discriminate|reflexivity]|reflexivity|].
  exists w3, cookie, a. split; [exact Hrun|]. intros Hl. apply Hclear; [reflexivity| |exact Hl|split; vm_compute; discriminate].
  cbn [visit rq_Cookies cookieOf]. by rewrite bool_decide_eq_true_2.
Defined.

Definition solvedOnce : challengeWorld * completion := complete after answer.
Definition solvedTwice : challengeWorld * completion := complete solvedOnce.1 answer.

(** The solution sent twice. *)
Lemma challenge_single_use_witness :
  (times (ChallengeKey sum token) ([] ++ grantedBy mac sum unmarshal site (start + second) answer solvedOnce.2
     ++ grantedBy mac sum unmarshal site (start + second) answer solvedTwice.2 ++ [])
   ≤ times (ChallengeKey sum token) (issuedBy same mac sum hash marshal site world after "rule" (visit ∅ []) "66.1" start drawn ++ [] ++ [] ++ []))%nat.
Proof.
  apply (challenge_single_use same same mac sum hash marshal unmarshal solve record cookieText url HandlerDemo.target HandlerDemo.redirectPage
    (ChallengeKey sum token) world _ _ solvedTwice.1); [|apply lookup_empty].
  eapply RunStep; [apply (StepToken _ _ _ _ _ _ _ _ _ _ _ _ _ site _ _ _ _ _ _ _ _ issued)|].
  eapply RunStep; [eapply StepComplete, (surjective_pairing (complete after answer))|].
  eapply RunStep; [eapply StepComplete, (surjective_pairing (complete solvedOnce.1 answer))|]. apply RunDone.
Defined.

Definition clearance : Cookie := match solvedOnce.2 with Completed c _ => c | NotCompleted _ => {| ck_Name := ""; ck_Value := ""; ck_MaxAge := 0; ck_Secure := false |} end.
Definition captchaRule : WAFRule := HandlerDemo.rule "rule" (HandlerDemo.condition "PATH" "PREFIX" "/" []) (HandlerDemo.action "CAPTCHA" "").
Definition guarded : Handler string string string := {|
  hd_SiteID := "site"; hd_WAF := HandlerDemo.policy;
  hd_ruleSets := [{| rs_ID := "set"; rs_Name := "set"; rs_rules := [HandlerDemo.compiled captchaRule] |}];
  hd_inspectBody := false; hd_trustedProxies := []; hd_geo := None; hd_needsRedis := false |}.
Definition clock : challengeInput := {|
  ci_clearanceAt := start + 600 * second; ci_verified := start; ci_consumed := start; ci_now := start; ci_generated := start;
  ci_consume := Answered; ci_generation := drawn |}.
Notation serve r := (ServeHTTP string string string unit unit challengeWorld contains HandlerDemo.whole HandlerDemo.inside HandlerDemo.parse same same
  HandlerDemo.noPort same same same same HandlerDemo.plain HandlerDemo.page HandlerDemo.target HandlerDemo.redirectPage HandlerDemo.number
  HandlerDemo.noBodies HandlerDemo.noUUID (challengeService same same mac sum hash marshal unmarshal solve record cookieText url HandlerDemo.target HandlerDemo.redirectPage
    HandlerDemo.number page site clock) HandlerDemo.io HandlerDemo.env HandlerDemo.idle world guarded r "id").

Definition returning : request := visit ∅ [(ck_Name clearance, ck_Value clearance)].
Lemma let_through : ∃ s' r' headers, serve returning = (s', world, Forward r' headers).
Proof. vm_compute. eexists _, _, _. reflexivity. Qed.

(** The client with its clearance passes the rule. *)
Lemma captcha_gate_witness : ∃ s' r' headers, serve returning = (s', world, Forward r' headers) ∧ rq_Cookies r' = rq_Cookies returning.
Proof.
  destruct let_through as (s' & r' & headers & H). exists s', r', headers. split; [exact H|].
  exact (proj1 (proj2 (captcha_gate _ _ _ _ _ _ _ _ _ _ _ _ _ _ _ _ _ _ _ _ _ _ _ _ _ _ _ _ _ _ _ _ _ _ _ _ _ _ _ _ _ H))).
Defined.
End ChallengeDemo.
