(* ===== verification/HttpConditional.v ===== *)
(** * Conditional requests

    Model of [src/internal/httpconditional/conditions.go]: how a stored response
    answers a request with preconditions, and when its byte range may be
    selected.  [http.ParseTime] is a parameter.  The theorems relate the code to
    the evaluation order of RFC 9110 over parsed conditions. *)
From Stdlib Require Import ZArith NArith Lia Ascii String.
From stdpp Require Import base numbers strings gmap option list.
From S2P Require Import Prelude Http.

Local Open Scope Z_scope.

(** ** Entity tags *)

Definition quote : ascii := Ascii.ascii_of_nat 34.
Definition tab : ascii := Ascii.ascii_of_nat 9.
(** [strings.TrimLeft(list, " \t,")]. *)
Definition tagSeparator (c : ascii) : bool := bool_decide (c ∈ [" "%char; tab; comma]).
Fixpoint trimSeparators (s : string) : string :=
  match s with EmptyString => EmptyString | String c rest => if tagSeparator c then trimSeparators rest else s end.
(** Whether a text starts with [W/], with what follows. *)
Definition cutWeak (s : string) : option string :=
  match s with
  | String a tail =>
      if bool_decide (a = "W"%char)
      then match tail with String b rest => if bool_decide (b = "/"%char) then Some rest else None | EmptyString => None end
      else None
  | EmptyString => None
  end.
Definition trimWeak (s : string) : string := default s (cutWeak s).

(** The loop over the list: one tag a round. *)
Fixpoint matchTagLoop (fuel : nat) (list current : string) (weak : bool) : bool :=
  match fuel with
  | O => false
  | S fuel =>
      if bool_decide (list = EmptyString) then false
      else
        let list := trimSeparators list in
        let '(prefix, list) := match cutWeak list with Some rest => ("W/", rest) | None => ("", list) end in
        match list with
        | String c rest =>
            if negb (bool_decide (c = quote)) then false
            else match cutOn quote rest with
                 | None => false
                 | Some (opaque, after) =>
                     let candidate := prefix +:+ String quote (opaque +:+ String quote EmptyString) in
                     if weak && bool_decide (trimWeak candidate = trimWeak current) then true
                     else if negb weak && negb (bool_decide (is_Some (cutWeak candidate))) && bool_decide (candidate = current) then true
                     else matchTagLoop fuel after current weak
                 end
        | EmptyString => false
        end
  end.
Definition matchETags (list current : string) (weak : bool) : bool :=
  if bool_decide (trimSpaces list = "*") then true else matchTagLoop (S (String.length list)) list current weak.

(** ** Preconditions *)

Section Conditions.
Variable ParseTime : string → option Z.

(** [Status]; an absent request or response is [None]. *)
Definition Status (request : option request) (response : option (Z * HttpHeader)) : Z :=
  match request, response with
  | Some request, Some (code, header) =>
      if (code <? 200) || (300 <=? code) then 0
      else
        let get := bool_decide (rq_Method request = "GET") || bool_decide (rq_Method request = "HEAD") in
        let etag := headerGet header "Etag" in
        let modified := ParseTime (headerGet header "Last-Modified") in
        let ifMatch := joinComma (headerValues (rq_Header request) "If-Match") in
        let failed :=
          if negb (bool_decide (ifMatch = "")) then negb (matchETags ifMatch etag false)
          else
            let value := headerGet (rq_Header request) "If-Unmodified-Since" in
            match modified with
            | Some modified =>
                negb (bool_decide (value = ""))
                && match ParseTime value with Some since => since <? modified | None => false end
            | None => false
            end in
        if failed then 412
        else
          let ifNoneMatch := joinComma (headerValues (rq_Header request) "If-None-Match") in
          if negb (bool_decide (ifNoneMatch = "")) then
            (if matchETags ifNoneMatch etag true then (if get then 304 else 412) else 0)
          else if get then
            match modified, ParseTime (headerGet (rq_Header request) "If-Modified-Since") with
            | Some modified, Some since => if negb (since <? modified) then 304 else 0
            | _, _ => 0
            end
          else 0
  | _, _ => 0
  end.

(** [RangeAllowed]. *)
Definition RangeAllowed (request : request) (header : HttpHeader) : bool :=
  let value := headerGet (rq_Header request) "If-Range" in
  if bool_decide (value = "") then true
  else
    let isWeak := bool_decide (is_Some (cutWeak value)) in
    if String.prefix (String quote EmptyString) value || isWeak then negb isWeak && bool_decide (value = headerGet header "Etag")
    else match ParseTime value, ParseTime (headerGet header "Last-Modified") with
         | Some date, Some modified => modified =? date
         | _, _ => false
         end.

End Conditions.

(** ** Specification *)

(** An entity tag, its text, and the two comparisons of RFC 9110, section 8.8.3.2. *)
Record entityTag := EntityTag { et_Weak : bool; et_Opaque : string }.
Definition quoted (opaque : string) : string := String quote (opaque +:+ String quote EmptyString).
Definition tagText (t : entityTag) : string := (if et_Weak t then "W/" else "") +:+ quoted (et_Opaque t).
Definition validTag (t : entityTag) : Prop := everyChar (λ c, c ≠ quote) (et_Opaque t).
Definition weakMatch (a b : entityTag) : bool := bool_decide (et_Opaque a = et_Opaque b).
Definition strongMatch (a b : entityTag) : bool := negb (et_Weak a) && negb (et_Weak b) && weakMatch a b.
Definition tagsMatch (weak : bool) (current : option entityTag) (t : entityTag) : bool :=
  match current with Some c => if weak then weakMatch t c else strongMatch t c | None => false end.
Definition currentText (current : option entityTag) : string := from_option tagText "" current.

(** The texts of a list of tags: tags between runs of separators. *)
Inductive tagsText : string → list entityTag → Prop :=
| tags_end separators : everyChar (λ c, tagSeparator c = true) separators → tagsText separators []
| tags_cons separators t rest ts :
    everyChar (λ c, tagSeparator c = true) separators → validTag t → tagsText rest ts →
    tagsText (separators +:+ tagText t +:+ rest) (t :: ts).

(** What a field of the request asks for, over all its lines. *)
Inductive tagCondition := AnyTag | OneOf (tags : list entityTag).
Inductive fieldCondition : list string → option tagCondition → Prop :=
| field_absent : fieldCondition [] None
| field_any value : trimSpaces value = "*" → fieldCondition [value] (Some AnyTag)
| field_tags lines tss : Forall2 tagsText lines tss → concat tss ≠ [] → fieldCondition lines (Some (OneOf (concat tss))).
Definition conditionHolds (weak : bool) (current : option entityTag) (c : tagCondition) : bool :=
  match c with AnyTag => true | OneOf tags => existsb (tagsMatch weak current) tags end.

Record conditions := Conditions {
  c_IfMatch : option tagCondition; c_IfUnmodifiedSince : option Z; c_IfNoneMatch : option tagCondition; c_IfModifiedSince : option Z;
}.
(** RFC 9110, section 13.2.2: the order of evaluation. *)
Definition evaluate (get : bool) (current : option entityTag) (modified : option Z) (c : conditions) : Z :=
  let step3 :=
    match c_IfNoneMatch c with
    | Some tags => if conditionHolds true current tags then (if get then 304 else 412) else 0
    | None =>
        match c_IfModifiedSince c, modified with
        | Some since, Some modified => if get && (modified <=? since) then 304 else 0
        | _, _ => 0
        end
    end in
  match c_IfMatch c with
  | Some tags => if conditionHolds false current tags then step3 else 412
  | None =>
      match c_IfUnmodifiedSince c, modified with
      | Some since, Some modified => if modified <=? since then step3 else 412
      | _, _ => step3
      end
  end.

(** ** Tag lists *)

Lemma trim_separators a b : everyChar (λ c, tagSeparator c = true) a → trimSeparators (a +:+ b) = trimSeparators b.
Proof. induction a as [|c a IH]; [done|]. intros [Hc Ha]. rewrite cons_append. cbn. rewrite Hc. by apply IH. Qed.
Lemma trim_all_separators a : everyChar (λ c, tagSeparator c = true) a → trimSeparators a = EmptyString.
Proof. intros H. rewrite <- (append_nil_r a). by rewrite trim_separators. Qed.
Lemma trim_tag t rest : trimSeparators (tagText t +:+ rest) = tagText t +:+ rest.
Proof. destruct t as [[] o]; done. Qed.
Lemma quoted_inj a b : quoted a = quoted b → a = b.
Proof.
  unfold quoted. intros [= H]. revert b H. induction a as [|c a IH]; intros [|d b]; [done| | |].
  - rewrite cons_append. intros [= _ H]. destruct b; discriminate H.
  - rewrite cons_append. intros [= _ H]. destruct a; discriminate H.
  - rewrite !cons_append. intros [= <- H]. f_equal. by apply IH.
Qed.
Lemma weak_of_tag t : trimWeak (tagText t) = quoted (et_Opaque t).
Proof. by destruct t as [[] o]. Qed.
Lemma is_weak_tag t : bool_decide (is_Some (cutWeak (tagText t))) = et_Weak t.
Proof. by destruct t as [[] o]. Qed.

(** The two tests of the loop compare tags. *)
Lemma tag_tests weak t current :
  (weak && bool_decide (trimWeak (tagText t) = trimWeak (currentText current)))
  || (negb weak && negb (bool_decide (is_Some (cutWeak (tagText t)))) && bool_decide (tagText t = currentText current))
  = tagsMatch weak current t.
Proof.
  rewrite is_weak_tag, weak_of_tag. destruct current as [c|]; cbn [currentText from_option tagsMatch].
  - rewrite weak_of_tag. unfold strongMatch, weakMatch. destruct weak; cbn [andb negb orb].
    + rewrite orb_false_r. apply bool_decide_ext. split; [apply quoted_inj|by intros ->].
    + destruct t as [[] o]; [done|]. cbn [et_Weak et_Opaque negb andb]. destruct c as [[] oc]; cbn [et_Weak et_Opaque negb andb].
      { by apply bool_decide_eq_false_2. }
      apply bool_decide_ext. unfold tagText. cbn [et_Weak et_Opaque].
      split; [by intros H%quoted_inj|by intros ->].
  - destruct weak; cbn [andb negb orb].
    + by rewrite bool_decide_eq_false_2.
    + destruct t as [[] o]; [done|]. by apply bool_decide_eq_false_2.
Qed.

Lemma tag_round fuel t rest current weak : validTag t →
  matchTagLoop (S fuel) (tagText t +:+ rest) current weak
  = ((weak && bool_decide (trimWeak (tagText t) = trimWeak current))
     || (negb weak && negb (bool_decide (is_Some (cutWeak (tagText t)))) && bool_decide (tagText t = current)))
    || matchTagLoop fuel rest current weak.
Proof.
  intros Hv. cbn [matchTagLoop]. rewrite trim_tag, bool_decide_eq_false_2 by (by destruct t as [[] o]).
  assert (∀ b x y : bool, (if b then true else if x then true else y) = (b || x) || y) as Hif by (by intros [] []).
  assert (quoted (et_Opaque t) +:+ rest = String quote (et_Opaque t +:+ String quote rest)) as E.
  { unfold quoted. rewrite cons_append. f_equal. by rewrite <- append_assoc. }
  assert (match cutWeak (tagText t +:+ rest) with Some rest0 => ("W/", rest0) | None => ("", tagText t +:+ rest) end
          = (if et_Weak t then "W/" else "", quoted (et_Opaque t) +:+ rest)) as -> by (by destruct t as [[] o]).
  rewrite E. cbn iota beta. rewrite bool_decide_eq_true_2 by done. cbn [negb]. rewrite cut_found by done. apply Hif.
Qed.

Lemma tag_length t : (0 < String.length (tagText t))%nat.
Proof. unfold tagText, quoted. rewrite length_append. cbn [String.length]. lia. Qed.
Lemma match_loop text ts current weak : tagsText text ts → ∀ fuel, (String.length text < fuel)%nat →
  matchTagLoop fuel text (currentText current) weak = existsb (tagsMatch weak current) ts.
Proof.
  induction 1 as [separators H|separators t rest ts H Hv _ IH]; intros fuel Hf; (destruct fuel as [|fuel]; [lia|]).
  - cbn [existsb matchTagLoop]. case_bool_decide; [done|]. by rewrite trim_all_separators.
  - cbn [existsb]. rewrite <- tag_tests, <- (IH fuel); [|rewrite !length_append in Hf; pose proof (tag_length t); lia].
    rewrite <- (tag_round fuel t rest _ weak Hv). cbn [matchTagLoop]. rewrite (trim_separators separators), !trim_tag by done.
    rewrite !bool_decide_eq_false_2; [done|by destruct t as [[] o]|].
    destruct separators; [by destruct t as [[] o]|done].
Qed.

(** Nothing of a tag is white space. *)
Lemma space_not_quote c : space1 c = true → c ≠ quote.
Proof. by intros H ->. Qed.
Lemma trim_front_quote s : everyChar (λ c, c ≠ quote) (trimFront s) → everyChar (λ c, c ≠ quote) s.
Proof.
  assert (∀ n s, (String.length s ≤ n)%nat → everyChar (λ c, c ≠ quote) (trimFront s) → everyChar (λ c, c ≠ quote) s) as H; [|by eapply H].
  clear s. induction n as [|n IH]; intros s Hn; [by destruct s; cbn in Hn; [|lia]|]. destruct s as [|a s]; [done|]. cbn [trimFront]. cbn in Hn.
  destruct (space1 a) eqn:Ea.
  { intros H. split; [by apply space_not_quote|apply IH; [lia|done]]. }
  destruct s as [|b s]; [done|]. cbn in Hn. destruct (space2 a b) eqn:Eb.
  { intros H. repeat split; [by intros ->|intros ->; unfold space2 in Eb; b2p; set_solver|apply IH; [lia|done]]. }
  destruct s as [|c s]; [done|]. cbn in Hn. destruct (space3 a b c) eqn:Ec; [|done].
  intros H. repeat split; [by intros ->| | |apply IH; [lia|done]].
  - intros ->. unfold space3 in Ec. rewrite !andb_false_r in Ec. done.
  - intros ->. unfold space3 in Ec. rewrite !andb_false_r in Ec. done.
Qed.
Lemma trim_back_quote s : everyChar (λ c, c ≠ quote) (trimBack s) → everyChar (λ c, c ≠ quote) s.
Proof.
  assert (∀ n s, (String.length s ≤ n)%nat → everyChar (λ c, c ≠ quote) (trimBack s) → everyChar (λ c, c ≠ quote) s) as H; [|by eapply H].
  clear s. induction n as [|n IH]; intros s Hn; [by destruct s; cbn in Hn; [|lia]|]. destruct s as [|a s]; [done|]. cbn [trimBack]. cbn in Hn.
  destruct (space1 a) eqn:Ea.
  { intros H. split; [by apply space_not_quote|apply IH; [lia|done]]. }
  destruct s as [|b s]; [done|]. cbn in Hn. destruct (space2 b a) eqn:Eb.
  { intros H. repeat split; [intros ->; unfold space2 in Eb; b2p; set_solver|by intros ->|apply IH; [lia|done]]. }
  destruct s as [|c s]; [done|]. cbn in Hn. destruct (space3 c b a) eqn:Ec; [|done].
  intros H. repeat split; [| |by intros ->|apply IH; [lia|done]].
  - intros ->. unfold space3 in Ec. rewrite !andb_false_r in Ec. done.
  - intros ->. unfold space3 in Ec. rewrite !andb_false_r in Ec. done.
Qed.
Lemma trim_quote s : everyChar (λ c, c ≠ quote) (trimSpaces s) → everyChar (λ c, c ≠ quote) s.
Proof.
  unfold trimSpaces. rewrite everyChar_reverse. intros [_ H]. apply trim_back_quote in H. rewrite everyChar_reverse in H.
  apply trim_front_quote. tauto.
Qed.
Lemma tags_not_star text ts : tagsText text ts → ts ≠ [] → trimSpaces text ≠ "*" ∧ text ≠ "".
Proof.
  destruct 1 as [|separators t rest ts _ _ _]; [done|]. intros _.
  assert (~ everyChar (λ c, c ≠ quote) (separators +:+ tagText t +:+ rest)) as Hq.
  { rewrite !everyChar_append. intros (_ & H & _). unfold tagText, quoted in H. rewrite everyChar_append in H. destruct H as [_ [H _]]. done. }
  split.
  - intros E. apply Hq, trim_quote. rewrite E. done.
  - intros E. apply Hq. by rewrite E.
Qed.

(** Lines joined by commas are one list. *)
Lemma tags_text_app a b ts us : tagsText a ts → tagsText b us → tagsText (a +:+ String comma b) (ts ++ us).
Proof.
  intros Ha Hb. induction Ha as [separators H|separators t rest ts H Hv _ IH]; cbn [app].
  - destruct Hb as [s' H'|s' t rest us H' Hv Hr].
    + apply tags_end. rewrite everyChar_append. by repeat split.
    + change (String comma (s' +:+ tagText t +:+ rest)) with (String comma s' +:+ (tagText t +:+ rest)). rewrite append_assoc.
      apply tags_cons; [|done|done]. rewrite everyChar_append. by repeat split.
  - rewrite <- append_assoc, <- append_assoc. by apply tags_cons.
Qed.
Lemma tags_text_lines lines tss : Forall2 tagsText lines tss → tagsText (joinComma lines) (concat tss).
Proof.
  induction 1 as [|line ts lines tss H HF IH]; [by apply tags_end|]. destruct HF as [|line' ts' lines tss H' HF].
  - cbn. by rewrite app_nil_r.
  - change (joinComma (line :: line' :: lines)) with (line +:+ String comma (joinComma (line' :: lines))). by apply tags_text_app.
Qed.

(** A field decides as its condition does. *)
Lemma field_decides lines c current weak : fieldCondition lines (Some c) →
  joinComma lines ≠ "" ∧ matchETags (joinComma lines) (currentText current) weak = conditionHolds weak current c.
Proof.
  intros H. remember (Some c) as oc eqn:E. destruct H as [|value Hv|lines tss Hl Hne]; [done| |]; injection E as <-.
  - cbn [joinComma]. split; [by intros ->|]. unfold matchETags. by rewrite bool_decide_eq_true_2.
  - pose proof (tags_text_lines _ _ Hl) as Ht. destruct (tags_not_star _ _ Ht Hne) as [Hs He]. split; [done|].
    unfold matchETags. rewrite bool_decide_eq_false_2 by done. cbn [conditionHolds]. apply match_loop; [done|lia].
Qed.

Section Correctness.
Variable ParseTime : string → option Z.

(** What a request asks for. *)
Record asks (r : request) (c : conditions) : Prop := {
  asks_match : fieldCondition (headerValues (rq_Header r) "If-Match") (c_IfMatch c);
  asks_unmodified : c_IfUnmodifiedSince c
    = (let value := headerGet (rq_Header r) "If-Unmodified-Since" in if bool_decide (value = "") then None else ParseTime value);
  asks_none_match : fieldCondition (headerValues (rq_Header r) "If-None-Match") (c_IfNoneMatch c);
  asks_modified : c_IfModifiedSince c = ParseTime (headerGet (rq_Header r) "If-Modified-Since");
}.

(** C15. For a successful response the conditions of a request are decided as
    RFC 9110 prescribes: [If-Match] (strong comparison) before
    [If-Unmodified-Since], then [If-None-Match] (weak comparison) before
    [If-Modified-Since], over all lines of a field, any spelling of the lists of
    entity tags and the wildcard; 304 only for GET and HEAD. *)
Theorem status_rfc9110 (r : request) (c : conditions) (code : Z) (header : HttpHeader) (current : option entityTag) :
  asks r c → headerGet header "Etag" = currentText current → 200 ≤ code < 300 →
  Status ParseTime (Some r) (Some (code, header))
  = evaluate (bool_decide (rq_Method r = "GET") || bool_decide (rq_Method r = "HEAD")) current (ParseTime (headerGet header "Last-Modified")) c.
Proof.
  intros [Hm Hu Hn Hs] He Hc. cbn [Status]. rewrite (proj2 (Z.ltb_ge code 200)), (proj2 (Z.leb_gt 300 code)) by lia. cbn [orb].
  unfold evaluate. rewrite He, Hu, Hs. generalize (bool_decide (rq_Method r = "GET") || bool_decide (rq_Method r = "HEAD")) as get. intros get.
  generalize (ParseTime (headerGet header "Last-Modified")) as modified. intros modified.
  set (step3 := if negb (bool_decide (joinComma (headerValues (rq_Header r) "If-None-Match") = "")) then _ else _).
  assert (step3 = match c_IfNoneMatch c with
    | Some tags => if conditionHolds true current tags then (if get then 304 else 412) else 0
    | None => match ParseTime (headerGet (rq_Header r) "If-Modified-Since"), modified with
              | Some since, Some modified => if get && (modified <=? since) then 304 else 0 | _, _ => 0 end
    end) as ->.
  { subst step3. destruct (c_IfNoneMatch c) as [tags|].
    - destruct (field_decides _ _ current true Hn) as [Hne ->]. by rewrite bool_decide_eq_false_2.
    - inversion Hn as [E| |]. rewrite bool_decide_eq_true_2 by done. cbn [negb].
      destruct get, modified as [m|], (ParseTime _) as [since|]; try done. cbn [andb]. rewrite Z.leb_antisym. done. }
  destruct (c_IfMatch c) as [tags|].
  - destruct (field_decides _ _ current false Hm) as [Hne ->]. rewrite bool_decide_eq_false_2 by done. cbn [negb].
    by destruct (conditionHolds false current tags).
  - inversion Hm as [E| |]. rewrite bool_decide_eq_true_2 by done. cbn [negb].
    destruct (bool_decide (headerGet (rq_Header r) "If-Unmodified-Since" = "")); destruct modified as [m|];
      cbn [negb andb]; destruct (ParseTime (headerGet (rq_Header r) "If-Unmodified-Since")) as [since|]; try done.
    rewrite (Z.leb_antisym since m). by destruct (since <? m).
Qed.

(** A range is selected under [If-Range] only for the representation it names:
    a strong tag, or a date. *)
Lemma range_allowed_exact (r : request) (header : HttpHeader) (t : entityTag) (current : option entityTag) :
  headerGet (rq_Header r) "If-Range" = tagText t → headerGet header "Etag" = currentText current →
  RangeAllowed ParseTime r header = tagsMatch false current t.
Proof.
  intros Hr He. unfold RangeAllowed. rewrite Hr, He, is_weak_tag. rewrite bool_decide_eq_false_2 by (by destruct t as [[] o]).
  rewrite <- (tag_tests false t current), is_weak_tag. cbn [negb andb orb].
  assert (String.prefix (String quote EmptyString) (tagText t) || et_Weak t = true) as -> by (by destruct t as [[] [|c o]]).
  done.
Qed.
Lemma conditions_only_success (r : option request) (code : Z) (header : HttpHeader) :
  ~ 200 ≤ code < 300 → Status ParseTime r (Some (code, header)) = 0.
Proof.
  intros H. destruct r as [r|]; [|done]. cbn [Status].
  destruct (code <? 200) eqn:E1; [done|]. destruct (300 <=? code) eqn:E2; [done|]. b2p. lia.
Qed.

End Correctness.

(** A tag of the second line matches weakly: not modified. *)
Module ConditionsDemo.
Definition tagA := EntityTag false "a".
Definition tagB := EntityTag true "b".
Definition asking : request :=
  Request "GET" "example.com" "/" "" "/" ∅ {["If-None-Match" := [", " +:+ tagText tagA +:+ " "; tagText tagB]]} [] "" None "https" true "/".
Definition asked : conditions := Conditions None None (Some (OneOf [tagA; tagB])) None.
Lemma asking_asked : asks (λ _, None) asking asked.
Proof.
  split; [apply field_absent|reflexivity| |reflexivity]. change (headerValues (rq_Header asking) "If-None-Match") with [", " +:+ tagText tagA +:+ " "; tagText tagB].
  apply (field_tags _ [[tagA]; [tagB]]); [|done]. constructor; [|constructor; [|constructor]].
  - apply (tags_cons ", " tagA " " []); [by repeat constructor|by repeat constructor|]. apply tags_end. by repeat constructor.
  - apply (tags_cons "" tagB "" []); [by repeat constructor|by repeat constructor|]. apply tags_end. by repeat constructor.
Qed.
Definition current : HttpHeader := {["Etag" := [tagText (EntityTag false "b")]]}.
Lemma status_rfc9110_witness : Status (λ _, None) (Some asking) (Some (200, current)) = 304.
Proof.
  rewrite (status_rfc9110 (λ _, None) asking asked 200 current (Some (EntityTag false "b")) asking_asked eq_refl).
  - reflexivity.
  - lia.
Defined.
End ConditionsDemo.
