(* ===== verification/CacheRange.v ===== *)
(** * Byte ranges and cache conditions

    Models of [src/caddy/cachematch/matcher.go] (which requests a cache rule
    matches, and the byte range one asks for) and of the parts of
    [src/caddy/simplefs/simplefs.go] that serve a stored body: reading it,
    seeking in it, and selecting a range of it ([applyCachedRange],
    [pooledResponseBody], [rangedResponseBody]).

    A body reads its object through [ObjectBytes], what a reader of a stored
    object offers; [ObjectLaws] is what it promises, and [CacheRangeTheorems]
    shows that the reader of [ObjectFormat] keeps it. *)
From Stdlib Require Import ZArith NArith Lia Ascii String.
From Stdlib.Strings Require Import Byte.
From stdpp Require Import base numbers strings gmap option list.
From S2P Require Import Prelude Http.

Local Open Scope Z_scope.

(** ** Ranges of a request ([cacherange.Spec]) *)

Record Spec := MkSpec { sp_Start : Z; sp_End : Z; sp_SuffixLength : Z }.
Definition noSpec : Spec := MkSpec 0 0 0.

Definition parseCacheableRange (value : string) : Spec * bool :=
  match cutOn "=" (trimSpaces value) with
  | None => (noSpec, false)
  | Some (unit, interval) =>
      if negb (equalFold (trimSpaces unit) "bytes") || contains "," interval then (noSpec, false)
      else match cutOn "-" (trimSpaces interval) with
           | None => (noSpec, false)
           | Some (startText, endText) =>
               let startText := trimSpaces startText in
               let endText := trimSpaces endText in
               if bool_decide (startText = "") then
                 if bool_decide (endText = "") then (noSpec, false)
                 else let '(suffix, ok) := parseUint endText in (MkSpec 0 0 suffix, ok && (0 <? suffix))
               else
                 let '(start, ok) := parseUint startText in
                 if negb ok then (noSpec, false)
                 else if bool_decide (endText = "") then (noSpec, false)
                 else let '(finish, ok) := parseUint endText in (MkSpec start finish 0, ok && (start <=? finish))
           end
  end.

(** ** Conditions of a cache rule *)

Record CacheConditionRule := { cc_Type : string; cc_Value : string; cc_Values : list string }.
Record CacheConditionGroup := { cg_Operator : string; cg_Rules : list CacheConditionRule }.
Record CacheConditions := { co_GroupOperator : string; co_Groups : list CacheConditionGroup }.

(** [strings.ReplaceAll(s, " ", "")]. *)
Fixpoint removeSpaces (s : string) : string :=
  match s with EmptyString => EmptyString | String c rest => if bool_decide (c = " "%char) then removeSpaces rest else String c (removeSpaces rest) end.
(** [strings.SplitN(s, "=", 2)[0]]. *)
Definition beforeEquals (s : string) : string := match cutOn "=" s with Some (name, _) => name | None => s end.
(** [path.Ext]. *)
Fixpoint pathExt (s : string) : string :=
  match s with
  | EmptyString => EmptyString
  | String c rest =>
      if negb (contains "/" rest) && negb (contains "." rest) && bool_decide (c = "."%char) then s else pathExt rest
  end.
Definition trimDot (s : string) : string := match s with String c rest => if bool_decide (c = "."%char) then rest else s | EmptyString => s end.

Definition combine (operator : string) (values : list bool) : bool :=
  if bool_decide (operator = "AND") then forallb id values else existsb id values.

Section Matcher.
Variable ToLower : string → string.
(** Compiled regular expressions of the library. *)
Context {regex : Type}.
Variables (compile : string → option regex) (MatchString : regex → string → bool).

Record Matcher := MkMatcher {
  m_Conditions : CacheConditions; m_CacheRangeRequests : bool; m_BypassCacheControl : list string; m_compiled : list (list (option regex));
}.

(** [Provision]: [None] is an expression that does not compile. *)
Definition compileRule (rule : CacheConditionRule) : option (option regex) :=
  if bool_decide (cc_Type rule = "PATH_REGEX") then Some <$> compile (cc_Value rule) else Some None.
Definition Provision (m : Matcher) : option Matcher :=
  compiled ← mapM (λ group, mapM compileRule (cg_Rules group)) (co_Groups (m_Conditions m));
  Some (MkMatcher (m_Conditions m) (m_CacheRangeRequests m) (m_BypassCacheControl m) compiled).

Definition matchRule (requestPath : string) (rule : CacheConditionRule) (compiled : option regex) : bool :=
  if bool_decide (cc_Type rule = "ALL") then true
  else if bool_decide (cc_Type rule = "EXTENSION") then
    let extension := trimDot (ToLower (pathExt requestPath)) in existsb (λ candidate, bool_decide (extension = candidate)) (cc_Values rule)
  else if bool_decide (cc_Type rule = "PATH_PREFIX") then existsb (λ candidate, String.prefix candidate requestPath) (cc_Values rule)
  else if bool_decide (cc_Type rule = "PATH_REGEX") then match compiled with Some e => MatchString e requestPath | None => false end
  else false.

(** The directive of a part, and whether it is one of the configured ones. *)
Definition normalDirective (part : string) : string := ToLower (removeSpaces (trimSpaces part)).
Definition configuredPart (configured : list string) (part : string) : bool :=
  let part := normalDirective part in
  let name := beforeEquals part in
  existsb (λ candidate, let candidate := normalDirective candidate in
    bool_decide (part = candidate) || (negb (contains "=" candidate) && bool_decide (name = candidate))) configured.
Definition matchesCacheControl (values configured : list string) : bool :=
  existsb (configuredPart configured) (splitComma (joinComma values)).

Definition matchConditions (m : Matcher) (path : string) : bool :=
  combine (co_GroupOperator (m_Conditions m))
    (imap (λ gi group, combine (cg_Operator group)
       (imap (λ ri rule, matchRule path rule (default None (default [] (m_compiled m !! gi) !! ri))) (cg_Rules group))) (co_Groups (m_Conditions m))).
(** [Match]: the answer, and the range of the request's context afterwards. *)
Definition Match (m : Matcher) (r : request) (context : option Spec) : bool * option Spec :=
  if matchesCacheControl (headerValues (rq_Header r) "Cache-Control") (m_BypassCacheControl m) then (false, context)
  else
    let value := joinComma (headerValues (rq_Header r) "Range") in
    if bool_decide (value = "") then (matchConditions m (rq_Path r), context)
    else
      let '(spec, ok) := parseCacheableRange value in
      if negb (m_CacheRangeRequests m) || negb (bool_decide (headerGet (rq_Header r) "If-Range" = "")) || negb ok then (false, context)
      else (matchConditions m (rq_Path r), Some spec).

End Matcher.

(** ** Bodies of stored responses *)

Inductive ioError := EOF | UnexpectedEOF | SeekUnavailable | OtherError.
#[export] Instance ioError_eq_dec : EqDecision ioError.
Proof. solve_decision. Defined.

(** A reader of a stored object: what it reads into a target, and [Seek] from the
    start ([None] is an error). *)
Class ObjectBytes (R : Type) := { ob_read : R → nat → list byte * option ioError * R; ob_seek : R → Z → option R }.

Section Bodies.
Context {R : Type} `{ObjectBytes R}.

(** [pooledResponseBody]; [pb_object] is cleared by the release, [pb_reported]
    counts the calls of [onError].  Its reader is the object itself: only
    tests create a body with a [decoder]. *)
Record pooledResponseBody := Pooled { pb_body : R; pb_remaining : Z; pb_object : bool; pb_bodyStart : Z; pb_onError : bool; pb_reported : nat }.
Definition pooledRelease (b : pooledResponseBody) : pooledResponseBody :=
  Pooled (pb_body b) (pb_remaining b) false (pb_bodyStart b) (pb_onError b) (pb_reported b).
Definition seekBody (b : pooledResponseBody) (offset : Z) : result ioError pooledResponseBody :=
  if negb (pb_object b) || (wrap64 (pb_remaining b) <? offset) then Err SeekUnavailable
  else match ob_seek (pb_body b) (to_int64 (pb_bodyStart b + to_int64 offset)) with
       | None => Err OtherError
       | Some r => Ok (Pooled r (to_int64 (pb_remaining b - to_int64 offset)) (pb_object b) (pb_bodyStart b) (pb_onError b) (pb_reported b))
       end.
Definition pooledRead (b : pooledResponseBody) (n : nat) : list byte * option ioError * pooledResponseBody :=
  if pb_remaining b =? 0 then ([], Some EOF, pooledRelease b)
  else
    let n := if pb_remaining b <? Z.of_nat n then Z.to_nat (pb_remaining b) else n in
    let '(got, err, r) := ob_read (pb_body b) n in
    let remaining := pb_remaining b - zlen got in
    let b := Pooled r remaining (pb_object b) (pb_bodyStart b) (pb_onError b) (pb_reported b) in
    let err := if bool_decide (err = Some EOF) && (0 <? remaining) then Some UnexpectedEOF else err in
    if remaining =? 0 then (got, if bool_decide (err = Some EOF) then None else err, pooledRelease b)
    else match err with
         | Some _ =>
             let b := if pb_onError b then Pooled (pb_body b) remaining (pb_object b) (pb_bodyStart b) false (S (pb_reported b)) else b in
             (got, err, pooledRelease b)
         | None => (got, None, b)
         end.

(** The body of a response; a range wraps another body.  The closing of a file
    is taken to succeed. *)
Inductive body :=
| NoBody
| PooledBody (b : pooledResponseBody)
| RangedBody (inner : body) (skip remaining : Z) (closed : bool).
Fixpoint closeBody (b : body) : body :=
  match b with
  | NoBody => NoBody
  | PooledBody b => PooledBody (pooledRelease b)
  | RangedBody inner skip remaining closed => if closed then b else RangedBody (closeBody inner) skip remaining true
  end.

(** [io.CopyN(io.Discard, body, skip)] on a body that reads with [read]: reads of
    at most 8192 bytes; an error before the end is returned. *)
Fixpoint discard (read : body → nat → list byte * option ioError * body) (fuel : nat) (b : body) (skip : Z) : option ioError * body :=
  match fuel with
  | O => (Some OtherError, b)
  | S fuel =>
      if skip <=? 0 then (None, b)
      else
        let '(got, err, b) := read b (Z.to_nat (Z.min skip 8192)) in
        let skip := skip - zlen got in
        match err with
        | Some e => if skip =? 0 then (None, b) else (Some e, b)
        | None => discard read fuel b skip
        end
  end.
(** [Read] of a body nested no deeper than [depth]. *)
Fixpoint bodyDepth (b : body) : nat := match b with RangedBody inner _ _ _ => S (bodyDepth inner) | _ => 1 end.
Fixpoint bodyReadAt (depth : nat) (b : body) (n : nat) : list byte * option ioError * body :=
  match depth with O => ([], Some OtherError, b) | S depth =>
  match b with
  | NoBody => ([], Some EOF, NoBody)
  | PooledBody b => let '(got, err, b) := pooledRead b n in (got, err, PooledBody b)
  | RangedBody inner skip remaining closed =>
      if closed then ([], Some EOF, b)
      else
        let '(err, inner) := if 0 <? skip then discard (bodyReadAt depth) (S (Z.to_nat skip)) inner (to_int64 skip) else (None, inner) in
        match err with
        | Some e => ([], Some e, RangedBody (closeBody inner) skip remaining true)
        | None =>
            if remaining =? 0 then ([], Some EOF, RangedBody (closeBody inner) 0 remaining true)
            else
              let n := if remaining <? Z.of_nat n then Z.to_nat remaining else n in
              let '(got, err, inner) := bodyReadAt depth inner n in
              let remaining := wrap64 (remaining - zlen got) in
              if bool_decide (err ≠ None) || (remaining =? 0) then (got, err, RangedBody (closeBody inner) 0 remaining true)
              else (got, err, RangedBody inner 0 remaining false)
        end
  end end.
Definition bodyRead (b : body) (n : nat) : list byte * option ioError * body := bodyReadAt (bodyDepth b) b n.

(** [io.Copy] to a writer that takes everything: reads with a buffer of [n]
    bytes until the end or an error. *)
Fixpoint copyBody (fuel : nat) (b : body) (n : nat) : option (list byte * option ioError * body) :=
  match fuel with
  | O => None
  | S fuel =>
      let '(got, err, b) := bodyRead b n in
      match err with
      | Some EOF => Some (got, None, b)
      | Some e => Some (got, Some e, b)
      | None => match copyBody fuel b n with Some (rest, err, b) => Some (got ++ rest, err, b) | None => None end
      end
  end.

(** ** Selecting a range *)

Record response := MkResponse { rs_Status : string; rs_StatusCode : Z; rs_Header : HttpHeader; rs_ContentLength : Z; rs_Body : body }.

(** [cachedBodyRange]: which bytes of the representation a stored body holds. *)
Definition cachedBodyRange (resp : response) : Z * Z * Z * bool :=
  if rs_StatusCode resp =? 206 then
    let value := trimSpaces (headerGet (rs_Header resp) "Content-Range") in
    let '(unit, interval, found) := match cutOn " " value with Some (a, b) => (a, b, true) | None => (value, "", false) end in
    let '(bounds, totalText, foundTotal) := match cutOn "/" interval with Some (a, b) => (a, b, true) | None => (interval, "", false) end in
    let '(startText, endText, foundBounds) := match cutOn "-" bounds with Some (a, b) => (a, b, true) | None => (bounds, "", false) end in
    if negb found || negb foundTotal || negb foundBounds || negb (equalFold unit "bytes") || bool_decide (totalText = "*") then (0, 0, 0, false)
    else
      let start := (parseUint startText).1 in
      let finish := (parseUint endText).1 in
      let total := (parseUint totalText).1 in
      (start, finish, total, (0 <? total) && (start <=? finish) && (finish <? total))
  else
    let '(total, ok) := parseUint (headerGet (rs_Header resp) "Content-Length") in
    if negb ok || (total =? 0) then (0, 0, 0, false) else (0, total - 1, total, true).

Definition formatUint (n : Z) : string := decimalText (Z.to_N n).
Definition applyCachedRange (resp : response) (requested : Spec) : result ioError response :=
  let '(bodyStart, bodyEnd, total, ok) := cachedBodyRange resp in
  if negb ok then Ok resp
  else
    let suffix := sp_SuffixLength requested in
    let '(start, finish) :=
      if 0 <? suffix then ((if total <=? suffix then 0 else total - suffix), total - 1) else (sp_Start requested, sp_End requested) in
    if total <=? start then
      Ok (MkResponse "416 Requested Range Not Satisfiable" 416
            (setHeader (setHeader (setHeader (rs_Header resp) "Accept-Ranges" ["bytes"]) "Content-Range" ["bytes */" +:+ formatUint total]) "Content-Length" ["0"])
            0 NoBody)
    else
      let finish := Z.min finish (total - 1) in
      if (start <? bodyStart) || (bodyEnd <? start) || (bodyEnd <? finish) then Ok resp
      else
        let len := wrap64 (finish - start + 1) in
        let skip := start - bodyStart in
        '(inner, skip) ←
          match rs_Body resp with
          | PooledBody b => if pb_object b then b ← seekBody b skip; Ok (PooledBody b, 0) else Ok (rs_Body resp, skip)
          | b => Ok (b, skip)
          end;
        Ok (MkResponse "206 Partial Content" 206
              (setHeader (setHeader (setHeader (rs_Header resp) "Accept-Ranges" ["bytes"])
                 "Content-Range" ["bytes " +:+ formatUint start +:+ "-" +:+ formatUint finish +:+ "/" +:+ formatUint total])
                 "Content-Length" [formatUint len])
              (to_int64 len) (RangedBody inner skip len false)).

(** ** Opening a stored response *)

(** [cachedResponseTemplate]. *)
Record cachedResponseTemplate := Template { ct_status : string; ct_statusCode : Z; ct_header : HttpHeader; ct_contentLength : Z; ct_bodyStart : Z }.
(** [cachedObjectState.load]: the response at the start of an object, as Go's
    [http.ReadResponse] parses it. *)
Definition loadTemplate (ReadResponse : option cachedResponseTemplate) : result ioError cachedResponseTemplate :=
  match ReadResponse with
  | None => Err OtherError
  | Some t => if ct_contentLength t <? 0 then Err OtherError else Ok t
  end.
(** The end of [readHTTPResponse]: [range] is the range of the request's
    context. *)
Definition openResponse (object : R) (t : cachedResponseTemplate) (method : string) (range : option Spec) : result ioError response :=
  if (ct_contentLength t =? 0) || bool_decide (method = "HEAD") then
    Ok (MkResponse (ct_status t) (ct_statusCode t) (delete "X-Goveto-Cache-Method" (ct_header t)) (ct_contentLength t) NoBody)
  else match ob_seek object (ct_bodyStart t) with
       | None => Err OtherError
       | Some r =>
           let resp := MkResponse (ct_status t) (ct_statusCode t) (ct_header t) (ct_contentLength t)
                         (PooledBody (Pooled r (ct_contentLength t) true (ct_bodyStart t) true 0)) in
           match range with Some spec => applyCachedRange resp spec | None => Ok resp end
       end.

End Bodies.
Arguments pooledResponseBody : clear implicits.
Arguments body : clear implicits.
Arguments response : clear implicits.
