(* ===== verification/CacheRangeTheorems.v ===== *)
(** * Serving byte ranges of stored responses

    A range of a stored response is served exactly: the status, the header
    fields and the bytes a client copies are those of the range the request
    named.  The theorems about bodies use only [ObjectLaws]; the reader of
    [ObjectFormat] over a file that [writeObjectReader] wrote is an instance. *)
From Stdlib Require Import ZArith NArith Lia Ascii String.
From Stdlib.Strings Require Import Byte.
From stdpp Require Import base numbers strings gmap option list.
From S2P Require Import Prelude Http CacheRange ObjectFormat.

Local Open Scope Z_scope.

(** ** What a reader of an object promises *)

(** [at_ r p]: reader [r] stands at position [p] of [content].  A read delivers
    bytes from there; it makes progress or fails, and only the end is [EOF]. *)
Class ObjectLaws (R : Type) `{ObjectBytes R} (content : list byte) (at_ : R → nat → Prop) : Prop := {
  law_seek r p pos : at_ r p → 0 ≤ pos ≤ zlen content → ∃ r', ob_seek r pos = Some r' ∧ at_ r' (Z.to_nat pos);
  law_read r p n got err r' : at_ r p → (0 < n)%nat → (p < length content)%nat → ob_read r n = (got, err, r') →
    (length got ≤ n)%nat ∧ got = take (length got) (drop p content)
    ∧ match err with None => (0 < length got)%nat ∧ at_ r' (p + length got)%nat | Some e => e ≠ EOF end;
}.
(** A reader that never fails. *)
Definition reliable {R} `{ObjectBytes R} (content : list byte) (at_ : R → nat → Prop) : Prop :=
  ∀ r p n, at_ r p → (p < length content)%nat → (ob_read r n).1.2 = None.

Section Bodies.
Context {R : Type} `{OB : ObjectBytes R} (content : list byte) (at_ : R → nat → Prop) `{!ObjectLaws R content at_}.

(** The bytes a body has yet to deliver. *)
Fixpoint bodyDue (b : body R) (l : list byte) : Prop :=
  match b with
  | NoBody => l = []
  | PooledBody b => ∃ p, at_ (pb_body b) p ∧ 0 ≤ pb_remaining b ∧ Z.of_nat p + pb_remaining b ≤ zlen content
                      ∧ l = take (Z.to_nat (pb_remaining b)) (drop p content)
  | RangedBody inner skip remaining closed =>
      if closed then l = []
      else ∃ l', bodyDue inner l' ∧ skip = 0 ∧ 0 < remaining < 2 ^ 64 ∧ remaining ≤ zlen l' ∧ l = take (Z.to_nat remaining) l'
  end.

Lemma take_prefix {A} (l : list A) n k : (k ≤ n)%nat → take n l = take k l ++ take (n - k) (drop k l).
Proof. intros. rewrite take_take_drop. f_equal. lia. Qed.

(** What one read does to the bytes due. *)
Definition delivers (b : body R) (l : list byte) (n : nat) (o : list byte * option ioError * body R) : Prop :=
  let '(got, err, b') := o in
  ∃ l', l = got ++ l' ∧ (length got ≤ n)%nat
  ∧ match err with
    | None => got ≠ [] ∧ bodyDue b' l'
    | Some EOF => got = [] ∧ l = []
    | Some _ => ~ reliable content at_
    end.

Lemma pooled_delivers (b : pooledResponseBody R) l n : bodyDue (PooledBody b) l → (0 < n)%nat →
  delivers (PooledBody b) l n (let '(got, err, b) := pooledRead b n in (got, err, PooledBody b)).
Proof.
  intros (p & Hat & Hr & Hle & ->) Hn. unfold pooledRead. destruct (pb_remaining b =? 0) eqn:E; b2p.
  { rewrite E. exists []. rewrite take_0. split_and!; try done. cbn. lia. }
  set (n' := if pb_remaining b <? Z.of_nat n then Z.to_nat (pb_remaining b) else n).
  assert ((0 < n')%nat ∧ (n' ≤ n)%nat ∧ Z.of_nat n' ≤ pb_remaining b) as Hn'.
  { unfold n'. destruct (pb_remaining b <? Z.of_nat n) eqn:E'; b2p; lia. }
  clearbody n'. destruct (ob_read (pb_body b) n') as [[got err] r'] eqn:Er.
  destruct (law_read _ p n' got err r' Hat ltac:(lia) ltac:(lia) Er) as (Hlen & Hgot & Herr).
  assert (take (Z.to_nat (pb_remaining b)) (drop p content)
          = got ++ take (Z.to_nat (pb_remaining b - zlen got)) (drop (p + length got)%nat content)) as Hsplit.
  { rewrite (take_prefix _ _ (length got)) by lia. rewrite <- Hgot, drop_drop. do 2 f_equal. lia. }
  assert (err ≠ Some EOF) as Hne by (intros ->; done). rewrite (bool_decide_eq_false_2 (err = Some EOF)) by done. cbn [andb].
  destruct (pb_remaining b - zlen got =? 0) eqn:E0; b2p.
  - rewrite (bool_decide_eq_false_2 (err = Some EOF)) by done. exists (take (Z.to_nat (pb_remaining b - zlen got)) (drop (p + length got)%nat content)). split_and!; [done|lia|].
    destruct err as [e|].
    + destruct e; try done; intros Hrel; pose proof (Hrel _ _ n' Hat ltac:(lia)) as Hx; by rewrite Er in Hx.
    + destruct Herr as [Hpos Hat']. split; [by intros ->; cbn in Hpos; lia|]. exists (p + length got)%nat. cbn. split_and!; [done|lia|lia|].
      do 2 f_equal; lia.
  - destruct err as [e|]; exists (take (Z.to_nat (pb_remaining b - zlen got)) (drop (p + length got)%nat content)).
    + split_and!; [done|lia|]. destruct e; try done; intros Hrel; pose proof (Hrel _ _ n' Hat ltac:(lia)) as Hx; by rewrite Er in Hx.
    + destruct Herr as [Hpos Hat']. split_and!; [done|lia|by intros ->; cbn in Hpos; lia|]. exists (p + length got)%nat. cbn. split_and!; [done|lia|lia|].
      do 2 f_equal; lia.
Qed.

Lemma closed_due (b : body R) l : bodyDue b l → ∀ skip remaining, bodyDue (RangedBody b skip remaining true) [].
Proof. done. Qed.
Lemma read_delivers depth : ∀ (b : body R) l n, (bodyDepth b ≤ depth)%nat → bodyDue b l → (0 < n)%nat → delivers b l n (bodyReadAt depth b n).
Proof.
  induction depth as [|depth IH]; intros b l n Hd Hdue Hn; [destruct b; cbn in Hd; lia|]. destruct b as [|b|inner skip remaining closed]; cbn [bodyReadAt].
  - cbn in Hdue. subst l. exists []. split_and!; try done. cbn. lia.
  - by apply pooled_delivers.
  - cbn [bodyDue] in Hdue. destruct closed.
    { subst l. exists []. split_and!; try done. cbn. lia. }
    destruct Hdue as (l' & Hdue & -> & Hr & Hle & ->). rewrite (proj2 (Z.ltb_ge 0 0)) by lia. rewrite (proj2 (Z.eqb_neq remaining 0)) by lia.
    set (n' := if remaining <? Z.of_nat n then Z.to_nat remaining else n).
    assert ((0 < n')%nat ∧ (n' ≤ n)%nat ∧ Z.of_nat n' ≤ remaining) as Hn'.
    { unfold n'. destruct (remaining <? Z.of_nat n) eqn:E'; b2p; lia. }
    clearbody n'. cbn in Hd. pose proof (IH inner l' n' ltac:(lia) Hdue ltac:(lia)) as Hin.
    destruct (bodyReadAt depth inner n') as [[got err] inner'] eqn:Er. destruct Hin as (rest & -> & Hlen & Herr).
    rewrite wrap64_small by lia. rewrite length_app in Hle.
    assert (take (Z.to_nat remaining) (got ++ rest) = got ++ take (Z.to_nat (remaining - zlen got)) rest) as Hsplit.
    { rewrite take_app_ge by lia. do 2 f_equal. lia. }
    destruct err as [e|].
    + rewrite bool_decide_eq_true_2 by done. cbn [orb]. exists (take (Z.to_nat (remaining - zlen got)) rest). split_and!; [done|lia|].
      destruct e; try done. destruct Herr as [-> Hnil]. cbn in Hnil. subst rest. cbn in Hle. lia.
    + rewrite bool_decide_eq_false_2 by (by intros []). cbn [orb]. destruct Herr as [Hne Hdue'].
      assert (0 < length got)%nat by (destruct got; [done|cbn; lia]).
      destruct (remaining - zlen got =? 0) eqn:E0; b2p; exists (take (Z.to_nat (remaining - zlen got)) rest); split_and!; try done; try lia.
      * rewrite E0. done.
      * exists rest. split_and!; try done; try lia.
Qed.
Lemma body_delivers (b : body R) l n : bodyDue b l → (0 < n)%nat → delivers b l n (bodyRead b n).
Proof. intros. by apply read_delivers. Qed.

(** Copying a body: what is written is a prefix of the bytes due, all of them
    when no error is returned; and a reliable object gives them all. *)
Lemma copy_prefix fuel : ∀ (b : body R) l n out err b', bodyDue b l → (0 < n)%nat → copyBody fuel b n = Some (out, err, b') →
  ∃ rest, l = out ++ rest ∧ (err = None → rest = []).
Proof.
  induction fuel as [|fuel IH]; intros b l n out err b' Hdue Hn; [done|]. cbn [copyBody]. pose proof (body_delivers b l n Hdue Hn) as Hd.
  destruct (bodyRead b n) as [[got e] b1]. destruct Hd as (l' & -> & _ & He). destruct e as [e|].
  - destruct e; [intros [= <- <- <-]|intros [= <- <- <-]; by exists l'..]. destruct He as [-> Hl]. exists l'. by rewrite Hl.
  - destruct He as [_ Hdue']. destruct (copyBody fuel b1 n) as [[[rest e'] b2]|] eqn:E; [|done]. intros [= <- <- <-].
    destruct (IH _ _ _ _ _ _ Hdue' Hn E) as (rest' & -> & Hnone). exists rest'. by rewrite app_assoc.
Qed.
Lemma copy_reliable fuel : reliable content at_ → ∀ (b : body R) l n, bodyDue b l → (0 < n)%nat → (length l < fuel)%nat →
  ∃ b', copyBody fuel b n = Some (l, None, b').
Proof.
  intros Hrel. induction fuel as [|fuel IH]; intros b l n Hdue Hn Hf; [lia|]. cbn [copyBody]. pose proof (body_delivers b l n Hdue Hn) as Hd.
  destruct (bodyRead b n) as [[got e] b1]. destruct Hd as (l' & -> & _ & He). destruct e as [e|].
  - destruct e; try done. destruct He as [-> Hl]. rewrite Hl. by exists b1.
  - destruct He as [Hne Hdue']. rewrite length_app in Hf. destruct (IH b1 l' n Hdue' Hn) as [b2 ->]; [destruct got; [done|cbn in Hf; lia]|]. by exists b2.
Qed.

(** ** Ranges *)

(** The text of a range, and the bytes of a representation it selects. *)
Definition validSpec (s : Spec) : Prop :=
  (0 < sp_SuffixLength s < 2 ^ 64 ∧ sp_Start s = 0 ∧ sp_End s = 0) ∨ (sp_SuffixLength s = 0 ∧ 0 ≤ sp_Start s ≤ sp_End s ∧ sp_End s < 2 ^ 64).
Definition rangeText (s : Spec) : string :=
  "bytes=" +:+ (if 0 <? sp_SuffixLength s then String "-" (formatUint (sp_SuffixLength s))
                else formatUint (sp_Start s) +:+ String "-" (formatUint (sp_End s))).
Definition selects (s : Spec) (total : Z) : option (Z * Z) :=
  if 0 <? sp_SuffixLength s then Some (Z.max 0 (total - sp_SuffixLength s), total - 1)
  else if sp_Start s <? total then Some (sp_Start s, Z.min (sp_End s) (total - 1)) else None.

Lemma formatUint_plain n : everyChar plainChar (formatUint n).
Proof. apply digits_plain, decimalText_digits. Qed.
Lemma formatUint_parse n : 0 ≤ n < 2 ^ 64 → parseUint (formatUint n) = (n, true).
Proof. intros H. unfold formatUint. rewrite parseUint_decimal by lia. f_equal. lia. Qed.
Lemma formatUint_nonempty n : bool_decide (formatUint n = "") = false.
Proof. apply bool_decide_eq_false_2, decimalText_nonempty. Qed.

Lemma parse_range_text s : validSpec s → parseCacheableRange (rangeText s) = (s, true).
Proof.
  intros Hv. unfold rangeText.
  set (interval := if 0 <? sp_SuffixLength s then _ else _).
  assert (everyChar plainChar interval ∧ everyChar (λ c, c ≠ ","%char) interval) as [Hp Hc].
  { assert (plainChar "-") by (vm_compute; lia).
    unfold interval. destruct (0 <? sp_SuffixLength s); cbn [everyChar]; rewrite ?everyChar_append; cbn [everyChar];
      split_and!; try done; (apply formatUint_plain || by apply digits_without). }
  unfold parseCacheableRange. rewrite (trim_plain ("bytes=" +:+ interval)).
  2:{ rewrite everyChar_append. split; [|done]. cbn. unfold plainChar. vm_compute. repeat split; lia. }
  change ("bytes=" +:+ interval) with ("bytes" +:+ String "=" interval). rewrite cut_found by (cbn; repeat split; done).
  change (equalFold (trimSpaces "bytes") "bytes") with true. cbn [negb orb]. rewrite contains_char by done. rewrite trim_plain by done.
  unfold interval. destruct Hv as [(Hs & Hs1 & Hs2)|(Hs & H1 & H2)].
  - rewrite (proj2 (Z.ltb_lt _ _)) by lia. cbn [cutOn]. rewrite bool_decide_eq_true_2 by done. change (trimSpaces "") with "".
    rewrite bool_decide_eq_true_2 by done. rewrite trim_plain by apply formatUint_plain. rewrite formatUint_nonempty, formatUint_parse by lia.
    rewrite (proj2 (Z.ltb_lt _ _)) by lia. destruct s; cbn in *; by subst.
  - rewrite Hs. cbn [Z.ltb Z.compare]. rewrite cut_found by (by apply digits_without).
    rewrite !trim_plain by apply formatUint_plain. rewrite !formatUint_nonempty, !formatUint_parse by lia. cbn [negb].
    rewrite (proj2 (Z.leb_le _ _)) by lia. destruct s; cbn in *; by subst.
Qed.

(** A stored response that holds the whole representation [data], at [start] of
    its object. *)
Record stored (resp : response R) (data : list byte) : Prop := {
  st_status : rs_StatusCode resp = 200;
  st_length : headerGet (rs_Header resp) "Content-Length" = formatUint (zlen data);
  st_small : 0 < zlen data < 2 ^ 62;
  st_body : ∃ b p, rs_Body resp = PooledBody b ∧ at_ (pb_body b) p ∧ pb_object b = true ∧ pb_remaining b = zlen data
              ∧ 0 ≤ pb_bodyStart b < 2 ^ 62 ∧ content = take (Z.to_nat (pb_bodyStart b)) content ++ data
              ∧ pb_bodyStart b + zlen data = zlen content;
}.

Lemma range_of_stored resp data : stored resp data → cachedBodyRange resp = (0, zlen data - 1, zlen data, true).
Proof.
  intros [H1 H2 H3 _]. unfold cachedBodyRange. rewrite H1. cbn [Z.eqb Pos.eqb]. rewrite H2, formatUint_parse by lia.
  cbn [negb orb]. by rewrite (proj2 (Z.eqb_neq _ _)) by lia.
Qed.

(** Seeking to an offset of the body. *)
Lemma seek_stored (b : pooledResponseBody R) p data a len :
  at_ (pb_body b) p → pb_object b = true → pb_remaining b = zlen data → zlen data < 2 ^ 62 → 0 ≤ pb_bodyStart b < 2 ^ 62 →
  content = take (Z.to_nat (pb_bodyStart b)) content ++ data → pb_bodyStart b + zlen data = zlen content →
  0 ≤ a → 0 < len → a + len ≤ zlen data →
  ∃ b', seekBody b a = Ok b' ∧ bodyDue (RangedBody (PooledBody b') 0 len false) (slice (Z.to_nat a) (Z.to_nat (a + len)) data).
Proof.
  intros Hat Ho Hr Hd Hb Hc Hl Ha Hlen Hle. unfold seekBody. rewrite Ho, Hr, wrap64_small, (proj2 (Z.ltb_ge _ _)) by lia. cbn [negb orb].
  rewrite !to_int64_small by (rewrite ?to_int64_small; lia).
  destruct (law_seek (pb_body b) p (pb_bodyStart b + a) Hat ltac:(lia)) as (r' & -> & Hat'). eexists. split; [done|].
  cbn [bodyDue pb_body pb_remaining pb_bodyStart].
  assert (drop (Z.to_nat (pb_bodyStart b + a)) content = drop (Z.to_nat a) data) as Hdrop.
  { rewrite Hc at 1. rewrite drop_app, drop_ge by (rewrite length_take; lia). rewrite app_nil_l. f_equal. rewrite length_take. lia. }
  exists (drop (Z.to_nat a) data). split_and!; try done; try lia.
  - exists (Z.to_nat (pb_bodyStart b + a)). split_and!; try done; try lia.
    rewrite Hdrop, take_ge; [done|]. rewrite length_drop. lia.
  - rewrite length_drop. lia.
  - unfold slice. f_equal. lia.
Qed.

(** A served range: the bytes of [data] from [a] to [z], whatever the object's
    reader does; all of them when it does not fail. *)
Definition servesBytes (b : body R) (l : list byte) : Prop :=
  (∀ fuel n out err b', (0 < n)%nat → copyBody fuel b n = Some (out, err, b') → ∃ rest, l = out ++ rest ∧ (err = None → rest = []))
  ∧ (reliable content at_ → ∀ n, (0 < n)%nat → ∃ b', copyBody (S (length l)) b n = Some (l, None, b')).
Lemma due_serves b l : bodyDue b l → servesBytes b l.
Proof.
  intros H. split.
  - intros fuel n out err b' Hn Hc. by eapply copy_prefix.
  - intros Hrel n Hn. apply copy_reliable; try done. lia.
Qed.

Lemma header_set (h : HttpHeader) name v : headerGet (setHeader h name [v]) name = v.
Proof. unfold headerGet, headerValues, setHeader. by rewrite lookup_insert_eq. Qed.
Lemma header_set_ne (h : HttpHeader) name name' v : name ≠ name' → headerGet (setHeader h name v) name' = headerGet h name'.
Proof. intros. unfold headerGet, headerValues, setHeader. by rewrite lookup_insert_ne. Qed.

(** What the answer to a range is. *)
Definition rangeAnswer (serves : body R → list byte → Prop) (data : list byte) (spec : Spec) (resp : response R) : Prop :=
  match selects spec (zlen data) with
  | None =>
      rs_StatusCode resp = 416 ∧ headerGet (rs_Header resp) "Content-Range" = "bytes */" +:+ formatUint (zlen data)
      ∧ headerGet (rs_Header resp) "Content-Length" = "0" ∧ rs_Body resp = NoBody
  | Some (a, z) =>
      rs_StatusCode resp = 206
      ∧ headerGet (rs_Header resp) "Content-Range" = "bytes " +:+ formatUint a +:+ "-" +:+ formatUint z +:+ "/" +:+ formatUint (zlen data)
      ∧ headerGet (rs_Header resp) "Content-Length" = formatUint (z - a + 1) ∧ rs_ContentLength resp = z - a + 1
      ∧ 0 ≤ a ≤ z ∧ z < zlen data ∧ serves (rs_Body resp) (slice (Z.to_nat a) (Z.to_nat (z + 1)) data)
  end.

Lemma range_answered resp data spec : stored resp data → validSpec spec → ∃ resp', applyCachedRange resp spec = Ok resp' ∧ rangeAnswer servesBytes data spec resp'.
Proof.
  intros Hs Hv. unfold applyCachedRange, rangeAnswer, selects. rewrite (range_of_stored _ _ Hs). destruct Hs as [_ _ Hsmall (b & p & Hb & Hat & Ho & Hr & Hst & Hc & Hl)].
  cbn [negb]. set (total := zlen data) in *.
  set (start := if 0 <? sp_SuffixLength spec then Z.max 0 (total - sp_SuffixLength spec) else sp_Start spec).
  set (finish := if 0 <? sp_SuffixLength spec then total - 1 else sp_End spec).
  assert ((if 0 <? sp_SuffixLength spec then ((if total <=? sp_SuffixLength spec then 0 else total - sp_SuffixLength spec), total - 1)
           else (sp_Start spec, sp_End spec)) = (start, finish)) as ->.
  { unfold start, finish. destruct (0 <? sp_SuffixLength spec); [|done]. f_equal. destruct (total <=? sp_SuffixLength spec) eqn:E; b2p; lia. }
  assert ((if 0 <? sp_SuffixLength spec then Some (Z.max 0 (total - sp_SuffixLength spec), total - 1)
           else if sp_Start spec <? total then Some (sp_Start spec, Z.min (sp_End spec) (total - 1)) else None)
          = if start <? total then Some (start, Z.min finish (total - 1)) else None) as ->.
  { unfold start, finish. destruct (0 <? sp_SuffixLength spec) eqn:E; [|done]. b2p. rewrite (proj2 (Z.ltb_lt _ _)) by lia. by rewrite Z.min_id. }
  assert (0 ≤ start ∧ start ≤ Z.max (Z.min finish (total - 1)) start ∧ (start < total → start ≤ finish)) as (Hst0 & _ & Hfin).
  { unfold start, finish. destruct Hv as [(H1 & H2 & H3)|(H1 & H2 & H3)].
    - rewrite (proj2 (Z.ltb_lt _ _)) by lia. lia.
    - rewrite H1. cbn [Z.ltb Z.compare]. lia. }
  clearbody start finish. destruct (start <? total) eqn:E; b2p.
  - rewrite (proj2 (Z.leb_gt total start)) by lia. specialize (Hfin E). set (z := Z.min finish (total - 1)). assert (start ≤ z < total) as Hz by lia. clearbody z.
    rewrite (proj2 (Z.ltb_ge start 0)), (proj2 (Z.ltb_ge (total - 1) start)), (proj2 (Z.ltb_ge (total - 1) z)) by lia. cbn [orb].
    rewrite Hb, Ho, Z.sub_0_r, wrap64_small by lia.
    destruct (seek_stored b p data start (z - start + 1) Hat Ho Hr ltac:(lia) Hst Hc Hl ltac:(lia) ltac:(lia) ltac:(lia)) as (b' & -> & Hdue).
    cbn [mbind result_bind]. eexists. split; [done|]. cbn [rs_StatusCode rs_Header rs_ContentLength rs_Body]. split_and!; try done; try lia.
    + by rewrite header_set_ne, header_set.
    + by rewrite header_set.
    + rewrite to_int64_small by lia. done.
    + apply due_serves. by replace (z + 1) with (start + (z - start + 1)) by lia.
  - rewrite (proj2 (Z.leb_le total start)) by lia. eexists. split; [done|]. cbn [rs_StatusCode rs_Header rs_ContentLength rs_Body]. split_and!; try done.
    + by rewrite header_set_ne, header_set.
    + by rewrite header_set.
Qed.

End Bodies.

Lemma rangeAnswer_impl {R} (P Q : body R → list byte → Prop) data spec (resp : response R) :
  (∀ b l, P b l → Q b l) → rangeAnswer P data spec resp → rangeAnswer Q data spec resp.
Proof. intros H. unfold rangeAnswer. destruct (selects spec (zlen data)) as [[a z]|]; [|done]. naive_solver. Qed.
(** Copying a body with a buffer of any size gives [l], and no error. *)
Definition copies {R} `{ObjectBytes R} (b : body R) (l : list byte) : Prop :=
  ∀ n, (0 < n)%nat → ∃ b', copyBody (S (length l)) b n = Some (l, None, b').

(** ** The reader of an object file *)

Section File.
Context (compressBlock : list byte → result error (list byte)) (compressBlockBound : Z → Z)
  (uncompressBlock : list byte → nat → list byte * option Z) (fault : writeCall → option error) (pooledChunkBuffer : Z → list byte).
Hypothesis lz4_roundtrip : ∀ raw stored, compressBlock raw = Ok stored → stored ≠ [] → uncompressBlock stored (length raw) = (raw, Some (zlen raw)).
Hypothesis lz4_bound : ∀ n, 0 ≤ n → n ≤ compressBlockBound n.
Hypothesis pool_size : ∀ size, 0 ≤ size → zlen (pooledChunkBuffer size) = size.

Definition readError (f : failure) : ioError := match f with Failed ErrEOF => EOF | _ => OtherError end.
#[local] Instance fileBytes : ObjectBytes objectReader := {
  ob_read r n := match Read compressBlockBound uncompressBlock pooledChunkBuffer r n with
                 | Some (r', out, res) => (out, readError <$> res, r') | None => ([], Some OtherError, r) end;
  ob_seek r pos := match Seek r pos SeekStart with (r', Ok _) => Some r' | (_, Err _) => None end;
}.

(** A reader of a written object, at a position of its content. *)
Record fileAt (source : readerAt) (layout : objectLayout) (content : list byte) (r : objectReader) (p : nat) : Prop := {
  fa_source : or_source r = source; fa_layout : or_layout r = layout;
  fa_ok : readerOk compressBlockBound (λ i data, data = block content i) r; fa_pos : or_pos r = Z.of_nat p;
}.

Section Written.
Context (source : readerAt) (layout : objectLayout) (content : list byte).
Hypothesis Hloads : loads compressBlockBound uncompressBlock pooledChunkBuffer (λ i data, data = block content i) source layout.
Hypothesis Halways : loadsAlways compressBlockBound uncompressBlock pooledChunkBuffer source layout.
Hypothesis Hlength : ol_length layout = zlen content.
Hypothesis Hchunk : ol_chunkSize layout = objectChunkSize.

Lemma file_read r p n : fileAt source layout content r p → (p < length content)%nat →
  ∃ r', ob_read r n = (take n (drop p content), None, r') ∧ fileAt source layout content r' (p + length (take n (drop p content))).
Proof.
  intros [Hs Hl Hok Hp] Hlt. destruct (readLoop_spec _ _ _ pool_size _ source layout (S n) r n [] Hloads Hs Hl Hok ltac:(lia))
    as (r' & out & res & Hrun & _ & Hreads & Hnone & Hres).
  specialize (Hnone Halways). subst res. destruct (Hres eq_refl) as (Hok' & Hs' & Hl' & Hp' & Hout).
  rewrite Hchunk in Hreads. apply reads_block in Hreads; [|lia]. rewrite Hp, Nat2Z.id in Hreads.
  assert (out = take n (drop p content)) as Hout'.
  { rewrite Hreads, (take_own_length _ n). f_equal. rewrite length_take, length_drop. lia. }
  exists r'. split.
  - unfold ob_read, fileBytes, Read. rewrite Hl, Hlength, Hp. destruct (Z.geb_spec (Z.of_nat p) (zlen content)); [lia|].
    rewrite Hrun, app_nil_l, Hout'. done.
  - split; try done. rewrite <- Hout', Hp', Hp. lia.
Qed.
#[local] Instance file_laws : ObjectLaws objectReader content (fileAt source layout content).
Proof.
  split.
  - intros r p pos [Hs Hl Hok Hp] Hpos. exists (setPos r pos). unfold ob_seek, fileBytes. rewrite Seek_start by (rewrite Hl, Hlength; lia).
    split; [done|]. split; try done.
    + destruct Hok as [H1 H2 H3 H4]. split; try done. cbn. rewrite Hl, Hlength. lia.
    + cbn. lia.
  - intros r p n got err r' Hat Hn Hlt E. destruct (file_read r p n Hat Hlt) as (r1 & Hr & Hat'). rewrite Hr in E. injection E as <- <- <-.
    split_and!; [rewrite length_take; lia|apply take_own_length|rewrite length_take, length_drop; lia|done].
Qed.
Lemma file_reliable : reliable content (fileAt source layout content).
Proof. intros r p n Hat Hlt. destruct (file_read r p n Hat Hlt) as (r' & -> & _). done. Qed.
End Written.


End File.

(** The status of a stored response plays no part in the selection of a range:
    what a range of a stored 200 becomes, a range of a stored error becomes too. *)
Lemma range_ignores_status {R} `{ObjectBytes R} st code code' h len (b : body R) spec resp :
  code ≠ 206 → code' ≠ 206 → applyCachedRange (MkResponse st code h len b) spec = Ok resp → rs_StatusCode resp = 206 →
  applyCachedRange (MkResponse st code' h len b) spec = Ok resp.
Proof.
  intros H1 H2. unfold applyCachedRange, cachedBodyRange. cbn [rs_StatusCode rs_Header rs_Body].
  rewrite !(proj2 (Z.eqb_neq _ 206)) by done. destruct (parseUint _) as [total ok].
  repeat case_match; try done; cbn [mbind result_bind]; intros [= <-]; try done; cbn [rs_StatusCode]; try done.
Qed.

(** ** A concrete range *)

Module RangeDemo.
Definition template : cachedResponseTemplate := Template "200 OK" 200 {["Content-Length" := ["2"]]} 2 1.
Definition content : list byte := [x48; x68; x69].
Definition written : gmap string (list byte) * result error (string * Z) :=
  Eval vm_compute in writeObjectReader Demo.compress Demo.noFault ∅ "body" (ByteReader content None) 3.
End RangeDemo.

Lemma demo_written : writeObjectReader Demo.compress Demo.noFault ∅ "body" (ByteReader RangeDemo.content None) 3 = (fst RangeDemo.written, Ok ("body", 55)).
Proof. vm_compute. reflexivity. Qed.
Lemma demo_spec : validSpec (MkSpec 1 9 0).
Proof. right. cbn. lia. Qed.
Lemma demo_selects : selects (MkSpec 1 9 0) 2 = Some (1, 1).
Proof. reflexivity. Qed.

