(* ===== verification/CacheRules.v ===== *)
(** * Cache rules of the edge handler

    The decisions of [src/caddy/govetocache/handler.go]: cache keys, which
    responses may be stored and for how long, the [Cache-Control] field they are
    served with, the variants of a response, and the headers a revalidation
    updates.  [strings.ToLower] and SHA-256 are parameters. *)
From Stdlib Require Import ZArith NArith Lia Ascii String.
From stdpp Require Import base numbers strings gmap option list sets.
From S2P Require Import Prelude Http CacheRange.

Local Open Scope Z_scope.

(** The configuration of the handler. *)
Record Handler := MkHandler {
  h_SiteID : string; h_KeyParts : list string; h_KeyNamespace : string; h_KeyHeaders : list string;
  h_KeyQueryNormalize : bool; h_KeyQueryInclude : list string; h_KeyQueryExclude : list string; h_KeyCookies : list string;
  h_HashKey : bool; h_HideKey : bool; h_DefaultTTL : Z; h_StatusTTL : gmap string Z; h_StaleIfErrorTTL : Z; h_StaleWhileRevalidateTTL : Z;
  h_MaxBodyBytes : Z; h_Coalesce : bool; h_XCache : bool; h_Age : bool; h_Debug : bool; h_OverrideClientTTL : bool; h_ClientTTL : Z;
  h_BypassCacheControl : list string; h_SurrogateKeyHeader : string;
}.
Definition cacheableStatus (status : Z) : bool := bool_decide (status ∈ [200; 203; 204; 206; 300; 301; 404; 405; 410; 414; 501]).

(** ** Header maps *)

(** [Header.Del]. *)
Definition delHeader (h : HttpHeader) (name : string) : HttpHeader := delete name h.
Definition delHeaders (h : HttpHeader) (names : list string) : HttpHeader := foldl delHeader h names.
Definition hasName (s lower : string) : bool := equalFold s lower.

(** ** [Cache-Control] *)

(** [splitCacheControl]: at the commas outside quoted strings. *)
Fixpoint splitDirectives (quoted escaped : bool) (s : string) : list string :=
  match s with
  | EmptyString => [EmptyString]
  | String c rest =>
      let extend parts := match parts with part :: parts => String c part :: parts | [] => [String c EmptyString] end in
      if escaped then extend (splitDirectives quoted false rest)
      else if bool_decide (code c = 92%nat) && quoted then extend (splitDirectives quoted true rest)
      else if bool_decide (code c = 34%nat) then extend (splitDirectives (negb quoted) false rest)
      else if bool_decide (c = ","%char) && negb quoted then EmptyString :: splitDirectives quoted false rest
      else extend (splitDirectives quoted false rest)
  end.
Definition splitCacheControl (value : string) : list string := splitDirectives false false value.
Definition directiveName (part : string) : string := trimSpaces (beforeEquals part).
Definition hasDirective (value directive : string) : bool := existsb (λ part, hasName (directiveName part) directive) (splitCacheControl value).

(** [replaceDirective]: the first occurrence is replaced, the others dropped. *)
Fixpoint replaceLoop (parts : list string) (directive replacement : string) (replaced : bool) : list string * bool :=
  match parts with
  | [] => ([], replaced)
  | part :: parts =>
      if hasName (directiveName part) directive then
        let '(kept, replaced') := replaceLoop parts directive replacement true in
        (if replaced then kept else (directive +:+ "=" +:+ replacement) :: kept, replaced')
      else
        let '(kept, replaced') := replaceLoop parts directive replacement replaced in
        (if bool_decide (trimSpaces part = "") then kept else trimSpaces part :: kept, replaced')
  end.
Definition replaceDirective (value directive replacement : string) : string :=
  let '(kept, replaced) := replaceLoop (splitCacheControl value) directive replacement false in
  joinWith ", " (if replaced then kept else kept ++ [directive +:+ "=" +:+ replacement]).

(** [cacheStatusTTL]. *)
Fixpoint directiveTTL (parts : list string) (directive : string) : option Z :=
  match parts with
  | [] => None
  | part :: parts =>
      match cutOn "=" (trimSpaces part) with
      | Some (name, value) => if hasName name directive then Some (parseInt (trimSpaces value)).1 else directiveTTL parts directive
      | None => directiveTTL parts directive
      end
  end.
Definition cacheStatusTTL (control : string) : Z :=
  match directiveTTL (splitCacheControl control) "s-maxage" with
  | Some ttl => ttl
  | None => default 0 (directiveTTL (splitCacheControl control) "max-age")
  end.

(** ** Queries *)

Definition hexValue (c : ascii) : option N :=
  let n := N_of_ascii c in
  if ((48 <=? n) && (n <=? 57))%N then Some (n - 48)%N
  else if ((97 <=? n) && (n <=? 102))%N then Some (n - 87)%N
  else if ((65 <=? n) && (n <=? 70))%N then Some (n - 55)%N else None.
Definition hexChar (n : N) : ascii := ascii_of_N (if (n <? 10)%N then 48 + n else 55 + n)%N.
(** [url.QueryUnescape] and [url.QueryEscape]. *)
Fixpoint QueryUnescape (s : string) : option string :=
  match s with
  | EmptyString => Some EmptyString
  | String c rest =>
      if bool_decide (c = "%"%char) then
        match rest with
        | String a (String b rest) =>
            match hexValue a, hexValue b with
            | Some x, Some y => String (ascii_of_N (16 * x + y)) <$> QueryUnescape rest
            | _, _ => None
            end
        | _ => None
        end
      else String (if bool_decide (c = "+"%char) then " "%char else c) <$> QueryUnescape rest
  end.
Definition unreserved (c : ascii) : bool :=
  let n := code c in
  ((48 <=? n) && (n <=? 57))%nat || ((65 <=? n) && (n <=? 90))%nat || ((97 <=? n) && (n <=? 122))%nat || bool_decide (n ∈ [45; 46; 95; 126]%nat).
Fixpoint QueryEscape (s : string) : string :=
  match s with
  | EmptyString => EmptyString
  | String c rest =>
      if unreserved c then String c (QueryEscape rest)
      else if bool_decide (c = " "%char) then String "+" (QueryEscape rest)
      else String "%" (String (hexChar (N_of_ascii c / 16)) (String (hexChar (N_of_ascii c mod 16)) (QueryEscape rest)))
  end.

(** [parseQueryPairs]: the non-empty elements between ampersands. *)
Definition parseElement (element : string) : string * string :=
  let '(key, value) := match cutOn "=" element with Some kv => kv | None => (element, "") end in
  (default key (QueryUnescape key), default value (QueryUnescape value)).
Definition parseQueryPairs (raw : string) : list (string * string) :=
  parseElement <$> filter (λ element, element ≠ "") (splitOn "&" raw).

(** [strings.TrimSuffix(pattern, "*")] of a pattern that ends in one. *)
Definition dropLast (s : string) : string := String.substring 0 (String.length s - 1) s.
Definition matchAnyParam (name : string) (patterns : list string) : bool :=
  existsb (λ pattern, if hasSuffix "*" pattern then String.prefix (dropLast pattern) name else bool_decide (name = pattern)) patterns.

Definition encodePair (kv : string * string) : string := QueryEscape kv.1 +:+ "=" +:+ QueryEscape kv.2.
(** Go's order of strings: by bytes. *)
Definition stringLt (a b : string) : bool := String.ltb a b.
(** [sort.SliceStable] by key, as an insertion from the right. *)
Fixpoint insertPair (kv : string * string) (pairs : list (string * string)) : list (string * string) :=
  match pairs with
  | [] => [kv]
  | p :: rest => if stringLt p.1 kv.1 then p :: insertPair kv rest else kv :: pairs
  end.
Fixpoint sortPairs (pairs : list (string * string)) : list (string * string) :=
  match pairs with [] => [] | kv :: pairs => insertPair kv (sortPairs pairs) end.
(** [sortStrings]. *)
Fixpoint insertString (s : string) (l : list string) : list string :=
  match l with [] => [s] | x :: rest => if stringLt x s then x :: insertString s rest else s :: l end.
Fixpoint sortStrings (l : list string) : list string := match l with [] => [] | s :: l => insertString s (sortStrings l) end.
(** [url.Values] of pairs, and [Values.Encode]: by sorted name. *)
Definition addValue (values : gmap string (list string)) (kv : string * string) : gmap string (list string) :=
  <[kv.1 := default [] (values !! kv.1) ++ [kv.2]]> values.
Definition valuesOf (pairs : list (string * string)) : gmap string (list string) := foldl addValue ∅ pairs.
Definition encodeValues (values : gmap string (list string)) : string :=
  joinWith "&" (mjoin ((λ name, (λ value, encodePair (name, value)) <$> default [] (values !! name)) <$> sortStrings (map fst (map_to_list values)))).

Section Rules.
Variables (ToLower : string → string) (sha256hex : string → string).

Definition normalizeQuery (raw : string) (sorted : bool) (include exclude : list string) : string :=
  if negb sorted && bool_decide (include = []) && bool_decide (exclude = []) then raw
  else
    let pairs := parseQueryPairs raw in
    let includePatterns := ToLower <$> include in
    let excludePatterns := ToLower <$> exclude in
    let keeps kv :=
      let lower := ToLower kv.1 in
      if negb (bool_decide (includePatterns = [])) then matchAnyParam lower includePatterns else negb (matchAnyParam lower excludePatterns) in
    let pairs := if negb (bool_decide (include = [])) || negb (bool_decide (exclude = [])) then filter (λ kv, keeps kv = true) pairs else pairs in
    if negb sorted then joinWith "&" (encodePair <$> pairs)
    else encodeValues (valuesOf (sortPairs pairs)).

(** ** Keys *)

Definition lengthText (s : string) : string := itoa (Z.of_nat (String.length s)).
Definition appendField (target name value : string) : string :=
  target +:+ lengthText name +:+ ":" +:+ name +:+ lengthText value +:+ ":" +:+ value.
Definition appendValues (target : string) (values : list string) : string :=
  appendField (foldl (λ target value, appendField target "value" value) target values) "count" (itoa (zlen values)).
Definition appendHeaderField (target name : string) (values : list string) : string :=
  appendValues (appendField target "header" (CanonicalHeaderKey name)) values.
(** [URL.Scheme], or the scheme of the connection. *)
Definition schemeOf (r : request) : string := if bool_decide (rq_Scheme r = "") then (if rq_TLS r then "https" else "http") else rq_Scheme r.
Definition queryOf (h : Handler) (r : request) : string :=
  normalizeQuery (rq_RawQuery r) (h_KeyQueryNormalize h) (h_KeyQueryInclude h) (h_KeyQueryExclude h).
Definition appendPart (h : Handler) (r : request) (target part : string) : string :=
  if bool_decide (part = "METHOD") then appendField target "method" (rq_Method r)
  else if bool_decide (part = "SCHEME") then appendField target "scheme" (schemeOf r)
  else if bool_decide (part = "HOST") then appendField target "host" (ToLower (rq_Host r))
  else if bool_decide (part = "PATH") then appendField target "path" (rq_EscapedPath r)
  else if bool_decide (part = "QUERY") then appendField target "query" (queryOf h r)
  else target.
Definition cookieValues (r : request) (name : string) : list string := map snd (filter (λ cookie, cookie.1 = name) (rq_Cookies r)).
Definition cacheKey (h : Handler) (r : request) (varied : option HttpHeader) : string :=
  let key := appendField "" "site" (h_SiteID h) in
  let key := if bool_decide (h_KeyNamespace h = "") then key else appendField key "origin-route" (h_KeyNamespace h) in
  let key := foldl (appendPart h r) key (h_KeyParts h) in
  let key :=
    match varied with
    | None => foldl (λ key name, if hasName name "accept-encoding" then key
                                 else appendHeaderField key name (headerValues (rq_Header r) (CanonicalHeaderKey name))) key (h_KeyHeaders h)
    | Some varied => foldl (λ key name, appendHeaderField key name (headerValues varied (CanonicalHeaderKey name))) key
                       (sortStrings (map fst (map_to_list varied)))
    end in
  foldl (λ key name, appendValues (appendField key "cookie" name) (cookieValues r name)) key (h_KeyCookies h).
Definition storageKey (h : Handler) (raw : string) : string := if h_HashKey h then sha256hex raw else raw.
Definition purgeKey (r : request) : string := rq_Method r +:+ "-" +:+ schemeOf r +:+ "-" +:+ ToLower (rq_Host r) +:+ "-" +:+ rq_RequestURI r.

(** ** Admission *)

Definition ttl (h : Handler) (status : Z) : Z := default (h_DefaultTTL h) (h_StatusTTL h !! itoa status).
Definition controlOf (header : HttpHeader) : string := joinComma (headerValues header "Cache-Control").
(** The directives that keep a response out of a shared cache. *)
Definition unshared (control : string) : bool :=
  hasDirective control "private" || hasDirective control "no-store" || hasDirective control "no-cache"
  || hasDirective control "must-revalidate" || hasDirective control "proxy-revalidate".
Definition cacheable (h : Handler) (status : Z) (header : HttpHeader) (size : Z) : bool :=
  if negb (cacheableStatus status) || (status =? 304) then false
  else if (ttl h status <=? 0) || ((0 <? h_MaxBodyBytes h) && (h_MaxBodyBytes h <? size)) || negb (bool_decide (headerGet header "Set-Cookie" = "")) then false
  else negb (unshared (controlOf header)).

Definition matchesConfigured (value : string) (configured : list string) : bool :=
  existsb (configuredPart ToLower configured) (splitCacheControl value).
Definition preparedHeaders : list string :=
  ["Age"; "Date"; "Cache-Status"; "X-Cache"; "X-Goveto-Origin-Content-Length"; "X-Goveto-Origin-Method"; "X-Goveto-Cache-Method"].
Definition prepareResponse (h : Handler) (header : HttpHeader) (status : Z) : HttpHeader :=
  let header := delHeaders header preparedHeaders in
  if negb (bool_decide (headerGet header "Set-Cookie" = "")) || matchesConfigured (controlOf header) (h_BypassCacheControl h)
  then setHeader header "Cache-Control" ["private, no-store"]
  else
    let t := ttl h status in
    let control := controlOf header in
    if (t <=? 0) || unshared control then header
    else
      let control := if bool_decide (trimSpaces control = "") then "public" else control in
      let control := replaceDirective control "s-maxage" (itoa t) in
      let control :=
        if h_OverrideClientTTL h then replaceDirective control "max-age" (itoa (h_ClientTTL h))
        else if negb (hasDirective control "max-age") then replaceDirective control "max-age" (itoa t) else control in
      let control :=
        if (0 <? h_StaleWhileRevalidateTTL h) && negb (hasDirective control "stale-while-revalidate")
        then control +:+ ", stale-while-revalidate=" +:+ itoa (h_StaleWhileRevalidateTTL h) else control in
      let control :=
        if (0 <? h_StaleIfErrorTTL h) && negb (hasDirective control "stale-if-error")
        then control +:+ ", stale-if-error=" +:+ itoa (h_StaleIfErrorTTL h) else control in
      setHeader header "Cache-Control" [control].

Definition cacheStorageHeader (h : Handler) (header : HttpHeader) : HttpHeader :=
  if bool_decide (h_SurrogateKeyHeader h = "") || hasName (h_SurrogateKeyHeader h) "surrogate-key" then header
  else match headerValues header (CanonicalHeaderKey (h_SurrogateKeyHeader h)) with
       | [] => delHeader header "Surrogate-Key"
       | values => setHeader header "Surrogate-Key" values
       end.
(** [surrogateGroups]: [strings.FieldsFunc] at blanks, commas and tabs. *)
Definition groupSeparator (c : ascii) : bool := bool_decide (code c ∈ [32; 44; 9]%nat).
Fixpoint fieldsOf (s : string) : list string :=
  match s with
  | EmptyString => [EmptyString]
  | String c rest =>
      if groupSeparator c then EmptyString :: fieldsOf rest
      else match fieldsOf rest with part :: parts => String c part :: parts | [] => [String c EmptyString] end
  end.
Definition surrogateGroups (header : HttpHeader) (configured : string) : list string :=
  let configured := if bool_decide (configured = "") then "Surrogate-Key" else configured in
  filter (λ field, field ≠ "") (fieldsOf (joinWith " " (headerValues header (CanonicalHeaderKey configured)))).

(** ** Variants *)

Definition variedName (name : string) : option string :=
  let name := CanonicalHeaderKey (trimSpaces name) in
  if negb (bool_decide (name = "")) && negb (hasName name "accept-encoding") then Some name else None.
Definition varyNames (header : HttpHeader) : list string := mjoin (splitComma <$> headerValues header "Vary").
(** [variedHeaders]: [None] is a response that varies on everything. *)
Definition variedHeaders (h : Handler) (r : request) (header : HttpHeader) : option HttpHeader :=
  if existsb (λ name, bool_decide (CanonicalHeaderKey (trimSpaces name) = "*")) (varyNames header) then None
  else Some (foldl (λ (result : HttpHeader) name, match variedName name with
                     | Some name => <[name := headerValues (rq_Header r) (CanonicalHeaderKey name)]> result | None => result end)
               ∅ (h_KeyHeaders h ++ varyNames header)).
Definition varyNamesEqual (a b : HttpHeader) : bool :=
  bool_decide (size a = size b) && forallb (λ name, bool_decide (is_Some (b !! name))) (map fst (map_to_list a)).

(** ** Revalidation *)

(** The names as the code spells them; the keys of a header are canonical. *)
Definition mergedNames : list string := ["Cache-Control"; "Content-Location"; "Date"; "ETag"; "Expires"; "Last-Modified"; "Vary"].
Definition merge304Headers (target update : HttpHeader) : HttpHeader :=
  foldl (λ target name, match update !! name with Some values => <[name := values]> target | None => target end) target mergedNames.
Definition admitRevalidated (h : Handler) (r : request) (status contentLength : Z) (stale update : HttpHeader) : bool :=
  let merged := merge304Headers stale update in
  if negb (cacheable h status merged (Z.max contentLength 0)) then false
  else match variedHeaders h r stale, variedHeaders h r merged with
       | Some old, Some new => varyNamesEqual old new
       | _, _ => false
       end.
Definition clearClientPreconditions (header : HttpHeader) : HttpHeader :=
  delHeaders header ["If-Match"; "If-Unmodified-Since"; "If-None-Match"; "If-Modified-Since"; "If-Range"].

(** ** Results *)

(** [strings.ReplaceAll] of a quote by a quote with a backslash. *)
Fixpoint escapeQuotes (s : string) : string :=
  match s with
  | EmptyString => EmptyString
  | String c s => if bool_decide (code c = 34%nat) then String (Ascii.ascii_of_nat 92) (String c (escapeQuotes s)) else String c (escapeQuotes s)
  end.
Definition setResultHeaders (h : Handler) (header : HttpHeader) (result key : string) (t : Z) : HttpHeader :=
  let header :=
    if h_Debug h then
      let status := "Goveto; " +:+ ToLower result in
      let status := if 0 <=? t then status +:+ "; ttl=" +:+ itoa t else status in
      let status :=
        if h_HideKey h then status
        else status +:+ "; key=" +:+ String (Ascii.ascii_of_nat 34) (escapeQuotes (if h_HashKey h then storageKey h key else key))
             +:+ String (Ascii.ascii_of_nat 34) EmptyString in
      setHeader header "Cache-Status" [status]
    else delHeader header "Cache-Status" in
  let header := if h_XCache h then setHeader header "X-Cache" [result] else delHeader header "X-Cache" in
  if h_Age h && (bool_decide (result = "HIT") || bool_decide (result = "STALE"))
  then if bool_decide (headerGet header "Age" = "") then setHeader header "Age" ["0"] else header
  else delHeader header "Age".

Definition declaredResponseSize (header : HttpHeader) : Z :=
  let value := trimSpaces (headerGet header "Content-Length") in
  let '(size, ok) := parseUint value in if bool_decide (value = "") || negb ok then 0 else size.
Definition responseIncomplete (method : string) (status : Z) (header : HttpHeader) (actual : Z) : bool :=
  if bool_decide (method = "HEAD") || (status <? 200) || (status =? 204) || (status =? 304) then false
  else let '(expected, ok) := parseInt (headerGet header "Content-Length") in ok && (0 <=? expected) && negb (actual =? expected).
Definition staleEligibleStatus (status : Z) : bool := bool_decide (status ∈ [500; 502; 503; 504]).
Definition withinStaleWindow (now freshUntil seconds : Z) : bool :=
  (0 <? seconds) && negb (isZeroTime freshUntil) && (now <? freshUntil + seconds * 10 ^ 9).
(** [serializedHeader]: what [httputil.DumpResponse] prints. *)
Definition serializedHeader (status : Z) (header : HttpHeader) (bodySize : Z) (method : string) : HttpHeader * Z :=
  let header := delHeader header "Transfer-Encoding" in
  if bool_decide (method = "HEAD") then
    let header := setHeader header "X-Goveto-Cache-Method" ["HEAD"] in
    let '(declared, ok) := parseInt (headerGet header "Content-Length") in (header, if ok then declared else bodySize)
  else if negb (status =? 204) && negb (status =? 304) then (setHeader header "Content-Length" [itoa bodySize], bodySize) else (header, bodySize).

End Rules.
