(* ===== verification/CacheRulesTheorems.v ===== *)
(** * Keys and admission of the edge cache

    Keys: a cache key determines the site, the namespace and every part of the
    request it is built from, so that two requests share an entry exactly when
    they agree on those parts.  Queries: the normalised query keeps the values
    of each parameter, in order, and nothing else.  Admission: what may be
    stored, in terms of the parsed directives of the response. *)
From Stdlib Require Import ZArith NArith Lia Ascii String.
From stdpp Require Import base numbers strings gmap option list sets.
From S2P Require Import Prelude Http CacheRange CacheRules.

Local Open Scope Z_scope.

(** ** Fields *)

Notation field := (string * string)%type (only parsing).
Definition fieldText (f : field) : string := lengthText f.1 +:+ ":" +:+ f.1 +:+ lengthText f.2 +:+ ":" +:+ f.2.
Definition fieldsText (l : list field) : string := foldr (λ f text, fieldText f +:+ text) "" l.

Lemma append_length_inj a b x y : String.length a = String.length b → a +:+ x = b +:+ y → a = b ∧ x = y.
Proof.
  revert b. induction a as [|c a IH]; intros [|d b] Hl; [done|done|done|]. rewrite !cons_append. intros [= <- H]. injection Hl as Hl.
  destruct (IH b Hl H) as [-> ->]. done.
Qed.
Lemma length_digits s : everyChar (λ c, c ≠ ":"%char) (lengthText s).
Proof. unfold lengthText, itoa. rewrite (proj2 (Z.ltb_ge _ _)) by lia. by apply digits_without. Qed.
Lemma netstring_inj a b x y : lengthText a +:+ ":" +:+ a +:+ x = lengthText b +:+ ":" +:+ b +:+ y → a = b ∧ x = y.
Proof.
  change (":" +:+ a +:+ x) with (String ":" (a +:+ x)). change (":" +:+ b +:+ y) with (String ":" (b +:+ y)). intros H.
  pose proof (f_equal (cutOn ":") H) as Hc. rewrite !cut_found in Hc by apply length_digits. injection Hc as Hl Hr.
  apply itoa_inj in Hl; [|lia..]. apply append_length_inj; [lia|done].
Qed.
Lemma field_assoc f text : fieldText f +:+ text = lengthText f.1 +:+ ":" +:+ f.1 +:+ (lengthText f.2 +:+ ":" +:+ f.2 +:+ text).
Proof. unfold fieldText. by rewrite <- !append_assoc. Qed.
(** A sequence of fields can be read back. *)
Lemma fields_inj l l' : fieldsText l = fieldsText l' → l = l'.
Proof.
  revert l'. induction l as [|f l IH]; intros [|f' l'] H.
  - done.
  - cbn [fieldsText foldr] in H. rewrite field_assoc in H. pose proof (f_equal String.length H) as Hl. rewrite !length_append in Hl. cbn in Hl. lia.
  - cbn [fieldsText foldr] in H. rewrite field_assoc in H. pose proof (f_equal String.length H) as Hl. rewrite !length_append in Hl. cbn in Hl. lia.
  - cbn [fieldsText foldr] in H. rewrite !field_assoc in H. apply netstring_inj in H as [H1 H]. apply netstring_inj in H as [H2 H].
    destruct f, f'; cbn in *; subst. f_equal. by apply IH.
Qed.
Lemma fields_app l l' : fieldsText (l ++ l') = fieldsText l +:+ fieldsText l'.
Proof. induction l as [|f l IH]; [done|]. cbn [app fieldsText foldr]. fold (fieldsText (l ++ l')). fold (fieldsText l). rewrite IH. apply append_assoc. Qed.

(** Appending to a key of fields. *)
Lemma append_field l name value : appendField (fieldsText l) name value = fieldsText (l ++ [(name, value)]).
Proof. rewrite fields_app. cbn [fieldsText foldr]. by rewrite append_nil_r. Qed.
(** A list of values, closed by their number. *)
Definition valueFields (values : list string) : list field := (λ v, ("value", v)) <$> values.
Definition groupFields (kind name : string) (values : list string) : list field := (kind, name) :: valueFields values ++ [("count", itoa (zlen values))].
Lemma append_values l values : appendValues (fieldsText l) values = fieldsText (l ++ valueFields values ++ [("count", itoa (zlen values))]).
Proof.
  unfold appendValues. generalize (itoa (zlen values)) as count. intros count. revert l. induction values as [|v values IH]; intros l; cbn [foldl].
  - apply append_field.
  - rewrite append_field, IH. by rewrite <- app_assoc.
Qed.
Lemma append_group l kind name values : appendValues (appendField (fieldsText l) kind name) values = fieldsText (l ++ groupFields kind name values).
Proof. rewrite append_field, append_values. by rewrite <- app_assoc. Qed.
Lemma append_all {A} (f : string → A → string) (g : A → list field) (items : list A) :
  (∀ l a, f (fieldsText l) a = fieldsText (l ++ g a)) → ∀ l, foldl f (fieldsText l) items = fieldsText (l ++ mjoin (g <$> items)).
Proof.
  intros H. induction items as [|a items IH]; intros l; cbn [foldl]; [by rewrite app_nil_r|]. rewrite H, IH. cbn. by rewrite <- app_assoc.
Qed.

(** Groups of the same names hold the same values. *)
Lemma value_fields_inj values values' count count' rest rest' :
  valueFields values ++ ("count", count) :: rest = valueFields values' ++ ("count", count') :: rest' → values = values' ∧ rest = rest'.
Proof.
  revert values'. induction values as [|v values IH]; intros [|v' values'] H; [by injection H|done|done|].
  cbn in H. injection H as <- H. destruct (IH _ H) as [-> ->]. done.
Qed.
Lemma groups_inj {A} (kind : A → string) (name : A → string) (f f' : A → list string) items rest rest' :
  mjoin ((λ a, groupFields (kind a) (name a) (f a)) <$> items) ++ rest = mjoin ((λ a, groupFields (kind a) (name a) (f' a)) <$> items) ++ rest' →
  f <$> items = f' <$> items ∧ rest = rest'.
Proof.
  induction items as [|a items IH]; [done|]. cbn [fmap list_fmap mjoin list_join]. unfold groupFields at 1 3. cbn [app]. intros [= H].
  rewrite <- !app_assoc in H. cbn [app] in H. apply value_fields_inj in H as [-> H]. destruct (IH H) as [-> ->]. done.
Qed.

(** ** Keys *)

Section Keys.
Variables (ToLower : string → string).

(** The part of a request a key part names. *)
Definition partField (h : Handler) (r : request) (part : string) : list field :=
  if bool_decide (part = "METHOD") then [("method", rq_Method r)]
  else if bool_decide (part = "SCHEME") then [("scheme", schemeOf r)]
  else if bool_decide (part = "HOST") then [("host", ToLower (rq_Host r))]
  else if bool_decide (part = "PATH") then [("path", rq_EscapedPath r)]
  else if bool_decide (part = "QUERY") then [("query", queryOf ToLower h r)]
  else [].
Definition keyHeaders (h : Handler) : list string := filter (λ name, hasName name "accept-encoding" = false) (h_KeyHeaders h).
Definition requestHeader (r : request) (name : string) : list string := headerValues (rq_Header r) (CanonicalHeaderKey name).
(** The parts of a request that select its entry: the values of the key parts,
    of the key headers and of the key cookies. *)
Definition keyView (h : Handler) (r : request) : list (list field) * list (list string) * list (list string) :=
  (partField h r <$> h_KeyParts h, requestHeader r <$> keyHeaders h, cookieValues r <$> h_KeyCookies h).

Definition siteFields (h : Handler) : list field :=
  ("site", h_SiteID h) :: if bool_decide (h_KeyNamespace h = "") then [] else [("origin-route", h_KeyNamespace h)].
Definition headerGroups (h : Handler) (r : request) (varied : option HttpHeader) : list field :=
  match varied with
  | None => mjoin ((λ name, groupFields "header" (CanonicalHeaderKey name) (requestHeader r name)) <$> keyHeaders h)
  | Some varied => mjoin ((λ name, groupFields "header" (CanonicalHeaderKey name) (headerValues varied (CanonicalHeaderKey name)))
                     <$> sortStrings (map fst (map_to_list varied)))
  end.
Definition keyFields (h : Handler) (r : request) (varied : option HttpHeader) : list field :=
  siteFields h ++ mjoin (partField h r <$> h_KeyParts h) ++ headerGroups h r varied
  ++ mjoin ((λ name, groupFields "cookie" name (cookieValues r name)) <$> h_KeyCookies h).

Lemma foldl_filter {A B} (f : B → A → B) (P : A → bool) l : ∀ b,
  foldl (λ b a, if P a then b else f b a) b l = foldl f b (filter (λ a, P a = false) l).
Proof.
  induction l as [|a l IH]; intros b; cbn [foldl]; [done|]. rewrite filter_cons. destruct (P a); [rewrite decide_False by done|rewrite decide_True by done]; apply IH.
Qed.
Lemma key_fields h r varied : cacheKey ToLower h r varied = fieldsText (keyFields h r varied).
Proof.
  unfold cacheKey, keyFields.
  assert (appendField "" "site" (h_SiteID h) = fieldsText [("site", h_SiteID h)]) as -> by apply (append_field []).
  assert ((if bool_decide (h_KeyNamespace h = "") then fieldsText [("site", h_SiteID h)]
           else appendField (fieldsText [("site", h_SiteID h)]) "origin-route" (h_KeyNamespace h)) = fieldsText (siteFields h)) as ->.
  { unfold siteFields. case_bool_decide; [done|]. apply append_field. }
  rewrite (append_all _ (partField h r)).
  2:{ intros l part. unfold appendPart, partField. repeat case_bool_decide; rewrite ?app_nil_r; done || apply append_field. }
  set (head := siteFields h ++ _).
  assert (match varied with
    | None => foldl (λ key name, if hasName name "accept-encoding" then key
                else appendHeaderField key name (headerValues (rq_Header r) (CanonicalHeaderKey name))) (fieldsText head) (h_KeyHeaders h)
    | Some varied => foldl (λ key name, appendHeaderField key name (headerValues varied (CanonicalHeaderKey name))) (fieldsText head)
                       (sortStrings (map fst (map_to_list varied)))
    end = fieldsText (head ++ headerGroups h r varied)) as ->.
  { unfold headerGroups, appendHeaderField. destruct varied as [varied|].
    - apply (append_all _ (λ name, groupFields "header" (CanonicalHeaderKey name) (headerValues varied (CanonicalHeaderKey name)))).
      intros l name. apply append_group.
    - rewrite (foldl_filter _ (λ name, hasName name "accept-encoding")).
      apply (append_all _ (λ name, groupFields "header" (CanonicalHeaderKey name) (requestHeader r name))). intros l name. apply append_group. }
  rewrite (append_all _ (λ name, groupFields "cookie" name (cookieValues r name))) by (intros l name; apply append_group).
  unfold head. by rewrite <- !app_assoc.
Qed.

Lemma part_field_length h r r' part : length (partField h r part) = length (partField h r' part).
Proof. unfold partField. by repeat case_bool_decide. Qed.
Lemma parts_inj h r r' parts rest rest' :
  mjoin (partField h r <$> parts) ++ rest = mjoin (partField h r' <$> parts) ++ rest' →
  partField h r <$> parts = partField h r' <$> parts ∧ rest = rest'.
Proof.
  induction parts as [|part parts IH]; [done|]. cbn [fmap list_fmap mjoin list_join]. rewrite <- !app_assoc. intros H.
  apply app_inj_1 in H as [H1 H]; [|apply part_field_length]. destruct (IH H) as [H2 ->]. by rewrite H1, H2.
Qed.
Lemma groups_ext {A} (kind name : A → string) (f f' : A → list string) items :
  f <$> items = f' <$> items → mjoin ((λ a, groupFields (kind a) (name a) (f a)) <$> items) = mjoin ((λ a, groupFields (kind a) (name a) (f' a)) <$> items).
Proof.
  induction items as [|a items IH]; [done|]. cbn [fmap list_fmap mjoin list_join]. intros [= H0 H]. rewrite H0. f_equal. by apply IH.
Qed.

(** The names of the fields after the site and the namespace. *)
Lemma part_not_route h r part f : f ∈ partField h r part → f.1 ≠ "origin-route".
Proof. unfold partField. repeat case_bool_decide; set_solver. Qed.
Lemma group_not_route kind name values f : kind ≠ "origin-route" → f ∈ groupFields kind name values → f.1 ≠ "origin-route".
Proof. unfold groupFields, valueFields. intros Hk. set_unfold. intros [->|[(? & -> & _)|[->|[]]]]; done. Qed.
Lemma rest_not_route h r varied f :
  f ∈ mjoin (partField h r <$> h_KeyParts h) ++ headerGroups h r varied ++ mjoin ((λ name, groupFields "cookie" name (cookieValues r name)) <$> h_KeyCookies h) →
  f.1 ≠ "origin-route".
Proof.
  rewrite !elem_of_app, !list_elem_of_join. intros [(l & Hf & Hl)|[H|(l & Hf & Hl)]].
  - apply list_elem_of_fmap in Hl as (part & -> & _). by eapply part_not_route.
  - destruct varied; cbn in H; apply list_elem_of_join in H as (l & Hf & Hl); apply list_elem_of_fmap in Hl as (name & -> & _); by apply group_not_route in Hf.
  - apply list_elem_of_fmap in Hl as (name & -> & _). by apply group_not_route in Hf.
Qed.
Lemma site_inj h h' rest rest' : (∀ f, f ∈ rest → f.1 ≠ "origin-route") → (∀ f, f ∈ rest' → f.1 ≠ "origin-route") →
  siteFields h ++ rest = siteFields h' ++ rest' → h_SiteID h = h_SiteID h' ∧ h_KeyNamespace h = h_KeyNamespace h' ∧ rest = rest'.
Proof.
  intros Hr Hr'. unfold siteFields.
  destruct (bool_decide (h_KeyNamespace h = "")) eqn:E, (bool_decide (h_KeyNamespace h' = "")) eqn:E'; b2p; cbn; intros H.
  - injection H as Hs Hrest. split_and!; congruence.
  - injection H as Hs Hrest. destruct (Hr ("origin-route", h_KeyNamespace h')); [rewrite Hrest; set_solver|done].
  - injection H as Hs Hrest. destruct (Hr' ("origin-route", h_KeyNamespace h)); [rewrite <- Hrest; set_solver|done].
  - by injection H.
Qed.

(** C12. Two requests have the same key exactly when they agree on what the site puts
    in the key: each configured part, the values of each configured header in their
    order, the values of each configured cookie.  No choice of host, path, query,
    header or cookie values makes two different requests collide, and keys of
    different sites or origin routes are always different. *)
Theorem cache_key_exact (h : Handler) (r r' : request) :
  (cacheKey ToLower h r None = cacheKey ToLower h r' None ↔ keyView h r = keyView h r')
  ∧ ∀ h' varied varied', cacheKey ToLower h r varied = cacheKey ToLower h' r' varied' → h_SiteID h = h_SiteID h' ∧ h_KeyNamespace h = h_KeyNamespace h'.
Proof.
  split.
  - rewrite !key_fields. split.
    + intros H%fields_inj. unfold keyFields in H. apply app_inv_head in H. apply parts_inj in H as [H1 H]. cbn [headerGroups] in H.
      apply (groups_inj (λ _, "header")) in H as [H2 H]. rewrite <- (app_nil_r (mjoin _)), <- (app_nil_r (mjoin ((λ name, groupFields _ _ (cookieValues r' name)) <$> _))) in H.
      apply (groups_inj (λ _, "cookie")) in H as [H3 _]. unfold keyView. by rewrite H1, H2, H3.
    + unfold keyView. intros [= H1 H2 H3]. f_equal. unfold keyFields, headerGroups. rewrite H1.
      by rewrite (groups_ext (λ _, "header") CanonicalHeaderKey _ _ _ H2), (groups_ext (λ _, "cookie") (λ name, name) _ _ _ H3).
  - intros h' varied varied'. rewrite !key_fields. intros H%fields_inj. unfold keyFields in H.
    apply site_inj in H; [tauto|apply rest_not_route|apply rest_not_route].
Qed.

End Keys.

(** ** Queries *)

Lemma unreserved_plain c : unreserved c = true → c ≠ "%"%char ∧ c ≠ "+"%char ∧ c ≠ "&"%char ∧ c ≠ "="%char.
Proof. intros H. split_and!; intros ->; discriminate H. Qed.
Lemma hex_escape c : hexValue (hexChar (N_of_ascii c / 16)) = Some (N_of_ascii c / 16)%N ∧ hexValue (hexChar (N_of_ascii c mod 16)) = Some (N_of_ascii c mod 16)%N
  ∧ hexChar (N_of_ascii c / 16) ≠ "&"%char ∧ hexChar (N_of_ascii c / 16) ≠ "="%char ∧ hexChar (N_of_ascii c mod 16) ≠ "&"%char ∧ hexChar (N_of_ascii c mod 16) ≠ "="%char.
Proof. destruct c as [[] [] [] [] [] [] [] []]; vm_compute; split_and!; done || discriminate. Qed.
Lemma unescape_escape s : QueryUnescape (QueryEscape s) = Some s.
Proof.
  induction s as [|c s IH]; [done|]. cbn [QueryEscape]. destruct (unreserved c) eqn:E.
  - destruct (unreserved_plain c E) as (H1 & H2 & _). cbn [QueryUnescape]. by rewrite !bool_decide_eq_false_2, IH by done.
  - case_bool_decide as Hs; [subst c; cbn [QueryUnescape]; by rewrite IH|].
    cbn [QueryUnescape]. rewrite bool_decide_eq_true_2 by done. destruct (hex_escape c) as (-> & -> & _). rewrite IH. cbn. do 2 f_equal.
    rewrite <- N.div_mod by done. apply ascii_N_embedding.
Qed.
Lemma escape_chars s d : d = "&"%char ∨ d = "="%char → everyChar (λ c, c ≠ d) (QueryEscape s).
Proof.
  intros Hd. induction s as [|c s IH]; [done|]. cbn [QueryEscape]. destruct (unreserved c) eqn:E.
  - split; [|done]. destruct (unreserved_plain c E) as (_ & _ & ? & ?). destruct Hd as [-> | ->]; done.
  - case_bool_decide; [split; [by destruct Hd as [-> | ->]|done]|].
    destruct (hex_escape c) as (_ & _ & ? & ? & ? & ?). destruct Hd as [-> | ->]; by repeat split.
Qed.

Lemma parse_encoded kv : parseElement (encodePair kv) = kv.
Proof.
  destruct kv as [k v]. unfold parseElement, encodePair. cbn [fst snd]. change ("=" +:+ QueryEscape v) with (String "=" (QueryEscape v)).
  rewrite cut_found by (by apply escape_chars; right). cbn. by rewrite !unescape_escape.
Qed.
Lemma encoded_nonempty kv : encodePair kv ≠ "".
Proof. unfold encodePair. destruct (QueryEscape kv.1); done. Qed.
Lemma encoded_chars kv : everyChar (λ c, c ≠ "&"%char) (encodePair kv).
Proof. unfold encodePair. rewrite !everyChar_append. split_and!; [by apply escape_chars; left|done|by apply escape_chars; left]. Qed.
Lemma split_joined c (l : list string) : Forall (everyChar (λ d, d ≠ c)) l → l ≠ [] → splitOn c (joinWith (String c EmptyString) l) = l.
Proof.
  intros H. induction H as [|s l Hs Hl IH]; [done|]. intros _. destruct l as [|s' l].
  - by apply split_none.
  - change (joinWith (String c EmptyString) (s :: s' :: l)) with (s +:+ String c EmptyString +:+ joinWith (String c EmptyString) (s' :: l)).
    change (String c EmptyString +:+ ?x) with (String c x). rewrite split_app, split_none, IH by done. done.
Qed.
(** Pairs are read back from their text. *)
Lemma parse_encoded_pairs pairs : parseQueryPairs (joinWith "&" (encodePair <$> pairs)) = pairs.
Proof.
  destruct pairs as [|kv pairs]; [done|]. unfold parseQueryPairs. set (l := kv :: pairs).
  rewrite split_joined.
  - rewrite filter_everything by (intros e (x & -> & _)%list_elem_of_fmap; apply encoded_nonempty).
    rewrite <- list_fmap_compose. induction l as [|x l IH]; [done|]. cbn. by rewrite parse_encoded, IH.
  - apply Forall_fmap, Forall_true. intros x. apply encoded_chars.
  - done.
Qed.

(** The values of a parameter, in order. *)
Definition valuesNamed (pairs : list (string * string)) (name : string) : list string := map snd (filter (λ kv, kv.1 = name) pairs).
Lemma named_cons kv pairs name : valuesNamed (kv :: pairs) name = if bool_decide (kv.1 = name) then kv.2 :: valuesNamed pairs name else valuesNamed pairs name.
Proof. unfold valuesNamed. rewrite filter_cons. case_bool_decide; [rewrite decide_True by done|rewrite decide_False by done]; done. Qed.
Lemma named_app a b name : valuesNamed (a ++ b) name = valuesNamed a name ++ valuesNamed b name.
Proof. unfold valuesNamed. rewrite filter_app. apply map_app. Qed.

Lemma values_lookup pairs : ∀ m name, default [] (foldl addValue m pairs !! name) = default [] (m !! name) ++ valuesNamed pairs name.
Proof.
  induction pairs as [|kv pairs IH]; intros m name; cbn [foldl]; [by rewrite app_nil_r|]. rewrite IH, named_cons. unfold addValue.
  case_bool_decide as E.
  - subst name. rewrite lookup_insert_eq. cbn. by rewrite <- app_assoc.
  - by rewrite lookup_insert_ne.
Qed.
Lemma lt_irrefl s : stringLt s s = false.
Proof.
  unfold stringLt, String.ltb. assert (String.compare s s = Eq) as ->; [|done].
  induction s as [|c s IH]; [done|]. cbn. assert (Ascii.compare c c = Eq) as ->; [|done]. apply N.compare_refl.
Qed.
Lemma named_insert kv pairs name : valuesNamed (insertPair kv pairs) name = valuesNamed (kv :: pairs) name.
Proof.
  induction pairs as [|p pairs IH]; [done|]. cbn [insertPair]. destruct (stringLt p.1 kv.1) eqn:E; [|done].
  rewrite named_cons, IH, !named_cons. destruct (bool_decide (p.1 = name)) eqn:E1, (bool_decide (kv.1 = name)) eqn:E2; try done.
  b2p. rewrite E1, E2, lt_irrefl in E. done.
Qed.
Lemma named_sorted pairs name : valuesNamed (sortPairs pairs) name = valuesNamed pairs name.
Proof. induction pairs as [|kv pairs IH]; [done|]. cbn [sortPairs]. rewrite named_insert, !named_cons. by rewrite IH. Qed.

Lemma insert_perm s l : insertString s l ≡ₚ s :: l.
Proof. induction l as [|x l IH]; [done|]. cbn. destruct (stringLt x s); [|done]. rewrite IH. apply Permutation_swap. Qed.
Lemma sort_perm l : sortStrings l ≡ₚ l.
Proof. induction l as [|s l IH]; [done|]. cbn. by rewrite insert_perm, IH. Qed.

(** The pairs of a map of values, by sorted name. *)
Definition pairsOf (names : list string) (m : gmap string (list string)) : list (string * string) :=
  mjoin ((λ name, pair name <$> default [] (m !! name)) <$> names).
Lemma encode_pairs m : encodeValues m = joinWith "&" (encodePair <$> pairsOf (sortStrings (map fst (map_to_list m))) m).
Proof.
  unfold encodeValues, pairsOf. f_equal. induction (sortStrings _) as [|name names IH]; [done|].
  cbn [fmap list_fmap mjoin list_join]. rewrite fmap_app, <- list_fmap_compose. f_equal. apply IH.
Qed.
Lemma named_pairs names m name : NoDup names → valuesNamed (pairsOf names m) name = if bool_decide (name ∈ names) then default [] (m !! name) else [].
Proof.
  induction 1 as [|n names Hn HN IH]; [done|]. change (pairsOf (n :: names) m) with ((pair n <$> default [] (m !! n)) ++ pairsOf names m).
  rewrite named_app, IH.
  assert (∀ l, valuesNamed (pair n <$> l) name = if bool_decide (n = name) then l else []) as ->.
  { intros l. induction l as [|v l IHl]; [by destruct (bool_decide (n = name))|]. change (pair n <$> v :: l) with ((n, v) :: (pair n <$> l)).
    rewrite named_cons, IHl. cbn [fst snd]. by case_bool_decide. }
  destruct (decide (n = name)) as [->|Hne].
  - rewrite (bool_decide_eq_true_2 (name = name)), (bool_decide_eq_false_2 (name ∈ names)), bool_decide_eq_true_2 by (done || set_solver). by rewrite app_nil_r.
  - rewrite (bool_decide_eq_false_2 (n = name)) by done. cbn [app].
    destruct (decide (name ∈ names)); [rewrite !bool_decide_eq_true_2 by set_solver|rewrite !bool_decide_eq_false_2 by set_solver]; done.
Qed.
Lemma encode_named m name : valuesNamed (parseQueryPairs (encodeValues m)) name = default [] (m !! name).
Proof.
  rewrite encode_pairs, parse_encoded_pairs, named_pairs by (rewrite sort_perm; apply NoDup_fst_map_to_list). case_bool_decide as E; [done|].
  destruct (m !! name) as [l|] eqn:Hm; [|done]. destruct E. rewrite sort_perm. apply list_elem_of_fmap. exists (name, l).
  split; [done|]. by apply elem_of_map_to_list.
Qed.
Lemma values_nonempty pairs : ∀ m name, (∀ n, m !! n ≠ Some []) → foldl addValue m pairs !! name ≠ Some [].
Proof.
  induction pairs as [|kv pairs IH]; intros m name Hm; cbn [foldl]; [done|]. apply IH. intros n. unfold addValue.
  destruct (decide (kv.1 = n)) as [->|]; [rewrite lookup_insert_eq; by destruct (default [] _)|by rewrite lookup_insert_ne].
Qed.
Lemma values_named pairs name : default [] (valuesOf (sortPairs pairs) !! name) = valuesNamed pairs name.
Proof. unfold valuesOf. rewrite values_lookup, lookup_empty. cbn. apply named_sorted. Qed.
Lemma values_ext pairs pairs' : (∀ name, valuesNamed pairs name = valuesNamed pairs' name) → valuesOf (sortPairs pairs) = valuesOf (sortPairs pairs').
Proof.
  intros H. apply map_eq. intros name. pose proof (values_named pairs name) as H1. pose proof (values_named pairs' name) as H2. rewrite <- H, <- H1 in H2.
  assert (∀ l, valuesOf (sortPairs l) !! name ≠ Some []) as Hne by (intros l; apply values_nonempty; intros n; by rewrite lookup_empty).
  pose proof (Hne pairs). pose proof (Hne pairs').
  destruct (valuesOf (sortPairs pairs) !! name), (valuesOf (sortPairs pairs') !! name); cbn in H2; subst; done || congruence.
Qed.

Section Query.
Variable ToLower : string → string.

(** The parameters that take part in a key. *)
Definition keyParam (include exclude : list string) (name : string) : bool :=
  if negb (bool_decide (include = [])) then matchAnyParam (ToLower name) (ToLower <$> include) else negb (matchAnyParam (ToLower name) (ToLower <$> exclude)).
Definition keptPairs (include exclude : list string) (raw : string) : list (string * string) :=
  filter (λ kv, keyParam include exclude kv.1 = true) (parseQueryPairs raw).
Lemma named_kept include exclude raw name :
  valuesNamed (keptPairs include exclude raw) name = if keyParam include exclude name then valuesNamed (parseQueryPairs raw) name else [].
Proof.
  unfold keptPairs. induction (parseQueryPairs raw) as [|kv pairs IH]; [by destruct (keyParam _ _ _)|]. rewrite filter_cons, named_cons.
  destruct (decide (keyParam include exclude kv.1 = true)) as [E|E]; rewrite ?named_cons, IH; case_bool_decide as Hk; try done; subst name.
  - by rewrite E.
  - apply not_true_is_false in E. by rewrite E.
Qed.
Lemma normalize_sorted include exclude raw :
  normalizeQuery ToLower raw true include exclude = encodeValues (valuesOf (sortPairs (keptPairs include exclude raw))).
Proof.
  unfold normalizeQuery, keptPairs, keyParam. cbn [negb andb]. f_equal. f_equal. f_equal.
  destruct include as [|i include], exclude as [|e exclude]; cbn; try done.
  by rewrite filter_everything.
Qed.

(** Normalised queries are equal exactly when every parameter that counts has the
    same values in the same order, whatever the order and the spelling of the
    parameters. *)
Theorem query_key_exact (include exclude : list string) (raw raw' : string) :
  normalizeQuery ToLower raw true include exclude = normalizeQuery ToLower raw' true include exclude
  ↔ ∀ name, keyParam include exclude name = true → valuesNamed (parseQueryPairs raw) name = valuesNamed (parseQueryPairs raw') name.
Proof.
  rewrite !normalize_sorted. split.
  - intros H name Hk. apply (f_equal (λ text, valuesNamed (parseQueryPairs text) name)) in H. rewrite !encode_named, !values_named, !named_kept, Hk in H. done.
  - intros H. f_equal. apply values_ext. intros name. rewrite !named_kept. destruct (keyParam include exclude name) eqn:E; [by apply H|done].
Qed.

End Query.

(** ** Directives *)

Definition dquote : ascii := Ascii.ascii_of_nat 34.
Definition backslash : ascii := Ascii.ascii_of_nat 92.
(** A directive: a name, and maybe a token or a quoted string. *)
Inductive argument := Token (text : string) | Quoted (text : string).
Record directive := Directive { d_Name : string; d_Argument : option argument }.
Definition tokenChar (c : ascii) : Prop := plainChar c ∧ c ≠ ","%char ∧ c ≠ "="%char ∧ c ≠ dquote.
Definition validDirective (d : directive) : Prop :=
  everyChar tokenChar (d_Name d) ∧ match d_Argument d with Some (Token t) => everyChar tokenChar t | _ => True end.
Fixpoint escaped (s : string) : string :=
  match s with
  | EmptyString => EmptyString
  | String c s => if bool_decide (c = dquote) || bool_decide (c = backslash) then String backslash (String c (escaped s)) else String c (escaped s)
  end.
Definition argumentText (a : argument) : string :=
  match a with Token t => t | Quoted q => String dquote (escaped q +:+ String dquote EmptyString) end.
Definition directiveText (d : directive) : string := d_Name d +:+ match d_Argument d with Some a => "=" +:+ argumentText a | None => "" end.
Definition blank (c : ascii) : Prop := c = " "%char ∨ c = Ascii.ascii_of_nat 9.
(** A line of directives, each between blanks. *)
Inductive directivesText : string → list directive → Prop :=
| directives_one pad d pad' : everyChar blank pad → everyChar blank pad' → validDirective d → directivesText (pad +:+ directiveText d +:+ pad') [d]
| directives_cons pad d pad' rest ds : everyChar blank pad → everyChar blank pad' → validDirective d → directivesText rest ds →
    directivesText ((pad +:+ directiveText d +:+ pad') +:+ String comma rest) (d :: ds).

(** The state of the scanner after a text without a separating comma. *)
Fixpoint scan (quoted escaped : bool) (s : string) : option (bool * bool) :=
  match s with
  | EmptyString => Some (quoted, escaped)
  | String c rest =>
      if escaped then scan quoted false rest
      else if bool_decide (code c = 92%nat) && quoted then scan quoted true rest
      else if bool_decide (code c = 34%nat) then scan (negb quoted) false rest
      else if bool_decide (c = ","%char) && negb quoted then None
      else scan quoted false rest
  end.
Lemma split_directives_nonempty q e s : splitDirectives q e s ≠ [].
Proof. destruct s as [|c s]; cbn [splitDirectives]; [done|]. destruct e, (bool_decide (code c = 92%nat) && q), (bool_decide (code c = 34%nat)), (bool_decide (c = ","%char) && negb q); try done; by destruct (splitDirectives _ _ s). Qed.
Lemma scan_split q e s q' e' t : scan q e s = Some (q', e') →
  splitDirectives q e (s +:+ t) = match splitDirectives q' e' t with part :: parts => (s +:+ part) :: parts | [] => [] end.
Proof.
  revert q e. induction s as [|c s IH]; intros q e H.
  - cbn in H. injection H as -> ->. change ("" +:+ t) with t. pose proof (split_directives_nonempty q' e' t). by destruct (splitDirectives q' e' t).
  - rewrite cons_append. cbn [scan] in H. cbn [splitDirectives].
    pose proof (split_directives_nonempty q' e' t) as Hne.
    destruct e; [|destruct (bool_decide (code c = 92%nat) && q); [|destruct (bool_decide (code c = 34%nat)); [|destruct (bool_decide (c = ","%char) && negb q); [done|]]]];
      rewrite (IH _ _ H); by destruct (splitDirectives q' e' t).
Qed.
Lemma scan_app q e s q' e' t : scan q e s = Some (q', e') → scan q e (s +:+ t) = scan q' e' t.
Proof.
  revert q e. induction s as [|c s IH]; intros q e H; [cbn in H; by injection H as -> ->|]. rewrite cons_append. cbn [scan] in *.
  destruct e; [by apply IH|]. destruct (bool_decide (code c = 92%nat) && q); [by apply IH|].
  destruct (bool_decide (code c = 34%nat)); [by apply IH|]. destruct (bool_decide (c = ","%char) && negb q); [done|]. by apply IH.
Qed.
Lemma code_inj c n : (n < 256)%nat → code c = n → c = Ascii.ascii_of_nat n.
Proof. intros Hn <-. symmetry. apply Ascii.ascii_nat_embedding. Qed.
Lemma scan_plain s : everyChar (λ c, c ≠ ","%char ∧ c ≠ dquote) s → scan false false s = Some (false, false).
Proof.
  induction s as [|c s IH]; [done|]. intros [[Hc Hq] Hs]. cbn [scan]. rewrite andb_false_r, (bool_decide_eq_false_2 (code c = 34%nat)).
  - by rewrite (bool_decide_eq_false_2 (c = ","%char)), IH.
  - intros H. apply Hq, code_inj; [lia|done].
Qed.
Lemma scan_escaped s : scan true false (escaped s) = Some (true, false).
Proof.
  induction s as [|c s IH]; [done|]. cbn [escaped]. destruct (bool_decide (c = dquote) || bool_decide (c = backslash)) eqn:E.
  - cbn. exact IH.
  - apply orb_false_iff in E as [E1 E2]. b2p. cbn [scan].
    rewrite (bool_decide_eq_false_2 (code c = 92%nat)), (bool_decide_eq_false_2 (code c = 34%nat)), andb_false_r by (intros ?; first [apply E1, code_inj; [lia|done]|apply E2, code_inj; [lia|done]]).
    exact IH.
Qed.
Lemma token_scannable s : everyChar tokenChar s → everyChar (λ c, c ≠ ","%char ∧ c ≠ dquote) s.
Proof. apply everyChar_impl. intros c (_ & ? & _ & ?). done. Qed.
Lemma blank_scannable s : everyChar blank s → everyChar (λ c, c ≠ ","%char ∧ c ≠ dquote) s.
Proof. apply everyChar_impl. intros c [-> | ->]; done. Qed.
Lemma scan_directive d : validDirective d → scan false false (directiveText d) = Some (false, false).
Proof.
  intros [Hn Ha]. unfold directiveText. rewrite (scan_app _ _ _ false false) by (by apply scan_plain, token_scannable).
  destruct (d_Argument d) as [[t|q]|]; [| |done].
  - change ("=" +:+ argumentText (Token t)) with (String "=" t). change (scan false false (String "=" t)) with (scan false false t). by apply scan_plain, token_scannable.
  - change ("=" +:+ argumentText (Quoted q)) with (String "=" (String dquote (escaped q +:+ String dquote EmptyString))).
    change (scan false false (String "=" (String dquote ?x))) with (scan true false x). by rewrite (scan_app _ _ _ true false) by apply scan_escaped.
Qed.
Lemma scan_padded pad d pad' : everyChar blank pad → everyChar blank pad' → validDirective d → scan false false (pad +:+ directiveText d +:+ pad') = Some (false, false).
Proof.
  intros H1 H2 Hd. rewrite (scan_app _ _ _ false false) by (by apply scan_plain, blank_scannable).
  rewrite (scan_app _ _ _ false false) by (by apply scan_directive). by apply scan_plain, blank_scannable.
Qed.

Lemma blank_space s : everyChar blank s → everyChar (λ c, space1 c = true) s.
Proof. apply everyChar_impl. intros c [-> | ->]; done. Qed.
Lemma blank_not c s : c ≠ " "%char → c ≠ Ascii.ascii_of_nat 9 → everyChar blank s → everyChar (λ d, d ≠ c) s.
Proof. intros H1 H2. apply everyChar_impl. intros d [-> | ->]; congruence. Qed.
Lemma token_plain s : everyChar tokenChar s → everyChar plainChar s.
Proof. apply everyChar_impl. by intros c [? _]. Qed.
(** The name of a part is the name of its directive. *)
Lemma directive_name pad d pad' : everyChar blank pad → everyChar blank pad' → validDirective d → directiveName (pad +:+ directiveText d +:+ pad') = d_Name d.
Proof.
  intros H1 H2 [Hn Ha]. unfold directiveName, beforeEquals, directiveText.
  assert (everyChar (λ c, c ≠ "="%char) (pad +:+ d_Name d)) as He.
  { rewrite everyChar_append. split; [by apply blank_not|]. eapply everyChar_impl; [|exact Hn]. by intros c (_ & _ & ? & _). }
  destruct (d_Argument d) as [a|].
  - assert (pad +:+ (d_Name d +:+ ("=" +:+ argumentText a)) +:+ pad' = (pad +:+ d_Name d) +:+ String "=" (argumentText a +:+ pad')) as ->.
    { by rewrite <- !append_assoc. }
    rewrite cut_found by done. rewrite <- (append_nil_r (d_Name d)) at 1. apply trim_padded; [by apply blank_space|done|by apply token_plain].
  - rewrite (append_nil_r (d_Name d)), cut_missing.
    + apply trim_padded; [by apply blank_space|by apply blank_space|by apply token_plain].
    + rewrite append_assoc, everyChar_append. split; [done|by apply blank_not].
Qed.

(** Splitting a line gives its directives. *)
Lemma split_line line ds : directivesText line ds → Forall2 (λ part d, directiveName part = d_Name d) (splitCacheControl line) ds
  ∧ ∀ rest, splitCacheControl (line +:+ String comma rest) = splitCacheControl line ++ splitCacheControl rest.
Proof.
  unfold splitCacheControl. induction 1 as [pad d pad' H1 H2 Hd|pad d pad' rest ds H1 H2 Hd _ [IH1 IH2]];
    pose proof (scan_padded pad d pad' H1 H2 Hd) as Hs; pose proof (directive_name pad d pad' H1 H2 Hd) as Hname;
    set (part := pad +:+ directiveText d +:+ pad') in *; clearbody part;
    assert (∀ t, splitDirectives false false (part +:+ String comma t) = part :: splitDirectives false false t) as Hc
      by (intros t; rewrite (scan_split _ _ _ _ _ _ Hs); 
        change (splitDirectives false false (String comma t)) with (EmptyString :: splitDirectives false false t);
        cbv iota beta; by rewrite append_nil_r).
  - assert (splitDirectives false false part = [part]) as E.
    { rewrite <- (append_nil_r part) at 1. rewrite (scan_split _ _ _ _ _ _ Hs). cbn [splitDirectives]. by rewrite append_nil_r. }
    rewrite E. split; [|done]. by constructor.
  - rewrite Hc. split; [by constructor|]. intros t. rewrite <- append_assoc, cons_append, Hc, IH2. done.
Qed.
Lemma split_lines lines dss : Forall2 directivesText lines dss → lines ≠ [] →
  Forall2 (λ part d, directiveName part = d_Name d) (splitCacheControl (joinComma lines)) (concat dss).
Proof.
  induction 1 as [|line ds lines dss H HF IH]; [done|]. intros _. destruct (split_line _ _ H) as [H1 H2]. destruct lines as [|line' lines].
  - inversion HF; subst. cbn. by rewrite app_nil_r.
  - change (joinComma (line :: line' :: lines)) with (line +:+ String comma (joinComma (line' :: lines))). rewrite H2. cbn [concat].
    apply Forall2_app; [done|]. by apply IH.
Qed.
(** [hasDirective] finds exactly the directives with that name. *)
Lemma has_directive lines dss name : Forall2 directivesText lines dss → lines ≠ [] →
  hasDirective (joinComma lines) name = existsb (λ d, equalFold (d_Name d) name) (concat dss).
Proof.
  intros H Hne. pose proof (split_lines _ _ H Hne) as Hs. unfold hasDirective, hasName.
  induction Hs as [|part d parts ds Hp _ IH]; [done|]. cbn [existsb]. by rewrite Hp, IH.
Qed.

(** ** Admission *)

(** The directives a shared cache must not store under. *)
Definition unsharedNames : list string := ["private"; "no-store"; "no-cache"; "must-revalidate"; "proxy-revalidate"].
Definition storable (ds : list directive) : Prop := ∀ d name, d ∈ ds → name ∈ unsharedNames → equalFold (d_Name d) name = false.
Definition directivesOf (header : HttpHeader) (ds : list directive) : Prop :=
  ∃ dss, Forall2 directivesText (headerValues header "Cache-Control") dss ∧ ds = concat dss.

Lemma unshared_directives header ds : directivesOf header ds → unshared (controlOf header) = false ↔ storable ds.
Proof.
  intros (dss & H & ->). unfold controlOf. destruct (headerValues header "Cache-Control") as [|line lines] eqn:E.
  { inversion H; subst. split; [|done]. intros _ d name Hd. by apply elem_of_nil in Hd. }
  unfold unshared. rewrite !(has_directive _ _ _ H) by done. unfold storable, unsharedNames.
  rewrite !orb_false_iff. split.
  - intros ((((H1 & H2) & H3) & H4) & H5) d name Hd Hn.
    assert (∀ n, existsb (λ d, equalFold (d_Name d) n) (concat dss) = false → equalFold (d_Name d) n = false) as Hex.
    { intros n Hx. destruct (equalFold (d_Name d) n) eqn:E'; [|done]. rewrite <- Hx. symmetry. apply existsb_exists. exists d.
      by rewrite <- list_elem_of_In. }
    rewrite !elem_of_cons, elem_of_nil in Hn. destruct Hn as [->|[->|[->|[->|[->|[]]]]]]; by apply Hex.
  - intros Hs. assert (∀ n, n ∈ unsharedNames → existsb (λ d, equalFold (d_Name d) n) (concat dss) = false) as Hex.
    { intros n Hn. apply not_true_is_false. intros (d & Hd & Hx)%existsb_exists. rewrite <- list_elem_of_In in Hd.
      rewrite (Hs d n Hd Hn) in Hx. done. }
    by repeat split; apply Hex; repeat constructor.
Qed.

Section Admission.
Variable ToLower : string → string.

Lemma prepared_names name header : name ∉ preparedHeaders → headerValues (delHeaders header preparedHeaders) name = headerValues header name.
Proof.
  unfold delHeaders. revert header. induction preparedHeaders as [|n l IH]; intros header Hn; [done|]. cbn [foldl]. rewrite IH by set_solver.
  unfold headerValues, delHeader. by rewrite lookup_delete_ne by set_solver.
Qed.
Lemma set_values (h : HttpHeader) name v : headerValues (setHeader h name v) name = v.
Proof. unfold headerValues, setHeader. by rewrite lookup_insert_eq. Qed.

(** A prepared response that may be stored. *)
Lemma prepared_cacheable h status header size : cacheable h status (prepareResponse ToLower h header status) size = true →
  cacheableStatus status = true ∧ 0 < ttl h status ∧ (h_MaxBodyBytes h = 0 ∨ size ≤ h_MaxBodyBytes h ∨ h_MaxBodyBytes h < 0)
  ∧ headerGet header "Set-Cookie" = "" ∧ unshared (controlOf header) = false
  ∧ matchesConfigured ToLower (controlOf header) (h_BypassCacheControl h) = false.
Proof.
  unfold cacheable. destruct (cacheableStatus status) eqn:Es; [|done]. cbn [negb orb]. destruct (status =? 304); [done|].
  destruct (ttl h status <=? 0) eqn:Et; [done|]. cbn [orb]. destruct ((0 <? h_MaxBodyBytes h) && (h_MaxBodyBytes h <? size)) eqn:Em; [done|]. cbn [orb].
  unfold prepareResponse. rewrite Et. cbn [orb]. set (header' := delHeaders header preparedHeaders).
  assert (headerGet header' "Set-Cookie" = headerGet header "Set-Cookie") as Hc.
  { unfold headerGet, header'. rewrite prepared_names; [done|]. vm_compute. intros H. repeat (apply elem_of_cons in H as [H|H]; [discriminate H|]). by apply elem_of_nil in H. }
  assert (controlOf header' = controlOf header) as Hcc.
  { unfold controlOf, header'. rewrite prepared_names; [done|]. vm_compute. intros H. repeat (apply elem_of_cons in H as [H|H]; [discriminate H|]). by apply elem_of_nil in H. }
  clearbody header'. rewrite Hc, Hcc. destruct (bool_decide (headerGet header "Set-Cookie" = "")) eqn:Ec; cbn [negb orb].
  2:{ destruct (negb _); [done|]. unfold controlOf at 1. rewrite set_values. done. }
  destruct (matchesConfigured ToLower (controlOf header) (h_BypassCacheControl h)) eqn:Eb.
  { destruct (negb _); [done|]. unfold controlOf at 1. rewrite set_values. done. }
  destruct (unshared (controlOf header)) eqn:Eu.
  { rewrite Hcc, Eu. by destruct (negb _). }
  intros _. b2p. split_and!; try done. apply andb_false_iff in Em as [Em|Em]; b2p; lia.
Qed.

(** C20. A response whose lines of [Cache-Control] are well formed (each a list of
    directives, with balanced quotes) and that is admitted to the store has a status
    a shared cache may keep, a positive lifetime, a body within the limit and an
    empty first [Set-Cookie] value; none of the directives in its lines, whatever
    their spelling, quoting and arguments, forbids sharing or demands revalidation,
    and none is one the site is configured to bypass.  For lines that are not well
    formed see [unbalanced_quote_hides_private]. *)
Theorem admission_safe (h : Handler) (status size : Z) (header : HttpHeader) (ds : list directive) :
  directivesOf header ds → 0 ≤ h_MaxBodyBytes h →
  cacheable h status (prepareResponse ToLower h header status) size = true →
  status ∈ [200; 203; 204; 206; 300; 301; 404; 405; 410; 414; 501] ∧ 0 < ttl h status ∧ (h_MaxBodyBytes h = 0 ∨ size ≤ h_MaxBodyBytes h)
  ∧ headerGet header "Set-Cookie" = "" ∧ storable ds ∧ matchesConfigured ToLower (controlOf header) (h_BypassCacheControl h) = false.
Proof.
  intros Hd Hm Hc. destruct (prepared_cacheable _ _ _ _ Hc) as (Hs & Ht & Hsize & Hcookie & Hu & Hb).
  split_and!; try done; [by apply bool_decide_eq_true in Hs|lia|]. by apply (unshared_directives header).
Qed.

End Admission.

(** A quoted comma does not start a directive, but an unbalanced quote hides the
    directives of the next line. *)
Lemma unbalanced_quote_hides_private h size :
  0 < ttl h 200 → h_MaxBodyBytes h = 0 →
  let header : HttpHeader := {["Cache-Control" := [String "a" (String "=" (String dquote EmptyString)); "private"]]} in
  cacheable h 200 header size = true.
Proof.
  intros Ht Hm header. unfold cacheable. change (cacheableStatus 200) with true. cbn [negb orb Z.eqb Pos.eqb].
  rewrite (proj2 (Z.leb_gt _ _)), Hm by done. vm_compute. reflexivity.
Qed.

(** The tag of a 304 is never merged: the code looks it up under a name that no
    canonical header has. *)
Lemma revalidation_drops_etag target update : update !! "ETag" = None → merge304Headers target update !! "Etag" = target !! "Etag".
Proof.
  intros H. unfold merge304Headers, mergedNames. cbn [foldl]. rewrite H.
  assert (∀ t n, n ≠ "Etag" → (match update !! n with Some v => <[n := v]> t | None => t end : HttpHeader) !! "Etag" = t !! "Etag") as E.
  { intros t n Hn. destruct (update !! n); [by rewrite lookup_insert_ne|done]. }
  by rewrite !E.
Qed.

(** A response with a quoted comma and an unknown directive is admitted. *)
Module AdmissionDemo.
Definition site : Handler := MkHandler "site" ["METHOD"; "HOST"; "PATH"; "QUERY"] "" [] true [] [] [] false false 60 ∅ 0 0 0 true true true false false 0 [] "".
Definition directives : list directive := [Directive "public" None; Directive "x" (Some (Quoted "private,no-store"))].
Definition header : HttpHeader := {["Cache-Control" := ["public "; directiveText (Directive "x" (Some (Quoted "private,no-store")))]]}.
Lemma header_directives : directivesOf header directives.
Proof.
  exists [[Directive "public" None]; [Directive "x" (Some (Quoted "private,no-store"))]]. split; [|reflexivity].
  change (headerValues header "Cache-Control") with ["public "; directiveText (Directive "x" (Some (Quoted "private,no-store")))]. constructor; [|constructor; [|constructor]].
  - apply (directives_one "" (Directive "public" None) " "); repeat constructor; done.
  - rewrite <- (append_nil_r (directiveText _)). apply (directives_one "" (Directive "x" (Some (Quoted "private,no-store"))) ""); repeat constructor; done.
Qed.
Lemma admission_safe_witness : storable directives ∧ 0 < ttl site 200.
Proof.
  destruct (admission_safe (λ s, s) site 200 5 header directives header_directives) as (_ & H1 & _ & _ & H2 & _); [done|vm_compute; reflexivity|].
  split; [exact H2|exact H1].
Defined.
End AdmissionDemo.
