(* ===== verification/EncodeSession.v ===== *)
(** * Streaming a response into the store

    Model of [src/caddy/govetocache/encode.go]: while a response is streamed to
    the client, its chunks are queued for a drainer that writes them to a pipe
    from which the store reads.  The handler's thread, the drainer and the store
    are interleaved; [io.Pipe] hands over bytes only between a write and a read,
    and keeps the first close.

    The theorems: what the store commits is exactly the bytes the handler sent,
    and only after [finish]; a dropped session is never committed; and after
    [finish] the session comes to an end. *)
From Stdlib Require Import ZArith Lia.
From Stdlib.Strings Require Import Byte.
From stdpp Require Import base numbers list option relations.
From S2P Require Import Prelude.

(** ** State *)

Inductive encodeError := ErrEncodeDropped | ErrPut.
(** The write side of the pipe once closed. *)
Inductive pipeEnd := PipeEOF | PipeError.
Inductive drainerState := Waiting | Writing (rest : list byte) | Returned.

(** [es_sent] records the bytes [tryWrite] accepted, [es_read] those the store
    read after the header; [es_result] is set when [put] returns ([None] is
    success) and [done] is closed. *)
Record encodeSession := EncodeSession {
  es_chunks : list (list byte); es_queueClosed : bool; es_stop : bool; es_dropped : bool;
  es_pipe : option pipeEnd; es_drainer : drainerState;
  es_sent : list byte; es_read : list byte; es_ended : option pipeEnd; es_result : option (option encodeError); es_queueFull : nat;
}.
Definition startEncodeSession : encodeSession := EncodeSession [] false false false None Waiting [] [] None None 0.

(** ** The handler's thread *)

Section Session.
Variable encodeQueueSlots : nat.

(** [drop] takes three steps the other threads can see: it marks the session,
    closes the pipe with an error (an earlier close stays), and closes [stop]. *)
Definition dropMark (s : encodeSession) : encodeSession :=
  EncodeSession (es_chunks s) (es_queueClosed s) (es_stop s) true (es_pipe s) (es_drainer s)
    (es_sent s) (es_read s) (es_ended s) (es_result s) (es_queueFull s).
Definition dropPipe (s : encodeSession) : encodeSession :=
  EncodeSession (es_chunks s) (es_queueClosed s) (es_stop s) (es_dropped s) (Some (default PipeError (es_pipe s))) (es_drainer s)
    (es_sent s) (es_read s) (es_ended s) (es_result s) (es_queueFull s).
Definition dropStop (s : encodeSession) : encodeSession :=
  EncodeSession (es_chunks s) (es_queueClosed s) true (es_dropped s) (es_pipe s) (es_drainer s)
    (es_sent s) (es_read s) (es_ended s) (es_result s) (es_queueFull s).
(** [dropQueueFull], with the calls of [onQueueFull], up to the mark of [drop]. *)
Definition dropQueueFull (s : encodeSession) : encodeSession :=
  let s := if (es_queueFull s =? 0)%nat
           then EncodeSession (es_chunks s) (es_queueClosed s) (es_stop s) (es_dropped s) (es_pipe s) (es_drainer s)
                  (es_sent s) (es_read s) (es_ended s) (es_result s) 1
           else s in
  dropMark s.
Definition tryWrite (s : encodeSession) (p : list byte) : encodeSession :=
  if bool_decide (p = []) || es_dropped s || es_queueClosed s then s
  else if (length (es_chunks s) <? encodeQueueSlots)%nat
       then EncodeSession (es_chunks s ++ [p]) (es_queueClosed s) (es_stop s) (es_dropped s) (es_pipe s) (es_drainer s)
              (es_sent s ++ p) (es_read s) (es_ended s) (es_result s) (es_queueFull s)
       else dropQueueFull s.
(** The first part of [finish]: [None] is the return with [errEncodeDropped]. *)
Definition finishClose (s : encodeSession) : option encodeSession :=
  if es_dropped s then None
  else Some (EncodeSession (es_chunks s) true (es_stop s) (es_dropped s) (es_pipe s) (es_drainer s)
               (es_sent s) (es_read s) (es_ended s) (es_result s) (es_queueFull s)).
(** What [finish] returns once [done] is closed: [None] is still waiting. *)
Definition finishResult (s : encodeSession) : option (option encodeError) :=
  match es_result s with
  | None => None
  | Some result => Some (if es_dropped s then Some ErrEncodeDropped else result)
  end.

(** A drop goes on to the pipe once it is marked, and to [stop] once the pipe is
    closed, by itself or by the drainer before it. *)
Inductive handlerStep : encodeSession → encodeSession → Prop :=
| handler_write s p : handlerStep s (tryWrite s p)
| handler_drop s : handlerStep s (dropMark s)
| handler_drop_pipe s : es_dropped s = true → handlerStep s (dropPipe s)
| handler_drop_stop s : es_dropped s = true → is_Some (es_pipe s) → handlerStep s (dropStop s)
| handler_finish s s' : finishClose s = Some s' → handlerStep s s'.

(** ** The drainer and the store *)

Definition setDrainer (s : encodeSession) (d : drainerState) : encodeSession :=
  EncodeSession (es_chunks s) (es_queueClosed s) (es_stop s) (es_dropped s) (es_pipe s) d
    (es_sent s) (es_read s) (es_ended s) (es_result s) (es_queueFull s).
(** The drainer returns, and its deferred [Close] leaves an earlier close. *)
Definition drainerReturn (s : encodeSession) : encodeSession :=
  EncodeSession (es_chunks s) (es_queueClosed s) (es_stop s) (es_dropped s) (Some (default PipeEOF (es_pipe s))) Returned
    (es_sent s) (es_read s) (es_ended s) (es_result s) (es_queueFull s).
Definition popChunk (s : encodeSession) (c : list byte) (rest : list (list byte)) : encodeSession :=
  EncodeSession rest (es_queueClosed s) (es_stop s) (es_dropped s) (es_pipe s) (Writing c)
    (es_sent s) (es_read s) (es_ended s) (es_result s) (es_queueFull s).
(** A read of the store takes the first [n] bytes of the write in progress; a
    write that is taken whole returns. *)
Definition transfer (s : encodeSession) (c : list byte) (n : nat) : encodeSession :=
  EncodeSession (es_chunks s) (es_queueClosed s) (es_stop s) (es_dropped s) (es_pipe s)
    (if bool_decide (length c ≤ n)%nat then Waiting else Writing (list.drop n c))
    (es_sent s) (es_read s ++ take n c) (es_ended s) (es_result s) (es_queueFull s).
Definition readerEnd (s : encodeSession) (e : pipeEnd) : encodeSession :=
  EncodeSession (es_chunks s) (es_queueClosed s) (es_stop s) (es_dropped s) (es_pipe s) (es_drainer s)
    (es_sent s) (es_read s) (Some e) (es_result s) (es_queueFull s).
(** [put] returns, and the read side of the pipe is closed. *)
Definition putReturn (s : encodeSession) (result : option encodeError) : encodeSession :=
  EncodeSession (es_chunks s) (es_queueClosed s) (es_stop s) (es_dropped s) (es_pipe s) (es_drainer s)
    (es_sent s) (es_read s) (es_ended s) (Some result) (es_queueFull s).

(** The store succeeds only on a source that ended with [EOF] (the probe after
    the last chunk of [writeObjectReader]); it may fail at any time. *)
Inductive workerStep : encodeSession → encodeSession → Prop :=
| drain_chunk s c rest : es_drainer s = Waiting → es_chunks s = c :: rest → workerStep s (popChunk s c rest)
| drain_closed s : es_drainer s = Waiting → es_chunks s = [] → es_queueClosed s = true → workerStep s (drainerReturn s)
| drain_stop s : es_drainer s = Waiting → es_stop s = true → workerStep s (drainerReturn s)
| drain_write_fails s c : es_drainer s = Writing c → (is_Some (es_pipe s) ∨ is_Some (es_result s)) → workerStep s (drainerReturn s)
| pipe_transfer s c n : es_drainer s = Writing c → es_pipe s = None → es_result s = None → es_ended s = None → (0 < n)%nat →
    workerStep s (transfer s c n)
| store_end s e : es_pipe s = Some e → es_result s = None → es_ended s = None → workerStep s (readerEnd s e)
| store_commit s : es_ended s = Some PipeEOF → es_result s = None → workerStep s (putReturn s None)
| store_fail s : es_result s = None → workerStep s (putReturn s (Some ErrPut)).

Definition step (s s' : encodeSession) : Prop := handlerStep s s' ∨ workerStep s s'.
Inductive reachable : encodeSession → Prop :=
| reach_start : reachable startEncodeSession
| reach_step s s' : reachable s → step s s' → reachable s'.

(** ** Invariant *)

(** Bytes on their way to the store. *)
Definition inFlight (s : encodeSession) : list byte := match es_drainer s with Writing c => c | _ => [] end ++ concat (es_chunks s).
Record sessionInv (s : encodeSession) : Prop := {
  (** Nothing is lost or reordered while the session is neither dropped nor failed. *)
  inv_bytes : es_pipe s ≠ Some PipeError → (es_result s = None ∨ es_ended s = Some PipeEOF) → es_sent s = es_read s ++ inFlight s;
  (** A clean end of the pipe: the queue was closed and is empty, unless the store failed first. *)
  inv_eof : es_pipe s = Some PipeEOF → es_drainer s = Returned ∧ ((es_queueClosed s = true ∧ es_chunks s = []) ∨ (∃ e, es_result s = Some (Some e) ∧ es_ended s = None));
  inv_drop : es_stop s = true → is_Some (es_pipe s);
  inv_stop : es_stop s = true → es_dropped s = true;
  inv_error : es_pipe s = Some PipeError → es_dropped s = true;
  inv_returned : es_drainer s = Returned → is_Some (es_pipe s);
  inv_ended : ∀ e, es_ended s = Some e → es_pipe s = Some e;
  inv_commit : es_result s = Some None → es_ended s = Some PipeEOF;
  inv_writing : ∀ c, es_drainer s = Writing c → c ≠ [];
  inv_chunks : Forall (λ c, c ≠ []) (es_chunks s);
  inv_slots : (length (es_chunks s) ≤ encodeQueueSlots)%nat;
}.

Lemma start_inv : sessionInv startEncodeSession.
Proof. split; cbn; try done. lia. Qed.
Lemma drop_mark_inv s : sessionInv s → sessionInv (dropMark s).
Proof. intros [H1 H2 H3 H4 Herr H5 H6 H7 H8 H9 H10]. by split. Qed.
Lemma drop_pipe_inv s : sessionInv s → es_dropped s = true → sessionInv (dropPipe s).
Proof.
  intros [H1 H2 H3 H4 Herr H5 H6 H7 H8 H9 H10] Hd. split; cbn; try done.
  - intros Hp Hr. apply H1; [|done]. intros Hx. rewrite Hx in Hp. done.
  - intros Hp. apply H2. destruct (es_pipe s) as [[]|]; cbn in Hp; done || congruence.
  - intros e He. rewrite (H6 e He). done.
Qed.
Lemma drop_stop_inv s : sessionInv s → es_dropped s = true → is_Some (es_pipe s) → sessionInv (dropStop s).
Proof. intros [H1 H2 H3 H4 Herr H5 H6 H7 H8 H9 H10] Hd Hp. by split. Qed.
Lemma session_write_inv s p : sessionInv s → sessionInv (tryWrite s p).
Proof.
  intros Hs. unfold tryWrite. destruct (bool_decide (p = [])) eqn:Ep; [done|]. destruct (es_dropped s) eqn:Ed; [done|].
  destruct (es_queueClosed s) eqn:Eq; [done|]. cbn [orb]. b2p. destruct (length (es_chunks s) <? encodeQueueSlots)%nat eqn:El.
  - destruct Hs as [H1 H2 H3 H4 Herr H5 H6 H7 H8 H9 H10]. split; cbn; try done.
    + intros Hp Hr. specialize (H1 Hp Hr). rewrite H1. unfold inFlight. cbn. rewrite concat_app. cbn. by rewrite app_nil_r, <- !app_assoc.
    + intros Hp. destruct (H2 Hp) as [Hd [[Hq _]|Hx]]; [congruence|]. split; [done|by right].
    + intros Hx. specialize (H4 Hx). congruence.
    + intros Hx. specialize (Herr Hx). congruence.
    + apply Forall_app. split; [done|]. by constructor.
    + rewrite length_app. cbn. apply Nat.ltb_lt in El. lia.
  - unfold dropQueueFull. apply drop_mark_inv. destruct (es_queueFull s =? 0)%nat; [|done].
    by destruct Hs; split.
Qed.
Lemma finish_inv s s' : sessionInv s → finishClose s = Some s' → sessionInv s'.
Proof.
  unfold finishClose. destruct (es_dropped s) eqn:E; [done|]. intros [H1 H2 H3 H4 Herr H5 H6 H7 H8 H9 H10] [= <-]. split; cbn; try done.
  - intros Hp. destruct (H2 Hp) as [Hd [[_ Hc]|Hx]]; split; try done; [by left|by right].
  - intros Hx. specialize (H4 Hx). congruence.
  - intros Hx. specialize (Herr Hx). congruence.
Qed.
Lemma return_error s : (es_pipe s = Some PipeError → es_dropped s = true) → Some (default PipeEOF (es_pipe s)) = Some PipeError → es_dropped s = true.
Proof. intros H. destruct (es_pipe s) as [[]|]; cbn; intros [=]; by apply H. Qed.
Lemma worker_inv s s' : sessionInv s → workerStep s s' → sessionInv s'.
Proof.
  intros [H1 H2 H3 H4 Herr H5 H6 H7 H8 H9 H10] Hst. pose proof (return_error s Herr) as Herr'.
  destruct Hst as [s c rest Hd Hc|s Hd Hc Hq|s Hd Hs|s c Hd Hf|s c n Hd Hp Hr He Hn|s e Hp Hr He|s He Hr|s Hr].
  - assert (es_pipe s ≠ Some PipeEOF) as Hne by (intros Hx; destruct (H2 Hx); congruence).
    rewrite Hc in H9, H10. inversion H9; subst. split; cbn; try done; try (by intros ? [= <-]).
    + intros Hp Hr. rewrite (H1 Hp Hr). unfold inFlight. by rewrite Hd, Hc.
    + cbn in H10. lia.
  - split; cbn; try done.
    + intros Hp Hr. assert (es_pipe s ≠ Some PipeError) as Hne by (intros Hx; by rewrite Hx in Hp). rewrite (H1 Hne Hr). unfold inFlight. by rewrite Hd, Hc.
    + intros _. split; [done|]. by left.
    + intros e He. by rewrite (H6 e He).
  - destruct (H3 Hs) as [e He]. split; cbn; try done; rewrite ?He; cbn.
    + intros Hp Hr. rewrite H1; [|congruence|done]. unfold inFlight. cbn. by rewrite Hd.
    + intros [= ->]. destruct (H2 He) as [Hx _]. congruence.
    + intros e' He'. rewrite <- He. by apply H6.
  - assert (es_pipe s ≠ Some PipeEOF) as Hne by (intros Hx; destruct (H2 Hx); congruence).
    assert (es_ended s ≠ Some PipeEOF) as Hne' by (intros Hx; by apply H6 in Hx). split; cbn; try done.
    + intros Hp [Hr|Hr]; [|done]. destruct Hf as [[e He]|[x Hx]]; [|congruence]. rewrite He in Hp. cbn in Hp. destruct e; [done|congruence].
    + intros Hp. split; [done|]. right. destruct Hf as [[e He]|[x Hx]].
      * rewrite He in Hp. cbn in Hp. congruence.
      * destruct x as [e|]; [|by destruct Hne'; apply H7]. exists e. split; [done|]. destruct (es_ended s) as [[]|] eqn:Ee; try done.
        rewrite (H6 _ eq_refl) in Hp. done.
    + intros e He. by rewrite (H6 e He).
  - split; cbn; try done; rewrite ?Hp; try done.
    + intros _ _. rewrite (H1 ltac:(congruence) ltac:(by left)). unfold inFlight. rewrite Hd. cbn. case_bool_decide.
      * rewrite take_ge by done. cbn. by rewrite <- app_assoc.
      * by rewrite <- app_assoc, (app_assoc (take n c)), take_drop.
    + intros Hx. case_bool_decide; done.
    + intros c'. case_bool_decide; [done|]. intros [= <-] Hx. apply (f_equal length) in Hx. rewrite length_drop in Hx. cbn in Hx. lia.
  - split; cbn; try done; rewrite ?Hp.
    + intros Hpe _. apply H1; [congruence|by left].
    + intros [= ->]. destruct (H2 Hp) as [Hd [Hq|(e & Hx & _)]]; [|congruence]. split; [done|by left].
    + congruence.
    + congruence.
  - split; cbn; try done.
    + intros Hp _. apply H1; [done|by right].
    + intros Hp. destruct (H2 Hp) as [Hd [Hq|(e & Hx & _)]]; [|congruence]. split; [done|by left].
  - split; cbn; try done.
    + intros Hp [Hx|Hx]; [done|]. apply H1; [done|by right].
    + intros Hp. destruct (H2 Hp) as [Hd [Hq|(e & Hx & _)]]; [|congruence]. split; [done|by left].
Qed.
Lemma session_reachable_inv s : reachable s → sessionInv s.
Proof.
  induction 1 as [|s s' _ IH [Hst|Hst]]; [apply start_inv| |by eapply worker_inv].
  destruct Hst as [s p|s|s Hd|s Hd Hp|s s' Hf];
    [by apply session_write_inv|by apply drop_mark_inv|by apply drop_pipe_inv|by apply drop_stop_inv|by eapply finish_inv].
Qed.

(** ** Whole or nothing *)

Lemma committed s : sessionInv s → es_result s = Some None → es_read s = es_sent s ∧ es_queueClosed s = true.
Proof.
  intros [H1 H2 H3 H4 Herr H5 H6 H7 H8 H9 H10] Hr. pose proof (H7 Hr) as He. pose proof (H6 _ He) as Hp.
  destruct (H2 Hp) as [Hd [[Hq Hc]|(e & Hx & _)]]; [|congruence]. split; [|done].
  rewrite H1; [|congruence|by right]. unfold inFlight. by rewrite Hd, Hc, app_nil_r.
Qed.
Lemma abandoned_step s s' : es_dropped s = true ∧ es_queueClosed s = false → step s s' → es_dropped s' = true ∧ es_queueClosed s' = false.
Proof.
  intros [Hd Hq] [Hst|Hst].
  - destruct Hst as [s p|s|s _|s _ _|s s' Hf]; try done.
    + unfold tryWrite. rewrite Hd, orb_true_r. done.
    + unfold finishClose in Hf. by rewrite Hd in Hf.
  - by destruct Hst.
Qed.

(** ** The end of a session *)

(** Steps of the drainer and of a store that fails only when its source does. *)
Definition storeStep (s s' : encodeSession) : Prop := workerStep s s' ∧ (es_ended s = Some PipeError ∨ ∀ e, es_result s' ≠ Some (Some e)).
Fixpoint queueCost (chunks : list (list byte)) : nat := match chunks with [] => 0 | c :: rest => (2 * length c + 3) + queueCost rest end.
Definition measure (s : encodeSession) : nat :=
  match es_drainer s with Waiting => 1 | Writing c => 2 * length c + 2 | Returned => 0 end
  + queueCost (es_chunks s)
  + (if es_ended s then 0 else 1) + (if es_result s then 0 else 1).
Lemma worker_decreases s s' : sessionInv s → workerStep s s' → (measure s' < measure s)%nat.
Proof.
  intros Hs Hst. destruct Hst as [s c rest Hd Hc|s Hd Hc Hq|s Hd Hst|s c Hd Hf|s c n Hd Hp Hr He Hn|s e Hp Hr He|s He Hr|s Hr]; unfold measure; cbn; rewrite ?Hd, ?Hr, ?He.
  - rewrite Hc. cbn. lia.
  - lia.
  - lia.
  - lia.
  - pose proof (inv_writing _ Hs c Hd). destruct c as [|b c]; [done|]. case_bool_decide; [cbn; lia|]. rewrite length_drop. cbn in *. lia.
  - lia.
  - lia.
  - lia.
Qed.
Lemma worker_run n s s' : sessionInv s → nsteps workerStep n s s' → (n + measure s' ≤ measure s)%nat.
Proof.
  intros Hs Hn. induction Hn as [s|n s s1 s' Hst Hn IH]; [lia|]. pose proof (worker_decreases s s1 Hs Hst). specialize (IH (worker_inv _ _ Hs Hst)). lia.
Qed.
Definition finished (s : encodeSession) : Prop := es_queueClosed s = true ∧ es_dropped s = false ∧ ∀ e, es_result s ≠ Some (Some e).
Lemma finished_step s s' : sessionInv s → finished s → storeStep s s' → finished s' ∧ es_sent s' = es_sent s.
Proof.
  intros Hs (Hq & Hd & Hr) [Hst Hf]. split; [|by destruct Hst].
  assert (es_ended s ≠ Some PipeError) as Hne.
  { intros He. apply (inv_ended _ Hs) in He. rewrite (inv_error _ Hs He) in Hd. done. }
  destruct Hst; split_and!; try done; cbn in *; intros err; destruct Hf as [Hf|Hf]; try congruence; apply Hf.
Qed.
(** A session that is not over can take a step. *)
Lemma finished_progress s : sessionInv s → finished s → es_result s = None → ∃ s', storeStep s s'.
Proof.
  intros Hs (Hq & Hd & _) Hr. assert (es_pipe s ≠ Some PipeError) as Hne by (intros He; rewrite (inv_error _ Hs He) in Hd; done).
  destruct (es_ended s) as [e|] eqn:He.
  - pose proof (inv_ended _ Hs e He) as Hp. destruct e; [|done]. exists (putReturn s None). split; [by constructor|cbn; right; congruence].
  - destruct (es_drainer s) as [|c|] eqn:Hdr.
    + destruct (es_chunks s) as [|c rest] eqn:Hc; [exists (drainerReturn s)|exists (popChunk s c rest)]; (split; [by constructor|cbn; right; congruence]).
    + destruct (es_pipe s) as [e|] eqn:Hp.
      * exists (drainerReturn s). split; [by eapply drain_write_fails; [done|left; rewrite Hp]|cbn; right; congruence].
      * exists (transfer s c 1). split; [apply pipe_transfer; try done; lia|cbn; right; congruence].
    + destruct (inv_returned _ Hs Hdr) as [e Hp]. exists (readerEnd s e). split; [by constructor|cbn; right; congruence].
Qed.
Lemma run_finished n s s' : sessionInv s → finished s → nsteps storeStep n s s' →
  sessionInv s' ∧ finished s' ∧ es_sent s' = es_sent s ∧ (n + measure s' ≤ measure s)%nat.
Proof.
  intros Hs Hf Hn. induction Hn as [s|n s s1 s' Hst Hn IH]; [split_and!; try done; lia|].
  destruct (finished_step s s1 Hs Hf Hst) as [Hf1 Hsent]. pose proof (worker_decreases s s1 Hs (proj1 Hst)).
  destruct (IH (worker_inv _ _ Hs (proj1 Hst)) Hf1) as (H1 & H2 & H3 & H4). split_and!; try done; [congruence|lia].
Qed.

(** C18. In every interleaving of the handler, the drainer and the store: a
    committed object is exactly the bytes the handler sent, after it closed the
    queue; [finish] reports success only for a committed object; a session dropped
    before it was finished is never committed, whatever happens later; and the
    queue never holds more chunks than it has slots. *)
Theorem encode_whole_or_nothing (s : encodeSession) :
  reachable s →
  (es_result s = Some None → es_read s = es_sent s ∧ es_queueClosed s = true)
  ∧ (finishResult s = Some None → es_result s = Some None)
  ∧ (es_dropped s = true → es_queueClosed s = false → ∀ s', rtc step s s' → es_result s' ≠ Some None)
  ∧ (length (es_chunks s) ≤ encodeQueueSlots)%nat.
Proof.
  intros Hr. pose proof (session_reachable_inv s Hr) as Hs. split_and!.
  - by apply committed.
  - unfold finishResult. destruct (es_result s) as [r|]; [|done]. by destruct (es_dropped s).
  - intros Hd Hq s' Hst Hx. assert (reachable s' ∧ es_dropped s' = true ∧ es_queueClosed s' = false) as (Hr' & _ & Hq').
    { induction Hst as [s|s s1 s' Hst _ IH]; [done|]. destruct (abandoned_step s s1 (conj Hd Hq) Hst) as [Hd1 Hq1].
      assert (reachable s1) by (by eapply reach_step). apply IH; try done. by apply session_reachable_inv. }
    destruct (committed s' (session_reachable_inv s' Hr') Hx). congruence.
  - apply inv_slots. done.
Qed.

(** C19. After [finish] closed the queue of a session whose store has not returned
    yet: every run of the drainer and the store is shorter than a measure.  If the
    store fails only when its source does (no failing disk), a run goes on until
    the result is there, and the result is a committed object with all the bytes
    sent. *)
Theorem encode_finish_commits (s s0 : encodeSession) :
  reachable s → finishClose s = Some s0 → es_result s = None →
  (∀ n s', nsteps workerStep n s0 s' → (n ≤ measure s0)%nat)
  ∧ (∀ n s', nsteps storeStep n s0 s' →
     (es_result s' = None → ∃ s'', storeStep s' s'')
     ∧ (es_result s' ≠ None → es_result s' = Some None ∧ finishResult s' = Some None ∧ es_read s' = es_sent s)).
Proof.
  intros Hr Hf Hres. pose proof (finish_inv s s0 (session_reachable_inv s Hr) Hf) as Hs0. split.
  { intros n s' Hn. pose proof (worker_run n s0 s' Hs0 Hn). lia. }
  intros n s' Hn. unfold finishClose in Hf. destruct (es_dropped s) eqn:Hd; [done|]. injection Hf as <-.
  destruct (run_finished n _ s' Hs0 ltac:(split_and!; cbn; congruence) Hn) as (Hs' & Hf' & Hsent & Hle). split_and!.
  - by apply finished_progress.
  - destruct Hf' as (Hq & Hd' & Hr'). destruct (es_result s') as [[e|]|] eqn:E; [by destruct (Hr' e)| |done]. intros _.
    destruct (committed s' Hs' E) as [Hread _]. unfold finishResult. rewrite E, Hd'. split_and!; try done. by rewrite Hread.
Qed.

End Session.

(** One chunk is sent, drained, read and committed. *)
Module EncodeDemo.
Definition sent : encodeSession := tryWrite 1 startEncodeSession [x61; x62].
Definition closed : encodeSession :=
  EncodeSession [[x61; x62]] true false false None Waiting [x61; x62] [] None None 0.
Definition popped : encodeSession := popChunk closed [x61; x62] [].
Definition moved : encodeSession := transfer popped [x61; x62] 2.
Definition returned : encodeSession := drainerReturn moved.
Definition ended : encodeSession := readerEnd returned PipeEOF.
Definition stored : encodeSession := putReturn ended None.
Lemma reach_sent : reachable 1 sent.
Proof. eapply reach_step; [apply reach_start|]. left. apply handler_write. Qed.
Lemma run_stored : nsteps storeStep 5 closed stored.
Proof.
  apply (nsteps_l _ _ _ popped); [split; [by apply drain_chunk|by right]|]. apply (nsteps_l _ _ _ moved); [split; [by apply pipe_transfer; [..|lia]|by right]|].
  apply (nsteps_l _ _ _ returned); [split; [by apply drain_closed|by right]|]. apply (nsteps_l _ _ _ ended); [split; [by apply store_end|by right]|].
  apply nsteps_once. split; [by apply store_commit|by right].
Qed.
Lemma reach_stored : reachable 1 stored.
Proof.
  assert (reachable 1 closed) as H by (eapply reach_step; [apply reach_sent|]; left; by apply handler_finish).
  revert H. generalize run_stored. generalize closed, stored, 5%nat. intros s s' n Hn. induction Hn as [|n a b c [Hab _] _ IH]; [done|].
  intros Ha. apply IH. eapply reach_step; [exact Ha|by right].
Qed.
Lemma encode_whole_or_nothing_witness : es_read stored = [x61; x62] ∧ es_queueClosed stored = true.
Proof. exact (proj1 (encode_whole_or_nothing 1 stored reach_stored) eq_refl). Defined.
Lemma encode_finish_commits_witness : finishResult stored = Some None ∧ es_read stored = es_sent sent.
Proof.
  destruct (proj2 (encode_finish_commits 1 sent closed reach_sent eq_refl eq_refl) 5%nat stored run_stored) as (_ & H2).
  destruct (H2 ltac:(discriminate)) as (_ & H3 & H4). split; [exact H3|exact H4].
Defined.
End EncodeDemo.
