(* ===== verification/CaptureResponse.v ===== *)
(** * Capturing the origin's response

    Model of the [capturedResponse] of [src/caddy/govetocache/handler.go],
    [capture_limit.go] and the part of [encode.go] that starts and feeds an
    encoding session: the writer the origin answers into.  It spools the body to
    a file, or streams it to the client while the store encodes it, within the
    space the store grants.

    What happens outside is an oracle: whether a reservation is granted, what a
    write to the spool or to the client does, whether the encoder's queue is
    full.  What the client sees is the list of events.  [DumpResponse] is Go's
    serialisation of a response head. *)
From Stdlib Require Import ZArith NArith Lia Ascii String.
From Stdlib.Strings Require Import Byte.
From stdpp Require Import base numbers strings gmap option list.
From S2P Require Import Prelude Http HttpConditional CacheRange CacheRules.

Local Open Scope Z_scope.

(** ** State *)

(** What is written to the client. *)
Inductive event :=
| Informational (status : Z) (header : HttpHeader)
| Respond (status : Z) (header : HttpHeader)
| Body (bytes : list byte)
| Trailers (header : HttpHeader).

(** What [PutReader] is called with: the keys, the head and the size of the
    object, and the metadata of its entry. *)
Record put := Put {
  pu_baseKey : string; pu_variedKey : string; pu_status : Z; pu_header : HttpHeader; pu_head : list byte; pu_size : Z;
  pu_groups : list string; pu_varied : HttpHeader; pu_etag : string; pu_ttl : Z; pu_realKey : string;
}.
(** The encoding session as its writer sees it. *)
Record encoder := Encoder { en_put : put; en_sent : list byte; en_dropped : bool }.
Inductive captureError := ErrCaptureLimit | ErrFile.
#[export] Instance captureError_eq_dec : EqDecision captureError.
Proof. solve_decision. Defined.
(** Answers of [ReserveCapture], short writes of the spool ([Some n] wrote [n]
    bytes), whether the queue has room, failed writes to the client, and whether
    the spool can be rewound. *)
Record oracle := Oracle { o_reserve : list bool; o_file : list (option nat); o_queue : list bool; o_client : list bool; o_seek : bool }.

(** The writer; [w_held] is what the store has reserved for it, [w_outer] the
    header of the client's writer before the response. *)
Record capture := Capture {
  w_limit : Z; w_reserved : Z; w_rejectedSize : Z; w_declaredSize : Z; w_discarded : bool; w_header : HttpHeader; w_status : Z;
  w_responseStatus : Z; w_size : Z; w_file : option (list byte); w_downstream : bool; w_outer : HttpHeader; w_wroteHeader : bool;
  w_wrote1xx : bool; w_streamed : bool; w_suppressBody : bool; w_stream : bool; w_captureErr : option captureError;
  w_downstreamErr : bool; w_encode : option encoder; w_held : Z; w_events : list event; w_oracle : oracle;
}.
Definition updReserved (w : capture) (v : Z) : capture :=
  Capture
    (w_limit w) v (w_rejectedSize w) (w_declaredSize w) (w_discarded w) (w_header w) (w_status w) (w_responseStatus w)
    (w_size w) (w_file w) (w_downstream w) (w_outer w) (w_wroteHeader w) (w_wrote1xx w) (w_streamed w) (w_suppressBody w)
    (w_stream w) (w_captureErr w) (w_downstreamErr w) (w_encode w) (w_held w) (w_events w) (w_oracle w).
Definition updRejectedSize (w : capture) (v : Z) : capture :=
  Capture
    (w_limit w) (w_reserved w) v (w_declaredSize w) (w_discarded w) (w_header w) (w_status w) (w_responseStatus w) (w_size w)
    (w_file w) (w_downstream w) (w_outer w) (w_wroteHeader w) (w_wrote1xx w) (w_streamed w) (w_suppressBody w) (w_stream w)
    (w_captureErr w) (w_downstreamErr w) (w_encode w) (w_held w) (w_events w) (w_oracle w).
Definition updDeclaredSize (w : capture) (v : Z) : capture :=
  Capture
    (w_limit w) (w_reserved w) (w_rejectedSize w) v (w_discarded w) (w_header w) (w_status w) (w_responseStatus w) (w_size w)
    (w_file w) (w_downstream w) (w_outer w) (w_wroteHeader w) (w_wrote1xx w) (w_streamed w) (w_suppressBody w) (w_stream w)
    (w_captureErr w) (w_downstreamErr w) (w_encode w) (w_held w) (w_events w) (w_oracle w).
Definition updDiscarded (w : capture) (v : bool) : capture :=
  Capture
    (w_limit w) (w_reserved w) (w_rejectedSize w) (w_declaredSize w) v (w_header w) (w_status w) (w_responseStatus w) (w_size
    w) (w_file w) (w_downstream w) (w_outer w) (w_wroteHeader w) (w_wrote1xx w) (w_streamed w) (w_suppressBody w) (w_stream
    w) (w_captureErr w) (w_downstreamErr w) (w_encode w) (w_held w) (w_events w) (w_oracle w).
Definition updHeader (w : capture) (v : HttpHeader) : capture :=
  Capture
    (w_limit w) (w_reserved w) (w_rejectedSize w) (w_declaredSize w) (w_discarded w) v (w_status w) (w_responseStatus w)
    (w_size w) (w_file w) (w_downstream w) (w_outer w) (w_wroteHeader w) (w_wrote1xx w) (w_streamed w) (w_suppressBody w)
    (w_stream w) (w_captureErr w) (w_downstreamErr w) (w_encode w) (w_held w) (w_events w) (w_oracle w).
Definition updStatus (w : capture) (v : Z) : capture :=
  Capture
    (w_limit w) (w_reserved w) (w_rejectedSize w) (w_declaredSize w) (w_discarded w) (w_header w) v (w_responseStatus w)
    (w_size w) (w_file w) (w_downstream w) (w_outer w) (w_wroteHeader w) (w_wrote1xx w) (w_streamed w) (w_suppressBody w)
    (w_stream w) (w_captureErr w) (w_downstreamErr w) (w_encode w) (w_held w) (w_events w) (w_oracle w).
Definition updResponseStatus (w : capture) (v : Z) : capture :=
  Capture
    (w_limit w) (w_reserved w) (w_rejectedSize w) (w_declaredSize w) (w_discarded w) (w_header w) (w_status w) v (w_size w)
    (w_file w) (w_downstream w) (w_outer w) (w_wroteHeader w) (w_wrote1xx w) (w_streamed w) (w_suppressBody w) (w_stream w)
    (w_captureErr w) (w_downstreamErr w) (w_encode w) (w_held w) (w_events w) (w_oracle w).
Definition updSize (w : capture) (v : Z) : capture :=
  Capture
    (w_limit w) (w_reserved w) (w_rejectedSize w) (w_declaredSize w) (w_discarded w) (w_header w) (w_status w)
    (w_responseStatus w) v (w_file w) (w_downstream w) (w_outer w) (w_wroteHeader w) (w_wrote1xx w) (w_streamed w)
    (w_suppressBody w) (w_stream w) (w_captureErr w) (w_downstreamErr w) (w_encode w) (w_held w) (w_events w) (w_oracle w).
Definition updFile (w : capture) (v : option (list byte)) : capture :=
  Capture
    (w_limit w) (w_reserved w) (w_rejectedSize w) (w_declaredSize w) (w_discarded w) (w_header w) (w_status w)
    (w_responseStatus w) (w_size w) v (w_downstream w) (w_outer w) (w_wroteHeader w) (w_wrote1xx w) (w_streamed w)
    (w_suppressBody w) (w_stream w) (w_captureErr w) (w_downstreamErr w) (w_encode w) (w_held w) (w_events w) (w_oracle w).
Definition updOuter (w : capture) (v : HttpHeader) : capture :=
  Capture
    (w_limit w) (w_reserved w) (w_rejectedSize w) (w_declaredSize w) (w_discarded w) (w_header w) (w_status w)
    (w_responseStatus w) (w_size w) (w_file w) (w_downstream w) v (w_wroteHeader w) (w_wrote1xx w) (w_streamed w)
    (w_suppressBody w) (w_stream w) (w_captureErr w) (w_downstreamErr w) (w_encode w) (w_held w) (w_events w) (w_oracle w).
Definition updWroteHeader (w : capture) (v : bool) : capture :=
  Capture
    (w_limit w) (w_reserved w) (w_rejectedSize w) (w_declaredSize w) (w_discarded w) (w_header w) (w_status w)
    (w_responseStatus w) (w_size w) (w_file w) (w_downstream w) (w_outer w) v (w_wrote1xx w) (w_streamed w) (w_suppressBody
    w) (w_stream w) (w_captureErr w) (w_downstreamErr w) (w_encode w) (w_held w) (w_events w) (w_oracle w).
Definition updWrote1xx (w : capture) (v : bool) : capture :=
  Capture
    (w_limit w) (w_reserved w) (w_rejectedSize w) (w_declaredSize w) (w_discarded w) (w_header w) (w_status w)
    (w_responseStatus w) (w_size w) (w_file w) (w_downstream w) (w_outer w) (w_wroteHeader w) v (w_streamed w)
    (w_suppressBody w) (w_stream w) (w_captureErr w) (w_downstreamErr w) (w_encode w) (w_held w) (w_events w) (w_oracle w).
Definition updStreamed (w : capture) (v : bool) : capture :=
  Capture
    (w_limit w) (w_reserved w) (w_rejectedSize w) (w_declaredSize w) (w_discarded w) (w_header w) (w_status w)
    (w_responseStatus w) (w_size w) (w_file w) (w_downstream w) (w_outer w) (w_wroteHeader w) (w_wrote1xx w) v
    (w_suppressBody w) (w_stream w) (w_captureErr w) (w_downstreamErr w) (w_encode w) (w_held w) (w_events w) (w_oracle w).
Definition updSuppressBody (w : capture) (v : bool) : capture :=
  Capture
    (w_limit w) (w_reserved w) (w_rejectedSize w) (w_declaredSize w) (w_discarded w) (w_header w) (w_status w)
    (w_responseStatus w) (w_size w) (w_file w) (w_downstream w) (w_outer w) (w_wroteHeader w) (w_wrote1xx w) (w_streamed w) v
    (w_stream w) (w_captureErr w) (w_downstreamErr w) (w_encode w) (w_held w) (w_events w) (w_oracle w).
Definition updCaptureErr (w : capture) (v : option captureError) : capture :=
  Capture
    (w_limit w) (w_reserved w) (w_rejectedSize w) (w_declaredSize w) (w_discarded w) (w_header w) (w_status w)
    (w_responseStatus w) (w_size w) (w_file w) (w_downstream w) (w_outer w) (w_wroteHeader w) (w_wrote1xx w) (w_streamed w)
    (w_suppressBody w) (w_stream w) v (w_downstreamErr w) (w_encode w) (w_held w) (w_events w) (w_oracle w).
Definition updDownstreamErr (w : capture) (v : bool) : capture :=
  Capture
    (w_limit w) (w_reserved w) (w_rejectedSize w) (w_declaredSize w) (w_discarded w) (w_header w) (w_status w)
    (w_responseStatus w) (w_size w) (w_file w) (w_downstream w) (w_outer w) (w_wroteHeader w) (w_wrote1xx w) (w_streamed w)
    (w_suppressBody w) (w_stream w) (w_captureErr w) v (w_encode w) (w_held w) (w_events w) (w_oracle w).
Definition updEncode (w : capture) (v : option encoder) : capture :=
  Capture
    (w_limit w) (w_reserved w) (w_rejectedSize w) (w_declaredSize w) (w_discarded w) (w_header w) (w_status w)
    (w_responseStatus w) (w_size w) (w_file w) (w_downstream w) (w_outer w) (w_wroteHeader w) (w_wrote1xx w) (w_streamed w)
    (w_suppressBody w) (w_stream w) (w_captureErr w) (w_downstreamErr w) v (w_held w) (w_events w) (w_oracle w).
Definition updHeld (w : capture) (v : Z) : capture :=
  Capture
    (w_limit w) (w_reserved w) (w_rejectedSize w) (w_declaredSize w) (w_discarded w) (w_header w) (w_status w)
    (w_responseStatus w) (w_size w) (w_file w) (w_downstream w) (w_outer w) (w_wroteHeader w) (w_wrote1xx w) (w_streamed w)
    (w_suppressBody w) (w_stream w) (w_captureErr w) (w_downstreamErr w) (w_encode w) v (w_events w) (w_oracle w).
Definition updEvents (w : capture) (v : list event) : capture :=
  Capture
    (w_limit w) (w_reserved w) (w_rejectedSize w) (w_declaredSize w) (w_discarded w) (w_header w) (w_status w)
    (w_responseStatus w) (w_size w) (w_file w) (w_downstream w) (w_outer w) (w_wroteHeader w) (w_wrote1xx w) (w_streamed w)
    (w_suppressBody w) (w_stream w) (w_captureErr w) (w_downstreamErr w) (w_encode w) (w_held w) v (w_oracle w).
Definition updOracle (w : capture) (v : oracle) : capture :=
  Capture
    (w_limit w) (w_reserved w) (w_rejectedSize w) (w_declaredSize w) (w_discarded w) (w_header w) (w_status w)
    (w_responseStatus w) (w_size w) (w_file w) (w_downstream w) (w_outer w) (w_wroteHeader w) (w_wrote1xx w) (w_streamed w)
    (w_suppressBody w) (w_stream w) (w_captureErr w) (w_downstreamErr w) (w_encode w) (w_held w) (w_events w) v.

Definition pop {A} (l : list A) (d : A) : A * list A := match l with [] => (d, []) | x :: l => (x, l) end.
Definition emit (w : capture) (e : event) : capture := updEvents w (w_events w ++ [e]).
(** A write to the client; its error is kept. *)
Definition clientWrite (w : capture) (bytes : list byte) : capture :=
  let o := w_oracle w in
  let '(fails, rest) := pop (o_client o) false in
  let w := emit (updOracle w (Oracle (o_reserve o) (o_file o) (o_queue o) rest (o_seek o))) (Body bytes) in
  if fails then updDownstreamErr w true else w.
Definition isStreamed (w : capture) : bool := w_streamed w.
Definition statusOf (w : capture) : Z := if w_status w =? 0 then 200 else w_status w.

(** ** Space *)

Definition captureNeeds (total : Z) : Z := (2 * total + 8191) / 4096 * 4096.
Definition reserveCapture (w : capture) (total : Z) : capture * bool :=
  if (max_uint64 - 8192) / 2 <? total then (w, false)
  else
    let needed := captureNeeds total in
    if needed <=? w_reserved w then (w, true)
    else
      let delta := needed - w_reserved w in
      let o := w_oracle w in
      let '(granted, rest) := pop (o_reserve o) false in
      let w := updOracle w (Oracle rest (o_file o) (o_queue o) (o_client o) (o_seek o)) in
      if granted then (updReserved (updHeld w (w_held w + delta)) (w_reserved w + delta), true) else (w, false).
Definition discardCapture (w : capture) : capture :=
  updReserved (updHeld (updFile (updDiscarded w true) None) (w_held w - Z.min (w_held w) (w_reserved w))) 0.

(** [tryWrite] of the session, and [drop]. *)
Definition encodeDrop (e : encoder) : encoder := Encoder (en_put e) (en_sent e) true.
Definition encodeWrite (w : capture) (e : encoder) (value : list byte) : capture :=
  if bool_decide (value = []) || en_dropped e then w
  else
    let o := w_oracle w in
    let '(full, rest) := pop (o_queue o) false in
    let w := updOracle w (Oracle (o_reserve o) (o_file o) rest (o_client o) (o_seek o)) in
    updEncode w (Some (if full then encodeDrop e else Encoder (en_put e) (en_sent e ++ value) false)).

Section Capture.
Variables (ToLower sha256hex : string → string) (ParseTime : string → option Z) (DumpResponse : Z → HttpHeader → Z → list byte).
(** The handler, the client's request, and the keys of the request. *)
Variables (h : Handler) (clientRequest : request) (originMethod baseRaw baseKey : string).

(** [configureCapture]: the limit and the header of a bypassed response. *)
Definition defaultCaptureLimit : Z := 64 * 2 ^ 20.
Definition captureLimit : Z := if h_MaxBodyBytes h =? 0 then defaultCaptureLimit else h_MaxBodyBytes h.
Definition bypassHeader (header : HttpHeader) (status : Z) : HttpHeader :=
  setResultHeaders ToLower sha256hex h (prepareResponse ToLower h header status) "BYPASS" baseRaw 0.
Definition newCapturedResponse (downstream stream : bool) (outer : HttpHeader) (o : oracle) : capture :=
  Capture captureLimit 0 0 0 false ∅ 0 0 0 (Some []) downstream outer false false false false stream None false None 0 [] o.

Definition withoutLength (header : HttpHeader) : HttpHeader := delHeader (delHeader header "Content-Length") "Content-Range".
Definition hasDeclaredTrailer (header : HttpHeader) : bool :=
  negb (bool_decide (headerGet header "Trailer" = "")) || existsb (λ kv, String.prefix "Trailer:" kv.1) (map_to_list header).

(** The object a response is stored as. *)
Definition storedPut (header : HttpHeader) (status size : Z) (varied : HttpHeader) : put :=
  let '(head, contentLength) := serializedHeader status (cacheStorageHeader h header) size (rq_Method clientRequest) in
  let bytes := DumpResponse status head contentLength in
  Put baseKey (storageKey sha256hex h (cacheKey ToLower h clientRequest (Some varied))) status head bytes (zlen bytes + size)
    (surrogateGroups header (h_SurrogateKeyHeader h)) varied (headerGet header "Etag") (ttl h status) (purgeKey ToLower clientRequest).

Definition startEncode (w : capture) (header : HttpHeader) (status size : Z) (varied : HttpHeader) : capture :=
  let p := storedPut header status size varied in
  let '(w, reserved) := if (0 <? w_limit w) && (w_limit w <? size) then (w, false) else reserveCapture w (pu_size p) in
  if negb reserved then discardCapture (updHeader w (bypassHeader header status))
  else updEncode w (Some (Encoder p [] false)).

(** The client's preconditions against a response. *)
Definition conditionalStatus (status : Z) (header : HttpHeader) : Z := Status ParseTime (Some clientRequest) (Some (status, header)).

(** The function [fetchAndServe] gives to [enableStreaming]. *)
Definition prepareStream (w : capture) (status : Z) : capture :=
  let header := prepareResponse ToLower h (w_header w) status in
  let size := declaredResponseSize header in
  let varied := variedHeaders h clientRequest header in
  let cacheable := cacheable h status header size && bool_decide (is_Some varied) in
  let header := if cacheable then setResultHeaders ToLower sha256hex h header "MISS" baseRaw (ttl h status)
                else setResultHeaders ToLower sha256hex h header "BYPASS" baseRaw 0 in
  let w := updHeader w header in
  let conditional := conditionalStatus status header in
  if negb (conditional =? 0) then discardCapture (updHeader (updSuppressBody (updResponseStatus w conditional) true) (withoutLength header))
  else if cacheable && negb (bool_decide (originMethod = "HEAD")) && negb (status =? 204) && (0 <? size) && negb (hasDeclaredTrailer header)
  then startEncode w header status size (default ∅ varied)
  else if negb cacheable then discardCapture w else w.

(** ** The writer *)

Definition forwardInformational (w : capture) (status : Z) : capture :=
  if negb (w_downstream w) then w
  else updWrote1xx (updOuter (emit w (Informational status (w_header w ∪ w_outer w))) ∅) true.
Definition WriteHeader (w : capture) (status : Z) : capture :=
  if w_wroteHeader w then w
  else if (100 <=? status) && (status <? 200) && negb (status =? 101) then forwardInformational w status
  else
    let w := updDeclaredSize (updStatus (updWroteHeader w true) status) (declaredResponseSize (w_header w)) in
    if w_stream w && w_downstream w then
      let w := prepareStream w status in
      updStreamed (emit w (Respond (if w_responseStatus w =? 0 then status else w_responseStatus w) (w_header w))) true
    else w.

(** [stopCapture]: the writer, and the error it returns. *)
Definition stopCapture (w : capture) : capture * option captureError :=
  if w_streamed w then (discardCapture w, None)
  else if negb (w_downstream w) then (updCaptureErr w (Some ErrCaptureLimit), Some ErrCaptureLimit)
  else
    let w := updHeader w (bypassHeader (w_header w) (statusOf w)) in
    let conditional := conditionalStatus (statusOf w) (w_header w) in
    let status := if conditional =? 0 then statusOf w else conditional in
    let w := if conditional =? 0 then w else updHeader (updSuppressBody (updResponseStatus w conditional) true) (withoutLength (w_header w)) in
    let w := updStreamed (emit w (Respond status (w_header w))) true in
    if w_suppressBody w then (discardCapture w, None)
    else if negb (o_seek (w_oracle w)) then (w, Some ErrFile)
    else (discardCapture (clientWrite w (default [] (w_file w))), None).

(** A write to the spool. *)
Definition spoolWrite (w : capture) (value : list byte) : capture * option captureError :=
  let o := w_oracle w in
  let '(fault, rest) := pop (o_file o) None in
  let w := updOracle w (Oracle (o_reserve o) rest (o_queue o) (o_client o) (o_seek o)) in
  let written := match fault with Some n => take n value | None => value end in
  let w := updSize (updFile w ((λ spool, spool ++ written) <$> w_file w)) (w_size w + zlen written) in
  match fault with Some _ => (updCaptureErr w (Some ErrFile), Some ErrFile) | None => (w, None) end.
(** [Write] before the client is served: to the encoder, to the spool, or
    nowhere; with the error that ends it. *)
Definition captureWrite (w : capture) (value : list byte) : capture * option captureError :=
  let len := zlen value in
  let total := w_size w + len in
  match w_encode w with
  | Some e =>
      let w :=
        if ((0 <? w_limit w) && (w_limit w <? total)) || (w_declaredSize w <? total) then updEncode w (Some (encodeDrop e))
        else encodeWrite w e value in
      (updSize w total, None)
  | None =>
      if w_discarded w then (updSize w total, None)
      else
        let '(w, fits) :=
          if (0 <? w_limit w) && ((w_limit w <? total) || (w_limit w <? w_declaredSize w)) then (w, false) else reserveCapture w total in
        let '(w, stopped) := if fits then (w, None) else stopCapture (updRejectedSize w (Z.max total (w_declaredSize w))) in
        match stopped with
        | Some e => (w, Some e)
        | None =>
            if w_discarded w then (updSize w total, None)
            else
              let '(w, err) := spoolWrite w value in
              match err with Some e => if w_streamed w then (w, None) else (w, Some e) | None => (w, None) end
        end
  end.
Definition Write (w : capture) (value : list byte) : capture * option captureError :=
  let w := if w_wroteHeader w then w else WriteHeader w 200 in
  let '(w, err) := captureWrite w value in
  match err with
  | Some e => (w, Some e)
  | None => (if w_streamed w && negb (w_suppressBody w) && w_downstream w then clientWrite w value else w, None)
  end.
Definition Flush (w : capture) : capture := if w_wroteHeader w then w else WriteHeader w 200.

(** What the origin does with the writer: it changes the header, writes a status,
    bytes, or flushes. *)
Inductive action := SetHeaders (header : HttpHeader) | SendHeader (status : Z) | Send (value : list byte) | SendFlush.
Definition perform (w : capture) (a : action) : capture :=
  match a with
  | SetHeaders header => updHeader w header
  | SendHeader status => WriteHeader w status
  | Send value => (Write w value).1
  | SendFlush => Flush w
  end.
Definition performs (w : capture) (actions : list action) : capture := foldl perform w actions.

(** ** The end of a response *)

Definition trailerNames (header : HttpHeader) : list string := filter (λ name, name ≠ "") (trimSpaces <$> mjoin (splitComma <$> headerValues header "Trailer")).
Definition trailersOf (header : HttpHeader) : HttpHeader :=
  foldl (λ (t : HttpHeader) name, match headerValues header (CanonicalHeaderKey name) with
                                  | [] => t | values => <[CanonicalHeaderKey name := values]> t end)
    (filter (λ kv : string * list string, String.prefix "Trailer:" kv.1 = true) header) (trailerNames header).
Definition forwardTrailers (w : capture) : capture :=
  if negb (w_streamed w) || negb (w_downstream w) then w else emit w (Trailers (trailersOf (w_header w))).
(** [WriteResponse]: the writer, and whether it fails. *)
Definition WriteResponse (w : capture) : capture * bool :=
  if w_streamed w then (w, w_downstreamErr w)
  else
    let status := conditionalStatus (statusOf w) (w_header w) in
    if negb (status =? 0) then
      let w := updHeader w (withoutLength (w_header w)) in (emit w (Respond status (w_header w)), false)
    else match w_file w with
         | Some spool => if o_seek (w_oracle w) then let w := clientWrite (emit w (Respond (statusOf w) (w_header w))) spool in (w, w_downstreamErr w)
                         else (w, true)
         | None => (w, true)
         end.
(** [abandonEncode], [finishEncode] and [Close]; the result of the store's
    [PutReader] is an argument. *)
Definition abandonEncode (w : capture) : capture := updEncode w None.
Definition finishEncode (w : capture) : capture * option (put * list byte) :=
  match w_encode w with
  | Some e => (updEncode w None, if en_dropped e then None else Some (en_put e, en_sent e))
  | None => (w, None)
  end.
(** [Close], with the state of the encoder if there was one: the writer, and what
    is released only when an encoder that is still busy ends. *)
Definition Close (encodeDone : option bool) (w : capture) : capture * Z :=
  let w := abandonEncode w in
  match encodeDone with
  | Some false => (discardCapture (updReserved w 0), w_reserved w)
  | _ => (discardCapture w, 0)
  end.

End Capture.
