(* ===== verification/CaptureTheorems.v ===== *)
(** * What the capture of a response guarantees

    Whatever the origin writes, and whatever reservations, queues and clients
    answer: the client sees informational responses, then one final response,
    then exactly the bytes of the origin, whether they were spooled, streamed,
    or first spooled and then streamed; the spool and the encoder hold those
    bytes too; and the space they take is reserved before it is used and
    released with the response. *)
From Stdlib Require Import ZArith NArith Lia Ascii String.
From Stdlib.Strings Require Import Byte.
From stdpp Require Import base numbers strings gmap option list.
From S2P Require Import Prelude Http HttpConditional CacheRange CacheRules CaptureResponse.

Local Open Scope Z_scope.

(** ** Space *)

Lemma needs_enough total : 0 ≤ total → 2 * total + 4096 ≤ captureNeeds total ∧ captureNeeds total < 2 * total + 8192.
Proof.
  intros H. unfold captureNeeds. pose proof (Z.div_mod (2 * total + 8191) 4096 ltac:(lia)). pose proof (Z.mod_pos_bound (2 * total + 8191) 4096 ltac:(lia)). lia.
Qed.
Lemma needs_no_overflow total : total ≤ (max_uint64 - 8192) / 2 → 0 ≤ total → 2 * total + 8191 ≤ max_uint64.
Proof. intros H H0. pose proof (Z.mul_div_le (max_uint64 - 8192) 2 ltac:(lia)). lia. Qed.

(** The fields a step of the bookkeeping leaves alone. *)
Record sameFrame (w w' : capture) : Prop := {
  fr_events : w_events w' = w_events w; fr_err : w_captureErr w' = w_captureErr w; fr_size : w_size w' = w_size w;
  fr_down : w_downstream w' = w_downstream w; fr_limit : w_limit w' = w_limit w; fr_seek : o_seek (w_oracle w') = o_seek (w_oracle w);
  fr_streamed : w_streamed w' = w_streamed w; fr_wrote : w_wroteHeader w' = w_wroteHeader w; fr_declared : w_declaredSize w' = w_declaredSize w;
  fr_stream : w_stream w' = w_stream w;
}.
#[local] Instance sameFrame_refl : Reflexive sameFrame.
Proof. by split. Qed.
#[local] Instance sameFrame_trans : Transitive sameFrame.
Proof. intros a b c [] []. split; congruence. Qed.

(** Close the pieces of a specification over an updated record. *)
Ltac frame := cbn; split_and!; first [done | lia | by split | split; cbn; lia | intros; lia].

(** Space is held exactly as the writer counts it. *)
Definition spaceInv (w : capture) : Prop := w_held w = w_reserved w ∧ 0 ≤ w_reserved w.

Lemma reserve_spec w total : 0 ≤ total → spaceInv w →
  let '(w', ok) := reserveCapture w total in
  sameFrame w w' ∧ spaceInv w' ∧ w_file w' = w_file w ∧ w_encode w' = w_encode w ∧ w_discarded w' = w_discarded w ∧ w_suppressBody w' = w_suppressBody w
  ∧ w_header w' = w_header w ∧ w_status w' = w_status w ∧ w_reserved w ≤ w_reserved w'
  ∧ (ok = true → captureNeeds total ≤ w_reserved w' ∧ 2 * total + 8191 ≤ max_uint64).
Proof.
  intros Ht [Hh Hr]. unfold reserveCapture. destruct (_ <? total) eqn:E; [split_and!; done|]. b2p. pose proof (needs_no_overflow total E Ht).
  destruct (_ <=? w_reserved w) eqn:E2; b2p; [split_and!; try done; split; done|].
  destruct (pop _ false) as [[] rest]; [|split_and!; try done; by split].
  unfold updReserved, updHeld, updOracle. frame.
Qed.
Lemma discard_spec w : spaceInv w → let w' := discardCapture w in
  sameFrame w w' ∧ spaceInv w' ∧ w_file w' = None ∧ w_discarded w' = true ∧ w_encode w' = w_encode w ∧ w_suppressBody w' = w_suppressBody w
  ∧ w_reserved w' = 0 ∧ w_held w' = 0 ∧ w_header w' = w_header w ∧ w_status w' = w_status w ∧ w_responseStatus w' = w_responseStatus w.
Proof.
  intros [Hh Hr]. unfold discardCapture, updReserved, updHeld, updFile, updDiscarded. frame.
Qed.

(** ** The invariant *)

Definition isInfo (e : event) : Prop := match e with Informational _ _ => True | _ => False end.
Definition isBody (e : event) : Prop := match e with Body _ => True | _ => False end.
Definition bodyBytes (events : list event) : list byte := concat (map (λ e, match e with Body b => b | _ => [] end) events).
Lemma bodyBytes_app a b : bodyBytes (a ++ b) = bodyBytes a ++ bodyBytes b.
Proof. unfold bodyBytes. by rewrite map_app, concat_app. Qed.

(** One response: informational ones first, then the final one and its body; a
    response is [quiet] when a precondition of the client ended it. *)
Definition preconditionEnds (status : Z) : Prop := status = 304 ∨ status = 412.
Definition oneResponse (events : list event) (streamed quiet : bool) (bytes : list byte) : Prop :=
  ∃ infos, Forall isInfo infos ∧
  if streamed then ∃ status header tail, events = infos ++ Respond status header :: tail ∧ Forall isBody tail
                     ∧ bodyBytes tail = (if quiet then [] else bytes) ∧ (quiet = true → preconditionEnds status)
  else events = infos.
(** The origin's bytes reached everyone: no write failed. *)
Definition intact (w : capture) : Prop := w_captureErr w = None ∧ o_seek (w_oracle w) = true.
Definition roomFor (w : capture) (n : Z) : Prop := n = 0 ∨ (captureNeeds n ≤ w_reserved w ∧ (0 < w_limit w → n ≤ w_limit w)).

(** [delivered] are the bytes handed to the client when it is served, [sent] those
    of the origin. *)
Record captureInv (w : capture) (delivered sent : list byte) : Prop := {
  ci_space : spaceInv w;
  ci_discarded : w_discarded w = true ↔ w_file w = None;
  ci_released : w_file w = None → w_reserved w = 0 ∧ w_streamed w = true ∧ w_encode w = None;
  ci_fresh : w_wroteHeader w = false → delivered = [] ∧ sent = [] ∧ w_streamed w = false ∧ w_file w = Some [] ∧ w_encode w = None ∧ w_suppressBody w = false ∧ w_size w = 0;
  ci_down : w_streamed w = true → w_downstream w = true;
  ci_quiet : w_streamed w = false → w_suppressBody w = false;
  ci_events : intact w → oneResponse (w_events w) (w_streamed w) (w_suppressBody w) delivered;
  ci_spool : intact w → ∀ spool, w_file w = Some spool → w_encode w = None → spool = sent;
  ci_room : ∀ spool, w_file w = Some spool → w_encode w = None → w_size w = zlen spool ∧ roomFor w (zlen spool);
  ci_encode : ∀ e, w_encode w = Some e → w_streamed w = true ∧ w_file w = Some [] ∧ w_suppressBody w = false ∧ 2 * pu_size (en_put e) + 4096 ≤ w_reserved w
    ∧ w_size w = zlen sent ∧ (en_dropped e = false → en_sent e = sent ∧ zlen sent ≤ w_declaredSize w ∧ (0 < w_limit w → zlen sent ≤ w_limit w));
}.

Section Capture.
Variables (ToLower sha256hex : string → string) (ParseTime : string → option Z) (DumpResponse : Z → HttpHeader → Z → list byte).
Variables (h : Handler) (clientRequest : request) (originMethod baseRaw baseKey : string).
Notation prepareStream := (prepareStream ToLower sha256hex ParseTime DumpResponse h clientRequest originMethod baseRaw baseKey).
Notation WriteHeader := (WriteHeader ToLower sha256hex ParseTime DumpResponse h clientRequest originMethod baseRaw baseKey).
Notation Write := (Write ToLower sha256hex ParseTime DumpResponse h clientRequest originMethod baseRaw baseKey).
Notation stopCapture := (stopCapture ToLower sha256hex ParseTime h clientRequest baseRaw).
Notation captureWrite := (captureWrite ToLower sha256hex ParseTime h clientRequest baseRaw).
Notation perform := (perform ToLower sha256hex ParseTime DumpResponse h clientRequest originMethod baseRaw baseKey).
Notation performs := (performs ToLower sha256hex ParseTime DumpResponse h clientRequest originMethod baseRaw baseKey).
Notation WriteResponse := (WriteResponse ParseTime clientRequest).
Notation startEncode := (startEncode ToLower sha256hex DumpResponse h clientRequest baseRaw baseKey).
Notation storedPut := (storedPut ToLower sha256hex DumpResponse h clientRequest baseKey).

(** What preparing a streamed response does: nothing, an encoding session, or
    no capture at all. *)
Record prepared (w w' : capture) : Prop := {
  pr_frame : sameFrame w w'; pr_space : spaceInv w'; 
  pr_cases : (w_file w' = None ∧ w_discarded w' = true ∧ w_encode w' = None ∧ w_reserved w' = 0)
    ∨ (w_file w' = w_file w ∧ w_discarded w' = w_discarded w ∧ w_suppressBody w' = w_suppressBody w ∧ w_encode w' = w_encode w ∧ w_reserved w' = w_reserved w)
    ∨ (w_file w' = w_file w ∧ w_discarded w' = w_discarded w ∧ w_suppressBody w' = w_suppressBody w
       ∧ ∃ header status size varied, w_encode w' = Some (Encoder (storedPut header status size varied) [] false)
           ∧ 2 * pu_size (storedPut header status size varied) + 4096 ≤ w_reserved w');
}.
Lemma put_size header status size varied : 0 ≤ size → 0 ≤ pu_size (storedPut header status size varied).
Proof. intros H. unfold storedPut. destruct (serializedHeader _ _ _ _) as [head cl]. cbn. lia. Qed.
Lemma start_prepared w header status size varied : spaceInv w → w_encode w = None → 0 ≤ size → prepared w (startEncode w header status size varied).
Proof.
  intros Hs He Hz. unfold startEncode. set (p := storedPut header status size varied).
  assert (0 ≤ pu_size p) as Hp by (by apply put_size).
  destruct ((0 <? w_limit w) && (w_limit w <? size)).
  - cbn [negb]. destruct (discard_spec (updHeader w (bypassHeader ToLower sha256hex h baseRaw header status)) Hs) as (H1 & H2 & H3 & H4 & H5 & _ & H7 & _).
    split; [|done|left; rewrite H5; done]. etransitivity; [|exact H1]. by split.
  - pose proof (reserve_spec w (pu_size p) Hp Hs) as Hr. destruct (reserveCapture w (pu_size p)) as [w1 ok].
    destruct Hr as (F & S1 & Hf & Hen & Hd & Hsup & _ & _ & _ & Hok). destruct ok; cbn [negb].
    + destruct (Hok eq_refl) as [Hn _]. split; [|exact S1|].
      * etransitivity; [exact F|]. by split.
      * right. right. cbn. split_and!; try done. eexists _, _, _, _. split; [done|]. pose proof (needs_enough (pu_size p) Hp). unfold p in *. lia.
    + destruct (discard_spec (updHeader w1 (bypassHeader ToLower sha256hex h baseRaw header status)) S1) as (H1 & H2 & H3 & H4 & H5 & _ & H7 & _).
      split; [|done|]. { etransitivity; [exact F|]. etransitivity; [|exact H1]. by split. }
      left. rewrite H5. cbn. rewrite Hen. done.
Qed.
Lemma declared_nonneg header : 0 ≤ declaredResponseSize header.
Proof.
  unfold declaredResponseSize. assert (∀ s, 0 ≤ (parseUint s).1) as Hp.
  { assert (∀ s acc, 0 ≤ (parseUintFrom acc s).1) as Hf.
    { induction s as [|c s IH]; intros acc; cbn; [lia|]. destruct (digitValue c); [|done]. destruct (_ <? _); [apply IH|done]. }
    intros [|c s]; [done|]. apply Hf. }
  specialize (Hp (trimSpaces (headerGet header "Content-Length"))). destruct (parseUint _) as [n ok]. by destruct (_ || _).
Qed.
Lemma prepare_spec w status : spaceInv w → w_encode w = None → prepared w (prepareStream w status).
Proof.
  intros Hs He. unfold prepareStream. set (header := prepareResponse ToLower h (w_header w) status). set (c := cacheable h status header _ && _).
  set (header' := if c then _ else _). clearbody header'. destruct (negb (_ =? 0)).
  { set (w1 := updHeader (updSuppressBody _ _) _). assert (sameFrame w w1 ∧ spaceInv w1 ∧ w_encode w1 = None) as (F1 & S1 & E1) by (split_and!; [by split|exact Hs|exact He]).
    clearbody w1. destruct (discard_spec w1 S1) as (F2 & S2 & D3 & D4 & D5 & _ & D7 & _). split; [by transitivity w1|done|]. left. by rewrite D5. }
  destruct (c && _ && _ && _ && _).
  - pose proof (start_prepared (updHeader w header') header' status (declaredResponseSize header) (default ∅ (variedHeaders h clientRequest header)) Hs He (declared_nonneg _)) as [F S1 C].
    split; [|done|exact C]. etransitivity; [|exact F]. by split.
  - destruct (negb c).
    + destruct (discard_spec (updHeader w header') Hs) as (H1 & H2 & H3 & H4 & H5 & _ & H7 & _). split; [|done|left; rewrite H5; done].
      etransitivity; [|exact H1]. by split.
    + split; [by split|done|]. right. left. done.
Qed.


(** ** Steps of the writer *)

Lemma one_response_info events status header quiet bytes : oneResponse events false quiet bytes → oneResponse (events ++ [Informational status header]) false quiet bytes.
Proof. intros (infos & Hi & ->). exists (infos ++ [Informational status header]). split; [|done]. apply Forall_app. by repeat constructor. Qed.
Lemma one_response_start events status header quiet quiet' bytes : oneResponse events false quiet' bytes → (quiet = true → preconditionEnds status) →
  oneResponse (events ++ [Respond status header]) true quiet [].
Proof. intros (infos & Hi & ->) Hq. exists infos. split; [done|]. exists status, header, []. by destruct quiet. Qed.
Lemma one_response_body events bytes more : oneResponse events true false bytes → oneResponse (events ++ [Body more]) true false (bytes ++ more).
Proof.
  intros (infos & Hi & status & header & tail & -> & Ht & Hb & _). exists infos. split; [done|]. exists status, header, (tail ++ [Body more]).
  rewrite <- app_assoc. split_and!; [done|apply Forall_app; by repeat constructor| |done]. rewrite bodyBytes_app. cbn. by rewrite Hb, app_nil_r.
Qed.
(** A precondition ends a response with 304 or 412. *)
Lemma conditional_values status header : let c := conditionalStatus ParseTime clientRequest status header in c = 0 ∨ preconditionEnds c.
Proof.
  unfold conditionalStatus, preconditionEnds. cbn [Status].
  repeat match goal with |- context [if ?b then _ else _] => destruct b | |- context [match ?o with Some _ => _ | None => _ end] => destruct o end; auto.
Qed.
Lemma start_quiet w header status size varied : spaceInv w → 0 ≤ size → w_suppressBody (startEncode w header status size varied) = w_suppressBody w.
Proof.
  intros Hs Hz. unfold startEncode. set (p := storedPut header status size varied). assert (0 ≤ pu_size p) as Hp by (by apply put_size). clearbody p.
  destruct ((0 <? w_limit w) && (w_limit w <? size)); [done|].
  pose proof (reserve_spec w (pu_size p) Hp Hs) as Hr. destruct (reserveCapture w (pu_size p)) as [w1 ok]. destruct Hr as (_ & _ & _ & _ & _ & Hsup & _).
  by destruct ok.
Qed.
Lemma prepare_quiet w status : spaceInv w → w_suppressBody w = false → w_suppressBody (prepareStream w status) = true →
  preconditionEnds (w_responseStatus (prepareStream w status)).
Proof.
  intros Hs Hsu. unfold prepareStream. set (header := prepareResponse ToLower h (w_header w) status). set (c := cacheable h status header _ && _).
  set (header' := if c then _ else _). clearbody header'. pose proof (conditional_values status header') as Hv. cbn zeta in Hv.
  destruct (conditionalStatus ParseTime clientRequest status header' =? 0) eqn:E; cbn [negb].
  - destruct (c && _ && _ && _ && _).
    + rewrite start_quiet; [cbn; congruence|done|apply declared_nonneg].
    + destruct (negb c); cbn; congruence.
  - b2p. intros _. cbn. by destruct Hv.
Qed.

(** A prepared response, once its header is sent. *)
Lemma sent_header_inv w w2 status : captureInv w [] [] → w_wroteHeader w2 = true → w_streamed w = false → w_file w = Some [] → w_encode w = None →
  w_suppressBody w = false → w_size w = 0 → 0 ≤ w_declaredSize w2 → w_downstream w2 = true → (w_suppressBody w2 = true → preconditionEnds status) →
  prepared w w2 → captureInv (updStreamed (emit w2 (Respond status (w_header w2))) true) [] [].
Proof.
  intros Hw Hwr Hst Hf He Hsu Hsz Hdec Hdn Hq [F S C]. pose proof (ci_discarded _ _ _ Hw) as Hd. rewrite Hf in Hd.
  assert (w_discarded w = false) as Hd' by (destruct (w_discarded w); [by destruct Hd as [Hd _]; specialize (Hd eq_refl)|done]).
  split; cbn [updStreamed emit updEvents w_streamed w_events w_file w_discarded w_encode w_suppressBody w_reserved w_size w_limit w_declaredSize w_downstream w_wroteHeader w_oracle w_captureErr].
  - exact S.
  - destruct C as [(C1 & C2 & _)|[(C1 & C2 & _)|(C1 & C2 & _)]]; rewrite C1, C2, ?Hf, ?Hd'; done.
  - destruct C as [(C1 & C2 & C3 & C4)|[(C1 & _)|(C1 & _)]]; rewrite C1, ?Hf; done.
  - congruence.
  - done.
  - done.
  - intros [Hi1 Hi2]. cbn in Hi1, Hi2. rewrite (fr_err _ _ F) in Hi1. rewrite (fr_seek _ _ F) in Hi2. pose proof (ci_events _ _ _ Hw (conj Hi1 Hi2)) as Ho.
    rewrite Hst in Ho. rewrite (fr_events _ _ F). by eapply one_response_start.
  - intros _ spool. destruct C as [(C1 & _)|[(C1 & _)|(C1 & _ & _ & x & y & z & t & -> & _)]]; rewrite C1, ?Hf; [done|by intros [= <-]|done].
  - intros spool. rewrite (fr_size _ _ F), Hsz. destruct C as [(C1 & _)|[(C1 & _)|(C1 & _ & _ & x & y & z & t & -> & _)]]; rewrite C1, ?Hf; [done| |done].
    intros [= <-] _. split; [done|by left].
  - intros e. destruct C as [(_ & _ & -> & _)|[(_ & _ & _ & -> & _)|(C1 & _ & C3 & x & y & z & t & -> & Hn)]]; [done|by rewrite He|]. intros [= <-].
    cbn. rewrite C1, Hf, C3, Hsu, (fr_size _ _ F), Hsz. split_and!; try done. intros _. split_and!; try done. intros; lia.
Qed.
Lemma header_inv w sent status : captureInv w sent sent → captureInv (WriteHeader w status) sent sent.
Proof.
  intros Hw. unfold CaptureResponse.WriteHeader. destruct (w_wroteHeader w) eqn:Hwr; [done|].
  destruct (ci_fresh _ _ _ Hw Hwr) as (_ & -> & Hst & Hf & He & Hsu & Hsz). destruct (_ && _ && _) eqn:Ei.
  { unfold forwardInformational. destruct (negb (w_downstream w)); [done|]. destruct Hw as [A1 A2 A3 A4 A5 Aq A6 A7 A8 A9].
    split; cbn; try done. intros Hi. specialize (A6 Hi). rewrite Hst in A6 |- *. by apply one_response_info. }
  set (w1 := updDeclaredSize _ _).
  assert (captureInv w1 [] [] ∧ w_wroteHeader w1 = true ∧ w_streamed w1 = false ∧ w_file w1 = Some [] ∧ w_encode w1 = None ∧ w_suppressBody w1 = false ∧ w_size w1 = 0
          ∧ 0 ≤ w_declaredSize w1) as (Hw1 & B1 & B2 & B3 & B4 & B5 & B6 & B7).
  { split_and!; try done; [|apply declared_nonneg]. destruct Hw as [A1 A2 A3 A4 A5 Aq A6 A7 A8 A9]. split; cbn; try done. rewrite He. done. }
  clearbody w1. destruct (w_stream w1 && w_downstream w1) eqn:Es; [|done]. apply andb_true_iff in Es as [_ Hdn].
  pose proof (prepare_spec w1 status (ci_space _ _ _ Hw1) B4) as Hp.
  apply (sent_header_inv w1); try done.
  - by rewrite (fr_wrote _ _ (pr_frame _ _ Hp)).
  - by rewrite (fr_declared _ _ (pr_frame _ _ Hp)).
  - by rewrite (fr_down _ _ (pr_frame _ _ Hp)).
  - intros Hq. pose proof (prepare_quiet w1 status (ci_space _ _ _ Hw1) B5 Hq) as [Hv|Hv]; rewrite Hv; [by left|by right].
Qed.
Lemma header_wrote w sent : captureInv w sent sent → w_wroteHeader (if w_wroteHeader w then w else WriteHeader w 200) = true.
Proof.
  intros Hw. destruct (w_wroteHeader w) eqn:E; [done|]. destruct (ci_fresh _ _ _ Hw E) as (_ & _ & _ & _ & He & _).
  unfold CaptureResponse.WriteHeader. rewrite E. cbn [Z.leb Z.ltb Z.compare Pos.compare Pos.compare_cont andb].
  set (w1 := updDeclaredSize _ _). assert (w_wroteHeader w1 = true ∧ w_encode w1 = None ∧ spaceInv w1) as (H1 & H2 & H3) by (split_and!; [done|done|apply (ci_space _ _ _ Hw)]).
  clearbody w1. destruct (w_stream w1 && w_downstream w1); [|done]. cbn [updStreamed emit updEvents w_wroteHeader].
  by rewrite (fr_wrote _ _ (pr_frame _ _ (prepare_spec w1 200 H3 H2))).
Qed.

(** Discarding the spool of a response that is being served. *)
Lemma discard_inv w delivered sent : captureInv w delivered sent → w_wroteHeader w = true → w_streamed w = true → w_encode w = None →
  captureInv (discardCapture w) delivered sent.
Proof.
  intros Hw Hwr Hst He. destruct (discard_spec w (ci_space _ _ _ Hw)) as (F & S & D1 & D2 & D3 & D4 & D5 & _). destruct Hw as [A1 A2 A3 A4 A5 Aq A6 A7 A8 A9].
  split; rewrite ?D1, ?D2, ?D3, ?D4, ?D5, ?(fr_events _ _ F), ?(fr_streamed _ _ F), ?(fr_wrote _ _ F), ?(fr_down _ _ F), ?(fr_size _ _ F); try done.
  - congruence.
  - by rewrite He.
Qed.
(** A write to the client. *)
Lemma client_fields w v : let w' := clientWrite w v in
  w_events w' = w_events w ++ [Body v] ∧ w_captureErr w' = w_captureErr w ∧ w_size w' = w_size w ∧ w_downstream w' = w_downstream w ∧ w_limit w' = w_limit w
  ∧ o_seek (w_oracle w') = o_seek (w_oracle w) ∧ w_streamed w' = w_streamed w ∧ w_wroteHeader w' = w_wroteHeader w ∧ w_declaredSize w' = w_declaredSize w
  ∧ w_file w' = w_file w ∧ w_encode w' = w_encode w ∧ w_discarded w' = w_discarded w ∧ w_suppressBody w' = w_suppressBody w
  ∧ w_reserved w' = w_reserved w ∧ w_held w' = w_held w ∧ w_stream w' = w_stream w.
Proof. unfold clientWrite. destruct (pop _ false) as [[] rest]; cbn; by split_and!. Qed.
Lemma client_inv w v delivered sent : captureInv w delivered sent → w_wroteHeader w = true → w_streamed w = true → w_suppressBody w = false →
  captureInv (clientWrite w v) (delivered ++ v) sent.
Proof.
  intros [A1 A2 A3 A4 A5 Aq A6 A7 A8 A9] Hwr Hst Hsu. destruct (client_fields w v) as (E1 & E2 & E3 & E4 & E5 & E6 & E7 & E8 & E9 & E10 & E11 & E12 & E13 & E14 & E15 & _).
  assert (intact (clientWrite w v) → intact w) as Hi by (unfold intact; by rewrite E2, E6).
  split; unfold spaceInv, roomFor in *; rewrite ?E1, ?E3, ?E4, ?E5, ?E7, ?E8, ?E9, ?E10, ?E11, ?E12, ?E13, ?E14, ?E15; try done.
  - congruence.
  - intros Hx%Hi. specialize (A6 Hx). rewrite Hst, Hsu in *. by apply one_response_body.
  - intros Hx%Hi. by apply A7.
Qed.

(** Giving up the capture: the spooled bytes go to the client, unless they are
    there already. *)
Lemma stop_inv w sent w' err : captureInv w sent sent → w_wroteHeader w = true → w_encode w = None → w_discarded w = false → stopCapture w = (w', err) →
  captureInv w' sent sent ∧ w_wroteHeader w' = true ∧ w_encode w' = None ∧ w_size w' = w_size w ∧ (err = None → w_discarded w' = true)
  ∧ (err ≠ None → ~ intact w').
Proof.
  intros Hw Hwr He Hd Hs. unfold CaptureResponse.stopCapture in Hs. destruct (w_streamed w) eqn:Hst.
  { injection Hs as <- <-. split_and!; try done. by apply discard_inv. }
  destruct (w_downstream w) eqn:Hdn; cbn [negb] in Hs.
  2:{ injection Hs as <- <-. cbn. split_and!; try done; [|by intros _ [? _]]. destruct Hw as [A1 A2 A3 A4 A5 Aq A6 A7 A8 A9]. split; cbn; try done.
      - by intros [? _].
      - by intros [? _]. }
  set (header := bypassHeader _ _ _ _ _ _) in Hs. clearbody header.
  set (conditional := conditionalStatus _ _ _ _) in Hs. assert (conditional = 0 ∨ preconditionEnds conditional) as Hv by apply conditional_values. clearbody conditional.
  set (w1 := if conditional =? 0 then updHeader w header else _) in Hs.
  set (status := if conditional =? 0 then _ else conditional) in Hs.
  assert (w_suppressBody w1 = true → preconditionEnds status) as Hq.
  { unfold w1, status. destruct (conditional =? 0) eqn:E; [cbn; rewrite (ci_quiet _ _ _ Hw Hst); congruence|]. b2p. intros _. by destruct Hv. }
  clearbody status.
  assert (sameFrame w w1 ∧ w_file w1 = w_file w ∧ w_encode w1 = None ∧ w_discarded w1 = w_discarded w ∧ w_reserved w1 = w_reserved w ∧ w_held w1 = w_held w)
    as (F1 & E1 & E2 & E3 & E4 & E5) by (unfold w1; destruct (conditional =? 0); by split_and!).
  clearbody w1. set (w2 := updStreamed (emit w1 (Respond status (w_header w1))) true) in Hs.
  assert (captureInv w2 (if w_suppressBody w2 then sent else []) sent) as Hw2.
  { destruct Hw as [A1 A2 A3 A4 A5 Aq A6 A7 A8 A9]. split; unfold spaceInv, roomFor, intact in *; unfold w2;
      cbn [updStreamed emit updEvents w_streamed w_events w_file w_discarded w_encode w_suppressBody w_reserved w_held w_size w_limit w_declaredSize w_downstream w_wroteHeader w_oracle w_captureErr];
      rewrite ?E1, ?E2, ?E3, ?E4, ?E5, ?(fr_events _ _ F1), ?(fr_wrote _ _ F1), ?(fr_down _ _ F1), ?(fr_size _ _ F1), ?(fr_limit _ _ F1), ?(fr_err _ _ F1), ?(fr_seek _ _ F1); try done.
    - intros Hx. destruct (A3 Hx). done.
    - congruence.
    - intros Hi. specialize (A6 Hi). rewrite Hst in A6. destruct (w_suppressBody w1) eqn:Eq.
      + pose proof (one_response_start _ status (w_header w1) true _ _ A6 (λ _, Hq eq_refl)) as (infos & Hinf & Hx). by exists infos.
      + by eapply one_response_start.
    - intros Hi spool Hx _. by apply A7.
    - intros spool Hx _. by apply A8. }
  assert (w_encode w2 = None ∧ w_wroteHeader w2 = true ∧ w_streamed w2 = true ∧ w_file w2 = w_file w ∧ w_size w2 = w_size w ∧ o_seek (w_oracle w2) = o_seek (w_oracle w)
    ∧ w_captureErr w2 = w_captureErr w) as (G1 & G2 & G3 & G4 & G5 & G6 & G7).
  { unfold w2. cbn. by rewrite (fr_wrote _ _ F1), (fr_size _ _ F1), (fr_seek _ _ F1), (fr_err _ _ F1). }
  clearbody w2. destruct (w_suppressBody w2) eqn:Hsu.
  { injection Hs as <- <-. split_and!; try done. by apply discard_inv. }
  destruct (o_seek (w_oracle w2)) eqn:Hseek; cbn [negb] in Hs.
  - injection Hs as <- <-. pose proof (client_inv w2 (default [] (w_file w2)) [] sent Hw2 G2 G3 Hsu) as Hc. cbn [app] in Hc.
    destruct (client_fields w2 (default [] (w_file w2))) as (_ & K2 & K3 & _ & _ & K6 & K7 & K8 & _ & K10 & K11 & _).
    split_and!; try done.
    + apply discard_inv; try congruence. destruct Hc as [A1 A2 A3 A4 A5 Aq A6 A7 A8 A9]. split; try done.
      * congruence.
      * intros Hi. specialize (A6 Hi). destruct (w_file w2) as [spool|] eqn:Hfile; [|destruct (ci_discarded _ _ _ Hw) as [_ Hx]; rewrite <- G4 in Hx; rewrite (Hx eq_refl) in Hd; done].
        cbn in A6. assert (spool = sent) as -> by (apply A7; [done|congruence|congruence]). done.
    + cbn. by rewrite K8.
    + cbn. by rewrite K11.
    + cbn. by rewrite K3.
  - injection Hs as <- <-. split_and!; try done.
    + destruct Hw2 as [A1 A2 A3 A4 A5 Aq A6 A7 A8 A9]. split; try done; [congruence|]. intros [_ Hx]. congruence.
    + intros _ [_ Hx]. congruence.
Qed.

Lemma needs_mono a b : a ≤ b → captureNeeds a ≤ captureNeeds b.
Proof. intros H. unfold captureNeeds. apply Z.mul_le_mono_nonneg_r; [lia|]. apply Z.div_le_mono; lia. Qed.
(** A capture that failed keeps only its bookkeeping. *)
Lemma broken_inv w d s d' s' : captureInv w d s → ~ intact w → w_wroteHeader w = true → w_encode w = None → captureInv w d' s'.
Proof. intros [A1 A2 A3 A4 A5 Aq A6 A7 A8 A9] Hi Hwr He. split; try done; [congruence|]. intros e Hx. congruence. Qed.
Lemma undelivered_inv w d s d' : captureInv w d s → w_wroteHeader w = true → w_streamed w = false ∨ w_suppressBody w = true → captureInv w d' s.
Proof.
  intros [A1 A2 A3 A4 A5 Aq A6 A7 A8 A9] Hwr Hs. split; try done; [congruence|]. intros Hi. specialize (A6 Hi).
  destruct Hs as [Hs|Hs]; rewrite Hs in *; [by destruct A6 as (infos & ? & ?); exists infos|].
  destruct (w_streamed w); destruct A6 as (infos & Hinf & Hx); by exists infos.
Qed.

(** Without a spool only the size is counted. *)
Lemma counted_inv w d s s' n : captureInv w d s → w_wroteHeader w = true → w_encode w = None → w_discarded w = true → captureInv (updSize w n) d s'.
Proof.
  intros [A1 A2 A3 A4 A5 Aq A6 A7 A8 A9] Hwr He Hd. rewrite Hd in A2. pose proof (proj1 A2 eq_refl) as Hf. destruct (A3 Hf) as (B1 & B2 & _).
  split; unfold spaceInv, roomFor, intact in *; cbn; rewrite ?Hf, ?Hd, ?He; try done. congruence.
Qed.
Lemma spool_inv w sent v w' err spool : captureInv w sent sent → w_wroteHeader w = true → w_encode w = None → w_file w = Some spool →
  captureNeeds (w_size w + zlen v) ≤ w_reserved w → (0 < w_limit w → w_size w + zlen v ≤ w_limit w) → spoolWrite w v = (w', err) →
  captureInv w' sent (sent ++ v) ∧ w_wroteHeader w' = true ∧ w_encode w' = None ∧ (err ≠ None → ~ intact w').
Proof.
  intros Hw Hwr He Hf Hn Hlim Hs. unfold spoolWrite in Hs. destruct (pop (o_file (w_oracle w)) None) as [fault rest].
  set (written := match fault with Some n => take n v | None => v end) in Hs.
  assert (zlen written ≤ zlen v) as Hle by (unfold written; destruct fault; rewrite ?length_take; lia).
  destruct Hw as [A1 A2 A3 A4 A5 Aq A6 A7 A8 A9]. destruct (A8 spool Hf He) as [Hsz _].
  assert (∀ cerr, (fault = None ∨ cerr ≠ None) →
    let w2 := updCaptureErr (updSize (updFile (updOracle w (Oracle (o_reserve (w_oracle w)) rest (o_queue (w_oracle w)) (o_client (w_oracle w)) (o_seek (w_oracle w))))
                ((λ spool, spool ++ written) <$> w_file w)) (w_size w + zlen written)) cerr in
    (cerr = None → w_captureErr w = None) → captureInv w2 sent (sent ++ v)) as Hinv.
  { intros cerr Hfault w2 Hc. split; unfold spaceInv, roomFor, intact in *; unfold w2; cbn; rewrite ?Hf; cbn; try done.
    - rewrite Hf in A2. split; [|done]. intros Hx. apply A2 in Hx. done.
    - congruence.
    - intros [H1 H2]. apply A6. split; [by apply Hc|done].
    - intros [H1 H2] spool' [= <-] _. destruct Hfault as [Hfault|]; [|done]. unfold written. rewrite Hfault. f_equal. apply A7; try done. split; [by apply Hc|done].
    - intros spool' [= <-] _. rewrite length_app. split; [lia|]. right. split; [|intros; lia].
      etransitivity; [|exact Hn]. apply needs_mono. lia.
    - by rewrite He. }
  destruct fault as [n|]; injection Hs as <- <-; cbn.
  - split_and!; try done; [|by intros _ [? _]]. apply (Hinv (Some ErrFile)); [by right|done].
  - split_and!; try done. by apply (Hinv (w_captureErr w)); [left|].
Qed.

Lemma capture_write_inv w sent v w' err : captureInv w sent sent → w_wroteHeader w = true → captureWrite w v = (w', err) →
  captureInv w' sent (sent ++ v) ∧ w_wroteHeader w' = true ∧ (err ≠ None → ~ intact w' ∧ w_encode w' = None).
Proof.
  intros Hw Hwr Hs. unfold CaptureResponse.captureWrite in Hs. destruct (w_encode w) as [e|] eqn:He.
  - injection Hs as <- <-. destruct Hw as [A1 A2 A3 A4 A5 Aq A6 A7 A8 A9]. destruct (A9 e He) as (B1 & B2 & B3 & B4 & B5 & B6).
    set (w1 := if _ || _ then updEncode w (Some (encodeDrop e)) else encodeWrite w e v).
    assert (∃ e', w_encode w1 = Some e' ∧ sameFrame w w1 ∧ w_file w1 = w_file w ∧ w_discarded w1 = w_discarded w ∧ w_suppressBody w1 = w_suppressBody w
      ∧ w_reserved w1 = w_reserved w ∧ w_held w1 = w_held w ∧ en_put e' = en_put e
      ∧ (en_dropped e' = false → en_sent e' = sent ++ v ∧ w_size w + zlen v ≤ w_declaredSize w ∧ (0 < w_limit w → w_size w + zlen v ≤ w_limit w)))
      as (e' & E1 & F & E2 & E3 & E4 & E5 & E6 & E7 & E8).
    { unfold w1. destruct (_ || _) eqn:Eo.
      - exists (encodeDrop e). cbn. split_and!; try done; by split.
      - apply orb_false_iff in Eo as [Eo1 Eo2]. b2p. assert (0 < w_limit w → w_size w + zlen v ≤ w_limit w) as Hl.
        { intros Hl. apply andb_false_iff in Eo1 as [Eo1|Eo1]; b2p; lia. }
        unfold encodeWrite. destruct (bool_decide (v = []) || en_dropped e) eqn:Ev.
        + exists e. rewrite He. split_and!; try done. intros Hdr. rewrite Hdr, orb_false_r in Ev. b2p. subst v. rewrite app_nil_r.
          destruct (B6 Hdr) as (? & _). done.
        + apply orb_false_iff in Ev as [_ Hdr]. destruct (pop (o_queue (w_oracle w)) false) as [[] rest]; cbn; eexists; (split; [done|]); cbn; split_and!; try done; try by split.
          intros _. destruct (B6 Hdr) as (-> & _). done. }
    clearbody w1. cbn [updSize w_wroteHeader]. rewrite (fr_wrote _ _ F). split_and!; try done.
    split; unfold spaceInv, roomFor, intact in *;
      cbn [updSize w_streamed w_events w_file w_discarded w_encode w_suppressBody w_reserved w_held w_size w_limit w_declaredSize w_downstream w_wroteHeader w_oracle w_captureErr];
      rewrite ?E1, ?E2, ?E3, ?E4, ?E5, ?E6, ?(fr_events _ _ F), ?(fr_wrote _ _ F), ?(fr_down _ _ F), ?(fr_limit _ _ F), ?(fr_err _ _ F), ?(fr_seek _ _ F), ?(fr_streamed _ _ F), ?(fr_declared _ _ F); try done.
    + by rewrite B2.
    + congruence.
    + intros e0 [= <-]. rewrite E7, length_app. split_and!; try done; [lia|]. intros Hdr. destruct (E8 Hdr) as (? & ? & ?). split_and!; [done|lia|intros; lia].
  - destruct (w_discarded w) eqn:Hd.
    + injection Hs as <- <-. split_and!; try done. by eapply counted_inv.
    + set (total := w_size w + zlen v) in *. assert (0 ≤ total ∧ ∃ spool, w_file w = Some spool) as [Ht [spool Hf]].
      { destruct (w_file w) as [spool|] eqn:Hf; [|destruct (ci_discarded _ _ _ Hw) as [_ Hx]; rewrite (Hx Hf) in Hd; done].
        destruct (ci_room _ _ _ Hw spool Hf He) as [Hsz _]. split; [unfold total; lia|by eexists]. }
      set (r := if (0 <? w_limit w) && _ then (w, false) else reserveCapture w total) in Hs.
      assert (captureInv r.1 sent sent ∧ w_wroteHeader r.1 = true ∧ w_encode r.1 = None ∧ w_discarded r.1 = false ∧ w_file r.1 = Some spool ∧ w_size r.1 = w_size w
        ∧ (r.2 = true → captureNeeds total ≤ w_reserved r.1 ∧ (0 < w_limit r.1 → total ≤ w_limit r.1))) as (R1 & R2 & R3 & R4 & R5 & R6 & R7).
      { unfold r. destruct (_ && _) eqn:El; [by split_and!|]. pose proof (reserve_spec w total Ht (ci_space _ _ _ Hw)) as Hr.
        destruct (reserveCapture w total) as [w1 ok]. destruct Hr as (F & S & G1 & G2 & G3 & G4 & _ & _ & G5 & G6). cbn [fst snd].
        rewrite (fr_wrote _ _ F), (fr_size _ _ F), G1, G2, G3. split_and!; try done.
        - destruct Hw as [A1 A2 A3 A4 A5 Aq A6 A7 A8 A9]. split; unfold roomFor, intact in *;
            rewrite ?G1, ?G2, ?G3, ?G4, ?(fr_events _ _ F), ?(fr_wrote _ _ F), ?(fr_down _ _ F), ?(fr_size _ _ F), ?(fr_limit _ _ F), ?(fr_err _ _ F), ?(fr_seek _ _ F), ?(fr_streamed _ _ F); try done.
          + rewrite Hf. done.
          + intros spool' Hf' _. destruct (A8 spool' Hf' He) as [? [?|[? ?]]]; (split; [done|]); [by left|right; split; [lia|done]].
          + by rewrite He.
        - intros Hok. destruct (G6 Hok) as [? _]. split; [done|]. rewrite (fr_limit _ _ F). intros Hl. apply andb_false_iff in El as [El|El]; b2p; lia. }
      clearbody r. destruct r as [w1 fits]. cbn [fst snd] in *. destruct fits.
      * rewrite R4 in Hs. destruct (spoolWrite w1 v) as [w2 err2] eqn:Esp. destruct (R7 eq_refl) as [R8 R9].
        destruct (spool_inv w1 sent v w2 err2 spool R1 R2 R3 R5 ltac:(by rewrite R6) ltac:(by rewrite R6) Esp) as (S1 & S2 & S3 & S4).
        destruct err2 as [e2|]; [destruct (w_streamed w2)|]; injection Hs as <- <-; split_and!; try done; intros _; (split; [by apply S4|done]).
      * set (w2 := updRejectedSize w1 _) in Hs. assert (captureInv w2 sent sent) as Q1 by (by destruct R1; split).
        destruct (stopCapture w2) as [w3 err3] eqn:Est.
        destruct (stop_inv w2 sent w3 err3 Q1 R2 R3 R4 Est) as (T1 & T2 & T3 & T4 & T5 & T6). destruct err3 as [e3|].
        -- injection Hs as <- <-. split_and!; try done; [|intros _; split; [by apply T6|done]]. eapply broken_inv; try done. by apply T6.
        -- rewrite (T5 eq_refl) in Hs. injection Hs as <- <-. split_and!; try done. eapply counted_inv; try done. by apply T5.
Qed.

Lemma write_inv w sent v : captureInv w sent sent → captureInv (Write w v).1 (sent ++ v) (sent ++ v).
Proof.
  intros Hw. unfold CaptureResponse.Write. pose proof (header_wrote w sent Hw) as Hwr.
  assert (captureInv (if w_wroteHeader w then w else WriteHeader w 200) sent sent) as Hw1 by (destruct (w_wroteHeader w); [done|by apply header_inv]).
  set (w1 := if w_wroteHeader w then w else WriteHeader w 200) in *. clearbody w1. destruct (captureWrite w1 v) as [w2 err] eqn:E.
  destruct (capture_write_inv w1 sent v w2 err Hw1 Hwr E) as (H1 & H2 & H3). destruct err as [e|]; cbn [fst].
  - destruct (H3 ltac:(done)) as [Hi He]. by eapply broken_inv.
  - destruct (w_streamed w2) eqn:Hst; [|by eapply undelivered_inv; [|done|left]]. destruct (w_suppressBody w2) eqn:Hsu; [by eapply undelivered_inv; [|done|right]|].
    rewrite (ci_down _ _ _ H1 Hst). by apply client_inv.
Qed.

(** What a capture never changes: whether there is a client, the limit, whether
    the spool can be rewound and whether the response is streamed. *)
Definition constants (w : capture) : bool * Z * bool * bool := (w_downstream w, w_limit w, o_seek (w_oracle w), w_stream w).
Lemma constants_reserve w total : constants (reserveCapture w total).1 = constants w.
Proof. unfold reserveCapture. destruct (_ <? total); [done|]. destruct (_ <=? w_reserved w); [done|]. by destruct (pop _ false) as [[] rest]. Qed.
Lemma constants_client w v : constants (clientWrite w v) = constants w.
Proof. unfold clientWrite. by destruct (pop _ false) as [[] rest]. Qed.
Lemma constants_start w header status size varied : constants (startEncode w header status size varied) = constants w.
Proof.
  unfold startEncode. set (p := storedPut header status size varied). clearbody p. destruct ((0 <? w_limit w) && (w_limit w <? size)); [done|].
  pose proof (constants_reserve w (pu_size p)) as H. destruct (reserveCapture w (pu_size p)) as [w1 ok]. by destruct ok.
Qed.
Lemma constants_header w status : constants (WriteHeader w status) = constants w.
Proof.
  unfold CaptureResponse.WriteHeader. destruct (w_wroteHeader w); [done|]. destruct (_ && _ && _); [unfold forwardInformational; by destruct (negb (w_downstream w))|].
  set (w1 := updDeclaredSize _ _). assert (constants w1 = constants w) as H1 by done. clearbody w1. destruct (w_stream w1 && w_downstream w1); [|done].
  assert (constants (prepareStream w1 status) = constants w1) as H2; [|by rewrite <- H1, <- H2].
  unfold prepareStream. set (header := prepareResponse ToLower h (w_header w1) status). set (c := cacheable h status header _ && _).
  set (header' := if c then _ else _). clearbody header'. destruct (negb (_ =? 0)); [done|]. destruct (c && _ && _ && _ && _); [by rewrite constants_start|].
  by destruct (negb c).
Qed.
Lemma constants_stop w : constants (stopCapture w).1 = constants w.
Proof.
  unfold CaptureResponse.stopCapture. destruct (w_streamed w); [done|]. destruct (w_downstream w) eqn:Hdn; cbn [negb]; [|done].
  set (header := bypassHeader _ _ _ _ _ _). clearbody header. set (conditional := conditionalStatus _ _ _ _). clearbody conditional.
  set (w1 := if conditional =? 0 then updHeader w header else _). assert (constants w1 = constants w) as H1 by (unfold w1; by destruct (conditional =? 0)).
  clearbody w1. set (w2 := updStreamed _ true). assert (constants w2 = constants w) as H2 by done. clearbody w2.
  destruct (w_suppressBody w2); [done|]. destruct (negb (o_seek (w_oracle w2))); [done|]. rewrite <- H2. apply constants_client.
Qed.
Lemma constants_capture w v : constants (captureWrite w v).1 = constants w.
Proof.
  unfold CaptureResponse.captureWrite. destruct (w_encode w) as [e|].
  - destruct (_ || _); [done|]. unfold encodeWrite. destruct (_ || _); [done|]. by destruct (pop _ false) as [[] rest].
  - destruct (w_discarded w); [done|]. set (r := if (0 <? w_limit w) && _ then (w, false) else _).
    assert (constants r.1 = constants w) as Hr by (unfold r; destruct (_ && _); [done|apply constants_reserve]). clearbody r. destruct r as [w1 fits]. cbn [fst] in Hr.
    set (q := if fits then (w1, None) else _). assert (constants q.1 = constants w) as Hq by (unfold q; destruct fits; [done|by rewrite constants_stop]).
    clearbody q. destruct q as [w2 [e|]]; [done|]. cbn [fst] in Hq. destruct (w_discarded w2); [done|].
    unfold spoolWrite. destruct (pop (o_file (w_oracle w2)) None) as [[n|] rest]; [|done]. by destruct (w_streamed _).
Qed.
Lemma constants_perform w a : constants (perform w a) = constants w.
Proof.
  assert (∀ w, constants (if w_wroteHeader w then w else WriteHeader w 200) = constants w) as Hh by (intros w0; destruct (w_wroteHeader w0); [done|apply constants_header]).
  destruct a as [header|status|v|]; cbn [CaptureResponse.perform]; [done|apply constants_header| |apply Hh].
  unfold CaptureResponse.Write. specialize (Hh w). set (w1 := if w_wroteHeader w then w else _) in *. clearbody w1. pose proof (constants_capture w1 v) as Hc.
  destruct (captureWrite w1 v) as [w2 [e|]]; cbn [fst] in *; [congruence|]. destruct (_ && _ && _); rewrite ?constants_client; congruence.
Qed.
Lemma constants_performs actions : ∀ w, constants (performs w actions) = constants w.
Proof. induction actions as [|a actions IH]; intros w; [done|]. unfold performs. cbn [foldl]. fold (performs (perform w a) actions). by rewrite IH, constants_perform. Qed.

(** ** The answer of the origin *)

(** The status of the origin's final response, if it has begun, and the header
    the origin has set. *)
Definition informationalStatus (status : Z) : bool := (100 <=? status) && (status <? 200) && negb (status =? 101).
Definition finalOf (a : action) : option Z :=
  match a with
  | SetHeaders _ => None
  | SendHeader status => if informationalStatus status then None else Some status
  | Send _ | SendFlush => Some 200
  end.
Definition originFinal (actions : list action) : option Z := head (omap finalOf actions).
Definition originStatus (actions : list action) : Z := let status := default 0 (originFinal actions) in if status =? 0 then 200 else status.
Definition originHeader (actions : list action) : HttpHeader :=
  foldl (λ header a, match a with SetHeaders header => header | _ => header end) ∅ actions.
Lemma origin_final_app actions a : originFinal (actions ++ [a]) = match originFinal actions with Some status => Some status | None => finalOf a end.
Proof. unfold originFinal. rewrite omap_app. cbn. destruct (omap finalOf actions); cbn; by destruct (finalOf a). Qed.
Lemma origin_header_app actions a : originHeader (actions ++ [a]) = match a with SetHeaders header => header | _ => originHeader actions end.
Proof. unfold originHeader. rewrite foldl_app. by destruct a. Qed.

(** The fields of the header the cache may change. *)
Definition changedNames : list string := "Cache-Control" :: preparedHeaders.
Definition lengthNames : list string := ["Content-Length"; "Content-Range"].
Lemma del_kept header names name : name ∉ names → headerValues (delHeaders header names) name = headerValues header name.
Proof.
  unfold delHeaders. revert header. induction names as [|x names IH]; intros header Hn; [done|]. cbn [foldl]. apply not_elem_of_cons in Hn as [Hx Hn].
  rewrite IH by done. unfold headerValues, delHeader. by rewrite lookup_delete_ne.
Qed.
Lemma del1_kept header x name : name ≠ x → headerValues (delHeader header x) name = headerValues header name.
Proof. intros Hn. unfold headerValues, delHeader. by rewrite lookup_delete_ne. Qed.
Lemma set_kept header x values name : name ≠ x → headerValues (setHeader header x values) name = headerValues header name.
Proof. intros Hn. unfold headerValues, setHeader. by rewrite lookup_insert_ne. Qed.
Lemma changed_ne name x : name ∉ changedNames → x ∈ changedNames → name ≠ x.
Proof. by intros Hn Hx ->. Qed.
Lemma prepare_kept header status name : name ∉ changedNames → headerValues (prepareResponse ToLower h header status) name = headerValues header name.
Proof.
  intros Hn. assert (name ≠ "Cache-Control") as Hc by (apply (changed_ne _ _ Hn); apply list_elem_of_here).
  assert (headerValues (delHeaders header preparedHeaders) name = headerValues header name) as Hd by (apply del_kept; intros Hx; apply Hn; by right).
  unfold prepareResponse. set (header1 := delHeaders header preparedHeaders) in *. clearbody header1.
  destruct (_ || _); [by rewrite set_kept|]. destruct (_ || _); [done|]. by rewrite set_kept.
Qed.
Lemma result_kept header result key t name : name ∉ changedNames → headerValues (setResultHeaders ToLower sha256hex h header result key t) name = headerValues header name.
Proof.
  intros Hn. assert (name ≠ "Cache-Status" ∧ name ≠ "X-Cache" ∧ name ≠ "Age") as (N1 & N2 & N3)
    by (split_and!; apply (changed_ne _ _ Hn); unfold changedNames, preparedHeaders; set_solver).
  unfold setResultHeaders. set (status := if h_HideKey h then _ else _). clearbody status.
  set (h1 := if h_Debug h then _ else _). assert (headerValues h1 name = headerValues header name) as H1 by (unfold h1; destruct (h_Debug h); [by apply set_kept|by apply del1_kept]). clearbody h1.
  set (h2 := if h_XCache h then _ else _). assert (headerValues h2 name = headerValues header name) as H2 by (rewrite <- H1; unfold h2; destruct (h_XCache h); [by apply set_kept|by apply del1_kept]).
  clearbody h2. rewrite <- H2. destruct (_ && _); [destruct (bool_decide _); [|done]|]; [by apply set_kept|by apply del1_kept].
Qed.
Lemma bypass_kept header status name : name ∉ changedNames → headerValues (bypassHeader ToLower sha256hex h baseRaw header status) name = headerValues header name.
Proof. intros Hn. unfold bypassHeader. by rewrite result_kept, prepare_kept. Qed.
Lemma length_kept header name : name ∉ lengthNames → headerValues (withoutLength header) name = headerValues header name.
Proof. intros Hn. unfold withoutLength. rewrite !del1_kept; [done|intros ->; apply Hn; unfold lengthNames; set_solver..]. Qed.

(** A header that differs from another only in fields the cache may change, and
    in the length of a body that is not sent. *)
Definition sameFields (lengths : bool) (a b : HttpHeader) : Prop :=
  ∀ name, name ∉ changedNames → (name ∈ lengthNames → lengths = true) → headerValues a name = headerValues b name.
Lemma same_validators lengths a b status : sameFields lengths a b → conditionalStatus ParseTime clientRequest status a = conditionalStatus ParseTime clientRequest status b.
Proof.
  intros Hs. assert (headerGet a "Etag" = headerGet b "Etag" ∧ headerGet a "Last-Modified" = headerGet b "Last-Modified") as [He Hm].
  { unfold headerGet. rewrite !(Hs "Etag"), !(Hs "Last-Modified"); [done|..]; unfold changedNames, preparedHeaders, lengthNames; set_solver by done. }
  unfold conditionalStatus, Status. by rewrite He, Hm.
Qed.

(** How a response is answered: by the origin's status and header at some point
    of the response, or as a precondition of the client asks, then without a
    body. *)
Definition decided (final : Z) (actions : list action) (status : Z) (header : HttpHeader) (quiet : bool) : Prop :=
  ∃ before after, actions = before ++ after ∧
  let c := Status ParseTime (Some clientRequest) (Some (final, originHeader before)) in
  quiet = negb (c =? 0) ∧ status = (if c =? 0 then final else c) ∧ sameFields (negb quiet) header (originHeader before).
Lemma decided_app final actions more status header quiet : decided final actions status header quiet → decided final (actions ++ more) status header quiet.
Proof. intros (before & after & -> & Hd). exists before, (after ++ more). by rewrite app_assoc. Qed.
Lemma decided_now final actions more header answer : let c := conditionalStatus ParseTime clientRequest final header in
  sameFields true header (originHeader actions) → sameFields (c =? 0) answer header →
  decided final (actions ++ more) (if c =? 0 then final else c) answer (negb (c =? 0)).
Proof.
  intros c Hs Ha. exists actions, more. split; [done|]. cbn zeta. change (Status ParseTime (Some clientRequest) (Some (final, originHeader actions)))
    with (conditionalStatus ParseTime clientRequest final (originHeader actions)). rewrite <- (same_validators _ _ _ final Hs). fold c.
  split_and!; [done..|]. rewrite negb_involutive. intros name H1 H2. rewrite Ha by done. by apply Hs.
Qed.
Lemma same_length header : sameFields false (withoutLength header) header.
Proof. intros name _ Hn. apply length_kept. intros Hx. by specialize (Hn Hx). Qed.

(** What a client can tell of the state of a response. *)
Definition responds (events : list event) : list (Z * HttpHeader) := omap (λ e, match e with Respond status header => Some (status, header) | _ => None end) events.
Definition view (w : capture) : bool * Z * Z * HttpHeader * list (Z * HttpHeader) * bool * bool * bool :=
  (w_wroteHeader w, w_status w, w_responseStatus w, w_header w, responds (w_events w), w_suppressBody w, w_streamed w, w_discarded w).
Lemma view_reserve w total : view (reserveCapture w total).1 = view w.
Proof. unfold reserveCapture. destruct (_ <? total); [done|]. destruct (_ <=? w_reserved w); [done|]. by destruct (pop _ false) as [[] rest]. Qed.
Lemma view_client w v : view (clientWrite w v) = view w.
Proof. unfold clientWrite. destruct (pop _ false) as [[] rest]; unfold view, responds; cbn; by rewrite omap_app, app_nil_r. Qed.
Lemma view_encode w e v : view (encodeWrite w e v) = view w.
Proof. unfold encodeWrite. destruct (_ || _); [done|]. by destruct (pop _ false) as [[] rest]. Qed.
Lemma view_spool w v : view (spoolWrite w v).1 = view w.
Proof. unfold spoolWrite. by destruct (pop (o_file (w_oracle w)) None) as [[n|] rest]. Qed.

(** A capture keeps what the origin has said: its status and its header, and the
    response it has sent is the one they decide. *)
Record answered (w : capture) (actions : list action) : Prop := {
  an_final : originFinal actions = if w_wroteHeader w then Some (w_status w) else None;
  an_fresh : w_wroteHeader w = false → w_status w = 0;
  an_header : sameFields (negb (w_discarded w)) (w_header w) (originHeader actions);
  an_waiting : w_streamed w = false → responds (w_events w) = [] ∧ w_suppressBody w = false ∧ w_responseStatus w = 0 ∧ w_discarded w = false;
  an_served : w_streamed w = true → w_wroteHeader w = true;
  an_respond : ∀ status header, (status, header) ∈ responds (w_events w) → w_status w ≠ 0 → decided (w_status w) actions status header (w_suppressBody w);
}.
Lemma answered_view w w' actions : view w' = view w → answered w actions → answered w' actions.
Proof. intros [= E1 E2 E3 E4 E5 E6 E7 E8] [A1 A2 A3 A4 A5 A6]. split; rewrite ?E1, ?E2, ?E3, ?E4, ?E5, ?E6, ?E7, ?E8; done. Qed.
Lemma answered_discard w actions : answered w actions → w_streamed w = true → answered (discardCapture w) actions.
Proof.
  intros [A1 A2 A3 A4 A5 A6] Hst. split; cbn; try done.
  - intros name H1 H2. apply A3; [done|]. intros Hx. by specialize (H2 Hx).
  - congruence.
Qed.
Lemma answered_more w actions a : answered w actions → w_wroteHeader w = true → (∀ header, a ≠ SetHeaders header) → answered w (actions ++ [a]).
Proof.
  intros [A1 A2 A3 A4 A5 A6] Hw Ha. assert (originHeader (actions ++ [a]) = originHeader actions) as Eh by (rewrite origin_header_app; destruct a; try done; by destruct (Ha header)).
  split; rewrite ?Eh; try done.
  - rewrite origin_final_app, A1, Hw. done.
  - intros status header Hx Hn. by apply decided_app, A6.
Qed.
Lemma status_of w actions : answered w actions → statusOf w = originStatus actions.
Proof.
  intros Ha. unfold statusOf, originStatus. rewrite (an_final _ _ Ha). destruct (w_wroteHeader w) eqn:E; [done|]. by rewrite (an_fresh _ _ Ha E).
Qed.

(** Read the fields of an updated capture. *)
Ltac fields := cbn [discardCapture updReserved updHeld updFile updDiscarded updHeader updSuppressBody updResponseStatus updStreamed emit updEvents updOuter updWrote1xx
  w_wroteHeader w_status w_responseStatus w_header w_events w_suppressBody w_streamed w_discarded w_limit w_reserved w_held w_file].
(** Preparing a streamed response: the origin's header, or what a precondition
    of the client leaves of it. *)
Lemma prepare_view w status : w_suppressBody w = false → w_responseStatus w = 0 →
  let w' := prepareStream w status in
  w_wroteHeader w' = w_wroteHeader w ∧ w_status w' = w_status w ∧ responds (w_events w') = responds (w_events w)
  ∧ ∃ header, sameFields true header (w_header w) ∧
    let c := conditionalStatus ParseTime clientRequest status header in
    sameFields (c =? 0) (w_header w') header ∧ w_suppressBody w' = negb (c =? 0) ∧ w_responseStatus w' = c ∧ (c ≠ 0 → w_discarded w' = true).
Proof.
  intros Hsu Hrs. unfold prepareStream. set (header := prepareResponse ToLower h (w_header w) status). set (c := cacheable h status header _ && _).
  set (header' := if c then _ else _). assert (sameFields true header' (w_header w)) as Hk.
  { intros name Hn _. unfold header', header. destruct c; by rewrite result_kept, prepare_kept. }
  clearbody header'. destruct (conditionalStatus ParseTime clientRequest status header' =? 0) eqn:E; cbn [negb].
  2:{ fields. split_and!; try done. exists header'. rewrite E. split_and!; try done. apply same_length. }
  assert (∀ w', view w' = view (updHeader w header') ∨ (∃ w1, view w1 = view w ∧ w' = discardCapture (updHeader w1 (bypassHeader ToLower sha256hex h baseRaw header' status)))
      ∨ w' = discardCapture (updHeader w header') →
    w_wroteHeader w' = w_wroteHeader w ∧ w_status w' = w_status w ∧ responds (w_events w') = responds (w_events w)
    ∧ ∃ header, sameFields true header (w_header w) ∧ let c := conditionalStatus ParseTime clientRequest status header in
      sameFields (c =? 0) (w_header w') header ∧ w_suppressBody w' = negb (c =? 0) ∧ w_responseStatus w' = c ∧ (c ≠ 0 → w_discarded w' = true)) as Hcases.
  { b2p. intros w' [[= E1 E2 E3 E4 E5 E6 E7 E8]|[(w1 & [= E1 E2 E3 E4 E5 E6 E7 E8] & ->)| ->]].
    - rewrite E1, E2, E5. split_and!; try done. exists header'. rewrite E3, E4, E6. fields. rewrite E. by split_and!.
    - fields. rewrite E1, E2, E5. split_and!; try done. exists header'. rewrite E, E3, E6. split_and!; try done. intros name Hn _. by apply bypass_kept.
    - fields. split_and!; try done. exists header'. rewrite E. by split_and!. }
  apply Hcases. destruct (c && _ && _ && _ && _).
  - unfold startEncode. set (p := storedPut _ _ _ _). clearbody p. change (w_limit (updHeader w header')) with (w_limit w).
    destruct ((0 <? w_limit w) && _); cbn [negb]; [right; left; by exists w|].
    pose proof (view_reserve (updHeader w header') (pu_size p)) as Hr. destruct (reserveCapture (updHeader w header') (pu_size p)) as [w1 []]; cbn [negb fst] in *; [by left|].
    right. left. exists (updHeader w1 (w_header w)). split; [|done]. injection Hr as E1 E2 E3 E4 E5 E6 E7 E8. unfold view. fields. congruence.
  - destruct (negb c); [by right; right|by left].
Qed.
Lemma answered_header w actions a status : answered w actions → (∀ header, a ≠ SetHeaders header) →
  finalOf a = (if informationalStatus status then None else Some status) → answered (WriteHeader w status) (actions ++ [a]).
Proof.
  intros Ha Hset Hfin. unfold CaptureResponse.WriteHeader. destruct (w_wroteHeader w) eqn:Hwr; [by apply answered_more|].
  assert (originHeader (actions ++ [a]) = originHeader actions) as Eh by (rewrite origin_header_app; destruct a; try done; by destruct (Hset header)).
  assert (w_streamed w = false) as Hst by (destruct (w_streamed w) eqn:E; [by rewrite (an_served _ _ Ha E) in Hwr|done]).
  destruct (an_waiting _ _ Ha Hst) as (W1 & W2 & W3 & W4). fold (informationalStatus status). destruct (informationalStatus status) eqn:Ei.
  { assert (originFinal (actions ++ [a]) = None) as Ef by (by rewrite origin_final_app, (an_final _ _ Ha), Hwr).
    assert (view (forwardInformational w status) = view w) as Hv.
    { unfold forwardInformational. destruct (negb (w_downstream w)); [done|]. unfold view, responds. cbn. by rewrite omap_app, app_nil_r. }
    apply (answered_view _ _ _ Hv). destruct Ha as [A1 A2 A3 A4 A5 A6]. split; rewrite ?Eh, ?Ef, ?Hwr, ?W1; try done; [by intros _; apply A2|congruence|].
    intros s hd Hx. by apply elem_of_nil in Hx. }
  set (w1 := updDeclaredSize _ _). assert (w_wroteHeader w1 = true ∧ w_status w1 = status ∧ w_header w1 = w_header w ∧ responds (w_events w1) = []
    ∧ w_suppressBody w1 = false ∧ w_responseStatus w1 = 0 ∧ w_discarded w1 = false ∧ w_streamed w1 = false) as (B1 & B2 & B3 & B4 & B5 & B6 & B7 & B8) by done.
  assert (originFinal (actions ++ [a]) = Some status) as Ef by (by rewrite origin_final_app, (an_final _ _ Ha), Hwr).
  pose proof (an_header _ _ Ha) as Hh. rewrite W4 in Hh. clearbody w1. destruct (w_stream w1 && w_downstream w1).
  2:{ split; rewrite ?Eh, ?Ef, ?B1, ?B2, ?B3, ?B4, ?B7; try done. intros s hd Hx. by apply elem_of_nil in Hx. }
  destruct (prepare_view w1 status B5 B6) as (P1 & P2 & P3 & header & P4 & P5 & P6 & P7 & P8).
  set (w2 := prepareStream w1 status) in *. clearbody w2. set (c := conditionalStatus _ _ _ _) in *. rewrite B3 in P4.
  assert (sameFields true header (originHeader actions)) as Hk by (intros name H1 H2; rewrite P4 by done; by apply Hh).
  split; cbn [updStreamed emit updEvents w_streamed w_wroteHeader w_status w_header w_discarded w_events w_suppressBody w_responseStatus]; rewrite ?Eh, ?Ef, ?P1, ?P2, ?B1, ?B2; try done.
  - intros name H1 H2. rewrite P5; [by apply Hk|done|]. intros Hx%H2. destruct (c =? 0) eqn:E; [done|]. b2p. by rewrite (P8 E) in Hx.
  - unfold responds. rewrite omap_app. fold (responds (w_events w2)). rewrite P3, B4. cbn [app omap list_omap]. intros s hd Hx Hn. apply list_elem_of_singleton in Hx as [= -> ->].
    rewrite P6, P7. replace (if c =? 0 then status else c) with (if c =? 0 then status else c) by done. by apply decided_now.
Qed.
Lemma answered_stop w actions : answered w actions → w_wroteHeader w = true → answered (stopCapture w).1 actions.
Proof.
  intros Ha Hwr. unfold CaptureResponse.stopCapture. destruct (w_streamed w) eqn:Hst; [by apply answered_discard|]. destruct (negb (w_downstream w)); [by apply (answered_view w)|].
  destruct (an_waiting _ _ Ha Hst) as (W1 & W2 & W3 & W4). pose proof (an_header _ _ Ha) as Hh. rewrite W4 in Hh. cbn [negb] in Hh.
  set (header := bypassHeader _ _ _ _ _ _). assert (sameFields true header (originHeader actions)) as Hk.
  { intros name H1 H2. unfold header. rewrite bypass_kept by done. by apply Hh. }
  clearbody header. cbn [w_header updHeader]. change (statusOf (updHeader w header)) with (statusOf w). set (c := conditionalStatus _ _ _ _).
  set (w1 := if c =? 0 then updHeader w header else _).
  assert (w_wroteHeader w1 = true ∧ w_status w1 = w_status w ∧ w_suppressBody w1 = negb (c =? 0) ∧ sameFields (c =? 0) (w_header w1) header ∧ responds (w_events w1) = [])
    as (B1 & B2 & B3 & B4 & B5) by (unfold w1; destruct (c =? 0); cbn; split_and!; try done; apply same_length).
  clearbody w1. set (w2 := updStreamed _ true).
  assert (∀ w3, view w3 = view w2 → answered (discardCapture w3) actions) as Hd.
  { intros w3 [= E1 E2 E3 E4 E5 E6 E7 E8]. split; fields; rewrite ?E1, ?E2, ?E4, ?E5, ?E6, ?E7; cbn [w2 updStreamed emit updEvents w_streamed w_wroteHeader w_status w_header w_events w_suppressBody]; rewrite ?B1, ?B2; try done.
    - by rewrite (an_final _ _ Ha), Hwr.
    - intros name H1 H2. assert (name ∉ lengthNames) as Hl by (intros Hx; by specialize (H2 Hx)). rewrite B4 by done. by apply Hk.
    - unfold responds. rewrite omap_app. fold (responds (w_events w1)). rewrite B5. cbn [app omap list_omap]. intros s hd Hx Hn. apply list_elem_of_singleton in Hx as [= -> ->].
      assert (statusOf w = w_status w) as Es by (unfold statusOf; by rewrite (proj2 (Z.eqb_neq _ _) Hn)). rewrite B3. unfold c in *. rewrite Es in *.
      rewrite <- (app_nil_r actions). by apply decided_now. }
  destruct (w_suppressBody w2) eqn:Hsu; [by apply Hd|].
  destruct (negb (o_seek (w_oracle w2))); [|apply Hd, view_client].
  assert (c = 0) as Hc by (cbn in Hsu; rewrite B3 in Hsu; destruct (c =? 0) eqn:E; b2p; done).
  pose proof (Hd w2 eq_refl) as [A1 A2 A3 A4 A5 A6]. split; try done. cbn. rewrite Hc in B4. intros name H1 _. rewrite B4 by done. by apply Hk.
Qed.
Lemma answered_capture w actions v : answered w actions → w_wroteHeader w = true → answered (captureWrite w v).1 actions.
Proof.
  intros Ha Hwr. unfold CaptureResponse.captureWrite. destruct (w_encode w) as [e|].
  { cbn [fst]. eapply answered_view; [|exact Ha]. destruct (_ || _); [done|]. by rewrite <- (view_encode w e v). }
  destruct (w_discarded w); [by apply (answered_view w)|]. set (r := if (0 <? w_limit w) && _ then (w, false) else _).
  assert (view r.1 = view w) as Hr by (unfold r; destruct (_ && _); [done|apply view_reserve]). clearbody r. destruct r as [w1 fits]. cbn [fst] in Hr.
  pose proof (answered_view _ _ _ Hr Ha) as H1. assert (w_wroteHeader w1 = true) as Hw1 by (injection Hr; congruence). set (q := if fits then (w1, None) else _).
  assert (answered q.1 actions) as H2.
  { unfold q. destruct fits; [done|]. apply answered_stop; [by apply (answered_view w1)|done]. }
  clearbody q. destruct q as [w2 [e|]]; [done|]. cbn [fst] in H2. destruct (w_discarded w2); [by apply (answered_view w2)|].
  pose proof (view_spool w2 v) as Hsp. destruct (spoolWrite w2 v) as [w3 [e|]]; cbn [fst] in *; [destruct (w_streamed w3)|]; by apply (answered_view w2).
Qed.
Lemma answered_perform w actions a : answered w actions → answered (perform w a) (actions ++ [a]).
Proof.
  intros Ha. assert ((∀ header, a ≠ SetHeaders header) → finalOf a = Some 200 → answered (if w_wroteHeader w then w else WriteHeader w 200) (actions ++ [a])
    ∧ w_wroteHeader (if w_wroteHeader w then w else WriteHeader w 200) = true) as Hbegun.
  { intros Hset Hfin. assert (answered (if w_wroteHeader w then w else WriteHeader w 200) (actions ++ [a])) as Hb
      by (destruct (w_wroteHeader w) eqn:E; [by apply answered_more|by apply answered_header]). split; [done|].
    pose proof (an_final _ _ Hb) as Hf. rewrite origin_final_app, Hfin in Hf. destruct (originFinal actions), (w_wroteHeader (if w_wroteHeader w then w else _)); done. }
  destruct a as [header|status|v|]; cbn [CaptureResponse.perform].
  - destruct Ha as [A1 A2 A3 A4 A5 A6]. split; fields; rewrite ?origin_final_app, ?origin_header_app, ?A1; try done.
    + by destruct (w_wroteHeader w).
    + intros status hd Hx Hn. by apply decided_app, A6.
  - by apply answered_header.
  - destruct (Hbegun ltac:(done) eq_refl) as [H1 H2]. unfold CaptureResponse.Write. set (w1 := if w_wroteHeader w then w else _) in *. clearbody w1.
    pose proof (answered_capture w1 _ v H1 H2) as H3. destruct (captureWrite w1 v) as [w2 [e|]]; cbn [fst] in *; [done|].
    destruct (_ && _ && _); [|done]. apply (answered_view w2); [apply view_client|done].
  - by apply Hbegun.
Qed.
Lemma answered_performs actions : ∀ w before, answered w before → answered (performs w actions) (before ++ actions).
Proof.
  induction actions as [|a actions IH]; intros w before Hw; [by rewrite app_nil_r|]. unfold performs. cbn [foldl]. rewrite cons_middle, app_assoc. by apply IH, answered_perform.
Qed.
Lemma answered_new downstream stream outer o : answered (newCapturedResponse h downstream stream outer o) [].
Proof. by split. Qed.

(** The bytes of the origin. *)
Definition originBytes (actions : list action) : list byte := concat (map (λ a, match a with Send v => v | _ => [] end) actions).
Lemma performs_inv actions : ∀ w sent, captureInv w sent sent → captureInv (performs w actions) (sent ++ originBytes actions) (sent ++ originBytes actions).
Proof.
  induction actions as [|a actions IH]; intros w sent Hw; [by rewrite app_nil_r|]. unfold performs, originBytes. cbn [foldl map concat].
  destruct a as [header|status|v|]; cbn [perform]; fold (originBytes actions).
  - apply IH. by destruct Hw; split.
  - apply IH. by apply header_inv.
  - rewrite app_assoc. apply IH. by apply write_inv.
  - apply IH. unfold Flush. destruct (w_wroteHeader w); [done|by apply header_inv].
Qed.
Lemma new_inv downstream stream outer o : captureInv (newCapturedResponse h downstream stream outer o) [] [].
Proof.
  split; cbn; try done.
  - intros _. by exists [].
  - by intros _ spool [= <-].
  - intros spool [= <-] _. split; [done|by left].
Qed.

Lemma final_nonzero actions : SendHeader 0 ∉ actions → originFinal actions ≠ Some 0.
Proof.
  intros Hn Hf. apply Hn. unfold originFinal in Hf. destruct (omap finalOf actions) as [|x l] eqn:E; [done|]. injection Hf as ->.
  assert (0 ∈ omap finalOf actions) as Hin by (rewrite E; apply list_elem_of_here). apply list_elem_of_omap in Hin as (a & Ha & Hz).
  destruct a as [|status| |]; cbn in Hz; try done. destruct (informationalStatus status); [done|]. by injection Hz as ->.
Qed.

(** The client's view of a response: informational responses, one final response,
    and its body. *)
Definition receives (events : list event) (status : Z) (header : HttpHeader) (bytes : list byte) : Prop :=
  ∃ infos tail, events = infos ++ Respond status header :: tail ∧ Forall isInfo infos ∧ Forall isBody tail ∧ bodyBytes tail = bytes.

(** What the client has received once the response is written out. *)
Lemma write_response w actions : let sent := originBytes actions in
  captureInv w sent sent → answered w actions → SendHeader 0 ∉ actions → intact w → w_downstream w = true → w_discarded w = false ∨ w_streamed w = true → w_encode w = None ∨ w_streamed w = true →
  ∃ status header quiet, decided (originStatus actions) actions status header quiet ∧ receives (w_events (WriteResponse w).1) status header (if quiet then [] else sent).
Proof.
  intros sent Hw Ha Hz Hi Hdn Hd He. pose proof (ci_events _ _ _ Hw Hi) as Ho. pose proof (status_of w actions Ha) as Hs.
  unfold CaptureResponse.WriteResponse. destruct (w_streamed w) eqn:Hst.
  - destruct Ho as (infos & Hinf & status & header & tail & E & Ht & Hb & _). exists status, header, (w_suppressBody w). split; [|by exists infos, tail].
    assert (w_status w ≠ 0) as Hn by (intros Hx; apply (final_nonzero actions Hz); by rewrite (an_final _ _ Ha), (an_served _ _ Ha Hst), Hx).
    replace (originStatus actions) with (w_status w) by (rewrite <- Hs; unfold statusOf; by rewrite (proj2 (Z.eqb_neq _ _) Hn)).
    apply (an_respond _ _ Ha); [|done]. cbn [fst]. unfold responds. rewrite E, omap_app. apply elem_of_app. right. apply list_elem_of_here.
  - destruct (an_waiting _ _ Ha Hst) as (_ & _ & _ & Hdis). pose proof (an_header _ _ Ha) as Hh. rewrite Hdis in Hh. cbn [negb] in Hh.
    destruct Ho as (infos & Hinf & Hev). cbn [fst] in Hev. rewrite Hs. pose proof (λ answer, decided_now (originStatus actions) actions [] (w_header w) answer Hh) as Hdec.
    rewrite app_nil_r in Hdec. cbn zeta in Hdec. set (c := conditionalStatus _ _ _ _) in *. destruct (c =? 0) eqn:E; cbn [negb] in *.
    + destruct (w_file w) as [spool|] eqn:Hf; [|by rewrite (proj2 (ci_discarded _ _ _ Hw) Hf) in Hdis]. rewrite (proj2 Hi). destruct He as [He|]; [|done].
      exists (originStatus actions), (w_header w), false. split; [by apply Hdec|]. cbn [fst].
      destruct (client_fields (emit w (Respond (originStatus actions) (w_header w))) spool) as (Hev' & _). rewrite (ci_spool _ _ _ Hw Hi spool Hf He) in *.
      exists infos, [Body sent]. rewrite Hev'. cbn [emit updEvents w_events]. rewrite Hev, <- app_assoc. split_and!; try done; [by repeat constructor|]. cbn. by rewrite app_nil_r.
    + exists c, (withoutLength (w_header w)), true. split; [apply Hdec, same_length|]. exists infos, []. cbn [fst emit updEvents w_events updHeader w_header]. by rewrite Hev.
Qed.

(** C14. Whatever the origin does, in whatever pieces it writes and however the
    response is captured (spooled, streamed, encoded while it is streamed, or given
    up for its size), as long as the spool can be read back and written: the client
    receives informational responses, then exactly one response.  It is the
    origin's, with its status, its header fields (but those the cache owns) and
    exactly its bytes, unless a precondition of the client against the origin's
    status and validators ends it; then it has the status that asks for and no
    body.  A complete capture holds exactly the origin's bytes too.  The origin
    never writes the status 0, which net/http refuses. *)
Theorem capture_transparent (stream : bool) (outer : HttpHeader) (o : oracle) (actions : list action) :
  let w := performs (newCapturedResponse h true stream outer o) actions in
  o_seek o = true → w_captureErr w = None → SendHeader 0 ∉ actions →
  (∃ status header quiet, decided (originStatus actions) actions status header quiet
     ∧ receives (w_events (WriteResponse w).1) status header (if quiet then [] else originBytes actions))
  ∧ (∀ spool, w_file w = Some spool → w_encode w = None → spool = originBytes actions)
  ∧ (∀ e, w_encode w = Some e → en_dropped e = false → en_sent e = originBytes actions ∧ zlen (originBytes actions) ≤ w_declaredSize w).
Proof.
  intros w Hseek Herr Hz. pose proof (performs_inv actions _ [] (new_inv true stream outer o)) as Hw. cbn [app] in Hw. fold w in Hw.
  pose proof (answered_performs actions _ [] (answered_new true stream outer o)) as Ha. cbn [app] in Ha. fold w in Ha.
  pose proof (constants_performs actions (newCapturedResponse h true stream outer o)) as Hc. fold w in Hc. injection Hc as Hdn _ Hs _. rewrite Hseek in Hs.
  assert (intact w) as Hi by done. split_and!.
  - apply write_response; try done.
    + destruct (w_discarded w) eqn:Hd; [|by left]. right. apply (ci_released _ _ _ Hw). by apply (ci_discarded _ _ _ Hw).
    + destruct (w_encode w) as [e|] eqn:He; [|by left]. right. by destruct (ci_encode _ _ _ Hw e He).
  - by apply (ci_spool _ _ _ Hw).
  - intros e He Hd. destruct (ci_encode _ _ _ Hw e He) as (_ & _ & _ & _ & _ & Hx). destruct (Hx Hd) as (? & ? & _). done.
Qed.

(** A capture accounts for the space it uses: what the store has reserved for it
    covers the spool or the encoded object twice, a spool never exceeds the limit,
    and closing the capture gives everything back, except what waits for an
    encoder that is still busy. *)
Theorem capture_space (downstream stream : bool) (outer : HttpHeader) (o : oracle) (actions : list action) :
  let w := performs (newCapturedResponse h downstream stream outer o) actions in
  0 ≤ h_MaxBodyBytes h →
  w_held w = w_reserved w
  ∧ (∀ spool, w_file w = Some spool → w_encode w = None → spool = [] ∨ (2 * zlen spool + 4096 ≤ w_held w ∧ zlen spool ≤ captureLimit h))
  ∧ (∀ e, w_encode w = Some e → 2 * pu_size (en_put e) + 4096 ≤ w_held w)
  ∧ ∀ encodeDone, w_held (Close encodeDone w).1 = (Close encodeDone w).2 ∧ w_file (Close encodeDone w).1 = None.
Proof.
  intros w Hm. pose proof (performs_inv actions _ [] (new_inv downstream stream outer o)) as Hw. cbn [app] in Hw. fold w in Hw.
  pose proof (constants_performs actions (newCapturedResponse h downstream stream outer o)) as Hc. fold w in Hc. injection Hc as _ Hl _ _.
  assert (0 < captureLimit h) as Hl0. { unfold captureLimit, defaultCaptureLimit. destruct (h_MaxBodyBytes h =? 0) eqn:E; b2p; lia. }
  destruct (ci_space _ _ _ Hw) as [Hh Hr]. split_and!.
  - done.
  - intros spool Hf He. destruct (ci_room _ _ _ Hw spool Hf He) as [_ [Hz|[Hn Hx]]]; [left; destruct spool; [done|cbn in Hz; lia]|right].
    pose proof (needs_enough (zlen spool) ltac:(lia)). rewrite Hl in Hx. split; [lia|by apply Hx].
  - intros e He. destruct (ci_encode _ _ _ Hw e He) as (_ & _ & _ & Hn & _). lia.
  - intros encodeDone. destruct (discard_spec (abandonEncode w) (ci_space _ _ _ Hw)) as (_ & _ & H1 & _ & _ & _ & _ & H0 & _).
    destruct encodeDone as [[]|]; [done| |done]. cbn. split; [lia|done].
Qed.

End Capture.
