(* ===== verification/CacheHandler.v ===== *)
(** * The cache handler

    Model of [Handler] of [src/caddy/govetocache/handler.go]: how a request is
    answered from the store, from the origin, or from a stale entry, and what
    the store is told.  A call returns what the client receives, the requests
    sent to the origin and the operations on the store; the store's answers, the
    origin and the clock are arguments.  Stored responses are those of
    [CacheRange], captured ones those of [CaptureResponse].

    [Flights] is the table that lets one request lead the fetch for the others. *)
From Stdlib Require Import ZArith NArith Lia Ascii String.
From Stdlib.Strings Require Import Byte.
From stdpp Require Import base numbers strings gmap option list relations.
From S2P Require Import Prelude Http HttpConditional CacheRange CacheRules CaptureResponse.

Local Open Scope Z_scope.

Record LookupMetadata := MkMetadata { lm_StoredAt : Z; lm_FreshUntil : Z; lm_Headers : HttpHeader; lm_StorageKey : string }.

(** Calls that change the store. *)
Inductive storageOp := OpPut (p : put) (body : list byte) | OpRefresh (baseKey : string) (seconds : Z) (update : HttpHeader) | OpDelete (baseKey : string).

Section Handler.
Context {R : Type} `{ObjectBytes R}.
Variables (ToLower sha256hex : string → string) (ParseTime : string → option Z) (DumpResponse : Z → HttpHeader → Z → list byte).
Variable h : Handler.

(** What a client receives: the events of a captured response, a stored response
    and its body, the origin's own answer, a 502, or nothing. *)
Inductive reply :=
| Captured (events : list event)
| Stored (status : Z) (header : HttpHeader) (body : option (body R))
| Direct (r : request)
| BadGateway
| Failed.
Record outcome := Outcome { oc_replies : list reply; oc_ops : list storageOp; oc_origin : list request }.
(** What [LookupEntryFull] returns: a fresh or a stale response. *)
Record lookupResult := Lookup { lk_fresh : option (response R); lk_stale : option (response R); lk_metadata : LookupMetadata }.

(** ** Serving a stored response *)

Definition withHeaders (resp : response R) (header : HttpHeader) : response R :=
  MkResponse (rs_Status resp) (rs_StatusCode resp) header (rs_ContentLength resp) (rs_Body resp).
Definition applyRevalidatedHeaders (resp : response R) (update : HttpHeader) : response R := withHeaders resp (merge304Headers (rs_Header resp) update).

(** Seconds of a duration in nanoseconds, rounded towards zero. *)
Definition seconds (d : Z) : Z := Z.quot d (10 ^ 9).
Definition serveCached (now : Z) (r : request) (range : option Spec) (resp : response R) (result key : string) (m : LookupMetadata) : reply :=
  let status := Status ParseTime (Some r) (Some (rs_StatusCode resp, rs_Header resp)) in
  let selected :=
    if negb (status =? 0) then Ok (MkResponse (rs_Status resp) status (withoutLength (rs_Header resp)) (rs_ContentLength resp) (rs_Body resp))
    else if negb (bool_decide (rq_Method r = "HEAD")) then
      match range with
      | Some spec => if RangeAllowed ParseTime r (rs_Header resp) then applyCachedRange resp spec else Ok resp
      | None => Ok resp
      end
    else Ok resp in
  match selected with
  | Err _ => Failed
  | Ok resp =>
      let header := rs_Header resp in
      let header := if negb (bool_decide (h_SurrogateKeyHeader h = "")) && negb (hasName (h_SurrogateKeyHeader h) "surrogate-key")
                    then delHeader header "Surrogate-Key" else header in
      let t := cacheStatusTTL (headerGet header "Cache-Control") in
      let t := if isZeroTime (lm_FreshUntil m) then t else Z.max 0 (seconds (lm_FreshUntil m - now)) in
      let header := if h_Age h && negb (isZeroTime (lm_StoredAt m)) then setHeader header "Age" [itoa (Z.max 0 (seconds (now - lm_StoredAt m)))] else header in
      let header := setResultHeaders ToLower sha256hex h header result key t in
      let code := rs_StatusCode resp in
      Stored code header (if (code =? 304) || (code =? 412) || bool_decide (rq_Method r = "HEAD") then None else Some (rs_Body resp))
  end.

(** [handleNotModified]. *)
Definition handleNotModified (now : Z) (r : request) (range : option Spec) (stale : response R) (update : HttpHeader) (baseRaw baseKey : string)
    : reply * list storageOp :=
  let admissible := admitRevalidated h r (rs_StatusCode stale) (rs_ContentLength stale) (rs_Header stale) update in
  let header := prepareResponse ToLower h (merge304Headers (rs_Header stale) update) (rs_StatusCode stale) in
  let t := ttl h (rs_StatusCode stale) in
  let op := if admissible then OpRefresh baseKey t update else OpDelete baseKey in
  (serveCached now r range (withHeaders stale header) (if admissible then "HIT" else "STALE") baseRaw
     (MkMetadata now (now + t * 10 ^ 9) ∅ ""), [op]).

(** ** Fetching from the origin *)

(** The requests sent to the origin. *)
Definition rangeRequest (r : request) (range : option Spec) : request :=
  match range with Some _ => withHeader r (delHeader (delHeader (rq_Header r) "Range") "If-Range") | None => r end.
Definition revalidate (header : HttpHeader) (stale : HttpHeader) : HttpHeader :=
  let etag := headerGet stale "Etag" in
  let modified := headerGet stale "Last-Modified" in
  if negb (bool_decide (etag = "")) then setHeader header "If-None-Match" [etag]
  else if negb (bool_decide (modified = "")) then setHeader header "If-Modified-Since" [modified] else header.
Definition originRequest (r : request) (range : option Spec) (stale : option (response R)) : request :=
  let r := rangeRequest r range in
  match stale with
  | Some stale => withHeader r (revalidate (clearClientPreconditions (rq_Header r)) (rs_Header stale))
  | None => r
  end.

(** What happens outside during a fetch: a free capture slot, the writer's
    oracle, the origin with the error it ends in, whether [PutReader] succeeds,
    and the lookup after it. *)
Record environment := Environment {
  ev_slot : bool; ev_oracle : oracle; ev_outer : HttpHeader; ev_origin : request → list action * bool; ev_put : bool; ev_stored : lookupResult;
}.

Definition captureRun (r origin : request) (baseRaw baseKey : string) (downstream stream : bool) (env : environment) : capture * bool :=
  let '(actions, failed) := ev_origin env origin in
  (performs ToLower sha256hex ParseTime DumpResponse h r (rq_Method origin) baseRaw baseKey
     (newCapturedResponse h downstream stream (ev_outer env) (ev_oracle env)) actions, failed).
(** Trailers, then the response unless it was streamed. *)
Definition finishResponse (r : request) (w : capture) : list reply :=
  let '(w, failed) := WriteResponse ParseTime r (forwardTrailers w) in Captured (w_events w) :: if failed then [Failed] else [].

(** The end of [fetchAndServe] for a response the store encodes. *)
Definition finishStreamEncode (now : Z) (r : request) (range : option Spec) (w : capture) (stale : option (response R)) (m : LookupMetadata)
    (baseRaw : string) (failed incomplete : bool) : list reply * list storageOp :=
  let status := statusOf w in
  if failed || incomplete || staleEligibleStatus status then
    let w := abandonEncode w in
    match stale with
    | Some s => if withinStaleWindow now (lm_FreshUntil m) (h_StaleIfErrorTTL h)
                then ([Captured (w_events w); serveCached now r range s "STALE" baseRaw m], [])
                else ([Captured (w_events (forwardTrailers w))], [])
    | None => ([Captured (w_events (forwardTrailers w))], [])
    end
  else if negb (cacheable h status (w_header w) (w_size w)) then (finishResponse r (abandonEncode w), [])
  else
    let '(w, stored) := finishEncode w in
    (finishResponse r w, match stored with Some (p, body) => [OpPut p body] | None => [] end).

Definition hasStale (stale : option (response R)) : bool := match stale with Some _ => true | None => false end.
(** What [fetchAndServe] does with a complete response: store it, or drop the entry
    it replaces. *)
Definition fetchStore (now : Z) (r : request) (range : option Spec) (baseRaw baseKey : string) (replaces : bool) (w : capture) (status : Z)
    (env : environment) : list reply * list storageOp :=
  if w_discarded w then
    let drops := replaces && (negb (cacheable h status (w_header w) (w_rejectedSize w)) || bool_decide (variedHeaders h r (w_header w) = None)) in
    (finishResponse r w, if drops then [OpDelete baseKey] else [])
  else
    let header := prepareResponse ToLower h (w_header w) status in
    let w := updHeader w header in
    match (if cacheable h status header (w_size w) then variedHeaders h r header else None) with
    | None =>
        let w := if w_streamed w then w else updHeader w (setResultHeaders ToLower sha256hex h header "BYPASS" baseRaw 0) in
        (finishResponse r w, if replaces then [OpDelete baseKey] else [])
    | Some varied =>
        let p := storedPut ToLower sha256hex DumpResponse h r baseKey header status (w_size w) varied in
        let called := o_seek (w_oracle w) in
        let ops := if called then [OpPut p (default [] (w_file w))] else [] in
        let w := if w_streamed w then w else updHeader w (setResultHeaders ToLower sha256hex h header "MISS" baseRaw (ttl h status)) in
        match (if bool_decide (is_Some range) && called && ev_put env then lk_fresh (ev_stored env) else None) with
        | Some fresh => ([Captured (w_events w); serveCached now r range fresh "MISS" baseRaw (lk_metadata (ev_stored env))], ops)
        | None => (finishResponse r w, ops)
        end
    end.
Definition fetchAndServe (now : Z) (r : request) (range : option Spec) (baseRaw baseKey : string) (stale : option (response R)) (m : LookupMetadata)
    (env : environment) : outcome :=
  let origin := originRequest r range stale in
  if negb (ev_slot env) then Outcome [Direct r] [] []
  else
    let ranged := bool_decide (is_Some range) in
    let '(w, failed) := captureRun r origin baseRaw baseKey true (negb (hasStale stale) && negb ranged) env in
    let status := statusOf w in
    let incomplete := responseIncomplete (rq_Method origin) status (w_header w) (w_size w) in
    if bool_decide (is_Some (w_encode w)) then
      let '(replies, ops) := finishStreamEncode now r range w stale m baseRaw failed incomplete in Outcome replies ops [origin]
    else if failed || bool_decide (is_Some (w_captureErr w)) || incomplete || staleEligibleStatus status then
      let serveStale := match stale with Some s => if negb (w_streamed w) && withinStaleWindow now (lm_FreshUntil m) (h_StaleIfErrorTTL h) then Some s else None | None => None end in
      match serveStale with
      | Some s => Outcome [Captured (w_events w); serveCached now r range s "STALE" baseRaw m] [] [origin]
      | None =>
          if bool_decide (is_Some (w_captureErr w)) && negb (w_wrote1xx w) && negb (w_streamed w) then Outcome [Captured (w_events w); Direct r] [] [origin]
          else if w_streamed w then Outcome [Captured (w_events (forwardTrailers w))] [] [origin]
          else if failed || incomplete || bool_decide (is_Some (w_captureErr w)) then Outcome [Captured (w_events w); BadGateway] [] [origin]
          else let '(w, bad) := WriteResponse ParseTime r w in Outcome (Captured (w_events w) :: if bad then [Failed] else []) [] [origin]
      end
    else
      match (if status =? 304 then stale else None) with
      | Some s => let '(served, ops) := handleNotModified now r range s (w_header w) baseRaw baseKey in Outcome [Captured (w_events w); served] ops [origin]
      | None => let '(replies, ops) := fetchStore now r range baseRaw baseKey (hasStale stale) w status env in Outcome replies ops [origin]
      end.

(** ** Refreshing in the background *)

(** [refresh]: [stale] is what the store still has. *)
Definition refresh (r : request) (baseRaw baseKey : string) (stale : option (response R)) (env : environment) : list storageOp * list request :=
  match stale with
  | None => ([], [])
  | Some s =>
      let origin := withHeader r (revalidate (delHeader (clearClientPreconditions (rq_Header r)) "Range") (rs_Header s)) in
      if negb (ev_slot env) then ([], [])
      else
        let '(w, failed) := captureRun r origin baseRaw baseKey false false env in
        let status := statusOf w in
        let unfit size := negb (cacheable h status (w_header w) size) || bool_decide (variedHeaders h r (w_header w) = None) in
        let ops :=
          if failed || bool_decide (is_Some (w_captureErr w)) || responseIncomplete (rq_Method origin) status (w_header w) (w_size w) || staleEligibleStatus status then
            if bool_decide (w_captureErr w = Some ErrCaptureLimit) && unfit (w_rejectedSize w) then [OpDelete baseKey] else []
          else if status =? 304 then
            if admitRevalidated h r (rs_StatusCode s) (rs_ContentLength s) (rs_Header s) (w_header w)
            then [OpRefresh baseKey (ttl h (rs_StatusCode s)) (w_header w)] else [OpDelete baseKey]
          else
            let header := prepareResponse ToLower h (w_header w) status in
            match (if cacheable h status header (w_size w) then variedHeaders h r header else None) with
            | None => [OpDelete baseKey]
            | Some varied =>
                let p := storedPut ToLower sha256hex DumpResponse h r baseKey header status (w_size w) varied in
                if o_seek (w_oracle w) then [OpPut p (default [] (w_file w))] else []
            end in
        (ops, [origin])
  end.

(** ** [ServeHTTP] *)

(** The choices of other requests: who leads a flight, whether the client goes
    away while waiting, and the lookup after the wait. *)
Record flightAnswers := FlightAnswers { fa_refreshes : bool; fa_leads : bool; fa_cancelled : bool; fa_after : lookupResult }.
(** The outcome, and whether a refresh was started. *)
Definition ServeHTTP (now : Z) (r : request) (range : option Spec) (found : lookupResult) (flight : flightAnswers) (env : environment) : outcome * bool :=
  if negb (bool_decide (headerGet (rq_Header r) "Authorization" = "")) then (Outcome [Direct r] [] [], false)
  else
    let baseRaw := cacheKey ToLower h r None in
    let baseKey := storageKey sha256hex h baseRaw in
    let m := lk_metadata found in
    let fresh := (λ resp, applyRevalidatedHeaders resp (lm_Headers m)) <$> lk_fresh found in
    let stale := (λ resp, applyRevalidatedHeaders resp (lm_Headers m)) <$> lk_stale found in
    match fresh with
    | Some f => (Outcome [serveCached now r range f "HIT" baseRaw m] [] [], false)
    | None =>
        match (if withinStaleWindow now (lm_FreshUntil m) (h_StaleWhileRevalidateTTL h) then stale else None) with
        | Some s => (Outcome [serveCached now r range s "STALE" baseRaw m] [] [], fa_refreshes flight)
        | None =>
            if h_Coalesce h && negb (fa_leads flight) then
              if fa_cancelled flight then (Outcome [Failed] [] [], false)
              else
                let after := fa_after flight in
                match lk_fresh after with
                | Some f => (Outcome [serveCached now r range (applyRevalidatedHeaders f (lm_Headers (lk_metadata after))) "HIT" baseRaw (lk_metadata after)] [] [], false)
                | None => (fetchAndServe now r range baseRaw baseKey stale (lk_metadata after) env, false)
                end
            else (fetchAndServe now r range baseRaw baseKey stale m env, false)
        end
    end.

End Handler.
Arguments reply : clear implicits.
Arguments outcome : clear implicits.
Arguments lookupResult : clear implicits.
Arguments environment : clear implicits.
Arguments flightAnswers : clear implicits.

(** ** Flights *)

(** [beginFlight], [flightDone] and [endFlight]: the table maps a key to the
    channel of its flight; a channel is a number, and [closed] holds the closed
    ones. *)
Record Flights := MkFlights { fl_table : gmap string nat; fl_closed : gset nat; fl_next : nat }.
Definition noFlights : Flights := MkFlights ∅ ∅ 0.
Definition beginFlight (f : Flights) (key : string) : Flights * bool :=
  match fl_table f !! key with
  | Some _ => (f, false)
  | None => (MkFlights (<[key := fl_next f]> (fl_table f)) (fl_closed f) (S (fl_next f)), true)
  end.
(** The channel to wait on; without a flight, a new one that is already closed. *)
Definition flightDone (f : Flights) (key : string) : Flights * nat :=
  match fl_table f !! key with
  | Some channel => (f, channel)
  | None => (MkFlights (fl_table f) ({[fl_next f]} ∪ fl_closed f) (S (fl_next f)), fl_next f)
  end.
Definition endFlight (f : Flights) (key : string) : Flights :=
  match fl_table f !! key with
  | Some channel => MkFlights (delete key (fl_table f)) ({[channel]} ∪ fl_closed f) (fl_next f)
  | None => f
  end.

(** Requests that miss with [Coalesce] on: new ones, leaders, those about to wait
    or waiting on a channel, and those that were released.  A released request
    ([Proceeding]) looks the entry up again and, if it is still not there, calls
    [fetchAndServe] without a flight of its own: it fetches beside whoever leads
    by then.  Requests with [Coalesce] off and background refreshes, which lead
    flights under keys of their own, do not take part. *)
Inductive fetcher := Arriving | Leading | Turned | WaitingOn (channel : nat) | Proceeding | Finished.
Record flightWorld := FlightWorld { fw_flights : Flights; fw_requests : gmap nat (string * fetcher) }.
Definition setRequest (w : flightWorld) (f : Flights) (id : nat) (key : string) (s : fetcher) : flightWorld := FlightWorld f (<[id := (key, s)]> (fw_requests w)).
Inductive flightStep : flightWorld → flightWorld → Prop :=
| flight_arrive w id key : fw_requests w !! id = None → flightStep w (setRequest w (fw_flights w) id key Arriving)
| flight_begin w id key f leads : fw_requests w !! id = Some (key, Arriving) → beginFlight (fw_flights w) key = (f, leads) →
    flightStep w (setRequest w f id key (if leads then Leading else Turned))
| flight_wait w id key f channel : fw_requests w !! id = Some (key, Turned) → flightDone (fw_flights w) key = (f, channel) →
    flightStep w (setRequest w f id key (WaitingOn channel))
| flight_wake w id key channel : fw_requests w !! id = Some (key, WaitingOn channel) → channel ∈ fl_closed (fw_flights w) →
    flightStep w (setRequest w (fw_flights w) id key Proceeding)
| flight_cancel w id key channel : fw_requests w !! id = Some (key, WaitingOn channel) → flightStep w (setRequest w (fw_flights w) id key Finished)
| flight_proceed w id key : fw_requests w !! id = Some (key, Proceeding) → flightStep w (setRequest w (fw_flights w) id key Finished)
| flight_end w id key : fw_requests w !! id = Some (key, Leading) → flightStep w (setRequest w (endFlight (fw_flights w) key) id key Finished).
Definition flightReachable (w : flightWorld) : Prop := rtc flightStep (FlightWorld noFlights ∅) w.
