(* ===== verification/CacheHandlerTheorems.v ===== *)
(** * What the cache handler guarantees

    Whatever the origin answers and whatever fails: what reaches the store is
    complete and carries no directive against sharing; a request with credentials
    never touches the store; a failing origin is covered by a stale entry that
    stays in the store; the origin is asked with the validators of the store and
    never with those of the client; one request at a time leads the fetch for a
    key, and nobody waits for a fetch that is over. *)
From Stdlib Require Import ZArith NArith Lia Ascii String.
From Stdlib.Strings Require Import Byte.
From stdpp Require Import base numbers strings gmap option list relations.
From S2P Require Import Prelude Http HttpConditional CacheRange CacheRules CacheRulesTheorems CaptureResponse CaptureTheorems CacheHandler.

Local Open Scope Z_scope.

(** ** Headers that decide about sharing *)

Definition sameRules (a b : HttpHeader) : Prop :=
  headerValues a "Cache-Control" = headerValues b "Cache-Control" ∧ headerValues a "Set-Cookie" = headerValues b "Set-Cookie".
#[local] Instance sameRules_refl : Reflexive sameRules.
Proof. by split. Qed.
#[local] Instance sameRules_trans : Transitive sameRules.
Proof. intros a b c [] []. split; congruence. Qed.
Lemma set_rules header name values : name ≠ "Cache-Control" → name ≠ "Set-Cookie" → sameRules (setHeader header name values) header.
Proof. intros H1 H2. split; unfold headerValues, setHeader; by rewrite lookup_insert_ne. Qed.
Lemma del_rules header name : name ≠ "Cache-Control" → name ≠ "Set-Cookie" → sameRules (delHeader header name) header.
Proof. intros H1 H2. split; unfold headerValues, delHeader; by rewrite lookup_delete_ne. Qed.
Lemma cacheable_rules h status a b size : sameRules a b → cacheable h status a size = cacheable h status b size.
Proof. intros [H1 H2]. unfold cacheable, controlOf, headerGet. by rewrite H1, H2. Qed.

Section Handler.
Context {R : Type} `{ObjectBytes R}.
Variables (ToLower sha256hex : string → string) (ParseTime : string → option Z) (DumpResponse : Z → HttpHeader → Z → list byte).
Variable h : Handler.

Lemma result_rules header result key t : sameRules (setResultHeaders ToLower sha256hex h header result key t) header.
Proof.
  unfold setResultHeaders. set (status := if h_HideKey h then _ else _). clearbody status.
  set (h1 := if h_Debug h then _ else _). assert (sameRules h1 header) as H1 by (unfold h1; destruct (h_Debug h); [by apply set_rules|by apply del_rules]). clearbody h1.
  set (h2 := if h_XCache h then _ else _). assert (sameRules h2 header) as H2 by (unfold h2; destruct (h_XCache h); (etransitivity; [|exact H1]); [by apply set_rules|by apply del_rules]).
  clearbody h2. destruct (_ && _); [destruct (bool_decide _); [|done]|]; (etransitivity; [|exact H2]); [by apply set_rules|by apply del_rules].
Qed.
Lemma storage_rules header : sameRules (cacheStorageHeader h header) header.
Proof.
  unfold cacheStorageHeader. destruct (_ || _); [done|]. destruct (headerValues header _); [by apply del_rules|by apply set_rules].
Qed.
Lemma serialized_rules status header size method : sameRules (serializedHeader status header size method).1 header.
Proof.
  unfold serializedHeader. set (h1 := delHeader header "Transfer-Encoding"). assert (sameRules h1 header) as H1 by (by apply del_rules). clearbody h1.
  destruct (bool_decide (method = "HEAD")).
  - destruct (parseInt _) as [declared ok]. cbn [fst]. etransitivity; [|exact H1]. by apply set_rules.
  - destruct (_ && _); cbn [fst]; [|done]. etransitivity; [|exact H1]. by apply set_rules.
Qed.

(** ** What may be stored *)

Section Request.
Variables (r : request) (baseRaw baseKey : string).

(** An object a shared cache may keep for this request. *)
Record putSafe (p : put) : Prop := {
  ps_status : cacheableStatus (pu_status p) = true;
  ps_ttl : pu_ttl p = ttl h (pu_status p) ∧ 0 < pu_ttl p;
  ps_cookie : headerGet (pu_header p) "Set-Cookie" = "";
  ps_shared : ∀ name, name ∈ unsharedNames → hasDirective (controlOf (pu_header p)) name = false;
  ps_base : pu_baseKey p = baseKey;
  ps_key : pu_variedKey p = storageKey sha256hex h (cacheKey ToLower h r (Some (pu_varied p)));
  ps_purge : pu_realKey p = purgeKey ToLower r;
}.
Lemma cacheable_spec status header size : cacheable h status header size = true →
  cacheableStatus status = true ∧ 0 < ttl h status ∧ headerGet header "Set-Cookie" = "" ∧ unshared (controlOf header) = false.
Proof.
  unfold cacheable. destruct (cacheableStatus status); [|done]. cbn [negb orb]. destruct (status =? 304); [done|].
  destruct (ttl h status <=? 0) eqn:Et; [done|]. cbn [orb]. destruct (_ && _); [done|]. cbn [orb].
  destruct (bool_decide (headerGet header "Set-Cookie" = "")) eqn:Ec; [|done]. cbn [negb]. intros Hc. b2p. by split_and!; try lia.
Qed.
Lemma unshared_names control : unshared control = false → ∀ name, name ∈ unsharedNames → hasDirective control name = false.
Proof.
  unfold unshared. intros Hu. b2p. intros name Hn. unfold unsharedNames in Hn.
  repeat (apply elem_of_cons in Hn as [->|Hn]; [done|]). by apply elem_of_nil in Hn.
Qed.
Lemma stored_safe header status size size' varied : cacheable h status header size = true →
  putSafe (storedPut ToLower sha256hex DumpResponse h r baseKey header status size' varied).
Proof.
  intros Hc. pose proof (serialized_rules status (cacheStorageHeader h header) size' (rq_Method r)) as Hr.
  assert (sameRules (serializedHeader status (cacheStorageHeader h header) size' (rq_Method r)).1 header) as [R1 R2] by (etransitivity; [exact Hr|apply storage_rules]).
  destruct (cacheable_spec _ _ _ Hc) as (Hs & Ht & Hk & Hu).
  unfold storedPut. destruct (serializedHeader _ _ _ _) as [head cl]. cbn [fst] in *.
  split; cbn [pu_status pu_ttl pu_header pu_baseKey pu_variedKey pu_varied pu_realKey]; try done.
  - unfold headerGet in *. by rewrite R2.
  - unfold controlOf in *. rewrite R1. by apply unshared_names.
Qed.
Lemma stored_status header status size varied : pu_status (storedPut ToLower sha256hex DumpResponse h r baseKey header status size varied) = status.
Proof. unfold storedPut. by destruct (serializedHeader _ _ _ _). Qed.

(** The session of an encoder stores a safe object. *)
Definition encodeSafe (w : capture) : Prop := ∀ e, w_encode w = Some e → putSafe (en_put e) ∧ pu_status (en_put e) = w_status w.
Lemma start_safe w header status size varied : encodeSafe w → w_status w = status → cacheable h status header size = true →
  encodeSafe (startEncode ToLower sha256hex DumpResponse h r baseRaw baseKey w header status size varied).
Proof.
  intros Hw Hst Hc. unfold startEncode. pose proof (conj (stored_safe header status size size varied Hc) (stored_status header status size varied)) as Hp.
  set (p := storedPut _ _ _ _ _ _ _ _ _ _) in *. clearbody p. rewrite <- Hst in Hp.
  destruct ((0 <? w_limit w) && (w_limit w <? size)); [done|]. unfold reserveCapture. destruct (_ <? pu_size p); [done|].
  destruct (_ <=? w_reserved w); [intros e [= <-]; exact Hp|]. destruct (pop _ false) as [[] rest]; [intros e [= <-]; exact Hp|done].
Qed.
Lemma prepare_safe method w status : w_encode w = None → w_status w = status → encodeSafe (prepareStream ToLower sha256hex ParseTime DumpResponse h r method baseRaw baseKey w status).
Proof.
  intros He Hst. unfold prepareStream. set (header := prepareResponse ToLower h (w_header w) status).
  set (c := cacheable h status header (declaredResponseSize header) && _). set (header' := if c then _ else _).
  assert (sameRules header' header) as Hr by (unfold header'; destruct c; apply result_rules).
  clearbody header'. assert (∀ w', w_encode w' = None → encodeSafe w') as Hn by (intros w' Hx e; congruence).
  destruct (negb (_ =? 0)); [by apply Hn|]. destruct (c && _ && _ && _ && _) eqn:Ec.
  - apply start_safe; [by apply Hn|done|]. rewrite (cacheable_rules _ _ _ _ _ Hr). b2p. unfold c in *. by b2p.
  - destruct (negb c); by apply Hn.
Qed.
Lemma header_safe method w status : encodeSafe w → (w_wroteHeader w = false → w_encode w = None) →
  encodeSafe (WriteHeader ToLower sha256hex ParseTime DumpResponse h r method baseRaw baseKey w status).
Proof.
  intros Hw Hf. unfold WriteHeader. destruct (w_wroteHeader w); [done|]. destruct (_ && _ && _); [unfold forwardInformational; by destruct (negb (w_downstream w))|].
  set (w1 := updDeclaredSize _ _). assert (w_encode w1 = None ∧ w_status w1 = status) as [H1 H1s] by (split; [by apply Hf|done]). clearbody w1.
  destruct (w_stream w1 && w_downstream w1); [|intros e; congruence]. pose proof (prepare_safe method w1 status H1 H1s) as Hp.
  set (w2 := prepareStream _ _ _ _ _ _ _ _ _ w1 status) in *. clearbody w2. exact Hp.
Qed.
Lemma stop_encode w : w_encode (stopCapture ToLower sha256hex ParseTime h r baseRaw w).1 = w_encode w.
Proof.
  unfold stopCapture. destruct (w_streamed w); [done|]. destruct (negb (w_downstream w)); [done|].
  set (header := bypassHeader _ _ _ _ _ _). clearbody header. set (conditional := conditionalStatus _ _ _ _). clearbody conditional.
  set (w1 := if conditional =? 0 then updHeader w header else _). assert (w_encode w1 = w_encode w) as H1 by (unfold w1; by destruct (conditional =? 0)).
  clearbody w1. set (w2 := updStreamed _ true). assert (w_encode w2 = w_encode w) as H2 by done. clearbody w2.
  destruct (w_suppressBody w2); [done|]. destruct (negb (o_seek (w_oracle w2))); [done|]. cbn [fst].
  destruct (client_fields w2 (default [] (w_file w2))) as (_ & _ & _ & _ & _ & _ & _ & _ & _ & _ & He & _). cbn. by rewrite He.
Qed.
Lemma capture_idle w v : w_encode w = None → w_encode (captureWrite ToLower sha256hex ParseTime h r baseRaw w v).1 = None.
Proof.
  intros He. unfold captureWrite. rewrite He. destruct (w_discarded w); [done|]. set (q := if (0 <? w_limit w) && _ then (w, false) else _).
  assert (w_encode q.1 = None) as Hq.
  { unfold q. destruct (_ && _); [done|]. unfold reserveCapture. destruct (_ <? _); [done|]. destruct (_ <=? _); [done|]. by destruct (pop _ false) as [[] rest]. }
  clearbody q. destruct q as [w1 fits]. cbn [fst] in Hq. set (s := if fits then (w1, None) else _).
  assert (w_encode s.1 = None) as Hs by (unfold s; destruct fits; [done|by rewrite stop_encode]). clearbody s. destruct s as [w2 [e|]]; [done|]. cbn [fst] in Hs.
  destruct (w_discarded w2); [done|]. unfold spoolWrite. destruct (pop (o_file (w_oracle w2)) None) as [[n|] rest]; [|done]. by destruct (w_streamed _).
Qed.
Lemma capture_safe w v : encodeSafe w → encodeSafe (captureWrite ToLower sha256hex ParseTime h r baseRaw w v).1.
Proof.
  intros Hw. destruct (w_encode w) as [e|] eqn:He; [unfold captureWrite; rewrite He|].
  - cbn [fst]. set (w1 := if _ || _ then _ else _). assert (encodeSafe w1) as H1; [|exact H1].
    unfold w1. destruct (_ || _); [intros e' [= <-]; exact (Hw e He)|]. unfold encodeWrite. destruct (_ || _); [done|].
    destruct (pop _ false) as [[] rest]; intros e' [= <-]; exact (Hw e He).
  - intros e. by rewrite capture_idle.
Qed.
(** A response that is not streamed is not encoded. *)
Lemma header_idle method w status : w_stream w = false → w_encode w = None → w_encode (WriteHeader ToLower sha256hex ParseTime DumpResponse h r method baseRaw baseKey w status) = None.
Proof.
  intros Hs He. unfold WriteHeader. destruct (w_wroteHeader w); [done|]. destruct (_ && _ && _); [unfold forwardInformational; by destruct (negb (w_downstream w))|].
  set (w1 := updDeclaredSize _ _). assert (w_stream w1 = false ∧ w_encode w1 = None) as [H1 H2] by done. clearbody w1. by rewrite H1.
Qed.
Lemma performs_idle method actions : ∀ w, w_stream w = false → w_encode w = None →
  w_encode (performs ToLower sha256hex ParseTime DumpResponse h r method baseRaw baseKey w actions) = None.
Proof.
  induction actions as [|a actions IH]; intros w Hs He; [done|]. unfold performs. cbn [foldl].
  pose proof (constants_perform ToLower sha256hex ParseTime DumpResponse h r method baseRaw baseKey w a) as Hk. injection Hk as _ _ _ Hk. apply IH; [congruence|].
  assert (w_encode (if w_wroteHeader w then w else WriteHeader ToLower sha256hex ParseTime DumpResponse h r method baseRaw baseKey w 200) = None) as Hh
    by (destruct (w_wroteHeader w); [done|by apply header_idle]).
  destruct a as [header|status|v|]; cbn [perform]; [done|by apply header_idle| |exact Hh].
  unfold Write. set (w1 := if w_wroteHeader w then w else _) in *. clearbody w1. pose proof (capture_idle w1 v Hh) as Hc.
  destruct (captureWrite _ _ _ _ _ _ w1 v) as [w2 [e|]]; cbn [fst] in *; [done|]. destruct (_ && _ && _); [|done].
  destruct (client_fields w2 v) as (_ & _ & _ & _ & _ & _ & _ & _ & _ & _ & -> & _). done.
Qed.
Lemma performs_safe method actions : ∀ w sent, captureInv w sent sent → encodeSafe w →
  encodeSafe (performs ToLower sha256hex ParseTime DumpResponse h r method baseRaw baseKey w actions).
Proof.
  induction actions as [|a actions IH]; intros w sent Hw Hs; [done|]. unfold performs. cbn [foldl].
  assert (∀ w sent, captureInv w sent sent → encodeSafe w → encodeSafe (if w_wroteHeader w then w else WriteHeader ToLower sha256hex ParseTime DumpResponse h r method baseRaw baseKey w 200)) as Hh.
  { intros w0 s0 Hw0 Hs0. destruct (w_wroteHeader w0) eqn:E; [done|]. apply header_safe; [done|]. intros Hx. by destruct (ci_fresh _ _ _ Hw0 Hx) as (_ & _ & _ & _ & ? & _). }
  destruct a as [header|status|v|]; cbn [perform].
  - apply (IH _ sent); [by destruct Hw; split|done].
  - apply (IH _ sent); [by apply header_inv|]. apply header_safe; [done|]. intros Hx. by destruct (ci_fresh _ _ _ Hw Hx) as (_ & _ & _ & _ & ? & _).
  - apply (IH _ (sent ++ v)); [by apply write_inv|]. unfold Write. specialize (Hh w sent Hw Hs). set (w1 := if w_wroteHeader w then w else _) in *. clearbody w1.
    pose proof (capture_safe w1 v Hh) as Hc. destruct (captureWrite _ _ _ _ _ _ w1 v) as [w2 [e|]]; cbn [fst] in *; [done|].
    destruct (_ && _ && _); [|done]. destruct (client_fields w2 v) as (_ & _ & _ & _ & _ & _ & _ & _ & _ & _ & He & _). intros e. rewrite He.
    pose proof (view_client w2 v) as Hv. injection Hv as _ Es _ _ _ _ _ _. rewrite Es. apply Hc.
  - apply (IH _ sent); [unfold Flush; destruct (w_wroteHeader w); [done|by apply header_inv]|]. by apply (Hh w sent).
Qed.

(** ** What reaches the store *)

(** A stored response that may stay once the headers of a 304 are merged into it. *)
Record mergedSafe (stale : response R) (update : HttpHeader) : Prop := {
  ms_status : cacheableStatus (rs_StatusCode stale) = true;
  ms_cookie : headerGet (merge304Headers (rs_Header stale) update) "Set-Cookie" = "";
  ms_shared : ∀ name, name ∈ unsharedNames → hasDirective (controlOf (merge304Headers (rs_Header stale) update)) name = false;
  ms_vary : ∃ old new, variedHeaders h r (rs_Header stale) = Some old ∧ variedHeaders h r (merge304Headers (rs_Header stale) update) = Some new
              ∧ varyNamesEqual old new = true;
}.
(** An operation on the store after the origin did [run] while [stale] was
    stored and [method] was asked for: an object is the whole response of an
    origin that did not fail, as long as the origin announced. *)
Definition announced (method : string) (actions : list action) (body : list byte) : Prop :=
  method ≠ "HEAD" → originStatus actions ≠ 204 → ∀ n, parseInt (headerGet (originHeader actions) "Content-Length") = (n, true) → 0 ≤ n → zlen body = n.
Definition opSafe (method : string) (stale : option (response R)) (run : list action * bool) (op : storageOp) : Prop :=
  match op with
  | OpPut p body => putSafe p ∧ run.2 = false ∧ pu_status p = originStatus run.1 ∧ body = originBytes run.1 ∧ announced method run.1 body
  | OpRefresh key t update => key = baseKey ∧ run.2 = false ∧ ∃ s, stale = Some s ∧ t = ttl h (rs_StatusCode s) ∧ 0 < t ∧ mergedSafe s update
  | OpDelete key => key = baseKey ∧ is_Some stale
  end.
Lemma admit_safe stale update : admitRevalidated h r (rs_StatusCode stale) (rs_ContentLength stale) (rs_Header stale) update = true →
  0 < ttl h (rs_StatusCode stale) ∧ mergedSafe stale update.
Proof.
  unfold admitRevalidated. destruct (cacheable _ _ _ _) eqn:Ec; [|done]. cbn [negb]. destruct (cacheable_spec _ _ _ Ec) as (H1 & H2 & H3 & H4).
  destruct (variedHeaders h r (rs_Header stale)) as [old|] eqn:Eo; [|done].
  destruct (variedHeaders h r (merge304Headers _ _)) as [new|] eqn:En; [|done]. intros Hv. split; [done|]. split; try done; [by apply unshared_names|]. by exists old, new.
Qed.

(** The response a fetch captures. *)
Record captured (w : capture) (run : list action * bool) : Prop := {
  cd_inv : captureInv w (originBytes run.1) (originBytes run.1);
  cd_encode : encodeSafe w;
  cd_answer : answered ParseTime r w run.1;
}.
(** What the handler tests at the end is that the response is as long as announced. *)
Lemma complete_announced method w run : captured w run → w_discarded w = false → cacheableStatus (originStatus run.1) = true →
  w_size w = zlen (originBytes run.1) → responseIncomplete method (statusOf w) (w_header w) (w_size w) = false → announced method run.1 (originBytes run.1).
Proof.
  intros [_ _ Ha] Hd Hc Hsz Hi Hm H204 n Hn Hpos. rewrite (status_of _ _ _ _ Ha) in Hi.
  assert (headerGet (w_header w) "Content-Length" = headerGet (originHeader run.1) "Content-Length") as El.
  { unfold headerGet. rewrite (an_header _ _ _ _ Ha "Content-Length"); [done|by apply (bool_decide_unpack _)|by rewrite Hd]. }
  unfold responseIncomplete in Hi. rewrite El, Hn, (bool_decide_eq_false_2 _ Hm), (proj2 (Z.eqb_neq _ _) H204) in Hi.
  assert ((originStatus run.1 <? 200) = false ∧ (originStatus run.1 =? 304) = false) as [E200 E304].
  { unfold cacheableStatus in Hc. b2p. repeat (apply elem_of_cons in Hc as [->|Hc]; [done|]). by apply elem_of_nil in Hc. }
  rewrite E200, E304 in Hi. cbn [orb andb] in Hi. rewrite (proj2 (Z.leb_le _ _) Hpos) in Hi. cbn [andb] in Hi. b2p. lia.
Qed.
Lemma capture_run origin downstream stream (env : environment R) :
  let '(w, failed) := captureRun ToLower sha256hex ParseTime DumpResponse h r origin baseRaw baseKey downstream stream env in
  captured w (ev_origin env origin) ∧ failed = (ev_origin env origin).2 ∧ w_downstream w = downstream ∧ (stream = false → w_encode w = None).
Proof.
  unfold captureRun. destruct (ev_origin env origin) as [actions failed]. set (w0 := newCapturedResponse _ _ _ _ _).
  pose proof (new_inv h downstream stream (ev_outer env) (ev_oracle env)) as H0. fold w0 in H0.
  pose proof (constants_performs ToLower sha256hex ParseTime DumpResponse h r (rq_Method origin) baseRaw baseKey actions w0) as Hk. injection Hk as Hk _ _ _. split; [|split_and!; [done..|intros ->; by apply performs_idle]]. split; cbn [fst]; [| |exact (answered_performs ToLower sha256hex ParseTime DumpResponse h r (rq_Method origin) baseRaw baseKey actions w0 [] (answered_new _ _ _ _ _ _ _))].
  - exact (performs_inv ToLower sha256hex ParseTime DumpResponse h r (rq_Method origin) baseRaw baseKey actions w0 [] H0).
  - apply (performs_safe _ actions w0 [] H0). intros e. by destruct (ci_fresh _ _ _ H0 eq_refl) as (_ & _ & _ & _ & -> & _).
Qed.
(** Without a client nothing is streamed: the capture is a spool. *)
Lemma background_capture w run : captured w run → w_downstream w = false → w_discarded w = false ∧ w_encode w = None.
Proof.
  intros [Hi _] Hdn. assert (w_streamed w = false) as Hst by (destruct (w_streamed w) eqn:E; [apply (ci_down _ _ _ Hi) in E; congruence|done]). split.
  - destruct (w_discarded w) eqn:Hd; [|done]. apply (ci_discarded _ _ _ Hi) in Hd. apply (ci_released _ _ _ Hi) in Hd as (_ & ? & _). congruence.
  - destruct (w_encode w) as [e|] eqn:He; [|done]. destruct (ci_encode _ _ _ Hi e He). congruence.
Qed.
(** What a spooled response stores. *)
Lemma spool_bytes w run : captured w run → w_discarded w = false → w_captureErr w = None → w_encode w = None → o_seek (w_oracle w) = true →
  default [] (w_file w) = originBytes run.1.
Proof.
  intros Hw Hd Hc He Hs. destruct (w_file w) as [spool|] eqn:Hf.
  - cbn. by apply (ci_spool _ _ _ (cd_inv _ _ Hw)).
  - rewrite (proj2 (ci_discarded _ _ _ (cd_inv _ _ Hw)) Hf) in Hd. done.
Qed.
Lemma spool_put method w run header varied stale op : captured w run → run.2 = false → w_discarded w = false → w_captureErr w = None → w_encode w = None →
  responseIncomplete method (statusOf w) (w_header w) (w_size w) = false → cacheable h (statusOf w) header (w_size w) = true →
  op ∈ (if o_seek (w_oracle w) then [OpPut (storedPut ToLower sha256hex DumpResponse h r baseKey header (statusOf w) (w_size w) varied) (default [] (w_file w))] else []) →
  opSafe method stale run op.
Proof.
  intros Hw Hr Hd Hc He Hi Ha Ho. destruct (o_seek (w_oracle w)) eqn:Es; [|by apply elem_of_nil in Ho].
  apply list_elem_of_singleton in Ho as ->. pose proof (spool_bytes w run Hw Hd Hc He Es) as Hb. pose proof (status_of _ _ _ _ (cd_answer _ _ Hw)) as Hst.
  cbn [opSafe]. rewrite Hb, stored_status. split_and!; [by eapply stored_safe|done|done|done|]. eapply complete_announced; try done.
  - rewrite <- Hst. by destruct (cacheable_spec _ _ _ Ha).
  - destruct (w_file w) as [spool|] eqn:Hf; [|by rewrite (proj2 (ci_discarded _ _ _ (cd_inv _ _ Hw)) Hf) in Hd]. cbn in Hb. subst spool.
    by destruct (ci_room _ _ _ (cd_inv _ _ Hw) _ Hf He).
Qed.

Notation fetchAndServe := (fetchAndServe ToLower sha256hex ParseTime DumpResponse h).
Lemma store_ops method now range replaces w env run stale op : captured w run → run.2 = false → w_captureErr w = None → w_encode w = None →
  (replaces = true → is_Some stale) → responseIncomplete method (statusOf w) (w_header w) (w_size w) = false →
  op ∈ (fetchStore ToLower sha256hex ParseTime DumpResponse h now r range baseRaw baseKey replaces w (statusOf w) env).2 → opSafe method stale run op.
Proof.
  intros Hw Hr Hc He Hs Hi. assert (∀ b : bool, (b = true → replaces = true) → op ∈ (if b then [OpDelete baseKey] else []) → opSafe method stale run op) as Hdel.
  { intros [] Hb Ho; [|by apply elem_of_nil in Ho]. apply list_elem_of_singleton in Ho as ->. split; [done|auto]. }
  unfold fetchStore. destruct (w_discarded w) eqn:Hd; cbn [snd].
  { apply Hdel. by destruct replaces. }
  set (header := prepareResponse _ _ _ _). clearbody header. cbn [w_size updHeader w_oracle w_file w_streamed].
  destruct (cacheable h (statusOf w) header (w_size w)) eqn:Ec; [|cbn [snd]; by apply Hdel].
  destruct (variedHeaders h r header) as [varied|]; [|cbn [snd]; by apply Hdel].
  intros Ho. eapply (spool_put method w run header varied); try done.
  destruct (if _ && _ && ev_put env then _ else None) as [fresh|]; exact Ho.
Qed.
Lemma not_modified_ops method now range (s : response R) update op run : run.2 = false →
  op ∈ (handleNotModified ToLower sha256hex ParseTime h now r range s update baseRaw baseKey).2 → opSafe method (Some s) run op.
Proof.
  intros Hr Ho. unfold handleNotModified in Ho. cbn [snd] in Ho. apply list_elem_of_singleton in Ho as ->.
  destruct (admitRevalidated _ _ _ _ _ _) eqn:Ea; [|by split]. destruct (admit_safe _ _ Ea). split_and!; try done. by exists s.
Qed.
Lemma encode_ops method now range w run (stale : option (response R)) m failed op : captured w run → failed = run.2 →
  op ∈ (finishStreamEncode ToLower sha256hex ParseTime h now r range w stale m baseRaw failed (responseIncomplete method (statusOf w) (w_header w) (w_size w))).2 →
  opSafe method stale run op.
Proof.
  intros Hw Hf Ho. unfold finishStreamEncode in Ho. destruct (_ || _) eqn:E.
  { destruct stale as [s|]; [destruct (withinStaleWindow _ _ _)|]; by apply elem_of_nil in Ho. }
  destruct (negb _); [by apply elem_of_nil in Ho|]. unfold finishEncode in Ho. destruct (w_encode w) as [e|] eqn:He; cbn [snd] in Ho; [|by apply elem_of_nil in Ho].
  destruct (en_dropped e) eqn:Hd; [by apply elem_of_nil in Ho|]. apply list_elem_of_singleton in Ho as ->. b2p. subst failed.
  destruct (ci_encode _ _ _ (cd_inv _ _ Hw) e He) as (_ & Hf & _ & _ & Hsz & Hx). destruct (Hx Hd) as (Hb & _). destruct (cd_encode _ _ Hw e He) as [Hp Hst].
  pose proof (status_of _ _ _ _ (cd_answer _ _ Hw)) as Ho. pose proof (ps_status _ Hp) as Hcs.
  assert (pu_status (en_put e) = originStatus run.1) as Eo.
  { rewrite <- Ho, Hst. unfold statusOf. destruct (w_status w =? 0) eqn:Ez; [|done]. b2p. by rewrite Hst, Ez in Hcs. }
  cbn [opSafe]. rewrite Hb. split_and!; try done. eapply complete_announced; try done; [|by rewrite <- Eo].
  destruct (w_discarded w) eqn:Hdis; [|done]. apply (ci_discarded _ _ _ (cd_inv _ _ Hw)) in Hdis. congruence.
Qed.
Lemma fetch_ops now range stale m env op : op ∈ oc_ops (fetchAndServe now r range baseRaw baseKey stale m env) →
  opSafe (rq_Method (originRequest r range stale)) stale (ev_origin env (originRequest r range stale)) op.
Proof.
  unfold CacheHandler.fetchAndServe. set (origin := originRequest r range stale). destruct (negb (ev_slot env)); [intros Ho; by apply elem_of_nil in Ho|].
  pose proof (capture_run origin true (negb (hasStale stale) && negb (bool_decide (is_Some range))) env) as Hrun.
  destruct (captureRun _ _ _ _ _ _ _ _ _ _ _ _) as [w failed]. destruct Hrun as (Hw & -> & Hdn & Hidle). set (run := ev_origin env origin) in *. clearbody run.
  destruct (bool_decide (is_Some (w_encode w))) eqn:He.
  { set (x := finishStreamEncode _ _ _ _ _ _ _ _ _ _ _ _ _). intros Ho.
    assert (op ∈ x.2) as Hx by (by destruct x). by eapply encode_ops. }
  apply bool_decide_eq_false in He. apply eq_None_not_Some in He. destruct (_ || _) eqn:Hbad.
  { clear Hbad. intros Ho. exfalso. apply (not_elem_of_nil op). destruct (match stale with Some s => _ | None => None end); [exact Ho|].
    destruct (_ && _ && _); [exact Ho|]. destruct (w_streamed w); [exact Ho|]. destruct (_ || _); [exact Ho|].
    destruct (WriteResponse _ _ _). exact Ho. }
  b2p. assert (w_captureErr w = None) as Hc by (by apply eq_None_not_Some).
  destruct (if _ =? 304 then stale else None) as [s|] eqn:Es.
  - destruct (statusOf w =? 304); [|done]. subst stale. set (x := handleNotModified _ _ _ _ _ _ _ _ _ _ _). intros Ho.
    assert (op ∈ x.2) as Hx by (by destruct x). by eapply not_modified_ops.
  - set (x := fetchStore _ _ _ _ _ _ _ _ _ _ _ _ _ _). intros Ho.
    assert (op ∈ x.2) as Hx by (by destruct x). eapply store_ops; try done. by destruct stale.
Qed.
Lemma refresh_ops stale env op : op ∈ (refresh ToLower sha256hex ParseTime DumpResponse h r baseRaw baseKey stale env).1 →
  ∃ origin, origin ∈ (refresh ToLower sha256hex ParseTime DumpResponse h r baseRaw baseKey stale env).2 ∧ opSafe (rq_Method origin) stale (ev_origin env origin) op.
Proof.
  unfold refresh. destruct stale as [s|]; [|intros Ho; by apply elem_of_nil in Ho]. set (origin := withHeader _ _). clearbody origin.
  destruct (negb (ev_slot env)); [intros Ho; by apply elem_of_nil in Ho|]. pose proof (capture_run origin false false env) as Hrun.
  destruct (captureRun _ _ _ _ _ _ _ _ _ _ _ _) as [w failed]. destruct Hrun as (Hw & -> & Hdn & Hidle). cbn [fst snd]. intros Ho. exists origin. split; [by apply list_elem_of_singleton|].
  set (run := ev_origin env origin) in *. clearbody run. assert (op = OpDelete baseKey → opSafe (rq_Method origin) (Some s) run op) as Hdel by (intros ->; by split).
  destruct (_ || _) eqn:Hbad.
  { destruct (_ && _); [apply list_elem_of_singleton in Ho; auto|by apply elem_of_nil in Ho]. }
  b2p. assert (w_captureErr w = None) as Hc by (by apply eq_None_not_Some). destruct (_ =? 304).
  { destruct (admitRevalidated _ _ _ _ _ _) eqn:Ea; apply list_elem_of_singleton in Ho; [subst op|auto]. destruct (admit_safe _ _ Ea). split_and!; try done. by exists s. }
  set (header := prepareResponse _ _ _ _) in *. clearbody header. destruct (cacheable h _ header _) eqn:Ec; [|apply list_elem_of_singleton in Ho; auto].
  destruct (variedHeaders h r header) as [varied|]; [|apply list_elem_of_singleton in Ho; auto].
  eapply spool_put; try done.
  - by eapply background_capture.
  - by eapply background_capture.
Qed.

End Request.

(** ** Requests *)

Notation ServeHTTP := (ServeHTTP ToLower sha256hex ParseTime DumpResponse h).
Notation refresh := (refresh ToLower sha256hex ParseTime DumpResponse h).
Notation fetchAndServe := (fetchAndServe ToLower sha256hex ParseTime DumpResponse h).

Lemma fetch_origin now r range baseRaw baseKey (stale : option (response R)) m env op : op ∈ oc_ops (fetchAndServe now r range baseRaw baseKey stale m env) →
  originRequest r range stale ∈ oc_origin (fetchAndServe now r range baseRaw baseKey stale m env).
Proof.
  unfold CacheHandler.fetchAndServe. set (origin := originRequest r range stale). destruct (negb (ev_slot env)); [intros Ho; by apply elem_of_nil in Ho|]. intros _.
  destruct (captureRun _ _ _ _ _ _ _ _ _ _ _ _) as [w failed]. destruct (bool_decide (is_Some (w_encode w))).
  { destruct (finishStreamEncode _ _ _ _ _ _ _ _ _ _ _ _ _). by apply list_elem_of_singleton. }
  destruct (_ || staleEligibleStatus _).
  - destruct (match stale with Some s => _ | None => None end); [by apply list_elem_of_singleton|]. destruct (_ && _ && _); [by apply list_elem_of_singleton|].
    destruct (w_streamed w); [by apply list_elem_of_singleton|]. destruct (_ || _); [by apply list_elem_of_singleton|]. destruct (WriteResponse _ _ _). by apply list_elem_of_singleton.
  - destruct (if _ =? 304 then stale else None); [destruct (handleNotModified _ _ _ _ _ _ _ _ _ _ _)|destruct (fetchStore _ _ _ _ _ _ _ _ _ _ _ _ _ _)]; by apply list_elem_of_singleton.
Qed.
(** An operation of a request comes from a fetch. *)
Lemma serve_ops now r range (found : lookupResult R) flight env op : op ∈ oc_ops (ServeHTTP now r range found flight env).1 →
  let baseRaw := cacheKey ToLower h r None in
  let baseKey := storageKey sha256hex h baseRaw in
  headerGet (rq_Header r) "Authorization" = "" ∧ ∃ stale m, (ServeHTTP now r range found flight env).1 = fetchAndServe now r range baseRaw baseKey stale m env
    ∧ stale = (λ resp, applyRevalidatedHeaders resp (lm_Headers (lk_metadata found))) <$> lk_stale found.
Proof.
  unfold CacheHandler.ServeHTTP. destruct (bool_decide (headerGet (rq_Header r) "Authorization" = "")) eqn:Ea; cbn [negb]; [|intros Ho; by apply elem_of_nil in Ho]. b2p.
  set (baseRaw := cacheKey _ _ _ _). set (baseKey := storageKey _ _ _). set (stale := _ <$> lk_stale found). intros Ho. split; [done|].
  destruct (_ <$> lk_fresh found); [by apply elem_of_nil in Ho|]. destruct (if withinStaleWindow _ _ _ then stale else None); [by apply elem_of_nil in Ho|].
  destruct (_ && _); [|by eexists _, _]. destruct (fa_cancelled flight); [by apply elem_of_nil in Ho|]. destruct (lk_fresh (fa_after flight)); [by apply elem_of_nil in Ho|]. by eexists _, _.
Qed.


(** ** The request to the origin *)

Lemma clear_preconditions header name : headerGet (clearClientPreconditions header) name =
  if bool_decide (name ∈ ["If-Match"; "If-Unmodified-Since"; "If-None-Match"; "If-Modified-Since"; "If-Range"]) then "" else headerGet header name.
Proof.
  unfold clearClientPreconditions, delHeaders, delHeader, headerGet, headerValues. cbn [foldl].
  destruct (bool_decide_reflect (name ∈ ["If-Match"; "If-Unmodified-Since"; "If-None-Match"; "If-Modified-Since"; "If-Range"])) as [Hin|Hout].
  - repeat (apply elem_of_cons in Hin as [->|Hin]; [by simplify_map_eq|]). by apply elem_of_nil in Hin.
  - rewrite !lookup_delete_ne; [done|set_solver..].
Qed.
(** With a stale entry the origin is asked about that entry, and the client's own
    preconditions stay here. *)
Lemma origin_validators r range (s : response R) name : name ∈ ["If-Match"; "If-Unmodified-Since"; "If-None-Match"; "If-Modified-Since"; "If-Range"] →
  headerGet (rq_Header (originRequest r range (Some s))) name =
  if bool_decide (name = "If-None-Match") then headerGet (rs_Header s) "Etag"
  else if bool_decide (name = "If-Modified-Since") && bool_decide (headerGet (rs_Header s) "Etag" = "") then headerGet (rs_Header s) "Last-Modified" else "".
Proof.
  intros Hin. unfold originRequest. set (r1 := rangeRequest r range). clearbody r1. cbn [withHeader rq_Header].
  pose proof (clear_preconditions (rq_Header r1)) as Hc. set (h0 := clearClientPreconditions _) in *. clearbody h0.
  assert (headerGet h0 name = "") as Hn by (by rewrite Hc, bool_decide_eq_true_2).
  assert (∀ key values, headerGet (setHeader h0 key values) name = if bool_decide (name = key) then hd "" values else "") as Hset.
  { intros key values. unfold headerGet, headerValues, setHeader in *. case_bool_decide; subst; [rewrite lookup_insert_eq; by destruct values|by rewrite lookup_insert_ne]. }
  unfold revalidate. destruct (bool_decide_reflect (headerGet (rs_Header s) "Etag" = "")) as [He|He]; cbn [negb].
  - destruct (bool_decide_reflect (headerGet (rs_Header s) "Last-Modified" = "")) as [Hm|Hm]; cbn [negb]; rewrite ?Hset, ?Hn, ?He, ?Hm; by repeat case_bool_decide; subst.
  - rewrite Hset, andb_false_r. cbn [hd]. by case_bool_decide.
Qed.

(** ** A failing origin *)

(** What the client sees of a stored entry: its status and body, or the end a
    precondition of the client asks for. *)
Lemma serve_cached_body now r (s : response R) result key m : ∃ code header body,
  serveCached ToLower sha256hex ParseTime h now r None s result key m = Stored (R := R) code header body
  ∧ (code = rs_StatusCode s ∨ preconditionEnds code) ∧ (body = None ∨ body = Some (rs_Body s)).
Proof.
  pose proof (conditional_values ParseTime r (rs_StatusCode s) (rs_Header s)) as Hc. unfold conditionalStatus in Hc. cbn zeta in Hc.
  unfold serveCached. set (status := Status _ _ _) in *. destruct (status =? 0) eqn:E; cbn [negb].
  - assert ((if negb (bool_decide (rq_Method r = "HEAD")) then Ok s else Ok s) = Ok (E := ioError) s) as -> by (by destruct (negb _)).
    eexists _, _, _. split; [reflexivity|]. split; [by left|]. destruct (_ || _); auto.
  - b2p. destruct Hc as [|Hc]; [done|]. eexists _, _, _. split; [reflexivity|]. split; [by right|]. cbn [rs_StatusCode rs_Body]. destruct (_ || _); auto.
Qed.

(** The ways a fetch fails: an error of the origin or of the capture, a body
    shorter or longer than announced, or a server error. *)
Definition fetchFails (origin : request) (run : capture * bool) : Prop :=
  run.2 = true ∨ w_captureErr run.1 ≠ None ∨ responseIncomplete (rq_Method origin) (statusOf run.1) (w_header run.1) (w_size run.1) = true
  ∨ staleEligibleStatus (statusOf run.1) = true.
Lemma fetch_fails origin run : fetchFails origin run →
  run.2 || bool_decide (is_Some (w_captureErr run.1)) || responseIncomplete (rq_Method origin) (statusOf run.1) (w_header run.1) (w_size run.1)
    || staleEligibleStatus (statusOf run.1) = true.
Proof. unfold fetchFails. destruct run as [w []]; [done|]. cbn [fst snd]. destruct (w_captureErr w), (responseIncomplete _ _ _ _), (staleEligibleStatus _); naive_solver. Qed.
(** The request a background refresh sends. *)
Definition refreshRequest (r : request) (s : response R) : request :=
  withHeader r (revalidate (delHeader (clearClientPreconditions (rq_Header r)) "Range") (rs_Header s)).


End Handler.

(** ** Flights *)

(** A key is in the table exactly while one request leads its flight, on a
    channel of its own that is open; who waits, waits for the flight of its key
    or on a closed channel. *)
Record flightInv (w : flightWorld) : Prop := {
  fi_open : ∀ key c, fl_table (fw_flights w) !! key = Some c → (c < fl_next (fw_flights w))%nat ∧ c ∉ fl_closed (fw_flights w);
  fi_own : ∀ key key' c, fl_table (fw_flights w) !! key = Some c → fl_table (fw_flights w) !! key' = Some c → key = key';
  fi_closed : ∀ c, c ∈ fl_closed (fw_flights w) → (c < fl_next (fw_flights w))%nat;
  fi_leader : ∀ key, is_Some (fl_table (fw_flights w) !! key) ↔ ∃ id, fw_requests w !! id = Some (key, Leading);
  fi_one : ∀ key id id', fw_requests w !! id = Some (key, Leading) → fw_requests w !! id' = Some (key, Leading) → id = id';
  fi_wait : ∀ id key c, fw_requests w !! id = Some (key, WaitingOn c) → c ∈ fl_closed (fw_flights w) ∨ fl_table (fw_flights w) !! key = Some c;
}.
(** A request that neither led nor leads changes its state. *)
Lemma flight_move w id key s s' : flightInv w → fw_requests w !! id = s → (∀ key', s ≠ Some (key', Leading)) → s' ≠ Leading →
  (∀ c, s' = WaitingOn c → c ∈ fl_closed (fw_flights w) ∨ fl_table (fw_flights w) !! key = Some c) →
  flightInv (setRequest w (fw_flights w) id key s').
Proof.
  intros [Ho Hu Hc Hl H1 Hw] Hs Hn Hs' Hwait. assert (∀ id' key', <[id := (key, s')]> (fw_requests w) !! id' = Some (key', Leading) ↔ fw_requests w !! id' = Some (key', Leading)) as He.
  { intros id' key'. destruct (decide (id = id')) as [<-|]; [rewrite lookup_insert_eq|by rewrite lookup_insert_ne]. split; [intros [= _ ?]; congruence|rewrite Hs; intros Hx; by destruct (Hn key')]. }
  split; cbn [setRequest fw_flights fw_requests]; try done.
  - intros key'. rewrite Hl. by setoid_rewrite He.
  - intros key' id1 id2. rewrite !He. apply H1.
  - intros id' key' c. destruct (decide (id = id')) as [<-|]; [rewrite lookup_insert_eq; intros [= <- ->]; by apply Hwait|rewrite lookup_insert_ne by done; apply Hw].
Qed.
Lemma flight_begins w id key : flightInv w → fw_requests w !! id = Some (key, Arriving) → fl_table (fw_flights w) !! key = None →
  flightInv (setRequest w (beginFlight (fw_flights w) key).1 id key Leading).
Proof.
  intros [Ho Hu Hc Hl H1 Hw] Hs Ht. unfold beginFlight. rewrite Ht. cbn [fst]. split; cbn [setRequest fw_flights fw_requests fl_table fl_closed fl_next].
  - intros key' c [[<- <-]|[_ H]]%lookup_insert_Some; [split; [lia|intros ?%Hc; lia]|]. apply Ho in H. naive_solver lia.
  - intros k1 k2 c [[<- <-]|[Hx1 E1]]%lookup_insert_Some [[<- Ec]|[Hx2 E2]]%lookup_insert_Some; try done.
    + apply Ho in E2. lia.
    + subst c. apply Ho in E1. lia.
    + by eapply Hu.
  - intros c H%Hc. lia.
  - intros key'. destruct (decide (key = key')) as [<-|Hne].
    + rewrite lookup_insert_eq. split; [intros _; exists id; by rewrite lookup_insert_eq|by eexists].
    + rewrite lookup_insert_ne by done. rewrite Hl. split; intros [id' Hi]; exists id'.
      * rewrite lookup_insert_ne; [done|congruence].
      * apply lookup_insert_Some in Hi as [[_ ?]|[_ ?]]; [congruence|done].
  - assert (∀ id', fw_requests w !! id' ≠ Some (key, Leading)) as Hnone by (intros id' Hi; destruct (proj2 (Hl key)) as [c Hcc]; [by eexists|congruence]).
    intros key' i j [[<- E1]|[_ E1]]%lookup_insert_Some [[<- E2]|[_ E2]]%lookup_insert_Some; try done; simplify_eq; [by destruct (Hnone j)|by destruct (Hnone i)|by eapply H1].
  - intros id' key' c [[_ ?]|[_ E]]%lookup_insert_Some; [done|]. destruct (Hw _ _ _ E) as [|Hx]; [by left|right]. rewrite lookup_insert_ne; congruence.
Qed.
Lemma flight_ends w id key : flightInv w → fw_requests w !! id = Some (key, Leading) → flightInv (setRequest w (endFlight (fw_flights w) key) id key Finished).
Proof.
  intros [Ho Hu Hc Hl H1 Hw] Hs. destruct (proj2 (Hl key)) as [c Ht]; [by eexists|]. unfold endFlight. rewrite Ht.
  split; cbn [setRequest fw_flights fw_requests fl_table fl_closed fl_next].
  - intros key' c' [Hne E]%lookup_delete_Some. destruct (Ho _ _ E). split; [done|]. intros [->%elem_of_singleton|]%elem_of_union; [|done]. by destruct Hne; eapply Hu.
  - intros k1 k2 c' [_ E1]%lookup_delete_Some [_ E2]%lookup_delete_Some. by eapply Hu.
  - intros c' [->%elem_of_singleton|H]%elem_of_union; [by apply Ho in Ht as []|by apply Hc].
  - intros key'. destruct (decide (key = key')) as [<-|Hne].
    + rewrite lookup_delete_eq. split; [by intros []|]. intros [id' [[_ ?]|[Hne E]]%lookup_insert_Some]; [done|]. by destruct Hne; eapply H1.
    + rewrite lookup_delete_ne by done. rewrite Hl. split; intros [id' E]; exists id'.
      * rewrite lookup_insert_ne; [done|congruence].
      * apply lookup_insert_Some in E as [[_ ?]|[_ ?]]; done.
  - intros key' i j [[_ ?]|[_ E1]]%lookup_insert_Some [[_ ?]|[_ E2]]%lookup_insert_Some; try done. by eapply H1.
  - intros id' key' c' [[_ ?]|[_ E]]%lookup_insert_Some; [done|]. destruct (Hw _ _ _ E) as [Hx|Hx]; [left; set_solver|]. destruct (decide (key = key')) as [<-|Hne].
    + left. replace c' with c by congruence. set_solver.
    + right. by rewrite lookup_delete_ne.
Qed.
Lemma flight_waits w id key f c : flightInv w → fw_requests w !! id = Some (key, Turned) → flightDone (fw_flights w) key = (f, c) →
  flightInv (setRequest w f id key (WaitingOn c)).
Proof.
  intros Hi Hs. unfold flightDone. destruct (fl_table (fw_flights w) !! key) as [c'|] eqn:Ht; intros [= <- <-].
  - apply (flight_move w id key _ _ Hi Hs); try done. intros c [= <-]. by right.
  - set (w1 := FlightWorld (MkFlights (fl_table (fw_flights w)) ({[fl_next (fw_flights w)]} ∪ fl_closed (fw_flights w)) (S (fl_next (fw_flights w)))) (fw_requests w)).
    assert (flightInv w1) as H1.
    { destruct Hi as [Ho Hu Hc Hl H1 Hw]. split; cbn; try done.
      - intros key' c E. destruct (Ho _ _ E). split; [lia|]. intros [->%elem_of_singleton|]%elem_of_union; [lia|done].
      - intros c [->%elem_of_singleton|H%Hc]%elem_of_union; lia.
      - intros id' key' c E. destruct (Hw _ _ _ E); [left; set_solver|by right]. }
    apply (flight_move w1 id key _ _ H1 Hs); try done. intros c [= <-]. left. set_solver.
Qed.
Lemma flight_inv w : flightReachable w → flightInv w.
Proof.
  unfold flightReachable. intros Hr. remember (FlightWorld noFlights ∅) as w0 eqn:E0. assert (flightInv w0) as Hi.
  { subst. split; cbn; try set_solver. all: intros *; rewrite ?lookup_empty; try done. split; [by intros []|]. intros [id Hx]. by rewrite lookup_empty in Hx. }
  clear E0. induction Hr as [w|w w1 w' Hst _ IH]; [done|]. apply IH. destruct Hst as [w id key Hs|w id key f leads Hs Hb|w id key f c Hs Hb|w id key c Hs Hc|w id key c Hs|w id key Hs|w id key Hs].
  - by apply (flight_move w id key _ _ Hi Hs).
  - destruct (fl_table (fw_flights w) !! key) eqn:Ht.
    + unfold beginFlight in Hb. rewrite Ht in Hb. injection Hb as <- <-. by apply (flight_move w id key _ _ Hi Hs).
    + pose proof (flight_begins w id key Hi Hs Ht) as Hx. rewrite Hb in Hx. unfold beginFlight in Hb. rewrite Ht in Hb. by injection Hb as <- <-.
  - by apply flight_waits.
  - by apply (flight_move w id key _ _ Hi Hs).
  - by apply (flight_move w id key _ _ Hi Hs).
  - by apply (flight_move w id key _ _ Hi Hs).
  - by apply flight_ends.
Qed.

(** C17. In every interleaving of requests for the same and for other keys that
    coalesce: at most one request at a time leads the flight of a key, a request is
    turned away exactly while another one leads, and whoever waits either has been
    released already or is released when the leader it waits for ends.  A released
    request looks the entry up again and may then fetch without leading; such
    fetches are not bounded. *)
Theorem flights_coalesce (w : flightWorld) :
  flightReachable w →
  (∀ key id id', fw_requests w !! id = Some (key, Leading) → fw_requests w !! id' = Some (key, Leading) → id = id')
  ∧ (∀ key, (beginFlight (fw_flights w) key).2 = true ↔ ¬ ∃ id, fw_requests w !! id = Some (key, Leading))
  ∧ (∀ id key c, fw_requests w !! id = Some (key, WaitingOn c) →
       c ∈ fl_closed (fw_flights w)
       ∨ ∃ leader, fw_requests w !! leader = Some (key, Leading) ∧ c ∈ fl_closed (endFlight (fw_flights w) key)).
Proof.
  intros Hr. pose proof (flight_inv w Hr) as [Ho Hu Hc Hl H1 Hw]. split_and!; [done| |].
  - intros key. rewrite <- Hl. unfold beginFlight. destruct (fl_table (fw_flights w) !! key); cbn; (split; [try done|try done]).
    + intros []. by eexists.
  - intros id key c E. destruct (Hw _ _ _ E) as [|Ht]; [by left|right]. destruct (proj1 (Hl key)) as [leader HL]; [by eexists|]. exists leader. split; [done|].
    unfold endFlight. rewrite Ht. cbn. set_solver.
Qed.

(** ** Examples *)

Module CacheDemo.
Definition same (s : string) : string := s.
Definition noTime (s : string) : option Z := None.
Definition dump (status : Z) (header : HttpHeader) (size : Z) : list byte := [x48].
#[local] Instance noBytes : ObjectBytes unit := {| ob_read := λ r n, ([], None, r); ob_seek := λ r n, Some r |}.
Definition site : Handler := MkHandler "site" ["METHOD"; "HOST"; "PATH"; "QUERY"] "" [] true [] [] [] false false 60 ∅ 30 0 0 true true true false false 0 [] "".
Definition get : request := Request "GET" "example.com" "/" "" "/" ∅ ∅ [] "" None "https" true "/".
Definition answers : oracle := Oracle [true; true; true; true] [] [] [] true.
Definition page : list action := [SetHeaders {["Content-Type" := ["text/plain"]; "Content-Length" := ["2"]]}; SendHeader 200; Send [x68]; Send [x69]].
Definition missing : lookupResult unit := Lookup None None (MkMetadata zeroTime zeroTime ∅ "").
Definition env (run : list action * bool) : environment unit := Environment true answers ∅ (λ _, run) true missing.
Definition alone : flightAnswers unit := FlightAnswers true true false missing.
Definition baseRaw : string := cacheKey same site get None.
Definition baseKey : string := storageKey same site baseRaw.

(** A miss: the page goes to the client and to the store. *)
Notation miss := ((ServeHTTP same same noTime dump site 0 get None missing alone (env (page, false))).1) (only parsing).
Lemma miss_stores : ∃ p, oc_ops miss = [OpPut p [x68; x69]].
Proof. eexists. vm_compute. reflexivity. Qed.
Lemma page_status : SendHeader 0 ∉ page.
Proof. unfold page. intros Hx. repeat (apply elem_of_cons in Hx as [Hx|Hx]; [discriminate Hx|]). by apply elem_of_nil in Hx. Qed.
Lemma capture_transparent_witness :
  ∃ header, receives (w_events (WriteResponse noTime get (performs same same noTime dump site get "GET" baseRaw baseKey (newCapturedResponse site true true ∅ answers) page)).1)
    200 header [x68; x69].
Proof.
  destruct (proj1 (capture_transparent same same noTime dump site get "GET" baseRaw baseKey true ∅ answers page eq_refl
    ltac:(vm_compute; reflexivity) page_status)) as (status & header & quiet & (before & after & _ & Hq & Hs & _) & Hr).
  exists header. subst quiet status. exact Hr.
Defined.

(** A broken origin and an entry that is stale for a second. *)
Definition entry : response unit := MkResponse "200 OK" 200 {["Etag" := ["a"]]} 0 NoBody.
Definition broken : list action * bool := ([SendHeader 200; Send [x68]], true).

(** A second request waits for the first. *)
Definition waiting : flightWorld :=
  setRequest (setRequest (setRequest (setRequest (setRequest (FlightWorld noFlights ∅) noFlights 0 "k" Arriving) (beginFlight noFlights "k").1 0 "k" Leading)
    (beginFlight noFlights "k").1 1 "k" Arriving) (beginFlight noFlights "k").1 1 "k" Turned) (beginFlight noFlights "k").1 1 "k" (WaitingOn 0).
Lemma flight_waiting_reachable : flightReachable waiting.
Proof.
  eapply rtc_l; [by apply (flight_arrive _ 0%nat "k")|]. eapply rtc_l; [by apply (flight_begin _ 0%nat "k" (beginFlight noFlights "k").1 true)|].
  eapply rtc_l; [by apply (flight_arrive _ 1%nat "k")|]. eapply rtc_l; [by apply (flight_begin _ 1%nat "k" (beginFlight noFlights "k").1 false)|].
  eapply rtc_l; [by apply (flight_wait _ 1%nat "k" (beginFlight noFlights "k").1 0%nat)|]. apply rtc_refl.
Qed.
Lemma flights_coalesce_witness : fw_requests waiting !! 1%nat = Some ("k", WaitingOn 0) ∧ (beginFlight (fw_flights waiting) "j").2 = true.
Proof.
  split; [reflexivity|]. destruct (flights_coalesce waiting flight_waiting_reachable) as (_ & H & _). apply H.
  intros [id Hid]. unfold waiting, setRequest in Hid. cbn [fw_requests] in Hid.
  repeat (apply lookup_insert_Some in Hid as [[_ Hid]|[_ Hid]]; [discriminate Hid|]). rewrite lookup_empty in Hid. discriminate Hid.
Defined.
End CacheDemo.
